(* ===== verification/_CoqProject ===== *)
-Q . S2P
Prelude.v
Errors.v
Metrics.v
Confirms.v
Values.v
XDeath.v
Pool.v
Limiters.v
Topology.v
Redeclare.v
Delivery.v
Consumer.v
Subscription.v
SubscriptionInv.v
Message.v
Codec.v
CloudEvents.v
Publisher.v
Rpc.v
Replier.v
BatchConsumer.v
BatchSubscription.v
Builders.v
Retry.v
Covercheck.v
ClusterKit.v
Redact.v
Log.v
Reconnect.v
Sockets.v
ConnOptions.v
PublisherLife.v
Barrier.v
Recovery.v
Tracing.v
EndToEnd.v
Examples.v
Effects.v
Fixture.v
ExamplePrograms.v
