(* ===== verification/Prelude.v ===== *)
(** * Warren: a verification development

    Warren ([src/], Go) is a client library for RabbitMQ on top of the
    [amqp091-go] driver: publishing with confirms, consuming with
    acknowledgements and redelivery limits, request/reply, declaring
    topologies, and keeping pools of supervised connections alive.  This library
    models the code that decides what happens to a message and to a connection,
    and proves the properties the code is written for.

    ** The parts and where they are modelled

    Shared:
    - [Prelude]: Go integers and durations, results of fallible calls, lemmas.
    - [Errors]: the sentinels, wrapped errors with [errors.Is]/[errors.As], the
      reply-code tables, [IsTransient]/[IsPermanent], [wrapAMQPError]
      ([errors.go], [internal/amqperror]).
    - [Values]: dynamic header and argument values, the constants of [types.go].
    - [Metrics]: the recorder interfaces, their no-op and Prometheus
      implementations and the registration of collectors ([metrics/]).
    - [Log]: the logger adapters ([log/]), on top of [Redact].
    - [Tracing]: the header carrier and the spans of both paths ([otel/],
      [publisher.go], [consumer.go], [batch_consumer.go]); uses [Message],
      [Publisher] and [Consumer].

    Publishing:
    - [Confirms]: the publisher-confirm tracker ([internal/confirms]), with its
      waiters as a heap of shared objects; [tracker_refines_spec] is the
      refinement of a tracker that scans its whole map.
    - [Pool]: the two channel pools ([channelpool.go], [publisherConnPool]) as a
      step function over their token channel and idle list.
    - [Message]: defaults, header validation, [encodeMsg], [injectTrace],
      [buildPublishing] ([message.go], [publisher.go]).
    - [Codec], [CloudEvents]: the codecs ([codec/]).  [CodecErrors] is the
      contract of the interface, which every codec is proved to keep; JSON with
      its check for trailing data and its unknown-field observer; Protocol
      Buffers; CloudEvents in structured and binary mode, the latter composed
      with [Message].
    - [Publisher]: [Publish] with its retry loop, [publishOnce],
      [PublishBatch], the confirm demultiplexer, [selectPool]
      ([publisher.go]); uses [Message], [Confirms] and [Errors].
    - [PublisherLife]: opening of channels, the return callback, and [Close]
      against concurrent calls ([publisher.go]).
    - [Limiters]: rate limiter, in-flight byte budget, log samplers, queue-depth
      sampler ([publisher_rate_limiter.go], [consumer.go]).
    - [Retry]: [RetryPolicy.NextBackoff] in binary64 arithmetic ([retry.go]).

    Consuming:
    - [Delivery]: verdicts on one delivery and their compare-and-swap
      ([delivery.go]); [XDeath]: the x-death parser ([internal/headers]).
    - [Consumer]: [dispatch] of one delivery with its decode, limit, timeout and
      verdict paths, the in-process redelivery counter, dedupe, pinning
      ([consumer.go], [internal/connpool]).
    - [Subscription], [SubscriptionInv]: the life of a consumer: [runConsume],
      its pump, the reconnect hook, recovery, broker cancels, [Pause], [Resume]
      and [Close] as one step system, and its invariants ([consumer.go]).
    - [BatchConsumer], [BatchSubscription]: batches, their verdicts and the
      consume loop; subscribing again after a reconnect ([batch_consumer.go]);
      the delivery and batch fixtures ([fixture.go]).
    - [Rpc], [Replier]: [Caller] with its sessions and pending calls, and
      [Replier] with its reply publisher ([rpc.go], [rpc_replier.go]); the
      replier runs on [Consumer.dispatch] and on [Confirms].

    Topology and connections:
    - [Topology]: exchanges, queues, bindings and dead letters: validation,
      expansion and declaration ([topology.go], [delay.go]).
    - [Redeclare]: attached topologies and the coalesced redeclare after a
      reconnect ([AttachTo], [runTopologyRedeclare], [ensureTopologyRedeclare]).
    - [Builders]: the five builders ([*_builder.go]): every option, the defaults
      and checks of [Build].  [LastWins] is the interface of option calls, for
      which [last_call_wins] is proved once.
    - [Reconnect]: the retry loop and the loop object with its callbacks and
      [Stop], address rotation, option validation, the boot policy of [Dial],
      health ([internal/reconnect], [connection.go]).
    - [Sockets]: opening channels, broker version and channel-max, reconnect
      hooks, guarded user callbacks, health checks ([connection.go]).
    - [ConnOptions]: the connection options, their defaults, the identity and
      configuration dialled with, shuffle seeds, [Close] and [ForceReconnect]
      ([options_connection.go], [connection.go]).
    - [Barrier]: the per-socket supervisor, [runBarrier] and [waitBarrier]
      ([connection.go]).
    - [Redact]: removal of credentials from texts ([internal/redact]).

    Composition:
    - [EndToEnd]: [Publish], a broker under the laws of [EndToEnd.BrokerLaws]
      and [dispatch] in one run.
    - [Recovery]: the supervisor of [Barrier], the goroutines in which
      [runBarrier] calls the hooks, and any number of consumers of
      [Subscription] on one connection, as one system.

    Beside the library:
    - [Covercheck]: the coverage gate ([internal/cmd/covercheck]).
    - [ClusterKit]: the cluster test support: what it makes of the management
      API's answers, its polling loops, docker commands and proxy control
      ([internal/amqptest/cluster*.go]).
    - [Effects]: programs over the calls they make, their runs, monitors of
      runs and the rules for what holds of every run.
    - [Fixture]: the broker a test starts in a container, its options and its
      termination ([internal/amqptest]), on [Effects].
    - [Examples]: the dedupe window and the ordered sink of two examples.
    - [ExamplePrograms]: the eleven programs of [examples/], call by call, with
      their topologies and handlers, on [Effects]; the topologies are checked
      by [Topology], the builder calls by [Builders], and a handler runs through
      [Consumer.dispatch].

    ** How the code is modelled

    Sequential code is a function on explicit state; a call that can fail
    returns a [result] or an optional error.  What the code does not decide
    (broker frames, dialling, user handlers, clocks, scheduling) is an argument.
    Third-party code enters as a class of operations with the laws the code
    relies on ([CloudEvents.EventSDK], [Consumer.DedupeStore], [EndToEnd.BrokerLaws],
    [Tracing.TextMapPropagator]); each class has an instance.  Where goroutines share state, each critical section, atomic
    operation or channel operation is one step ([Pool.step], [Delivery.vstep],
    [Redeclare.cstep], [Barrier.step], [Barrier.wstep], [BatchConsumer.bstep],
    [Subscription.step], [Rpc.step], [BatchSubscription.bsys_step],
    [PublisherLife.lstep], [Recovery.rstep]), and the theorems are about every reachable state.
    Blocking calls are split at the point where they block; a result [None] of
    such a function means that it is still blocked.  Shared objects are modelled
    as such: waiters of the tracker live in a heap, deliveries of a batch are
    the handler's own, the cache of known JSON fields is threaded through.
    History variables (frames sent, deliveries dispatched, sockets restored) are
    never read by an operation.  A map that the code ranges over is visited in
    an order given as an argument, and the theorems hold for every order.

    ** What the theorems show

    - End to end: a mandatory message whose [Publish] returned nil stays at the
      broker until a dispatch acked it after its handler had succeeded, or
      nacked it for a documented reason.
    - Publishing: a nil result means that the broker acked that very delivery
      tag; the result of every attempt and of every message of a batch is the
      one read off the frames; retries are bounded and selective; the tracker's
      low-water index is correct and bounded; a CloudEvent and the properties of
      a returned message come back as they were sent; a publisher closes only
      when it is idle; delays lie in their window.
    - Consuming: an ack is sent only for a message whose handler succeeded, at
      most one frame per delivery, redelivery limits hold, dedupe suppresses
      only what succeeded; a subscription neither loses nor reorders a delivery
      through pauses, reconnects and recoveries, bounds what is in flight, and
      tells its handlers when the channel ends; a batch consumer settles exactly
      what it dispatched.
    - Request/reply: a call gets the reply to its own request, no pending entry
      leaks and no call is stranded; a request is acked only after its reply was
      confirmed, and every request is accounted for.
    - Topology: at-least-once dead-lettering is always coupled with
      reject-publish, dead letters are complete, declarations are in order, a
      recovery wave redeclares once and covers every attached topology.
    - Connections: traffic resumes only on a restored socket, to which every
      consumer that was there before has subscribed again; callers sleep only
      behind the barrier, the supervisor never abandons it, boot and fail-over
      policies hold, the reported identity is the one presented, retry loops
      end, credentials with their at signs percent-encoded never survive
      redaction.
    - Observation: trace context survives a publish, spans show no payload, logs
      no credentials, every metric call has the labels its vector was created
      with.
    - Resources and configuration: pools conserve their tokens, limits on rate
      and bytes hold, what a builder returns is usable.
    - Programs: whatever the environment answers, an example releases what it
      acquired, in order and on every path, and succeeds only when it has done
      and checked what it shows; a test terminates the broker it started exactly
      once ([Fixture.fixture_terminates]).

    Lemmas named after a defect ([Consumer.outer_deadline_rejects],
    [Topology.submillisecond_dlq_ttl], [Pool.channel_pool_loses_token_per_panic],
    [BatchConsumer.partial_ack_is_acked_by_next_batch],
    [BatchSubscription.batch_stalls_after_reconnect],
    [SubscriptionInv.rapid_resume_aborts_handlers],
    [Recovery.returned_consumer_ends_recovery],
    [Replier.replier_panic_strands], [Barrier.helper_wakeup_lost],
    [Codec.json_trailing_bracket_accepted], [Codec.self_embedding_never_returns],
    [ConnOptions.heartbeat_off_is_default],
    [ConnOptions.blank_address_reports_nobody], [Redact.raw_at_shown] and others) show where the code does
    not do what it means to or what its comments say.

    ** Bounds and fuel

    Integers are [Z] with the wrap-around written out where the code can reach
    it ([wrap_signed], [wrap_unsigned], saturating sums of [XDeath], [time_sub]
    in [Limiters]); clock readings are assumed within 2^62 ns in [Limiters], and
    back-off windows below 2^53 ns in [Retry], above which the conversion to
    binary64 rounds; the gate of [Covercheck] is exact up to 10^8 statements,
    above which its tolerance counts.  The binary search of [Confirms] has fuel [length + 1] and
    halves its interval; [Redact.uri] has the length of the text and consumes a
    character per round; [Codec.knownJSONFields] has more fuel than the depth of
    embedded types; all are proved enough.  Loops that wait for the environment
    take the environment's answers as a list and return [None] if it ends first;
    those of an example take a number of rounds, the programs then [Block], and
    the theorems hold for every number.

    ** What is not modelled

    Network I/O and the driver (the environment); the CloudEvents SDK, the
    Protocol Buffers runtime, typed JSON decoding, UUIDs, random shuffle, URI
    and certificate parsers, the Prometheus client, the W3C propagator and the
    printing of foreign values (parameters); the texts of log lines and errors;
    the generator of the test certificates and the conformance suite, which
    have no logic of their own. *)

From stdpp Require Export base gmap strings list numbers sorting pretty relations.
From Stdlib Require Export Lia.

#[global] Open Scope Z_scope.

(** ** Go integers

    A Go integer is a [Z] kept in the range of its type.  [wrap_*] is the
    value an arithmetic result or a conversion is reduced to. *)

Definition wrap_unsigned (w z : Z) : Z := z mod 2 ^ w.

Definition wrap_signed (w z : Z) : Z := (z + 2 ^ (w - 1)) mod 2 ^ w - 2 ^ (w - 1).

Definition maxInt32 : Z := 2147483647.
Definition maxInt64 : Z := 9223372036854775807.
Definition minInt64 : Z := -9223372036854775808.

(** [int] is 64 bits wide on the platforms modelled. *)
Definition maxInt : Z := maxInt64.

Definition in_int64 (z : Z) : Prop := minInt64 <= z <= maxInt64.

Definition in_uint64 (z : Z) : Prop := 0 <= z < 2 ^ 64.

(** ** time.Duration: a count of nanoseconds *)

Definition nanosecond : Z := 1.
Definition millisecond : Z := 1000000.
Definition second : Z := 1000000000.

(** [Duration.Milliseconds]: integer division that truncates toward zero. *)
Definition milliseconds (d : Z) : Z := Z.quot d millisecond.

(** ** Results of fallible operations *)

Declare Scope go_scope.
Delimit Scope go_scope with go.

(** A call that returns [(T, error)]: the value, or the error. *)
Inductive result (E A : Type) : Type :=
| Ok (a : A)
| Err (e : E).
Arguments Ok {E A} a.
Arguments Err {E A} e.

Definition rbind {E A B} (r : result E A) (f : A -> result E B) : result E B :=
  match r with
  | Ok a => f a
  | Err e => Err e
  end.

Notation "'let?' x ':=' r 'in' k" := (rbind r (fun x => k))
  (at level 10, x pattern, r at level 100, k at level 200) : go_scope.

(** ** Generic lemmas *)

Lemma omap_cons {A B} (f : A -> option B) x l :
  omap f (x :: l) = match f x with Some y => y :: omap f l | None => omap f l end.
Proof. done. Qed.

Lemma rbind_Ok {E A B} (r : result E A) (f : A -> result E B) b :
  rbind r f = Ok b -> ∃ a, r = Ok a ∧ f a = Ok b.
Proof. destruct r; simpl; [eauto|done]. Qed.

Lemma rbind_Err {E A B} (r : result E A) (f : A -> result E B) e :
  rbind r f = Err e -> r = Err e ∨ ∃ a, r = Ok a ∧ f a = Err e.
Proof. destruct r; simpl; [eauto|]. intros [= ->]. by left. Qed.

Lemma wrap_signed_id (w z : Z) :
  0 < w -> - 2 ^ (w - 1) <= z < 2 ^ (w - 1) -> wrap_signed w z = z.
Proof.
  intros Hw Hz. unfold wrap_signed.
  assert (2 ^ w = 2 * 2 ^ (w - 1)) as Hp.
  { rewrite <- Z.pow_succ_r by lia. f_equal. lia. }
  rewrite Z.mod_small; lia.
Qed.

Lemma wrap_unsigned_id (w z : Z) : 0 <= z < 2 ^ w -> wrap_unsigned w z = z.
Proof. intros. unfold wrap_unsigned. by rewrite Z.mod_small. Qed.

Lemma milliseconds_nonneg (d : Z) : 0 <= d -> 0 <= milliseconds d.
Proof. intros. unfold milliseconds, millisecond. apply Z.quot_pos; lia. Qed.

Lemma milliseconds_pos_iff (d : Z) : 0 < milliseconds d <-> millisecond <= d.
Proof.
  unfold milliseconds, millisecond. split; intros H.
  - destruct (Z.lt_ge_cases d 1000000) as [Hlt|]; [|done].
    destruct (Z.le_gt_cases 0 d).
    + rewrite Z.quot_small in H by lia. lia.
    + rewrite <- (Z.opp_involutive d), Z.quot_opp_l in H by lia.
      pose proof (Z.quot_pos (- d) 1000000). lia.
  - rewrite Z.quot_div_nonneg by lia. apply Z.div_str_pos. lia.
Qed.

(** ** Maps that only evolve: every entry stays, related to what it was *)

Section keeps.
  Context `{Countable K} {A : Type} (R : A -> A -> Prop).

Definition keeps (m m' : gmap K A) : Prop :=
  ∀ i x, m !! i = Some x -> ∃ x', m' !! i = Some x' ∧ R x x'.

Lemma keeps_fmap (f : A -> A) (m : gmap K A) : (∀ x, R x (f x)) -> keeps m (f <$> m).
Proof. intros Hf i x E. exists (f x). by rewrite lookup_fmap, E. Qed.

  Context `{!Reflexive R}.

Lemma keeps_refl (m : gmap K A) : keeps m m.
Proof. intros i x E. by exists x. Qed.

Lemma keeps_fresh (m : gmap K A) i y : m !! i = None -> keeps m (<[ i := y ]> m).
Proof. intros Hn j x E. exists x. split; [|done]. rewrite lookup_insert_ne; [done|]. congruence. Qed.

Lemma keeps_insert (m : gmap K A) i x y : m !! i = Some x -> R x y -> keeps m (<[ i := y ]> m).
Proof.
  intros Hx HR j z E. destruct (decide (i = j)) as [->|].
  - rewrite lookup_insert_eq. exists y. by simplify_eq.
  - rewrite lookup_insert_ne by done. by exists z.
Qed.
End keeps.

(** ** Automation *)

(** Case analysis on every [match], [if] and [decide] in sight. *)
Ltac go_cases :=
  repeat (case_match || case_decide); simplify_eq/=.

(** Split an equation [H : f ... = Some _] at its innermost [match]es, until a
    single branch is left. *)
Ltac split_innermost x :=
  match x with
  | context [match ?y with _ => _ end] => split_innermost y
  | _ => destruct x eqn:?
  end.

Ltac branches H :=
  repeat (match type of H with
          | context [match ?x with _ => _ end] => split_innermost x
          end; try discriminate H).

(** Decompose hypotheses, then close the goal with linear arithmetic or
    congruence. *)
Ltac go_solve := naive_solver (first [lia | congruence]).

Create HintDb warren.
#[export] Hint Resolve milliseconds_nonneg : warren.
