(* ===== verification/Errors.v ===== *)
(** * Errors: sentinels, chains and their classification

    Models [src/errors.go] and [src/internal/amqperror/translate.go]: the
    sentinel errors, the error chains [fmt.Errorf("%w")] builds, the standard
    library's [errors.Is]/[errors.As] walks over them, and the functions that
    translate and classify broker errors.  Message texts are not modelled: no
    decision of the library reads them. *)

From S2P Require Import Prelude.

(** ** Data *)

(** The package-level error variables.  The last group lists the sentinels of
    other packages the root package tests for: [context], [internal/confirms]
    and [codec]. *)
Inductive sentinel : Type :=
| ErrNotConnected | ErrAlreadyClosed | ErrAlreadyResolved | ErrShutdown
| ErrChannelClosed | ErrConnectionBlocked | ErrChannelPoolExhausted
| ErrConfirmTimeout | ErrUnroutable | ErrPublishNacked | ErrPartialBatch
| ErrBatchTooLarge | ErrMessageTooLarge | ErrRateLimited
| ErrRequeue | ErrPoison | ErrMaxRedeliveries | ErrConsumerCancelled
| ErrInvalidMessage | ErrTopologyMismatch | ErrTopologyRedeclareFailed
| ErrReconnecting | ErrCallTimeout | ErrInvalidOptions
| ErrContentTooLarge | ErrConnectionForced | ErrInvalidPath | ErrAccessRefused
| ErrNotFound | ErrResourceLocked | ErrPreconditionFailed | ErrFrameError
| ErrSyntaxError | ErrCommandInvalid | ErrChannelError | ErrUnexpectedFrame
| ErrResourceError | ErrNotAllowed | ErrNotImplemented | ErrInternalError
| ErrTransient | ErrPermanent
| ContextCanceled | ContextDeadlineExceeded
| ConfirmsErrTimeout | ConfirmsErrNacked | ConfirmsErrClosed
| CodecErrInvalidMessage.

#[global] Instance sentinel_eq_dec : EqDecision sentinel.
Proof. solve_decision. Defined.

(** A non-nil [error] value.
    - [Wrap es] is [fmt.Errorf] with one [%w] verb per element of [es];
    - [CodeError] is [*codeError] (errors.go);
    - [UnroutableError] is [*confirms.UnroutableError];
    - [AmqpError] is an [*amqp091.Error] with its [Code] field; [closed] tells
      whether it is the pointer [amqp091.ErrClosed];
    - [RedactedError] is [*redactedError] (internal/redact);
    - [OtherError] is any error value of code outside the library. *)
Inductive error : Type :=
| Sentinel (s : sentinel)
| Wrap (es : list error)
| CodeError (code : Z) (err : error)
| UnroutableError (replyCode : Z)
| AmqpError (closed : bool) (code : Z)
| RedactedError (cause : error)
| OtherError (id : nat).

Coercion Sentinel : sentinel >-> error.

(** The [error] interface value: [None] is nil. *)
Abbreviation goerror := (option error).

(** ** errors.Is and errors.As *)

(** Pre-order walk of the tree of wrapped errors that stops at the first node
    [f] accepts: the traversal [errors.As] performs. *)
Fixpoint find_as {A} (f : error -> option A) (e : error) : option A :=
  match f e with
  | Some a => Some a
  | None =>
      match e with
      | Wrap es =>
          (fix go (l : list error) : option A :=
             match l with
             | [] => None
             | x :: r => match find_as f x with Some a => Some a | None => go r end
             end) es
      | CodeError _ x => find_as f x
      | RedactedError x => find_as f x
      | _ => None
      end
  end.

Fixpoint find_as_list {A} (f : error -> option A) (l : list error) : option A :=
  match l with
  | [] => None
  | x :: r => match find_as f x with Some a => Some a | None => find_as_list f r end
  end.

(** [errors.Is(err, target)] for a sentinel target. *)
Definition is_sentinel (s : sentinel) (e : error) : option unit :=
  match e with
  | Sentinel s' => if decide (s' = s) then Some tt else None
  | _ => None
  end.

Definition err_is (e : error) (s : sentinel) : bool :=
  match find_as (is_sentinel s) e with Some _ => true | None => false end.

(** [errors.Is] on an interface value that may be nil. *)
Definition errors_is (e : goerror) (s : sentinel) : bool :=
  match e with None => false | Some e => err_is e s end.

(** [errors.Is(err, amqp091.ErrClosed)]. *)
Definition err_is_amqp_closed (e : error) : bool :=
  match find_as (fun x => match x with AmqpError true _ => Some tt | _ => None end) e with
  | Some _ => true
  | None => false
  end.

(** [errors.As] for [*amqp091.Error], [*codeError] and
    [*confirms.UnroutableError]; each yields the code the caller reads. *)
Definition as_amqp (e : error) : option Z :=
  find_as (fun x => match x with AmqpError _ c => Some c | _ => None end) e.

Definition as_code_error (e : error) : option Z :=
  find_as (fun x => match x with CodeError c _ => Some c | _ => None end) e.

Definition as_unroutable (e : error) : option Z :=
  find_as (fun x => match x with UnroutableError c => Some c | _ => None end) e.

(** ** Reply codes *)

Definition amqpCodeSentinels : list (sentinel * Z) :=
  [ (ErrContentTooLarge, 311); (ErrConnectionForced, 320); (ErrInvalidPath, 402);
    (ErrAccessRefused, 403); (ErrNotFound, 404); (ErrResourceLocked, 405);
    (ErrPreconditionFailed, 406); (ErrFrameError, 501); (ErrSyntaxError, 502);
    (ErrCommandInvalid, 503); (ErrChannelError, 504); (ErrUnexpectedFrame, 505);
    (ErrResourceError, 506); (ErrNotAllowed, 530); (ErrNotImplemented, 540);
    (ErrInternalError, 541) ].

(** [amqpCodeTable]: built by ranging over [amqpCodeSentinels]. *)
Definition amqpCodeTable : gmap Z sentinel :=
  foldl (fun m s => <[s.2 := s.1]> m) ∅ amqpCodeSentinels.

(** [codeTable] of internal/amqperror, written out there a second time. *)
Definition codeTable : gmap Z sentinel :=
  list_to_map
    [ (311, ErrContentTooLarge); (320, ErrConnectionForced); (402, ErrInvalidPath);
      (403, ErrAccessRefused); (404, ErrNotFound); (405, ErrResourceLocked);
      (406, ErrPreconditionFailed); (501, ErrFrameError); (502, ErrSyntaxError);
      (503, ErrCommandInvalid); (504, ErrChannelError); (505, ErrUnexpectedFrame);
      (506, ErrResourceError); (530, ErrNotAllowed); (540, ErrNotImplemented);
      (541, ErrInternalError) ].

Fixpoint first_sentinel_code (e : error) (l : list (sentinel * Z)) : option Z :=
  match l with
  | [] => None
  | (s, c) :: r => if err_is e s then Some c else first_sentinel_code e r
  end.

(** [AMQPCode]: [None] is [(0, false)]. *)
Definition AMQPCode (err : goerror) : option Z :=
  match err with
  | None => None
  | Some e =>
      match as_code_error e with
      | Some c => Some c
      | None => first_sentinel_code e amqpCodeSentinels
      end
  end.

(** ** Retry classification *)

Definition transient_sentinels : list sentinel :=
  [ ErrChannelPoolExhausted; ErrPublishNacked; ErrConnectionBlocked;
    ErrConfirmTimeout; ErrChannelClosed; ErrReconnecting; ErrRateLimited;
    ErrConnectionForced; ErrChannelError; ErrInternalError ].

Definition IsTransient (err : goerror) : bool :=
  match err with
  | None => false
  | Some e =>
      if err_is e ContextCanceled then false
      else if err_is e ErrTransient then true
      else existsb (err_is e) transient_sentinels
  end.

Definition permanent_sentinels : list sentinel :=
  [ ErrContentTooLarge; ErrInvalidPath; ErrAccessRefused; ErrNotFound;
    ErrResourceLocked; ErrPreconditionFailed; ErrFrameError; ErrSyntaxError;
    ErrCommandInvalid; ErrUnexpectedFrame; ErrResourceError; ErrNotAllowed;
    ErrNotImplemented ].

Definition IsPermanent (err : goerror) : bool :=
  match err with
  | None => false
  | Some e =>
      if err_is e ErrPermanent then true
      else if err_is e ErrTopologyRedeclareFailed then true
      else if err_is e ErrMessageTooLarge then true
      else existsb (err_is e) permanent_sentinels
  end.

(** ** Translation of broker errors *)

Definition wrapCode (code : Z) (err : error) : error := CodeError code err.

(** [wrapAMQPError]; [uint16(amqpErr.Code)] reduces the code modulo 2^16. *)
Definition wrapAMQPError (err : goerror) : goerror :=
  match err with
  | None => None
  | Some e =>
      match as_amqp e with
      | None => Some e
      | Some code =>
          match amqpCodeTable !! wrap_unsigned 16 code with
          | None => Some e
          | Some s => Some (Wrap [Sentinel s; e])
          end
      end
  end.

(** [amqperror.Wrap]: the same translation through [codeTable]. *)
Definition amqperror_Wrap (err : goerror) : goerror :=
  match err with
  | None => None
  | Some e =>
      match as_amqp e with
      | None => Some e
      | Some code =>
          match codeTable !! wrap_unsigned 16 code with
          | None => Some e
          | Some s => Some (Wrap [Sentinel s; e])
          end
      end
  end.

(** [wrapAMQPError] of an error known to be non-nil. *)
Definition wrap_amqp (e : error) : error :=
  match wrapAMQPError (Some e) with Some e' => e' | None => e end.

(** ** Lemmas on chains *)

Lemma find_as_wrap {A} (f : error -> option A) es :
  f (Wrap es) = None -> find_as f (Wrap es) = find_as_list f es.
Proof.
  intros Hf. simpl. rewrite Hf. clear Hf. induction es as [|x r IH]; [done|].
  simpl. by destruct (find_as f x).
Qed.

Lemma find_as_leaf {A} (f : error -> option A) e a :
  f e = Some a -> find_as f e = Some a.
Proof. intros Hf. destruct e; simpl; rewrite Hf; done. Qed.

Lemma err_is_sentinel s s' : err_is (Sentinel s) s' = bool_decide (s = s').
Proof.
  unfold err_is. simpl. case_bool_decide; case_decide; done.
Qed.

Lemma err_is_wrap es s : err_is (Wrap es) s = existsb (fun e => err_is e s) es.
Proof.
  unfold err_is at 1. rewrite find_as_wrap by done.
  induction es as [|x r IH]; [done|]. simpl. unfold err_is at 1.
  destruct (find_as (is_sentinel s) x); simpl; done.
Qed.

Lemma err_is_code c e s : err_is (CodeError c e) s = err_is e s.
Proof. done. Qed.

Lemma err_is_redacted e s : err_is (RedactedError e) s = err_is e s.
Proof. done. Qed.

Lemma as_code_wrap2 a b :
  as_code_error (Wrap [a; b]) =
  match as_code_error a with Some c => Some c | None => as_code_error b end.
Proof.
  unfold as_code_error. rewrite find_as_wrap by done. simpl.
  repeat case_match; done.
Qed.

#[export] Hint Rewrite err_is_sentinel err_is_wrap err_is_code err_is_redacted : err_is.

Lemma tables_agree : amqpCodeTable = codeTable.
Proof. vm_compute. reflexivity. Qed.

Lemma amqpCodeTable_cases c s :
  amqpCodeTable !! c = Some s -> (s, c) ∈ amqpCodeSentinels.
Proof.
  rewrite tables_agree. intros H. apply elem_of_list_to_map_2 in H.
  cut (∀ p : Z * sentinel, p ∈ [ (311, ErrContentTooLarge); (320, ErrConnectionForced); (402, ErrInvalidPath);
      (403, ErrAccessRefused); (404, ErrNotFound); (405, ErrResourceLocked);
      (406, ErrPreconditionFailed); (501, ErrFrameError); (502, ErrSyntaxError);
      (503, ErrCommandInvalid); (504, ErrChannelError); (505, ErrUnexpectedFrame);
      (506, ErrResourceError); (530, ErrNotAllowed); (540, ErrNotImplemented);
      (541, ErrInternalError) ] -> (p.2, p.1) ∈ amqpCodeSentinels).
  { intros Hall. by apply (Hall (c, s)). }
  apply Forall_forall. repeat constructor; unfold amqpCodeSentinels; set_solver.
Qed.

(** Translating keeps every fact about the original chain. *)
Lemma wrapAMQPError_keeps e s :
  err_is e s = true -> errors_is (wrapAMQPError (Some e)) s = true.
Proof.
  intros H. unfold wrapAMQPError. repeat case_match; simpl; try done.
  rewrite err_is_wrap. simpl. rewrite H. by rewrite orb_true_r.
Qed.

(** A chain with no sentinel of the library and no explicit code: what the
    driver hands over. *)
Definition driver_error (e : error) : Prop :=
  as_code_error e = None ∧ ∀ s, err_is e s = false.

Lemma driver_error_amqp b c : driver_error (AmqpError b c).
Proof. split; [done|]. intros s. done. Qed.

Lemma wrap_driver_is e c s :
  driver_error e -> as_amqp e = Some c ->
  amqpCodeTable !! wrap_unsigned 16 c = Some s ->
  wrapAMQPError (Some e) = Some (Wrap [Sentinel s; e]) ∧
  ∀ s', err_is (Wrap [Sentinel s; e]) s' = bool_decide (s = s').
Proof.
  intros [_ Hno] Has Htab. unfold wrapAMQPError. rewrite Has, Htab. split; [done|].
  intros s'. rewrite err_is_wrap. simpl. rewrite err_is_sentinel, Hno. by rewrite !orb_false_r.
Qed.

Lemma first_sentinel_code_of e s c l :
  (s, c) ∈ l -> NoDup (l.*1) -> (∀ s', err_is e s' = bool_decide (s = s')) ->
  first_sentinel_code e l = Some c.
Proof.
  intros Hin Hnd He. induction l as [|[s' c'] l IH]; [by apply not_elem_of_nil in Hin|].
  simpl. rewrite He. inversion Hnd as [|?? Hnot Hnd']; subst.
  case_bool_decide as Hs.
  - subst s'. apply elem_of_cons in Hin as [Heq|Hin]; [by simplify_eq|].
    exfalso. apply Hnot. simpl. apply list_elem_of_fmap. by exists (s, c).
  - apply elem_of_cons in Hin as [Heq|Hin]; [by simplify_eq|]. by apply IH.
Qed.

Lemma amqpCodeSentinels_NoDup : NoDup (amqpCodeSentinels.*1).
Proof. apply NoDup_ListNoDup. vm_compute. repeat constructor; simpl; intuition discriminate. Qed.

(** ** Properties *)

(** A broker reply code survives translation: for an error the driver
    returns whose [*amqp091.Error] carries a code of the table,
    [AMQPCode (wrapAMQPError err)] yields that code. *)
Lemma wrapAMQPError_code_roundtrip (e : error) (c : Z) (s : sentinel) :
  driver_error e -> as_amqp e = Some c ->
  amqpCodeTable !! wrap_unsigned 16 c = Some s ->
  AMQPCode (wrapAMQPError (Some e)) = Some (wrap_unsigned 16 c)
  ∧ errors_is (wrapAMQPError (Some e)) s = true.
Proof.
  intros Hd Has Htab. destruct (wrap_driver_is e c s Hd Has Htab) as [-> His].
  destruct Hd as [Hcode _]. unfold AMQPCode. rewrite as_code_wrap2, Hcode. split.
  - change (as_code_error s) with (@None Z). cbv iota.
    apply first_sentinel_code_of with s; auto using amqpCodeTable_cases, amqpCodeSentinels_NoDup.
  - simpl. rewrite His. by apply bool_decide_eq_true_2.
Qed.

Lemma wrapAMQPError_code_roundtrip_witness :
  AMQPCode (wrapAMQPError (Some (Wrap [AmqpError false 406]))) = Some (wrap_unsigned 16 406)
  ∧ errors_is (wrapAMQPError (Some (Wrap [AmqpError false 406]))) ErrPreconditionFailed = true.
Proof.
  apply (wrapAMQPError_code_roundtrip (Wrap [AmqpError false 406]) 406 ErrPreconditionFailed);
    [split; [reflexivity | intros s; reflexivity] | reflexivity | vm_compute; reflexivity].
Defined.

(** Retry classification is a partition of the reply codes: a translated
    broker error is transient or permanent, never both; it is transient
    exactly for 320, 504 and 541. *)
Lemma reply_codes_partition (e : error) (c : Z) (s : sentinel) :
  driver_error e -> as_amqp e = Some c ->
  amqpCodeTable !! wrap_unsigned 16 c = Some s ->
  IsTransient (wrapAMQPError (Some e)) = negb (IsPermanent (wrapAMQPError (Some e)))
  ∧ (IsTransient (wrapAMQPError (Some e)) = true
     <-> wrap_unsigned 16 c = 320 ∨ wrap_unsigned 16 c = 504 ∨ wrap_unsigned 16 c = 541).
Proof.
  intros Hd Has Htab. destruct (wrap_driver_is e c s Hd Has Htab) as [-> His].
  apply amqpCodeTable_cases in Htab. unfold IsTransient, IsPermanent. simpl.
  rewrite !His. unfold amqpCodeSentinels in Htab.
  repeat (apply elem_of_cons in Htab as [Htab|Htab];
          [injection Htab as -> ->; vm_compute; intuition discriminate|]).
  by apply not_elem_of_nil in Htab.
Qed.

Lemma reply_codes_partition_witness :
  IsTransient (wrapAMQPError (Some (AmqpError false 504))) =
    negb (IsPermanent (wrapAMQPError (Some (AmqpError false 504))))
  ∧ (IsTransient (wrapAMQPError (Some (AmqpError false 504))) = true
     <-> wrap_unsigned 16 504 = 320 ∨ wrap_unsigned 16 504 = 504 ∨ wrap_unsigned 16 504 = 541).
Proof.
  apply (reply_codes_partition (AmqpError false 504) 504 ErrChannelError);
    [split; [reflexivity | intros s; reflexivity] | reflexivity | vm_compute; reflexivity].
Defined.

(** The two translation tables agree: [amqperror.Wrap] and the root
    package's [wrapAMQPError] are the same function. *)
Lemma amqperror_Wrap_equiv (err : goerror) : amqperror_Wrap err = wrapAMQPError err.
Proof.
  destruct err as [e|]; [|done]. unfold amqperror_Wrap, wrapAMQPError.
  by rewrite tables_agree.
Qed.
