(* ===== verification/Metrics.v ===== *)
(** * Metrics: the Prometheus recorders

    Models [src/metrics]: the three recorder interfaces, their no-op and
    Prometheus implementations, and the registration of the collectors.  The
    Prometheus client is not part of the repository.  A recorder is modelled by
    the calls it makes on the client's vectors; the registry is a parameter that
    accepts or refuses a collector ([Registerer]).  The client panics when a
    call has not as many label values as its vector has labels, so that is what
    is proved of every call. *)

From S2P Require Import Prelude Errors.

(** ** The client's vectors *)

Inductive kind : Type :=
| Counter
| Gauge
| Histogram (buckets : list Z).

(** A vector: its name, kind and label names.  Bucket bounds and observed values
    are seconds, counted in nanoseconds. *)
Record vec : Type := mkVec { vecName : string; vecKind : kind; vecLabels : list string }.

Inductive op : Type :=
| Inc
| Add (delta : Z)
| Set_ (x : Z)
| Observe (ns : Z)
| DeleteSeries.

(** [vec.WithLabelValues(values...)] (or [DeleteLabelValues]) and the operation
    on the series. *)
Record call : Type := mkCall { callVec : vec; callValues : list string; callOp : op }.

(** ** metrics.go *)

Inductive MetricsLabel : Type := MetricsLabelRoutingKey | MetricsLabelMessageType | OtherLabel (n : nat).

#[global] Instance MetricsLabel_eq_dec : EqDecision MetricsLabel.
Proof. solve_decision. Defined.

Definition halfSecond : Z := 500 * millisecond.

(** 0.5, 1, 2, 5, 10, 25, 50, 100, 250, 500, 1000, 5000. *)
Definition DefaultHistogramBuckets : list Z :=
  [halfSecond; 1 * second; 2 * second; 5 * second; 10 * second; 25 * second; 50 * second;
   100 * second; 250 * second; 500 * second; 1000 * second; 5000 * second].

(** The interfaces.  A recorder answers each call with the client calls it
    makes. *)
Class ClientMetrics (R : Type) : Type := {
  RecordReconnect : R -> string -> list call;
  RecordBlocked : R -> string -> Z -> list call;
  RecordTopologyRedeclare : R -> string -> Z -> list call;
  RecordDegraded : R -> string -> string -> list call
}.

Class PublisherMetrics (R : Type) : Type := {
  InFlightAdd : R -> string -> Z -> list call;
  RecordRateLimited : R -> string -> list call;
  RecordPublish : R -> string -> string -> string -> string -> Z -> list call;
  RecordRetry : R -> string -> string -> list call;
  RecordChannelPoolWait : R -> string -> Z -> list call
}.

Class ConsumerMetrics (R : Type) : Type := {
  RecordResubscribed : R -> string -> list call;
  RecordHandlerAbortedChannelClosed : R -> string -> list call;
  RecordHandlerTimeout : R -> string -> list call;
  RecordHandler : R -> string -> string -> string -> Z -> list call;
  RecordCancelled : R -> string -> string -> list call;
  RecordMaxRedeliveries : R -> string -> string -> list call;
  RecordReplierDropNoDLX : R -> string -> list call;
  RecordConsumerDropNoDLX : R -> string -> list call;
  RecordShutdownRequeued : R -> string -> list call;
  RecordRedelivered : R -> string -> list call;
  ConsumerInFlightAdd : R -> string -> Z -> list call;
  InFlightBytesAdd : R -> string -> Z -> list call;
  SetQueueDepth : R -> string -> Z -> list call;
  SetDLQDepth : R -> string -> Z -> list call;
  DeleteQueueDepth : R -> string -> list call;
  DeleteDLQDepth : R -> string -> list call
}.

(** ** noop.go *)

Inductive NoOp : Type := mkNoOp.

#[global] Instance NoOpClientMetrics : ClientMetrics NoOp := {|
  RecordReconnect _ _ := []; RecordBlocked _ _ _ := [];
  RecordTopologyRedeclare _ _ _ := []; RecordDegraded _ _ _ := []
|}.

#[global] Instance NoOpPublisherMetrics : PublisherMetrics NoOp := {|
  InFlightAdd _ _ _ := []; RecordRateLimited _ _ := []; RecordPublish _ _ _ _ _ _ := [];
  RecordRetry _ _ _ := []; RecordChannelPoolWait _ _ _ := []
|}.

#[global] Instance NoOpConsumerMetrics : ConsumerMetrics NoOp := {|
  RecordResubscribed _ _ := []; RecordHandlerAbortedChannelClosed _ _ := [];
  RecordHandlerTimeout _ _ := []; RecordHandler _ _ _ _ _ := []; RecordCancelled _ _ _ := [];
  RecordMaxRedeliveries _ _ _ := []; RecordReplierDropNoDLX _ _ := [];
  RecordConsumerDropNoDLX _ _ := []; RecordShutdownRequeued _ _ := [];
  RecordRedelivered _ _ := []; ConsumerInFlightAdd _ _ _ := []; InFlightBytesAdd _ _ _ := [];
  SetQueueDepth _ _ _ := []; SetDLQDepth _ _ _ := []; DeleteQueueDepth _ _ := [];
  DeleteDLQDepth _ _ := []
|}.

(** ** prometheus.go *)

(** [prometheus.Registerer]: the registry after an accepted collector, or the
    error. *)
Class Registerer (G : Type) : Type := { Register : vec -> G -> result error G }.

(** [for _, c := range collectors { if err := reg.Register(c); ... }]: the
    registry as the loop leaves it, and the error. *)
Fixpoint register_all `{Registerer G} (cs : list vec) (g : G) : G * goerror :=
  match cs with
  | [] => (g, None)
  | c :: r =>
      match Register c g with
      | Ok g' => register_all r g'
      | Err e => (g, Some e)
      end
  end.

(** [if buckets == nil]. *)
Definition bucketsOr (buckets : option (list Z)) : list Z := default DefaultHistogramBuckets buckets.

Definition counterVec (name : string) (labels : list string) : vec := mkVec name Counter labels.
Definition gaugeVec (name : string) (labels : list string) : vec := mkVec name Gauge labels.
Definition histogramVec (name : string) (buckets : list Z) (labels : list string) : vec :=
  mkVec name (Histogram buckets) labels.

Record PrometheusClientMetrics : Type := mkClient {
  reconnectsTotal : vec;
  blockedSeconds : vec;
  topologyRedeclare : vec;
  degradedTotal : vec
}.

Definition NewPrometheusClientMetrics `{Registerer G} (g : G) (buckets : option (list Z))
    : G * result error PrometheusClientMetrics :=
  let buckets := bucketsOr buckets in
  let m := mkClient
    (counterVec "connection_reconnects_total" ["role"%string])
    (histogramVec "connection_blocked_seconds" buckets ["role"%string])
    (histogramVec "topology_redeclare_seconds" buckets ["role"%string])
    (counterVec "connection_degraded_total" ["role"; "reason"]%string) in
  match register_all [reconnectsTotal m; blockedSeconds m; topologyRedeclare m; degradedTotal m] g with
  | (g, Some e) => (g, Err e)
  | (g, None) => (g, Ok m)
  end.

#[global] Instance prometheusClient : ClientMetrics PrometheusClientMetrics := {|
  RecordReconnect m role := [mkCall (reconnectsTotal m) [role] Inc];
  RecordBlocked m role d := [mkCall (blockedSeconds m) [role] (Observe d)];
  RecordTopologyRedeclare m role d := [mkCall (topologyRedeclare m) [role] (Observe d)];
  RecordDegraded m role reason := [mkCall (degradedTotal m) [role; reason] Inc]
|}.

Record PrometheusPublisherMetrics : Type := mkPublisherMetrics {
  inFlight : vec;
  publishSeconds : vec;
  retryTotal : vec;
  rateLimitedTotal : vec;
  channelPoolWait : vec;
  labelRoutingKey : bool;
  labelMessageType : bool
}.

(** The loop over [enabled]. *)
Definition publisher_label (bs : bool * bool) (l : MetricsLabel) : bool * bool :=
  match l with
  | MetricsLabelRoutingKey => (true, bs.2)
  | MetricsLabelMessageType => (bs.1, true)
  | OtherLabel _ => bs
  end.

Definition NewPrometheusPublisherMetrics `{Registerer G} (g : G) (buckets : option (list Z))
    (enabled : list MetricsLabel) : G * result error PrometheusPublisherMetrics :=
  let buckets := bucketsOr buckets in
  let '(rk, mt) := foldl publisher_label (false, false) enabled in
  let publishLabels := ["exchange"; "outcome"]%string in
  let publishLabels := if rk then publishLabels ++ ["routing_key"%string] else publishLabels in
  let publishLabels := if mt then publishLabels ++ ["message_type"%string] else publishLabels in
  let m := mkPublisherMetrics
    (gaugeVec "publisher_in_flight" ["exchange"%string])
    (histogramVec "publisher_publish_seconds" buckets publishLabels)
    (counterVec "publisher_retry_total" ["exchange"; "reason"]%string)
    (counterVec "publisher_rate_limited_total" ["exchange"%string])
    (histogramVec "publisher_channel_pool_wait_seconds" buckets ["exchange"%string])
    rk mt in
  match register_all [inFlight m; publishSeconds m; retryTotal m; rateLimitedTotal m; channelPoolWait m] g with
  | (g, Some e) => (g, Err e)
  | (g, None) => (g, Ok m)
  end.

#[global] Instance prometheusPublisher : PublisherMetrics PrometheusPublisherMetrics := {|
  InFlightAdd m exchange delta := [mkCall (inFlight m) [exchange] (Add delta)];
  RecordRateLimited m exchange := [mkCall (rateLimitedTotal m) [exchange] Inc];
  RecordPublish m exchange routingKey messageType outcome d :=
    let values :=
      if labelRoutingKey m && labelMessageType m then [exchange; outcome; routingKey; messageType]
      else if labelRoutingKey m then [exchange; outcome; routingKey]
      else if labelMessageType m then [exchange; outcome; messageType]
      else [exchange; outcome] in
    [mkCall (publishSeconds m) values (Observe d)];
  RecordRetry m exchange reason := [mkCall (retryTotal m) [exchange; reason] Inc];
  RecordChannelPoolWait m exchange d := [mkCall (channelPoolWait m) [exchange] (Observe d)]
|}.

Record PrometheusConsumerMetrics : Type := mkConsumerMetrics {
  resubscribedTotal : vec;
  handlerAbortedTotal : vec;
  handlerTimeoutTotal : vec;
  handlerSeconds : vec;
  cancelledTotal : vec;
  maxRedeliveriesTotal : vec;
  replierDropNoDLX : vec;
  consumerDropNoDLX : vec;
  shutdownRequeued : vec;
  redeliveredTotal : vec;
  consumerInFlight : vec;
  inFlightBytes : vec;
  queueDepth : vec;
  dlqDepth : vec;
  consumerMessageType : bool
}.

Definition consumer_vecs (m : PrometheusConsumerMetrics) : list vec :=
  [resubscribedTotal m; handlerAbortedTotal m; handlerTimeoutTotal m; handlerSeconds m;
   cancelledTotal m; maxRedeliveriesTotal m; replierDropNoDLX m; consumerDropNoDLX m;
   shutdownRequeued m; redeliveredTotal m; consumerInFlight m; inFlightBytes m; queueDepth m;
   dlqDepth m].

Definition NewPrometheusConsumerMetrics `{Registerer G} (g : G) (buckets : option (list Z))
    (enabled : list MetricsLabel) : G * result error PrometheusConsumerMetrics :=
  let buckets := bucketsOr buckets in
  let mt := existsb (fun l => bool_decide (l = MetricsLabelMessageType)) enabled in
  let handlerLabels := ["queue"; "outcome"]%string in
  let handlerLabels := if mt then handlerLabels ++ ["message_type"%string] else handlerLabels in
  let m := mkConsumerMetrics
    (counterVec "consumer_resubscribed_total" ["queue"%string])
    (counterVec "consumer_handler_aborted_channel_closed_total" ["queue"%string])
    (counterVec "consumer_handler_timeout_total" ["queue"%string])
    (histogramVec "consumer_handler_seconds" buckets handlerLabels)
    (counterVec "consumer_cancelled_total" ["queue"; "reason"]%string)
    (counterVec "consumer_max_redeliveries_total" ["queue"; "cause"]%string)
    (counterVec "replier_drop_no_dlx_total" ["queue"%string])
    (counterVec "consumer_drop_no_dlx_total" ["queue"%string])
    (counterVec "consumer_shutdown_requeued_total" ["queue"%string])
    (counterVec "consumer_redelivered_total" ["queue"%string])
    (gaugeVec "consumer_in_flight" ["queue"%string])
    (gaugeVec "consumer_inflight_bytes" ["queue"%string])
    (gaugeVec "queue_depth" ["queue"%string])
    (gaugeVec "dlq_depth" ["dlq"%string])
    mt in
  match register_all (consumer_vecs m) g with
  | (g, Some e) => (g, Err e)
  | (g, None) => (g, Ok m)
  end.

#[global] Instance prometheusConsumer : ConsumerMetrics PrometheusConsumerMetrics := {|
  RecordResubscribed m queue := [mkCall (resubscribedTotal m) [queue] Inc];
  RecordHandlerAbortedChannelClosed m queue := [mkCall (handlerAbortedTotal m) [queue] Inc];
  RecordHandlerTimeout m queue := [mkCall (handlerTimeoutTotal m) [queue] Inc];
  RecordHandler m queue messageType outcome d :=
    if consumerMessageType m
    then [mkCall (handlerSeconds m) [queue; outcome; messageType] (Observe d)]
    else [mkCall (handlerSeconds m) [queue; outcome] (Observe d)];
  RecordCancelled m queue reason := [mkCall (cancelledTotal m) [queue; reason] Inc];
  RecordMaxRedeliveries m queue cause := [mkCall (maxRedeliveriesTotal m) [queue; cause] Inc];
  RecordReplierDropNoDLX m queue := [mkCall (replierDropNoDLX m) [queue] Inc];
  RecordConsumerDropNoDLX m queue := [mkCall (consumerDropNoDLX m) [queue] Inc];
  RecordShutdownRequeued m queue := [mkCall (shutdownRequeued m) [queue] Inc];
  RecordRedelivered m queue := [mkCall (redeliveredTotal m) [queue] Inc];
  ConsumerInFlightAdd m queue delta := [mkCall (consumerInFlight m) [queue] (Add delta)];
  InFlightBytesAdd m queue delta := [mkCall (inFlightBytes m) [queue] (Add delta)];
  SetQueueDepth m queue depth := [mkCall (queueDepth m) [queue] (Set_ depth)];
  SetDLQDepth m dlq depth := [mkCall (dlqDepth m) [dlq] (Set_ depth)];
  DeleteQueueDepth m queue := [mkCall (queueDepth m) [queue] DeleteSeries];
  DeleteDLQDepth m dlq := [mkCall (dlqDepth m) [dlq] DeleteSeries]
|}.

(** ** Calls and their labels *)

(** The client panics on any other number of values, and has no other
    operation on a series of that kind. *)
Definition fits (k : kind) (o : op) : bool :=
  match k, o with
  | Counter, Inc | Gauge, (Add _ | Set_ _ | DeleteSeries) | Histogram _, Observe _ => true
  | _, _ => false
  end.

Definition well_formed (c : call) : Prop :=
  length (callValues c) = length (vecLabels (callVec c)) ∧ fits (vecKind (callVec c)) (callOp c) = true.

(** The values under the names the vector was registered with. *)
Definition labelled (c : call) : list (string * string) := zip (vecLabels (callVec c)) (callValues c).

(** What the library reports, and the labels the report should carry. *)
Inductive client_event : Type :=
| EvReconnect (role : string) | EvBlocked (role : string) (d : Z)
| EvRedeclare (role : string) (d : Z) | EvDegraded (role reason : string).

Inductive publisher_event : Type :=
| EvInFlight (ex : string) (delta : Z) | EvRateLimited (ex : string)
| EvPublish (ex rk mt outcome : string) (d : Z) | EvRetry (ex reason : string) | EvWait (ex : string) (d : Z).

Inductive consumer_event : Type :=
| EvResubscribed (q : string) | EvAborted (q : string) | EvTimeout (q : string)
| EvHandler (q mt outcome : string) (d : Z) | EvCancelled (q reason : string)
| EvMaxRedeliveries (q cause : string) | EvReplierDrop (q : string) | EvConsumerDrop (q : string)
| EvShutdownRequeued (q : string) | EvRedelivered (q : string) | EvConsumerInFlight (q : string) (delta : Z)
| EvBytes (q : string) (delta : Z) | EvSetDepth (q : string) (n : Z) | EvSetDLQ (dlq : string) (n : Z)
| EvDeleteDepth (q : string) | EvDeleteDLQ (dlq : string).

Definition record_client `{ClientMetrics R} (m : R) (e : client_event) : list call :=
  match e with
  | EvReconnect role => RecordReconnect m role
  | EvBlocked role d => RecordBlocked m role d
  | EvRedeclare role d => RecordTopologyRedeclare m role d
  | EvDegraded role reason => RecordDegraded m role reason
  end.

Definition record_publisher `{PublisherMetrics R} (m : R) (e : publisher_event) : list call :=
  match e with
  | EvInFlight ex delta => InFlightAdd m ex delta
  | EvRateLimited ex => RecordRateLimited m ex
  | EvPublish ex rk mt outcome d => RecordPublish m ex rk mt outcome d
  | EvRetry ex reason => RecordRetry m ex reason
  | EvWait ex d => RecordChannelPoolWait m ex d
  end.

Definition record_consumer `{ConsumerMetrics R} (m : R) (e : consumer_event) : list call :=
  match e with
  | EvResubscribed q => RecordResubscribed m q
  | EvAborted q => RecordHandlerAbortedChannelClosed m q
  | EvTimeout q => RecordHandlerTimeout m q
  | EvHandler q mt outcome d => RecordHandler m q mt outcome d
  | EvCancelled q reason => RecordCancelled m q reason
  | EvMaxRedeliveries q cause => RecordMaxRedeliveries m q cause
  | EvReplierDrop q => RecordReplierDropNoDLX m q
  | EvConsumerDrop q => RecordConsumerDropNoDLX m q
  | EvShutdownRequeued q => RecordShutdownRequeued m q
  | EvRedelivered q => RecordRedelivered m q
  | EvConsumerInFlight q delta => ConsumerInFlightAdd m q delta
  | EvBytes q delta => InFlightBytesAdd m q delta
  | EvSetDepth q n => SetQueueDepth m q n
  | EvSetDLQ dlq n => SetDLQDepth m dlq n
  | EvDeleteDepth q => DeleteQueueDepth m q
  | EvDeleteDLQ dlq => DeleteDLQDepth m dlq
  end.

Definition client_labels (e : client_event) : list (string * string) :=
  match e with
  | EvReconnect role | EvBlocked role _ | EvRedeclare role _ => [("role", role)]%string
  | EvDegraded role reason => [("role", role); ("reason", reason)]%string
  end.

Definition publisher_labels (enabled : list MetricsLabel) (e : publisher_event) : list (string * string) :=
  match e with
  | EvInFlight ex _ | EvRateLimited ex | EvWait ex _ => [("exchange", ex)]%string
  | EvRetry ex reason => [("exchange", ex); ("reason", reason)]%string
  | EvPublish ex rk mt outcome _ =>
      [("exchange", ex); ("outcome", outcome)]%string
      ++ (if decide (MetricsLabelRoutingKey ∈ enabled) then [("routing_key", rk)]%string else [])
      ++ (if decide (MetricsLabelMessageType ∈ enabled) then [("message_type", mt)]%string else [])
  end.

Definition consumer_labels (enabled : list MetricsLabel) (e : consumer_event) : list (string * string) :=
  match e with
  | EvHandler q mt outcome _ =>
      [("queue", q); ("outcome", outcome)]%string
      ++ (if decide (MetricsLabelMessageType ∈ enabled) then [("message_type", mt)]%string else [])
  | EvCancelled q reason => [("queue", q); ("reason", reason)]%string
  | EvMaxRedeliveries q cause => [("queue", q); ("cause", cause)]%string
  | EvSetDLQ dlq _ | EvDeleteDLQ dlq => [("dlq", dlq)]%string
  | EvResubscribed q | EvAborted q | EvTimeout q | EvReplierDrop q | EvConsumerDrop q
  | EvShutdownRequeued q | EvRedelivered q | EvConsumerInFlight q _ | EvBytes q _
  | EvSetDepth q _ | EvDeleteDepth q => [("queue", q)]%string
  end.

(** One call, which the client accepts, with these labels. *)
Definition reports (cs : list call) (ls : list (string * string)) : Prop :=
  ∃ c, cs = [c] ∧ well_formed c ∧ labelled c = ls.

(** ** The option labels *)

Lemma publisher_label_fold enabled bs :
  foldl publisher_label bs enabled =
    (bs.1 || bool_decide (MetricsLabelRoutingKey ∈ enabled),
     bs.2 || bool_decide (MetricsLabelMessageType ∈ enabled)).
Proof.
  revert bs. induction enabled as [|l r IH]; intros [a b]; simpl.
  { by destruct a, b. }
  rewrite IH. destruct l as [| |n]; simpl; f_equal;
    repeat case_bool_decide; rewrite ?orb_true_r, ?orb_false_r; try done;
    match goal with H : _ ∉ _ |- _ => destruct H; set_solver | H : _ ∈ _ :: _ |- _ => set_solver | _ => idtac end.
Qed.

Lemma consumer_label_exists enabled :
  existsb (fun l => bool_decide (l = MetricsLabelMessageType)) enabled
  = bool_decide (MetricsLabelMessageType ∈ enabled).
Proof.
  induction enabled as [|l r IH]; simpl.
  { done. }
  rewrite IH. repeat case_bool_decide; try done; set_solver.
Qed.

(** ** Registration *)

(** What [Register] documents: a registry knows collectors by name, refuses a
    name it has, and takes any other. *)
Class RegistererLaws (G : Type) `{Registerer G} (names : G -> gset string) : Prop := {
  register_fresh c g : vecName c ∉ names g ->
    ∃ g', Register c g = Ok g' ∧ names g' = {[ vecName c ]} ∪ names g;
  register_known c g : vecName c ∈ names g -> ∃ e, Register c g = Err e
}.

Definition client_names : list string :=
  ["connection_reconnects_total"; "connection_blocked_seconds"; "topology_redeclare_seconds";
   "connection_degraded_total"]%string.

Definition publisher_names : list string :=
  ["publisher_in_flight"; "publisher_publish_seconds"; "publisher_retry_total";
   "publisher_rate_limited_total"; "publisher_channel_pool_wait_seconds"]%string.

Definition consumer_names : list string :=
  ["consumer_resubscribed_total"; "consumer_handler_aborted_channel_closed_total";
   "consumer_handler_timeout_total"; "consumer_handler_seconds"; "consumer_cancelled_total";
   "consumer_max_redeliveries_total"; "replier_drop_no_dlx_total"; "consumer_drop_no_dlx_total";
   "consumer_shutdown_requeued_total"; "consumer_redelivered_total"; "consumer_in_flight";
   "consumer_inflight_bytes"; "queue_depth"; "dlq_depth"]%string.

Section registry.
  Context {G : Type} {names : G -> gset string} `{RegistererLaws G names}.

Lemma register_all_fresh cs g :
  NoDup (vecName <$> cs) -> (∀ n, n ∈ vecName <$> cs -> n ∉ names g) ->
  ∃ g', register_all cs g = (g', None) ∧ names g' = list_to_set (vecName <$> cs) ∪ names g.
Proof.
  revert g. induction cs as [|c r IH]; intros g Hn Hf; simpl in *.
  { exists g. split; [done|]. set_solver. }
  apply NoDup_cons in Hn as [Hc Hn].
  destruct (register_fresh c g) as (g1 & -> & Eg); [apply Hf; set_solver|].
  destruct (IH g1 Hn) as (g' & -> & Hg'); [rewrite Eg; set_solver|].
  exists g'. split; [done|]. rewrite Hg', Eg. set_solver.
Qed.

(** The loop stops at the first name the registry has; what it registered
    before stays. *)
Lemma register_all_clash cs c r g :
  NoDup (vecName <$> cs) -> (∀ n, n ∈ vecName <$> cs -> n ∉ names g) -> vecName c ∈ names g ->
  ∃ g' e, register_all (cs ++ c :: r) g = (g', Some e)
    ∧ names g' = list_to_set (vecName <$> cs) ∪ names g.
Proof.
  revert g. induction cs as [|d cs IH]; intros g Hn Hf Hc; simpl in *.
  { destruct (register_known c g Hc) as [e ->]. exists g, e. split; [done|]. set_solver. }
  apply NoDup_cons in Hn as [Hd Hn].
  destruct (register_fresh d g) as (g1 & -> & Eg); [apply Hf; set_solver|].
  destruct (IH g1 Hn) as (g' & e & -> & Hg'); [rewrite Eg; set_solver|rewrite Eg; set_solver|].
  exists g', e. split; [done|]. rewrite Hg', Eg. set_solver.
Qed.

Lemma new_client g b : (∀ n, n ∈ client_names -> n ∉ names g) ->
  ∃ g' m, NewPrometheusClientMetrics g b = (g', Ok m) ∧ names g' = list_to_set client_names ∪ names g.
Proof.
  intros Hf. unfold NewPrometheusClientMetrics.
  match goal with |- context [register_all ?cs g] => destruct (register_all_fresh cs g) as (g' & -> & Hg') end.
  - apply (bool_decide_unpack _). by vm_compute.
  - exact Hf.
  - exists g'. eexists. by split; [|rewrite Hg'].
Qed.

Lemma new_publisher g b ls : (∀ n, n ∈ publisher_names -> n ∉ names g) ->
  ∃ g' m, NewPrometheusPublisherMetrics g b ls = (g', Ok m)
    ∧ names g' = list_to_set publisher_names ∪ names g.
Proof.
  intros Hf. unfold NewPrometheusPublisherMetrics. rewrite publisher_label_fold.
  match goal with |- context [register_all ?cs g] => destruct (register_all_fresh cs g) as (g' & -> & Hg') end.
  - apply (bool_decide_unpack _). by vm_compute.
  - exact Hf.
  - exists g'. eexists. by split; [|rewrite Hg'].
Qed.

Lemma new_consumer g b ls : (∀ n, n ∈ consumer_names -> n ∉ names g) ->
  ∃ g' m, NewPrometheusConsumerMetrics g b ls = (g', Ok m)
    ∧ names g' = list_to_set consumer_names ∪ names g.
Proof.
  intros Hf. unfold NewPrometheusConsumerMetrics.
  match goal with |- context [register_all ?cs g] => destruct (register_all_fresh cs g) as (g' & -> & Hg') end.
  - apply (bool_decide_unpack _). by vm_compute.
  - exact Hf.
  - exists g'. eexists. by split; [|rewrite Hg'].
Qed.

Lemma all_names_distinct : NoDup (client_names ++ publisher_names ++ consumer_names).
Proof. apply (bool_decide_unpack _). by vm_compute. Qed.

(** One registry takes the recorders of a connection, its publishers and its
    consumers together: no two collectors of the library share a name. *)
Lemma one_registry_for_all g b ls ls' :
  (∀ n, n ∈ client_names ++ publisher_names ++ consumer_names -> n ∉ names g) ->
  ∃ g1 c g2 p g3 k,
    NewPrometheusClientMetrics g b = (g1, Ok c) ∧ NewPrometheusPublisherMetrics g1 b ls = (g2, Ok p)
    ∧ NewPrometheusConsumerMetrics g2 b ls' = (g3, Ok k).
Proof.
  intros Hf. pose proof all_names_distinct as Hd.
  apply NoDup_app in Hd as (_ & H1 & (_ & H2 & _)%NoDup_app).
  destruct (new_client g b) as (g1 & c & E1 & N1); [intros; apply Hf, elem_of_app; auto|].
  destruct (new_publisher g1 b ls) as (g2 & p & E2 & N2).
  { intros n Hn. rewrite N1, not_elem_of_union, elem_of_list_to_set.
    split; [|apply Hf; rewrite !elem_of_app; auto]. intros Hc. apply (H1 n Hc), elem_of_app. auto. }
  destruct (new_consumer g2 b ls') as (g3 & k & E3 & N3).
  { intros n Hn. rewrite N2, N1, !not_elem_of_union, !elem_of_list_to_set.
    split_and!; [exact (λ Hc, H2 n Hc Hn)| |apply Hf; rewrite !elem_of_app; auto].
    intros Hc. apply (H1 n Hc), elem_of_app. auto. }
  by exists g1, c, g2, p, g3, k.
Qed.

(** A constructor that fails at a later collector leaves the earlier ones
    behind: once the clash is gone, it fails again, at its first collector. *)
Lemma failed_constructor_blocks_retry g b ls :
  (∀ n, n ∈ publisher_names -> n ≠ "publisher_retry_total"%string -> n ∉ names g) ->
  "publisher_retry_total"%string ∈ names g ->
  ∃ g' e, NewPrometheusPublisherMetrics g b ls = (g', Err e)
    ∧ names g' = {[ "publisher_in_flight"; "publisher_publish_seconds" ]}%string ∪ names g
    ∧ ∀ g'', "publisher_in_flight"%string ∈ names g'' ->
        ∃ e', NewPrometheusPublisherMetrics g'' b ls = (g'', Err e').
Proof.
  intros Hf Hc. unfold NewPrometheusPublisherMetrics. rewrite publisher_label_fold. cbn zeta iota.
  match goal with |- context [register_all [?a; ?b1; ?c; ?d; ?f] g] =>
    assert (∃ g' e, register_all [a; b1; c; d; f] g = (g', Some e)
              ∧ names g' = list_to_set (vecName <$> [a; b1]) ∪ names g) as (g' & e & -> & Hg') end.
  { apply (register_all_clash [_; _]).
    - apply (bool_decide_unpack _). by vm_compute.
    - intros n Hn. simpl in Hn. apply Hf; set_solver.
    - exact Hc. }
  exists g', e. split; [done|]. split; [rewrite Hg'; simpl; set_solver|].
  intros g'' Hin. cbn [register_all inFlight].
  match goal with |- context [Register (gaugeVec ?n ?l) g''] =>
    destruct (register_known (gaugeVec n l) g'' Hin) as [e' Ee] end.
  exists e'. by rewrite Ee.
Qed.

End registry.

(** C36. Every report of a Prometheus recorder is one call that the client accepts,
    with each value under the label it belongs to, whatever optional labels
    were enabled, in whatever order and however often. *)
Theorem recorders_well_labelled `{Registerer G} (g : G) b ls ls' g1 c g2 p g3 k :
  NewPrometheusClientMetrics g b = (g1, Ok c) -> NewPrometheusPublisherMetrics g1 b ls = (g2, Ok p) ->
  NewPrometheusConsumerMetrics g2 b ls' = (g3, Ok k) ->
  (∀ e, reports (record_client c e) (client_labels e))
  ∧ (∀ e, reports (record_publisher p e) (publisher_labels ls e))
  ∧ (∀ e, reports (record_consumer k e) (consumer_labels ls' e)).
Proof.
  unfold NewPrometheusClientMetrics, NewPrometheusPublisherMetrics, NewPrometheusConsumerMetrics.
  rewrite publisher_label_fold, consumer_label_exists. intros E1 E2 E3.
  destruct (register_all _ g) as [? []]; simplify_eq.
  destruct (register_all _ _) as [? []]; simplify_eq.
  destruct (register_all _ _) as [? []]; simplify_eq.
  split_and!; intros e; unfold reports; destruct e; simpl;
    rewrite ?bool_decide_decide; repeat case_decide; simpl; (eexists; split; [done|]; split; [split|]; done).
Qed.

(** A registry that keeps the names. *)
#[global] Instance nameRegistry : Registerer (gset string) := {|
  Register c g := if decide (vecName c ∈ g)
                  then Err (OtherError 0)
                  else Ok ({[ vecName c ]} ∪ g)
|}.

#[global] Instance nameRegistry_laws : RegistererLaws (gset string) id.
Proof.
  split; intros c g Hc; simpl; destruct (decide (vecName c ∈ g)); try done; eauto.
Qed.

Lemma recorders_well_labelled_witness :
  ∃ c p k, (∀ e, reports (record_client c e) (client_labels e))
  ∧ (∀ e, reports (record_publisher p e)
            (publisher_labels [MetricsLabelMessageType; OtherLabel 7; MetricsLabelMessageType] e))
  ∧ (∀ e, reports (record_consumer k e) (consumer_labels [MetricsLabelRoutingKey] e)).
Proof.
  destruct (one_registry_for_all (∅ : gset string) None
    [MetricsLabelMessageType; OtherLabel 7; MetricsLabelMessageType] [MetricsLabelRoutingKey])
    as (g1 & c & g2 & p & g3 & k & E1 & E2 & E3); [set_solver|].
  exists c, p, k. exact (recorders_well_labelled _ _ _ _ _ _ _ _ _ _ E1 E2 E3).
Defined.

(** ** The default buckets *)

(** The bucket of an observation: how many upper bounds lie below it. *)
Fixpoint bucket_of (bs : list Z) (x : Z) : nat :=
  match bs with
  | [] => 0
  | b :: r => if decide (x <= b) then 0 else S (bucket_of r x)
  end.

(** The bounds were written as milliseconds and observations are in seconds:
    with the default buckets every duration of up to half a second, a fast
    publish or a slow one, counts in the first bucket. *)
Lemma default_buckets_blind `{Registerer G} (g g' : G) m role d :
  NewPrometheusClientMetrics g None = (g', Ok m) -> 0 <= d <= halfSecond ->
  ∃ v bs x, RecordBlocked m role d = [mkCall v [role] (Observe x)]
    ∧ vecKind v = Histogram bs ∧ bucket_of bs x = 0%nat.
Proof.
  intros E Hd. unfold NewPrometheusClientMetrics in E.
  destruct (register_all _ g) as [? []]; simplify_eq.
  eexists _, DefaultHistogramBuckets, d. split_and!; [done|done|]. simpl. by rewrite decide_True by lia.
Qed.

(** A second and a half of blocking is told apart from one second. *)
Example bucket_of_seconds : (bucket_of DefaultHistogramBuckets (1 * second), bucket_of DefaultHistogramBuckets (1500 * millisecond)) = (1, 2)%nat.
Proof. reflexivity. Qed.
