(* ===== verification/Confirms.v ===== *)
(** * Confirms: the publisher-confirm tracker

    Models [src/internal/confirms/tracker.go].  A [*waiter] is an object of a
    heap, shared by the [pending] map and by the goroutine blocked in [Wait];
    each operation that runs under [t.mu] is one function on the tracker.
    [Wait] is split at its blocking point: the lookup, the [select], and the
    removal of the slot.

    The ordered index ([order], [head]) is an optimisation of a scan of the
    whole [pending] map.  [Spec] is the tracker without the index, and
    [tracker_refines_spec] shows that the two are the same for every sequence
    of operations. *)

From S2P Require Import Prelude Errors.

(** ** Data *)

(** [done] is the capacity-1 channel: [None] when its buffer is empty, else the
    value sent ([None] for a nil error).  [consumed] is a history variable: it
    records that [Wait] has received from [done]; no operation reads it. *)
Record waiter : Type := Waiter {
  done : option goerror;
  returnCode : Z;
  returned : bool;
  consumed : bool
}.

Definition new_waiter : waiter :=
  {| done := None; returnCode := 0; returned := false; consumed := false |}.

Record Tracker : Type := mkTracker {
  heap : gmap nat waiter;    (* the allocated waiters *)
  fresh : nat;               (* address of the next allocation *)
  pending : gmap Z nat;      (* delivery tag -> *waiter *)
  order : list Z;
  head : nat;
  closed : bool
}.

Definition New : Tracker :=
  {| heap := ∅; fresh := 0; pending := ∅; order := []; head := 0; closed := false |}.

Definition set_heap (h : gmap nat waiter) (t : Tracker) : Tracker :=
  mkTracker h (fresh t) (pending t) (order t) (head t) (closed t).

Definition set_pending (p : gmap Z nat) (t : Tracker) : Tracker :=
  mkTracker (heap t) (fresh t) p (order t) (head t) (closed t).

Definition set_index (o : list Z) (hd : nat) (t : Tracker) : Tracker :=
  mkTracker (heap t) (fresh t) (pending t) o hd (closed t).

(** ** Channel and waiter primitives *)

(** Non-blocking send on [w.done]: dropped when the buffer is full. *)
Definition send (r : goerror) (w : waiter) : waiter :=
  match done w with
  | Some _ => w
  | None => Waiter (Some r) (returnCode w) (returned w) (consumed w)
  end.

(** The error a resolution with [baseErr] sends. *)
Definition resolution (baseErr : goerror) (w : waiter) : goerror :=
  if returned w
  then match baseErr with
       | None => Some (UnroutableError (returnCode w))
       | Some _ => baseErr
       end
  else baseErr.

Definition resolve_waiter (baseErr : goerror) (w : waiter) : waiter :=
  send (resolution baseErr w) w.

(** ** The ordered index *)

(** [slices.BinarySearch]: the loop narrows [i, j) until it is empty; it halves
    the interval, so [length] rounds suffice. *)
Fixpoint bsearch (fuel : nat) (o : list Z) (tag : Z) (i j : nat) : nat :=
  match fuel with
  | O => i
  | S fuel =>
      if decide (i < j)%nat then
        let h := ((i + j) / 2)%nat in
        match o !! h with
        | Some x => if decide (x < tag) then bsearch fuel o tag (S h) j
                    else bsearch fuel o tag i h
        | None => i
        end
      else i
  end.

Definition BinarySearch (o : list Z) (tag : Z) : nat :=
  bsearch (S (length o)) o tag 0 (length o).

(** [slices.Insert]. *)
Definition insert_at (idx : nat) (tag : Z) (o : list Z) : list Z :=
  take idx o ++ tag :: drop idx o.

Definition orderInsert (tag : Z) (t : Tracker) : Tracker :=
  match last (order t) with
  | None => set_index (order t ++ [tag]) (head t) t
  | Some x =>
      if decide (x < tag) then set_index (order t ++ [tag]) (head t) t
      else
        let idx := BinarySearch (order t) tag in
        set_index (insert_at idx tag (order t))
                  (if decide (idx < head t)%nat then idx else head t) t
  end.

Definition orderCompactMinPrefix : nat := 64.

Definition compactOrder (t : Tracker) : Tracker :=
  if decide (head t = 0)%nat then t
  else if decide (length (order t) <= head t)%nat then set_index [] 0 t
  else if decide (orderCompactMinPrefix < head t /\ length (order t) <= head t * 2)%nat
  then set_index (drop (head t) (order t)) 0 t
  else t.

(** Number of leading tags that are no longer pending. *)
Fixpoint dead_prefix (p : gmap Z nat) (l : list Z) : nat :=
  match l with
  | [] => 0
  | x :: r => match p !! x with Some _ => 0 | None => S (dead_prefix p r) end
  end.

Definition advanceLowWater (t : Tracker) : Tracker :=
  compactOrder
    (set_index (order t) (head t + dead_prefix (pending t) (drop (head t) (order t))) t).

(** ** Operations (each runs under [t.mu]) *)

Definition Register (tag : Z) (t : Tracker) : goerror * Tracker :=
  if closed t then (Some (Sentinel ConfirmsErrClosed), t)
  else
    let t1 := mkTracker (<[fresh t := new_waiter]> (heap t)) (S (fresh t))
                        (<[tag := fresh t]> (pending t)) (order t) (head t) (closed t) in
    (None, advanceLowWater (orderInsert tag t1)).

Definition MarkReturned (tag replyCode : Z) (t : Tracker) : Tracker :=
  match pending t !! tag with
  | None => t
  | Some a =>
      set_heap (alter (fun w => Waiter (done w) replyCode true (consumed w)) a (heap t)) t
  end.

Definition resolveOne (tag : Z) (baseErr : goerror) (t : Tracker) : Tracker :=
  match pending t !! tag with
  | None => t
  | Some a => set_heap (alter (resolve_waiter baseErr) a (heap t)) t
  end.

(** The walk of [resolveUpTo] from [head]: how many tags it visits, and the
    tracker after resolving them. *)
Fixpoint walk (l : list Z) (tag : Z) (baseErr : goerror) (t : Tracker) : nat * Tracker :=
  match l with
  | [] => (0%nat, t)
  | x :: r =>
      if decide (x <= tag)
      then let '(n, t') := walk r tag baseErr (resolveOne x baseErr t) in (S n, t')
      else (0%nat, t)
  end.

Definition resolveUpTo (tag : Z) (baseErr : goerror) (t : Tracker) : Tracker :=
  let '(n, t') := walk (drop (head t) (order t)) tag baseErr t in
  advanceLowWater (set_index (order t') (head t + n) t').

Definition Ack (tag : Z) (multiple : bool) (t : Tracker) : Tracker :=
  if multiple then resolveUpTo tag None t else resolveOne tag None t.

Definition Nack (tag : Z) (multiple : bool) (t : Tracker) : Tracker :=
  if multiple then resolveUpTo tag (Some (Sentinel ConfirmsErrNacked)) t
  else resolveOne tag (Some (Sentinel ConfirmsErrNacked)) t.

(** One iteration of the range in [CloseAll]. *)
Definition close_one (h : gmap nat waiter) (p : gmap Z nat) (e : Z * nat)
  : gmap nat waiter * gmap Z nat :=
  let '(tag, a) := e in
  match h !! a with
  | Some w =>
      match done w with
      | None => (<[a := send (Some (Sentinel ConfirmsErrClosed)) w]> h, delete tag p)
      | Some _ => (h, p)
      end
  | None => (h, p)
  end.

Definition CloseAll (t : Tracker) : Tracker :=
  let '(h, p) := foldl (fun hp e => close_one hp.1 hp.2 e) (heap t, pending t)
                       (map_to_list (pending t)) in
  mkTracker h (fresh t) p (order t) (head t) true.

Definition Cancel (tag : Z) (t : Tracker) : Tracker :=
  match pending t !! tag with
  | None => t
  | Some a =>
      set_pending (delete tag (pending t))
        (set_heap (alter (send (Some (Sentinel ConfirmsErrClosed))) a (heap t)) t)
  end.

(** [Wait], first part: the lookup.  [None] is the immediate [ErrClosed]. *)
Definition Wait_lookup (tag : Z) (t : Tracker) : option nat := pending t !! tag.

(** [Wait], the [select]: receiving from [w.done] empties its buffer.  [None]
    means that this case of the select is not ready. *)
Definition Wait_recv (a : nat) (t : Tracker) : option (goerror * Tracker) :=
  match heap t !! a with
  | Some w =>
      match done w with
      | Some r =>
          Some (r, set_heap (<[a := Waiter None (returnCode w) (returned w) true]> (heap t)) t)
      | None => None
      end
  | None => None
  end.

(** [Wait], last part, on every branch: the slot is removed. *)
Definition Wait_delete (tag : Z) (t : Tracker) : Tracker :=
  set_pending (delete tag (pending t)) t.

(** The case of the [select] that fires: the result, the confirm timer or the
    context.  The timer's channel is nil, hence never ready, when
    [timeout <= 0]. *)
Inductive wake : Type :=
| WakeDone
| WakeTimer
| WakeCtx (ctxErr : error).

Definition Wait_finish (tag : Z) (a : nat) (timeout : Z) (k : wake) (t : Tracker)
  : option (goerror * Tracker) :=
  match k with
  | WakeDone =>
      match Wait_recv a t with
      | Some (err, t') => Some (err, Wait_delete tag t')
      | None => None
      end
  | WakeTimer =>
      if decide (0 < timeout) then Some (Some (Sentinel ConfirmsErrTimeout), Wait_delete tag t)
      else None
  | WakeCtx ctxErr => Some (Some ctxErr, Wait_delete tag t)
  end.

(** ** Sequences of operations *)

Inductive op : Type :=
| OpRegister (tag : Z)
| OpMarkReturned (tag code : Z)
| OpAck (tag : Z) (multiple : bool)
| OpNack (tag : Z) (multiple : bool)
| OpCloseAll
| OpCancel (tag : Z)
| OpWaitRecv (a : nat)
| OpWaitDelete (tag : Z).

Definition exec (o : op) (t : Tracker) : Tracker :=
  match o with
  | OpRegister tag => (Register tag t).2
  | OpMarkReturned tag code => MarkReturned tag code t
  | OpAck tag m => Ack tag m t
  | OpNack tag m => Nack tag m t
  | OpCloseAll => CloseAll t
  | OpCancel tag => Cancel tag t
  | OpWaitRecv a => match Wait_recv a t with Some (_, t') => t' | None => t end
  | OpWaitDelete tag => Wait_delete tag t
  end.

Definition run (os : list op) (t : Tracker) : Tracker := foldl (flip exec) t os.

(** ** Specification: the tracker without the index

    The same operations on a plain map from tags to waiters: a
    [multiple=true] frame scans every pending tag.  A slot disappears as soon
    as its waiter has been received from, so a waiter that [Wait] consumed is
    never touched again. *)

Record spec : Type := mkSpec {
  sheap : gmap nat waiter;
  sfresh : nat;
  spending : gmap Z nat;
  sclosed : bool
}.

Definition spec_new : spec := mkSpec ∅ 0 ∅ false.

(** Addresses of the waiters registered under a tag [<= tag]. *)
Definition addrs_upto (tag : Z) (p : gmap Z nat) : gset nat :=
  list_to_set (snd <$> filter (fun kv => kv.1 <= tag) (map_to_list p)).

Definition addrs (p : gmap Z nat) : gset nat := list_to_set (snd <$> map_to_list p).

Definition update_all (s : gset nat) (f : waiter -> waiter) (h : gmap nat waiter)
  : gmap nat waiter :=
  map_imap (fun a w => Some (if decide (a ∈ s) then f w else w)) h.

Definition buffer_full (h : gmap nat waiter) (a : nat) : bool :=
  match h !! a with
  | Some w => match done w with Some _ => true | None => false end
  | None => true
  end.

Definition erased : waiter := Waiter None 0 false true.

Definition spec_exec (o : op) (s : spec) : spec :=
  let one f tag :=
    match spending s !! tag with
    | None => s
    | Some a => mkSpec (alter f a (sheap s)) (sfresh s) (spending s) (sclosed s)
    end in
  let upto f tag :=
    mkSpec (update_all (addrs_upto tag (spending s)) f (sheap s))
           (sfresh s) (spending s) (sclosed s) in
  let ack base tag (m : bool) :=
    if m then upto (resolve_waiter base) tag else one (resolve_waiter base) tag in
  match o with
  | OpRegister tag =>
      if sclosed s then s
      else mkSpec (<[sfresh s := new_waiter]> (sheap s)) (S (sfresh s))
                  (<[tag := sfresh s]> (spending s)) false
  | OpMarkReturned tag code =>
      one (fun w => Waiter (done w) code true (consumed w)) tag
  | OpAck tag m => ack None tag m
  | OpNack tag m => ack (Some (Sentinel ConfirmsErrNacked)) tag m
  | OpCloseAll =>
      mkSpec (update_all (addrs (spending s)) (send (Some (Sentinel ConfirmsErrClosed))) (sheap s))
             (sfresh s) (filter (fun kv => buffer_full (sheap s) kv.2 = true) (spending s)) true
  | OpCancel tag =>
      let s' := one (send (Some (Sentinel ConfirmsErrClosed))) tag in
      mkSpec (sheap s') (sfresh s') (delete tag (spending s')) (sclosed s')
  | OpWaitRecv a =>
      match sheap s !! a with
      | Some w =>
          match done w with
          | Some _ => mkSpec (<[a := erased]> (sheap s)) (sfresh s)
                             (filter (fun kv => kv.2 ≠ a) (spending s)) (sclosed s)
          | None => s
          end
      | None => s
      end
  | OpWaitDelete tag =>
      mkSpec (sheap s) (sfresh s) (delete tag (spending s)) (sclosed s)
  end.

Definition spec_run (os : list op) (s : spec) : spec := foldl (flip spec_exec) s os.

(** ** Abstraction and invariant *)

Definition live (h : gmap nat waiter) (a : nat) : bool :=
  match h !! a with Some w => negb (consumed w) | None => false end.

Definition abs_waiter (w : waiter) : waiter := if consumed w then erased else w.

Definition abs (t : Tracker) : spec :=
  mkSpec (abs_waiter <$> heap t) (fresh t)
         (filter (fun kv => live (heap t) kv.2 = true) (pending t)) (closed t).

(** What every operation preserves, the compaction of the index apart. *)
Record wf (t : Tracker) : Prop := {
  wf_sorted : StronglySorted Z.le (order t);
  wf_head : (head t <= length (order t))%nat;
  wf_window : ∀ tag a w, pending t !! tag = Some a -> heap t !! a = Some w ->
    done w = None -> consumed w = false -> tag ∈ drop (head t) (order t);
  wf_alloc : ∀ tag a, pending t !! tag = Some a -> is_Some (heap t !! a);
  wf_fresh : ∀ a, (fresh t <= a)%nat -> heap t !! a = None;
  wf_inj : ∀ tag1 tag2 a, pending t !! tag1 = Some a -> pending t !! tag2 = Some a -> tag1 = tag2
}.

(** The dead prefix is short, or less than half of the index. *)
Definition compacted (t : Tracker) : Prop :=
  (head t <= orderCompactMinPrefix ∨ head t * 2 < length (order t))%nat.

(** ** Lemmas on the index *)

Lemma bsearch_spec fuel o tag i j :
  StronglySorted Z.le o -> (i <= j <= length o)%nat -> (j - i < fuel)%nat ->
  (∀ k x, o !! k = Some x -> (k < i)%nat -> x < tag) ->
  (∀ k x, o !! k = Some x -> (j <= k)%nat -> tag <= x) ->
  let r := bsearch fuel o tag i j in
  (i <= r <= j)%nat
  ∧ (∀ k x, o !! k = Some x -> (k < r)%nat -> x < tag)
  ∧ (∀ k x, o !! k = Some x -> (r <= k)%nat -> tag <= x).
Proof.
  intros Hs. revert i j. induction fuel as [|fuel IH]; intros i j Hij Hf Hlo Hhi; [lia|].
  cbn [bsearch]. case_decide as Hlt.
  2:{ split; [lia|]. split; [done|]. intros k x Hk Hle. apply (Hhi k x Hk). lia. }
  set (h := ((i + j) / 2)%nat).
  assert (i <= h < j)%nat as Hh.
  { unfold h. split; [apply Nat.div_le_lower_bound; lia | apply Nat.div_lt_upper_bound; lia]. }
  destruct (lookup_lt_is_Some_2 o h) as [x Hx]; [lia|]. rewrite Hx.
  assert (∀ k1 k2 x1 x2, o !! k1 = Some x1 -> o !! k2 = Some x2 -> (k1 <= k2)%nat -> x1 <= x2) as Hmono.
  { intros k1 k2 x1 x2 H1 H2 Hk. destruct (decide (k1 = k2)) as [->|]; [simplify_eq; lia|].
    eapply (StronglySorted_app_1_elem_of Z.le (take k2 o) (drop k2 o)).
    - by rewrite take_drop.
    - apply list_elem_of_lookup. exists k1. rewrite lookup_take_lt by lia. done.
    - apply list_elem_of_lookup. exists 0%nat. rewrite lookup_drop. by rewrite Nat.add_0_r. }
  case_decide as Hc.
  - destruct (IH (S h) j) as (Hr & H1 & H2); [lia|lia| |done|].
    + intros k y Hk Hlt'. pose proof (Hmono k h y x Hk Hx). lia.
    + split; [lia|]. done.
  - destruct (IH i h) as (Hr & H1 & H2); [lia|lia|done| |].
    + intros k y Hk Hle. pose proof (Hmono h k x y Hx Hk Hle). lia.
    + split; [lia|]. done.
Qed.

Lemma BinarySearch_spec o tag :
  StronglySorted Z.le o ->
  let r := BinarySearch o tag in
  (r <= length o)%nat
  ∧ (∀ x, x ∈ take r o -> x < tag) ∧ (∀ x, x ∈ drop r o -> tag <= x).
Proof.
  intros Hs. destruct (bsearch_spec (S (length o)) o tag 0 (length o) Hs) as (Hr & H1 & H2);
    [lia|lia| | |].
  - intros k x _ Hk. lia.
  - intros k x Hk Hle. apply lookup_lt_Some in Hk. lia.
  - cbv zeta in *. fold (BinarySearch o tag) in *. split; [lia|]. split; intros x Hx; apply list_elem_of_lookup in Hx as [k Hk].
    + apply lookup_take_Some in Hk as [Hk Hlt]. by apply (H1 k x).
    + rewrite lookup_drop in Hk. apply (H2 _ x Hk). lia.
Qed.

Lemma insert_at_sorted o tag idx :
  StronglySorted Z.le o ->
  (∀ x, x ∈ take idx o -> x < tag) -> (∀ x, x ∈ drop idx o -> tag <= x) ->
  StronglySorted Z.le (insert_at idx tag o).
Proof.
  intros Hs Hlo Hhi. unfold insert_at. rewrite <- (take_drop idx o) in Hs.
  pose proof (StronglySorted_app_1_l _ _ _ Hs). pose proof (StronglySorted_app_1_r _ _ _ Hs).
  apply StronglySorted_app_2; [|done|].
  - intros x1 x2 H1 [->|H2]%elem_of_cons; [specialize (Hlo _ H1); lia|].
    specialize (Hlo _ H1). specialize (Hhi _ H2). lia.
  - constructor; [done|]. apply Forall_forall. done.
Qed.

Lemma dead_prefix_le p l : (dead_prefix p l <= length l)%nat.
Proof. induction l; simpl; [lia|]. case_match; lia. Qed.

Lemma dead_prefix_skips p l tag :
  tag ∈ l -> is_Some (p !! tag) -> tag ∈ drop (dead_prefix p l) l.
Proof.
  intros Hin [a Ha]. induction l as [|x l IH]; [done|].
  simpl. destruct (p !! x) eqn:Hx; [done|].
  apply elem_of_cons in Hin as [->|Hin]; [congruence|]. simpl. by apply IH.
Qed.

Lemma elem_of_drop_inv {A} (n : nat) (l : list A) x : x ∈ drop n l -> x ∈ l.
Proof. intros H. rewrite <- (take_drop n l). apply elem_of_app. by right. Qed.

(** What an operation on the index alone may change. *)
Definition index_only (t t' : Tracker) : Prop :=
  heap t' = heap t ∧ fresh t' = fresh t ∧ pending t' = pending t ∧ closed t' = closed t.

Definition index_ok (t : Tracker) : Prop :=
  StronglySorted Z.le (order t) ∧ (head t <= length (order t))%nat.

Definition window (t : Tracker) : list Z := drop (head t) (order t).

Lemma compactOrder_spec t :
  index_ok t ->
  index_only t (compactOrder t) ∧ index_ok (compactOrder t)
  ∧ window (compactOrder t) = window t
  ∧ compacted (compactOrder t).
Proof.
  intros [Hs Hh]. unfold compactOrder, compacted, orderCompactMinPrefix, window.
  repeat case_decide; unfold index_only, index_ok; simpl.
  - repeat split; auto; lia.
  - repeat split; try lia; [constructor|]. by rewrite drop_ge.
  - repeat split; try lia.
    rewrite <- (take_drop (head t) (order t)) in Hs. by eapply StronglySorted_app_1_r.
  - repeat split; auto; lia.
Qed.

Lemma advanceLowWater_spec t :
  index_ok t ->
  let t' := advanceLowWater t in
  index_only t t' ∧ index_ok t'
  ∧ (∀ tag, tag ∈ window t -> is_Some (pending t !! tag) -> tag ∈ window t')
  ∧ compacted t'.
Proof.
  intros [Hs Hh]. cbv zeta. unfold advanceLowWater.
  set (d := dead_prefix _ _). pose proof (dead_prefix_le (pending t) (window t)) as Hd.
  fold (window t) in d. fold d in Hd. unfold window in Hd. rewrite length_drop in Hd.
  destruct (compactOrder_spec (set_index (order t) (head t + d) t)) as (Ho & Hok & Hw & Hc).
  { split; [done|]. simpl. lia. }
  split; [exact Ho|]. split; [exact Hok|]. split; [|exact Hc].
  intros tag Hin Hp. rewrite Hw. unfold window. simpl.
  rewrite <- drop_drop. by apply dead_prefix_skips.
Qed.

Lemma orderInsert_spec tag t :
  index_ok t ->
  let t' := orderInsert tag t in
  index_only t t' ∧ index_ok t' ∧ tag ∈ window t' ∧ (∀ x, x ∈ window t -> x ∈ window t').
Proof.
  intros [Hs Hh]. cbv zeta. unfold orderInsert.
  assert ((∀ x, last (order t) = Some x -> x < tag) ->
    let t' := set_index (order t ++ [tag]) (head t) t in
    index_only t t' ∧ index_ok t' ∧ tag ∈ window t' ∧ (∀ x, x ∈ window t -> x ∈ window t')) as Happ.
  { intros Hlast. unfold index_only, index_ok, window. simpl.
    rewrite drop_app_le by lia. repeat split; try done; [|rewrite length_app; simpl; lia|set_solver|set_solver].
    apply StronglySorted_app_2; [|done|repeat constructor].
    intros x y Hx ->%list_elem_of_singleton.
    destruct (order t) as [|z l] eqn:Ho using rev_ind; [by apply not_elem_of_nil in Hx|].
    rewrite last_snoc in Hlast. specialize (Hlast z eq_refl).
    apply elem_of_app in Hx as [Hx| ->%list_elem_of_singleton]; [|lia].
    pose proof (StronglySorted_app_1_elem_of _ _ _ x z Hs Hx). set_solver by lia. }
  destruct (last (order t)) as [x|] eqn:Hl; [|apply Happ; intros ? [=]].
  case_decide as Hx; [apply Happ; intros ? [= <-]; done|]. clear Happ.
  destruct (BinarySearch_spec (order t) tag Hs) as (Hr & Hlo & Hhi). cbv zeta in *.
  set (idx := BinarySearch (order t) tag) in *.
  unfold index_only, index_ok, window. simpl.
  assert (length (insert_at idx tag (order t)) = S (length (order t))) as Hlen.
  { unfold insert_at. rewrite length_app. simpl. rewrite length_take, length_drop. lia. }
  rewrite Hlen. repeat split; try done; [by apply insert_at_sorted|case_decide; lia| |].
  - unfold insert_at. case_decide.
    + rewrite drop_app_ge by (rewrite length_take; lia). rewrite length_take.
      replace (idx - _)%nat with 0%nat by lia. simpl. set_solver.
    + rewrite drop_app. apply elem_of_app. right. rewrite length_take.
      replace (head t - _)%nat with 0%nat by lia. simpl. set_solver.
  - intros y Hy. unfold insert_at. case_decide.
    + rewrite drop_app_ge by (rewrite length_take; lia). rewrite length_take.
      replace (idx - _)%nat with 0%nat by lia. simpl. apply elem_of_cons. right.
      replace (head t) with (idx + (head t - idx))%nat in Hy by lia.
      rewrite <- drop_drop in Hy. by apply elem_of_drop_inv in Hy.
    + rewrite <- (take_drop idx (order t)) in Hy. rewrite drop_app in *.
      rewrite length_take in *. replace (head t - _)%nat with 0%nat in * by lia. simpl in *.
      set_solver.
Qed.

(** ** Updates of waiters *)

(** A change of the heap that forgets no resolution and touches no history. *)
Definition upd_ok (h h' : gmap nat waiter) : Prop :=
  ∀ a, match h !! a, h' !! a with
       | Some w, Some w' => consumed w' = consumed w ∧ (done w' = None -> done w = None)
       | None, None => True
       | _, _ => False
       end.

Definition fun_ok (f : waiter -> waiter) : Prop :=
  ∀ w, consumed (f w) = consumed w ∧ (done (f w) = None -> done w = None).

Lemma send_ok r : fun_ok (send r).
Proof. intros [[r'|] c b g]; simpl; naive_solver. Qed.

Lemma resolve_ok base : fun_ok (resolve_waiter base).
Proof. intros w. apply send_ok. Qed.

Lemma returned_ok code : fun_ok (fun w => Waiter (done w) code true (consumed w)).
Proof. by intros w. Qed.

Lemma resolve_idemp base w : resolve_waiter base (resolve_waiter base w) = resolve_waiter base w.
Proof. unfold resolve_waiter, send. destruct (done w) eqn:E; simpl; [by rewrite E|done]. Qed.

Lemma resolve_full base w r : done w = Some r -> resolve_waiter base w = w.
Proof. intros E. unfold resolve_waiter, send. by rewrite E. Qed.

#[local] Hint Resolve send_ok resolve_ok returned_ok : warren.

Lemma upd_ok_refl h : upd_ok h h.
Proof. intros a. by destruct (h !! a). Qed.

Lemma upd_ok_trans h1 h2 h3 : upd_ok h1 h2 -> upd_ok h2 h3 -> upd_ok h1 h3.
Proof.
  intros H1 H2 a. specialize (H1 a). specialize (H2 a).
  destruct (h1 !! a), (h2 !! a), (h3 !! a); try done. intuition congruence.
Qed.

Lemma upd_ok_alter f a h : fun_ok f -> upd_ok h (alter f a h).
Proof.
  intros Hf b. rewrite lookup_alter. case_decide; [subst|]; destruct (h !! _); simpl; auto.
Qed.

Lemma live_upd h h' a : upd_ok h h' -> live h' a = live h a.
Proof.
  intros H. specialize (H a). unfold live.
  destruct (h !! a), (h' !! a); try done. by destruct H as [-> _].
Qed.

Lemma wf_upd t h' : wf t -> upd_ok (heap t) h' -> wf (set_heap h' t).
Proof.
  intros [] Hu. constructor; simpl; auto.
  - intros tag a w' Hp Hh Hd Hc. specialize (Hu a). rewrite Hh in Hu.
    destruct (heap t !! a) as [w|] eqn:Hw; [|done]. destruct Hu as [Hc' Hd'].
    apply (wf_window0 tag a w); auto. congruence.
  - intros tag a Hp. specialize (Hu a). destruct (wf_alloc0 _ _ Hp) as [w Hw].
    rewrite Hw in Hu. destruct (h' !! a); [eauto|done].
  - intros a Ha. specialize (Hu a). rewrite (wf_fresh0 a Ha) in Hu. by destruct (h' !! a).
Qed.

Lemma wf_index_ok t : wf t -> index_ok t.
Proof. intros []. by split. Qed.

(** ** The walk *)

Lemma walk_spec l tag base t :
  StronglySorted Z.le l ->
  let '(n, t') := walk l tag base t in
  ∃ h', t' = set_heap h' t ∧ upd_ok (heap t) h' ∧ (n <= length l)%nat
  ∧ (∀ x, x ∈ drop n l -> tag < x)
  ∧ (∀ x, x ∈ take n l -> x <= tag)
  ∧ (∀ a x, x ∈ l -> x <= tag -> pending t !! x = Some a ->
       h' !! a = resolve_waiter base <$> heap t !! a)
  ∧ (∀ a, (∀ x, x ∈ l -> x <= tag -> pending t !! x ≠ Some a) -> h' !! a = heap t !! a).
Proof.
  intros Hs. revert t. induction l as [|x l IH]; intros t.
  { exists (heap t). simpl. destruct t; repeat split; auto using upd_ok_refl; set_solver. }
  apply StronglySorted_inv in Hs as [Hs Hall]. rewrite Forall_forall in Hall. simpl.
  case_decide as Hx.
  2:{ exists (heap t). destruct t; simpl; repeat split; auto using upd_ok_refl; [lia| | |].
      - intros y [->|Hy]%elem_of_cons; [lia|]. specialize (Hall y Hy). lia.
      - set_solver.
      - intros a y [->|Hy]%elem_of_cons; [lia|]. specialize (Hall y Hy). lia. }
  specialize (IH Hs (resolveOne x base t)).
  destruct (walk l tag base (resolveOne x base t)) as [n t'].
  destruct IH as (h' & -> & Hu & Hn & Hgt & Hle & Hin & Hout).
  assert (∃ h1, resolveOne x base t = set_heap h1 t ∧ upd_ok (heap t) h1
    ∧ (∀ a, pending t !! x = Some a -> h1 !! a = resolve_waiter base <$> heap t !! a)
    ∧ (∀ a, pending t !! x ≠ Some a -> h1 !! a = heap t !! a)) as (h1 & Heq & Hu1 & H1 & H2).
  { unfold resolveOne. destruct (pending t !! x) as [b|] eqn:Hb.
    - exists (alter (resolve_waiter base) b (heap t)).
      split; [done|]. split; [by apply upd_ok_alter; auto with warren|].
      split; intros a Ha; [simplify_eq; by rewrite lookup_alter_eq|rewrite lookup_alter_ne; congruence].
    - exists (heap t). destruct t. split; [done|]. split; [apply upd_ok_refl|]. split; [done|done]. }
  rewrite Heq in *. simpl in *. exists h'. split; [done|].
  split; [by eapply upd_ok_trans|]. split; [lia|]. split; [done|]. split; [set_solver|]. split.
  - intros a y Hy Hyt Hp. destruct (decide (y ∈ l)) as [Hyl|Hyl].
    + rewrite (Hin a y Hyl Hyt Hp). destruct (decide (pending t !! x = Some a)) as [Hxa|Hxa].
      * rewrite H1 by done. destruct (heap t !! a); simpl; [by rewrite resolve_idemp|done].
      * by rewrite H2.
    + apply elem_of_cons in Hy as [->|]; [|done].
      destruct (decide (Exists (fun z => z <= tag ∧ pending t !! z = Some a) l))
        as [(z & Hz & Hzt & Hzp)%Exists_exists|Hno].
      * rewrite (Hin a z Hz Hzt Hzp), H1 by done.
        destruct (heap t !! a); simpl; [by rewrite resolve_idemp|done].
      * rewrite Hout; [by apply H1|]. intros z Hz Hzt Hzp. apply Hno, Exists_exists. eauto.
  - intros a Hno. rewrite Hout by set_solver. apply H2. apply Hno; [set_solver|done].
Qed.

(** ** Every operation preserves the invariant and refines its specification *)

Lemma wf_New : wf New.
Proof. constructor; simpl; intros; by simplify_map_eq || constructor. Qed.

Lemma wf_advance t :
  wf t -> wf (advanceLowWater t) ∧ abs (advanceLowWater t) = abs t ∧ compacted (advanceLowWater t).
Proof.
  intros Hwf. destruct (advanceLowWater_spec t (wf_index_ok t Hwf))
    as ((Hh & Hf & Hp & Hc) & [Hs Hl] & Hw & Hcm).
  split; [|split; [unfold abs; by rewrite Hh, Hf, Hp, Hc|done]].
  destruct Hwf. constructor; rewrite ?Hh, ?Hf, ?Hp; auto.
  intros tag a w Hpt Hw1 Hd Hcs. apply Hw; [|rewrite Hpt; eauto]. by eapply wf_window0.
Qed.

Lemma abs_set_heap t h' :
  upd_ok (heap t) h' ->
  abs (set_heap h' t) = mkSpec (abs_waiter <$> h') (fresh t) (spending (abs t)) (closed t).
Proof.
  intros Hu. unfold abs. simpl. f_equal. apply map_filter_ext. intros i x _. simpl.
  by rewrite (live_upd _ _ x Hu).
Qed.

Lemma abs_pending t tag a :
  spending (abs t) !! tag = Some a <-> pending t !! tag = Some a ∧ live (heap t) a = true.
Proof. unfold abs. simpl. apply map_lookup_filter_Some. Qed.

Lemma live_Some h a : live h a = true <-> ∃ w, h !! a = Some w ∧ consumed w = false.
Proof.
  unfold live. destruct (h !! a) as [w|]; [|naive_solver].
  destruct (consumed w) eqn:E; simpl; naive_solver.
Qed.

(** An update that commutes with the erasure of consumed waiters. *)
Lemma abs_waiter_upd f w : fun_ok f -> abs_waiter (f w) = if consumed w then erased else f w.
Proof. intros Hf. unfold abs_waiter. by destruct (Hf w) as [-> _]. Qed.

(** The shape shared by [MarkReturned] and [resolveOne]. *)
Definition alter_at (f : waiter -> waiter) (tag : Z) (t : Tracker) : Tracker :=
  match pending t !! tag with
  | None => t
  | Some a => set_heap (alter f a (heap t)) t
  end.

Definition spec_alter_at (f : waiter -> waiter) (tag : Z) (s : spec) : spec :=
  match spending s !! tag with
  | None => s
  | Some a => mkSpec (alter f a (sheap s)) (sfresh s) (spending s) (sclosed s)
  end.

Lemma alter_at_refines f tag t :
  wf t -> fun_ok f ->
  wf (alter_at f tag t) ∧ abs (alter_at f tag t) = spec_alter_at f tag (abs t).
Proof.
  intros Hwf Hf. unfold alter_at, spec_alter_at.
  destruct (pending t !! tag) as [a|] eqn:Hp.
  2:{ split; [done|]. destruct (spending (abs t) !! tag) eqn:E; [|done].
      apply abs_pending in E as [E _]. congruence. }
  pose proof (upd_ok_alter f a (heap t) Hf) as Hu. split; [by apply wf_upd|].
  rewrite abs_set_heap by done.
  destruct (live (heap t) a) eqn:Hl.
  - rewrite (proj2 (abs_pending t tag a)) by done.
    apply live_Some in Hl as (w & Hw & Hc). f_equal. apply map_eq. intros b. simpl.
    rewrite lookup_fmap, !lookup_alter. case_decide; rewrite ?lookup_fmap; [subst b|done].
    rewrite Hw. simpl. rewrite abs_waiter_upd by done. unfold abs_waiter. by rewrite Hc.
  - destruct (spending (abs t) !! tag) as [b|] eqn:E.
    { apply abs_pending in E as [E1 E2]. congruence. }
    unfold abs at 2. f_equal; try done. apply map_eq. intros b.
    rewrite !lookup_fmap, lookup_alter. case_decide; [subst b|done].
    destruct (wf_alloc t Hwf _ _ Hp) as [w Hw]. rewrite Hw. simpl.
    unfold live in Hl. rewrite Hw in Hl. rewrite abs_waiter_upd by done. unfold abs_waiter.
    by destruct (consumed w).
Qed.

Lemma addrs_upto_elem tag p a : a ∈ addrs_upto tag p <-> ∃ x, x <= tag ∧ p !! x = Some a.
Proof.
  unfold addrs_upto. rewrite elem_of_list_to_set, list_elem_of_fmap. split.
  - intros ([x b] & -> & [Hx Hin]%list_elem_of_filter). apply elem_of_map_to_list in Hin. eauto.
  - intros (x & Hx & Hp). exists (x, a). split; [done|]. apply list_elem_of_filter.
    split; [done|]. by apply elem_of_map_to_list.
Qed.

Lemma lookup_update_all s f h a :
  update_all s f h !! a = (if decide (a ∈ s) then f <$> h !! a else h !! a).
Proof.
  unfold update_all. rewrite map_lookup_imap. destruct (h !! a); simpl; by case_decide.
Qed.

(** What a walk from the low-water mark does to each waiter of the map. *)
Lemma resolveUpTo_shape tag base t :
  wf t ->
  ∃ h', upd_ok (heap t) h'
  ∧ wf (resolveUpTo tag base t) ∧ compacted (resolveUpTo tag base t)
  ∧ abs (resolveUpTo tag base t) = abs (set_heap h' t)
  ∧ heap (resolveUpTo tag base t) = h'
  ∧ (∀ a w, heap t !! a = Some w -> consumed w = false ->
       h' !! a = Some (if decide (a ∈ addrs_upto tag (pending t))
                       then resolve_waiter base w else w)).
Proof.
  intros Hwf. unfold resolveUpTo.
  pose proof (walk_spec (window t) tag base t) as Hwalk. fold (window t).
  assert (StronglySorted Z.le (window t)) as Hs.
  { destruct (wf_index_ok t Hwf) as [Hs _]. unfold window.
    rewrite <- (take_drop (head t) (order t)) in Hs. by eapply StronglySorted_app_1_r. }
  specialize (Hwalk Hs). destruct (walk (window t) tag base t) as [n t'].
  destruct Hwalk as (h' & -> & Hu & Hn & Hgt & Hle & Hin & Hout).
  pose proof (wf_upd t h' Hwf Hu) as Hwf'. simpl.
  set (t1 := set_index (order t) (head t + n) (set_heap h' t)).
  assert (length (window t) = length (order t) - head t)%nat as Hlen
    by (unfold window; apply length_drop).
  pose proof (wf_head t Hwf).
  assert (wf t1) as Hwf1.
  { destruct Hwf'. constructor; auto; [unfold t1; simpl; lia|].
    intros x a w Hp Hw Hd Hc. pose proof (wf_window0 x a w Hp Hw Hd Hc) as Hx.
    unfold t1. simpl. rewrite <- drop_drop. simpl in *. fold (window t) in *.
    rewrite <- (take_drop n (window t)) in Hx. apply elem_of_app in Hx as [Hx|Hx]; [|done].
    exfalso. pose proof (Hle x Hx) as Hxt.
    assert (x ∈ window t) as Hxw by (rewrite <- (take_drop n (window t)); set_solver).
    rewrite (Hin a x Hxw Hxt Hp) in Hw. destruct (heap t !! a) as [w0|]; simplify_eq/=.
    unfold resolve_waiter, send in Hd. by destruct (done w0) eqn:E; rewrite ?E in Hd. }
  destruct (wf_advance t1 Hwf1) as (H1 & H2 & H3).
  destruct (advanceLowWater_spec t1 (wf_index_ok t1 Hwf1)) as ((H4 & _) & _).
  exists h'. do 5 (split; [done|]).
  intros a w Hw Hc. case_decide as Ha.
  - apply addrs_upto_elem in Ha as (x & Hx & Hp).
    destruct (decide (x ∈ window t)) as [Hxw|Hxw]; [by rewrite (Hin a x Hxw Hx Hp), Hw|].
    destruct (done w) as [r|] eqn:Hd; [|by destruct Hxw; eapply (wf_window t Hwf)].
    rewrite (resolve_full base w r Hd). rewrite Hout; [done|].
    intros y Hy _ Hpy. by rewrite (wf_inj t Hwf _ _ _ Hpy Hp) in Hy.
  - rewrite Hout; [done|]. intros y _ Hy Hpy. apply Ha, addrs_upto_elem. eauto.
Qed.

Lemma addrs_upto_abs tag t a w :
  heap t !! a = Some w -> consumed w = false ->
  a ∈ addrs_upto tag (spending (abs t)) <-> a ∈ addrs_upto tag (pending t).
Proof.
  intros Hw Hc. rewrite !addrs_upto_elem. split; intros (x & Hx & Hp); exists x; split; auto.
  - by apply abs_pending in Hp as [Hp _].
  - apply abs_pending. split; [done|]. apply live_Some. eauto.
Qed.

Lemma resolveUpTo_refines tag base t :
  wf t ->
  wf (resolveUpTo tag base t) ∧ compacted (resolveUpTo tag base t)
  ∧ abs (resolveUpTo tag base t)
    = mkSpec (update_all (addrs_upto tag (spending (abs t))) (resolve_waiter base) (sheap (abs t)))
             (sfresh (abs t)) (spending (abs t)) (sclosed (abs t)).
Proof.
  intros Hwf. destruct (resolveUpTo_shape tag base t Hwf) as (h' & Hu & H1 & H2 & H3 & _ & H4).
  split; [done|]. split; [done|]. rewrite H3, abs_set_heap by done. f_equal.
  apply map_eq. intros a. rewrite lookup_update_all. simpl. rewrite !lookup_fmap.
  pose proof (Hu a) as Hua. destruct (heap t !! a) as [w|] eqn:Hw, (h' !! a) as [w'|] eqn:Hw'; try done;
    [|by case_decide].
  destruct Hua as [Hcc _]. simpl. destruct (consumed w) eqn:Hc.
  - unfold abs_waiter. rewrite Hcc, Hc. case_decide as Hd; [|done].
    apply addrs_upto_elem in Hd as (x & _ & [_ Hl]%abs_pending).
    unfold live in Hl. by rewrite Hw, Hc in Hl.
  - pose proof (H4 a w Hw Hc) as E. rewrite E in Hw'. injection Hw' as <-.
    assert (∀ v, consumed v = false -> abs_waiter v = v) as Hid by (intros v Hv; unfold abs_waiter; by rewrite Hv).
    rewrite (Hid w Hc), (Hid _ Hcc).
    pose proof (addrs_upto_abs tag t a w Hw Hc). repeat case_decide; tauto.
Qed.

Lemma Register_refines tag t :
  wf t ->
  wf (Register tag t).2 ∧ (closed t = false -> compacted (Register tag t).2)
  ∧ abs (Register tag t).2 = spec_exec (OpRegister tag) (abs t).
Proof.
  intros Hwf. unfold Register. simpl. destruct (closed t) eqn:Hcl; [by do 2 (split; [done|])|].
  set (t1 := mkTracker _ _ _ _ _ _).
  destruct (orderInsert_spec tag t1) as ((Hh & Hf & Hp & Hc) & [Hs Hl] & Htag & Hwin).
  { by destruct (wf_index_ok t Hwf). }
  set (t2 := orderInsert tag t1) in *. simpl.
  assert (heap t !! fresh t = None) as Hfr by (apply (wf_fresh t Hwf); lia).
  assert (∀ x a, x ≠ tag -> pending t !! x = Some a -> a ≠ fresh t) as Hne.
  { intros x a _ Hx ->. destruct (wf_alloc t Hwf x _ Hx). congruence. }
  assert (wf t2) as Hwf2.
  { destruct Hwf. constructor; rewrite ?Hh, ?Hf, ?Hp; auto.
    - intros x a w Hx Hw Hd Hcs. simpl in *. destruct (decide (x = tag)) as [->|Hxt]; [done|].
      rewrite lookup_insert_ne in Hx by done. rewrite lookup_insert_ne in Hw by (symmetry; eauto).
      apply Hwin. by eapply wf_window0.
    - intros x a Hx. simpl in *. destruct (decide (a = fresh t)) as [->|Ha].
      + rewrite lookup_insert_eq. eauto.
      + rewrite lookup_insert_ne by done. destruct (decide (x = tag)) as [->|].
        * rewrite lookup_insert_eq in Hx. congruence.
        * rewrite lookup_insert_ne in Hx by done. eauto.
    - simpl. intros a Ha. rewrite lookup_insert_ne by lia. apply wf_fresh0. lia.
    - simpl. intros x y a Hx Hy. rewrite lookup_insert in Hx, Hy.
      do 2 case_decide; simplify_eq; eauto; exfalso;
        (eapply Hne; [|eassumption|]; congruence). }
  destruct (wf_advance t2 Hwf2) as (H1 & H2 & H3). split; [done|]. split; [done|].
  rewrite H2. unfold abs. rewrite Hh, Hf, Hp, Hc. simpl. f_equal.
  - rewrite fmap_insert. done.
  - apply map_eq. intros x. apply option_eq. intros a.
    rewrite map_lookup_filter_Some. simpl. destruct (decide (x = tag)) as [->|Hx].
    + rewrite !lookup_insert_eq. split; [naive_solver|]. intros [= <-]. split; [done|].
      unfold live. by rewrite lookup_insert_eq.
    + rewrite !lookup_insert_ne by done. rewrite map_lookup_filter_Some. simpl.
      split; intros [Hpa Hla]; (split; [done|]); unfold live in *;
        rewrite lookup_insert_ne in * by (symmetry; eauto); done.
Qed.

(** Removing slots from the map keeps the invariant. *)
Lemma wf_shrink t p cl :
  wf t -> (∀ x a, p !! x = Some a -> pending t !! x = Some a) ->
  wf (mkTracker (heap t) (fresh t) p (order t) (head t) cl).
Proof. intros [] Hp. constructor; simpl; eauto. Qed.

Lemma Wait_delete_refines tag t :
  wf t -> wf (Wait_delete tag t) ∧ abs (Wait_delete tag t) = spec_exec (OpWaitDelete tag) (abs t).
Proof.
  intros Hwf. split.
  - apply wf_shrink; [done|]. intros x a Hx. by apply lookup_delete_Some in Hx as [_ Hx].
  - unfold abs, Wait_delete. simpl. by rewrite map_filter_delete.
Qed.

Lemma Cancel_refines tag t :
  wf t -> wf (Cancel tag t) ∧ abs (Cancel tag t) = spec_exec (OpCancel tag) (abs t).
Proof.
  intros Hwf.
  assert (Cancel tag t = Wait_delete tag (alter_at (send (Some (Sentinel ConfirmsErrClosed))) tag t)) as ->.
  { unfold Cancel, alter_at, Wait_delete. destruct (pending t !! tag) eqn:E; [done|].
    unfold set_pending. rewrite delete_id by done. by destruct t. }
  destruct (alter_at_refines (send (Some (Sentinel ConfirmsErrClosed))) tag t Hwf (send_ok _)) as [H1 H2].
  destruct (Wait_delete_refines tag _ H1) as [H3 H4]. split; [done|]. rewrite H4, H2. done.
Qed.

Lemma Wait_recv_refines a t :
  wf t -> wf (exec (OpWaitRecv a) t) ∧ abs (exec (OpWaitRecv a) t) = spec_exec (OpWaitRecv a) (abs t).
Proof.
  intros Hwf. simpl. unfold Wait_recv. rewrite lookup_fmap.
  destruct (heap t !! a) as [w|] eqn:Hw; [|done]. simpl.
  destruct (done w) as [r|] eqn:Hd.
  2:{ split; [done|]. unfold abs_waiter. destruct (consumed w); simpl; [done|]. by rewrite Hd. }
  set (h' := <[a := _]> (heap t)). split.
  - destruct Hwf. constructor; simpl; auto.
    + intros x b v Hx Hv Hdv Hcv. unfold h' in Hv. rewrite lookup_insert in Hv.
      case_decide; simplify_eq/=. by eapply wf_window0.
    + intros x b Hx. unfold h'. rewrite lookup_insert. case_decide; eauto.
    + intros b Hb. unfold h'. rewrite lookup_insert_ne; [auto|]. intros ->.
      rewrite wf_fresh0 in Hw by done. done.
  - assert (abs_waiter <$> h' = <[a := erased]> (abs_waiter <$> heap t)) as Hh
      by (unfold h'; by rewrite fmap_insert).
    unfold abs_waiter at 1. destruct (consumed w) eqn:Hc; simpl.
    + unfold abs. simpl. rewrite Hh. f_equal.
      * apply insert_id. rewrite lookup_fmap, Hw. simpl. unfold abs_waiter. by rewrite Hc.
      * apply map_filter_ext. intros x b _. simpl. unfold live, h'. rewrite lookup_insert.
        case_decide; [subst b|done]. by rewrite Hw, Hc.
    + rewrite Hd. unfold abs. simpl. rewrite Hh. f_equal. rewrite map_filter_filter.
      apply map_filter_ext. intros x b _. simpl. unfold live, h'. rewrite lookup_insert.
      case_decide; [subst b; simpl; naive_solver|]. naive_solver.
Qed.

Lemma close_fold l h p :
  NoDup l.*1 -> NoDup l.*2 -> (∀ e, e ∈ l -> is_Some (h !! e.2)) ->
  let '(h', p') := foldl (fun hp e => close_one hp.1 hp.2 e) (h, p) l in
  (∀ a, h' !! a = if decide (a ∈ l.*2) then send (Some (Sentinel ConfirmsErrClosed)) <$> h !! a
                  else h !! a)
  ∧ (∀ e, e ∈ l -> p' !! e.1 = if buffer_full h e.2 then p !! e.1 else None)
  ∧ (∀ x, x ∉ l.*1 -> p' !! x = p !! x).
Proof.
  revert h p. induction l as [|[x a] l IH]; intros h p Hn1 Hn2 Hall; simpl.
  { repeat split; intros; set_solver. }
  simpl in *. apply NoDup_cons in Hn1 as [Hx Hn1], Hn2 as [Ha Hn2].
  destruct (Hall (x, a)) as [w Hw]; [set_solver|]. simpl in Hw.
  set (h1 := <[a := send (Some (Sentinel ConfirmsErrClosed)) w]> h).
  set (p1 := if buffer_full h a then p else delete x p).
  assert (close_one h p (x, a) = (h1, p1)) as E.
  { unfold close_one, h1, p1, buffer_full. rewrite Hw. destruct (done w) eqn:Hd; [|done].
    f_equal. unfold send. rewrite Hd. by rewrite insert_id. }
  unfold close_one in E. rewrite E. clear E.
  specialize (IH h1 p1 Hn1 Hn2).
  destruct (foldl _ (h1, p1) l) as [h' p']. destruct IH as (H1 & H2 & H3).
  { intros e He. unfold h1. rewrite lookup_insert. case_decide; [eauto|]. apply Hall. set_solver. }
  split; [|split].
  - intros b. rewrite H1. unfold h1. rewrite lookup_insert.
    destruct (decide (b = a)) as [->|Hne].
    + rewrite decide_False by done. rewrite decide_True by done.
      rewrite decide_True by set_solver. by rewrite Hw.
    + rewrite (decide_False (P := a = b)) by done.
      repeat case_decide; set_solver.
  - intros e [->|He]%elem_of_cons; simpl.
    + rewrite H3 by done. unfold p1. destruct (buffer_full h a); [done|]. apply lookup_delete_eq.
    + assert (e.1 ≠ x) by (intros <-; apply Hx, list_elem_of_fmap; eauto).
      assert (e.2 ≠ a) by (intros <-; apply Ha, list_elem_of_fmap; eauto).
      rewrite (H2 e He). unfold buffer_full, h1, p1. rewrite lookup_insert_ne by done.
      destruct (buffer_full h a); [done|]. by rewrite lookup_delete_ne.
  - intros y Hy. rewrite H3 by set_solver. unfold p1.
    destruct (buffer_full h a); [done|]. rewrite lookup_delete_ne by set_solver. done.
Qed.

Lemma pending_values_NoDup t : wf t -> NoDup (map_to_list (pending t)).*2.
Proof.
  intros Hwf. apply NoDup_fmap_2_strong; [|apply NoDup_map_to_list].
  intros [x a] [y b] Hx Hy E. simpl in E. subst b. apply elem_of_map_to_list in Hx, Hy.
  by rewrite (wf_inj t Hwf x y a).
Qed.

(** What [CloseAll] leaves behind. *)
Lemma CloseAll_shape t :
  wf t ->
  (∀ a, heap (CloseAll t) !! a
        = if decide (a ∈ addrs (pending t)) then send (Some (Sentinel ConfirmsErrClosed)) <$> heap t !! a
          else heap t !! a)
  ∧ pending (CloseAll t) = filter (fun kv => buffer_full (heap t) kv.2 = true) (pending t)
  ∧ fresh (CloseAll t) = fresh t ∧ order (CloseAll t) = order t ∧ head (CloseAll t) = head t
  ∧ closed (CloseAll t) = true.
Proof.
  intros Hwf. unfold CloseAll.
  pose proof (close_fold (map_to_list (pending t)) (heap t) (pending t)
    (NoDup_fst_map_to_list _) (pending_values_NoDup t Hwf)) as Hf.
  destruct (foldl _ _ _) as [h' p']. destruct Hf as (H1 & H2 & H3).
  { intros [x a] He%elem_of_map_to_list. by apply (wf_alloc t Hwf x). }
  simpl. split; [|split; [|done]].
  - intros a. rewrite H1. unfold addrs.
    destruct (decide (a ∈ (map_to_list (pending t)).*2)) as [Hin|Hin].
    + rewrite decide_True; [done|]. by apply elem_of_list_to_set.
    + rewrite decide_False; [done|]. by rewrite elem_of_list_to_set.
  - apply map_eq. intros x. rewrite map_lookup_filter.
    destruct (pending t !! x) as [a|] eqn:Hx; simpl.
    + pose proof (H2 (x, a)) as E. simpl in E. rewrite E by by apply elem_of_map_to_list.
      rewrite Hx. case_guard; by destruct (buffer_full (heap t) a).
    + rewrite H3; [done|]. intros ([y b] & -> & Hin)%list_elem_of_fmap.
      apply elem_of_map_to_list in Hin. simpl in Hx. congruence.
Qed.

Lemma addrs_elem p a : a ∈ addrs p <-> ∃ x : Z, p !! x = Some a.
Proof.
  unfold addrs. rewrite elem_of_list_to_set, list_elem_of_fmap. split.
  - intros ([x b] & -> & Hin%elem_of_map_to_list). eauto.
  - intros (x & Hp). exists (x, a). by rewrite elem_of_map_to_list.
Qed.

Lemma CloseAll_upd t : wf t -> upd_ok (heap t) (heap (CloseAll t)).
Proof.
  intros Hwf a. destruct (CloseAll_shape t Hwf) as (H1 & _). rewrite H1.
  case_decide; destruct (heap t !! a); simpl; auto. apply send_ok.
Qed.

Lemma CloseAll_refines t :
  wf t -> wf (CloseAll t) ∧ abs (CloseAll t) = spec_exec OpCloseAll (abs t).
Proof.
  intros Hwf. pose proof (CloseAll_upd t Hwf) as Hu.
  destruct (CloseAll_shape t Hwf) as (Hh & Hp & Hf & Ho & Hhd & Hcl). split.
  - assert (CloseAll t = mkTracker (heap (CloseAll t)) (fresh t) (pending (CloseAll t))
      (order t) (head t) true) as -> by (destruct (CloseAll t); simpl in *; congruence).
    apply (wf_shrink (set_heap (heap (CloseAll t)) t)); [by apply wf_upd|].
    intros x a Hx. rewrite Hp in Hx. by apply map_lookup_filter_Some in Hx as [Hx _].
  - unfold abs. simpl. rewrite Hf, Hcl. f_equal.
    + apply map_eq. intros a. rewrite lookup_update_all, !lookup_fmap, Hh.
      destruct (heap t !! a) as [w|] eqn:Hw; [|by repeat case_decide]. simpl.
      unfold abs_waiter at 3. destruct (consumed w) eqn:Hc.
      * rewrite (decide_False (P := a ∈ addrs (filter _ _))).
        { case_decide; simpl; [rewrite abs_waiter_upd by apply send_ok|unfold abs_waiter]; by rewrite Hc. }
        rewrite addrs_elem. intros (x & [_ Hl]%map_lookup_filter_Some).
        simpl in Hl. unfold live in Hl. by rewrite Hw, Hc in Hl.
      * assert (a ∈ addrs (filter (fun kv => live (heap t) kv.2 = true) (pending t))
                <-> a ∈ addrs (pending t)) as Hiff.
        { rewrite !addrs_elem. split; intros [x Hx]; exists x.
          - by apply map_lookup_filter_Some in Hx as [Hx _].
          - apply map_lookup_filter_Some. split; [done|]. apply live_Some. eauto. }
        unfold abs_waiter. repeat case_decide; try tauto; simpl; rewrite ?Hc; [|done].
        by destruct (send_ok (Some (Sentinel ConfirmsErrClosed)) w) as [-> _]; rewrite Hc.
    + rewrite Hp, !map_filter_filter. apply map_filter_ext. intros x a Hx. simpl.
      rewrite (live_upd _ _ a Hu).
      assert (live (heap t) a = true ->
        buffer_full (abs_waiter <$> heap t) a = buffer_full (heap t) a) as E.
      { intros (w & Hw & Hc)%live_Some. unfold buffer_full. rewrite lookup_fmap, Hw. simpl.
        unfold abs_waiter. by rewrite Hc. }
      split; intros [H1 H2]; split; try done; by rewrite ?E in *.
Qed.

(** Every operation preserves the invariant and does what the specification
    says. *)
Lemma exec_refines o t : wf t -> wf (exec o t) ∧ abs (exec o t) = spec_exec o (abs t).
Proof.
  intros Hwf. destruct o as [tag|tag code|tag [|]|tag [|]| |tag|a|tag]; simpl exec.
  - destruct (Register_refines tag t Hwf) as (? & _ & ?). done.
  - by apply (alter_at_refines _ tag t Hwf (returned_ok code)).
  - destruct (resolveUpTo_refines tag None t Hwf) as (? & _ & ?). done.
  - by apply (alter_at_refines _ tag t Hwf (resolve_ok None)).
  - destruct (resolveUpTo_refines tag (Some (Sentinel ConfirmsErrNacked)) t Hwf) as (? & _ & ?). done.
  - by apply (alter_at_refines _ tag t Hwf (resolve_ok _)).
  - by apply CloseAll_refines.
  - by apply Cancel_refines.
  - by apply Wait_recv_refines.
  - by apply Wait_delete_refines.
Qed.

Lemma run_refines os t : wf t -> wf (run os t) ∧ abs (run os t) = spec_run os (abs t).
Proof.
  revert t. induction os as [|o os IH]; intros t Hwf; [done|].
  simpl. destruct (exec_refines o t Hwf) as [H1 H2]. destruct (IH _ H1) as [H3 H4].
  split; [done|]. unfold spec_run in *. simpl. by rewrite <- H2.
Qed.

Lemma run_New_wf os : wf (run os New).
Proof. apply run_refines, wf_New. Qed.

#[local] Hint Resolve run_New_wf : warren.

Lemma exec_compacted o t : wf t -> compacted t -> compacted (exec o t).
Proof.
  intros Hwf Hc. destruct o as [tag|tag code|tag [|]|tag [|]| |tag|a|tag]; simpl exec.
  - destruct (closed t) eqn:E; [unfold Register; by rewrite E|].
    by destruct (Register_refines tag t Hwf) as (_ & ? & _); auto.
  - unfold MarkReturned. by case_match.
  - by destruct (resolveUpTo_refines tag None t Hwf) as (_ & ? & _).
  - unfold Ack, resolveOne. by case_match.
  - by destruct (resolveUpTo_refines tag (Some (Sentinel ConfirmsErrNacked)) t Hwf) as (_ & ? & _).
  - unfold Nack, resolveOne. by case_match.
  - destruct (CloseAll_shape t Hwf) as (_ & _ & _ & Ho & Hh & _).
    unfold compacted. by rewrite Ho, Hh.
  - unfold Cancel. by case_match.
  - unfold Wait_recv. repeat case_match; by simplify_eq.
  - done.
Qed.

Lemma run_compacted os t : wf t -> compacted t -> compacted (run os t).
Proof.
  revert t. induction os as [|o os IH]; intros t Hwf Hc; [done|].
  apply IH; [by apply exec_refines|by apply exec_compacted].
Qed.

(** Once resolved and not yet received, a waiter keeps its result. *)
Lemma exec_keeps_result o t a w r :
  wf t -> o ≠ OpWaitRecv a -> heap t !! a = Some w -> done w = Some r -> consumed w = false ->
  ∃ w', heap (exec o t) !! a = Some w' ∧ done w' = Some r ∧ consumed w' = false.
Proof.
  intros Hwf Ho Hw Hd Hc.
  assert (∀ f b, (∀ v, done v = Some r -> done (f v) = Some r) -> fun_ok f ->
    ∃ w', alter f b (heap t) !! a = Some w' ∧ done w' = Some r ∧ consumed w' = false) as Halter.
  { intros f b Hf Hok. rewrite lookup_alter. case_decide; [subst b|]; rewrite Hw; simpl; [|eauto].
    exists (f w). destruct (Hok w) as [E _]. rewrite E. auto. }
  assert (∀ s v, done v = Some r -> done (send s v) = Some r) as Hsend
    by (intros s v Hv; unfold send; by rewrite Hv).
  assert (∀ base tag, ∃ w', heap (resolveUpTo tag base t) !! a = Some w'
    ∧ done w' = Some r ∧ consumed w' = false) as Hupto.
  { intros base tag. destruct (resolveUpTo_shape tag base t Hwf) as (h' & _ & _ & _ & _ & -> & H).
    rewrite (H a w Hw Hc). case_decide; [|eauto]. rewrite (resolve_full base w r Hd). eauto. }
  destruct o as [tag|tag code|tag [|]|tag [|]| |tag|b|tag]; simpl exec; auto.
  - unfold Register. destruct (closed t); [eauto|]. simpl.
    set (t1 := mkTracker _ _ _ _ _ _). assert (index_ok t1) as Hi1 by by destruct (wf_index_ok t Hwf).
    destruct (orderInsert_spec tag t1 Hi1) as ((Hh1 & _) & Hi2 & _).
    destruct (advanceLowWater_spec (orderInsert tag t1) Hi2) as ((Hh2 & _) & _).
    rewrite Hh2, Hh1. simpl. rewrite lookup_insert_ne; [eauto|].
    intros <-. rewrite (wf_fresh t Hwf) in Hw by lia. done.
  - unfold MarkReturned. case_match; simpl; [|eauto]. apply Halter; auto with warren.
  - unfold Ack, resolveOne. case_match; simpl; [|eauto]. apply Halter; [|auto with warren].
    intros v Hv. by apply Hsend.
  - unfold Nack, resolveOne. case_match; simpl; [|eauto]. apply Halter; [|auto with warren].
    intros v Hv. by apply Hsend.
  - destruct (CloseAll_shape t Hwf) as (-> & _). case_decide; rewrite Hw; simpl; [|eauto].
    eexists. split; [done|]. destruct (send_ok (Some (Sentinel ConfirmsErrClosed)) w) as [-> _]. auto.
  - unfold Cancel. case_match; simpl; [|eauto]. apply Halter; auto with warren.
  - unfold Wait_recv. destruct (heap t !! b) as [v|]; [|eauto]. destruct (done v); [|eauto]. simpl.
    rewrite lookup_insert_ne; [eauto|]. congruence.
  - eauto.
Qed.

(** ** Properties *)

(** C4. The tracker with its ordered index refines the tracker that scans the
    whole map: after any sequence of operations the two have the same waiters,
    slots and closed flag, [Register] returns the same error, and a [Wait] on
    a live slot finds the same waiter and receives the same result. *)
Theorem tracker_refines_spec os :
  let t := run os New in
  let s := spec_run os spec_new in
  abs t = s
  ∧ (∀ tag, (Register tag t).1 = if sclosed s then Some (Sentinel ConfirmsErrClosed) else None)
  ∧ (∀ tag a, spending s !! tag = Some a ->
       Wait_lookup tag t = Some a
       ∧ fst <$> Wait_recv a t = sheap s !! a ≫= done).
Proof.
  cbv zeta. destruct (run_refines os New wf_New) as [_ Habs].
  change (abs New) with spec_new in Habs. split; [done|]. rewrite <- Habs. split.
  - intros tag. unfold Register. simpl. by destruct (closed _).
  - intros tag a [Hp (w & Hw & Hc)%live_Some]%abs_pending. split; [done|].
    unfold Wait_recv. simpl. rewrite lookup_fmap, Hw. simpl. unfold abs_waiter. rewrite Hc.
    by destruct (done w).
Qed.

(** A frame with [multiple=true] resolves every waiter registered under a
    tag at most the frame's tag that has no result yet, with the frame's outcome
    ([UnroutableError] when the tag was returned and the frame is an ack), and
    leaves every waiter above it as it was. *)
Lemma multiple_resolves_exactly_below os tag (nack : bool) x a w :
  let t := run os New in
  let base := if nack then Some (Sentinel ConfirmsErrNacked) else None in
  pending t !! x = Some a -> heap t !! a = Some w -> consumed w = false ->
  heap ((if nack then Nack else Ack) tag true t) !! a
  = Some (if decide (x <= tag)
          then match done w with
               | Some _ => w
               | None => Waiter (Some (resolution base w)) (returnCode w) (returned w) false
               end
          else w).
Proof.
  cbv zeta. intros Hp Hw Hc. pose proof (run_New_wf os) as Hwf.
  set (t := run os New) in *. set (base := if nack then Some (Sentinel ConfirmsErrNacked) else None).
  assert ((if nack then Nack else Ack) tag true t = resolveUpTo tag base t) as -> by by destruct nack.
  destruct (resolveUpTo_shape tag base t Hwf) as (h' & _ & _ & _ & _ & -> & H).
  rewrite (H a w Hw Hc). f_equal.
  assert (a ∈ addrs_upto tag (pending t) <-> x <= tag) as Hiff.
  { rewrite addrs_upto_elem. split; [intros (y & Hy & Hpy)|eauto].
    by rewrite (wf_inj t Hwf _ _ _ Hp Hpy). }
  repeat case_decide; try tauto. unfold resolve_waiter, send. rewrite Hc. by destruct (done w).
Qed.

(** The first resolution wins: once a waiter holds a result, no sequence of
    acks, nacks, returns, cancels, registrations or closes changes it before
    [Wait] receives it. *)
Lemma first_resolution_wins os os' a w r :
  heap (run os New) !! a = Some w -> done w = Some r -> consumed w = false ->
  OpWaitRecv a ∉ os' ->
  fst <$> Wait_recv a (run os' (run os New)) = Some r.
Proof.
  intros Hw Hd Hc. pose proof (run_New_wf os) as Hwf. revert w Hw Hd Hc Hwf.
  generalize (run os New) as t. induction os' as [|o os' IH]; intros t w Hw Hd Hc Hwf Hin.
  - simpl. unfold Wait_recv. by rewrite Hw, Hd.
  - apply not_elem_of_cons in Hin as [Hne Hin].
    destruct (exec_keeps_result o t a w r) as (w' & H1 & H2 & H3); auto.
    eapply IH; eauto. by apply exec_refines.
Qed.

(** [basic.return] then [basic.ack] resolves the publish with
    [UnroutableError] and the return's reply code, while a [basic.nack] takes
    precedence over the return, for single and for multiple frames alike. *)
Lemma return_correlates os tag code x (multiple : bool) a w :
  let t := run os New in
  pending t !! tag = Some a -> heap t !! a = Some w -> done w = None -> consumed w = false ->
  (if multiple then tag <= x else x = tag) ->
  fst <$> Wait_recv a (Ack x multiple (MarkReturned tag code t)) = Some (Some (UnroutableError code))
  ∧ fst <$> Wait_recv a (Nack x multiple (MarkReturned tag code t))
    = Some (Some (Sentinel ConfirmsErrNacked)).
Proof.
  cbv zeta. intros Hp Hw Hd Hc Hx. pose proof (run_New_wf os) as Hwf. set (t := run os New) in *.
  assert (MarkReturned tag code t
    = set_heap (alter (fun w => Waiter (done w) code true (consumed w)) a (heap t)) t) as Em
    by (unfold MarkReturned; by rewrite Hp).
  assert (wf (MarkReturned tag code t)) as Hwf' by by apply (exec_refines (OpMarkReturned tag code)).
  set (t' := MarkReturned tag code t) in *. set (w' := Waiter None code true false).
  assert (heap t' !! a = Some w') as Hw'.
  { rewrite Em. simpl. rewrite lookup_alter_eq, Hw. simpl. unfold w'. by rewrite Hd, Hc. }
  assert (pending t' !! tag = Some a) as Hp' by by rewrite Em.
  assert (∀ base, heap (if multiple then resolveUpTo x base t' else resolveOne x base t') !! a
    = Some (resolve_waiter base w')) as Hres.
  { intros base. destruct multiple.
    - destruct (resolveUpTo_shape x base t' Hwf') as (h' & _ & _ & _ & _ & -> & H).
      rewrite (H a w' Hw' eq_refl). rewrite decide_True; [done|]. apply addrs_upto_elem. eauto.
    - subst x. unfold resolveOne. rewrite Hp'. simpl. by rewrite lookup_alter_eq, Hw'. }
  unfold Ack, Nack, Wait_recv. rewrite !Hres. done.
Qed.

(** [CloseAll] leaves no publisher blocked and loses no result: every slot
    that stays in the map already has its result, every waiter that had none
    gets [ErrClosed], one that had a result keeps it, and [Register] fails from
    then on whatever operations follow. *)
Lemma CloseAll_resolves_everything os os' :
  let t := run os New in
  (∀ tag a, pending (CloseAll t) !! tag = Some a ->
     ∃ w r, heap (CloseAll t) !! a = Some w ∧ done w = Some r)
  ∧ (∀ tag a w, pending t !! tag = Some a -> heap t !! a = Some w ->
       fst <$> Wait_recv a (CloseAll t)
       = Some (match done w with Some r => r | None => Some (Sentinel ConfirmsErrClosed) end))
  ∧ (∀ tag, Register tag (run os' (CloseAll t))
       = (Some (Sentinel ConfirmsErrClosed), run os' (CloseAll t))).
Proof.
  cbv zeta. pose proof (run_New_wf os) as Hwf. set (t := run os New) in *.
  destruct (CloseAll_shape t Hwf) as (Hh & Hp & _ & _ & _ & Hcl). split; [|split].
  - intros tag a Ha. rewrite Hp in Ha. apply map_lookup_filter_Some in Ha as [Ha Hb]. simpl in Hb.
    rewrite Hh, decide_True by (apply addrs_elem; eauto). unfold buffer_full in Hb.
    destruct (wf_alloc t Hwf _ _ Ha) as [w Hw]. rewrite Hw in *. simpl.
    destruct (done w) as [r|] eqn:Hd; [|done]. exists w, r. unfold send. by rewrite Hd.
  - intros tag a w Ha Hw. unfold Wait_recv. rewrite Hh, decide_True by (apply addrs_elem; eauto).
    rewrite Hw. simpl. unfold send. by destruct (done w) as [r|] eqn:Hd; simpl; rewrite ?Hd.
  - intros tag. assert (closed (run os' (CloseAll t)) = true) as E; [|unfold Register; by rewrite E].
    destruct (run_refines os' _ (proj1 (CloseAll_refines t Hwf))) as [_ Habs].
    change (sclosed (abs (run os' (CloseAll t))) = true). rewrite Habs.
    assert (sclosed (abs (CloseAll t)) = true) as Hs by done. revert Hs. clear.
    generalize (abs (CloseAll t)). induction os' as [|o os' IH]; intros s Hs; [done|].
    apply IH. unfold flip. destruct o as [tag|tag code|tag [|]|tag [|]| |tag|a|tag]; simpl; auto;
      repeat case_match; auto.
Qed.

(** The ordered index stays bounded by the live window: its length never
    exceeds twice the window plus the compaction threshold, it is sorted, and
    every unresolved publish is inside the window. *)
Lemma order_index_bounded os :
  let t := run os New in
  (length (order t) <= 2 * length (drop (head t) (order t)) + orderCompactMinPrefix)%nat
  ∧ StronglySorted Z.le (order t)
  ∧ (∀ tag a w, pending t !! tag = Some a -> heap t !! a = Some w -> done w = None ->
       consumed w = false -> tag ∈ drop (head t) (order t)).
Proof.
  cbv zeta. destruct (run_New_wf os) as [Hs Hh Hw _ _ _].
  assert (compacted (run os New)) as Hc.
  { apply run_compacted; [apply wf_New|]. left. simpl. lia. }
  split; [|done]. rewrite length_drop. unfold compacted in Hc. lia.
Qed.

(** ** Witnesses *)

(** Three publishes in flight, the second one registered out of order. *)
Definition sample : list op := [OpRegister 5; OpRegister 3; OpRegister 9].

Lemma multiple_resolves_witness :
  heap (Ack 5 true (run sample New)) !! 1%nat
  = Some (Waiter (Some None) 0 false false)
  ∧ heap (Ack 5 true (run sample New)) !! 2%nat = Some new_waiter.
Proof.
  split.
  - apply (multiple_resolves_exactly_below sample 5 false 3 1 new_waiter); vm_compute; reflexivity.
  - apply (multiple_resolves_exactly_below sample 5 false 9 2 new_waiter); vm_compute; reflexivity.
Defined.

Lemma first_resolution_witness :
  fst <$> Wait_recv 0 (run [OpAck 5 false; OpNack 9 true; OpCloseAll]
                           (run (sample ++ [OpAck 5 false]) New)) = Some None.
Proof.
  apply (first_resolution_wins (sample ++ [OpAck 5 false])
           [OpAck 5 false; OpNack 9 true; OpCloseAll] 0 (Waiter (Some None) 0 false false)).
  - vm_compute; reflexivity.
  - reflexivity.
  - reflexivity.
  - set_solver.
Defined.

Lemma return_correlates_witness :
  fst <$> Wait_recv 1 (Ack 5 true (MarkReturned 3 312 (run sample New)))
  = Some (Some (UnroutableError 312)).
Proof.
  apply (return_correlates sample 3 312 5 true 1 new_waiter);
    first [reflexivity | vm_compute; reflexivity | lia].
Defined.
