(* ===== verification/Values.v ===== *)
(** * Values: AMQP field-table values and the small types of types.go

    Models [src/types.go].  A Go [any] stored in a header or argument table is
    a [value]; its constructor is the dynamic type, which the code's type
    switches and type assertions read. *)

From S2P Require Import Prelude.

(** ** Dynamic values *)

Inductive int_kind : Type :=
| KInt | KInt8 | KInt16 | KInt32 | KInt64
| KUint | KUint8 | KUint16 | KUint32 | KUint64.

#[global] Instance int_kind_eq_dec : EqDecision int_kind.
Proof. solve_decision. Defined.

(** A map inside a value is the list of its entries in some iteration order.
    - [VFloat] carries the bit pattern, [VTime] nanoseconds;
    - [VTable] is [amqp091.Table], [VHeaders] is [Headers], [VMap] is a plain
      [map[string]any]: three distinct dynamic types;
    - [VOverflowPolicy] is the named string type [OverflowPolicy], which a
      [string] assertion does not match;
    - [VOther] is any other Go type. *)
Inductive value : Type :=
| VNil
| VBool (b : bool)
| VNum (k : int_kind) (z : Z)
| VFloat (wide : bool) (bits : Z)
| VString (s : string)
| VBytes (bs : list Byte.byte)
| VTime (t : Z)
| VTable (es : list (string * value))
| VHeaders (es : list (string * value))
| VMap (es : list (string * value))
| VSlice (vs : list value)
| VOverflowPolicy (s : string)
| VOther (id : nat).

(** Type assertions with the comma-ok form discarded: the zero value when the
    assertion fails. *)
Definition as_string (v : option value) : string :=
  match v with Some (VString s) => s | _ => ""%string end.

Definition as_int64 (v : option value) : Z :=
  match v with Some (VNum KInt64 z) => z | _ => 0 end.

(** Lookup in the entries of a nested map. *)
Fixpoint assoc (k : string) (es : list (string * value)) : option value :=
  match es with
  | [] => None
  | (k', v) :: r => if decide (k' = k) then Some v else assoc k r
  end.

(** A Go map of arguments: [None] is nil. *)
Abbreviation args := (option (gmap string value)).

(** Reading a nil map yields nothing. *)
Definition args_get (m : args) (k : string) : option value :=
  match m with Some m => m !! k | None => None end.

(** ** DeliveryMode *)

Definition DeliveryModePersistent : Z := 0.
Definition DeliveryModeTransient : Z := 1.

Definition wire (d : Z) : Z := if decide (d = DeliveryModeTransient) then 1 else 2.

Definition deliveryModeFromWire (w : Z) : Z :=
  if decide (w = 2) then DeliveryModePersistent else DeliveryModeTransient.

(** ** Named string types *)

Definition ExchangeDirect : string := "direct".
Definition ExchangeFanout : string := "fanout".
Definition ExchangeTopic : string := "topic".
Definition ExchangeHeaders : string := "headers".
Definition ExchangeDelayed : string := "x-delayed-message".

Definition QueueTypeClassic : string := "classic".
Definition QueueTypeQuorum : string := "quorum".
Definition QueueTypeStream : string := "stream".

Definition OverflowDropHead : string := "drop-head".
Definition OverflowRejectPublish : string := "reject-publish".
Definition OverflowRejectPublishDLX : string := "reject-publish-dlx".

(** [TimeoutVerdict]; the zero value comes first. *)
Inductive TimeoutVerdict : Type :=
| TimeoutNackNoRequeue
| TimeoutNackRequeue.

#[global] Instance TimeoutVerdict_eq_dec : EqDecision TimeoutVerdict.
Proof. solve_decision. Defined.

(** ** Lemmas *)

Lemma wire_roundtrip (d : Z) :
  d = DeliveryModePersistent ∨ d = DeliveryModeTransient ->
  deliveryModeFromWire (wire d) = d.
Proof. by intros [-> | ->]. Qed.

(** Only an explicit transient mode leaves the durable default. *)
Lemma wire_durable (d : Z) : wire d = 2 <-> d ≠ DeliveryModeTransient.
Proof. unfold wire. case_decide; split; intros; congruence || lia || done. Qed.
