(* ===== verification/XDeath.v ===== *)
(** * XDeath: parsing the broker's x-death header

    Models [src/internal/headers/xdeath.go], the counter a consumer compares
    with its redelivery limit.  The reference is the exact sum of the counts;
    the theorems show that the saturating accumulation is that sum capped at
    [math.MaxInt], so that no header makes a counter negative. *)

From Stdlib Require Import Ascii.
From S2P Require Import Prelude Values.

(** [strings.ReplaceAll(reason, "_", "-")]. *)
Fixpoint normalizeReason (reason : string) : string :=
  match reason with
  | EmptyString => EmptyString
  | String c r =>
      String (if decide (c = "_"%char) then "-"%char else c) (normalizeReason r)
  end.

Record XDeathResult : Type := mkXDeath {
  Count : Z;
  Reasons : list string;
  byReason : gmap string Z   (* a nil map reads as the empty one *)
}.

Definition zeroResult : XDeathResult := mkXDeath 0 [] ∅.

(** Reading a missing key of [byReason] yields 0. *)
Definition reason_count (m : gmap string Z) (reason : string) : Z := default 0 (m !! reason).

Definition CountByReason (r : XDeathResult) (reason : string) : Z :=
  reason_count (byReason r) (normalizeReason reason).

(** The saturating [+=] of the loop body. *)
Definition saturating_add (acc count : Z) : Z :=
  if decide (maxInt - acc < count) then maxInt else acc + count.

(** The count of one entry, clamped to [[0, MaxInt]]. *)
Definition entry_count (entry : list (string * value)) : Z :=
  let count := as_int64 (assoc "count" entry) in
  let count := if decide (count < 0) then 0 else count in
  if decide (maxInt < count) then maxInt else count.

Definition entry_reason (entry : list (string * value)) : string :=
  normalizeReason (as_string (assoc "reason" entry)).

Definition counted (reason : string) : bool :=
  bool_decide (reason = "rejected"%string) || bool_decide (reason = "delivery-limit"%string).

(** One iteration of the loop over the entries. *)
Definition step_entry (queue : string) (result : XDeathResult) (e : value) : XDeathResult :=
  match e with
  | VTable entry =>
      if decide (as_string (assoc "queue" entry) = queue) then
        let reason := entry_reason entry in
        let count := entry_count entry in
        mkXDeath
          (if counted reason then saturating_add (Count result) count else Count result)
          (match byReason result !! reason with
           | Some _ => Reasons result
           | None => Reasons result ++ [reason]
           end)
          (<[reason := saturating_add (reason_count (byReason result) reason) count]>
             (byReason result))
      else result
  | _ => result
  end.

Definition ParseXDeath (tbl : args) (queue : string) : XDeathResult :=
  match args_get tbl "x-death" with
  | Some (VSlice entries) => foldl (step_entry queue) zeroResult entries
  | _ => zeroResult
  end.

(** ** Reference: the exact sums *)

(** The entries of the header that are about this queue. *)
Definition entries_for (tbl : args) (queue : string) : list (list (string * value)) :=
  match args_get tbl "x-death" with
  | Some (VSlice entries) =>
      omap (fun e => match e with
                     | VTable entry => if decide (as_string (assoc "queue" entry) = queue)
                                       then Some entry else None
                     | _ => None
                     end) entries
  | _ => []
  end.

Fixpoint sum_counts (p : string -> bool) (es : list (list (string * value))) : Z :=
  match es with
  | [] => 0
  | e :: r => (if p (entry_reason e) then entry_count e else 0) + sum_counts p r
  end.

(** ** Lemmas *)

Lemma entry_count_range e : 0 <= entry_count e <= maxInt.
Proof. unfold entry_count. repeat case_decide; unfold maxInt, maxInt64 in *; lia. Qed.

Lemma saturating_add_min a b s :
  0 <= b <= maxInt -> 0 <= s -> a = Z.min maxInt s -> saturating_add a b = Z.min maxInt (s + b).
Proof. intros. unfold saturating_add. case_decide; unfold maxInt, maxInt64 in *; lia. Qed.

Lemma sum_counts_app p es1 es2 : sum_counts p (es1 ++ es2) = sum_counts p es1 + sum_counts p es2.
Proof.
  induction es1 as [|e es1 IH]; simpl; [done|]. rewrite IH. lia.
Qed.

Lemma sum_counts_nonneg p es : 0 <= sum_counts p es.
Proof.
  induction es as [|e es IH]; simpl; [lia|].
  pose proof (entry_count_range e). case_match; lia.
Qed.

(** What the loop has accumulated after the entries [es] of this queue. *)
Definition accumulated (es : list (list (string * value))) (r : XDeathResult) : Prop :=
  Count r = Z.min maxInt (sum_counts counted es)
  ∧ (∀ reason, reason_count (byReason r) reason
       = Z.min maxInt (sum_counts (fun x => bool_decide (x = reason)) es))
  ∧ NoDup (Reasons r)
  ∧ (∀ reason, reason ∈ Reasons r <-> reason ∈ entry_reason <$> es)
  ∧ (∀ reason, is_Some (byReason r !! reason) <-> reason ∈ Reasons r).

Lemma accumulated_nil : accumulated [] zeroResult.
Proof.
  repeat split; simpl; try done; try (apply NoDup_nil; done); try set_solver.
  intros [? H]. by rewrite lookup_empty in H.
Qed.

Lemma accumulated_step queue es r entry :
  as_string (assoc "queue" entry) = queue -> accumulated es r ->
  accumulated (es ++ [entry]) (step_entry queue r (VTable entry)).
Proof.
  intros Hq (Hc & Hb & Hn & Hr & Hd). simpl. rewrite decide_True by done.
  pose proof (entry_count_range entry) as Hrange.
  assert (∀ p, sum_counts p (es ++ [entry])
    = sum_counts p es + if p (entry_reason entry) then entry_count entry else 0) as Hsum.
  { intros p. rewrite sum_counts_app. simpl. lia. }
  split; [|split; [|split; [|split]]]; simpl.
  - rewrite Hsum. case_match; [|rewrite Hc; f_equal; lia].
    apply saturating_add_min; auto using sum_counts_nonneg.
  - intros reason. rewrite Hsum. unfold reason_count. rewrite lookup_insert.
    case_decide as E; simpl.
    + subst reason. rewrite bool_decide_eq_true_2 by done.
      apply saturating_add_min; auto using sum_counts_nonneg. apply Hb.
    + rewrite bool_decide_eq_false_2 by done. rewrite Z.add_0_r. apply Hb.
  - destruct (byReason r !! entry_reason entry) eqn:E; [done|].
    apply NoDup_app. split; [done|]. split; [|apply NoDup_singleton].
    intros x Hx ->%list_elem_of_singleton. apply Hd in Hx as [? Hx]. congruence.
  - intros reason. rewrite fmap_app, elem_of_app, <- Hr. simpl. rewrite list_elem_of_singleton.
    destruct (byReason r !! entry_reason entry) eqn:E; [|set_solver].
    split; [tauto|]. intros [Hin| ->]; [done|]. apply Hd. eauto.
  - intros reason. rewrite lookup_insert. destruct (byReason r !! entry_reason entry) eqn:E.
    + case_decide; [subst reason|apply Hd]. split; [|eauto]. intros _. apply Hd. eauto.
    + rewrite elem_of_app, list_elem_of_singleton.
      case_decide; [subst; naive_solver|]. rewrite Hd. naive_solver.
Qed.

Lemma ParseXDeath_accumulated tbl queue :
  accumulated (entries_for tbl queue) (ParseXDeath tbl queue).
Proof.
  unfold entries_for, ParseXDeath. destruct (args_get tbl "x-death") as [v|];
    [destruct v as [| | | | | | | | | |vs| |]|]; try apply accumulated_nil.
  induction vs as [|v vs IH] using rev_ind; [apply accumulated_nil|].
  rewrite foldl_app, omap_app. simpl.
  destruct v; simpl; try (by rewrite app_nil_r).
  case_decide; [|by rewrite app_nil_r].
  pose proof (accumulated_step queue _ _ es ltac:(done) IH) as Hs.
  simpl in Hs. rewrite decide_True in Hs by done. done.
Qed.

(** ** Properties *)

(** [ParseXDeath] counts exactly, up to saturation: [Count] and every
    per-reason count are the sums of the clamped counts of the entries of this
    queue, capped at [MaxInt], whatever the broker sent. *)
Lemma ParseXDeath_saturating_sum tbl queue :
  let r := ParseXDeath tbl queue in
  let es := entries_for tbl queue in
  Count r = Z.min maxInt (sum_counts counted es)
  ∧ (∀ reason, CountByReason r reason
       = Z.min maxInt (sum_counts (fun x => bool_decide (x = normalizeReason reason)) es))
  ∧ 0 <= Count r <= maxInt.
Proof.
  cbv zeta. destruct (ParseXDeath_accumulated tbl queue) as (Hc & Hb & _).
  split; [done|]. split; [intros; apply Hb|]. rewrite Hc.
  pose proof (sum_counts_nonneg counted (entries_for tbl queue)).
  unfold maxInt, maxInt64. lia.
Qed.

(** [Reasons] lists, without repetition, exactly the normalised reasons of
    the entries of this queue, and a reason is looked up under either spelling
    of its separator. *)
Lemma ParseXDeath_reasons tbl queue :
  let r := ParseXDeath tbl queue in
  NoDup (Reasons r)
  ∧ (∀ reason, reason ∈ Reasons r <-> reason ∈ entry_reason <$> entries_for tbl queue)
  ∧ CountByReason r "delivery_limit" = CountByReason r "delivery-limit".
Proof.
  cbv zeta. destruct (ParseXDeath_accumulated tbl queue) as (_ & _ & Hn & Hr & _). done.
Qed.
