(* ===== verification/Pool.v ===== *)
(** * Pool: the channel pools

    Models [channelPool] ([src/channelpool.go]) and [publisherConnPool]
    ([src/publisher.go]): a counting semaphore [tokens] and a buffered channel
    [free] of idle AMQP channels, shared by any number of goroutines.

    The state records where every goroutine inside the pool stands; a label is
    one channel operation of one goroutine, so a sequence of labels is an
    interleaving.  The two pools differ in how they enter ([publisherConnPool]
    tries the semaphore first and counts a wait only when it is saturated) and
    in what a panic of [openFn] does to the token; the flag [guarded] of the
    state tells them apart. *)

From S2P Require Import Prelude.

(** ** State *)

(** An idle or used channel is named by a number; [dead] are the channels whose
    [closeCh] is ready because the broker or the socket closed them. *)
Record pool : Type := mkPool {
  guarded : bool;             (* publisherConnPool: the deferred token return *)
  size : nat;
  tokens : nat;
  free : list nat;
  waiting : nat;              (* blocked in the select on tokens *)
  acquiring : nat;            (* hold a token, in the loop of getOrOpen *)
  opening : nat;              (* saw the free list empty, running openFn *)
  held : list nat;            (* handed out to a caller *)
  releasing : list nat;       (* in release, before the test of closeCh *)
  checked : list nat;         (* in release, found alive, before the put *)
  returning : nat;            (* about to send the token back *)
  lost : nat;                 (* tokens that no goroutine will send back *)
  waits : nat;                (* calls of onAcquireWait *)
  overflowed : nat;           (* times the default branch of the put was taken *)
  closedByPool : list nat;    (* channels the pool called Close on *)
  dead : gset nat;
  opened : nat                (* channels openFn has created: 0 .. opened-1 *)
}.

Definition newPool (g : bool) (n : nat) : pool :=
  mkPool g n n [] 0 0 0 [] [] [] 0 0 0 0 [] ∅ 0.

Definition newChannelPool : nat -> pool := newPool false.
Definition newPublisherConnPool : nat -> pool := newPool true.

(** ** Steps *)

Inductive label : Type :=
| LEnter                  (* acquire: reach the blocking select *)
| LFastTake               (* acquire: the token was free at once *)
| LTake                   (* acquire: the blocked select receives a token *)
| LCancel                 (* acquire: ctx.Done() fires *)
| LPop                    (* getOrOpen: receive from free, test closeCh *)
| LPopEmpty               (* getOrOpen: default branch, call openFn *)
| LOpenOk | LOpenErr | LOpenPanic
| LRelease (e : nat)      (* the caller calls the release func *)
| LReleaseTest (e : nat)  (* release: test closeCh *)
| LReleasePut (e : nat)   (* release: put into free or close *)
| LReturn                 (* send the token back *)
| LDrain                  (* drain: receive one entry and close it *)
| LDie (e : nat).         (* the broker closes a channel *)

#[global] Instance label_eq_dec : EqDecision label.
Proof. solve_decision. Defined.

Definition remove1 (e : nat) (l : list nat) : option (list nat) :=
  match list_find (eq e) l with
  | Some (i, _) => Some (delete i l)
  | None => None
  end.

(** [None]: the operation is not ready in this state. *)
Definition step (l : label) (p : pool) : option pool :=
  let '(mkPool g n tk fr wt aq op hd rl ck rt ls ws ov cl dd nx) := p in
  match l with
  | LEnter =>
      (* publisherConnPool blocks only when the fast path found no token *)
      if g && negb (Nat.eqb tk 0) then None
      else Some (mkPool g n tk fr (S wt) aq op hd rl ck rt ls ws ov cl dd nx)
  | LFastTake =>
      match g, tk with
      | true, S tk => Some (mkPool g n tk fr wt (S aq) op hd rl ck rt ls ws ov cl dd nx)
      | _, _ => None
      end
  | LTake =>
      match wt, tk with
      | S wt, S tk =>
          Some (mkPool g n tk fr wt (S aq) op hd rl ck rt ls (if g then S ws else ws) ov cl dd nx)
      | _, _ => None
      end
  | LCancel =>
      match wt with
      | S wt => Some (mkPool g n tk fr wt aq op hd rl ck rt ls ws ov cl dd nx)
      | O => None
      end
  | LPop =>
      match aq, fr with
      | S aq', e :: fr =>
          if decide (e ∈ dd)
          then Some (mkPool g n tk fr wt aq op hd rl ck rt ls ws ov (e :: cl) dd nx)
          else Some (mkPool g n tk fr wt aq' op (e :: hd) rl ck rt ls ws ov cl dd nx)
      | _, _ => None
      end
  | LPopEmpty =>
      match aq, fr with
      | S aq, [] => Some (mkPool g n tk fr wt aq (S op) hd rl ck rt ls ws ov cl dd nx)
      | _, _ => None
      end
  | LOpenOk =>
      match op with
      | S op => Some (mkPool g n tk fr wt aq op (nx :: hd) rl ck rt ls ws ov cl dd (S nx))
      | O => None
      end
  | LOpenErr =>
      match op with
      | S op => Some (mkPool g n tk fr wt aq op hd rl ck (S rt) ls ws ov cl dd nx)
      | O => None
      end
  | LOpenPanic =>
      match op with
      | S op =>
          if g then Some (mkPool g n tk fr wt aq op hd rl ck (S rt) ls ws ov cl dd nx)
          else Some (mkPool g n tk fr wt aq op hd rl ck rt (S ls) ws ov cl dd nx)
      | O => None
      end
  | LRelease e =>
      match remove1 e hd with
      | Some hd => Some (mkPool g n tk fr wt aq op hd (e :: rl) ck rt ls ws ov cl dd nx)
      | None => None
      end
  | LReleaseTest e =>
      match remove1 e rl with
      | Some rl =>
          if decide (e ∈ dd)
          then Some (mkPool g n tk fr wt aq op hd rl ck (S rt) ls ws ov (e :: cl) dd nx)
          else Some (mkPool g n tk fr wt aq op hd rl (e :: ck) rt ls ws ov cl dd nx)
      | None => None
      end
  | LReleasePut e =>
      match remove1 e ck with
      | Some ck =>
          if decide (length fr < n)%nat
          then Some (mkPool g n tk (fr ++ [e]) wt aq op hd rl ck (S rt) ls ws ov cl dd nx)
          else Some (mkPool g n tk fr wt aq op hd rl ck (S rt) ls ws (S ov) (e :: cl) dd nx)
      | None => None
      end
  | LReturn =>
      match rt with
      | S rt =>
          (* the send blocks while the semaphore is full *)
          if decide (tk < n)%nat
          then Some (mkPool g n (S tk) fr wt aq op hd rl ck rt ls ws ov cl dd nx)
          else None
      | O => None
      end
  | LDrain =>
      match fr with
      | e :: fr => Some (mkPool g n tk fr wt aq op hd rl ck rt ls ws ov (e :: cl) dd nx)
      | [] => None
      end
  | LDie e => Some (mkPool g n tk fr wt aq op hd rl ck rt ls ws ov cl ({[e]} ∪ dd) nx)
  end.

Fixpoint steps (ls : list label) (p : pool) : option pool :=
  match ls with
  | [] => Some p
  | l :: r => match step l p with Some p' => steps r p' | None => None end
  end.

(** ** Invariant *)

(** Channels that exist and that the pool has not closed. *)
Definition live_entries (p : pool) : list nat := free p ++ held p ++ releasing p ++ checked p.

Record pool_inv (p : pool) : Prop := {
  inv_tokens : (tokens p + acquiring p + opening p + length (held p) + length (releasing p)
                + length (checked p) + returning p + lost p = size p)%nat;
  inv_free : (length (free p) + length (held p) + length (releasing p) + length (checked p)
              + opening p <= size p)%nat;
  inv_overflow : overflowed p = 0%nat;
  inv_lost : guarded p = true -> lost p = 0%nat;
  inv_nodup : NoDup (live_entries p);
  inv_fresh : ∀ e, e ∈ live_entries p -> (e < opened p)%nat
}.

Lemma remove1_Permutation e l l' : remove1 e l = Some l' -> l ≡ₚ e :: l'.
Proof.
  unfold remove1. destruct (list_find (eq e) l) as [[i x]|] eqn:E; [|done].
  apply list_find_Some in E as (Hi & <- & _). intros [= <-]. by apply delete_Permutation.
Qed.

Lemma newPool_inv g n : pool_inv (newPool g n).
Proof. constructor; simpl; try lia; [constructor|set_solver]. Qed.

(** The distinctness half of the invariant, as a property of a list of entries
    and the number of channels opened. *)
Definition entries_ok (k : nat) (l : list nat) : Prop :=
  NoDup l ∧ ∀ e, e ∈ l -> (e < k)%nat.

Lemma entries_ok_sub k l l' : l ⊆+ l' -> entries_ok k l' -> entries_ok k l.
Proof.
  intros [r Hr]%submseteq_Permutation [Hn Hf]. split.
  - rewrite Hr in Hn. by apply NoDup_app in Hn as [Hn _].
  - intros e He. apply Hf. rewrite Hr. apply elem_of_app. by left.
Qed.

Lemma entries_ok_fresh k l : entries_ok k l -> entries_ok (S k) (k :: l).
Proof.
  intros [Hn Hf]. split.
  - apply NoDup_cons. split; [|done]. intros Hk. specialize (Hf k Hk). lia.
  - intros e [->|He]%elem_of_cons; [lia|]. specialize (Hf e He). lia.
Qed.

(** Use the permutation behind every [remove1]. *)
Ltac pool_remove :=
  repeat match goal with
  | E : remove1 _ _ = Some _ |- _ =>
      let P := fresh "P" in let L := fresh "L" in
      pose proof (remove1_Permutation _ _ _ E) as P;
      pose proof (Permutation_length P) as L; simpl in L; clear E
  end.

Lemma step_entries l p p' :
  pool_inv p -> step l p = Some p' -> entries_ok (opened p') (live_entries p').
Proof.
  destruct p as [g n tk fr wt aq op hd rl ck rt ls ws ov cl dd nx].
  intros [_ _ _ _ Hn Hx] Hstep.
  assert (entries_ok nx (fr ++ hd ++ rl ++ ck)) as H by by split.
  clear Hn Hx. unfold live_entries. destruct l; simpl in Hstep; go_cases.
  all: pool_remove.
  all: try exact H.
  all: try (eapply entries_ok_sub; [|exact H];
            repeat match goal with P : _ ≡ₚ _ |- _ => rewrite P; clear P end; solve_submseteq).
  apply (entries_ok_sub _ _ (nx :: fr ++ hd ++ rl ++ ck)); [solve_submseteq|].
  by apply entries_ok_fresh.
Qed.

Lemma step_inv l p p' : pool_inv p -> step l p = Some p' -> pool_inv p'.
Proof.
  intros Hi Hstep. destruct (step_entries l p p' Hi Hstep) as [Hn Hx].
  cut (tokens p' + acquiring p' + opening p' + length (held p') + length (releasing p')
       + length (checked p') + returning p' + lost p' = size p'
    ∧ length (free p') + length (held p') + length (releasing p') + length (checked p')
      + opening p' <= size p'
    ∧ overflowed p' = 0 ∧ (guarded p' = true -> lost p' = 0))%nat.
  { intros (? & ? & ? & ?). by constructor. }
  clear Hn Hx. destruct p as [g n tk fr wt aq op hd rl ck rt ls ws ov cl dd nx].
  destruct Hi as [Ht Hf Ho Hl _ _]. simpl in *.
  destruct l; simpl in Hstep; go_cases; pool_remove; simpl in *; rewrite ?length_app; simpl;
    repeat split; auto; try lia.
Qed.

Lemma steps_inv ls p p' : pool_inv p -> steps ls p = Some p' -> pool_inv p'.
Proof.
  revert p. induction ls as [|l ls IH]; intros p Hi; simpl; [by intros [= <-]|].
  destruct (step l p) as [q|] eqn:E; [|done]. eauto using step_inv.
Qed.

Lemma steps_const ls p p' : steps ls p = Some p' -> size p' = size p ∧ guarded p' = guarded p.
Proof.
  revert p. induction ls as [|l ls IH]; intros p; simpl; [by intros [= <-]|].
  destruct (step l p) as [q|] eqn:E; [|done]. intros H. apply IH in H as [-> ->].
  destruct p. destruct l; simpl in E; go_cases; done.
Qed.

Lemma step_lost l p p' :
  step l p = Some p' -> guarded p = false ->
  lost p' = (lost p + if decide (l = LOpenPanic) then 1 else 0)%nat ∧ guarded p' = false.
Proof.
  destruct p. destruct l; simpl; intros E Hg; go_cases; simpl; auto with lia.
Qed.

Lemma steps_lost ls p p' :
  steps ls p = Some p' -> guarded p = false ->
  lost p' = (lost p + length (filter (fun l => l = LOpenPanic) ls))%nat.
Proof.
  revert p. induction ls as [|l ls IH]; intros p; simpl; [intros [= <-]; lia|].
  destruct (step l p) as [q|] eqn:E; [|done]. intros H Hg.
  destruct (step_lost l p q E Hg) as [El Eg]. rewrite (IH q H Eg), El.
  rewrite filter_cons. case_decide; simpl; lia.
Qed.

(** ** Properties *)

(** C12. For every interleaving, the publisher's pool conserves its tokens even
    when [openFn] fails or panics, never holds more open channels than its
    size, never overflows its idle list, and never hands one channel to two
    callers; when no goroutine is inside it, every token is back. *)
Theorem publisher_pool_safe n ls p :
  steps ls (newPublisherConnPool n) = Some p ->
  (tokens p + acquiring p + opening p + length (held p) + length (releasing p)
   + length (checked p) + returning p = n)%nat
  ∧ (length (live_entries p) <= n)%nat
  ∧ overflowed p = 0%nat
  ∧ NoDup (live_entries p)
  ∧ ((acquiring p + opening p + length (held p) + length (releasing p)
      + length (checked p) + returning p = 0)%nat -> tokens p = n).
Proof.
  intros Hs. destruct (steps_inv _ _ _ (newPool_inv true n) Hs) as [Ht Hf Ho Hl Hn _].
  destruct (steps_const _ _ _ Hs) as [Hsz Hg]. simpl in Hsz, Hg.
  specialize (Hl Hg). unfold live_entries in *. rewrite !length_app. repeat split; auto; lia.
Qed.

(** The token a goroutine sends back never blocks: whenever a token is due,
    the semaphore has room, so a release or a failed acquire always ends. *)
Lemma token_return_never_blocks n ls p :
  steps ls (newPublisherConnPool n) = Some p -> (0 < returning p)%nat ->
  is_Some (step LReturn p).
Proof.
  intros Hs Hr. destruct (steps_inv _ _ _ (newPool_inv true n) Hs) as [Ht _ _ _ _ _].
  destruct p as [g m tk fr wt aq op hd rl ck [|rt] ls' ws ov cl dd nx]; simpl in *; [lia|].
  rewrite decide_True by lia. eauto.
Qed.

(** [channelPool], whose [Acquire] has no deferred return, loses exactly one
    token per panic of [openFn] and none otherwise: its capacity is [n] minus
    the number of panics. *)
Lemma channel_pool_loses_token_per_panic n ls p :
  steps ls (newChannelPool n) = Some p ->
  (tokens p + acquiring p + opening p + length (held p) + length (releasing p)
   + length (checked p) + returning p
   + length (filter (fun l => l = LOpenPanic) ls) = n)%nat.
Proof.
  intros Hs. destruct (steps_inv _ _ _ (newPool_inv false n) Hs) as [Ht _ _ _ _ _].
  destruct (steps_const _ _ _ Hs) as [Hsz _]. simpl in Hsz.
  pose proof (steps_lost ls _ _ Hs eq_refl) as Hl. simpl in Hl. lia.
Qed.

(** ** Witnesses *)

(** Two callers race on a pool of two; the second finds the list empty and its
    [openFn] panics; the first releases a live channel. *)
Definition race : list label :=
  [LFastTake; LFastTake; LPopEmpty; LOpenOk; LPopEmpty; LOpenPanic; LRelease 0;
   LReleaseTest 0; LReleasePut 0; LReturn].

Definition race_end : pool := default (newPublisherConnPool 2) (steps race (newPublisherConnPool 2)).

Lemma publisher_pool_safe_witness :
  (tokens race_end + acquiring race_end + opening race_end + length (held race_end)
   + length (releasing race_end) + length (checked race_end) + returning race_end = 2)%nat
  ∧ free race_end = [0%nat].
Proof.
  split; [|reflexivity].
  apply (publisher_pool_safe 2 race race_end). vm_compute. reflexivity.
Defined.

Lemma token_return_witness : is_Some (step LReturn race_end).
Proof.
  apply (token_return_never_blocks 2 race race_end); [vm_compute; reflexivity|].
  vm_compute. lia.
Defined.

Definition panics : list label := [LEnter; LTake; LPopEmpty; LOpenPanic].

Lemma channel_pool_panic_witness :
  ∃ p, steps panics (newChannelPool 1) = Some p ∧ tokens p = 0%nat
  ∧ (tokens p + acquiring p + opening p + length (held p) + length (releasing p)
     + length (checked p) + returning p
     + length (filter (fun l => l = LOpenPanic) panics) = 1)%nat.
Proof.
  eexists. split; [vm_compute; reflexivity|]. split; [reflexivity|].
  apply (channel_pool_loses_token_per_panic 1 panics). vm_compute. reflexivity.
Defined.
