(* ===== verification/Limiters.v ===== *)
(** * Limiters: rate limiter, byte limiter, sampling

    Models the publisher's [rateLimiter] ([src/publisher_rate_limiter.go]), and
    of [src/consumer.go] the in-flight [byteLimiter], the [dropSampler] and the
    back-off of the depth sampler.  Times and durations are nanoseconds. *)

From S2P Require Import Prelude.

(** ** rateLimiter *)

Record rateLimiter : Type := mkRate { interval : Z; tau : Z; tat : Z }.

(** The zero [time.Time], 1 January of year 1, on the Unix time line. *)
Definition zeroTime : Z := -62135596800 * second.

Definition newRateLimiter (perSec : Z) : option rateLimiter :=
  if decide (perSec <= 0) then None
  else
    let itv := Z.quot second perSec in
    let itv := if decide (itv <= 0) then nanosecond else itv in
    Some (mkRate itv (wrap_signed 64 ((perSec - 1) * itv)) zeroTime).

(** [Time.Sub] saturates at the range of [Duration]. *)
Definition time_sub (t u : Z) : Z := Z.max minInt64 (Z.min maxInt64 (t - u)).

Definition reserve (now : Z) (rl : rateLimiter) : Z * rateLimiter :=
  let tat0 := if decide (tat rl < now) then now else tat rl in
  let allowAt := tat0 - tau rl in
  let rl' := mkRate (interval rl) (tau rl) (tat0 + interval rl) in
  (if decide (now < allowAt) then time_sub allowAt now else 0, rl').

(** How the select of [wait] ends once the caller has to wait. *)
Inductive wait_end : Type := TimerFired | CtxDone.

(** [wait]: whether the call was throttled, whether it failed with the
    context's error, and the limiter afterwards. *)
Definition wait (rl : option rateLimiter) (now : Z) (e : wait_end)
  : bool * bool * option rateLimiter :=
  match rl with
  | None => (false, false, None)
  | Some rl =>
      let '(d, rl') := reserve now rl in
      if decide (d <= 0) then (false, false, Some rl')
      else match e with
           | TimerFired => (true, false, Some rl')
           | CtxDone => (true, true, Some rl')
           end
  end.

(** The instants at which a sequence of calls is granted: the clock reading
    each passed, plus the wait it got. *)
Fixpoint grants (nows : list Z) (rl : rateLimiter) : list Z :=
  match nows with
  | [] => []
  | now :: r => let '(d, rl') := reserve now rl in (now + d) :: grants r rl'
  end.

(** ** byteLimiter *)

Record byteLimiter : Type := mkBytes { limit : Z; inflight : Z }.

Definition newByteLimiter (lim : Z) : option byteLimiter :=
  if decide (lim <= 0) then None else Some (mkBytes lim 0).

(** [acquire]: [None] while the loop condition keeps the caller waiting. *)
Definition acquire (n : Z) (bl : option byteLimiter) : option (option byteLimiter) :=
  match bl with
  | None => Some None
  | Some bl =>
      if decide (0 < inflight bl ∧ limit bl < wrap_signed 64 (inflight bl + n)) then None
      else Some (Some (mkBytes (limit bl) (wrap_signed 64 (inflight bl + n))))
  end.

Definition release (n : Z) (bl : option byteLimiter) : option byteLimiter :=
  match bl with
  | None => None
  | Some bl => Some (mkBytes (limit bl) (wrap_signed 64 (inflight bl - n)))
  end.

(** The sizes the running handlers hold, and the calls that change them: a
    handler releases what it acquired. *)
Inductive byte_step : (option byteLimiter * list Z) -> (option byteLimiter * list Z) -> Prop :=
| byte_acquire bl bl' hs n :
    0 <= n -> acquire n bl = Some bl' -> byte_step (bl, hs) (bl', n :: hs)
| byte_release bl hs1 n hs2 :
    byte_step (bl, hs1 ++ n :: hs2) (release n bl, hs1 ++ hs2).

(** ** dropSampler *)

Record dropSampler : Type := mkSampler { every : Z; count : Z }.

Definition sample (s : dropSampler) : bool * Z * dropSampler :=
  let total := wrap_unsigned 64 (count s + 1) in
  let s' := mkSampler (every s) total in
  if decide (every s <= 1) then (true, total, s')
  else (bool_decide (wrap_unsigned 64 (total - 1) mod every s = 0), total, s').

(** The number of warnings logged for [k] occurrences. *)
Fixpoint emitted (k : nat) (s : dropSampler) : Z :=
  match k with
  | O => 0
  | S k => let '(emit, _, s') := sample s in (if emit : bool then 1 else 0) + emitted k s'
  end.

(** ** The depth sampler's back-off *)

Definition maxDepthSampleBackoff : Z := 30 * second.

Fixpoint double_upto (failures : nat) (delay ceiling : Z) : Z :=
  match failures with
  | O => delay
  | S f => if decide (delay < ceiling) then double_upto f (wrap_signed 64 (delay * 2)) ceiling
           else delay
  end.

Definition depthSampleDelay (base : Z) (failures : Z) : Z :=
  if decide (failures <= 0) then base
  else
    let ceiling := if decide (maxDepthSampleBackoff < base) then base else maxDepthSampleBackoff in
    let delay := double_upto (Z.to_nat failures) base ceiling in
    if decide (ceiling < delay) then ceiling else delay.

(** ** The depth sampler *)

(** What the probe of a queue meets: no channel, a channel without a passive
    declare, a refusal, or the number of messages. *)
Inductive depth_answer : Type := NoChannel | NoInspector | Refused | Messages (n : Z).

Definition sampleQueueDepth (a : depth_answer) : option Z :=
  match a with Messages n => Some n | _ => None end.

Inductive gauge : Type := QueueDepth (queue : string) (n : Z) | DLQDepth (dlq : string) (n : Z).

Definition dlqNameSuffix : string := ".dlq".

(** The gauges set, and whether there was one. *)
Definition sampleDepths (queue : string) (src dlq : depth_answer) : list gauge * bool :=
  let g1 := match sampleQueueDepth src with Some n => [QueueDepth queue n] | None => [] end in
  let g2 := match sampleQueueDepth dlq with
            | Some n => [DLQDepth (queue +:+ dlqNameSuffix)%string n]
            | None => []
            end in
  (g1 ++ g2, match g1 ++ g2 with [] => false | _ => true end).

Definition minDepthSampleInterval : Z := 100 * millisecond.

(** The samples, each with the delay to the next one. *)
Fixpoint sampler_loop (queue : string) (base failures : Z) (answers : list (depth_answer * depth_answer))
  : list (list gauge * Z) :=
  match answers with
  | [] => []
  | (src, dlq) :: r =>
      let '(gs, ok) := sampleDepths queue src dlq in
      let failures := if ok : bool then 0 else failures + 1 in
      (gs, depthSampleDelay base failures) :: sampler_loop queue base failures r
  end.

(** [answers] are the samples made before the context ends. *)
Definition runDepthSampler (queue : string) (interval : Z) (cancelled : bool)
    (answers : list (depth_answer * depth_answer)) : list (list gauge * Z) :=
  let base := if decide (interval < minDepthSampleInterval) then minDepthSampleInterval else interval in
  if cancelled then [] else sampler_loop queue base 0 answers.

(** ** Lemmas: rateLimiter *)

#[local] Arguments reserve : simpl never.
#[local] Arguments sampleDepths : simpl never.

Lemma newRateLimiter_params perSec rl :
  newRateLimiter perSec = Some rl -> perSec <= maxInt ->
  0 < perSec ∧ 0 < interval rl ∧ tau rl = (perSec - 1) * interval rl ∧ tat rl = zeroTime
  ∧ (perSec <= second -> interval rl = second / perSec).
Proof.
  unfold newRateLimiter. case_decide as Hp; [done|]. intros [= <-] Hmax. simpl.
  rewrite Z.quot_div_nonneg by (unfold second; lia). set (q := second / perSec).
  assert (0 <= q ∧ perSec * q <= second) as [Hq0 Hq].
  { unfold q. split; [apply Z.div_pos; unfold second; lia|apply Z.mul_div_le; lia]. }
  assert (perSec <= second -> 0 < q) as Hpos.
  { intros. apply Z.div_str_pos. unfold second in *. lia. }
  unfold nanosecond, maxInt, maxInt64, second in *.
  case_decide; (split; [lia|]; split; [lia|]; split; [apply wrap_signed_id; [lia|] |split; [done|lia]]).
  - change (64 - 1) with 63. lia.
  - change (64 - 1) with 63. split; [nia|]. nia.
Qed.

(** No wait of the sequence leaves the range of [Duration]. *)
Definition in_range (nows : list Z) (rl : rateLimiter) : Prop :=
  (∀ now, now ∈ nows -> 0 <= now <= 2 ^ 62)
  ∧ Z.max (tat rl) (2 ^ 62) + Z.of_nat (length nows) * interval rl < maxInt64.

Lemma reserve_grant now nows rl :
  0 < interval rl -> 0 <= tau rl -> in_range (now :: nows) rl ->
  let '(d, rl') := reserve now rl in
  now + d = Z.max now (Z.max (tat rl) now - tau rl)
  ∧ tat rl' = Z.max (tat rl) now + interval rl
  ∧ interval rl' = interval rl ∧ tau rl' = tau rl ∧ in_range nows rl'.
Proof.
  intros Hi Ht [Hn Hr]. unfold reserve, time_sub.
  specialize (Hn now ltac:(set_solver)) as Hnow. simpl length in Hr. rewrite Nat2Z.inj_succ in Hr.
  assert (2 ^ 62 < maxInt64) by done.
  assert (0 <= Z.of_nat (length nows) * interval rl) by (apply Z.mul_nonneg_nonneg; lia).
  split; [|split; [|split; [done|split; [done|]]]]; simpl.
  - unfold minInt64, maxInt64 in *. repeat case_decide; lia.
  - case_decide; lia.
  - split; [set_solver|]. simpl. case_decide; lia.
Qed.

(** The cursor bounds every later grant from below. *)
Lemma grants_lower nows rl j g :
  0 < interval rl -> 0 <= tau rl -> in_range nows rl ->
  grants nows rl !! j = Some g -> tat rl + Z.of_nat j * interval rl - tau rl <= g.
Proof.
  revert rl j. induction nows as [|now nows IH]; intros rl j Hi Ht Hr Hg; [done|].
  cbn [grants] in Hg. pose proof (reserve_grant now nows rl Hi Ht Hr) as Hres.
  destruct (reserve now rl) as [d rl'] in Hres, Hg. destruct Hres as (Hd & Htat & Hint & Htau & Hr').
  destruct j as [|j]; simpl in Hg.
  - injection Hg as <-. rewrite Hd. lia.
  - rewrite <- Hint, <- Htau in *. specialize (IH rl' j Hi Ht Hr' Hg). lia.
Qed.

Lemma grants_window nows rl i j gi gj :
  0 < interval rl -> 0 <= tau rl -> in_range nows rl -> (i <= j)%nat ->
  grants nows rl !! i = Some gi -> grants nows rl !! j = Some gj ->
  gi + Z.of_nat (j - i) * interval rl - tau rl <= gj.
Proof.
  revert rl i j. induction nows as [|now nows IH]; intros rl i j Hi Ht Hr Hij Hgi Hgj; [done|].
  cbn [grants] in Hgi, Hgj. pose proof (reserve_grant now nows rl Hi Ht Hr) as Hres.
  destruct (reserve now rl) as [d rl'] in Hres, Hgi, Hgj. destruct Hres as (Hd & Htat & Hint & Htau & Hr').
  destruct i as [|i]; simpl in Hgi.
  - injection Hgi as <-. rewrite Hd. destruct j as [|j]; simpl in Hgj.
    + injection Hgj as <-. lia.
    + rewrite <- Hint, <- Htau in *. pose proof (grants_lower nows rl' j gj Hi Ht Hr' Hgj).
      replace (S j - 0)%nat with (S j) by lia. lia.
  - destruct j as [|j]; [lia|]. simpl in Hgj. rewrite <- Hint, <- Htau in *.
    replace (S j - S i)%nat with (j - i)%nat by lia. eapply IH; eauto. lia.
Qed.

Lemma burst_immediate k now rl :
  0 < interval rl -> Z.max (tat rl) now <= now + tau rl - Z.of_nat k * interval rl ->
  grants (replicate (S k) now) rl = replicate (S k) now.
Proof.
  revert rl. induction k as [|k IH]; intros rl Hi Hle.
  - simpl. unfold reserve. rewrite (decide_False (P := _ < _)); [by rewrite Z.add_0_r|].
    case_decide; lia.
  - change (replicate (S (S k)) now) with (now :: replicate (S k) now).
    cbn [grants]. unfold reserve at 1.
    rewrite (decide_False (P := now < _)) by (case_decide; nia). rewrite Z.add_0_r. f_equal.
    apply IH; simpl; [done|]. case_decide; nia.
Qed.

(** ** Lemmas: byteLimiter *)

Definition total (hs : list Z) : Z := foldr Z.add 0 hs.

Lemma total_app hs1 hs2 : total (hs1 ++ hs2) = total hs1 + total hs2.
Proof. unfold total. induction hs1 as [|n hs1 IH]; simpl; [done|]. rewrite IH. lia. Qed.

Lemma total_nonneg hs : Forall (fun n => 0 <= n) hs -> 0 <= total hs.
Proof. induction 1; simpl; lia. Qed.

(** The budget holds, or a single body makes up everything in flight. *)
Definition byte_inv (lim big : Z) (st : option byteLimiter * list Z) : Prop :=
  let '(bl, hs) := st in
  Forall (fun n => 0 <= n <= big) hs
  ∧ ∃ b, bl = Some b ∧ limit b = lim ∧ inflight b = total hs ∧ (total hs <= lim ∨ total hs ∈ hs).

Lemma byte_inv_init lim big : 0 < lim -> byte_inv lim big (newByteLimiter lim, []).
Proof.
  intros Hl. unfold newByteLimiter. rewrite decide_False by lia. split; [constructor|].
  eexists. repeat split; simpl; lia.
Qed.

Lemma elem_le_total hs n : Forall (fun n => 0 <= n) hs -> n ∈ hs -> n <= total hs.
Proof.
  intros Hf Hin. induction Hf as [|m hs Hm Hf IH]; [by apply not_elem_of_nil in Hin|].
  pose proof (total_nonneg hs Hf). apply elem_of_cons in Hin as [->|Hin]; simpl; [lia|].
  specialize (IH Hin). lia.
Qed.

Lemma byte_inv_range lim big b hs :
  byte_inv lim big (Some b, hs) ->
  0 <= inflight b <= Z.max lim big ∧ Forall (fun n => 0 <= n) hs.
Proof.
  intros (Hf & b' & [= <-] & <- & Hsum & Hc).
  assert (Forall (fun n => 0 <= n) hs) as Hf0 by (eapply Forall_impl; [exact Hf|naive_solver]).
  split; [|done]. rewrite Hsum. split; [by apply total_nonneg|]. destruct Hc as [|Hin]; [lia|].
  rewrite Forall_forall in Hf. specialize (Hf _ Hin). simpl in Hf. lia.
Qed.

Lemma wrap64_id z : minInt64 <= z <= maxInt64 -> wrap_signed 64 z = z.
Proof. intros. apply wrap_signed_id; unfold minInt64, maxInt64 in *; lia. Qed.

(** The next configuration of a step that brings in no body larger than [big]. *)
Definition bodies_upto (big : Z) (st' : option byteLimiter * list Z) : Prop :=
  Forall (fun n => n <= big) st'.2.

Lemma byte_inv_step lim big st st' :
  Z.max lim big + big <= maxInt64 -> 0 < lim -> bodies_upto big st' ->
  byte_inv lim big st -> byte_step st st' -> byte_inv lim big st'.
Proof.
  intros Hmax Hlim Hbig Hi Hs. destruct Hs as [bl bl' hs n Hn Ha|bl hs1 n hs2].
  - apply Forall_cons in Hbig as [Hnb _].
    pose proof Hi as (Hf & b & -> & <- & Hsum & Hc). destruct (byte_inv_range _ _ _ _ Hi) as [Hr _].
    simpl in Ha. rewrite wrap64_id in Ha by (unfold minInt64, maxInt64 in *; lia).
    case_decide as Hd; [done|]. injection Ha as <-. split; [by constructor|].
    eexists. split; [done|]. simpl. rewrite <- Hsum. split; [done|]. split; [lia|].
    destruct (decide (inflight b = 0)); [right; apply elem_of_cons; left; lia|left; lia].
  - pose proof Hi as (Hf & b & -> & <- & Hsum & Hc). destruct (byte_inv_range _ _ _ _ Hi) as [Hr Hf0].
    apply Forall_app in Hf as [Hf1 [Hfn Hf2]%Forall_cons].
    apply Forall_app in Hf0 as [Hg1 [Hgn Hg2]%Forall_cons].
    assert (Forall (fun n => 0 <= n) (hs1 ++ hs2)) as Hg by by apply Forall_app.
    split; [by apply Forall_app|]. eexists. split; [done|]. simpl.
    rewrite total_app in Hsum. simpl in Hsum. rewrite wrap64_id by (unfold minInt64, maxInt64 in *; lia).
    split; [done|]. rewrite total_app in *. simpl in Hc. split; [lia|].
    destruct Hc as [Hc|Hin]; [left; lia|]. apply elem_of_app in Hin.
    destruct (decide (total hs1 + (n + total hs2) ∈ hs1 ++ hs2)) as [Hin'|Hno].
    + pose proof (elem_le_total _ _ Hg Hin') as Hle. rewrite total_app in Hle.
      right. by replace (total hs1 + total hs2) with (total hs1 + (n + total hs2)) by lia.
    + left. rewrite elem_of_app in Hno. rewrite elem_of_cons in Hin.
      assert (total hs1 + (n + total hs2) = n) by tauto. lia.
Qed.

(** ** Lemmas: sampling *)

Lemma double_upto_spec f delay ceiling :
  0 < delay -> ceiling <= 2 ^ 62 -> delay <= ceiling ->
  Z.min ceiling (double_upto f delay ceiling) = Z.min ceiling (delay * 2 ^ Z.of_nat f)
  ∧ delay <= double_upto f delay ceiling.
Proof.
  intros Hd Hc. revert delay Hd. induction f as [|f IH]; intros delay Hd Hle; simpl double_upto.
  - change (2 ^ Z.of_nat 0) with 1. rewrite Z.mul_1_r. lia.
  - rewrite Nat2Z.inj_succ, Z.pow_succ_r by lia.
    assert (0 < 2 ^ Z.of_nat f) by (apply Z.pow_pos_nonneg; lia).
    case_decide as Hlt; [|split; nia].
    rewrite wrap64_id by (unfold minInt64, maxInt64; lia).
    destruct (decide (delay * 2 <= ceiling)) as [Hle2|Hgt].
    + destruct (IH (delay * 2)) as [-> ?]; [lia|done|]. split; [f_equal; ring|lia].
    + assert (double_upto f (delay * 2) ceiling = delay * 2) as ->.
      { destruct f; simpl; [done|]. by rewrite decide_False by lia. }
      split; [|lia]. nia.
Qed.

Lemma emitted_periods k s :
  1 < every s -> 0 <= count s -> count s + Z.of_nat k < 2 ^ 64 ->
  emitted k s = (count s + Z.of_nat k + every s - 1) / every s - (count s + every s - 1) / every s.
Proof.
  revert s. induction k as [|k IH]; intros s He Hc Hk.
  - simpl. rewrite Z.add_0_r. lia.
  - cbn [emitted]. unfold sample. rewrite decide_False by lia.
    rewrite (wrap_unsigned_id 64 (count s + 1)) by lia.
    rewrite (wrap_unsigned_id 64 (count s + 1 - 1)) by lia.
    rewrite IH; simpl; try lia.
    replace (count s + 1 + Z.of_nat k) with (count s + Z.of_nat (S k)) by lia.
    replace (count s + 1 - 1) with (count s) by lia.
    replace (count s + 1 + every s - 1) with (count s + 1 * every s) by lia.
    rewrite Z.div_add by lia.
    pose proof (Z.div_mod (count s) (every s) ltac:(lia)) as Hdm.
    pose proof (Z.mod_pos_bound (count s) (every s) ltac:(lia)).
    case_bool_decide as Hm.
    + rewrite Hm in Hdm. replace (count s + every s - 1)
        with (every s - 1 + (count s / every s) * every s) by lia.
      rewrite Z.div_add by lia. rewrite (Z.div_small (every s - 1)) by lia. lia.
    + replace (count s + every s - 1)
        with (count s mod every s - 1 + (count s / every s + 1) * every s) by lia.
      rewrite Z.div_add by lia. rewrite (Z.div_small (count s mod every s - 1)) by lia. lia.
Qed.

(** ** Properties *)

(** C40. The rate limiter paces: for any sequence of calls, in any order of
    clock readings, the [j]-th grant comes at least
    [(j - i - (perSec - 1)) * interval] after the [i]-th, so no window lets
    through more than the burst plus one grant per interval. *)
Theorem rate_limiter_window perSec rl nows i j gi gj :
  newRateLimiter perSec = Some rl -> perSec <= maxInt ->
  (∀ now, now ∈ nows -> 0 <= now <= 2 ^ 62) ->
  Z.of_nat (length nows) * interval rl < 2 ^ 61 -> (i <= j)%nat ->
  grants nows rl !! i = Some gi -> grants nows rl !! j = Some gj ->
  gi + (Z.of_nat (j - i) - (perSec - 1)) * interval rl <= gj.
Proof.
  intros Hnew Hmax Hn Hlen Hij Hgi Hgj.
  destruct (newRateLimiter_params perSec rl Hnew Hmax) as (Hp & Hi & Htau & Htat & _).
  pose proof (grants_window nows rl i j gi gj Hi) as H.
  assert (0 <= tau rl) as Ht by (rewrite Htau; nia).
  specialize (H Ht). rewrite Htau in H.
  assert (in_range nows rl) as Hr.
  { split; [done|]. rewrite Htat. unfold maxInt64, zeroTime, second. lia. }
  specialize (H Hr Hij Hgi Hgj). lia.
Qed.

(** A burst of up to one second's worth of tokens is not delayed: on a
    fresh limiter the first [perSec] calls made at one instant are all granted
    at that instant. *)
Lemma rate_limiter_burst perSec rl k now :
  newRateLimiter perSec = Some rl -> perSec <= maxInt -> zeroTime <= now ->
  Z.of_nat k < perSec ->
  grants (replicate (S k) now) rl = replicate (S k) now.
Proof.
  intros Hnew Hmax Hnow Hk.
  destruct (newRateLimiter_params perSec rl Hnew Hmax) as (Hp & Hi & Htau & Htat & _).
  apply burst_immediate; [done|]. rewrite Htau, Htat. nia.
Qed.

(** The in-flight guardrail holds: in every reachable state the bytes in
    flight are the sum of the bodies of the running handlers and stay within
    the budget, unless one oversized body is alone in flight; and a caller
    only ever waits while some handler holds bytes. *)
Lemma byte_limiter_bound lim big st :
  0 < lim -> Z.max lim big + big <= maxInt64 ->
  rtc (fun st st' => byte_step st st' ∧ bodies_upto big st') (newByteLimiter lim, []) st ->
  ∃ b, st.1 = Some b ∧ inflight b = total st.2
    ∧ (inflight b <= lim ∨ inflight b ∈ st.2)
    ∧ (∀ n, acquire n (Some b) = None -> 0 < total st.2).
Proof.
  intros Hl Hmax Hreach.
  assert (byte_inv lim big st) as Hi.
  { remember (newByteLimiter lim, []) as st0. revert Heqst0.
    assert (byte_inv lim big (newByteLimiter lim, [])) as H0 by by apply byte_inv_init.
    intros E. rewrite <- E in H0. clear E.
    induction Hreach as [|st0 st1 st2 [Hs Hb] _ IH]; [done|].
    apply IH. by eapply byte_inv_step. }
  destruct st as [bl hs]. destruct Hi as (_ & b & -> & <- & Hsum & Hc). exists b. simpl.
  rewrite Hsum. do 3 (split; [done|]). intros n. rewrite <- Hsum. case_decide; [tauto|done].
Qed.

(** The depth sampler's back-off is exact and never overflows: after [f]
    failed samples the delay is the base doubled [f] times, capped at the
    ceiling, and never below the base. *)
Lemma depthSampleDelay_exact base failures :
  0 < base <= 2 ^ 62 -> 0 <= failures ->
  let ceiling := Z.max base maxDepthSampleBackoff in
  depthSampleDelay base failures = Z.min ceiling (base * 2 ^ failures)
  ∧ base <= depthSampleDelay base failures <= ceiling.
Proof.
  intros Hb Hf. cbv zeta. unfold depthSampleDelay. case_decide as H0.
  { replace failures with 0 by lia. change (2 ^ 0) with 1. lia. }
  set (ceiling := if decide _ then base else _).
  assert (ceiling = Z.max base maxDepthSampleBackoff) as Hc by (unfold ceiling; case_decide; lia).
  rewrite <- Hc. destruct (double_upto_spec (Z.to_nat failures) base ceiling) as [He Hlo];
    [lia|rewrite Hc; unfold maxDepthSampleBackoff, second; lia|lia|].
  rewrite Z2Nat.id in He by lia. case_decide; lia.
Qed.

(** The failed samples that end a run of the sampler. *)
Fixpoint trailing_failures (failures : Z) (answers : list (depth_answer * depth_answer)) : Z :=
  match answers with
  | [] => failures
  | (src, dlq) :: r =>
      trailing_failures (if (sampleDepths "" src dlq).2 then 0 else failures + 1) r
  end.

Lemma trailing_nonneg answers f : 0 <= f -> 0 <= trailing_failures f answers.
Proof.
  revert f. induction answers as [|[a b] l IH]; intros f Hf; [done|]. cbn [trailing_failures]. apply IH.
  case_match; lia.
Qed.

Lemma sampler_loop_cadence queue base failures answers i x gs d :
  0 < base <= 2 ^ 62 -> 0 <= failures -> sampler_loop queue base failures answers !! i = Some (gs, d) ->
  answers !! i = Some x ->
  gs = (sampleDepths queue x.1 x.2).1
  ∧ d = Z.min (Z.max base maxDepthSampleBackoff) (base * 2 ^ trailing_failures failures (take (S i) answers)).
Proof.
  intros Hb. revert failures i. induction answers as [|[src dlq] r IH]; intros failures i Hf; [done|].
  cbn [sampler_loop]. destruct (sampleDepths queue src dlq) as [gs0 ok] eqn:E.
  assert ((sampleDepths "" src dlq).2 = ok) as Hok.
  { unfold sampleDepths in *. injection E as _ <-. simpl.
    by destruct (sampleQueueDepth src), (sampleQueueDepth dlq). }
  set (f := if ok then 0 else failures + 1). assert (0 <= f) by (unfold f; destruct ok; lia).
  destruct i as [|i]; cbn [take trailing_failures]; rewrite Hok; fold f.
  - intros [= <- <-] [= <-]. cbn [fst snd]. rewrite E. split; [done|].
    cbn [trailing_failures]. by apply depthSampleDelay_exact.
  - intros H1 H2. by apply IH.
Qed.

(** The sampler probes at its interval, clamped to the floor, and backs off only
    while whole samples fail: after [f] failed samples in a row the next one
    comes after the interval doubled [f] times, capped; a gauge is set exactly
    for the queues that answered. *)
Lemma depth_sampler_cadence queue interval answers i x gs d :
  0 <= interval <= 2 ^ 62 -> runDepthSampler queue interval false answers !! i = Some (gs, d) ->
  answers !! i = Some x ->
  let base := Z.max interval minDepthSampleInterval in
  gs = (sampleDepths queue x.1 x.2).1
  ∧ d = Z.min (Z.max base maxDepthSampleBackoff) (base * 2 ^ trailing_failures 0 (take (S i) answers))
  ∧ base <= d.
Proof.
  intros Hi H Hx. unfold runDepthSampler in H.
  assert ((if decide (interval < minDepthSampleInterval) then minDepthSampleInterval else interval)
          = Z.max interval minDepthSampleInterval) as E by (case_decide; lia).
  rewrite E in H. cbv zeta. assert (0 < Z.max interval minDepthSampleInterval <= 2 ^ 62) as Hb
    by (unfold minDepthSampleInterval, millisecond; lia).
  destruct (sampler_loop_cadence _ _ _ _ _ _ _ _ Hb (Z.le_refl 0) H Hx) as [-> ->]. split_and!; [done|done|].
  pose proof (trailing_nonneg (take (S i) answers) 0 (Z.le_refl 0)) as Hf.
  assert (1 <= 2 ^ trailing_failures 0 (take (S i) answers)) by (apply (Z.pow_le_mono_r 2 0); lia). nia.
Qed.

(** The drop sampler logs one occurrence in [every]: of the first [k]
    occurrences it logs [k / every] rounded up, the first one included. *)
Lemma dropSampler_rate e (k : nat) :
  1 < e -> Z.of_nat k < 2 ^ 64 ->
  emitted k (mkSampler e 0) = (Z.of_nat k + e - 1) / e.
Proof.
  intros He Hk. rewrite emitted_periods by (cbn [every count]; lia).
  cbn [every count]. rewrite !Z.add_0_l, (Z.div_small (e - 1)) by lia. lia.
Qed.

(** The emission interval is rounded down to a nanosecond, so the sustained
    rate can exceed [perSec]: with [perSec] = 700 million the interval is one
    nanosecond, a rate of one billion. *)
Lemma rate_limiter_rounding :
  interval <$> newRateLimiter 700000000 = Some 1 ∧ 1 * 700000000 < second.
Proof. split; reflexivity. Qed.

(** ** Witnesses *)

Definition limiter3 : rateLimiter := mkRate 333333333 666666666 zeroTime.

(** Five calls at one instant: three at once, then one per interval. *)
Lemma rate_limiter_window_witness :
  grants (replicate 5 1000) limiter3 = [1000; 1000; 1000; 333334333; 666667666]
  ∧ 1000 + (Z.of_nat (4 - 0) - (3 - 1)) * interval limiter3 <= 666667666.
Proof.
  split; [vm_compute; reflexivity|].
  apply (rate_limiter_window 3 limiter3 (replicate 5 1000) 0 4 1000 666667666).
  - vm_compute; reflexivity.
  - done.
  - intros now Hnow. apply list_elem_of_In in Hnow. simpl in Hnow. lia.
  - vm_compute; reflexivity.
  - lia.
  - vm_compute; reflexivity.
  - vm_compute; reflexivity.
Defined.

Lemma rate_limiter_burst_witness : grants (replicate 3 1000) limiter3 = replicate 3 1000.
Proof.
  apply (rate_limiter_burst 3 limiter3 2 1000); [vm_compute; reflexivity|done|done|done].
Defined.

(** A body of 700 bytes runs alone under a budget of 500. *)
Lemma byte_limiter_witness :
  ∃ b, (Some (mkBytes 500 700), [700]).1 = Some b ∧ inflight b = total [700]
    ∧ (inflight b <= 500 ∨ inflight b ∈ [700])
    ∧ (∀ n, acquire n (Some b) = None -> 0 < total [700]).
Proof.
  apply (byte_limiter_bound 500 700 (Some (mkBytes 500 700), [700])); [done|done|].
  eapply rtc_l; [|apply rtc_refl]. split.
  - apply byte_acquire; [lia|]. vm_compute. reflexivity.
  - apply Forall_cons. split; [lia|constructor].
Defined.

Lemma depthSampleDelay_witness :
  depthSampleDelay second 3 = 8 * second ∧ depthSampleDelay second 9 = 30 * second.
Proof.
  split.
  - apply (depthSampleDelay_exact second 3); unfold second; lia.
  - apply (depthSampleDelay_exact second 9); unfold second; lia.
Defined.

(** A queue that vanishes for two samples, then comes back; no DLQ. *)
Lemma depth_sampler_witness :
  runDepthSampler "q" 1 false [(Messages 5, Refused); (Refused, Refused); (NoChannel, NoChannel); (Messages 0, Refused)]
    !! 2%nat = Some ([], 400 * millisecond)
  ∧ 400 * millisecond = Z.min (Z.max (100 * millisecond) maxDepthSampleBackoff) (100 * millisecond * 2 ^ 2).
Proof.
  split; [reflexivity|].
  apply (depth_sampler_cadence "q" 1
           [(Messages 5, Refused); (Refused, Refused); (NoChannel, NoChannel); (Messages 0, Refused)] 2
           (NoChannel, NoChannel) []); [lia|reflexivity|reflexivity].
Defined.

Lemma dropSampler_witness : emitted 11 (mkSampler 5 0) = 3.
Proof. apply (dropSampler_rate 5 11); lia. Defined.
