(* ===== verification/Topology.v ===== *)
(** * Topology: validation, dead-letter expansion and declaration

    Models [src/topology.go] and [src/delay.go].  A [map[string]any] of
    arguments is an [args]; the broker is the function that answers each
    declare.  Error texts are not modelled: every violation wraps
    [ErrInvalidOptions].  [sprint] is [fmt.Sprintf("%v")] on a dynamic value,
    which runs the formatting methods of types defined by the caller. *)

From Stdlib Require Import Ascii.
From S2P Require Import Prelude Errors Values.

Open Scope go_scope.

(** ** Data *)

Record Exchange : Type := mkExchange {
  eName : string; eKind : string; eDurable : bool; eAutoDelete : bool; eInternal : bool;
  eNoWait : bool; eAlternateExchange : string; eArgs : args
}.

Record Queue : Type := mkQueue {
  qName : string; qDurable : bool; qExclusive : bool; qAutoDelete : bool; qNoWait : bool;
  qType : string; qDeliveryLimit : Z; qSingleActiveConsumer : bool; qMaxPriority : Z; qArgs : args
}.

Record Binding : Type := mkBinding {
  bExchange : string; bQueue : string; bRoutingKey : string; bNoWait : bool; bArgs : args
}.

Record ExchangeBinding : Type := mkExchangeBinding {
  xSource : string; xDestination : string; xRoutingKey : string; xNoWait : bool; xArgs : args
}.

Record DeadLetter : Type := mkDeadLetter {
  dSource : string; dExchange : string; dRoutingKey : string; dTTL : Z; dMaxLength : Z;
  dMaxLengthBytes : Z; dOverflow : string; dDLQMaxLength : Z; dDLQMessageTTL : Z;
  dDLQOverflow : string; dDLQUnbounded : bool
}.

Record Topology : Type := mkTopology {
  Exchanges : list Exchange;
  Queues : list Queue;
  Bindings : list Binding;
  DeadLetters : list DeadLetter;
  ExchangeBindings : list ExchangeBinding
}.

Definition set_qArgs (a : args) (q : Queue) : Queue :=
  mkQueue (qName q) (qDurable q) (qExclusive q) (qAutoDelete q) (qNoWait q) (qType q)
          (qDeliveryLimit q) (qSingleActiveConsumer q) (qMaxPriority q) a.

Definition set_eArgs (a : args) (e : Exchange) : Exchange :=
  mkExchange (eName e) (eKind e) (eDurable e) (eAutoDelete e) (eInternal e) (eNoWait e)
             (eAlternateExchange e) a.

(** [DelayedTopic] (delay.go). *)
Definition DelayedTopic (name : string) : Exchange :=
  mkExchange name ExchangeDelayed true false false false ""
             (Some {[ "x-delayed-type"%string := VString ExchangeTopic ]}).

(** ** Arguments *)

(** [copyArgs]: a nested plain map is copied, any other value is kept. *)
Fixpoint copy_value (v : value) : value :=
  match v with
  | VMap es =>
      VMap ((fix go (es : list (string * value)) : list (string * value) :=
               match es with [] => [] | (k, x) :: r => (k, copy_value x) :: go r end) es)
  | _ => v
  end.

Definition copyArgs (m : gmap string value) : gmap string value := copy_value <$> m.

(** [m[k] = v] on a map that is allocated when nil. *)
Definition args_set (k : string) (v : value) (m : args) : args := Some (<[k := v]> (default ∅ m)).

Definition defaultDLQMaxLength : Z := 100000.
Definition defaultDLQMessageTTL : Z := 7 * 24 * 3600 * second.

Definition autoDLQArgs (dl : DeadLetter) : args :=
  if dDLQUnbounded dl then None
  else
    let maxLen := if decide (dDLQMaxLength dl = 0) then defaultDLQMaxLength else dDLQMaxLength dl in
    let ttl := if decide (dDLQMessageTTL dl = 0) then defaultDLQMessageTTL else dDLQMessageTTL dl in
    let overflow := if decide (dDLQOverflow dl = ""%string) then OverflowDropHead
                    else dDLQOverflow dl in
    Some (<["x-overflow" := VString overflow]>
         (<["x-message-ttl" := VNum KInt64 (milliseconds ttl)]>
         (<["x-max-length" := VNum KInt64 maxLen]> ∅))).

Definition overflowString (v : value) : option string :=
  match v with
  | VString s => Some s
  | VOverflowPolicy s => Some s
  | _ => None
  end.

Definition dlxStrategyAtLeastOnce : string := "at-least-once".

(** ** expand *)

Definition dlx_name (dl : DeadLetter) : string :=
  if decide (dExchange dl = ""%string) then (dSource dl +:+ ".dlx")%string else dExchange dl.

Definition dlq_name (dl : DeadLetter) : string := (dSource dl +:+ ".dlq")%string.

Definition bind_key (dl : DeadLetter) : string :=
  if decide (dRoutingKey dl = ""%string) then "#"%string else dRoutingKey dl.

(** The arguments a [DeadLetter] merges into its source queue, in order. *)
Definition source_args (dl : DeadLetter) (m : args) : args :=
  let put (c : bool) k v (m : args) := if c then args_set k v m else m in
  put (negb (bool_decide (dOverflow dl = ""%string))) "x-overflow" (VString (dOverflow dl))
  (put (bool_decide (0 < dMaxLengthBytes dl)) "x-max-length-bytes"
       (VNum KInt64 (dMaxLengthBytes dl))
  (put (bool_decide (0 < dMaxLength dl)) "x-max-length" (VNum KInt64 (dMaxLength dl))
  (put (bool_decide (0 < dTTL dl)) "x-message-ttl" (VNum KInt64 (milliseconds (dTTL dl)))
  (put (negb (bool_decide (dRoutingKey dl = ""%string))) "x-dead-letter-routing-key"
       (VString (dRoutingKey dl))
  (args_set "x-dead-letter-exchange" (VString (dlx_name dl)) m))))).

(** The slices and indexes [expand] builds. *)
Record expansion : Type := mkExpansion {
  xExchanges : list Exchange;
  xQueues : list Queue;
  xBindings : list Binding;
  exchNames : gset string;
  queueNames : gset string;
  bindingKeys : gset (string * string * string)
}.

(** [queueIdx]: name to position, the last one when a name is repeated. *)
Fixpoint index_from (i : nat) (qs : list Queue) : gmap string nat :=
  match qs with
  | [] => ∅
  | q :: r => union (index_from (S i) r) {[ qName q := i ]}
  end.

(** One iteration over [out.DeadLetters]. *)
Definition expand_dl (queueIdx : gmap string nat) (out : expansion) (dl : DeadLetter) : expansion :=
  match queueIdx !! dSource dl with
  | None => out
  | Some idx =>
      let qs := alter (fun q => set_qArgs (source_args dl (qArgs q)) q) idx (xQueues out) in
      let '(es, en) :=
        if decide (dlx_name dl ∈ exchNames out) then (xExchanges out, exchNames out)
        else (xExchanges out ++
                [mkExchange (dlx_name dl) ExchangeTopic true false false false "" None],
              {[ dlx_name dl ]} ∪ exchNames out) in
      let '(qs, qn) :=
        if decide (dlq_name dl ∈ queueNames out) then (qs, queueNames out)
        else (qs ++ [mkQueue (dlq_name dl) true false false false "" 0 false 0 (autoDLQArgs dl)],
              {[ dlq_name dl ]} ∪ queueNames out) in
      let bk := (dlx_name dl, dlq_name dl, bind_key dl) in
      let '(bs, bn) :=
        if decide (bk ∈ bindingKeys out) then (xBindings out, bindingKeys out)
        else (xBindings out ++ [mkBinding (dlx_name dl) (dlq_name dl) (bind_key dl) false None],
              {[ bk ]} ∪ bindingKeys out) in
      mkExpansion es qs bs en qn bn
  end.

(** The typed fields of a queue as x-* arguments. *)
Definition typed_args (q : Queue) : args :=
  let put (c : bool) k v (m : args) := if c then args_set k v m else m in
  put (bool_decide (0 < qMaxPriority q)) "x-max-priority" (VNum KInt64 (qMaxPriority q))
  (put (negb (bool_decide (qType q = ""%string))) "x-queue-type" (VString (qType q))
  (put (qSingleActiveConsumer q) "x-single-active-consumer" (VBool true)
  (put (bool_decide (0 < qDeliveryLimit q)) "x-delivery-limit" (VNum KInt64 (qDeliveryLimit q))
  (qArgs q)))).

(** The at-least-once coupling of a quorum queue with a dead-letter exchange. *)
Definition couple_args (q : Queue) (m : args) : args :=
  if decide (qType q = QueueTypeQuorum) then
    match args_get m "x-dead-letter-exchange" with
    | None => m
    | Some _ =>
        let strategyVal := args_get m "x-dead-letter-strategy" in
        let m1 := match strategyVal with
                  | None => args_set "x-dead-letter-strategy" (VString dlxStrategyAtLeastOnce) m
                  | Some _ => m
                  end in
        let effectiveALO := match strategyVal with
                            | None => true
                            | Some (VString s) => bool_decide (s = dlxStrategyAtLeastOnce)
                            | Some _ => false
                            end in
        if effectiveALO then
          match args_get m1 "x-overflow" with
          | None => args_set "x-overflow" (VString OverflowRejectPublish) m1
          | Some _ => m1
          end
        else m1
    end
  else m.

Definition inject_queue (q : Queue) : Queue := set_qArgs (couple_args q (typed_args q)) q.

Definition copy_exchange (e : Exchange) : Exchange :=
  let a := copyArgs <$> eArgs e in
  set_eArgs (if decide (eAlternateExchange e = ""%string) then a
             else args_set "alternate-exchange" (VString (eAlternateExchange e)) a) e.

Definition copy_queue (q : Queue) : Queue := set_qArgs (copyArgs <$> qArgs q) q.

Definition copy_binding (b : Binding) : Binding :=
  mkBinding (bExchange b) (bQueue b) (bRoutingKey b) (bNoWait b) (copyArgs <$> bArgs b).

Definition copy_exchange_binding (x : ExchangeBinding) : ExchangeBinding :=
  mkExchangeBinding (xSource x) (xDestination x) (xRoutingKey x) (xNoWait x) (copyArgs <$> xArgs x).

(** The state before the loop over the dead letters. *)
Definition expand_init (t : Topology) : expansion :=
  let es := copy_exchange <$> Exchanges t in
  let qs := copy_queue <$> Queues t in
  let bs := copy_binding <$> Bindings t in
  mkExpansion es qs bs (list_to_set (eName <$> es)) (list_to_set (qName <$> qs))
    (list_to_set ((fun b => (bExchange b, bQueue b, bRoutingKey b)) <$> bs)).

Definition expand_dls (t : Topology) : expansion :=
  foldl (expand_dl (index_from 0 (xQueues (expand_init t)))) (expand_init t) (DeadLetters t).

Definition expand (t : Topology) : Topology :=
  let out := expand_dls t in
  mkTopology (xExchanges out) (inject_queue <$> xQueues out) (xBindings out) (DeadLetters t)
             (copy_exchange_binding <$> ExchangeBindings t).

(** ** validate *)

Definition invalidOptions : error := Wrap [Sentinel ErrInvalidOptions].

(** A guard of the code: return [ErrInvalidOptions] when the condition holds. *)
Definition reject (bad : bool) : result error unit := if bad then Err invalidOptions else Ok tt.

Definition validKinds : list string :=
  [ExchangeDirect; ExchangeFanout; ExchangeTopic; ExchangeHeaders; ExchangeDelayed].

Definition validQueueTypes : list string :=
  [""%string; QueueTypeClassic; QueueTypeQuorum; QueueTypeStream].

Definition validOverflow : list string :=
  [""%string; OverflowDropHead; OverflowRejectPublish; OverflowRejectPublishDLX].

Definition has_arg (m : args) (k : string) : bool :=
  match args_get m k with Some _ => true | None => false end.

(** The checks on one exchange; [seen] are the names before it. *)
Definition validate_exchange (seen : gset string) (e : Exchange) : result error (gset string) :=
  let? _ := reject (bool_decide (eName e = ""%string)) in
  let? _ := reject (bool_decide (eName e ∈ seen)) in
  let seen := {[ eName e ]} ∪ seen in
  let? _ := reject (bool_decide (eKind e = ""%string)) in
  let? _ := reject (negb (bool_decide (eKind e ∈ validKinds))) in
  let? _ := reject (has_arg (eArgs e) "alternate-exchange") in
  let? _ := reject (has_arg (eArgs e) "x-alternate-exchange") in
  let? _ :=
    if decide (eKind e = ExchangeDelayed) then
      match args_get (eArgs e) "x-delayed-type" with
      | Some (VString s) =>
          let? _ := reject (bool_decide (s = ""%string)) in
          let? _ := reject (bool_decide (s = ExchangeDelayed)) in
          reject (negb (bool_decide (s ∈ validKinds)))
      | _ => Err invalidOptions
      end
    else Ok tt in
  Ok seen.

Definition managed_keys : list string :=
  ["x-queue-type"; "x-delivery-limit"; "x-single-active-consumer"; "x-max-priority"]%string.

(** A left fold that stops at the first error. *)
Fixpoint fold_checks {A S} (f : S -> A -> result error S) (l : list A) (s : S) : result error S :=
  match l with
  | [] => Ok s
  | x :: r => let? s' := f s x in fold_checks f r s'
  end.

Section with_sprint.

Variable sprint : value -> string.

(** The text [quorumAtLeastOnce] compares for an x-overflow argument. *)
Definition overflow_text (v : value) : string :=
  match overflowString v with Some s => s | None => sprint v end.

(** The loop over the dead letters of [quorumAtLeastOnce]. *)
Fixpoint scan_dls (name : string) (dls : list DeadLetter) (st : bool * string * bool)
  : bool * string * bool :=
  match dls with
  | [] => st
  | dl :: r =>
      if decide (dSource dl = name) then
        let '(_, ov, set) := st in
        scan_dls name r
          (if decide (dOverflow dl = ""%string) then (true, ov, set)
           else (true, dOverflow dl, true))
      else scan_dls name r st
  end.

(** Results: atLeastOnce, overflow, overflowSet. *)
Definition quorumAtLeastOnce (t : Topology) (q : Queue) : bool * string * bool :=
  if decide (qType q = QueueTypeQuorum) then
    let hasDLX := has_arg (qArgs q) "x-dead-letter-exchange" in
    let '(ov, set) := match args_get (qArgs q) "x-overflow" with
                      | Some raw => (overflow_text raw, true)
                      | None => (""%string, false)
                      end in
    let '(hasDLX, ov, set) := scan_dls (qName q) (DeadLetters t) (hasDLX, ov, set) in
    if hasDLX : bool then
      match args_get (qArgs q) "x-dead-letter-strategy" with
      | Some (VString s) => (bool_decide (s = dlxStrategyAtLeastOnce), ov, set)
      | Some _ => (false, ov, set)
      | None => (true, ov, set)
      end
    else (false, ""%string, false)
  else (false, ""%string, false).

(** The checks on one queue; the state is the names and the stream queues
    before it. *)
Definition validate_queue (t : Topology) (st : gset string * gset string) (q : Queue)
  : result error (gset string * gset string) :=
  let '(seen, streams) := st in
  let? _ := reject (bool_decide (qName q = ""%string)) in
  let? _ := reject (bool_decide (qName q ∈ seen)) in
  let seen := {[ qName q ]} ∪ seen in
  let? _ := reject (existsb (has_arg (qArgs q)) managed_keys) in
  let? _ := reject (negb (bool_decide (qType q ∈ validQueueTypes))) in
  let? _ := reject (bool_decide (0 < qDeliveryLimit q ∧ qType q ≠ QueueTypeQuorum)) in
  let? _ := reject (bool_decide (qMaxPriority q ≠ 0 ∧ (qMaxPriority q < 0 ∨ 255 < qMaxPriority q))) in
  let? _ := reject (bool_decide (0 < qMaxPriority q ∧ qType q ≠ ""%string
                                 ∧ qType q ≠ QueueTypeClassic)) in
  let? _ :=
    if decide (qType q = QueueTypeQuorum) then
      let? _ := reject (negb (qDurable q)) in
      let? _ := reject (qExclusive q) in
      reject (qAutoDelete q)
    else Ok tt in
  let? streams :=
    if decide (qType q = QueueTypeStream) then
      let? _ := reject (negb (qDurable q)) in
      let? _ := reject (qSingleActiveConsumer q) in
      let? _ := reject (qExclusive q) in
      let? _ := reject (qAutoDelete q) in
      Ok ({[ qName q ]} ∪ streams)
    else Ok streams in
  let '(alo, ov, set) := quorumAtLeastOnce t q in
  let? _ := reject (alo && set && negb (bool_decide (ov = OverflowRejectPublish))) in
  Ok (seen, streams).

Definition exch_kind (es : list Exchange) : gmap string string :=
  foldl (fun m e => <[ eName e := eKind e ]> m) ∅ es.

Definition validate_binding (kinds : gmap string string) (b : Binding) : result error unit :=
  let? _ := reject (bool_decide (bExchange b = ""%string)) in
  let? _ := reject (bool_decide (bQueue b = ""%string)) in
  if decide (bRoutingKey b = ""%string) then Ok tt
  else match kinds !! bExchange b with
       | Some k => reject (bool_decide (k = ExchangeFanout))
       | None => Ok tt
       end.

Definition validate_exchange_binding (x : ExchangeBinding) : result error unit :=
  let? _ := reject (bool_decide (xSource x = ""%string)) in
  reject (bool_decide (xDestination x = ""%string)).

Definition validate_dead_letter (streams : gset string) (dl : DeadLetter) : result error unit :=
  let? _ := reject (bool_decide (dSource dl = ""%string)) in
  let? _ := reject (bool_decide (dSource dl ∈ streams)) in
  let? _ := reject (negb (bool_decide (dOverflow dl ∈ validOverflow))) in
  reject (negb (bool_decide (dDLQOverflow dl ∈ validOverflow))).

Definition validate (t : Topology) : result error unit :=
  let? _ := fold_checks validate_exchange (Exchanges t) ∅ in
  let? st := fold_checks (validate_queue t) (Queues t) (∅, ∅) in
  let? _ := fold_checks (fun _ b => validate_binding (exch_kind (Exchanges t)) b) (Bindings t) tt in
  let? _ := fold_checks (fun _ x => validate_exchange_binding x) (ExchangeBindings t) tt in
  fold_checks (fun _ dl => validate_dead_letter st.2 dl) (DeadLetters t) tt.

(** ** Warnings *)

Inductive warning : Type :=
| WarnDelayed (exchange : string)
| WarnDeliveryLimitDefault20 (queue : string)
| WarnDeliveryLimitUnbounded (queue : string)
| WarnDeliveryLimitUnknown (queue : string)
| WarnAutoRejectPublish (queue : string).

Definition warnDelayedExchanges (logger : bool) (es : list Exchange) : list warning :=
  if logger
  then omap (fun e => if decide (eKind e = ExchangeDelayed) then Some (WarnDelayed (eName e))
                      else None) es
  else [].

(** The leading digit run, read as a decimal number. *)
Fixpoint leading_digits (s : string) (acc : option Z) : option Z :=
  match s with
  | String c r =>
      let n := Z.of_N (N_of_ascii c) in
      if decide (48 <= n <= 57) then leading_digits r (Some (default 0 acc * 10 + (n - 48)))
      else acc
  | EmptyString => acc
  end.

(** [strconv.Atoi] fails outside the range of [int]. *)
Definition parseBrokerMajor (version : string) : option Z :=
  match leading_digits version None with
  | Some n => if decide (n <= maxInt) then Some n else None
  | None => None
  end.

Definition warnQuorumDeliveryLimit (logger : bool) (qs : list Queue) (version : string)
  : list warning :=
  if logger then
    omap (fun q =>
      if decide (qType q ≠ QueueTypeQuorum ∨ qDeliveryLimit q ≠ 0) then None
      else match parseBrokerMajor version with
           | Some m => if decide (4 <= m) then Some (WarnDeliveryLimitDefault20 (qName q))
                       else if decide (m = 3) then Some (WarnDeliveryLimitUnbounded (qName q))
                       else Some (WarnDeliveryLimitUnknown (qName q))
           | None => Some (WarnDeliveryLimitUnknown (qName q))
           end) qs
  else [].

Definition warnQuorumAtLeastOnceOverflow (logger : bool) (t : Topology) : list warning :=
  if logger then
    omap (fun q => let '(alo, _, set) := quorumAtLeastOnce t q in
                   if alo && negb set then Some (WarnAutoRejectPublish (qName q)) else None)
         (Queues t)
  else [].

(** ** Declaration *)

(** The calls on the AMQP channel. *)
Inductive call : Type :=
| CExchangeDeclare (e : Exchange)
| CQueueDeclare (q : Queue)
| CQueueBind (b : Binding)
| CExchangeBind (x : ExchangeBinding).

Definition calls (t : Topology) : list call :=
  (CExchangeDeclare <$> Exchanges t) ++ (CQueueDeclare <$> Queues t)
  ++ (CQueueBind <$> Bindings t) ++ (CExchangeBind <$> ExchangeBindings t).

Definition wrapMismatch (err : error) : goerror :=
  let wrapped := wrapAMQPError (Some err) in
  if errors_is wrapped ErrPreconditionFailed
  then match wrapped with
       | Some w => Some (Wrap [Sentinel ErrTopologyMismatch; w])
       | None => None
       end
  else wrapped.

(** The calls issued, and the result; [answer] is the broker's reply to the
    call, given the calls it has seen before. *)
Fixpoint issue (answer : list call -> call -> goerror) (done : list call) (cs : list call)
  : list call * goerror :=
  match cs with
  | [] => (done, None)
  | c :: r =>
      match answer done c with
      | Some err => (done ++ [c], wrapMismatch err)
      | None => issue answer (done ++ [c]) r
      end
  end.

Definition declareOnChannel (answer : list call -> call -> goerror) (t : Topology)
  : list call * goerror :=
  issue answer [] (calls t).

(** [Declare]: the warnings logged, the calls issued and the result.
    [openErr] is the outcome of [openDeclareChannel]. *)
Definition DeclareTopology (logger : bool) (version : string) (openErr : goerror)
    (answer : list call -> call -> goerror) (t : Topology)
  : list warning * list call * goerror :=
  match validate t with
  | Err e => ([], [], Some e)
  | Ok _ =>
      let x := expand t in
      let ws := warnDelayedExchanges logger (Exchanges x)
                ++ warnQuorumDeliveryLimit logger (Queues x) version
                ++ warnQuorumAtLeastOnceOverflow logger t in
      match openErr with
      | Some e => (ws, [], Some e)
      | None => let '(cs, r) := declareOnChannel answer x in (ws, cs, r)
      end
  end.

End with_sprint.

(** ** Lemmas on arguments *)

#[local] Arguments args_get : simpl never.
#[local] Arguments args_set : simpl never.

Lemma args_get_set k k' v m :
  args_get (args_set k v m) k' = if decide (k = k') then Some v else args_get m k'.
Proof.
  unfold args_set, args_get. rewrite lookup_insert. case_decide; [done|].
  destruct m; simpl; [done|apply lookup_empty].
Qed.

Lemma args_get_put (c : bool) k k' v m :
  args_get (if c then args_set k v m else m) k'
  = if c && bool_decide (k = k') then Some v else args_get m k'.
Proof.
  destruct c; simpl; [|done]. rewrite args_get_set. by case_bool_decide; case_decide.
Qed.

Lemma args_get_copy m k : args_get (copyArgs <$> m) k = copy_value <$> args_get m k.
Proof. destruct m; [apply lookup_fmap|done]. Qed.

(** Deep copies are equal to what they copy. *)
Lemma copy_value_id : ∀ v, copy_value v = v.
Proof.
  fix IH 1. intros v. destruct v as [| | | | | | | | |es| | |]; simpl; try reflexivity.
  f_equal. induction es as [|[k x] es IHes]; [reflexivity|]. rewrite IH. f_equal. exact IHes.
Qed.

Lemma copyArgs_get m k : args_get (copyArgs <$> m) k = args_get m k.
Proof.
  rewrite args_get_copy. destruct (args_get m k); simpl; [by rewrite copy_value_id|done].
Qed.

(** What one dead letter changes in the arguments of its source. *)
Lemma source_args_dlx dl m :
  args_get (source_args dl m) "x-dead-letter-exchange" = Some (VString (dlx_name dl)).
Proof. unfold source_args. rewrite !args_get_put, args_get_set. simpl. by rewrite !andb_false_r. Qed.

Lemma source_args_strategy dl m :
  args_get (source_args dl m) "x-dead-letter-strategy" = args_get m "x-dead-letter-strategy".
Proof. unfold source_args. rewrite !args_get_put, args_get_set. simpl. by rewrite !andb_false_r. Qed.

Lemma source_args_overflow dl m :
  args_get (source_args dl m) "x-overflow"
  = if decide (dOverflow dl = ""%string) then args_get m "x-overflow"
    else Some (VString (dOverflow dl)).
Proof.
  unfold source_args. rewrite !args_get_put, args_get_set. simpl. rewrite !andb_false_r, andb_true_r.
  case_bool_decide; case_decide; done.
Qed.

(** The typed fields touch none of the dead-letter keys. *)
Lemma typed_args_get q k :
  k ∉ managed_keys -> args_get (typed_args q) k = args_get (qArgs q) k.
Proof.
  intros Hk. assert (∀ k', k' ∈ managed_keys -> bool_decide (k' = k) = false) as Hne.
  { intros k' Hk'. apply bool_decide_eq_false_2. by intros ->. }
  unfold typed_args. rewrite !args_get_put, !Hne by (unfold managed_keys; set_solver).
  by rewrite !andb_false_r.
Qed.

(** The arguments of a source queue after every dead letter has been merged. *)
Definition merged (dls : list DeadLetter) (q : Queue) : Queue :=
  set_qArgs (foldl (fun m dl => if decide (dSource dl = qName q) then source_args dl m else m)
                   (qArgs q) dls) q.

(** ** Lemmas on the expansion *)

(** [queueIdx] points at exactly the queues of [qs]. *)
Definition indexes (idx : gmap string nat) (qs : list Queue) : Prop :=
  ∀ s i, idx !! s = Some i <-> ∃ q, qs !! i = Some q ∧ qName q = s.

Lemma index_from_spec k qs :
  NoDup (qName <$> qs) ->
  ∀ s i, index_from k qs !! s = Some i <-> ∃ j q, i = (k + j)%nat ∧ qs !! j = Some q ∧ qName q = s.
Proof.
  revert k. induction qs as [|q qs IH]; intros k Hn s i; simpl.
  { rewrite lookup_empty. split; [done|]. intros (j & q & _ & H & _). by rewrite lookup_nil in H. }
  simpl in Hn. apply NoDup_cons in Hn as [Hq Hn]. specialize (IH (S k) Hn).
  rewrite lookup_union_Some_raw, IH. split.
  - intros [(j & q' & -> & Hj & <-)|[_ Hi]].
    + exists (S j), q'. split; [lia|]. done.
    + apply lookup_singleton_Some in Hi as [<- <-]. exists 0%nat, q. split; [lia|]. done.
  - intros ([|j] & q' & -> & Hj & <-); simpl in Hj.
    + injection Hj as <-. right. split; [|rewrite Nat.add_0_r; apply lookup_singleton_eq].
      apply eq_None_not_Some. intros [i Hi]. apply IH in Hi as (j & q' & _ & Hj & He).
      apply Hq. rewrite <- He. apply list_elem_of_fmap. exists q'. split; [done|].
      by eapply list_elem_of_lookup_2.
    + left. exists j, q'. split; [lia|]. done.
Qed.

Lemma index_from_indexes qs : NoDup (qName <$> qs) -> indexes (index_from 0 qs) qs.
Proof.
  intros Hn s i. rewrite (index_from_spec 0 qs Hn). split.
  - intros (j & q & -> & H). eauto.
  - intros (q & H). exists i, q. done.
Qed.

(** A merge keeps names, so it keeps the index. *)
Lemma indexes_fmap idx qs f :
  (∀ q, qName (f q) = qName q) -> indexes idx qs -> indexes idx (f <$> qs).
Proof.
  intros Hf Hi s i. unfold indexes in Hi. rewrite Hi. split.
  - intros (q & Hq & <-). exists (f q). by rewrite list_lookup_fmap, Hq.
  - intros (q & Hq & <-). rewrite list_lookup_fmap in Hq.
    destruct (qs !! i) as [q0|]; simplify_eq/=. eauto.
Qed.

Lemma merged_cons dl dls q :
  merged (dl :: dls) q
  = merged dls (if decide (dSource dl = qName q) then set_qArgs (source_args dl (qArgs q)) q else q).
Proof. unfold merged. simpl. by case_decide. Qed.

Lemma merged_name dls q : qName (merged dls q) = qName q.
Proof. done. Qed.

(** Merging one dead letter by index is merging it by name. *)
Lemma alter_by_name idx qs s i f :
  indexes idx qs -> NoDup (qName <$> qs) -> idx !! s = Some i ->
  alter f i qs = (fun q => if decide (s = qName q) then f q else q) <$> qs.
Proof.
  intros Hi Hn Hs. apply list_eq. intros j. rewrite list_lookup_alter, list_lookup_fmap.
  case_decide as Hij; [subst j|]; destruct (qs !! _) as [q|] eqn:Hq; simpl; try done.
  - apply Hi in Hs as (q' & Hq' & <-). simplify_eq. by rewrite decide_True.
  - rewrite decide_False; [done|]. intros ->. apply Hij.
    apply Hi in Hs as (q' & Hq' & He).
    eapply (NoDup_lookup _ _ _ (qName q)); [exact Hn| |];
      rewrite list_lookup_fmap; [rewrite Hq'|rewrite Hq]; simpl; congruence.
Qed.

Lemma expand_dl_queues idx dl out base extra :
  indexes idx base -> NoDup (qName <$> base) ->
  xQueues out = base ++ extra -> Forall (fun q => qType q = ""%string) extra ->
  ∃ extra', xQueues (expand_dl idx out dl)
    = ((fun q => if decide (dSource dl = qName q) then set_qArgs (source_args dl (qArgs q)) q else q)
         <$> base) ++ extra' ∧ Forall (fun q => qType q = ""%string) extra'.
Proof.
  intros Hi Hn Hq He. unfold expand_dl. destruct (idx !! dSource dl) as [i|] eqn:Hs.
  - rewrite Hq, alter_app_l.
    2:{ apply Hi in Hs as (q & Hq' & _). by eapply lookup_lt_Some. }
    rewrite (alter_by_name idx base (dSource dl) i _ Hi Hn Hs).
    repeat case_decide; simpl; [exists extra|exists extra| | | | | |]; rewrite <- ?app_assoc; eauto;
      eexists; (split; [reflexivity|]); apply Forall_app; auto.
  - exists extra. split; [|done]. rewrite Hq. f_equal. symmetry. rewrite <- (list_fmap_id base) at 2.
    apply list_fmap_ext. intros j q Hj. rewrite decide_False; [done|]. intros Hd.
    assert (idx !! dSource dl = Some j) by (apply Hi; eauto). congruence.
Qed.

Lemma expand_loop_queues idx dls out base extra :
  indexes idx base -> NoDup (qName <$> base) ->
  xQueues out = base ++ extra -> Forall (fun q => qType q = ""%string) extra ->
  ∃ extra', xQueues (foldl (expand_dl idx) out dls) = (merged dls <$> base) ++ extra'
    ∧ Forall (fun q => qType q = ""%string) extra'.
Proof.
  revert out base extra. induction dls as [|dl dls IH]; intros out base extra Hi Hn Hq He.
  - exists extra. split; [|done]. simpl. rewrite Hq. f_equal. symmetry.
    rewrite <- (list_fmap_id base) at 2. apply list_fmap_ext. intros j q _. by destruct q.
  - simpl. destruct (expand_dl_queues idx dl out base extra Hi Hn Hq He) as (extra1 & Hq1 & He1).
    set (g := fun q => if decide _ then _ else _) in Hq1.
    assert (∀ q, qName (g q) = qName q) as Hg by (intros q; unfold g; by case_decide).
    destruct (IH (expand_dl idx out dl) (g <$> base) extra1) as (extra2 & Hq2 & He2); auto.
    + by apply indexes_fmap.
    + rewrite <- list_fmap_compose. erewrite list_fmap_ext; [exact Hn|]. intros; apply Hg.
    + exists extra2. split; [|done]. rewrite Hq2. f_equal. rewrite <- list_fmap_compose.
      apply list_fmap_ext. intros j q _. unfold compose. by rewrite merged_cons.
Qed.

(** The name indexes agree with the slices, and names are not repeated. *)
Record consistent (out : expansion) : Prop := {
  con_exch : exchNames out = list_to_set (eName <$> xExchanges out);
  con_queue : queueNames out = list_to_set (qName <$> xQueues out);
  con_bind : bindingKeys out
    = list_to_set ((fun b => (bExchange b, bQueue b, bRoutingKey b)) <$> xBindings out);
  con_exch_nodup : NoDup (eName <$> xExchanges out);
  con_queue_nodup : NoDup (qName <$> xQueues out)
}.

Lemma NoDup_snoc_name (l : list string) x : NoDup l -> x ∉ l -> NoDup (l ++ [x]).
Proof.
  intros Hl Hx. apply NoDup_app. split; [done|]. split; [|apply NoDup_singleton]. set_solver.
Qed.

Lemma qName_alter f (i : nat) (qs : list Queue) : (∀ q, qName (f q) = qName q) -> qName <$> alter f i qs = qName <$> qs.
Proof.
  intros Hf. apply list_eq. intros j. rewrite !list_lookup_fmap, list_lookup_alter.
  case_decide; [subst|done]. destruct (qs !! _); simpl; [by rewrite Hf|done].
Qed.

Lemma list_to_set_snoc {A} `{Countable A} (l : list A) (x : A) :
  list_to_set (C := gset A) (l ++ [x]) = {[ x ]} ∪ list_to_set l.
Proof. rewrite list_to_set_app_L. simpl. by rewrite (right_id_L ∅ (∪)), (comm_L (∪)). Qed.

Lemma expand_dl_consistent idx dl out :
  consistent out ->
  consistent (expand_dl idx out dl)
  ∧ exchNames out ⊆ exchNames (expand_dl idx out dl)
  ∧ queueNames out ⊆ queueNames (expand_dl idx out dl)
  ∧ bindingKeys out ⊆ bindingKeys (expand_dl idx out dl)
  ∧ (is_Some (idx !! dSource dl) ->
       dlx_name dl ∈ exchNames (expand_dl idx out dl)
       ∧ dlq_name dl ∈ queueNames (expand_dl idx out dl)
       ∧ (dlx_name dl, dlq_name dl, bind_key dl) ∈ bindingKeys (expand_dl idx out dl)).
Proof.
  intros [He Hq Hb Hne Hnq]. unfold expand_dl.
  destruct (idx !! dSource dl) as [i|]; [|split; [done|]; do 3 (split; [done|]); by intros [? ?]].
  set (qs := alter _ i (xQueues out)).
  assert (qName <$> qs = qName <$> xQueues out) as Hqs by by apply qName_alter.
  assert (dlx_name dl ∉ exchNames out -> dlx_name dl ∉ eName <$> xExchanges out) as Hx
    by (rewrite He; by rewrite elem_of_list_to_set).
  assert (dlq_name dl ∉ queueNames out -> dlq_name dl ∉ qName <$> xQueues out) as Hy
    by (rewrite Hq; by rewrite elem_of_list_to_set).
  split.
  - repeat case_decide; constructor; simpl; rewrite ?fmap_app, ?Hqs; simpl;
      rewrite ?list_to_set_snoc; rewrite ?He, ?Hq, ?Hb; try done;
      apply NoDup_snoc_name; auto.
  - clear. repeat case_decide; simpl; set_solver.
Qed.

Lemma expand_loop_consistent idx dls out :
  consistent out ->
  let out' := foldl (expand_dl idx) out dls in
  consistent out'
  ∧ exchNames out ⊆ exchNames out' ∧ queueNames out ⊆ queueNames out'
  ∧ bindingKeys out ⊆ bindingKeys out'
  ∧ (∀ dl, dl ∈ dls -> is_Some (idx !! dSource dl) ->
       dlx_name dl ∈ exchNames out' ∧ dlq_name dl ∈ queueNames out'
       ∧ (dlx_name dl, dlq_name dl, bind_key dl) ∈ bindingKeys out').
Proof.
  revert out. induction dls as [|d dls IH]; intros out Hc; simpl.
  { split; [done|]. do 3 (split; [done|]). intros dl Hdl. by apply not_elem_of_nil in Hdl. }
  destruct (expand_dl_consistent idx d out Hc) as (Hc1 & He & Hq & Hb & Hin).
  destruct (IH _ Hc1) as (Hc2 & He2 & Hq2 & Hb2 & Hin2). split; [done|].
  split; [set_solver|]. split; [set_solver|]. split; [set_solver|].
  intros dl [->|Hdl]%elem_of_cons Hs; [|by apply Hin2].
  destruct (Hin Hs) as (? & ? & ?). set_solver.
Qed.

(** ** Lemmas on validation *)

Lemma reject_Ok b : reject b = Ok tt -> b = false.
Proof. by destruct b. Qed.

(** Open a chain of successful checks. *)
Ltac ok_inv H :=
  repeat (let a := fresh "a" in let E := fresh "E" in
          apply rbind_Ok in H as (a & E & H)).

Lemma validate_exchange_ok seen e seen' :
  validate_exchange seen e = Ok seen' -> seen' = {[ eName e ]} ∪ seen ∧ eName e ∉ seen.
Proof.
  unfold validate_exchange. intros H. apply rbind_Ok in H as (? & _ & H).
  apply rbind_Ok in H as ([] & E%reject_Ok & H). apply bool_decide_eq_false in E.
  ok_inv H. by injection H as <-.
Qed.

Lemma validate_queue_ok sprint t seen streams q st' :
  validate_queue sprint t (seen, streams) q = Ok st' ->
  st'.1 = {[ qName q ]} ∪ seen ∧ qName q ∉ seen
  ∧ (let '(alo, ov, set) := quorumAtLeastOnce sprint t q in
     alo && set = true -> ov = OverflowRejectPublish).
Proof.
  unfold validate_queue. intros H. apply rbind_Ok in H as (? & _ & H).
  apply rbind_Ok in H as ([] & E%reject_Ok & H). apply bool_decide_eq_false in E.
  do 5 apply rbind_Ok in H as (? & _ & H). do 2 apply rbind_Ok in H as (? & _ & H).
  destruct (quorumAtLeastOnce sprint t q) as [[alo ov] set].
  apply rbind_Ok in H as ([] & E1%reject_Ok & H). injection H as <-. simpl.
  split; [done|]. split; [done|]. intros Ha. rewrite Ha in E1. simpl in E1.
  apply negb_false_iff in E1. by apply bool_decide_eq_true in E1.
Qed.

Lemma validate_exchanges_nodup es seen seen' :
  fold_checks validate_exchange es seen = Ok seen' ->
  NoDup (eName <$> es) ∧ (∀ e, e ∈ es -> eName e ∉ seen).
Proof.
  revert seen. induction es as [|e es IH]; intros seen H; simpl in *.
  { split; [constructor|]. intros e He. by apply not_elem_of_nil in He. }
  apply rbind_Ok in H as (seen1 & [-> Hn]%validate_exchange_ok & H).
  destruct (IH _ H) as [Hnd Hd]. split.
  - apply NoDup_cons. split; [|done]. intros (e' & Heq & Hin)%list_elem_of_fmap.
    apply (Hd e' Hin). rewrite <- Heq. set_solver.
  - intros e' [->|Hin]%elem_of_cons; [done|]. specialize (Hd e' Hin). set_solver.
Qed.

Lemma validate_queues_ok sprint t qs st st' :
  fold_checks (validate_queue sprint t) qs st = Ok st' ->
  NoDup (qName <$> qs)
  ∧ (∀ q, q ∈ qs -> qName q ∉ st.1
       ∧ let '(alo, ov, set) := quorumAtLeastOnce sprint t q in
         alo && set = true -> ov = OverflowRejectPublish).
Proof.
  revert st. induction qs as [|q qs IH]; intros [seen streams] H; simpl in *.
  { split; [constructor|]. intros e He. by apply not_elem_of_nil in He. }
  apply rbind_Ok in H as (st1 & Hq & H). apply validate_queue_ok in Hq as (Hs & Hn & Ha).
  destruct (IH _ H) as [Hnd Hd]. rewrite Hs in Hd. split.
  - apply NoDup_cons. split; [|done]. intros (e' & Heq & Hin)%list_elem_of_fmap.
    apply (Hd e' Hin). rewrite <- Heq. set_solver.
  - intros e' [->|Hin]%elem_of_cons; [done|]. destruct (Hd e' Hin) as [? ?]. split; [set_solver|done].
Qed.

Lemma validate_ok sprint t :
  validate sprint t = Ok tt ->
  NoDup (eName <$> Exchanges t) ∧ NoDup (qName <$> Queues t)
  ∧ (∀ q, q ∈ Queues t ->
       let '(alo, ov, set) := quorumAtLeastOnce sprint t q in
       alo && set = true -> ov = OverflowRejectPublish).
Proof.
  unfold validate. intros H. apply rbind_Ok in H as (s1 & H1 & H).
  apply rbind_Ok in H as (s2 & H2 & _).
  apply validate_exchanges_nodup in H1 as [H1 _]. apply validate_queues_ok in H2 as [H2 H3].
  split; [done|]. split; [done|]. intros q Hq. by apply H3.
Qed.

(** ** The expansion of a validated topology *)

Lemma expand_init_consistent t :
  NoDup (eName <$> Exchanges t) -> NoDup (qName <$> Queues t) -> consistent (expand_init t).
Proof.
  intros He Hq. constructor; simpl; try done.
  - rewrite <- list_fmap_compose. erewrite list_fmap_ext; [exact He|]. intros. done.
  - rewrite <- list_fmap_compose. erewrite list_fmap_ext; [exact Hq|]. intros. done.
Qed.

(** The queues of the expansion: the declared ones with their dead letters
    merged, then the automatic dead-letter queues, which have no type. *)
Lemma expand_queues t :
  NoDup (qName <$> Queues t) ->
  ∃ extra, Queues (expand t)
    = ((fun q => inject_queue (merged (DeadLetters t) (copy_queue q))) <$> Queues t)
      ++ (inject_queue <$> extra)
  ∧ Forall (fun q => qType q = ""%string) extra.
Proof.
  intros Hn. assert (NoDup (qName <$> xQueues (expand_init t))) as Hn'.
  { simpl. rewrite <- list_fmap_compose. erewrite list_fmap_ext; [exact Hn|]. intros. done. }
  destruct (expand_loop_queues (index_from 0 (xQueues (expand_init t))) (DeadLetters t)
    (expand_init t) (xQueues (expand_init t)) []) as (extra & Hx & Hf).
  - by apply index_from_indexes.
  - done.
  - by rewrite app_nil_r.
  - constructor.
  - exists extra. split; [|done]. change (Queues (expand t)) with (inject_queue <$> xQueues (expand_dls t)).
    unfold expand_dls. rewrite Hx, fmap_app. f_equal. simpl. by rewrite <- !list_fmap_compose.
Qed.

(** The merged arguments agree with what [quorumAtLeastOnce] scans. *)
Lemma scan_dls_merged sprint name dls m has ov set :
  has = has_arg m "x-dead-letter-exchange" ->
  (match args_get m "x-overflow" with
   | Some v => set = true ∧ overflow_text sprint v = ov
   | None => set = false
   end) ->
  let '(has', ov', set') := scan_dls name dls (has, ov, set) in
  let m' := foldl (fun m dl => if decide (dSource dl = name) then source_args dl m else m) m dls in
  has' = has_arg m' "x-dead-letter-exchange"
  ∧ args_get m' "x-dead-letter-strategy" = args_get m "x-dead-letter-strategy"
  ∧ match args_get m' "x-overflow" with
    | Some v => set' = true ∧ overflow_text sprint v = ov'
    | None => set' = false
    end.
Proof.
  revert m has ov set. induction dls as [|dl dls IH]; intros m has ov set Hh Ho; simpl; [done|].
  case_decide as Hs; [|by apply IH].
  specialize (IH (source_args dl m)). rewrite source_args_strategy, source_args_overflow in IH.
  case_decide as Hov.
  - apply IH; [|done]. unfold has_arg. by rewrite source_args_dlx.
  - apply IH; [|done]. unfold has_arg. by rewrite source_args_dlx.
Qed.

(** What the coupling step does to the keys it reads. *)
Definition effective_alo (strategy : option value) : bool :=
  match strategy with
  | None => true
  | Some (VString s) => bool_decide (s = dlxStrategyAtLeastOnce)
  | Some _ => false
  end.

Lemma couple_args_spec q m :
  qType q = QueueTypeQuorum -> is_Some (args_get m "x-dead-letter-exchange") ->
  args_get (couple_args q m) "x-dead-letter-strategy"
    = Some (default (VString dlxStrategyAtLeastOnce) (args_get m "x-dead-letter-strategy"))
  ∧ args_get (couple_args q m) "x-overflow"
    = match args_get m "x-overflow" with
      | Some v => Some v
      | None => if effective_alo (args_get m "x-dead-letter-strategy")
                then Some (VString OverflowRejectPublish) else None
      end.
Proof.
  intros Ht [dlx Hd]. unfold couple_args. rewrite decide_True, Hd by done.
  fold (effective_alo (args_get m "x-dead-letter-strategy")).
  destruct (args_get m "x-dead-letter-strategy") as [st|] eqn:Es; simpl default.
  - destruct (effective_alo (Some st)); destruct (args_get m "x-overflow") eqn:Eo;
      rewrite ?args_get_set, ?Es, ?Eo; split; done.
  - change (effective_alo None) with true. cbv iota. rewrite !args_get_set.
    destruct (args_get m "x-overflow") eqn:Eo; simpl; rewrite ?args_get_set, ?Eo; split; done.
Qed.

Lemma couple_args_dlx q m :
  args_get (couple_args q m) "x-dead-letter-exchange" = args_get m "x-dead-letter-exchange".
Proof.
  unfold couple_args. case_decide; [|done].
  destruct (args_get m "x-dead-letter-exchange") as [d|] eqn:Hd; [|done].
  repeat case_match; rewrite ?args_get_set; simpl; done.
Qed.

(** The only dead letter of a source sets its dead-letter exchange. *)
Lemma merged_dlx dls q dl :
  NoDup (dSource <$> dls) -> dl ∈ dls -> dSource dl = qName q ->
  args_get (qArgs (merged dls q)) "x-dead-letter-exchange" = Some (VString (dlx_name dl)).
Proof.
  intros Hnd Hin Hs. apply list_elem_of_split in Hin as (d1 & d2 & ->).
  rewrite fmap_app, fmap_cons in Hnd. apply NoDup_app in Hnd as (_ & _ & [Hno _]%NoDup_cons).
  unfold merged. rewrite foldl_app. simpl. rewrite decide_True by done.
  generalize (foldl (fun m dl => if decide (dSource dl = qName q) then source_args dl m else m)
                    (qArgs q) d1). intros m.
  assert (∀ m1 m2 : args, args_get m1 "x-dead-letter-exchange" = args_get m2 "x-dead-letter-exchange" ->
    args_get (foldl (fun m dl => if decide (dSource dl = qName q) then source_args dl m else m) m1 d2)
      "x-dead-letter-exchange" = args_get m2 "x-dead-letter-exchange") as Hrest.
  { clear m. induction d2 as [|d d2 IH]; intros m1 m2 E; simpl; [done|].
    rewrite fmap_cons, not_elem_of_cons in Hno. destruct Hno as [Hd Hno].
    rewrite decide_False by congruence. by apply IH. }
  rewrite (Hrest _ _ eq_refl). apply source_args_dlx.
Qed.

(** The lockstep of [validate] and [expand] on one declared queue. *)
Lemma coupled_args sprint t q :
  let q' := inject_queue (merged (DeadLetters t) (copy_queue q)) in
  (let '(alo, ov, set) := quorumAtLeastOnce sprint t q in
   alo && set = true -> ov = OverflowRejectPublish) ->
  qType q = QueueTypeQuorum ->
  is_Some (args_get (qArgs q') "x-dead-letter-exchange") ->
  is_Some (args_get (qArgs q') "x-dead-letter-strategy")
  ∧ (args_get (qArgs q') "x-dead-letter-strategy" = Some (VString dlxStrategyAtLeastOnce) ->
     ∃ v, args_get (qArgs q') "x-overflow" = Some v
          ∧ overflow_text sprint v = OverflowRejectPublish).
Proof.
  cbv zeta. set (q1 := merged (DeadLetters t) (copy_queue q)). set (m0 := copyArgs <$> qArgs q).
  intros Hval Ht. unfold inject_queue. simpl qArgs. rewrite couple_args_dlx. intros Hdlx.
  destruct (couple_args_spec q1 (typed_args q1) Ht Hdlx) as [-> ->].
  rewrite typed_args_get in Hdlx by (unfold managed_keys; set_solver).
  rewrite !typed_args_get by (unfold managed_keys; set_solver). split; [eauto|].
  pose proof (scan_dls_merged sprint (qName q) (DeadLetters t) m0) as Hscan.
  change (foldl _ m0 (DeadLetters t)) with (qArgs q1) in Hscan. cbv zeta in Hscan.
  unfold quorumAtLeastOnce in Hval. rewrite decide_True in Hval by done.
  assert (∀ k, args_get (qArgs q) k = args_get m0 k) as Hm0 by (intros k; unfold m0; by rewrite copyArgs_get).
  unfold has_arg in *. rewrite !Hm0 in Hval.
  destruct (match args_get m0 "x-overflow" with Some _ => _ | None => _ end) as [ov set] eqn:Eov.
  specialize (Hscan _ ov set eq_refl).
  destruct (scan_dls (qName q) (DeadLetters t) _) as [[has' ov'] set'].
  destruct Hscan as (Hhas & Hstrat & Hov); [destruct (args_get m0 "x-overflow"); by simplify_eq|].
  destruct Hdlx as [dlx Hdlx]. rewrite Hdlx in Hhas. subst has'. rewrite Hstrat.
  intros Halo. destruct (args_get (qArgs q1) "x-overflow") as [v|] eqn:Eo.
  - exists v. split; [done|]. destruct Hov as [-> ->]. revert Hval.
    destruct (args_get m0 "x-dead-letter-strategy") as [st|]; simpl in Halo; [|auto].
    injection Halo as ->. rewrite bool_decide_eq_true_2 by done. auto.
  - destruct (args_get m0 "x-dead-letter-strategy") as [st|]; simpl in Halo; [|by eexists].
    injection Halo as ->. unfold effective_alo. rewrite bool_decide_eq_true_2 by done. by eexists.
Qed.

(** ** Properties *)

(** C7. At-least-once dead-lettering is always coupled with [reject-publish]:
    in the expansion of a topology that validates, a quorum queue with a
    dead-letter exchange has a dead-letter strategy, and when that is
    at-least-once its overflow argument reads reject-publish. *)
Theorem quorum_at_least_once_coupled sprint t q :
  validate sprint t = Ok tt -> q ∈ Queues (expand t) -> qType q = QueueTypeQuorum ->
  is_Some (args_get (qArgs q) "x-dead-letter-exchange") ->
  is_Some (args_get (qArgs q) "x-dead-letter-strategy")
  ∧ (args_get (qArgs q) "x-dead-letter-strategy" = Some (VString dlxStrategyAtLeastOnce) ->
     ∃ v, args_get (qArgs q) "x-overflow" = Some v
          ∧ overflow_text sprint v = OverflowRejectPublish).
Proof.
  intros Hv Hq Ht Hd. destruct (validate_ok sprint t Hv) as (_ & Hn & Hall).
  destruct (expand_queues t Hn) as (extra & Hqs & Hextra). rewrite Hqs in Hq.
  apply elem_of_app in Hq as [Hq|Hq]; apply list_elem_of_fmap in Hq as (q0 & -> & Hq0).
  - apply (coupled_args sprint t q0); [by apply Hall|done|done].
  - rewrite Forall_forall in Hextra. specialize (Hextra q0 Hq0). simpl in Ht. rewrite Hextra in Ht. done.
Qed.

Lemma expand_dls_consistent sprint t :
  validate sprint t = Ok tt ->
  consistent (expand_dls t)
  ∧ (∀ e, e ∈ Exchanges t -> eName e ∈ exchNames (expand_dls t))
  ∧ (∀ dl q, dl ∈ DeadLetters t -> q ∈ Queues t -> dSource dl = qName q ->
       dlx_name dl ∈ exchNames (expand_dls t) ∧ dlq_name dl ∈ queueNames (expand_dls t)
       ∧ (dlx_name dl, dlq_name dl, bind_key dl) ∈ bindingKeys (expand_dls t)).
Proof.
  intros Hv. destruct (validate_ok sprint t Hv) as (He & Hn & _).
  destruct (expand_loop_consistent (index_from 0 (xQueues (expand_init t))) (DeadLetters t)
    (expand_init t) (expand_init_consistent t He Hn)) as (Hc & Hsub & _ & _ & Hin).
  split; [exact Hc|]. split.
  - intros e Hin'. apply Hsub. simpl. apply elem_of_list_to_set, list_elem_of_fmap.
    exists (copy_exchange e). split; [done|]. apply list_elem_of_fmap. eauto.
  - intros dl q Hdl Hq Hs. apply Hin; [done|].
    assert (NoDup (qName <$> xQueues (expand_init t))) as Hn'
      by apply (con_queue_nodup _ (expand_init_consistent t He Hn)).
    apply list_elem_of_lookup in Hq as [i Hi]. exists i.
    apply (index_from_indexes _ Hn'). exists (copy_queue q). simpl. by rewrite list_lookup_fmap, Hi.
Qed.

(** C29. Expanding a valid topology keeps exchange and queue names unique and
    makes every dead letter of a declared queue complete: its exchange, its
    queue and the binding between them are declared, and when the source has a
    single dead letter, its queue points at that exchange. *)
Theorem dead_letters_complete sprint t :
  validate sprint t = Ok tt ->
  NoDup (eName <$> Exchanges (expand t)) ∧ NoDup (qName <$> Queues (expand t))
  ∧ (∀ dl q, dl ∈ DeadLetters t -> q ∈ Queues t -> dSource dl = qName q ->
       dlx_name dl ∈ eName <$> Exchanges (expand t)
       ∧ dlq_name dl ∈ qName <$> Queues (expand t)
       ∧ (∃ b, b ∈ Bindings (expand t) ∧ bExchange b = dlx_name dl ∧ bQueue b = dlq_name dl
               ∧ bRoutingKey b = bind_key dl)
       ∧ (NoDup (dSource <$> DeadLetters t) ->
          ∃ q', q' ∈ Queues (expand t) ∧ qName q' = qName q
            ∧ args_get (qArgs q') "x-dead-letter-exchange" = Some (VString (dlx_name dl)))).
Proof.
  intros Hv. destruct (expand_dls_consistent sprint t Hv) as ([He Hq Hb Hne Hnq] & _ & Hin).
  split; [exact Hne|]. split.
  { change (Queues (expand t)) with (inject_queue <$> xQueues (expand_dls t)).
    rewrite <- list_fmap_compose. erewrite list_fmap_ext; [exact Hnq|]. intros. done. }
  intros dl q Hdl Hqt Hs. destruct (Hin dl q Hdl Hqt Hs) as (H1 & H2 & H3).
  rewrite He in H1. rewrite Hq in H2. rewrite Hb in H3.
  apply elem_of_list_to_set in H1, H2, H3. split; [exact H1|]. split; [|split].
  - change (Queues (expand t)) with (inject_queue <$> xQueues (expand_dls t)).
    rewrite <- list_fmap_compose. erewrite list_fmap_ext; [exact H2|]. intros. done.
  - apply list_elem_of_fmap in H3 as (b & Hbe & Hbin). injection Hbe as -> -> ->. eauto.
  - intros Hnd. destruct (validate_ok sprint t Hv) as (_ & Hn & _).
    destruct (expand_queues t Hn) as (extra & Hqs & _). rewrite Hqs.
    exists (inject_queue (merged (DeadLetters t) (copy_queue q))). split.
    { apply elem_of_app. left. apply list_elem_of_fmap. eauto. }
    split; [done|]. unfold inject_queue. simpl qArgs.
    rewrite couple_args_dlx, typed_args_get by (unfold managed_keys; set_solver).
    apply merged_dlx; auto.
Qed.

(** [wrapMismatch] keeps the error, and a 406 becomes a mismatch. *)
Lemma wrapMismatch_some err : is_Some (wrapMismatch err).
Proof.
  unfold wrapMismatch, wrapAMQPError. repeat case_match; simplify_eq; eauto.
Qed.

Lemma wrapMismatch_406 err :
  as_amqp err = Some 406 ->
  errors_is (wrapMismatch err) ErrTopologyMismatch = true
  ∧ errors_is (wrapMismatch err) ErrPreconditionFailed = true.
Proof.
  intros H. assert (wrapAMQPError (Some err) = Some (Wrap [Sentinel ErrPreconditionFailed; err])) as E.
  { unfold wrapAMQPError. rewrite H. change (wrap_unsigned 16 406) with 406. by vm_compute. }
  unfold wrapMismatch. rewrite E. done.
Qed.

Lemma issue_spec answer done cs :
  let '(out, r) := issue answer done cs in
  match r with
  | None => out = done ++ cs
            ∧ ∀ pre c post, cs = pre ++ c :: post -> answer (done ++ pre) c = None
  | Some _ => ∃ pre c post err, cs = pre ++ c :: post ∧ out = done ++ pre ++ [c]
            ∧ answer (done ++ pre) c = Some err ∧ r = wrapMismatch err
            ∧ ∀ pre' c' post', pre = pre' ++ c' :: post' -> answer (done ++ pre') c' = None
  end.
Proof.
  revert done. induction cs as [|c cs IH]; intros done; simpl.
  { rewrite app_nil_r. split; [done|]. by intros [|]. }
  destruct (answer done c) as [err|] eqn:Ea.
  - destruct (wrapMismatch_some err) as [w Hw]. rewrite Hw. exists [], c, cs, err.
    rewrite app_nil_r. repeat split; try done. by intros [|].
  - specialize (IH (done ++ [c])). destruct (issue answer (done ++ [c]) cs) as [out [e|]].
    + destruct IH as (pre & c' & post & err & -> & -> & H1 & H2 & H3).
      exists (c :: pre), c', post, err. rewrite <- !app_assoc in *. repeat split; try done.
      intros [|x pre'] c0 post' Heq; simplify_eq/=; [by rewrite app_nil_r|].
      specialize (H3 pre' c0 post' eq_refl). by rewrite <- app_assoc in H3.
    + destruct IH as [-> H]. rewrite <- app_assoc. split; [done|].
      intros [|x pre'] c0 post' Heq; simplify_eq/=; [by rewrite app_nil_r|].
      specialize (H pre' c0 post' eq_refl). by rewrite <- app_assoc in H.
Qed.

(** Declaration is in order and stops at the first refusal: exchanges, then
    queues, then bindings are sent; a nil result means that the broker accepted
    every one of them; an error is the broker's answer to the last call sent,
    translated, and a 406 is reported as both [ErrTopologyMismatch] and
    [ErrPreconditionFailed]. *)
Lemma declare_in_order answer t :
  let '(cs, r) := declareOnChannel answer t in
  match r with
  | None => cs = calls t ∧ ∀ pre c post, calls t = pre ++ c :: post -> answer pre c = None
  | Some e => ∃ pre c post err, calls t = pre ++ c :: post ∧ cs = pre ++ [c]
      ∧ answer pre c = Some err ∧ r = wrapMismatch err
      ∧ (∀ pre' c' post', pre = pre' ++ c' :: post' -> answer pre' c' = None)
      ∧ (as_amqp err = Some 406 ->
         errors_is r ErrTopologyMismatch = true ∧ errors_is r ErrPreconditionFailed = true)
  end.
Proof.
  unfold declareOnChannel. pose proof (issue_spec answer [] (calls t)) as H.
  destruct (issue answer [] (calls t)) as [cs [e|]]; [|exact H].
  destruct H as (pre & c & post & err & H1 & H2 & H3 & H4 & H5).
  exists pre, c, post, err. do 5 (split; [done|]). intros H406. rewrite H4. by apply wrapMismatch_406.
Qed.

(** An automatic dead-letter queue is bounded unless the caller opts out:
    its length, message lifetime and overflow policy are all set, the first two
    to a positive value when the caller left them unset or positive. *)
Lemma auto_dlq_bounded dl :
  dDLQUnbounded dl = false -> 0 <= dDLQMaxLength dl ->
  dDLQMessageTTL dl = 0 ∨ millisecond <= dDLQMessageTTL dl ->
  ∃ n ttl ov,
    args_get (autoDLQArgs dl) "x-max-length" = Some (VNum KInt64 n) ∧ 0 < n
    ∧ args_get (autoDLQArgs dl) "x-message-ttl" = Some (VNum KInt64 ttl) ∧ 0 < ttl
    ∧ args_get (autoDLQArgs dl) "x-overflow" = Some (VString ov) ∧ ov ≠ ""%string.
Proof.
  intros Hu Hn Ht. unfold autoDLQArgs. rewrite Hu.
  do 3 eexists. split; [reflexivity|]. split; [case_decide; unfold defaultDLQMaxLength; lia|].
  split; [reflexivity|]. split.
  - apply milliseconds_pos_iff. case_decide; [|lia].
    unfold defaultDLQMessageTTL, second, millisecond. lia.
  - split; [reflexivity|]. case_decide; [done|]. done.
Qed.

(** ** Witnesses *)

Definition orders_topology : Topology :=
  mkTopology
    [mkExchange "orders" ExchangeTopic true false false false "" None]
    [mkQueue "orders.q" true false false false QueueTypeQuorum 5 false 0 None]
    [mkBinding "orders" "orders.q" "#" false None]
    [mkDeadLetter "orders.q" "" "" 0 0 0 "" 0 0 "" false] [].

Definition no_sprint (v : value) : string := "?".

Definition orders_queue : Queue := default (mkQueue "" false false false false "" 0 false 0 None)
  (head (Queues (expand orders_topology))).

Lemma quorum_coupled_witness :
  is_Some (args_get (qArgs orders_queue) "x-dead-letter-strategy")
  ∧ ∃ v, args_get (qArgs orders_queue) "x-overflow" = Some v
         ∧ overflow_text no_sprint v = OverflowRejectPublish.
Proof.
  destruct (quorum_at_least_once_coupled no_sprint orders_topology orders_queue) as [H1 H2].
  - vm_compute. reflexivity.
  - apply (list_elem_of_lookup_2 _ 0). vm_compute. reflexivity.
  - vm_compute. reflexivity.
  - vm_compute. eauto.
  - split; [exact H1|]. apply H2. vm_compute. reflexivity.
Defined.

Lemma dead_letters_witness :
  (eName <$> Exchanges (expand orders_topology)) = ["orders"; "orders.q.dlx"]%string
  ∧ NoDup (eName <$> Exchanges (expand orders_topology)).
Proof.
  split; [vm_compute; reflexivity|].
  apply (dead_letters_complete no_sprint orders_topology). vm_compute. reflexivity.
Defined.

Definition orders_dl : DeadLetter := mkDeadLetter "orders.q" "" "" 0 0 0 "" 0 0 "" false.

Lemma auto_dlq_witness :
  ∃ n ttl ov,
    args_get (autoDLQArgs orders_dl) "x-max-length" = Some (VNum KInt64 n) ∧ 0 < n
    ∧ args_get (autoDLQArgs orders_dl) "x-message-ttl" = Some (VNum KInt64 ttl) ∧ 0 < ttl
    ∧ args_get (autoDLQArgs orders_dl) "x-overflow" = Some (VString ov) ∧ ov ≠ ""%string.
Proof. apply (auto_dlq_bounded orders_dl); [reflexivity|simpl; lia|left; reflexivity]. Defined.

(** A positive retention below one millisecond is sent as 0, which the broker
    reads as "expire at once". *)
Lemma submillisecond_dlq_ttl dl :
  dDLQUnbounded dl = false -> 0 < dDLQMessageTTL dl < millisecond ->
  args_get (autoDLQArgs dl) "x-message-ttl" = Some (VNum KInt64 0).
Proof.
  intros Hu Ht. unfold autoDLQArgs. rewrite Hu. rewrite (decide_False (P := dDLQMessageTTL dl = 0)) by lia.
  unfold milliseconds. rewrite Z.quot_small by lia. reflexivity.
Qed.
