(* ===== verification/Redeclare.v ===== *)
(** * Redeclare: topology snapshots and the coalesced redeclare

    Models, of [src/topology.go], [AttachTo], [ensureTopologyRedeclare] and
    [runTopologyRedeclare] with the [topo*] fields of [Connection].

    Every reconnect barrier of the pool calls [ensureTopologyRedeclare]; its
    critical sections under [topoRedeclareMu] are the steps of a transition
    system whose state records where each barrier stands. *)

From S2P Require Import Prelude Errors Values Topology.

(** ** Snapshots *)

(** The [topo*] fields.  A [*Topology] key is the address of the caller's
    value. *)
Record snapshots : Type := mkSnapshots {
  topoKeys : list nat;
  topoSnaps : gmap nat Topology;
  topoHooked : bool;
  hooks : nat                  (* redeclare hooks registered on connections *)
}.

Definition no_snapshots : snapshots := mkSnapshots [] ∅ false 0.

(** [AttachTo] of the topology [t] at address [key] on a connection whose two
    pools hold [conns] managed connections. *)
Definition AttachTo (sprint : value -> string) (conns : nat) (key : nat) (t : Topology)
    (s : snapshots) : goerror * snapshots :=
  match validate sprint t with
  | Err e => (Some e, s)
  | Ok _ =>
      (None,
       mkSnapshots
         (match topoSnaps s !! key with Some _ => topoKeys s | None => topoKeys s ++ [key] end)
         (<[ key := expand t ]> (topoSnaps s))
         true
         (if topoHooked s then hooks s else hooks s + conns)%nat)
  end.

(** [runTopologyRedeclare]: for each key in order, test the context, open a
    channel, declare the snapshot.  [ctxErr], [openErr] and [answer] say what
    the context, the socket and the broker do at the [i]-th snapshot.  Returns
    the topologies declared in full and the result. *)
Fixpoint redeclare_from (ctxErr openErr : nat -> goerror)
    (answer : nat -> list call -> call -> goerror) (snaps : gmap nat Topology)
    (i : nat) (keys : list nat) : list Topology * goerror :=
  match keys with
  | [] => ([], None)
  | key :: r =>
      match ctxErr i with
      | Some e => ([], Some e)
      | None =>
          match openErr i with
          | Some e => ([], Some e)
          | None =>
              let t := default (mkTopology [] [] [] [] []) (snaps !! key) in
              match (declareOnChannel (answer i) t).2 with
              | Some e => ([], Some e)
              | None =>
                  let '(ts, res) := redeclare_from ctxErr openErr answer snaps (S i) r in
                  (t :: ts, res)
              end
          end
      end
  end.

Definition runTopologyRedeclare ctxErr openErr answer (s : snapshots) : list Topology * goerror :=
  redeclare_from ctxErr openErr answer (topoSnaps s) 0 (topoKeys s).

(** ** Coalescing *)

Definition topoRedeclareCoalesceWindow : Z := 10 * second.

(** Where a barrier stands in [ensureTopologyRedeclare]. *)
Inductive phase : Type :=
| PLoop                      (* about to take topoRedeclareMu *)
| PWait (ch : nat)           (* in the select on a wait channel *)
| PRun (ch : nat)            (* owns the redeclare; [ch] is the channel it made *)
| PDone (res : goerror).

Record coalesce : Type := mkCoalesce {
  topoLastDeclare : option Z;        (* None: the zero time *)
  topoRedeclareWait : option nat;    (* the wait channel, when a redeclare runs *)
  closedChs : gset nat;
  nextCh : nat;
  clock : Z;
  phases : gmap nat phase;
  successes : list Z                 (* history: when a redeclare succeeded *)
}.

Definition coalesce_init (barriers : gset nat) : coalesce :=
  mkCoalesce None None ∅ 0 0 (gset_to_gmap PLoop barriers) [].

Definition recent (st : coalesce) (now : Z) : bool :=
  match topoLastDeclare st with
  | Some t => bool_decide (now - t < topoRedeclareCoalesceWindow)
  | None => false
  end.

Inductive cstep : coalesce -> coalesce -> Prop :=
(* the coalesce branch *)
| step_skip st b now :
    phases st !! b = Some PLoop -> clock st <= now -> recent st now = true ->
    cstep st (mkCoalesce (topoLastDeclare st) (topoRedeclareWait st) (closedChs st) (nextCh st) now
                         (<[ b := PDone None ]> (phases st)) (successes st))
(* another barrier is mid-redeclare *)
| step_wait st b now ch :
    phases st !! b = Some PLoop -> clock st <= now -> recent st now = false ->
    topoRedeclareWait st = Some ch ->
    cstep st (mkCoalesce (topoLastDeclare st) (topoRedeclareWait st) (closedChs st) (nextCh st) now
                         (<[ b := PWait ch ]> (phases st)) (successes st))
(* own this wave's redeclare *)
| step_own st b now :
    phases st !! b = Some PLoop -> clock st <= now -> recent st now = false ->
    topoRedeclareWait st = None ->
    cstep st (mkCoalesce (topoLastDeclare st) (Some (nextCh st)) (closedChs st) (S (nextCh st)) now
                         (<[ b := PRun (nextCh st) ]> (phases st)) (successes st))
(* case <-wait: continue *)
| step_wake st b ch :
    phases st !! b = Some (PWait ch) -> ch ∈ closedChs st ->
    cstep st (mkCoalesce (topoLastDeclare st) (topoRedeclareWait st) (closedChs st) (nextCh st)
                         (clock st) (<[ b := PLoop ]> (phases st)) (successes st))
(* case <-ctx.Done() *)
| step_ctx st b ch e :
    phases st !! b = Some (PWait ch) ->
    cstep st (mkCoalesce (topoLastDeclare st) (topoRedeclareWait st) (closedChs st) (nextCh st)
                         (clock st) (<[ b := PDone (Some e) ]> (phases st)) (successes st))
(* runTopologyRedeclare returned *)
| step_finish st b ch now res :
    phases st !! b = Some (PRun ch) -> clock st <= now ->
    cstep st (mkCoalesce (match res with None => Some now | Some _ => topoLastDeclare st end)
                         None ({[ ch ]} ∪ closedChs st) (nextCh st) now
                         (<[ b := PDone res ]> (phases st))
                         (match res with None => now :: successes st | Some _ => successes st end)).

(** ** Invariant *)

Record cinv (st : coalesce) : Prop := {
  ci_owner : ∀ b ch, phases st !! b = Some (PRun ch) -> topoRedeclareWait st = Some ch;
  ci_unique : ∀ b1 b2 c1 c2, phases st !! b1 = Some (PRun c1) -> phases st !! b2 = Some (PRun c2) -> b1 = b2;
  ci_running : ∀ ch, topoRedeclareWait st = Some ch -> ∃ b, phases st !! b = Some (PRun ch);
  ci_wait : ∀ b ch, phases st !! b = Some (PWait ch) -> ch ∈ closedChs st ∨ topoRedeclareWait st = Some ch;
  ci_last : head (successes st) = topoLastDeclare st;
  ci_past : ∀ t, topoLastDeclare st = Some t -> t <= clock st;
  ci_late : ∀ ch t, topoRedeclareWait st = Some ch -> topoLastDeclare st = Some t ->
              topoRedeclareCoalesceWindow <= clock st - t;
  ci_spaced : ∀ pre t1 t2 post, successes st = pre ++ t1 :: t2 :: post ->
                topoRedeclareCoalesceWindow <= t1 - t2
}.

Lemma cinv_init bs : cinv (coalesce_init bs).
Proof.
  constructor; simpl; try done.
  - intros b ch H. by apply lookup_gset_to_gmap_Some in H as [_ H].
  - intros b1 b2 c1 c2 H. by apply lookup_gset_to_gmap_Some in H as [_ H].
  - intros b ch H. by apply lookup_gset_to_gmap_Some in H as [_ H].
  - by intros [|].
Qed.

(** A barrier moves to a phase other than running. *)
Lemma cinv_move st b p0 p last wait clo nch now succ :
  cinv st -> phases st !! b = Some p0 -> (∀ ch, p0 ≠ PRun ch) -> (∀ ch, p ≠ PRun ch) ->
  (∀ ch, p = PWait ch -> topoRedeclareWait st = Some ch) ->
  last = topoLastDeclare st -> wait = topoRedeclareWait st -> clo = closedChs st ->
  succ = successes st -> clock st <= now ->
  cinv (mkCoalesce last wait clo nch now (<[ b := p ]> (phases st)) succ).
Proof.
  intros [] Hb Hp0 Hp Hw -> -> -> -> Hnow. constructor; simpl; auto.
  - intros b' ch H. rewrite lookup_insert in H. case_decide; simplify_eq; [by destruct (Hp ch)|eauto].
  - intros b1 b2 c1 c2 H1 H2. rewrite lookup_insert in H1, H2.
    do 2 case_decide; simplify_eq; try (by edestruct Hp); eauto.
  - intros ch H. destruct (ci_running0 ch H) as [b' Hb']. exists b'.
    rewrite lookup_insert_ne; [done|]. intros <-. by destruct (Hp0 ch); simplify_eq.
  - intros b' ch H. rewrite lookup_insert in H. case_decide; simplify_eq; [right; auto|eauto].
  - intros t H. specialize (ci_past0 t H). lia.
  - intros ch t H1 H2. specialize (ci_late0 ch t H1 H2). lia.
Qed.

Lemma not_recent st now t :
  recent st now = false -> topoLastDeclare st = Some t -> topoRedeclareCoalesceWindow <= now - t.
Proof. unfold recent. intros H E. rewrite E in H. apply bool_decide_eq_false in H. lia. Qed.

Lemma cinv_own st b now :
  cinv st -> phases st !! b = Some PLoop -> clock st <= now -> recent st now = false ->
  topoRedeclareWait st = None ->
  cinv (mkCoalesce (topoLastDeclare st) (Some (nextCh st)) (closedChs st) (S (nextCh st)) now
                   (<[ b := PRun (nextCh st) ]> (phases st)) (successes st)).
Proof.
  intros [] Hb Hnow Hr Hw. constructor; simpl; auto.
  - intros b' ch H. rewrite lookup_insert in H. case_decide; simplify_eq; [done|].
    apply ci_owner0 in H. congruence.
  - intros b1 b2 c1 c2 H1 H2. rewrite lookup_insert in H1, H2. do 2 case_decide; simplify_eq; eauto;
      match goal with H : phases st !! _ = Some (PRun _) |- _ => apply ci_owner0 in H; congruence end.
  - intros ch [= <-]. exists b. apply lookup_insert_eq.
  - intros b' ch H. rewrite lookup_insert in H. case_decide; simplify_eq.
    destruct (ci_wait0 b' ch H); [auto|congruence].
  - intros t H. specialize (ci_past0 t H). lia.
  - intros ch t _ Ht. by eapply not_recent.
Qed.

Lemma cinv_finish st b ch now res :
  cinv st -> phases st !! b = Some (PRun ch) -> clock st <= now ->
  cinv (mkCoalesce (match res with None => Some now | Some _ => topoLastDeclare st end)
                   None ({[ ch ]} ∪ closedChs st) (nextCh st) now (<[ b := PDone res ]> (phases st))
                   (match res with None => now :: successes st | Some _ => successes st end)).
Proof.
  intros [] Hb Hnow. pose proof (ci_owner0 b ch Hb) as Hw. constructor; simpl; auto.
  - intros b' c H. rewrite lookup_insert in H. case_decide; simplify_eq.
    by destruct (ci_unique0 b b' ch c Hb H).
  - intros b1 b2 c1 c2 H1 H2. rewrite lookup_insert in H1, H2. do 2 case_decide; simplify_eq. eauto.
  - done.
  - intros b' c H. rewrite lookup_insert in H. case_decide; simplify_eq.
    left. destruct (ci_wait0 b' c H); [set_solver|]. simplify_eq. set_solver.
  - by destruct res.
  - intros t Ht. destruct res; simplify_eq; [|lia]. specialize (ci_past0 t Ht). lia.
  - done.
  - destruct res; [done|]. intros [|x pre] t1 t2 post E; injection E as -> E'; [|eauto].
    rewrite E' in ci_last0. simpl in ci_last0. symmetry in ci_last0.
    specialize (ci_late0 ch t2 Hw ci_last0). lia.
Qed.

Lemma cinv_step st st' : cinv st -> cstep st st' -> cinv st'.
Proof.
  intros Hi Hs. destruct Hs as [st b now|st b now ch|st b now|st b ch|st b ch e|st b ch now res].
  - by eapply cinv_move with (p0 := PLoop).
  - eapply cinv_move with (p0 := PLoop); eauto; try done. by intros c [= <-].
  - by apply cinv_own.
  - eapply cinv_move with (p0 := PWait ch); eauto; try done.
  - eapply cinv_move with (p0 := PWait ch); eauto; try done.
  - by apply cinv_finish.
Qed.

Lemma cinv_reach bs st : rtc cstep (coalesce_init bs) st -> cinv st.
Proof.
  intros H. remember (coalesce_init bs) as st0.
  assert (cinv st0) as H0 by (subst; apply cinv_init). clear Heqst0.
  induction H; eauto using cinv_step.
Qed.

(** ** Properties *)

(** C30. The redeclare of a recovery wave is coalesced and complete: at most one
    barrier redeclares at a time, two successful redeclares are at least a
    window apart, and a barrier that returns nil does so less than a window
    after a successful redeclare. *)
Theorem redeclare_coalesced bs st st' :
  rtc cstep (coalesce_init bs) st -> cstep st st' ->
  (∀ b1 b2 c1 c2, phases st' !! b1 = Some (PRun c1) -> phases st' !! b2 = Some (PRun c2) -> b1 = b2)
  ∧ (∀ pre t1 t2 post, successes st' = pre ++ t1 :: t2 :: post ->
       topoRedeclareCoalesceWindow <= t1 - t2)
  ∧ (∀ b, phases st !! b ≠ Some (PDone None) -> phases st' !! b = Some (PDone None) ->
       ∃ t, t ∈ successes st' ∧ 0 <= clock st' - t < topoRedeclareCoalesceWindow).
Proof.
  intros Hr Hs. pose proof (cinv_reach bs st Hr) as Hi.
  destruct (cinv_step _ _ Hi Hs) as [_ Hu _ _ _ _ _ Hsp]. split; [exact Hu|]. split; [exact Hsp|].
  destruct Hi as [_ _ _ _ Hl Hp _ _].
  intros b Hb Hb'. destruct Hs as [st a now Ha Hn Hrec|st a now ch|st a now|st a ch|st a ch e|st a ch now res Ha Hn];
    simpl in *; rewrite lookup_insert in Hb'; case_decide; simplify_eq.
  - unfold recent in Hrec. destruct (topoLastDeclare st) as [t|] eqn:E; [|done].
    apply bool_decide_eq_true in Hrec. exists t. specialize (Hp t eq_refl).
    split; [|lia]. destruct (successes st); simplify_eq/=. set_solver.
  - exists now. unfold topoRedeclareCoalesceWindow, second. split; [set_solver|lia].
Qed.

(** No barrier waits for nothing: in every reachable state a barrier in the
    select either can proceed, because its channel is closed, or waits for a
    barrier that is running the redeclare and closes the channel when it ends. *)
Lemma redeclare_waiters_progress bs st b ch :
  rtc cstep (coalesce_init bs) st -> phases st !! b = Some (PWait ch) ->
  (∃ st', cstep st st' ∧ phases st' !! b = Some PLoop)
  ∨ (∃ o, phases st !! o = Some (PRun ch)
       ∧ ∀ now res, clock st <= now ->
           ∃ st', cstep st st' ∧ ch ∈ closedChs st' ∧ phases st' !! o = Some (PDone res)).
Proof.
  intros Hr Hb. destruct (cinv_reach bs st Hr) as [_ _ Hrun Hw _ _ _ _].
  destruct (Hw b ch Hb) as [Hc|Hc].
  - left. eexists. split; [by eapply step_wake|]. simpl. apply lookup_insert_eq.
  - right. destruct (Hrun ch Hc) as [o Ho]. exists o. split; [done|]. intros now res Hn.
    eexists. split; [by eapply (step_finish st o ch now res)|]. simpl.
    split; [set_solver|apply lookup_insert_eq].
Qed.

(** ** Snapshots: lemmas *)

(** Keys and snapshots agree. *)
Definition snaps_ok (s : snapshots) : Prop :=
  NoDup (topoKeys s) ∧ ∀ k, k ∈ topoKeys s <-> is_Some (topoSnaps s !! k).

Lemma AttachTo_ok sprint conns key t s :
  snaps_ok s -> snaps_ok (AttachTo sprint conns key t s).2.
Proof.
  intros [Hn Hk]. unfold AttachTo. destruct (validate sprint t); [|done]. simpl.
  destruct (topoSnaps s !! key) as [x|] eqn:E; split; simpl.
  - done.
  - intros k. rewrite lookup_insert. case_decide; [subst k|apply Hk].
    split; [eauto|]. intros _. apply Hk. eauto.
  - apply NoDup_app. split; [done|]. split; [|apply NoDup_singleton].
    intros k H1 ->%list_elem_of_singleton. apply Hk in H1 as [? H1]. congruence.
  - intros k. rewrite elem_of_app, list_elem_of_singleton, lookup_insert.
    case_decide; [subst; naive_solver|]. rewrite Hk. naive_solver.
Qed.

Lemma redeclare_from_ok ctxErr openErr answer snaps i keys ts :
  redeclare_from ctxErr openErr answer snaps i keys = (ts, None) ->
  ts = (fun k => default (mkTopology [] [] [] [] []) (snaps !! k)) <$> keys.
Proof.
  revert i ts. induction keys as [|k keys IH]; intros i ts; simpl; [by intros [= <-]|].
  repeat (case_match; [done|]).
  destruct (redeclare_from _ _ _ _ (S i) keys) as [ts' res] eqn:E. intros [= <- ->].
  f_equal. by eapply IH.
Qed.

Definition attach_all sprint conns (l : list (nat * Topology)) (s : snapshots) : snapshots :=
  foldl (fun s kt => (AttachTo sprint conns kt.1 kt.2 s).2) s l.

Lemma attach_all_ok sprint conns l s : snaps_ok s -> snaps_ok (attach_all sprint conns l s).
Proof.
  revert s. induction l as [|kt l IH]; intros s Hs; [done|]. simpl. apply IH. by apply AttachTo_ok.
Qed.

Lemma attach_all_last sprint conns l s key t :
  validate sprint t = Ok tt -> (∀ t', (key, t') ∉ l) ->
  topoSnaps (attach_all sprint conns l (AttachTo sprint conns key t s).2) !! key = Some (expand t).
Proof.
  intros Hv Hl.
  assert (topoSnaps (AttachTo sprint conns key t s).2 !! key = Some (expand t)) as H0.
  { unfold AttachTo. rewrite Hv. simpl. apply lookup_insert_eq. }
  revert H0. generalize (AttachTo sprint conns key t s).2 as s'.
  induction l as [|[k t'] l IH]; intros s' H0; [done|]. simpl. apply IH.
  - intros t'' Hin. apply (Hl t''). set_solver.
  - unfold AttachTo. destruct (validate sprint t'); [|done]. simpl.
    rewrite lookup_insert_ne; [done|]. intros ->. apply (Hl t'). set_solver.
Qed.

(** After a reconnect every attached topology is redeclared in its latest
    shape: when [runTopologyRedeclare] returns nil, it has declared, for each
    key in registration order and once each, the expansion of the topology
    last attached under that key. *)
Lemma redeclare_covers_attached sprint conns l1 l2 key t ctxErr openErr answer ts :
  let s := attach_all sprint conns l2 (AttachTo sprint conns key t
             (attach_all sprint conns l1 no_snapshots)).2 in
  validate sprint t = Ok tt -> (∀ t', (key, t') ∉ l2) ->
  runTopologyRedeclare ctxErr openErr answer s = (ts, None) ->
  expand t ∈ ts ∧ length ts = length (topoKeys s) ∧ NoDup (topoKeys s).
Proof.
  cbv zeta. intros Hv Hl Hr. set (s := attach_all sprint conns l2 _) in *.
  assert (snaps_ok s) as [Hn Hk].
  { apply attach_all_ok, AttachTo_ok, attach_all_ok. split; [constructor|].
    intros k. simpl. rewrite lookup_empty. split; [set_solver|]. by intros [? ?]. }
  assert (topoSnaps s !! key = Some (expand t)) as Hkey by by apply attach_all_last.
  apply redeclare_from_ok in Hr. subst ts. split; [|split; [by rewrite length_fmap|done]].
  apply list_elem_of_fmap. exists key. rewrite Hkey. split; [done|]. apply Hk. eauto.
Qed.

(** ** Witnesses *)

Definition one_barrier : coalesce := coalesce_init {[ 7%nat ]}.
Definition owned : coalesce :=
  mkCoalesce None (Some 0%nat) ∅ 1 5 (<[ 7%nat := PRun 0 ]> (phases one_barrier)) [].
Definition finished : coalesce :=
  mkCoalesce (Some 9) None ({[ 0%nat ]} ∪ ∅) 1 9
             (<[ 7%nat := PDone None ]> (<[ 7%nat := PRun 0 ]> (phases one_barrier))) [9].

Lemma own_step : cstep one_barrier owned.
Proof. apply (step_own one_barrier 7 5); [reflexivity|simpl; lia|reflexivity|reflexivity]. Qed.

Lemma finish_step : cstep owned finished.
Proof. apply (step_finish owned 7 0 9 None); [reflexivity|simpl; lia]. Qed.

Lemma redeclare_coalesced_witness :
  ∃ t, t ∈ successes finished ∧ 0 <= clock finished - t < topoRedeclareCoalesceWindow.
Proof.
  apply (redeclare_coalesced {[ 7%nat ]} owned finished) with (b := 7%nat).
  - eapply rtc_l; [exact own_step|apply rtc_refl].
  - exact finish_step.
  - vm_compute. discriminate.
  - reflexivity.
Defined.

Definition two_barriers : coalesce := coalesce_init {[ 1%nat; 2%nat ]}.
Definition two_owned : coalesce :=
  mkCoalesce None (Some 0%nat) ∅ 1 5 (<[ 1%nat := PRun 0 ]> (phases two_barriers)) [].
Definition two_waiting : coalesce :=
  mkCoalesce None (Some 0%nat) ∅ 1 6 (<[ 2%nat := PWait 0 ]> (phases two_owned)) [].

Lemma two_waiting_reach : rtc cstep two_barriers two_waiting.
Proof.
  eapply rtc_l; [apply (step_own two_barriers 1 5); [reflexivity|simpl; lia|reflexivity|reflexivity]|].
  eapply rtc_l; [|apply rtc_refl].
  apply (step_wait two_owned 2 6 0); [reflexivity|simpl; lia|reflexivity|reflexivity].
Qed.

Lemma redeclare_progress_witness :
  (∃ st', cstep two_waiting st' ∧ phases st' !! 2%nat = Some PLoop)
  ∨ (∃ o, phases two_waiting !! o = Some (PRun 0)
       ∧ ∀ now res, clock two_waiting <= now ->
           ∃ st', cstep two_waiting st' ∧ 0%nat ∈ closedChs st' ∧ phases st' !! o = Some (PDone res)).
Proof.
  apply (redeclare_waiters_progress {[ 1%nat; 2%nat ]} two_waiting 2 0);
    [exact two_waiting_reach|reflexivity].
Defined.

Definition accept_all (i : nat) (done : list call) (c : call) : goerror := None.

Lemma redeclare_covers_witness :
  expand orders_topology
  ∈ [expand orders_topology; expand (mkTopology [] [] [] [] [])].
Proof.
  apply (redeclare_covers_attached no_sprint 4 [] [(2%nat, mkTopology [] [] [] [] [])] 1
           orders_topology (fun _ => None) (fun _ => None) accept_all).
  - vm_compute. reflexivity.
  - intros t'. rewrite list_elem_of_singleton. intros [= ? ?].
  - vm_compute. reflexivity.
Defined.
