(* ===== verification/Delivery.v ===== *)
(** * Delivery: the resolved-once acknowledgement

    Models [src/delivery.go].  A delivery is acknowledged by whichever verdict
    wins the compare-and-swap on [resolved]: the handler's [Ack]/[Nack]/[AckIf]
    or the consumer's timeout verdict.  Verdicts may run in different
    goroutines; [vstep] interleaves them at the granularity of the code's
    atomic operations. *)

From S2P Require Import Prelude Errors Values XDeath.

(** ** Data *)

(** An acknowledgement frame as it goes on the wire. *)
Inductive frame : Type :=
| FAck (multiple : bool)
| FNack (multiple requeue : bool).

#[global] Instance frame_eq_dec : EqDecision frame.
Proof. solve_decision. Defined.

(** The immutable part of the broker's delivery the library reads. *)
Record rawDelivery : Type := mkRaw {
  rTag : Z;
  rMessageId : string;
  rCorrelationId : string;
  rHeaders : args;
  rRedelivered : bool;
  rBodyLen : Z
}.

(** The mutable part of [Delivery]: [frames] is the history of frames handed to
    the driver, [notified] counts the calls of [ackNotify].  [tracked] is
    [d.done != nil], [hooked] is [d.ackNotify != nil]. *)
Record Delivery : Type := mkDelivery {
  dRaw : rawDelivery;
  death : XDeathResult;
  tracked : bool;
  hooked : bool;
  resolved : bool;
  frames : list frame;
  notified : nat
}.

Definition newDelivery (queue : string) (raw : rawDelivery) (tracked : bool) : Delivery :=
  mkDelivery raw (ParseXDeath (rHeaders raw) queue) tracked false false [] 0.

Definition DeathCount (d : Delivery) : Z := Count (death d).

Definition set_resolved (d : Delivery) : Delivery :=
  mkDelivery (dRaw d) (death d) (tracked d) (hooked d) true (frames d) (notified d).

Definition send_frame (f : frame) (d : Delivery) : Delivery :=
  mkDelivery (dRaw d) (death d) (tracked d) (hooked d) (resolved d) (frames d ++ [f]) (notified d).

Definition notify (d : Delivery) : Delivery :=
  mkDelivery (dRaw d) (death d) (tracked d) (hooked d) (resolved d) (frames d)
             (if hooked d then S (notified d) else notified d).

(** ** Operations *)

Definition mapAckErr (err : error) : error :=
  if err_is_amqp_closed err then Sentinel ErrChannelClosed else err.

(** The common body of [Ack] and [Nack]: [closed] tells whether [d.done] is
    closed, [sendErr] is what the driver returns for the frame. *)
Definition verdict (f : frame) (closed : bool) (sendErr : goerror) (d : Delivery)
  : goerror * Delivery :=
  if tracked d && closed then (Some (Sentinel ErrAlreadyClosed), d)
  else if resolved d then (Some (Sentinel ErrAlreadyResolved), d)
  else
    let d1 := send_frame f (set_resolved d) in
    match sendErr with
    | Some err => (Some (mapAckErr err), d1)
    | None => (None, notify d1)
    end.

Definition Ack : bool -> goerror -> Delivery -> goerror * Delivery := verdict (FAck false).

Definition Nack (requeue : bool) : bool -> goerror -> Delivery -> goerror * Delivery :=
  verdict (FNack false requeue).

Definition nackOnTimeout (requeue : bool) (d : Delivery) : Delivery :=
  if resolved d then d else send_frame (FNack false requeue) (set_resolved d).

Definition AckIf (handlerErr : goerror) (closed : bool) (sendErr : goerror) (d : Delivery)
  : goerror * Delivery :=
  match handlerErr with
  | None => Ack closed sendErr d
  | Some _ => Nack (errors_is handlerErr ErrRequeue) closed sendErr d
  end.

(** The frame [AckIf] sends for a handler's result. *)
Definition verdict_frame (handlerErr : goerror) : frame :=
  match handlerErr with
  | None => FAck false
  | Some _ => FNack false (errors_is handlerErr ErrRequeue)
  end.

(** ** Concurrent verdicts *)

(** The program counter of a goroutine that runs a verdict with frame [f];
    [timeout] marks [nackOnTimeout], which skips the test of [d.done]. *)
Inductive vphase : Type :=
| VTest (f : frame) (timeout : bool)
| VSwap (f : frame) (timeout : bool)
| VSend (f : frame) (timeout : bool)
| VEnd (res : goerror).

(** One atomic operation of one goroutine. *)
Definition vexec (p : vphase) (closed : bool) (sendErr : goerror) (d : Delivery)
  : vphase * Delivery :=
  match p with
  | VTest f to =>
      if negb to && tracked d && closed then (VEnd (Some (Sentinel ErrAlreadyClosed)), d)
      else (VSwap f to, d)
  | VSwap f to =>
      if resolved d
      then (VEnd (if to then None else Some (Sentinel ErrAlreadyResolved)), d)
      else (VSend f to, set_resolved d)
  | VSend f to =>
      (VEnd (if to then None else mapAckErr <$> sendErr),
       let d1 := send_frame f d in
       match sendErr with Some _ => d1 | None => if to then d1 else notify d1 end)
  | VEnd r => (VEnd r, d)
  end.

Inductive vstep : (list vphase * Delivery) -> (list vphase * Delivery) -> Prop :=
| vstep_run gs1 p gs2 d closed sendErr p' d' :
    vexec p closed sendErr d = (p', d') ->
    vstep (gs1 ++ p :: gs2, d) (gs1 ++ p' :: gs2, d').

(** ** Lemmas *)

Definition sending (p : vphase) : bool := match p with VSend _ _ => true | _ => false end.

Definition senders (gs : list vphase) : nat := length (filter (fun p => sending p = true) gs).

(** A frame is sent or about to be sent only by the winner of the swap. *)
Definition vinv (st : list vphase * Delivery) : Prop :=
  (length (frames st.2) + senders st.1 = if resolved st.2 then 1 else 0)%nat.

Lemma senders_app gs1 gs2 : senders (gs1 ++ gs2) = (senders gs1 + senders gs2)%nat.
Proof. unfold senders. by rewrite filter_app, length_app. Qed.

Lemma senders_cons p gs : senders (p :: gs) = ((if sending p then 1 else 0) + senders gs)%nat.
Proof. unfold senders. rewrite filter_cons. destruct (sending p); case_decide; done. Qed.

Lemma vinv_step st st' : vinv st -> vstep st st' -> vinv st'.
Proof.
  unfold vinv. intros Hi Hs. destruct Hs as [gs1 p gs2 d closed sendErr p' d' He]. simpl in *.
  rewrite senders_app, senders_cons in *.
  destruct p as [f to|f to|f to|r]; simpl in He, Hi.
  - case_match; simplify_eq/=; lia.
  - destruct (resolved d) eqn:E; simplify_eq/=; rewrite ?E; lia.
  - simplify_eq/=. destruct sendErr; [|destruct to]; simpl; rewrite length_app; simpl; lia.
  - simplify_eq/=. lia.
Qed.

Lemma vinv_start gs d :
  resolved d = false -> frames d = [] -> senders gs = 0%nat -> vinv (gs, d).
Proof. intros H1 H2 H3. unfold vinv. simpl. rewrite H1, H2, H3. done. Qed.

(** ** Properties *)

(** C11. Resolved once: however the goroutines of a delivery interleave their
    verdicts, at most one acknowledgement frame is ever sent for it, and none
    can follow once every goroutine has ended. *)
Theorem delivery_resolved_once gs d st :
  resolved d = false -> frames d = [] ->
  Forall (fun p => ∃ f to, p = VTest f to) gs ->
  rtc vstep (gs, d) st -> (length (frames st.2) <= 1)%nat.
Proof.
  intros Hr Hf Hg Hs. assert (vinv (gs, d)) as H0.
  { apply vinv_start; auto. clear -Hg. induction Hg as [|p gs (f & to & ->) _ IH]; [done|].
    by rewrite senders_cons. }
  assert (vinv st) as Hi by (clear -H0 Hs; induction Hs; eauto using vinv_step).
  unfold vinv in Hi. destruct (resolved st.2); lia.
Qed.

(** A verdict is what it says: on an unresolved delivery of an open consumer
    [AckIf] sends exactly the frame of the handler's result and marks the
    delivery resolved; every later verdict, of any kind, sends nothing and a
    public one returns [ErrAlreadyResolved]. *)
Lemma AckIf_first_verdict_wins handlerErr sendErr d later requeue sendErr' :
  resolved d = false ->
  let d1 := (AckIf handlerErr false sendErr d).2 in
  frames d1 = frames d ++ [verdict_frame handlerErr]
  ∧ AckIf later false sendErr' d1 = (Some (Sentinel ErrAlreadyResolved), d1)
  ∧ nackOnTimeout requeue d1 = d1.
Proof.
  intros Hr. cbv zeta.
  assert (∀ f, frames (verdict f false sendErr d).2 = frames d ++ [f]
    ∧ resolved (verdict f false sendErr d).2 = true) as Hv.
  { intros f. unfold verdict. rewrite andb_false_r, Hr. destruct sendErr; done. }
  assert (∀ d1, resolved d1 = true ->
    AckIf later false sendErr' d1 = (Some (Sentinel ErrAlreadyResolved), d1)
    ∧ nackOnTimeout requeue d1 = d1) as Hl.
  { intros d1 H1. split.
    - destruct later; simpl; unfold Ack, Nack, verdict; by rewrite andb_false_r, H1.
    - unfold nackOnTimeout. by rewrite H1. }
  destruct handlerErr as [e|]; simpl.
  - destruct (Hv (FNack false (err_is e ErrRequeue))) as [H1 H2]. split; [exact H1|]. by apply Hl.
  - destruct (Hv (FAck false)) as [H1 H2]. split; [exact H1|]. by apply Hl.
Qed.

(** ** Witnesses *)

Definition sample_raw : rawDelivery := mkRaw 7 "m-1" "" None false 10.
Definition sample_delivery : Delivery := newDelivery "orders" sample_raw true.

(** A handler's ack and the timeout verdict race; the timeout wins the swap. *)
Lemma resolved_once_witness :
  ∃ st, rtc vstep ([VTest (FAck false) false; VTest (FNack false false) true], sample_delivery) st
    ∧ frames st.2 = [FNack false false] ∧ (length (frames st.2) <= 1)%nat.
Proof.
  set (gs := [VTest (FAck false) false; VTest (FNack false false) true]).
  set (d1 := send_frame (FNack false false) (set_resolved sample_delivery)).
  set (st := ([VSwap (FAck false) false; VEnd None], d1)).
  assert (rtc vstep (gs, sample_delivery) st) as Hr.
  { eapply rtc_l; [apply (vstep_run [] _ [VTest (FNack false false) true] _ false None); reflexivity|].
    eapply rtc_l; [apply (vstep_run [VSwap (FAck false) false] _ [] _ false None); reflexivity|].
    eapply rtc_l; [apply (vstep_run [VSwap (FAck false) false] _ [] _ false None); reflexivity|].
    eapply rtc_l; [apply (vstep_run [VSwap (FAck false) false] _ [] _ false None); reflexivity|].
    apply rtc_refl. }
  exists st. split; [exact Hr|]. split; [reflexivity|].
  apply (delivery_resolved_once gs sample_delivery st); [reflexivity|reflexivity| |exact Hr].
  repeat constructor; eauto.
Defined.

Lemma AckIf_witness :
  frames (AckIf (Some (Sentinel ErrRequeue)) false None sample_delivery).2 = [FNack false true].
Proof.
  apply (AckIf_first_verdict_wins (Some (Sentinel ErrRequeue)) None sample_delivery None true None).
  reflexivity.
Defined.
