(* ===== verification/Consumer.v ===== *)
(** * Consumer: dispatching one delivery

    Models, of [src/consumer.go], what happens to one delivery: decoding, the
    two redelivery counters, the handler with its timeout, the dedupe
    middleware, and the verdict with the metrics and span outcome it records.

    [dispatch] is a function of an environment that makes the choices the
    runtime makes: what the codec and the handler do, which case of the select
    fires, whether the channel or the consumer was closed.  Its result is the
    sequence of observable events and the delivery with the frames sent. *)

From Stdlib Require Import Ascii.
From S2P Require Import Prelude Errors Values XDeath Limiters Delivery.

(** ** Keys of the in-process redelivery counter *)

Definition maxMsgIDKeyLen : nat := 512.
Definition maxConsumerTagKeyLen : nat := 256.

(** [utf8.RuneStart]: not a continuation byte. *)
Definition rune_start (c : ascii) : bool :=
  negb (bool_decide (Z.land (Z.of_N (N_of_ascii c)) 192 = 128)).

(** The backwards walk from [n]. *)
Fixpoint step_back (s : string) (n : nat) : nat :=
  match n with
  | O => O
  | S m =>
      match String.get n s with
      | Some c => if rune_start c then n else step_back s m
      | None => n
      end
  end.

Definition truncateAtRuneBoundary (s : string) (n : nat) : string :=
  if decide (String.length s <= n)%nat then s else String.substring 0 (step_back s n) s.

Definition counterBKeyForMsgID (msgID : string) : string :=
  let id := if decide (maxMsgIDKeyLen < String.length msgID)%nat
            then truncateAtRuneBoundary msgID maxMsgIDKeyLen else msgID in
  if decide (id = ""%string) then ""%string else ("mid:" +:+ id)%string.

Definition counterBKeyForDeliveryTag (consumerTag : string) (deliveryTag : Z) : string :=
  let tag := if decide (maxConsumerTagKeyLen < String.length consumerTag)%nat
             then truncateAtRuneBoundary consumerTag maxConsumerTagKeyLen else consumerTag in
  ("dlv:" +:+ tag +:+ ":" +:+ pretty deliveryTag)%string.

(** ** Labels *)

Definition outcomeAck : string := "ack".
Definition outcomeNackRequeue : string := "nack_requeue".
Definition outcomeNackNoRequeue : string := "nack_no_requeue".
Definition outcomeMaxRedeliveries : string := "max_redeliveries".
Definition outcomeTimeout : string := "timeout".
Definition outcomeChannelClosed : string := "handler_aborted_channel_closed".

Definition consumeVerdictOutcome (err : goerror) : string :=
  match err with
  | None => outcomeAck
  | Some _ =>
      if errors_is err ErrMaxRedeliveries then outcomeMaxRedeliveries
      else if errors_is err ErrRequeue then outcomeNackRequeue
      else outcomeNackNoRequeue
  end.

Definition consumeErrorType (err : error) : string :=
  if err_is err ErrMaxRedeliveries then "ErrMaxRedeliveries"
  else if err_is err ErrRequeue then "ErrRequeue"
  else if err_is err ErrPoison then "ErrPoison"
  else if err_is err ErrChannelClosed then "ErrChannelClosed"
  else if err_is err ContextDeadlineExceeded then "DeadlineExceeded"
  else "error".

Definition handlerOutcome (err : goerror) : string :=
  match err with
  | None => "ack"
  | Some _ => if errors_is err ErrRequeue then "nack_requeue" else "nack_no_requeue"
  end.

(** ** Configuration, environment, events *)

Record config : Type := mkConfig {
  cQueue : string;
  cTag : string;
  brokerAutoAck : bool;
  handlerTimeout : Z;
  timeoutVerdict : TimeoutVerdict;
  maxRedeliveries : Z;
  counterBDisabled : bool;
  knownHasDLX : bool
}.

Inductive event : Type :=
| EInvoke                                    (* the handler is called *)
| EHandlerMetric (outcome : string)          (* consumer_handler_seconds *)
| EMaxRedeliveries (cause : string)
| EDropNoDLX
| EWarnMaxRedeliveries (cause : string)
| EAborted                                   (* handler_aborted_channel_closed *)
| ETimeout                                   (* handler_timeout *)
| EDropLog (errType : string) (total : Z)    (* sampled AutoAck warning *)
| ESpan (outcome : string) (errType : option string).

(** What the codec, the handler and the raw handler's own verdict calls do. *)
Inductive decode_outcome : Type := DOk | DErr (e : error) | DPanic.
Inductive handler_outcome : Type := HReturn (err : goerror) | HPanic.
Record vcall : Type := mkCall { vFrame : frame; vClosed : bool; vSendErr : goerror }.

(** Why the handler's context is done. *)
Inductive ctx_cause : Type := HandlerTimeoutFired | OuterCancelled | OuterDeadline.

(** The case of the select on the timeout path. *)
Inductive race : Type := RHandler | RChanDone | RCtxDone (cause : ctx_cause).

Record env : Type := mkEnv {
  eDecode : decode_outcome;
  eHandler : handler_outcome;
  eCalls : list vcall;        (* verdicts a raw handler gives before the select *)
  eLateCalls : list vcall;    (* and after it, when it is still running *)
  eChanClosed : bool;         (* the non-blocking test of chanDone *)
  eRace : race;
  eClosed : bool;             (* closedCh is closed when the verdict is applied *)
  eSendErr : goerror          (* the driver's answer to the verdict's frame *)
}.

(** ** Helpers of dispatch *)

Definition safeDecodeConsumer (o : decode_outcome) : goerror :=
  match o with
  | DOk => None
  | DErr e => Some e
  | DPanic => Some (Wrap [Sentinel ErrInvalidMessage])
  end.

(** A recovered panic is a fresh error that wraps nothing. *)
Definition handler_panic : error := OtherError 0.

Definition safeCallHandler (o : handler_outcome) : goerror :=
  match o with HReturn err => err | HPanic => Some handler_panic end.

(** [finishConsumeSpan]. *)
Definition finishConsumeSpan (outcome : string) (err : goerror) : event :=
  ESpan outcome (consumeErrorType <$> err).

Definition recordPoisonDropNoDLX (c : config) : list event :=
  if knownHasDLX c then [] else [EDropNoDLX].

Definition logAutoAckDrop (err : error) (s : dropSampler) : list event * dropSampler :=
  let '(emit, total, s') := sample s in
  (if emit : bool then [EDropLog (consumeErrorType err) total] else [], s').

Definition run_calls (cs : list vcall) (d : Delivery) : Delivery :=
  foldl (fun d c => (verdict (vFrame c) (vClosed c) (vSendErr c) d).2) d cs.

(** ** Counter B *)

(** [redeliveryCounter]: the contents of its map. *)
Abbreviation redeliveryCounter := (gmap string Z).

(** [load]: 0 when the key is absent. *)
Definition load (cs : redeliveryCounter) (key : string) : Z := default 0 (cs !! key).

(** [None] for the counter is a nil pointer. *)
Definition applyCounterB (c : config) (cs : option redeliveryCounter) (key : string)
    (handlerErr : goerror) : list event * option redeliveryCounter * goerror :=
  match cs with
  | None => ([], None, handlerErr)
  | Some m =>
      if decide (key = ""%string) then ([], cs, handlerErr)
      else if negb (errors_is handlerErr ErrRequeue)
      then ([], Some (delete key m), handlerErr)
      else
        let currentCount := load m key in
        if decide (maxRedeliveries c < wrap_signed 64 (currentCount + 1))
        then ([EMaxRedeliveries "in-process"] ++ recordPoisonDropNoDLX c
                ++ [EWarnMaxRedeliveries "in-process"],
              Some (delete key m), Some (Wrap [Sentinel ErrMaxRedeliveries]))
        else ([], Some (<[ key := wrap_signed 64 (currentCount + 1) ]> m), handlerErr)
  end.

(** The counter and key captured at the start of [dispatch]. *)
Definition counterB_start (c : config) (autoAck : bool) (raw : rawDelivery)
    (state : redeliveryCounter) : option redeliveryCounter * string :=
  if autoAck && negb (brokerAutoAck c) && bool_decide (0 < maxRedeliveries c)
     && negb (counterBDisabled c)
  then
    let key := if decide (rMessageId raw = ""%string) then ""%string
               else counterBKeyForMsgID (rMessageId raw) in
    (Some state,
     if decide (key = ""%string) then counterBKeyForDeliveryTag (cTag c) (rTag raw) else key)
  else (None, ""%string).

(** ** settleVerdict *)

Definition settleVerdict (c : config) (autoAck : bool) (e : env) (cs : option redeliveryCounter)
    (key : string) (handlerErr : goerror) (s : dropSampler) (d : Delivery)
  : list event * Delivery * option redeliveryCounter * dropSampler :=
  if brokerAutoAck c then
    let '(log, s') := match handlerErr with
                      | Some err => logAutoAckDrop err s
                      | None => ([], s)
                      end in
    ([EHandlerMetric (handlerOutcome handlerErr);
      finishConsumeSpan (consumeVerdictOutcome handlerErr) handlerErr] ++ log, d, cs, s')
  else if autoAck then
    let '(evs, cs', processedErr) := applyCounterB c cs key handlerErr in
    (evs ++ [EHandlerMetric (handlerOutcome processedErr);
             finishConsumeSpan (consumeVerdictOutcome processedErr) processedErr],
     (AckIf processedErr (eClosed e) (eSendErr e) d).2, cs', s)
  else
    ([EHandlerMetric "raw"; finishConsumeSpan (consumeVerdictOutcome handlerErr) handlerErr],
     d, cs, s).

(** ** dispatch *)

(** [hCtx.Err()]: a derived context reports the error of the parent that ended
    first, or its own deadline. *)
Definition hctx_err (cause : ctx_cause) : error :=
  match cause with
  | HandlerTimeoutFired | OuterDeadline => Sentinel ContextDeadlineExceeded
  | OuterCancelled => Sentinel ContextCanceled
  end.

(** The branch of a handler that has returned. *)
Definition handler_returned (c : config) (autoAck : bool) (e : env) (cs : option redeliveryCounter)
    (key : string) (s : dropSampler) (d : Delivery)
  : list event * Delivery * option redeliveryCounter * dropSampler :=
  let handlerErr := safeCallHandler (eHandler e) in
  match eChanClosed e, handlerErr with
  | true, Some _ =>
      ([EAborted; EHandlerMetric "channel_closed";
        finishConsumeSpan outcomeChannelClosed (Some (Sentinel ErrChannelClosed))], d, cs, s)
  | _, _ => settleVerdict c autoAck e cs key handlerErr s d
  end.

(** The branch of [hCtx.Done()]. *)
Definition context_done (c : config) (cause : ctx_cause) (d : Delivery) : list event * Delivery :=
  if err_is (hctx_err cause) ContextDeadlineExceeded then
    let '(label, d1) :=
      if brokerAutoAck c then ("timeout_nack_no_requeue"%string, d)
      else if decide (timeoutVerdict c = TimeoutNackRequeue)
      then ("timeout_nack_requeue"%string, nackOnTimeout true d)
      else ("timeout_nack_no_requeue"%string, nackOnTimeout false d) in
    ([ETimeout; EHandlerMetric label;
      finishConsumeSpan outcomeTimeout (Some (Sentinel ContextDeadlineExceeded))], d1)
  else ([], d).

Definition dispatch (c : config) (autoAck : bool) (e : env) (raw : rawDelivery)
    (state : redeliveryCounter) (s : dropSampler)
  : list event * Delivery * option redeliveryCounter * dropSampler :=
  let d := newDelivery (cQueue c) raw true in
  match safeDecodeConsumer (eDecode e) with
  | Some err =>
      if brokerAutoAck c then
        let '(log, s') := logAutoAckDrop err s in
        ([EHandlerMetric "decode_error"] ++ log, d, None, s')
      else ([EHandlerMetric "decode_error"], send_frame (FNack false false) d, None, s)
  | None =>
      if negb (brokerAutoAck c) && bool_decide (0 < maxRedeliveries c)
         && bool_decide (maxRedeliveries c <= DeathCount d)
      then
        ([EMaxRedeliveries "x-death"] ++ recordPoisonDropNoDLX c
           ++ [EWarnMaxRedeliveries "x-death";
               finishConsumeSpan outcomeMaxRedeliveries (Some (Sentinel ErrMaxRedeliveries))],
         send_frame (FNack false false) d, None, s)
      else
        let '(cs, key) := counterB_start c autoAck raw state in
        let d1 := run_calls (eCalls e) d in
        let '(evs, d2, cs', s') :=
          if decide (handlerTimeout c = 0) then handler_returned c autoAck e cs key s d1
          else
            match eRace e with
            | RHandler => handler_returned c autoAck e cs key s d1
            | RChanDone =>
                ([EAborted; EHandlerMetric "channel_closed";
                  finishConsumeSpan outcomeChannelClosed (Some (Sentinel ErrChannelClosed))],
                 run_calls (eLateCalls e) d1, cs, s)
            | RCtxDone cause =>
                let '(evs, d2) := context_done c cause d1 in
                (evs, run_calls (eLateCalls e) d2, cs, s)
            end in
        (EInvoke :: evs, d2, cs', s')
  end.

(** ** Dedupe *)

(** The interface [DedupeStore]: its two calls, on the store's state. *)
Class DedupeStore (S : Type) : Type := {
  Seen : string -> S -> result error bool * S;
  Mark : string -> Z -> S -> goerror * S
}.

(** What the documentation of the interface promises: [Seen] reports only ids
    that [Mark] recorded.  [recorded] is the set of ids [Mark] has been called
    with; nothing is promised about errors, expiry or concurrent users. *)
Class DedupeStoreLaws (S : Type) `{DedupeStore S} (recorded : S -> gset string) : Prop := {
  seen_recorded : ∀ id s, (Seen id s).1 = Ok true -> id ∈ recorded s;
  seen_records_nothing : ∀ id s, recorded (Seen id s).2 ⊆ recorded s;
  mark_records : ∀ id ttl s, recorded (Mark id ttl s).2 ⊆ {[ id ]} ∪ recorded s
}.

(** One pass of the handler [wrapDedupe] builds: the error it returns, whether
    the wrapped handler ran, and how many fail-open warnings went to the
    sampler. *)
Record dedupe_pass : Type := mkPass {
  pErr : goerror;
  pRan : bool;
  pFailOpen : nat
}.

Section dedupe.
  Context {S : Type} `{DedupeStore S}.

(** [next] is what the wrapped handler would return. *)
Definition wrapDedupe (ttl : Z) (id : string) (next : goerror) (s : S) : dedupe_pass * S :=
  if decide (id = ""%string) then (mkPass next true 0, s)
  else
    let '(seen, s1) := Seen id s in
    match seen with
    | Err _ => (mkPass next true 1, s1)
    | Ok true => (mkPass None false 0, s1)
    | Ok false =>
        match next with
        | Some err => (mkPass (Some err) true 0, s1)
        | None =>
            let '(err, s2) := Mark id ttl s1 in
            (mkPass None true (match err with Some _ => 1 | None => 0 end), s2)
        end
    end.

(** The passes over a sequence of deliveries. *)
Fixpoint dedupe_run (ttl : Z) (l : list (string * goerror)) (s : S) : list dedupe_pass :=
  match l with
  | [] => []
  | (id, next) :: r => let '(p, s') := wrapDedupe ttl id next s in p :: dedupe_run ttl r s'
  end.
End dedupe.

(** An in-memory store: a set of ids, as tests use it. *)
#[export] Instance memory_store : DedupeStore (gset string) := {|
  Seen id s := (Ok (bool_decide (id ∈ s)), s);
  Mark id _ s := (None, {[ id ]} ∪ s)
|}.

#[export] Instance memory_store_laws : DedupeStoreLaws (gset string) (fun s => s).
Proof.
  constructor; simpl.
  - intros id s [= E]. by apply bool_decide_eq_true in E.
  - set_solver.
  - set_solver.
Qed.

(** A store that is down. *)
#[export] Instance broken_store : DedupeStore unit := {|
  Seen _ s := (Err (OtherError 2), s);
  Mark _ _ s := (Some (OtherError 2), s)
|}.

(** ** Connection pinning *)

(** The FNV-1a loop of [connIndexForTag]. *)
Fixpoint fnv1a (h : Z) (s : string) : Z :=
  match s with
  | EmptyString => h
  | String c r =>
      fnv1a (wrap_unsigned 32 (Z.lxor h (Z.of_N (N_of_ascii c)) * 16777619)) r
  end.

Definition connIndexForTag (tag : string) (n : Z) : Z :=
  if decide (n <= 1) then 0 else fnv1a 2166136261 tag mod n.

(** [connpool.PinIndex]: the same index by way of [hash/fnv], whose [Write]
    folds the bytes into a 32-bit state. *)
Definition fnv_write (h : Z) (bytes : list ascii) : Z :=
  foldl (fun h c => wrap_unsigned 32 (Z.lxor h (Z.of_N (N_of_ascii c)) * 16777619)) h bytes.

Definition PinIndex (tag : string) (n : Z) : Z :=
  if decide (n <= 1) then 0 else fnv_write 2166136261 (String.list_ascii_of_string tag) mod n.

(** ** Lemmas: frames *)

(** A delivery that has sent a frame is resolved. *)
Definition frame_inv (d : Delivery) : Prop :=
  (length (frames d) <= if resolved d then 1 else 0)%nat.

Lemma frame_inv_verdict f closed sendErr d : frame_inv d -> frame_inv (verdict f closed sendErr d).2.
Proof.
  unfold frame_inv, verdict. intros H. destruct (tracked d && closed); [done|].
  destruct (resolved d) eqn:E; simpl; [by rewrite E|].
  destruct sendErr; simpl; rewrite length_app; simpl; lia.
Qed.

Lemma frame_inv_AckIf herr closed sendErr d : frame_inv d -> frame_inv (AckIf herr closed sendErr d).2.
Proof. intros H. destruct herr; by apply frame_inv_verdict. Qed.

Lemma frame_inv_timeout r d : frame_inv d -> frame_inv (nackOnTimeout r d).
Proof.
  unfold frame_inv, nackOnTimeout. intros H. destruct (resolved d) eqn:E; [by rewrite E|].
  simpl. rewrite length_app. simpl. lia.
Qed.

Lemma frame_inv_calls cs d : frame_inv d -> frame_inv (run_calls cs d).
Proof.
  revert d. induction cs as [|x cs IH]; intros d H; [done|]. simpl. apply IH. by apply frame_inv_verdict.
Qed.

Lemma frame_inv_new q raw t : frame_inv (newDelivery q raw t).
Proof. unfold frame_inv. simpl. lia. Qed.

Lemma frame_inv_le d : frame_inv d -> (length (frames d) <= 1)%nat.
Proof. unfold frame_inv. destruct (resolved d); lia. Qed.

#[local] Hint Resolve frame_inv_verdict frame_inv_AckIf frame_inv_timeout frame_inv_calls
  frame_inv_new : warren.

Lemma frame_inv_settle c autoAck e cs key herr s d :
  frame_inv d -> frame_inv (settleVerdict c autoAck e cs key herr s d).1.1.2.
Proof.
  intros H. unfold settleVerdict. destruct (brokerAutoAck c).
  - destruct herr; [|done]. by destruct (logAutoAckDrop e0 s).
  - destruct autoAck; [|done]. destruct (applyCounterB c cs key herr) as [[evs cs'] perr]. simpl.
    auto with warren.
Qed.

Lemma frame_inv_returned c autoAck e cs key s d :
  frame_inv d -> frame_inv (handler_returned c autoAck e cs key s d).1.1.2.
Proof.
  intros H. unfold handler_returned.
  destruct (eChanClosed e), (safeCallHandler (eHandler e)); try done; by apply frame_inv_settle.
Qed.

Lemma frame_inv_context c cause d : frame_inv d -> frame_inv (context_done c cause d).2.
Proof.
  intros H. unfold context_done. case_match; [|done]. destruct (brokerAutoAck c); [done|].
  case_decide; simpl; auto with warren.
Qed.

(** ** Lemmas: the manual-ack Consume path *)

Lemma AckIf_frame herr sendErr d :
  tracked d = true -> resolved d = false ->
  frames (AckIf herr false sendErr d).2 = frames d ++ [verdict_frame herr].
Proof.
  intros Ht Hr. destruct herr; simpl; unfold Ack, Nack, verdict; rewrite andb_false_r, Hr;
    by destruct sendErr.
Qed.

(** An ack is the verdict of a nil error only. *)
Lemma verdict_frame_ack herr m : verdict_frame herr = FAck m -> herr = None.
Proof. by destruct herr. Qed.

Lemma applyCounterB_nil c cs key herr evs cs' :
  applyCounterB c cs key herr = (evs, cs', None) -> herr = None.
Proof. unfold applyCounterB. repeat case_match; intros; by simplify_eq. Qed.

Lemma AckIf_acks herr closed sendErr d m :
  frames d = [] -> FAck m ∈ frames (AckIf herr closed sendErr d).2 -> herr = None.
Proof.
  intros Hf. destruct herr as [err|]; [|done]. simpl. unfold Nack, verdict.
  destruct (tracked d && closed); [|destruct (resolved d); [|destruct sendErr]];
    simpl; rewrite Hf; set_solver.
Qed.

Lemma settle_ack c e cs key herr s d m :
  brokerAutoAck c = false -> frames d = [] ->
  FAck m ∈ frames (settleVerdict c true e cs key herr s d).1.1.2 -> herr = None.
Proof.
  intros Hb Hf. unfold settleVerdict. rewrite Hb.
  destruct (applyCounterB c cs key herr) as [[evs cs'] perr] eqn:E. simpl.
  intros H. apply AckIf_acks in H; [|done]. subst perr. by eapply applyCounterB_nil.
Qed.

(** A handler that returns nil is not nacked: counter B leaves a nil alone. *)
Lemma settle_nack c e cs key s d m rq :
  brokerAutoAck c = false -> frames d = [] ->
  FNack m rq ∉ frames (settleVerdict c true e cs key (safeCallHandler (HReturn None)) s d).1.1.2.
Proof.
  intros Hb Hf. unfold settleVerdict. rewrite Hb. simpl.
  assert ((applyCounterB c cs key None).2 = None) as Hn.
  { unfold applyCounterB. destruct cs; [|done]. by case_decide. }
  destruct (applyCounterB c cs key None) as [[evs cs'] perr]. simpl in *. subst perr. simpl.
  unfold Ack, verdict. repeat case_match; simpl; rewrite ?Hf; set_solver.
Qed.

Lemma context_no_ack c cause d m : frames d = [] -> FAck m ∉ frames (context_done c cause d).2.
Proof.
  intros Hf. unfold context_done, nackOnTimeout.
  repeat case_match; simplify_eq/=; rewrite ?Hf; set_solver.
Qed.

(** ** Lemmas: counter B *)

Lemma load_insert cs key n : load (<[ key := n ]> cs) key = n.
Proof. unfold load. by rewrite lookup_insert_eq. Qed.

(** The verdicts of consecutive deliveries under one key. *)
Fixpoint counterB_run (c : config) (cs : redeliveryCounter) (key : string) (errs : list goerror)
  : list goerror * redeliveryCounter :=
  match errs with
  | [] => ([], cs)
  | err :: r =>
      let '(_, cs', res) := applyCounterB c (Some cs) key err in
      let '(out, cs'') := counterB_run c (default cs cs') key r in
      (res :: out, cs'')
  end.

Lemma counterB_requeue c cs key :
  key ≠ ""%string -> 0 <= load cs key < maxInt64 ->
  applyCounterB c (Some cs) key (Some (Sentinel ErrRequeue))
  = if decide (maxRedeliveries c < load cs key + 1)
    then ([EMaxRedeliveries "in-process"] ++ recordPoisonDropNoDLX c
            ++ [EWarnMaxRedeliveries "in-process"],
          Some (delete key cs), Some (Wrap [Sentinel ErrMaxRedeliveries]))
    else ([], Some (<[ key := load cs key + 1 ]> cs), Some (Sentinel ErrRequeue)).
Proof.
  intros Hk Hr. unfold applyCounterB. rewrite decide_False by done. simpl negb. cbv iota.
  rewrite wrap64_id; [done|]. unfold minInt64, maxInt64 in *. lia.
Qed.

Lemma counterB_climb c key k cs :
  key ≠ ""%string -> 0 <= load cs key -> load cs key + Z.of_nat k <= maxRedeliveries c ->
  maxRedeliveries c < maxInt64 ->
  ∃ cs', counterB_run c cs key (replicate k (Some (Sentinel ErrRequeue)))
           = (replicate k (Some (Sentinel ErrRequeue)), cs')
         ∧ load cs' key = load cs key + Z.of_nat k
         ∧ ∀ key', key' ≠ key -> cs' !! key' = cs !! key'.
Proof.
  intros Hk. revert cs. induction k as [|k IH]; intros cs H0 Hle Hmax.
  - exists cs. split; [done|]. split; [simpl; lia|done].
  - simpl replicate. cbn [counterB_run]. rewrite counterB_requeue by (done || lia).
    rewrite decide_False by lia. simpl default.
    destruct (IH (<[ key := load cs key + 1 ]> cs)) as (cs' & -> & Hl & Ho);
      rewrite ?load_insert in *; try lia.
    exists cs'. split; [done|]. split; [lia|]. intros key' Hne. rewrite Ho by done.
    by rewrite lookup_insert_ne.
Qed.

Lemma counterB_run_app c cs key e1 e2 :
  counterB_run c cs key (e1 ++ e2)
  = let '(o1, cs1) := counterB_run c cs key e1 in
    let '(o2, cs2) := counterB_run c cs1 key e2 in (o1 ++ o2, cs2).
Proof.
  revert cs. induction e1 as [|x e1 IH]; intros cs; cbn [app counterB_run];
    [by destruct (counterB_run c cs key e2)|].
  destruct (applyCounterB c (Some cs) key x) as [[evs cs'] res]. rewrite IH.
  destruct (counterB_run c _ key e1) as [o1 cs1]. by destruct (counterB_run c cs1 key e2).
Qed.

(** ** Lemmas: keys *)

Lemma step_back_le s n : (step_back s n <= n)%nat.
Proof. induction n as [|n IH]; simpl; [lia|]. repeat case_match; lia. Qed.

(** The cut falls on the first byte of a rune, or on nothing. *)
Lemma step_back_boundary s n c :
  (n < String.length s)%nat -> step_back s n ≠ 0%nat -> String.get (step_back s n) s = Some c ->
  rune_start c = true.
Proof.
  intros Hn. induction n as [|n IH]; simpl; [done|]. intros H0 Hg.
  destruct (String.get (S n) s) as [c'|] eqn:E.
  - destruct (rune_start c') eqn:Er; [|apply IH; auto; lia].
    rewrite E in Hg. by injection Hg as <-.
  - rewrite E in Hg. done.
Qed.

Lemma substring_length n s : (n <= String.length s)%nat -> String.length (String.substring 0 n s) = n.
Proof.
  revert n. induction s as [|c s IH]; intros [|n] H; simpl in *; try done; try lia. f_equal. apply IH. lia.
Qed.

Lemma truncate_length s n : (String.length (truncateAtRuneBoundary s n) <= n)%nat.
Proof.
  unfold truncateAtRuneBoundary. case_decide; [done|]. pose proof (step_back_le s n).
  rewrite substring_length; lia.
Qed.

Lemma fnv_equiv s h : fnv1a h s = fnv_write h (String.list_ascii_of_string s).
Proof. revert h. induction s as [|c s IH]; intros h; simpl; [done|]. apply IH. Qed.

(** ** Properties *)

(** One delivery, at most one frame: whatever the codec, the handler, the
    timeout, the raw handler's own verdicts and their order do, dispatching a
    delivery hands at most one acknowledgement frame to the broker. *)
Lemma dispatch_at_most_one_frame c autoAck e raw state s :
  (length (frames (dispatch c autoAck e raw state s).1.1.2) <= 1)%nat.
Proof.
  unfold dispatch. set (d := newDelivery (cQueue c) raw true).
  assert (frame_inv d) as Hd by apply frame_inv_new.
  assert (length (frames (send_frame (FNack false false) d)) <= 1)%nat as Hn by (simpl; lia).
  destruct (safeDecodeConsumer (eDecode e)) as [err|].
  { destruct (brokerAutoAck c); [|exact Hn]. destruct (logAutoAckDrop err s). simpl. lia. }
  case_match; [exact Hn|]. destruct (counterB_start c autoAck raw state) as [cs key].
  set (d1 := run_calls (eCalls e) d). assert (frame_inv d1) as Hd1 by (unfold d1; auto with warren).
  pose proof (frame_inv_returned c autoAck e cs key s d1 Hd1) as Hr.
  destruct (decide (handlerTimeout c = 0)); [|destruct (eRace e) as [| |cause]].
  - destruct (handler_returned _ _ _ _ _ _ _) as [[[? d2] ?] ?] in Hr |- *. apply frame_inv_le, Hr.
  - destruct (handler_returned _ _ _ _ _ _ _) as [[[? d2] ?] ?] in Hr |- *. apply frame_inv_le, Hr.
  - simpl. apply frame_inv_le. auto with warren.
  - pose proof (frame_inv_context c cause d1 Hd1) as Hc.
    destruct (context_done c cause d1) as [? d2] in Hc |- *. apply frame_inv_le. simpl in *. auto with warren.
Qed.

Lemma decode_ok o : safeDecodeConsumer o = None -> o = DOk.
Proof. by destruct o. Qed.

Lemma handler_ok o : safeCallHandler o = None -> o = HReturn None.
Proof. by destruct o as [err|]; simpl; [intros ->|]. Qed.

(** The verdict of the manual-ack Consume path once the handler has returned. *)
Lemma returned_verdict c e cs key s d :
  brokerAutoAck c = false -> tracked d = true -> resolved d = false -> frames d = [] ->
  let d' := (handler_returned c true e cs key s d).1.1.2 in
  (∀ m, FAck m ∈ frames d' -> eHandler e = HReturn None)
  ∧ (frames d' = [] -> eChanClosed e = true ∨ eClosed e = true)
  ∧ (∀ m rq, FNack m rq ∈ frames d' -> eHandler e ≠ HReturn None).
Proof.
  intros Hb Ht Hr Hf. cbv zeta. unfold handler_returned.
  assert (∀ m, FAck m ∈ frames (settleVerdict c true e cs key (safeCallHandler (eHandler e)) s d).1.1.2 ->
    eHandler e = HReturn None) as Hack.
  { intros m Hm. apply settle_ack in Hm; auto. by apply handler_ok. }
  assert (frames (settleVerdict c true e cs key (safeCallHandler (eHandler e)) s d).1.1.2 = [] ->
    eClosed e = true) as Hnone.
  { unfold settleVerdict. rewrite Hb. destruct (applyCounterB c cs key _) as [[evs cs'] perr]. simpl.
    destruct (eClosed e); [done|]. rewrite AckIf_frame by done. by rewrite Hf. }
  assert (∀ m rq, FNack m rq ∈ frames (settleVerdict c true e cs key (safeCallHandler (eHandler e)) s d).1.1.2 ->
    eHandler e ≠ HReturn None) as Hnack.
  { intros m rq Hm Hh. rewrite Hh in Hm. by apply settle_nack in Hm. }
  destruct (eChanClosed e), (safeCallHandler (eHandler e)); try (split_and!; [exact Hack|by auto|exact Hnack]).
  simpl. rewrite Hf. split_and!; [set_solver|by auto|set_solver].
Qed.

(** The frames of the manual-ack [Consume] path once the handler has returned. *)
Definition returned_frames (e : env) (handlerErr processedErr : goerror) : list frame :=
  match eChanClosed e, handlerErr with
  | true, Some _ => []
  | _, _ => if eClosed e then [] else [verdict_frame processedErr]
  end.

Lemma returned_frames_ok c e cs key s d :
  brokerAutoAck c = false -> tracked d = true -> resolved d = false -> frames d = [] ->
  frames (handler_returned c true e cs key s d).1.1.2
  = returned_frames e (safeCallHandler (eHandler e)) (applyCounterB c cs key (safeCallHandler (eHandler e))).2.
Proof.
  intros Hb Ht Hr Hf. unfold handler_returned, returned_frames, settleVerdict. rewrite Hb.
  destruct (applyCounterB c cs key _) as [[evs cs'] perr]. cbn [snd].
  destruct (eClosed e) eqn:Ec.
  - destruct (eChanClosed e), (safeCallHandler (eHandler e)); cbn [fst snd]; try done.
    all: destruct perr; simpl; unfold Ack, Nack, verdict; by rewrite Ht.
  - destruct (eChanClosed e), (safeCallHandler (eHandler e)); cbn [fst snd]; try done.
    all: by rewrite AckIf_frame, Hf.
Qed.

(** The x-death count of the delivery has reached the limit. *)
Definition limit_reached (c : config) (raw : rawDelivery) : Prop :=
  0 < maxRedeliveries c <= DeathCount (newDelivery (cQueue c) raw true).

(** The handler returned before its context was done or its channel closed. *)
Definition handler_won (c : config) (e : env) : bool :=
  bool_decide (handlerTimeout c = 0) || match eRace e with RHandler => true | _ => false end.

(** The frames of one dispatch of the manual-ack [Consume] path, branch by branch. *)
Lemma dispatch_frames c e raw state s :
  brokerAutoAck c = false -> eCalls e = [] -> eLateCalls e = [] ->
  let '(evs, d, _, _) := dispatch c true e raw state s in
  (safeDecodeConsumer (eDecode e) ≠ None ∨ limit_reached c raw) ∧ EInvoke ∉ evs ∧ frames d = [FNack false false]
  ∨ eDecode e = DOk ∧ ~ limit_reached c raw ∧ EInvoke ∈ evs ∧
    frames d = (if handler_won c e
                then let '(cs, key) := counterB_start c true raw state in
                     let err := safeCallHandler (eHandler e) in
                     returned_frames e err (applyCounterB c cs key err).2
                else match eRace e with
                     | RCtxDone cause =>
                         if err_is (hctx_err cause) ContextDeadlineExceeded
                         then [FNack false (bool_decide (timeoutVerdict c = TimeoutNackRequeue))] else []
                     | _ => []
                     end).
Proof.
  intros Hb Hc1 Hc2. unfold dispatch, limit_reached. rewrite Hb, Hc1, Hc2.
  destruct (safeDecodeConsumer (eDecode e)) as [err|] eqn:Ed; [simpl; left; split_and!; [by left|set_solver|done]|].
  apply decode_ok in Ed. destruct (negb false && _ && _) eqn:El.
  { rewrite !andb_true_iff, !bool_decide_eq_true in El. left. split_and!; [right; lia| |done].
    unfold recordPoisonDropNoDLX. destruct (knownHasDLX c); set_solver. }
  assert (~ (0 < maxRedeliveries c <= DeathCount (newDelivery (cQueue c) raw true))) as Hl.
  { intros [H1 H2]. by rewrite !bool_decide_eq_true_2 in El. }
  destruct (counterB_start c true raw state) as [cs key] eqn:Ecb.
  set (d := newDelivery (cQueue c) raw true). change (run_calls [] d) with d.
  pose proof (returned_frames_ok c e cs key s d Hb eq_refl eq_refl eq_refl) as Hret.
  unfold handler_won. destruct (decide (handlerTimeout c = 0)) as [Hz|Hz].
  - rewrite bool_decide_eq_true_2 by done. cbn [orb].
    destruct (handler_returned _ _ _ _ _ _ _) as [[[evs d2] cs'] s']. simpl in *. right; split_and!; [done..|set_solver|done].
  - rewrite bool_decide_eq_false_2 by done. cbn [orb]. destruct (eRace e) as [| |cause].
    + destruct (handler_returned _ _ _ _ _ _ _) as [[[evs d2] cs'] s']. simpl in *. right; split_and!; [done..|set_solver|done].
    + simpl. right; split_and!; [done..|set_solver|done].
    + unfold context_done. rewrite Hb. destruct (err_is _ _); [|simpl; right; split_and!; [done..|set_solver|done]].
      destruct (decide (timeoutVerdict c = TimeoutNackRequeue)) as [Hv|Hv]; simpl; (right; split_and!; [done..|set_solver|]).
      * by rewrite bool_decide_eq_true_2.
      * by rewrite bool_decide_eq_false_2.
Qed.

(** What a frame of the [Consume] path says about the dispatch: an ack, none,
    or a nack. *)
Lemma consume_verdict c e raw state s :
  brokerAutoAck c = false -> eCalls e = [] -> eLateCalls e = [] ->
  let '(evs, d, _, _) := dispatch c true e raw state s in
  (∀ m, FAck m ∈ frames d -> EInvoke ∈ evs ∧ eDecode e = DOk ∧ eHandler e = HReturn None)
  ∧ (frames d = [] -> EInvoke ∈ evs
       ∧ (eChanClosed e = true ∨ eClosed e = true
          ∨ (handlerTimeout c ≠ 0 ∧ (eRace e = RChanDone ∨ eRace e = RCtxDone OuterCancelled))))
  ∧ (∀ m rq, FNack m rq ∈ frames d ->
       eDecode e ≠ DOk ∨ 0 < maxRedeliveries c <= DeathCount (newDelivery (cQueue c) raw true)
       ∨ eHandler e ≠ HReturn None ∨ (handlerTimeout c ≠ 0 ∧ ∃ cause, eRace e = RCtxDone cause)).
Proof.
  intros Hb Hc1 Hc2. unfold dispatch. rewrite Hb, Hc1, Hc2.
  destruct (safeDecodeConsumer (eDecode e)) as [err|] eqn:Ed.
  { simpl. split_and!; [set_solver|done|]. intros _ _ _. left. by intros E; rewrite E in Ed. }
  apply decode_ok in Ed. destruct (negb false && _ && _) eqn:El.
  { simpl. split_and!; [set_solver|done|]. intros _ _ _. right. left.
    rewrite !andb_true_iff, !bool_decide_eq_true in El. lia. }
  destruct (counterB_start c true raw state) as [cs key].
  set (d := newDelivery (cQueue c) raw true). change (run_calls [] d) with d.
  pose proof (returned_verdict c e cs key s d Hb eq_refl eq_refl eq_refl) as (Ha & Hn & Hk).
  destruct (decide (handlerTimeout c = 0)) as [Ht|Ht]; [|destruct (eRace e) as [| |cause]].
  - destruct (handler_returned c true e cs key s d) as [[[evs d2] cs'] s'] in Ha, Hn, Hk |- *. simpl in *.
    split_and!; [intros m Hm; split; [set_solver|eauto]| |eauto]. intros H0. split; [set_solver|].
    destruct (Hn H0); auto.
  - destruct (handler_returned c true e cs key s d) as [[[evs d2] cs'] s'] in Ha, Hn, Hk |- *. simpl in *.
    split_and!; [intros m Hm; split; [set_solver|eauto]| |eauto]. intros H0. split; [set_solver|].
    destruct (Hn H0); auto.
  - simpl. split_and!; [set_solver| |set_solver]. intros _. split; [set_solver|auto].
  - pose proof (context_no_ack c cause d) as Hna.
    destruct (context_done c cause d) as [evs d2] eqn:E in Hna |- *. simpl in *.
    split_and!; [intros m Hm; by destruct (Hna m eq_refl)| |by eauto 10]. intros H0. split; [set_solver|].
    destruct cause; [|auto|]; unfold context_done in E; rewrite Hb in E; simpl in E;
      case_decide; simplify_eq/=.
Qed.

(** C5. At-least-once on the [Consume] path: an ack is sent only for a message
    that decoded and whose handler ran and returned nil; and a message gets no
    verdict at all only when its handler ran and the channel closed, the
    consumer was closed or the consumer's context was cancelled, in which case
    the broker redelivers it. *)
Theorem consume_at_least_once c e raw state s :
  brokerAutoAck c = false -> eCalls e = [] -> eLateCalls e = [] ->
  let '(evs, d, _, _) := dispatch c true e raw state s in
  (∀ m, FAck m ∈ frames d -> EInvoke ∈ evs ∧ eDecode e = DOk ∧ eHandler e = HReturn None)
  ∧ (frames d = [] -> EInvoke ∈ evs
       ∧ (eChanClosed e = true ∨ eClosed e = true
          ∨ (handlerTimeout c ≠ 0 ∧ (eRace e = RChanDone ∨ eRace e = RCtxDone OuterCancelled)))).
Proof.
  intros Hb Hc1 Hc2. pose proof (consume_verdict c e raw state s Hb Hc1 Hc2) as H.
  destruct (dispatch c true e raw state s) as [[[evs d] cs] s']. tauto.
Qed.

(** A message over its redelivery limit never reaches the handler: when the
    x-death count of this queue has reached [MaxRedeliveries], the message is
    rejected without requeue, whatever the handler would do. *)
Lemma x_death_limit_short_circuits c autoAck e raw state s :
  brokerAutoAck c = false -> 0 < maxRedeliveries c ->
  maxRedeliveries c <= Count (ParseXDeath (rHeaders raw) (cQueue c)) ->
  let '(evs, d, _, _) := dispatch c autoAck e raw state s in
  EInvoke ∉ evs ∧ frames d = [FNack false false].
Proof.
  intros Hb Hm Hd. unfold dispatch. rewrite Hb.
  destruct (safeDecodeConsumer (eDecode e)); [simpl; split; [set_solver|done]|].
  rewrite !bool_decide_eq_true_2 by done. simpl.
  split; [|done]. unfold recordPoisonDropNoDLX. destruct (knownHasDLX c); set_solver.
Qed.

(** In AutoAck mode the library never acknowledges: the broker settled the
    message when it sent it, so [Consume] sends no frame on any path. *)
Lemma auto_ack_sends_nothing c autoAck e raw state s :
  brokerAutoAck c = true -> eCalls e = [] -> eLateCalls e = [] ->
  frames (dispatch c autoAck e raw state s).1.1.2 = [].
Proof.
  intros Hb Hc1 Hc2. unfold dispatch, handler_returned, settleVerdict, context_done.
  rewrite Hb, Hc1, Hc2. destruct (safeDecodeConsumer (eDecode e)) as [err|].
  { by destruct (logAutoAckDrop err s). }
  simpl. destruct (counterB_start c autoAck raw state) as [cs key].
  assert (∀ herr : goerror, frames (let '(log, s') := match herr with
    | Some err => logAutoAckDrop err s | None => ([], s) end in
    ([EHandlerMetric (handlerOutcome herr); finishConsumeSpan (consumeVerdictOutcome herr) herr] ++ log,
     newDelivery (cQueue c) raw true, cs, s')).1.1.2 = []) as Hs.
  { intros [err|]; [|done]. by destruct (logAutoAckDrop err s). }
  specialize (Hs (safeCallHandler (eHandler e))).
  repeat case_match; simplify_eq/=; done.
Qed.

(** The in-process counter allows exactly [MaxRedeliveries] requeues: of
    [n + 1] consecutive requeue verdicts for one message the first [n] go
    through and the last is turned into [ErrMaxRedeliveries], a rejection
    without requeue; the entry is then gone, and no other message's count has
    changed. *)
Lemma counterB_bounds_requeues c cs key (n : nat) :
  key ≠ ""%string -> cs !! key = None -> maxRedeliveries c = Z.of_nat n -> Z.of_nat n < maxInt64 ->
  ∃ cs', counterB_run c cs key (replicate (S n) (Some (Sentinel ErrRequeue)))
           = (replicate n (Some (Sentinel ErrRequeue)) ++ [Some (Wrap [Sentinel ErrMaxRedeliveries])], cs')
    ∧ verdict_frame (Some (Wrap [Sentinel ErrMaxRedeliveries])) = FNack false false
    ∧ cs' = cs.
Proof.
  intros Hk Hc Hn Hmax. assert (load cs key = 0) as H0 by (unfold load; by rewrite Hc).
  destruct (counterB_climb c key n cs Hk) as (cs1 & Hrun & Hl & Ho); [lia|lia|lia|].
  exists (delete key cs1). split; [|split; [done|]].
  - rewrite replicate_S_end, counterB_run_app, Hrun. cbn [counterB_run].
    rewrite counterB_requeue by (done || lia). rewrite decide_True by lia. done.
  - apply map_eq. intros k. rewrite lookup_delete. case_decide; [by subst|]. by apply Ho.
Qed.

(** Counter keys are bounded and do not collide across families: a key is at
    most 516 bytes for a message id, the two families never share a key,
    message ids up to 512 bytes have their own key, and a longer one is cut at
    a rune boundary. *)
Lemma counterB_keys id id' tag dtag :
  (String.length (counterBKeyForMsgID id) <= 516)%nat
  ∧ counterBKeyForMsgID id ≠ counterBKeyForDeliveryTag tag dtag
  ∧ ((String.length id <= 512)%nat -> (String.length id' <= 512)%nat ->
     counterBKeyForMsgID id = counterBKeyForMsgID id' -> id = id')
  ∧ ((512 < String.length id)%nat -> step_back id 512 ≠ 0%nat ->
     ∀ ch, String.get (step_back id 512) id = Some ch -> rune_start ch = true).
Proof.
  split; [|split; [|split]].
  - unfold counterBKeyForMsgID. cbv zeta.
    set (x := if decide (maxMsgIDKeyLen < String.length id)%nat then _ else _).
    assert (String.length x <= 512)%nat as Hx.
    { unfold x, maxMsgIDKeyLen. case_decide; [|lia]. apply truncate_length. }
    case_decide; [simpl; lia|]. change (4 + String.length x <= 516)%nat. lia.
  - unfold counterBKeyForMsgID, counterBKeyForDeliveryTag. case_decide; simpl; done.
  - intros H1 H2. unfold counterBKeyForMsgID, maxMsgIDKeyLen.
    destruct (decide (512 < String.length id)%nat); [lia|].
    destruct (decide (512 < String.length id')%nat); [lia|].
    repeat case_decide; intros E; [congruence|done|done|].
    by apply (inj (String.append "mid:")) in E.
  - intros Hl H0 ch Hg. by eapply step_back_boundary.
Qed.

(** ** Lemmas: dedupe *)

Section dedupe_lemmas.
  Context {S : Type} `{DedupeStoreLaws S recorded}.

Lemma wrapDedupe_spec ttl id next s :
  let '(p, s') := wrapDedupe ttl id next s in
  (pRan p = false -> pErr p = None ∧ id ∈ recorded s)
  ∧ (pRan p = true -> pErr p = next)
  ∧ ((∃ e, (Seen id s).1 = Err e) -> pRan p = true)
  ∧ (∀ x, x ∈ recorded s' -> x ∈ recorded s ∨ (x = id ∧ pRan p = true ∧ next = None)).
Proof.
  unfold wrapDedupe. case_decide; [simpl; split; [done|]; split; [done|]; split; [done|]; by left|].
  pose proof (seen_recorded id s) as Hrec. pose proof (seen_records_nothing id s) as Hkeep.
  destruct (Seen id s) as [[[]|e] s1]; simpl in *.
  - split; [by auto|]. split; [done|]. split; [by intros [? ?]|]. clear -Hkeep. set_solver.
  - destruct next as [err|]; [simpl; split; [done|]; split; [done|]; split; [done|]; clear -Hkeep; set_solver|].
    pose proof (mark_records id ttl s1) as Hmark. destruct (Mark id ttl s1) as [err s2]. simpl in *.
    split; [done|]. split; [done|]. split; [done|]. clear -Hkeep Hmark. set_solver.
  - split; [done|]. split; [done|]. split; [done|]. clear -Hkeep. set_solver.
Qed.

(** An id is recorded only if it was at the start or an earlier delivery ran its
    handler successfully. *)
Lemma dedupe_run_spec ttl l s k p :
  dedupe_run ttl l s !! k = Some p ->
  ∃ id next, l !! k = Some (id, next) ∧ (pRan p = true -> pErr p = next)
    ∧ (pRan p = false -> pErr p = None ∧ (id ∈ recorded s
         ∨ ∃ i q, (i < k)%nat ∧ l !! i = Some (id, None) ∧ dedupe_run ttl l s !! i = Some q ∧ pRan q = true)).
Proof.
  revert s k. induction l as [|[id next] l IH]; intros s k Hk; [done|]. simpl in *.
  pose proof (wrapDedupe_spec ttl id next s) as Hw. destruct (wrapDedupe ttl id next s) as [p0 s'].
  destruct Hw as (W1 & W2 & _ & W4). destruct k as [|k]; simpl in Hk.
  - injection Hk as <-. exists id, next. split; [done|]. split; [done|]. intros Hr.
    destruct (W1 Hr). by auto.
  - destruct (IH s' k Hk) as (id' & next' & Hl & Hran & Hskip). exists id', next'.
    split; [done|]. split; [done|]. intros Hr. destruct (Hskip Hr) as [He [Hin|(i & q & Hi & Hli & Hq & Hqr)]].
    + split; [done|]. destruct (W4 _ Hin) as [Hin0|(-> & Hr0 & ->)]; [by left|]. right.
      exists 0%nat, p0. split; [lia|]. done.
    + split; [done|]. right. exists (Datatypes.S i), q. split; [lia|]. done.
Qed.

(** C38. Dedupe suppresses only what it has seen succeed: with any store that
    reports only recorded ids, started empty, a delivery is acknowledged without
    running the handler only after an earlier delivery of the same id ran it and
    it returned nil; whenever the handler runs, its result is the verdict; and
    when the store fails the handler runs. *)
Theorem dedupe_sound ttl l s k p :
  recorded s = ∅ -> dedupe_run ttl l s !! k = Some p ->
  ∃ id next, l !! k = Some (id, next)
    ∧ (pRan p = true -> pErr p = next)
    ∧ (pRan p = false -> pErr p = None
         ∧ ∃ i q, (i < k)%nat ∧ l !! i = Some (id, None) ∧ dedupe_run ttl l s !! i = Some q ∧ pRan q = true)
    ∧ (∀ st e, (Seen id st).1 = Err e -> pRan (wrapDedupe ttl id next st).1 = true).
Proof.
  intros Hs Hk. destruct (dedupe_run_spec ttl l s k p Hk) as (id & next & Hl & Hran & Hskip).
  exists id, next. split; [done|]. split; [done|]. split.
  - intros Hr. destruct (Hskip Hr) as [He [Hin|Hex]]; [|done]. rewrite Hs in Hin. set_solver.
  - intros st e E. pose proof (wrapDedupe_spec ttl id next st) as Hw.
    destruct (wrapDedupe ttl id next st) as [p' s']. destruct Hw as (_ & _ & W3 & _). apply W3. eauto.
Qed.
End dedupe_lemmas.

(** Consumer pinning is stable and in range, and the consumer's own hash is
    the one [connpool] uses. *)
Lemma connIndexForTag_pins tag n :
  connIndexForTag tag n = PinIndex tag n
  ∧ (0 < n -> 0 <= connIndexForTag tag n < n).
Proof.
  unfold connIndexForTag, PinIndex. rewrite fnv_equiv. split; [done|]. intros Hn.
  case_decide; [lia|]. apply Z.mod_pos_bound. lia.
Qed.

(** When the context given to [Consume] has its own deadline, its expiry is
    taken for a handler timeout: the message in flight is rejected instead of
    being left for redelivery, although the handler was within its budget. *)
Lemma outer_deadline_rejects c e raw state s :
  brokerAutoAck c = false -> handlerTimeout c ≠ 0 -> timeoutVerdict c = TimeoutNackNoRequeue ->
  maxRedeliveries c = 0 -> eDecode e = DOk -> eCalls e = [] -> eLateCalls e = [] ->
  eRace e = RCtxDone OuterDeadline ->
  frames (dispatch c true e raw state s).1.1.2 = [FNack false false].
Proof.
  intros Hb Ht Hv Hm Hd H1 H2 Hr. unfold dispatch. rewrite Hd, Hb, Hm, H1, H2, Hr.
  unfold counterB_start. rewrite Hb, Hm. simpl. rewrite decide_False by done.
  unfold context_done. rewrite Hb, Hv. done.
Qed.

(** ** Witnesses *)

Definition sample_config : config :=
  mkConfig "orders" "ctag-1" false 0 TimeoutNackNoRequeue 2 false true.

Definition ok_env : env := mkEnv DOk (HReturn None) [] [] false RHandler false None.

Definition raw_death : rawDelivery :=
  mkRaw 9 "m-9" "" (Some {[ "x-death"%string := VSlice [VTable
    [("queue"%string, VString "orders"); ("reason"%string, VString "rejected");
     ("count"%string, VNum KInt64 2)]] ]}) true 3.

Definition sampler0 : dropSampler := mkSampler 100 0.

Lemma consume_at_least_once_witness :
  let '(evs, d, _, _) := dispatch sample_config true ok_env sample_raw ∅ sampler0 in
  (∀ m, FAck m ∈ frames d -> EInvoke ∈ evs ∧ eDecode ok_env = DOk ∧ eHandler ok_env = HReturn None)
  ∧ (frames d = [] -> EInvoke ∈ evs
       ∧ (eChanClosed ok_env = true ∨ eClosed ok_env = true
          ∨ (handlerTimeout sample_config ≠ 0
             ∧ (eRace ok_env = RChanDone ∨ eRace ok_env = RCtxDone OuterCancelled)))).
Proof.
  apply (consume_at_least_once sample_config ok_env sample_raw ∅ sampler0); reflexivity.
Defined.

Lemma x_death_limit_witness :
  let '(evs, d, _, _) := dispatch sample_config true ok_env raw_death ∅ sampler0 in
  EInvoke ∉ evs ∧ frames d = [FNack false false].
Proof.
  apply (x_death_limit_short_circuits sample_config true ok_env raw_death ∅ sampler0);
    [reflexivity|simpl; lia|vm_compute; discriminate].
Defined.

Definition no_ack_config : config :=
  mkConfig "orders" "ctag-1" true 0 TimeoutNackNoRequeue 0 false false.

Lemma auto_ack_witness :
  frames (dispatch no_ack_config true (mkEnv DOk HPanic [] [] false RHandler false None)
            sample_raw ∅ sampler0).1.1.2 = [].
Proof. apply auto_ack_sends_nothing; reflexivity. Defined.

Lemma counterB_witness :
  ∃ cs', counterB_run sample_config ∅ "mid:m-1" (replicate 3 (Some (Sentinel ErrRequeue)))
           = ([Some (Sentinel ErrRequeue); Some (Sentinel ErrRequeue);
               Some (Wrap [Sentinel ErrMaxRedeliveries])], cs')
    ∧ verdict_frame (Some (Wrap [Sentinel ErrMaxRedeliveries])) = FNack false false ∧ cs' = ∅.
Proof.
  apply (counterB_bounds_requeues sample_config ∅ "mid:m-1" 2); [done|reflexivity|reflexivity|done].
Defined.

Lemma dedupe_witness :
  dedupe_run 60 [("m-1"%string, None); ("m-1"%string, Some (Sentinel ErrPoison))] (∅ : gset string)
    !! 1%nat = Some (mkPass None false 0)
  ∧ ∃ i q, (i < 1)%nat
      ∧ [("m-1"%string, (None : goerror)); ("m-1"%string, Some (Sentinel ErrPoison))] !! i = Some ("m-1"%string, None)
      ∧ pRan q = true.
Proof.
  set (l := [("m-1"%string, (None : goerror)); ("m-1"%string, Some (Sentinel ErrPoison))]).
  assert (dedupe_run 60 l (∅ : gset string) !! 1%nat = Some (mkPass None false 0)) as E by (vm_compute; reflexivity).
  split; [exact E|].
  destruct (dedupe_sound 60 l (∅ : gset string) 1 (mkPass None false 0) eq_refl E)
    as (id & next & Hl & _ & H & _).
  injection Hl as <- <-. destruct (H eq_refl) as (_ & i & q & Hi & Hli & _ & Hq).
  exists i, q. by split.
Defined.

(** A store that is down costs duplicates, never messages: every delivery runs
    its handler and returns the handler's result, with one warning for each id. *)
Lemma broken_store_fails_open ttl (l : list (string * goerror)) :
  dedupe_run ttl l tt
  = (fun d => mkPass d.2 true (if decide (d.1 = ""%string) then 0 else 1)) <$> l.
Proof.
  induction l as [|[id next] l IH]; [done|]. simpl. unfold wrapDedupe.
  destruct (decide (id = ""%string)); simpl; by rewrite IH.
Qed.
