(* ===== verification/Subscription.v ===== *)
(** * Subscription: the life cycle of a consumer's subscription

    Models, of [src/consumer.go], [runConsume] with its reconnect hook,
    [recoverDeliveryChannel], [openDeliveryCh], [startPump], [Pause], [Resume],
    [resubscribeLocked], [Close], [snapshot], [cancelLiveSubscription] and the
    response to a broker [basic.cancel].

    The goroutines are the consume loop, one pump for each [basic.consume], the
    runs of the reconnect hook, the callers of [Pause] and [Resume], and the
    dispatch goroutines.  They share the fields of [Consumer], the physical
    channels and the Go channels between them; a step is one channel operation,
    atomic operation or critical section of one goroutine.  The calls of a
    goroutine between two such points, the deferred calls of a dispatch
    goroutine, and the receipt and forwarding of a cancel reason are one step.

    The driver and the broker are the environment.  Two of its guards are the
    ordering the comment in [startPump] relies on: a delivery stream is closed
    only after a local cancel or after the channel's end was signalled on
    [closeCh] or [cancelCh]; and calls on a channel that was shut down fail. *)

From S2P Require Import Prelude Errors Values Limiters Delivery.

(** ** Data *)

(** A physical channel ([liveSub]).  [closeCh] and [cancelCh] have one slot
    each and are closed together; [done] is [channelDone].  [died] and
    [revoked] are the broker's side: the channel was shut down, the broker sent
    [basic.cancel]. *)
Record channel : Type := mkChannel {
  closeBuf : bool;
  cancelBuf : option string;
  notifyClosed : bool;
  done : bool;
  died : bool;
  revoked : bool
}.

Definition open_channel : channel := mkChannel false None false false false false.

(** Where a pump is: in its select, blocked on [out <- d], in the
    branch of a closed stream before each of its three decisions, about to call
    [closeChannelDone], or gone (which closes [out]). *)
Inductive pump_phase : Type :=
| QSelect
| QSend (d : rawDelivery)
| QDrainClose
| QDrainCancel (death : bool)
| QDecide (death : bool)
| QCloseDone
| QExit.

(** One [basic.consume]: the driver's delivery stream, the pump and its [out].
    [cancelled] tells that a local [basic.cancel] succeeded.  The rest is
    history: what the broker delivered, what the loop dispatched, what it gave
    back at shutdown, what the pump dropped. *)
Record sub : Type := mkSub {
  onChan : nat;
  stream : list rawDelivery;
  streamClosed : bool;
  cancelled : bool;
  out : list rawDelivery;
  pump : pump_phase;
  delivered : list rawDelivery;
  dispatched : list rawDelivery;
  requeued : list rawDelivery;
  dropped : list rawDelivery
}.

Definition new_sub (k : nat) : sub := mkSub k [] false false [] QSelect [] [] [] [].

(** [openDeliveryCh]: before the counter is rotated, before the calls on the
    connection, before the critical section that publishes channel [k].  What
    arrives for [k] before its pump starts waits in the driver. *)
Inductive open_phase : Type := ORotate | OCall | OPublish (k : nat).

Inductive recover_phase : Type :=
| RGuard
| RPark
| RFloor
| RPoll (backoff : Z)
| RTest (backoff : Z)
| ROpen (backoff : Z) (o : open_phase)
| RWait (backoff : Z).

(** The consume loop: not started, opening, in its select on subscription
    [cur], waiting for the semaphore, for the byte budget, recovering, in one
    of its ways out, returned. *)
Inductive main_phase : Type :=
| MIdle
| MOpen (o : open_phase)
| MSelect (cur : nat)
| MSem (cur : nat) (d : rawDelivery)
| MBytes (cur : nat) (d : rawDelivery)
| MRecover (r : recover_phase)
| MDrain (cur : nat)
| MCancelLive (cur : nat)
| MRequeue (cur : nat)
| MStop
| MBroker (err : error)
| MReturned (err : goerror).

(** A run of the reconnect hook. *)
Inductive hook_phase : Type := KJitter | KOpen (o : open_phase) | KSend (j : nat) | KDone.

(** The call that holds [pauseMu] across a blocking operation. *)
Inductive holder : Type :=
| HPause (k : nat)
| HResume
| HSwap (j : nat)
| HHandoff (j : nat) (prevCounter : nat)
| HRollback.

(** What a broker cancel makes visible. *)
Inductive cancel_event : Type :=
| CalledOnCancel (tag : string)
| WarnedCancel (tag class : string)
| RecordCancelled (class : string).

(** [maxBody] belongs to the environment: the largest body it delivers. *)
Record config : Type := mkConfig {
  prefetch : nat;
  concurrency : nat;
  brokerAutoAck : bool;
  maxInFlightBytes : Z;
  hasOnCancel : bool;
  noOpMetrics : bool;
  maxBody : Z
}.

(** Counters of redeliveries are known by their identity.  [handlers] are the
    running dispatch goroutines: the subscription and the delivery. *)
Record state : Type := mkState {
  started : bool;
  stopped : bool;
  closed : bool;
  paused : bool;
  ctxDone : bool;
  reconnecting : bool;
  reopened : bool;
  chans : gmap nat channel;
  subs : gmap nat sub;
  nextId : nat;
  live : option nat;
  counter : nat;
  nextCounter : nat;
  resubCh : option nat;
  cancelReasonCh : option string;
  mu : option holder;
  main : main_phase;
  hooks : list hook_phase;
  sem : nat;
  bytes : option byteLimiter;
  inFlight : Z;
  handlers : list (nat * rawDelivery);
  surfaced : list cancel_event
}.

(** [newConsumer]. *)
Definition initial (c : config) : state :=
  mkState false false false false false false false ∅ ∅ 0 None 0 1 None None None MIdle [] 0
          (newByteLimiter (maxInFlightBytes c)) 0 [] [].

Definition with_sub (j : nat) (x : sub) (s : state) : state :=
  {| s with subs := <[ j := x ]> (subs s) |}.
Definition with_chan (k : nat) (h : channel) (s : state) : state :=
  {| s with chans := <[ k := h ]> (chans s) |}.
Definition with_main (m : main_phase) (s : state) : state := {| s with main := m |}.
Definition with_mu (h : option holder) (s : state) : state := {| s with mu := h |}.
Definition with_paused (b : bool) (s : state) : state := {| s with paused := b |}.

(** A successful [Cancel(tag)] on channel [k] ends the subscription that holds
    the tag there; the earlier ones on [k] were cancelled before. *)
Definition cancel_sub (k : nat) (x : sub) : sub :=
  if decide (onChan x = k) then {| x with cancelled := true |} else x.
Definition cancel_local (k : nat) (s : state) : state :=
  {| s with subs := cancel_sub k <$> subs s |}.

Definition alive (k : nat) (s : state) : bool :=
  match chans s !! k with Some h => negb (died h) | None => false end.

(** ** The response to basic.cancel *)

Definition cancelReasonQueueDeleted : string := "queue_deleted".
Definition cancelReasonExclusiveRevoked : string := "exclusive_revoked".
Definition cancelReasonUnknown : string := "unknown".

(** What the probe of the queue meets. *)
Inductive probe : Type :=
| ProbeNoChannel
| ProbeNotInspector
| ProbeDeclare (perr : goerror).

Definition classifyBrokerCancel (p : probe) : string :=
  match p with
  | ProbeNoChannel => cancelReasonUnknown
  | ProbeNotInspector => cancelReasonUnknown
  | ProbeDeclare None => cancelReasonExclusiveRevoked
  | ProbeDeclare (Some e) =>
      if errors_is (wrapAMQPError (Some e)) ErrNotFound then cancelReasonQueueDeleted
      else cancelReasonUnknown
  end.

Definition classifyCancel (c : config) (p : probe) : string :=
  if hasOnCancel c && noOpMetrics c then cancelReasonUnknown else classifyBrokerCancel p.

Definition surfaceBrokerCancel (c : config) (tag class : string) : list cancel_event * error :=
  ([if hasOnCancel c then CalledOnCancel tag else WarnedCancel tag class; RecordCancelled class],
   Wrap [Sentinel ErrConsumerCancelled]).

(** [handleBrokerCancel] up to its [wg.Wait]. *)
Definition handleBrokerCancel (c : config) (p : probe) (tag : string) (s : state) : state :=
  let '(evs, err) := surfaceBrokerCancel c tag (classifyCancel c p) in
  {| s with surfaced := surfaced s ++ evs; main := MBroker err |}.

(** A full buffer keeps the first reason. *)
Definition forwardCancelReason (tag : string) (s : state) : state :=
  match cancelReasonCh s with
  | Some _ => s
  | None => {| s with cancelReasonCh := Some tag |}
  end.

(** The arguments of [basic.consume]: [prio] is [Priority()], if set. *)
Definition buildConsumeArgs (consumeArgs : args) (prio : option Z) : args :=
  match decide (default ∅ consumeArgs = ∅), prio with
  | left _, None => None
  | _, None => Some (default ∅ consumeArgs)
  | _, Some p => Some (<[ "x-priority"%string := VNum KInt p ]> (default ∅ consumeArgs))
  end.

(** ** openDeliveryCh *)

(** What the calls on the connection answer. *)
Inductive open_answer : Type :=
| AnsOpenErr (e : error)
| AnsWrongType
| AnsQosErr (e : error)
| AnsConsumeErr (e : error)
| AnsOk.

Definition open_error (a : open_answer) : goerror :=
  match a with
  | AnsOpenErr e => Some (Wrap [e])
  | AnsWrongType => Some (OtherError 3)
  | AnsQosErr e | AnsConsumeErr e =>
      Some (Wrap (match wrapAMQPError (Some e) with Some e' => [e'] | None => [] end))
  | AnsOk => None
  end.

Inductive open_outcome : Type :=
| OMore (o : open_phase)
| OFailed (err : error)
| OOpened (j : nat).

(** [startPump] on channel [k]: a new subscription, known by [nextId]. *)
Definition startPump (k : nat) (s : state) : state :=
  {| s with subs := <[ nextId s := new_sub k ]> (subs s); nextId := S (nextId s) |}.

(** The critical section that publishes the channel needs [pauseMu]; it is
    followed by [startPump]. *)
Definition openDeliveryCh (o : open_phase) (a : open_answer) (s : state)
  : option (open_outcome * state) :=
  match o with
  | ORotate => Some (OMore OCall, {| s with counter := nextCounter s; nextCounter := S (nextCounter s) |})
  | OCall =>
      match open_error a with
      | Some err => Some (OFailed err, s)
      | None =>
          Some (OMore (OPublish (nextId s)),
                {| s with chans := <[ nextId s := open_channel ]> (chans s); nextId := S (nextId s) |})
      end
  | OPublish k =>
      match mu s with
      | None => Some (OOpened (nextId s), startPump k {| s with live := Some k; paused := false |})
      | Some _ => None
      end
  end.

(** ** startPump *)

(** The arms of the pump's selects; [ArmNext] is its sequential code. *)
Inductive pump_arm : Type := ArmDelivery | ArmSend | ArmCancel | ArmClose | ArmCtx | ArmNext.

Definition pump_goto (p : pump_phase) (x : sub) : sub := {| x with pump := p |}.

(** [<-closeCh] is ready, and what it leaves. *)
Definition close_ready (h : channel) : bool := closeBuf h || notifyClosed h.
Definition take_close (h : channel) : channel := {| h with closeBuf := false |}.
Definition take_cancel (h : channel) : channel := {| h with cancelBuf := None |}.

(** [tag, ok := <-cancelCh] of subscription [j] on channel [k], then [p]. *)
Definition pump_cancelled (j k : nat) (x : sub) (h : channel) (p : pump_phase) (s : state)
  : option state :=
  match cancelBuf h with
  | Some tag =>
      Some (with_sub j (pump_goto p x) (with_chan k (take_cancel h) (forwardCancelReason tag s)))
  | None => if notifyClosed h then Some (with_sub j (pump_goto p x) s) else None
  end.

Definition pump_step (c : config) (j : nat) (arm : pump_arm) (s : state) : option state :=
  match subs s !! j with
  | None => None
  | Some x =>
    let k := onChan x in
    match chans s !! k with
    | None => None
    | Some h =>
      match pump x, arm with
      | QSelect, ArmDelivery =>
          match stream x with
          | d :: r => Some (with_sub j {| x with stream := r; pump := QSend d |} s)
          | [] => if streamClosed x then Some (with_sub j (pump_goto QDrainClose x) s) else None
          end
      | QSelect, ArmCancel => pump_cancelled j k x h QCloseDone s
      | QSelect, ArmClose =>
          if close_ready h
          then Some (with_sub j (pump_goto QCloseDone x) (with_chan k (take_close h) s)) else None
      | QSelect, ArmCtx => if ctxDone s then Some (with_sub j (pump_goto QExit x) s) else None
      | QSend d, ArmSend =>
          if decide (length (out x) < prefetch c)%nat
          then Some (with_sub j {| x with out := out x ++ [d]; pump := QSelect |} s) else None
      | QSend d, ArmCtx =>
          if ctxDone s then Some (with_sub j {| x with dropped := [d]; pump := QExit |} s) else None
      | QDrainClose, ArmNext =>
          if close_ready h
          then Some (with_sub j (pump_goto (QDrainCancel true) x) (with_chan k (take_close h) s))
          else Some (with_sub j (pump_goto (QDrainCancel false) x) s)
      | QDrainCancel death, ArmNext =>
          match pump_cancelled j k x h (QDecide true) s with
          | Some s' => Some s'
          | None => Some (with_sub j (pump_goto (QDecide death) x) s)
          end
      | QDecide death, ArmNext =>
          Some (with_sub j (pump_goto (if death || negb (paused s) then QCloseDone else QExit) x) s)
      | QCloseDone, ArmNext =>
          Some (with_sub j (pump_goto QExit x) (with_chan k {| h with done := true |} s))
      | _, _ => None
      end
    end
  end.

(** ** runConsume *)

Definition channelRecoverInitialBackoff : Z := 50 * millisecond.
Definition channelRecoverMaxBackoff : Z := 2 * second.

(** What the loop meets at its next point.  [ArmMain] is sequential code. *)
Inductive main_arm : Type :=
| MCtx
| MResub
| MReason (p : probe)
| MRecv
| MTimer
| MDefault
| MOpenCall (a : open_answer)
| MDriver (err : goerror)     (* a Cancel or a Nack on the driver returned *)
| MGuard (recent : bool)      (* the last reopen is within the horizon *)
| MNext.

Definition finish (err : goerror) (s : state) : state :=
  {| s with main := MReturned err; stopped := true |}.

(** The three arms every select of the loop and of the recovery has: [stop] is
    where a cancelled context leads. *)
Definition common_arm (c : config) (stop : main_phase) (arm : main_arm) (s : state) : option state :=
  match arm with
  | MCtx => if ctxDone s then Some (with_main stop s) else None
  | MResub =>
      match resubCh s with
      | Some j => Some {| s with main := MSelect j; resubCh := None |}
      | None => None
      end
  | MReason p =>
      match cancelReasonCh s with
      | Some tag => Some (handleBrokerCancel c p tag {| s with cancelReasonCh := None |})
      | None => None
      end
  | _ => None
  end.

Definition recoverDeliveryChannel (c : config) (r : recover_phase) (arm : main_arm) (s : state)
  : option state :=
  match r, arm with
  | RGuard, MGuard recent =>
      Some (with_main (MRecover (if paused s then RPark
                                 else if reopened s && recent then RFloor
                                 else RPoll channelRecoverInitialBackoff)) s)
  | RFloor, MTimer => Some (with_main (MRecover (RPoll channelRecoverInitialBackoff)) s)
  | RPoll b, MDefault =>
      match ctxDone s, cancelReasonCh s, resubCh s with
      | false, None, None => Some (with_main (MRecover (RTest b)) s)
      | _, _, _ => None
      end
  | RTest b, MNext =>
      Some (with_main (MRecover (if negb (reconnecting s) && negb (paused s) then ROpen b ORotate
                                 else RWait b)) s)
  | ROpen b o, MOpenCall a =>
      match openDeliveryCh o a s with
      | Some (OMore o', s') => Some (with_main (MRecover (ROpen b o')) s')
      | Some (OFailed _, s') => Some (with_main (MRecover (RWait b)) s')
      | Some (OOpened j, s') => Some {| s' with main := MSelect j; reopened := true |}
      | None => None
      end
  | RWait b, MTimer =>
      Some (with_main (MRecover (RPoll (if decide (b < channelRecoverMaxBackoff)
                                        then Z.min (b * 2) channelRecoverMaxBackoff else b))) s)
  | RPark, _ | RFloor, _ | RPoll _, _ | RWait _, _ => common_arm c MStop arm s
  | _, _ => None
  end.

(** [requeueUndispatched] on [out], one delivery at a time. *)
Definition requeueUndispatched (c : config) (cur : nat) (nackErr : goerror) (s : state) : option state :=
  match subs s !! cur with
  | None => None
  | Some x =>
      match out x with
      | d :: r =>
          if brokerAutoAck c then Some (finish None s)
          else let s' := with_sub cur {| x with out := r; requeued := requeued x ++ [d] |} s in
               Some (match nackErr with Some _ => finish None s' | None => s' end)
      | [] => Some (finish None s)
      end
  end.

(** [cancelLiveSubscription]: the error of [Cancel] is ignored. *)
Definition cancelLiveSubscription (cur : nat) (err : goerror) (s : state) : option state :=
  match mu s with
  | Some _ => None
  | None =>
      Some (with_main (MRequeue cur)
              (match live s, err with
               | Some k, None => if alive k s then cancel_local k s else s
               | _, _ => s
               end))
  end.

(** The state after a piece of a call, with the call's result once it has
    returned. *)
Definition call_step : Type := option (option goerror * state).

Definition return_ (err : goerror) (s : state) : call_step := Some (Some err, s).
Definition go_on (s : state) : call_step := Some (None, s).

(** A call of [Consume] or [ConsumeRaw], up to the first subscription: the call
    that finds [started] set returns at once. *)
Definition runConsume_enter (s : state) : call_step :=
  if started s then return_ (Some (Wrap [Sentinel ErrInvalidOptions])) s
  else go_on {| s with started := true; main := MOpen ORotate |}.

Definition runConsume (c : config) (arm : main_arm) (s : state) : option state :=
  match main s, arm with
  | MIdle, MNext => match runConsume_enter s with Some (None, s') => Some s' | _ => None end
  | MOpen o, MOpenCall a =>
      match openDeliveryCh o a s with
      | Some (OMore o', s') => Some (with_main (MOpen o') s')
      | Some (OFailed err, s') => Some (finish (Some err) s')
      | Some (OOpened j, s') => Some (with_main (MSelect j) s')
      | None => None
      end
  | MSelect cur, MRecv =>
      match subs s !! cur with
      | Some x =>
          match out x, pump x with
          | d :: r, _ => Some (with_main (MSem cur d) (with_sub cur {| x with out := r |} s))
          | [], QExit => Some (with_main (MRecover RGuard) s)
          | [], _ => None
          end
      | None => None
      end
  | MSelect cur, _ => common_arm c (MDrain cur) arm s
  | MSem cur d, MNext =>
      if decide (sem s < concurrency c)%nat
      then Some {| s with sem := S (sem s); main := MBytes cur d |} else None
  | MBytes cur d, MNext =>
      match acquire (rBodyLen d) (bytes s), subs s !! cur with
      | Some b, Some x =>
          Some (with_sub cur {| x with dispatched := dispatched x ++ [d] |}
                  {| s with bytes := b; inFlight := inFlight s + 1;
                            handlers := (cur, d) :: handlers s; main := MSelect cur |})
      | _, _ => None
      end
  | MRecover r, _ => recoverDeliveryChannel c r arm s
  | MDrain cur, MNext =>
      match handlers s with [] => Some (with_main (MCancelLive cur) s) | _ => None end
  | MCancelLive cur, MDriver err => cancelLiveSubscription cur err s
  | MRequeue cur, MDriver err => requeueUndispatched c cur err s
  | MStop, MNext => match handlers s with [] => Some (finish None s) | _ => None end
  | MBroker err, MNext => match handlers s with [] => Some (finish (Some err) s) | _ => None end
  | _, _ => None
  end.

(** The deferred calls of a dispatch goroutine. *)
Definition handler_done (i : nat) (s : state) : option state :=
  match handlers s !! i with
  | None => None
  | Some (_, d) =>
      Some {| s with handlers := delete i (handlers s); inFlight := inFlight s - 1;
                     sem := pred (sem s); bytes := release (rBodyLen d) (bytes s) |}
  end.

(** ** Pause, Resume, Close *)

(** The early returns [Pause] and [Resume] share; [None] to go on. *)
Definition call_guard (ctxErr : goerror) (s : state) : option error :=
  match ctxErr with
  | Some e => Some e
  | None => if negb (started s) then Some (Wrap [Sentinel ErrInvalidOptions])
            else if closed s then Some (Sentinel ErrAlreadyClosed) else None
  end.

(** [Pause] up to its [Cancel]. *)
Definition Pause (ctxErr : goerror) (s : state) : call_step :=
  match call_guard ctxErr s with
  | Some err => return_ (Some err) s
  | None =>
      match mu s with
      | Some _ => None
      | None =>
          if paused s then return_ None s
          else match live s with
               | None => return_ (Some (Wrap [Sentinel ErrReconnecting])) s
               | Some k => go_on (with_mu (Some (HPause k)) (with_paused true s))
               end
      end
  end.

(** The rest of [Pause]: what [Cancel] returns. *)
Definition Pause_cancelled (err : goerror) (s : state) : call_step :=
  match mu s, err with
  | Some (HPause k), None =>
      if alive k s then return_ None (with_mu None (cancel_local k s)) else None
  | Some (HPause k), Some e =>
      return_ (Some (Wrap (match wrapAMQPError (Some e) with Some e' => [e'] | None => [] end)))
              (with_mu None (with_paused false s))
  | _, _ => None
  end.

(** [Resume] up to the call of [Consume] in [resubscribeLocked]. *)
Definition Resume (ctxErr : goerror) (s : state) : call_step :=
  match call_guard ctxErr s with
  | Some err => return_ (Some err) s
  | None =>
      match mu s with
      | Some _ => None
      | None => if paused s then go_on (with_mu (Some HResume) s) else return_ None s
      end
  end.

(** [resubscribeLocked]: what [Consume] on the live channel answers. *)
Definition resubscribeLocked (err : goerror) (s : state) : call_step :=
  match mu s with
  | Some HResume =>
      match live s, err with
      | None, _ => return_ (Some (Wrap [Sentinel ErrReconnecting])) (with_mu None s)
      | Some k, Some e =>
          return_ (Some (Wrap (match wrapAMQPError (Some e) with Some e' => [e'] | None => [] end)))
                  (with_mu None s)
      | Some k, None =>
          if alive k s
          then go_on (startPump k (with_mu (Some (HSwap (nextId s))) s))
          else None
      end
  | _ => None
  end.

(** [counterState.Swap]. *)
Definition Resume_swap (s : state) : call_step :=
  match mu s with
  | Some (HSwap j) =>
      go_on {| s with counter := nextCounter s; nextCounter := S (nextCounter s);
                      mu := Some (HHandoff j (counter s)) |}
  | _ => None
  end.

(** The select of [Resume]: the hand-off to the loop. *)
Definition Resume_handoff (s : state) : call_step :=
  match mu s, resubCh s with
  | Some (HHandoff j _), None =>
      return_ None {| s with resubCh := Some j; paused := false; mu := None |}
  | _, _ => None
  end.

(** The select of [Resume]: its context is done; then the local cancel. *)
Definition Resume_ctxDone (s : state) : call_step :=
  match mu s with
  | Some (HHandoff _ prev) => go_on {| s with counter := prev; mu := Some HRollback |}
  | _ => None
  end.

Definition Resume_cancelled (ctxErr : error) (err : goerror) (s : state) : call_step :=
  match mu s with
  | Some HRollback =>
      match live s, err with
      | Some k, None =>
          if alive k s then return_ (Some ctxErr) (with_mu None (cancel_local k s)) else None
      | _, _ => return_ (Some ctxErr) (with_mu None s)
      end
  | _ => None
  end.

Definition Close (s : state) : state := {| s with closed := true |}.

(** ** Health *)

Record ConsumerHealth : Type := mkHealth {
  Active : bool;
  Paused : bool;
  InFlightHandlers : Z
}.

Definition snapshot (s : state) : ConsumerHealth :=
  mkHealth (started s && negb (stopped s) && negb (closed s) && negb (paused s))
           (paused s) (inFlight s).

(** ** The reconnect hook *)

Inductive hook_arm : Type := KTimer | KCtx | KOpenCall (a : open_answer) | KHandoff.

Definition hook_goto (i : nat) (p : hook_phase) (s : state) : state :=
  {| s with hooks := <[ i := p ]> (hooks s) |}.

(** [KCtx] is the end of [hookCtx]; the other runs are not concerned. *)
Definition hook_step (i : nat) (arm : hook_arm) (s : state) : option state :=
  match hooks s !! i, arm with
  | Some KJitter, KCtx => Some (hook_goto i KDone s)
  | Some KJitter, KTimer => Some (hook_goto i (KOpen ORotate) s)
  | Some (KOpen o), KOpenCall a =>
      match openDeliveryCh o a s with
      | Some (OMore o', s') => Some (hook_goto i (KOpen o') s')
      | Some (OFailed _, s') => Some (hook_goto i KDone s')
      | Some (OOpened j, s') => Some (hook_goto i (KSend j) s')
      | None => None
      end
  | Some (KSend j), KHandoff =>
      match resubCh s with
      | None => Some (hook_goto i KDone {| s with resubCh := Some j |})
      | Some _ => None
      end
  | Some (KSend j), KCtx => Some (hook_goto i KDone s)
  | _, _ => None
  end.

(** ** The environment *)

Inductive env_event : Type :=
| EDeliver (j : nat) (d : rawDelivery)
| EDie (k : nat)                   (* the channel is shut down *)
| ERevoke (k : nat) (tag : string) (* the broker sends basic.cancel *)
| EStreamEnd (j : nat)
| ENotifyClosed (k : nat)
| ECtx                             (* the context of Consume is cancelled *)
| EReconnecting (b : bool)
| EHook.                           (* a barrier starts the hook *)

Definition ended (h : channel) : bool := died h || revoked h.

Definition env_step (c : config) (e : env_event) (s : state) : option state :=
  match e with
  | EDeliver j d =>
      match subs s !! j with
      | Some x =>
          match chans s !! onChan x with
          | Some h =>
              if streamClosed x || cancelled x || ended h || negb (bool_decide (0 <= rBodyLen d <= maxBody c))
              then None
              else Some (with_sub j {| x with stream := stream x ++ [d]; delivered := delivered x ++ [d] |} s)
          | None => None
          end
      | None => None
      end
  | EDie k =>
      match chans s !! k with
      | Some h => if died h then None
                  else Some (with_chan k {| h with closeBuf := true; died := true |} s)
      | None => None
      end
  | ERevoke k tag =>
      match chans s !! k with
      | Some h => if ended h then None
                  else Some (with_chan k {| h with cancelBuf := Some tag; revoked := true |} s)
      | None => None
      end
  | EStreamEnd j =>
      match subs s !! j with
      | Some x =>
          match chans s !! onChan x with
          | Some h => if cancelled x || ended h then Some (with_sub j {| x with streamClosed := true |} s)
                      else None
          | None => None
          end
      | None => None
      end
  | ENotifyClosed k =>
      match chans s !! k with
      | Some h => if died h then Some (with_chan k {| h with notifyClosed := true |} s) else None
      | None => None
      end
  | ECtx => Some {| s with ctxDone := true |}
  | EReconnecting b => Some {| s with reconnecting := b |}
  | EHook => if started s then Some {| s with hooks := hooks s ++ [KJitter] |} else None
  end.

(** ** The system *)

Inductive label : Type :=
| LMain (arm : main_arm)
| LConsume                    (* a further call of Consume *)
| LPump (j : nat) (arm : pump_arm)
| LHandler (i : nat)
| LHook (i : nat) (arm : hook_arm)
| LPause (ctxErr : goerror)
| LPauseCancelled (err : goerror)
| LResume (ctxErr : goerror)
| LResubscribe (err : goerror)
| LSwap
| LHandoff
| LResumeCtx
| LResumeCancelled (ctxErr : error) (err : goerror)
| LClose
| LEnv (e : env_event).

Definition step (c : config) (l : label) (s : state) : option state :=
  match l with
  | LMain arm => runConsume c arm s
  | LConsume => match runConsume_enter s with Some (Some _, s') => Some s' | _ => None end
  | LPump j arm => pump_step c j arm s
  | LHandler i => handler_done i s
  | LHook i arm => hook_step i arm s
  | LPause e => snd <$> Pause e s
  | LPauseCancelled e => snd <$> Pause_cancelled e s
  | LResume e => snd <$> Resume e s
  | LResubscribe e => snd <$> resubscribeLocked e s
  | LSwap => snd <$> Resume_swap s
  | LHandoff => snd <$> Resume_handoff s
  | LResumeCtx => snd <$> Resume_ctxDone s
  | LResumeCancelled e err => snd <$> Resume_cancelled e err s
  | LClose => Some (Close s)
  | LEnv e => env_step c e s
  end.

Inductive reachable (c : config) : state -> Prop :=
| reach_initial : reachable c (initial c)
| reach_step s l s' : reachable c s -> step c l s = Some s' -> reachable c s'.

Fixpoint steps (c : config) (ls : list label) (s : state) : option state :=
  match ls with
  | [] => Some s
  | l :: r => match step c l s with Some s' => steps c r s' | None => None end
  end.

Lemma subscription_steps c ls s s' : reachable c s -> steps c ls s = Some s' -> reachable c s'.
Proof.
  revert s. induction ls as [|l ls IH]; intros s Hs; simpl; [by intros [= <-]|].
  destruct (step c l s) eqn:E; [|done]. apply IH. by eapply reach_step.
Qed.
