(* ===== verification/SubscriptionInv.v ===== *)
(** * SubscriptionInv: every reachable state of a consumer's subscription

    The invariants of the system of [Subscription.v] and the theorems about
    it: order and loss of deliveries, what is in flight, how the loop ends, how
    the end of a channel reaches the handlers and the caller; then the
    interleavings in which the code does not do what it means to. *)

From S2P Require Import Prelude Errors Values Limiters Delivery Subscription.

(** ** Lemmas: no delivery is lost, doubled or reordered *)

Definition in_hand (m : main_phase) (j : nat) : list rawDelivery :=
  match m with
  | MSem cur d | MBytes cur d => if decide (cur = j) then [d] else []
  | _ => []
  end.

Definition pump_hand (p : pump_phase) : list rawDelivery :=
  match p with QSend d => [d] | _ => [] end.

Definition giving_back (m : main_phase) : Prop :=
  match m with MRequeue _ | MReturned _ => True | _ => False end.

Record fifo (big : Z) (m : main_phase) (ctx : bool) (j : nat) (x : sub) : Prop := {
  fifo_order : delivered x = dispatched x ++ requeued x ++ in_hand m j ++ out x
                             ++ pump_hand (pump x) ++ dropped x ++ stream x;
  fifo_requeued : requeued x = [] ∨ giving_back m ∧ ctx = true;
  fifo_dropped : dropped x = [] ∨ ctx = true ∧ pump x = QExit;
  fifo_bodies : Forall (fun d => 0 <= rBodyLen d <= big) (delivered x)
}.

Definition fresh_ids (s : state) : Prop :=
  ∀ j, (nextId s <= j)%nat -> subs s !! j = None ∧ chans s !! j = None.

(** Split a step into its branches. *)
Ltac step_cases H :=
  match type of H with
  | step _ ?l _ = Some _ =>
      destruct l; cbn [step] in H;
      unfold runConsume, runConsume_enter, recoverDeliveryChannel, common_arm, hook_step, openDeliveryCh, cancelLiveSubscription,
        requeueUndispatched, pump_step, pump_cancelled, handler_done, env_step,
        Pause, Pause_cancelled, Resume, resubscribeLocked, Resume_swap, Resume_handoff, Resume_ctxDone,
        Resume_cancelled, Close, return_, go_on, handleBrokerCancel, surfaceBrokerCancel,
        forwardCancelReason, finish in H;
      branches H; cbn in H;
      repeat match goal with Hs : Some _ = Some (_, _) |- _ => injection Hs as ? ?; subst end;
      try discriminate H; injection H as <-
  end.

(** A subscription after a step: the one the step wrote, or an old one. *)
Ltac sub_cases Hx :=
  simpl in Hx;
  lazymatch type of Hx with
  | <[ _ := _ ]> _ !! _ = Some _ => apply lookup_insert_Some in Hx as [[<- <-]|[? Hx]]; [|sub_cases Hx]
  | (_ <$> _) !! _ = Some _ =>
      let y := fresh "y" in
      apply lookup_fmap_Some in Hx as (y & <- & Hx);
      unfold cancel_sub; destruct (decide (onChan y = _)) as [?E|?E]
  | _ => idtac
  end.

Lemma fresh_step c l s s' : fresh_ids s -> step c l s = Some s' -> fresh_ids s'.
Proof.
  intros Hf H. step_cases H.
  all: intros jj Hj; specialize (Hf jj); simpl in *.
  all: try (apply Hf; lia).
  all: assert (nextId s <= jj)%nat as Hle by lia; destruct (Hf Hle) as [Hf1 Hf2]; rewrite ?lookup_insert_None, ?lookup_fmap, ?Hf1, ?Hf2.
  all: intuition (try lia; congruence).
Qed.

Lemma fifo_frame big m m' ctx ctx' j x :
  fifo big m ctx j x -> in_hand m' j = in_hand m j -> (giving_back m -> giving_back m') ->
  (ctx = true -> ctx' = true) -> fifo big m' ctx' j x.
Proof. intros [Ho Hr Hd Hb] Hh Hg Hc. split; [by rewrite Hh|naive_solver|naive_solver|done]. Qed.

(** What the loop has in hand belongs to a subscription. *)
Definition hand_known (s : state) : Prop := ∀ j, subs s !! j = None -> in_hand (main s) j = [].

Lemma hand_step c l s s' : hand_known s -> fresh_ids s -> step c l s = Some s' -> hand_known s'.
Proof.
  intros Hh Hf H j Hj. specialize (Hh j). step_cases H; simpl in Hj |- *.
  all: rewrite ?lookup_insert_None, ?lookup_fmap, ?fmap_None in Hj.
  all: try done; try (apply Hh; tauto).
  all: match goal with E : main _ = _ |- _ => rewrite ?E in Hh; rewrite ?E end; try (apply Hh; tauto).
  all: simpl; rewrite decide_False; tauto.
Qed.

Lemma deliver_guard (b : bool) (P : Prop) `{Decision P} : b || negb (bool_decide P) = false -> P.
Proof. case_bool_decide; [done|]. by destruct b. Qed.

Lemma fifo_step c l s s' :
  (∀ j x, subs s !! j = Some x -> fifo (maxBody c) (main s) (ctxDone s) j x) ->
  fresh_ids s -> hand_known s -> (∀ cur, main s = MRequeue cur -> ctxDone s = true) ->
  step c l s = Some s' -> ∀ j x, subs s' !! j = Some x -> fifo (maxBody c) (main s') (ctxDone s') j x.
Proof.
  intros Hi Hf Hh Hq H j' x' Hx.
  assert (in_hand (main s) (nextId s) = []) as Hn by (apply Hh, Hf; lia).
  step_cases H; sub_cases Hx; simpl.
  all: try (apply (fifo_frame _ _ _ _ _ _ _ (Hi _ _ Hx)); simpl; done).
  all: try match goal with
       | E : main _ = _ |- _ => rewrite ?E in Hi; rewrite ?E in Hn; rewrite ?E in Hq; rewrite ?E
       end.
  all: try (apply (fifo_frame _ _ _ _ _ _ _ (Hi _ _ Hx)); simpl; by rewrite ?decide_False).
  all: try (split; simpl; [by rewrite ?Hn|by left|by left|constructor]).
  all: match goal with E : subs _ !! _ = Some _ |- _ => destruct (Hi _ _ E) as [Ho Hr Hd Hb] end.
  all: try match goal with E : pump _ = _ |- _ => rewrite ?E in Ho; rewrite ?E in Hd end; simpl in *.
  all: try (split; simpl in *; naive_solver).
  all: split; simpl; [| by naive_solver | by naive_solver |
         first [done | apply Forall_app_2; [done|by apply Forall_singleton; eapply deliver_guard]]].
  all: rewrite ?decide_True in * by done; rewrite Ho;
    try match goal with E : out _ = _ |- _ => rewrite E | E : stream _ = _ |- _ => rewrite E end.
  all: try destruct Hr as [->|[]]; try destruct Hd as [->|[]]; try done;
    by rewrite <- ?app_assoc, ?app_nil_r.
Qed.

(** ** Lemmas: what is in flight *)

Definition in_budget (m : main_phase) : nat := match m with MBytes _ _ => 1 | _ => 0 end.

Record accounts (c : config) (m : main_phase) (sm : nat) (n : Z) (hs : list (nat * rawDelivery)) : Prop := {
  acc_sem : sm = (length hs + in_budget m)%nat;
  acc_bound : (sm <= concurrency c)%nat;
  acc_inFlight : n = Z.of_nat (length hs)
}.

Lemma accounts_step c l s s' :
  accounts c (main s) (sem s) (inFlight s) (handlers s) -> step c l s = Some s' ->
  accounts c (main s') (sem s') (inFlight s') (handlers s').
Proof.
  intros [Hs Hb Hn] H. step_cases H; simpl; try done.
  all: try match goal with E : main _ = _ |- _ => rewrite ?E in Hs; rewrite ?E end.
  all: try match goal with E : handlers _ = _ |- _ => rewrite ?E end.
  all: try match goal with E : handlers _ !! _ = Some _ |- _ =>
         pose proof (length_delete _ _ (mk_is_Some _ _ E)); pose proof (lookup_lt_Some _ _ _ E) end.
  all: split; simpl in *; lia.
Qed.

Definition sizes (hs : list (nat * rawDelivery)) : list Z := (fun h => rBodyLen h.2) <$> hs.

Lemma sizes_delete hs i j d :
  hs !! i = Some (j, d) -> ∃ l1 l2, sizes hs = l1 ++ rBodyLen d :: l2 ∧ sizes (delete i hs) = l1 ++ l2.
Proof.
  intros E. exists (sizes (take i hs)), (sizes (drop (S i) hs)). split.
  - unfold sizes. rewrite <- (take_drop_middle _ _ _ E) at 1. by rewrite fmap_app, fmap_cons.
  - rewrite delete_take_drop. unfold sizes. by rewrite fmap_app.
Qed.

(** A delivery the loop has in hand is one the broker sent. *)
Lemma hand_bounded big m ctx j x d :
  fifo big m ctx j x -> in_hand m j = [d] -> 0 <= rBodyLen d <= big.
Proof.
  intros [Ho _ _ Hb] E. rewrite Forall_forall in Hb. apply Hb. rewrite Ho, E. set_solver.
Qed.

Lemma bytes_effect c l s s' :
  (∀ j x, subs s !! j = Some x -> fifo (maxBody c) (main s) (ctxDone s) j x) -> step c l s = Some s' ->
  (bytes s', sizes (handlers s')) = (bytes s, sizes (handlers s))
  ∨ byte_step (bytes s, sizes (handlers s)) (bytes s', sizes (handlers s'))
    ∧ (Forall (fun n => n <= maxBody c) (sizes (handlers s)) ->
       Forall (fun n => n <= maxBody c) (sizes (handlers s'))).
Proof.
  intros Hi H. step_cases H; try by left.
  all: try (left; simpl; by match goal with E : handlers _ = _ |- _ => rewrite E end).
  all: right; simpl.
  - destruct (hand_bounded _ _ _ _ _ d (Hi _ _ Heqo0)) as [H1 H2]; [by simpl; rewrite decide_True|].
    split; [by constructor|]. by constructor.
  - destruct (sizes_delete _ _ _ _ Heqo) as (l1 & l2 & E1 & E2). rewrite E1, E2. split; [constructor|].
    rewrite !Forall_app, Forall_cons. tauto.
Qed.

Lemma bytes_step c l s s' :
  0 < maxInFlightBytes c -> Z.max (maxInFlightBytes c) (maxBody c) + maxBody c <= maxInt64 ->
  (∀ j x, subs s !! j = Some x -> fifo (maxBody c) (main s) (ctxDone s) j x) ->
  byte_inv (maxInFlightBytes c) (maxBody c) (bytes s, sizes (handlers s)) -> step c l s = Some s' ->
  byte_inv (maxInFlightBytes c) (maxBody c) (bytes s', sizes (handlers s')).
Proof.
  intros Hl Hm Hi Hb H. destruct (bytes_effect _ _ _ _ Hi H) as [E|[Hs Hu]]; [by rewrite E|].
  eapply byte_inv_step; [done|done| |done|done]. apply Hu. destruct Hb as [Hb _].
  eapply Forall_impl; [exact Hb|]. simpl. lia.
Qed.

(** ** Lemmas: how the loop ends *)

Definition cancelled_err : error := Wrap [Sentinel ErrConsumerCancelled].

Definition loop_ok (m : main_phase) (ctx stop : bool) (hs : list (nat * rawDelivery))
  (sf : list cancel_event) : Prop :=
  match m with
  | MIdle | MOpen _ => hs = [] ∧ stop = false ∧ sf = []
  | MSelect _ | MSem _ _ | MBytes _ _ | MRecover _ => stop = false ∧ sf = []
  | MDrain _ | MStop => ctx = true ∧ stop = false ∧ sf = []
  | MCancelLive _ | MRequeue _ => ctx = true ∧ hs = [] ∧ stop = false ∧ sf = []
  | MBroker e => e = cancelled_err ∧ sf ≠ [] ∧ stop = false
  | MReturned None => ctx = true ∧ hs = [] ∧ stop = true ∧ sf = []
  | MReturned (Some e) =>
      hs = [] ∧ stop = true
      ∧ (sf = [] ∧ (∃ a, open_error a = Some e) ∨ sf ≠ [] ∧ e = cancelled_err)
  end.

Lemma loop_ok_step c l s s' :
  loop_ok (main s) (ctxDone s) (stopped s) (handlers s) (surfaced s) -> step c l s = Some s' ->
  loop_ok (main s') (ctxDone s') (stopped s') (handlers s') (surfaced s').
Proof.
  intros Hl H. step_cases H; simpl; try done.
  all: try match goal with E : main _ = _ |- _ => rewrite ?E in Hl; rewrite ?E; simpl in * end.
  all: try naive_solver.
  all: try (split; [done|split; [by destruct (surfaced s)|tauto]]).
  all: try match goal with
       | E : handlers _ !! _ = Some _ |- _ =>
           assert (handlers s ≠ []) by (intros E'; rewrite E' in E; done)
       end.
  all: destruct (main s) as [| | | | | | | | | | |[]]; naive_solver.
Qed.

(** ** Lemmas: the identities in use *)

Definition open_below (n : nat) (o : open_phase) : Prop :=
  match o with OPublish k => (k < n)%nat | _ => True end.

Definition main_below (n : nat) (m : main_phase) : Prop :=
  match m with MOpen o | MRecover (ROpen _ o) => open_below n o | _ => True end.

Definition hook_below (n : nat) (p : hook_phase) : Prop :=
  match p with KOpen o => open_below n o | _ => True end.

Record ids_ok (s : state) : Prop := {
  ids_main : main_below (nextId s) (main s);
  ids_hooks : ∀ i p, hooks s !! i = Some p -> hook_below (nextId s) p;
  ids_live : ∀ k, live s = Some k -> (k < nextId s)%nat;
  ids_subs : ∀ j x, subs s !! j = Some x -> (onChan x < nextId s)%nat
}.

Lemma open_below_S n o : open_below n o -> open_below (S n) o.
Proof. destruct o; simpl; lia. Qed.
Lemma main_below_S n m : main_below n m -> main_below (S n) m.
Proof. destruct m as [|[]| | | |[]| | | | | |]; simpl; try done; try apply open_below_S; lia. Qed.
Lemma hook_below_S n p : hook_below n p -> hook_below (S n) p.
Proof. destruct p; simpl; try done. apply open_below_S. Qed.

Lemma ids_step c l s s' : ids_ok s -> step c l s = Some s' -> ids_ok s'.
Proof.
  intros [Hm Hk Hl Hs] H.
  assert (∀ i p, hooks s !! i = Some p -> hook_below (S (nextId s)) p) as Hk'
    by (intros; eapply hook_below_S, Hk; done).
  assert (∀ k, live s = Some k -> (k < S (nextId s))%nat) as Hl' by (intros k E; specialize (Hl k E); lia).
  assert (∀ j x, subs s !! j = Some x -> (onChan x < S (nextId s))%nat) as Hs'
    by (intros j x E; specialize (Hs j x E); lia).
  apply main_below_S in Hm as Hm'.
  step_cases H.
  all: try match goal with E : main _ = _ |- _ => rewrite ?E in Hm; rewrite ?E in Hm' end.
  all: split; simpl; try done.
  all: try (intros ?? Hx; sub_cases Hx; simpl in *; eauto with lia; fail).
  all: try (intros ?? [[-> [<- ?]]|[? Hx]]%list_lookup_insert_Some; simpl; eauto with lia; fail).
  all: try (intros; simplify_eq; simpl in *; try match goal with E : main _ = _ |- _ => rewrite E end; eauto with lia; congruence).
  - intros k0 [= <-]. exact (Hk' _ _ Heqo).
  - intros j x Hx. sub_cases Hx; [exact (Hk' _ _ Heqo)|by eapply Hs'].
  - intros i p [Hx|[_ Hx]]%lookup_app_Some; [by eapply Hk|].
    by apply list_lookup_singleton_Some in Hx as [_ <-].
Qed.

(** ** Lemmas: the end of a channel *)

(** A pump that holds a signal of the end of its channel, or is about to close
    [channelDone]. *)
Definition took (p : pump_phase) : bool :=
  match p with QDrainCancel true | QDecide true | QCloseDone => true | _ => false end.

Definition draining (p : pump_phase) : bool :=
  match p with QDrainClose | QDrainCancel _ | QDecide _ => true | _ => false end.

Definition seen (s : state) (k : nat) : Prop :=
  (∃ j x, subs s !! j = Some x ∧ onChan x = k ∧ took (pump x) = true)
  ∨ ∃ h, chans s !! k = Some h ∧ done h = true.

Definition forwarded (s : state) : Prop := is_Some (cancelReasonCh s) ∨ surfaced s ≠ [].

(** The channel ended, or a local cancel on it took effect. *)
Definition justified (s : state) (k : nat) : Prop :=
  (∃ h, chans s !! k = Some h ∧ ended h = true)
  ∨ ∃ j x, subs s !! j = Some x ∧ onChan x = k ∧ cancelled x = true ∧ streamClosed x = true.

(** What no step takes back. *)
Record chan_ev (h h' : channel) : Prop := {
  ce_done : done h = true -> done h' = true;
  ce_died : died h = true -> died h' = true;
  ce_ended : ended h = true -> ended h' = true
}.

Record sub_ev (chs' : gmap nat channel) (x x' : sub) : Prop := {
  se_chan : onChan x' = onChan x;
  se_cancelled : cancelled x = true -> cancelled x' = true;
  se_closed : streamClosed x = true -> streamClosed x' = true;
  se_took : took (pump x) = true ->
    took (pump x') = true ∨ ∃ h, chs' !! onChan x = Some h ∧ done h = true
}.

#[export] Instance chan_ev_refl : Reflexive chan_ev.
Proof. by split. Qed.
#[export] Instance sub_ev_refl chs' : Reflexive (sub_ev chs').
Proof. split; auto. Qed.

Lemma cancel_sub_ev chs' k x : sub_ev chs' x (cancel_sub k x).
Proof. unfold cancel_sub. case_decide; split; simpl; auto. Qed.

Record evolves (s s' : state) : Prop := {
  ev_chan : keeps chan_ev (chans s) (chans s');
  ev_sub : keeps (sub_ev (chans s')) (subs s) (subs s');
  ev_ctx : ctxDone s = true -> ctxDone s' = true;
  ev_forwarded : forwarded s -> forwarded s'
}.

Lemma surfaced_more l x r : l ++ x :: r ≠ ([] : list cancel_event).
Proof. by destruct l. Qed.

Lemma step_evolves c l s s' : fresh_ids s -> step c l s = Some s' -> evolves s s'.
Proof.
  intros Hf H. destruct (Hf (nextId s) (le_n _)) as [Hn Hc].
  step_cases H.
  all: split; simpl; try (apply keeps_refl; apply _); try done.
  all: try (apply keeps_fresh; [apply _|done]); try (apply keeps_fmap, cancel_sub_ev).
  all: try (unfold forwarded; simpl; right; apply surfaced_more).
  all: try (eapply keeps_insert; [apply _|eassumption|]).
  all: try (split; simpl; try done; auto; fail).
  all: try (intros _; left; done).
  all: try (split; simpl; try done; rewrite Heqp; simpl; try done; destruct death; simpl in *; auto; done).
  - split; simpl; try done. right. rewrite lookup_insert_eq. eauto.
  - split; unfold ended; simpl; try done. intros _. by rewrite orb_true_r.
Qed.

Lemma seen_evolves s s' k : evolves s s' -> seen s k -> seen s' k.
Proof.
  intros [Hc Hs _ _] [(j & x & Hx & Hk & Ht)|(h & Hh & Hd)].
  - destruct (Hs _ _ Hx) as (x' & Hx' & [E _ _ Hp]). destruct (Hp Ht) as [Ht'|(h & Hh & Hd)].
    + left. exists j, x'. by rewrite E.
    + right. exists h. by rewrite <- Hk.
  - destruct (Hc _ _ Hh) as (h' & Hh' & [Hd' _ _]). right. exists h'. auto.
Qed.

Lemma justified_evolves s s' k : evolves s s' -> justified s k -> justified s' k.
Proof.
  intros [Hc Hs _ _] [(h & Hh & Hd)|(j & x & Hx & Hk & H1 & H2)].
  - destruct (Hc _ _ Hh) as (h' & Hh' & [_ _ He]). left. exists h'. auto.
  - destruct (Hs _ _ Hx) as (x' & Hx' & [E Hca Hcl _]). right. exists j, x'. rewrite E. auto.
Qed.

(** What a channel's state tells. *)
Record chan_watch (s : state) (k : nat) (h : channel) : Prop := {
  cw_close : close_ready h = true -> died h = true;
  cw_cancel : is_Some (cancelBuf h) -> revoked h = true;
  cw_ended : ended h = true -> closeBuf h = true ∨ is_Some (cancelBuf h) ∨ seen s k;
  cw_revoked : revoked h = true -> is_Some (cancelBuf h) ∨ forwarded s;
  cw_done : done h = true -> justified s k
}.

(** What a subscription's state tells, on its channel [h]. *)
Record sub_watch (s : state) (x : sub) (h : channel) : Prop := {
  sw_closed : streamClosed x = true -> cancelled x = true ∨ ended h = true;
  sw_draining : draining (pump x) = true -> streamClosed x = true;
  sw_took : took (pump x) = true -> justified s (onChan x);
  sw_end : cancelled x = false ->
    match pump x with
    | QDrainCancel false => is_Some (cancelBuf h) ∨ seen s (onChan x)
    | QDecide false => seen s (onChan x)
    | QExit => ctxDone s = true ∨ seen s (onChan x)
    | _ => True
    end;
  sw_cancel : cancelled x = false -> died h = false ->
    match pump x with
    | QDecide _ | QCloseDone | QExit => ctxDone s = true ∨ forwarded s
    | _ => True
    end
}.

Record watch (s : state) : Prop := {
  w_chan : ∀ k h, chans s !! k = Some h -> chan_watch s k h;
  w_sub : ∀ j x h, subs s !! j = Some x -> chans s !! onChan x = Some h -> sub_watch s x h
}.

Lemma chan_watch_frame s s' k h : evolves s s' -> chan_watch s k h -> chan_watch s' k h.
Proof.
  intros He [H1 H2 H3 H4 H5]. pose proof (ev_forwarded _ _ He). split; try done.
  - intros Hd. destruct (H3 Hd) as [?|[?|?]]; eauto using seen_evolves.
  - naive_solver.
  - eauto using justified_evolves.
Qed.

Lemma chan_watch_new s k : chan_watch s k open_channel.
Proof. by split; simpl; try done; intros [? ?]. Qed.

(** A subscription whose pump does not move. *)
Record still (x x' : sub) : Prop := {
  st_chan : onChan x' = onChan x;
  st_pump : pump x' = pump x;
  st_closed : streamClosed x' = streamClosed x;
  st_cancelled : cancelled x = true -> cancelled x' = true
}.

Lemma sub_watch_frame s s' x x' h h' :
  evolves s s' -> still x x' -> chan_ev h h' ->
  (is_Some (cancelBuf h) -> is_Some (cancelBuf h') ∨ seen s' (onChan x)) ->
  sub_watch s x h -> sub_watch s' x' h'.
Proof.
  intros He [Ec Ep Es Hc] [_ Hdd Hee] Hb [H1 H2 H3 H4 H5].
  assert (cancelled x' = false -> cancelled x = false) as Hc'
    by (intros E; destruct (cancelled x); [by rewrite Hc in E|done]).
  assert (died h' = false -> died h = false) as Hd'
    by (intros E; destruct (died h); [by rewrite Hdd in E|done]).
  pose proof (ev_forwarded _ _ He). pose proof (ev_ctx _ _ He).
  split; rewrite ?Ec, ?Ep, ?Es; try done.
  - naive_solver.
  - eauto using justified_evolves.
  - intros E. specialize (H4 (Hc' E)). destruct (pump x) as [| | |[]|[]| |]; try done.
    + destruct H4; eauto using seen_evolves.
    + eauto using seen_evolves.
    + destruct H4; eauto using seen_evolves.
  - intros E E'. specialize (H5 (Hc' E) (Hd' E')). destruct (pump x); naive_solver.
Qed.

Lemma sub_watch_new s k h : sub_watch s (new_sub k) h.
Proof. by split. Qed.

Definition quiet (l : label) : bool := match l with LPump _ _ | LEnv _ => false | _ => true end.

Lemma quiet_chans c l s s' k h :
  quiet l = true -> step c l s = Some s' -> chans s' !! k = Some h ->
  chans s !! k = Some h ∨ h = open_channel ∧ (nextId s <= k)%nat.
Proof.
  intros Hq H Hx. step_cases H; try discriminate Hq; clear Hq; simpl in Hx; try (by left).
  all: apply lookup_insert_Some in Hx as [[<- <-]|[_ Hx]]; [right; split; [done|lia]|by left].
Qed.

Lemma quiet_subs c l s s' j x' :
  quiet l = true -> step c l s = Some s' -> subs s' !! j = Some x' ->
  (∃ x, subs s !! j = Some x ∧ still x x') ∨ ∃ k, x' = new_sub k.
Proof.
  intros Hq H Hx. step_cases H; try discriminate Hq; clear Hq; sub_cases Hx; eauto.
  all: try (left; eexists; split; [eassumption|by split]).
Qed.

Lemma watch_quiet c l s s' :
  quiet l = true -> step c l s = Some s' -> fresh_ids s -> ids_ok s -> watch s -> watch s'.
Proof.
  intros Hq H Hf Hi [Hc Hs]. pose proof (step_evolves _ _ _ _ Hf H) as He. split.
  - intros k h Hh. destruct (quiet_chans _ _ _ _ _ _ Hq H Hh) as [Hh'|[-> _]];
      [eauto using chan_watch_frame|apply chan_watch_new].
  - intros j x h Hx Hh. destruct (quiet_subs _ _ _ _ _ _ Hq H Hx) as [(x0 & Hx0 & Hst)|[k ->]];
      [|apply sub_watch_new].
    rewrite (st_chan _ _ Hst) in Hh. pose proof (ids_subs _ Hi _ _ Hx0).
    destruct (quiet_chans _ _ _ _ _ _ Hq H Hh) as [Hh'|[_ ?]]; [|lia].
    eapply (sub_watch_frame s s' x0 x h h); [done|done|done|by left|eauto].
Qed.

(** One subscription and its channel change. *)
Lemma watch_update s s' j x x' h h' :
  evolves s s' -> watch s -> subs s !! j = Some x -> chans s !! onChan x = Some h ->
  subs s' = <[ j := x' ]> (subs s) -> chans s' = <[ onChan x := h' ]> (chans s) ->
  onChan x' = onChan x ->
  chan_ev h h' -> (is_Some (cancelBuf h) -> is_Some (cancelBuf h') ∨ seen s' (onChan x)) ->
  chan_watch s' (onChan x) h' -> sub_watch s' x' h' -> watch s'.
Proof.
  intros He [Hc Hs] Hx Hh Es Eh Ec Hev Hb Hcw Hsw. split.
  - intros k g. rewrite Eh. intros [[<- <-]|[_ Hg]]%lookup_insert_Some; [done|].
    eauto using chan_watch_frame.
  - intros i y g. rewrite Es, Eh. intros [[<- <-]|[_ Hy]]%lookup_insert_Some.
    + rewrite Ec, lookup_insert_eq. by intros [= <-].
    + assert (still y y) as Hst by by split.
      intros [[E <-]|[_ Hg]]%lookup_insert_Some.
      * rewrite E in *. by eapply (sub_watch_frame s s' y y h h'); eauto.
      * eapply (sub_watch_frame s s' y y g g); [done|done|reflexivity|by left|eauto].
Qed.

Lemma watch_update_sub s s' j x x' h :
  evolves s s' -> watch s -> subs s !! j = Some x -> chans s !! onChan x = Some h ->
  subs s' = <[ j := x' ]> (subs s) -> chans s' = chans s -> onChan x' = onChan x -> sub_watch s' x' h -> watch s'.
Proof.
  intros He Hw Hx Hh Es Eh Ec Hsw. eapply (watch_update s s' j x x' h h); eauto.
  - by rewrite Eh, insert_id.
  - reflexivity.
  - eapply chan_watch_frame; [done|]. by apply Hw.
Qed.

(** The end of [x] on [h] is justified in a later state. *)
Lemma end_justified s s' j x h :
  evolves s s' -> subs s !! j = Some x -> chans s !! onChan x = Some h -> sub_watch s x h ->
  streamClosed x = true -> justified s' (onChan x).
Proof.
  intros He Hx Hh Hw Hc. eapply justified_evolves; [done|].
  destruct (sw_closed _ _ _ Hw Hc); [right|left]; eauto 10.
Qed.

Lemma ended_justified s s' k h :
  evolves s s' -> chans s !! k = Some h -> ended h = true -> justified s' k.
Proof. intros He Hh Hd. eapply justified_evolves; [done|]. left. eauto. Qed.

Lemma died_ended h : died h = true -> ended h = true.
Proof. unfold ended. by intros ->. Qed.
Lemma revoked_ended h : revoked h = true -> ended h = true.
Proof. unfold ended. intros ->. apply orb_true_r. Qed.
#[local] Hint Resolve died_ended revoked_ended end_justified ended_justified seen_evolves
  justified_evolves : warren.

Lemma seen_took s j x k : subs s !! j = Some x -> onChan x = k -> took (pump x) = true -> seen s k.
Proof. left. eauto. Qed.

(** A pump takes a signal of the end. *)
Lemma took_watch s s' k h h' :
  evolves s s' -> chan_watch s k h -> seen s' k ->
  h' = take_close h ∨ h' = take_cancel h ∧ forwarded s' -> chan_watch s' k h'.
Proof.
  intros He [C1 C2 C3 C4 C5] Hs Hh.
  pose proof (ev_forwarded _ _ He). unfold close_ready in *.
  destruct Hh as [->|[-> Hfw]]; split; simpl in *; try (intros [? ?]; done); eauto using justified_evolves.
  - unfold close_ready. simpl. intros E. apply C1. by rewrite E, orb_true_r.
  - intros Hr. destruct (C4 Hr); auto.
Qed.

Lemma watch_pump c j arm s s' :
  step c (LPump j arm) s = Some s' -> fresh_ids s -> watch s -> watch s'.
Proof.
  intros H Hf Hw. pose proof (step_evolves _ _ _ _ Hf H) as He.
  cbn [step] in H. unfold pump_step, pump_cancelled, forwardCancelReason in H. branches H.
  all: injection H as <-.
  all: pose proof (w_chan _ Hw _ _ Heqo0) as Hcw; pose proof (w_sub _ Hw _ _ _ Heqo Heqo0) as Hsw.
  all: first [eapply (watch_update_sub s _ j _ _ _ He Hw Heqo Heqo0); [reflexivity|done|done|]
             |eapply (watch_update s _ j _ _ _ _ He Hw Heqo Heqo0); [reflexivity|reflexivity|done| | | |]].
  all: try (by split).
  all: try (right; eapply (seen_took _ j); [apply lookup_insert_eq|done|done]).
  all: try (eapply took_watch; [exact He|exact Hcw| |];
    [eapply (seen_took _ j); [apply lookup_insert_eq|done|done]
    |first [by left|right; split; [done|left; simpl; eauto]]]).
  all: try (by left).
  all: pose proof Hsw as [S1 S2 S3 S4 S5]; rewrite Heqp in S2, S3, S4, S5.
  all: pose proof Hcw as [C1 C2 C3 C4 C5]; unfold close_ready in *.
  all: match type of He with evolves _ ?s' =>
         assert (ctxDone s' = ctxDone s) as Hctx by done;
         try assert (forwarded s') as Hfw by (left; simpl; eauto; done);
         try assert (seen s' (onChan s0)) as Hseen by (right; simpl; rewrite lookup_insert_eq; eauto; done);
         remember s' as st eqn:Est; clear Est end.
  all: pose proof (ended_justified _ _ _ _ He Heqo0) as J1; pose proof (end_justified _ _ _ _ _ He Heqo Heqo0 Hsw) as J2;
     pose proof (justified_evolves _ _ (onChan s0) He) as J3; pose proof (seen_evolves _ _ (onChan s0) He) as J4;
     pose proof (ev_forwarded _ _ He) as J5;
     pose proof (died_ended c0); pose proof (revoked_ended c0);
     pose proof (proj1 (orb_true_iff (died c0) (revoked c0))) as J6.
  all: split; simpl in *; try done; rewrite ?Hctx.
  all: try (tauto).
  all: try (intros _; apply J1; first [by apply H0, C2|apply H, C1; by rewrite ?Heqb, ?orb_true_r]).
  all: try (intros _ E; rewrite C1 in E; [done|by rewrite ?Heqb, ?orb_true_r]).
  all: assert (cancelled s0 = false -> ended c0 = true) as Hend
    by (intros E; destruct S1 as [E'|]; [by apply S2|congruence|done]).
  - intros E. destruct (C3 (Hend E)) as [Ec|[|]]; [by rewrite Ec in Heqb|by left|auto].
  - intros E. destruct death; [done|]. destruct (S4 E) as [Hs|]; [rewrite Heqo1 in Hs; by destruct Hs|auto].
  - intros E E'. right. destruct (J6 (Hend E)) as [?|Hr]; [congruence|].
    destruct (C4 Hr) as [Hs|]; [rewrite Heqo1 in Hs; by destruct Hs|auto].
  - intros E. destruct death; [done|]. auto.
Qed.

Lemma still_refl x : still x x.
Proof. by split. Qed.
#[local] Hint Resolve still_refl : warren.

(** Only a channel changes; its pending cancel stays. *)
Lemma watch_update_chan s s' k h h' :
  evolves s s' -> watch s -> chans s !! k = Some h ->
  subs s' = subs s -> chans s' = <[ k := h' ]> (chans s) -> chan_ev h h' ->
  (is_Some (cancelBuf h) -> is_Some (cancelBuf h')) -> chan_watch s' k h' -> watch s'.
Proof.
  intros He [Hc Hs] Hh Es Eh Hev Hb Hcw. split.
  - intros i g. rewrite Eh. intros [[<- <-]|[_ Hg]]%lookup_insert_Some; [done|].
    eauto using chan_watch_frame.
  - intros i y g Hy. rewrite Es in Hy. rewrite Eh. intros [[-> <-]|[_ Hg]]%lookup_insert_Some.
    + eapply (sub_watch_frame s s' y y h h'); eauto with warren.
    + eapply (sub_watch_frame s s' y y g g); [done|apply still_refl|reflexivity|by left|eauto].
Qed.

Lemma watch_same s s' :
  evolves s s' -> watch s -> subs s' = subs s -> chans s' = chans s -> watch s'.
Proof.
  intros He [Hc Hs] Es Eh. split.
  - intros k h. rewrite Eh. eauto using chan_watch_frame.
  - intros j x h. rewrite Es, Eh. intros Hx Hh.
    eapply (sub_watch_frame s s' x x h h); [done|apply still_refl|reflexivity|by left|eauto].
Qed.

Lemma watch_env c e s s' :
  step c (LEnv e) s = Some s' -> fresh_ids s -> watch s -> watch s'.
Proof.
  intros H Hf Hw. pose proof (step_evolves _ _ _ _ Hf H) as He. pose proof Hw as [Hc Hs].
  cbn [step] in H. unfold env_step in H. branches H; injection H as <-.
  all: try (by eapply watch_same).
  all: try (eapply (watch_update_sub s _ j _ _ _ He Hw Heqo Heqo0); [reflexivity|done|done|]).
  all: try (eapply (watch_update_chan s _ k _ _ He Hw Heqo); [done|reflexivity| |by eauto|];
            pose proof (chan_watch_frame _ _ _ _ He (Hc _ _ Heqo)) as [C1 C2 C3 C4 C5]).
  all: try (pose proof (Hs _ _ _ Heqo Heqo0) as Hsw).
  all: try (split; unfold ended; simpl; try done; intros; by rewrite ?orb_true_r).
  - eapply (sub_watch_frame s _ s0 _ c0 c0); [done|by split|reflexivity|by left|done].
  - split; simpl; auto.
  - split; simpl; eauto.
  - destruct (sub_watch_frame s _ s0 s0 c0 c0 He (still_refl _) ltac:(reflexivity) ltac:(by left) Hsw).
    apply orb_true_iff in Heqb. by split.
  - split; simpl; try done. intros _. by apply C3, died_ended.
Qed.

(** ** Every reachable state *)

Record inv (c : config) (s : state) : Prop := {
  inv_fresh : fresh_ids s;
  inv_ids : ids_ok s;
  inv_hand : hand_known s;
  inv_fifo : ∀ j x, subs s !! j = Some x -> fifo (maxBody c) (main s) (ctxDone s) j x;
  inv_accounts : accounts c (main s) (sem s) (inFlight s) (handlers s);
  inv_loop : loop_ok (main s) (ctxDone s) (stopped s) (handlers s) (surfaced s);
  inv_watch : watch s
}.

Lemma watch_step c l s s' :
  step c l s = Some s' -> fresh_ids s -> ids_ok s -> watch s -> watch s'.
Proof.
  intros H. destruct (quiet l) eqn:Hq; [by eapply watch_quiet|].
  destruct l; try done; intros ? _; [by eapply watch_pump|by eapply watch_env].
Qed.

Lemma reachable_subscription c s : reachable c s -> inv c s.
Proof.
  induction 1 as [|s l s' _ [] H].
  - split; try done. all: split; simpl; try done; lia.
  - assert (∀ cur, main s = MRequeue cur -> ctxDone s = true) as Hq.
    { intros cur E. rewrite E in inv_loop0. by destruct inv_loop0. }
    split; eauto using fresh_step, ids_step, hand_step, fifo_step, accounts_step, loop_ok_step, watch_step.
Qed.

Lemma reachable_bytes c s :
  0 < maxInFlightBytes c -> Z.max (maxInFlightBytes c) (maxBody c) + maxBody c <= maxInt64 ->
  reachable c s -> byte_inv (maxInFlightBytes c) (maxBody c) (bytes s, sizes (handlers s)).
Proof.
  intros Hl Hm. induction 1 as [|s l s' Hr IH H]; [by apply byte_inv_init|].
  eapply bytes_step; eauto. by apply inv_fifo, reachable_subscription.
Qed.

(** Without a limit there is no budget. *)
Lemma reachable_no_bytes c s : maxInFlightBytes c <= 0 -> reachable c s -> bytes s = None.
Proof.
  intros Hl. induction 1 as [|s l s' Hr IH H].
  - simpl. unfold newByteLimiter. by rewrite decide_True.
  - destruct (bytes_effect _ _ _ _ (inv_fifo _ _ (reachable_subscription _ _ Hr)) H) as [[= -> _]|[Hs _]]; [done|].
    rewrite IH in Hs. inversion Hs as [? bl' ? ? _ E|]; subst; simpl in *; [by injection E|done].
Qed.

(** ** Lemmas: the first subscription *)

(** The consumer is started by the call whose loop is [main]. *)
Lemma reachable_started c s : reachable c s -> started s = false ↔ main s = MIdle.
Proof.
  induction 1 as [|s l s' _ IH H]; [done|]. step_cases H; simpl; try done.
  all: try match goal with E : main _ = _ |- _ => rewrite ?E in IH; rewrite ?E end.
  all: try done; destruct (started s); naive_solver.
Qed.

(** The loop has not read from any subscription. *)
Definition before_service (m : main_phase) (sf : list cancel_event) : Prop :=
  match m with MIdle | MOpen _ => True | MReturned (Some _) => sf = [] | _ => False end.

Lemma reachable_unserved c s :
  reachable c s -> before_service (main s) (surfaced s) ->
  ∀ j x, subs s !! j = Some x -> dispatched x = [].
Proof.
  induction 1 as [|s l s' Hr IH H]; [done|].
  pose proof (inv_loop _ _ (reachable_subscription _ _ Hr)) as Hl.
  intros Hb j' x' Hx. step_cases H; sub_cases Hx; simpl in *; try done; try (by eapply IH).
  all: try match goal with E : main _ = _ |- _ => rewrite ?E in IH; rewrite ?E in Hl; rewrite ?E in Hb end;
    simpl in *; try (by eapply IH); try tauto.
Qed.

Lemma run_steps_app c ls1 ls2 s :
  steps c (ls1 ++ ls2) s = match steps c ls1 s with Some s' => steps c ls2 s' | None => None end.
Proof.
  revert s. induction ls1 as [|l ls1 IH]; intros s; simpl; [done|]. destruct (step c l s); [apply IH|done].
Qed.

(** An error that is not the broker's cancel was answered to the first opening. *)
Lemma first_opening_failed c ls s e :
  steps c ls (initial c) = Some s -> main s = MReturned (Some e) -> surfaced s = [] ->
  ∃ pre a post s0, ls = pre ++ LMain (MOpenCall a) :: post ∧ steps c pre (initial c) = Some s0
    ∧ main s0 = MOpen OCall ∧ open_error a = Some e.
Proof.
  revert s. induction ls as [|l ls IH] using rev_ind; intros s; [by intros [= <-]|].
  rewrite run_steps_app. destruct (steps c ls (initial c)) as [s1|] eqn:E; [|done]. simpl.
  destruct (step c l s1) as [s2|] eqn:H; [|done]. intros [= ->] Hm Hs.
  assert (main s1 = MReturned (Some e) ∧ surfaced s1 = []
          ∨ ∃ a, l = LMain (MOpenCall a) ∧ main s1 = MOpen OCall ∧ open_error a = Some e) as [[H1 H2]|(a & -> & ? & ?)].
  - pose proof (inv_loop _ _ (reachable_subscription _ _ (subscription_steps _ _ _ _ (reach_initial c) E))) as Hl.
    clear IH E. step_cases H; simpl in *; try (by left); try congruence; try (right; simplify_eq; by eauto).
    all: try match goal with E : main _ = _ |- _ => rewrite E in Hl end; simpl in Hl; simplify_eq; naive_solver.
  - destruct (IH _ eq_refl H1 H2) as (pre & a & post & s0 & -> & ?). exists pre, a, (post ++ [l]), s0.
    by rewrite <- app_assoc.
  - by exists ls, a, [], s1.
Qed.

(** ** Lemmas: the recovery's back-off *)

Definition backoff_ok (m : main_phase) : Prop :=
  match m with
  | MRecover (RPoll b) | MRecover (RTest b) | MRecover (ROpen b _) | MRecover (RWait b) =>
      channelRecoverInitialBackoff <= b <= channelRecoverMaxBackoff
  | _ => True
  end.

Lemma backoff_step c l s s' : backoff_ok (main s) -> step c l s = Some s' -> backoff_ok (main s').
Proof.
  unfold backoff_ok, channelRecoverInitialBackoff, channelRecoverMaxBackoff, millisecond, second.
  intros Hb H. step_cases H; simpl in *; try done.
  all: try match goal with E : main _ = _ |- _ => rewrite ?E in Hb; rewrite ?E end; try done.
  all: unfold channelRecoverInitialBackoff, channelRecoverMaxBackoff, millisecond, second in *; lia.
Qed.

(** The pause between two attempts of the recovery is never below the initial
    one, so a flapping channel does not spin, nor above the maximum. *)
Lemma recover_backoff_bounded c s : reachable c s -> backoff_ok (main s).
Proof. induction 1; [done|]. by eapply backoff_step. Qed.

(** [Priority()] wins over an [x-priority] among the arguments, the others are
    passed on, and nothing is sent when there is nothing to send. *)
Lemma buildConsumeArgs_spec a prio k :
  args_get (buildConsumeArgs a prio) k =
  match prio with
  | Some p => if decide (k = "x-priority"%string) then Some (VNum KInt p) else args_get a k
  | None => args_get a k
  end.
Proof.
  unfold buildConsumeArgs, args_get. destruct a as [m|], prio as [p|]; simpl; go_cases;
    rewrite ?lookup_insert_eq, ?lookup_insert_ne by done; rewrite ?lookup_empty; try done.
Qed.

(** ** Scenarios *)

Definition small : config := mkConfig 2 2 false 100 true true 50.
Definition msg (tag : Z) : rawDelivery := mkRaw tag "" "" None false 10.

(** [Consume] is called and its first subscription opens: channel 0,
    subscription 1. *)
Definition boot : list label :=
  [LMain MNext; LMain (MOpenCall AnsOk); LMain (MOpenCall AnsOk); LMain (MOpenCall AnsOk)].

(** A delivery on subscription [j] reaches [out]. *)
Definition arrives (j : nat) (d : rawDelivery) : list label :=
  [LEnv (EDeliver j d); LPump j ArmDelivery; LPump j ArmSend].

(** The loop takes the next delivery and dispatches it. *)
Definition dispatches : list label := [LMain MRecv; LMain MNext; LMain MNext].

Definition pauses : list label := [LPause None; LPauseCancelled None].
Definition resumes : list label := [LResume None; LResubscribe None; LSwap; LHandoff].

(** The pump of subscription [j] meets the end of its stream. *)
Definition stream_ends (j : nat) : list label :=
  [LEnv (EStreamEnd j); LPump j ArmDelivery; LPump j ArmNext; LPump j ArmNext; LPump j ArmNext].

(** A run [i] of the hook opens a subscription. *)
Definition hook_opens (i : nat) : list label :=
  [LEnv EHook; LHook i KTimer; LHook i (KOpenCall AnsOk); LHook i (KOpenCall AnsOk); LHook i (KOpenCall AnsOk)].

Definition run (ls : list (list label)) : option state := steps small (concat ls) (initial small).

(** A property of the state a scenario ends in. *)
Definition ends_in (ls : list (list label)) (P : state -> bool) : bool :=
  match run ls with Some s => P s | None => false end.

Definition sub_is (j : nat) (P : sub -> bool) (s : state) : bool :=
  match subs s !! j with Some x => P x | None => false end.
Definition chan_is (k : nat) (P : channel -> bool) (s : state) : bool :=
  match chans s !! k with Some h => P h | None => false end.

(** The channel of subscription [j] is shut down and its pump sees it. *)
Definition dies (k j : nat) : list label := [LEnv (EDie k); LPump j ArmClose; LPump j ArmNext].

(** The context is cancelled and the loop returns. *)
Definition stops : list label :=
  [LEnv ECtx; LMain MCtx; LMain MNext; LMain (MDriver None); LMain (MDriver None)].

Definition reads_from (j : nat) (s : state) : bool :=
  match main s with MSelect cur => bool_decide (cur = j) | _ => false end.
Definition running (n : nat) (s : state) : bool := bool_decide (length (handlers s) = n).
Definition parked (s : state) : bool := match main s with MRecover RPark => paused s | _ => false end.

(** A pump that sees the end of a paused stream only after [Resume] has cleared
    the flag takes it for the death of the channel: [channelDone] is closed on a
    channel that is alive and subscribed, and every handler on it is aborted. *)
Lemma rapid_resume_aborts_handlers :
  ends_in [boot; arrives 1 (msg 1); dispatches; pauses; resumes; stream_ends 1; [LPump 1 ArmNext]]
    (fun s => chan_is 0 (fun h => done h && negb (ended h)) s && running 1 s
              && sub_is 2 (fun x => negb (cancelled x)) s) = true.
Proof. vm_compute. reflexivity. Qed.

(** A delivery still buffered when the loop takes the subscription of [Resume]
    is left behind: it is on a live channel, and the loop reads elsewhere. *)
Lemma resume_abandons_buffered :
  ends_in [boot; arrives 1 (msg 1); pauses; resumes; [LMain MResub]]
    (fun s => sub_is 1 (fun x => bool_decide (rTag <$> out x = [1])) s
              && chan_is 0 (fun h => negb (ended h)) s && reads_from 2 s) = true.
Proof. vm_compute. reflexivity. Qed.

(** The recovery can poll before the hook hands over its subscription and test
    the flags after the barrier: the consumer then holds two subscriptions, and
    one of them is never read. *)
Lemma recovery_subscribes_twice :
  ends_in [boot; [LEnv (EReconnecting true)]; dies 0 1;
           [LMain MRecv; LMain (MGuard false); LMain MDefault];
           hook_opens 0; [LHook 0 KHandoff; LEnv (EReconnecting false); LMain MNext];
           [LMain (MOpenCall AnsOk); LMain (MOpenCall AnsOk); LMain (MOpenCall AnsOk); LMain MResub]]
    (fun s => chan_is 2 (fun h => negb (ended h)) s && chan_is 4 (fun h => negb (ended h)) s
              && sub_is 3 (fun x => negb (cancelled x)) s && sub_is 5 (fun x => negb (cancelled x)) s
              && reads_from 3 s) = true.
Proof. vm_compute. reflexivity. Qed.

(** A [Resume] that rolls back stores the counter it swapped out over the fresh
    one a concurrent reopening installed: the new channel counts on the old
    one's redeliveries. *)
Lemma rollback_restores_stale_counter :
  ends_in [boot; pauses; [LResume None; LResubscribe None; LSwap; LEnv (EDie 0)];
           [LEnv EHook; LHook 0 KTimer; LHook 0 (KOpenCall AnsOk)];
           [LResumeCtx; LResumeCancelled (OtherError 9) (Some (AmqpError true 504))];
           [LHook 0 (KOpenCall AnsOk); LHook 0 (KOpenCall AnsOk); LHook 0 KHandoff; LMain MResub]]
    (fun s => bool_decide (counter s = 1%nat) && reads_from 4 s) = true
  ∧ ends_in [boot] (fun s => bool_decide (counter s = 1%nat)) = true.
Proof. vm_compute. done. Qed.

(** A channel that dies while the consumer is paused, its pump gone, tells
    nobody: the handlers run on, the loop stays parked and does not reopen, and
    [Resume] fails for ever. *)
Lemma paused_channel_death_wedges :
  ends_in [boot; arrives 1 (msg 1); dispatches; pauses; stream_ends 1;
           [LMain MRecv; LMain (MGuard false); LEnv (EDie 0); LResume None;
            LResubscribe (Some (AmqpError true 504))]]
    (fun s => parked s && chan_is 0 (fun h => died h && negb (done h)) s && running 1 s
              && match steps small [LResume None; LResubscribe None] s with None => true | _ => false end)
  = true.
Proof. vm_compute. reflexivity. Qed.

(** A [basic.cancel] is lost when the channel dies before the pump has seen it
    and the pump takes the close notification. *)
Lemma cancel_lost_to_close :
  ends_in [boot; [LEnv (ERevoke 0 "ctag")]; dies 0 1]
    (fun s => chan_is 0 revoked s && sub_is 1 (fun x => negb (cancelled x)) s
              && bool_decide (cancelReasonCh s = None) && bool_decide (length (surfaced s) = 0%nat)) = true.
Proof. vm_compute. reflexivity. Qed.

(** Nobody empties [resubCh] once the loop has returned. *)
Lemma returned_keeps_resub c l s s' e j :
  main s = MReturned e -> resubCh s = Some j -> step c l s = Some s' ->
  main s' = MReturned e ∧ resubCh s' = Some j.
Proof. intros Hm Hr H. step_cases H; simpl; try done; congruence. Qed.

(** The hook outlives the loop: after a reconnect a stopped consumer holds a
    subscription nobody reads, and at the next one the hook blocks on
    [resubCh], and with it the barrier, whatever happens. *)
Lemma stopped_consumer_blocks_barrier :
  ∃ s, run [boot; stops; hook_opens 0; [LHook 0 KHandoff]; hook_opens 1] = Some s
    ∧ sub_is 3 (fun x => negb (cancelled x)) s = true
    ∧ hooks s !! 1%nat = Some (KSend 5)
    ∧ ∀ ls s', steps small ls s = Some s' -> step small (LHook 1 KHandoff) s' = None.
Proof.
  eexists. split; [vm_compute; reflexivity|]. split; [by vm_compute|]. split; [by vm_compute|].
  match goal with |- ∀ ls s', steps _ ls ?s0 = _ -> _ =>
    assert (main s0 = MReturned None ∧ resubCh s0 = Some 3%nat) as Hs by done; generalize dependent s0 end.
  intros s Hs ls. revert s Hs. induction ls as [|l ls IH]; intros s [Hm Hr] s'; simpl.
  - intros [= <-]. unfold hook_step. rewrite Hr. by destruct (hooks s !! 1%nat) as [[]|].
  - destruct (step small l s) as [s1|] eqn:E; [|done]. apply IH. by eapply returned_keeps_resub.
Qed.

(** ** Theorems *)

(** C13. No delivery is lost, doubled or reordered on its way to the handlers: in
    every reachable state what the broker delivered on a subscription is, in
    order, what the loop dispatched, what it gave back, what it has in hand,
    the pump's buffer, the pump's hand, what the pump dropped, and what waits
    in the driver; and before the consumer's context is cancelled nothing is
    given back or dropped. *)
Theorem subscription_fifo c s j x :
  reachable c s -> subs s !! j = Some x ->
  delivered x = dispatched x ++ requeued x ++ in_hand (main s) j ++ out x
                ++ pump_hand (pump x) ++ dropped x ++ stream x
  ∧ (ctxDone s = false -> requeued x = [] ∧ dropped x = []).
Proof.
  intros Hr Hx. destruct (inv_fifo _ _ (reachable_subscription _ _ Hr) _ _ Hx) as [Ho Hq Hd _].
  split; [done|]. intros Hc. rewrite Hc in Hq, Hd. naive_solver.
Qed.

(** C14. What is in flight is bounded and accounted for in every reachable state:
    a slot of the semaphore is held for each running handler and for the
    delivery that waits for its bytes, and for nothing else, so at most
    [concurrency] handlers run; the health counter is their number.  With
    [MaxInFlightBytes] set, the byte budget holds the sum of the handlers'
    bodies, which exceeds the limit only by a single body (the budget and a
    body fit an int64 together); without it there is no budget. *)
Theorem subscription_in_flight c s :
  reachable c s ->
  sem s = (length (handlers s) + match main s with MBytes _ _ => 1 | _ => 0 end)%nat
  ∧ (sem s <= concurrency c)%nat
  ∧ InFlightHandlers (snapshot s) = Z.of_nat (length (handlers s))
  ∧ if decide (0 < maxInFlightBytes c)
    then Z.max (maxInFlightBytes c) (maxBody c) + maxBody c <= maxInt64 ->
         ∃ b, bytes s = Some b ∧ limit b = maxInFlightBytes c
           ∧ inflight b = total (sizes (handlers s))
           ∧ (inflight b <= maxInFlightBytes c ∨ inflight b ∈ sizes (handlers s))
    else bytes s = None.
Proof.
  intros Hr. destruct (inv_accounts _ _ (reachable_subscription _ _ Hr)) as [Hs Hb Hn].
  split; [done|]. split; [done|]. split; [done|]. case_decide as Hl.
  - intros Hm. destruct (reachable_bytes _ _ Hl Hm Hr) as (_ & b & -> & Hlim & Hsum & Hc).
    exists b. rewrite Hsum. auto.
  - apply (reachable_no_bytes c); [lia|done].
Qed.

(** C15. The call of [Consume] that started the consumer returns only when its
    work is done: no handler is running, the health snapshot is inactive, and
    the result tells why.  Nil means that the context was cancelled; an error is
    the broker's cancel, after [OnCancel] or the warning and the metric, or the
    error the first opening of a subscription was answered, and then nothing was
    ever dispatched.  Any further call, during the first or after it, returns
    [ErrInvalidOptions] at once and changes nothing. *)
Theorem consume_returns_drained c ls s :
  steps c ls (initial c) = Some s ->
  (main s ≠ MIdle -> runConsume_enter s = Some (Some (Some (Wrap [Sentinel ErrInvalidOptions])), s))
  ∧ ∀ err, main s = MReturned err ->
      handlers s = [] ∧ InFlightHandlers (snapshot s) = 0 ∧ Active (snapshot s) = false
      ∧ match err with
        | None => ctxDone s = true
        | Some e =>
            e = Wrap [Sentinel ErrConsumerCancelled] ∧ surfaced s ≠ []
            ∨ surfaced s = [] ∧ (∀ j x, subs s !! j = Some x -> dispatched x = [])
              ∧ ∃ pre a post s0, ls = pre ++ LMain (MOpenCall a) :: post
                  ∧ steps c pre (initial c) = Some s0 ∧ main s0 = MOpen OCall ∧ open_error a = Some e
        end.
Proof.
  intros Hs. pose proof (subscription_steps _ _ _ _ (reach_initial c) Hs) as Hr. split.
  - intros Hm. unfold runConsume_enter. destruct (started s) eqn:E; [done|].
    destruct Hm. by apply (reachable_started c s).
  - intros err Hm. pose proof (reachable_subscription _ _ Hr) as [_ _ _ _ [_ _ Hn] Hl _].
    rewrite Hm in Hl. unfold snapshot. simpl. rewrite Hn. destruct err as [e|]; simpl in Hl.
    + destruct Hl as (-> & -> & [[? _]|[? ->]]); rewrite andb_false_r; do 3 (split; [done|]); [right|by left].
      split; [done|]. split; [|by apply (first_opening_failed c ls s)].
      apply (reachable_unserved c s); [done|]. by rewrite Hm.
    + destruct Hl as (? & -> & -> & ?). by rewrite andb_false_r.
Qed.

(** A subscription never ends in silence: once every pump of a channel has
    exited, and one of them served a subscription that was not cancelled
    locally, then, unless the consumer was stopped, [channelDone] is closed, so
    that the handlers of the channel are told. *)
Lemma channel_end_reaches_handlers c s k h j x :
  reachable c s -> chans s !! k = Some h -> subs s !! j = Some x -> onChan x = k ->
  cancelled x = false -> ctxDone s = false ->
  (∀ i y, subs s !! i = Some y -> onChan y = k -> pump y = QExit) ->
  done h = true.
Proof.
  intros Hr Hh Hx <- Hc Hctx Hall. destruct (inv_watch _ _ (reachable_subscription _ _ Hr)) as [_ Hs].
  pose proof (sw_end _ _ _ (Hs _ _ _ Hx Hh) Hc) as He. rewrite (Hall _ _ Hx eq_refl), Hctx in He.
  destruct He as [|[(i & y & Hy & Hk & Ht)|(h' & Hh' & Hd)]]; [done| |by simplify_eq].
  by rewrite (Hall _ _ Hy Hk) in Ht.
Qed.

(** [channelDone] is never closed without a cause: the channel was shut down
    or the broker cancelled, or the stream of a local cancel on that channel
    was seen to end. *)
Lemma channel_done_justified c s k h :
  reachable c s -> chans s !! k = Some h -> done h = true ->
  ended h = true
  ∨ ∃ j x, subs s !! j = Some x ∧ onChan x = k ∧ cancelled x = true ∧ streamClosed x = true.
Proof.
  intros Hr Hh Hd. destruct (inv_watch _ _ (reachable_subscription _ _ Hr)) as [Hc _].
  destruct (cw_done _ _ _ (Hc _ _ Hh) Hd) as [(h' & Hh' & He)|?]; [|by right]. left. by simplify_eq.
Qed.

(** C16. A broker cancel is never silent: when the pump of a subscription that was
    not cancelled locally has exited on a channel that was not shut down, then,
    unless the consumer was stopped, a reason waits for the loop, or the loop
    is returning or has returned [ErrConsumerCancelled]. *)
Theorem broker_cancel_surfaces c s j x h :
  reachable c s -> subs s !! j = Some x -> chans s !! onChan x = Some h ->
  cancelled x = false -> died h = false -> pump x = QExit -> ctxDone s = false ->
  is_Some (cancelReasonCh s)
  ∨ ∃ e, errors_is (Some e) ErrConsumerCancelled = true ∧ surfaced s ≠ []
      ∧ (main s = MBroker e ∨ main s = MReturned (Some e)).
Proof.
  intros Hr Hx Hh Hc Hd Hp Hctx. pose proof (reachable_subscription _ _ Hr) as [_ _ _ _ _ Hl [_ Hs]].
  pose proof (sw_cancel _ _ _ (Hs _ _ _ Hx Hh) Hc Hd) as Hf. rewrite Hp, Hctx in Hf.
  destruct Hf as [|[|Hsf]]; [done|by left|]. right. exists cancelled_err. split; [done|]. split; [done|].
  destruct (main s) as [| | | | | | | | | |e|[e|]]; simpl in Hl; naive_solver.
Qed.

(** [Resume] commits or leaves no trace.  Committed, it has handed the loop a
    fresh subscription on the same channel with a fresh redelivery counter and
    cleared the pause; rolled back because its context ended first, it leaves
    the consumer paused with the old counter and nothing handed over, and the
    subscription it had issued is cancelled. *)
Lemma resume_commits_or_rolls_back c s k ctxErr :
  started s = true -> closed s = false -> mu s = None -> paused s = true ->
  live s = Some k -> alive k s = true -> resubCh s = None ->
  (∃ s1, steps c [LResume None; LResubscribe None; LSwap; LHandoff] s = Some s1
     ∧ paused s1 = false ∧ resubCh s1 = Some (nextId s) ∧ subs s1 !! nextId s = Some (new_sub k)
     ∧ live s1 = live s ∧ chans s1 = chans s ∧ counter s1 = nextCounter s ∧ mu s1 = None)
  ∧ ∃ s2, steps c [LResume None; LResubscribe None; LSwap; LResumeCtx; LResumeCancelled ctxErr None] s
          = Some s2
     ∧ paused s2 = true ∧ resubCh s2 = None ∧ counter s2 = counter s ∧ live s2 = live s
     ∧ chans s2 = chans s ∧ mu s2 = None
     ∧ ∃ x, subs s2 !! nextId s = Some x ∧ onChan x = k ∧ cancelled x = true.
Proof.
  intros H1 H2 H3 H4 H5 H6 H7.
  assert (step c (LResume None) s = Some (with_mu (Some HResume) s)) as E1
    by (simpl; unfold Resume, call_guard; by rewrite H1, H2, H3, H4).
  assert (step c (LResubscribe None) (with_mu (Some HResume) s)
          = Some (startPump k (with_mu (Some (HSwap (nextId s))) s))) as E2.
  { simpl. unfold resubscribeLocked. simpl. rewrite H5. unfold alive in *. simpl. by rewrite H6. }
  cbn [steps]. rewrite E1, E2. split.
  - simpl. unfold Resume_handoff. simpl. rewrite H7. eexists. split; [done|]. simpl.
    by rewrite lookup_insert_eq.
  - simpl. unfold Resume_cancelled. simpl. rewrite H5. unfold alive in *. simpl. rewrite H6. simpl.
    eexists. split; [done|]. simpl. rewrite H4, H7. do 6 (split; [done|]).
    eexists. rewrite lookup_fmap, lookup_insert_eq. simpl. split; [done|].
    unfold cancel_sub. by rewrite decide_True.
Qed.

(** ** Witnesses *)

Definition at_work : list label := boot ++ arrives 1 (msg 1) ++ dispatches ++ arrives 1 (msg 2).

Lemma subscription_fifo_witness :
  ∃ s x, steps small at_work (initial small) = Some s ∧ subs s !! 1%nat = Some x
    ∧ delivered x = [msg 1; msg 2] ∧ dispatched x = [msg 1] ∧ out x = [msg 2]
    ∧ delivered x = dispatched x ++ requeued x ++ in_hand (main s) 1 ++ out x
                    ++ pump_hand (pump x) ++ dropped x ++ stream x.
Proof.
  eexists _, _. split; [vm_compute; reflexivity|]. split; [vm_compute; reflexivity|].
  do 3 (split; [reflexivity|]).
  eapply (subscription_fifo small); [|reflexivity].
  eapply (subscription_steps small at_work); [constructor|vm_compute; reflexivity].
Defined.

Lemma subscription_in_flight_witness :
  ∃ s, steps small at_work (initial small) = Some s
    ∧ sem s = (length (handlers s) + match main s with MBytes _ _ => 1 | _ => 0 end)%nat
    ∧ (sem s <= 2)%nat
    ∧ ∃ b, bytes s = Some b ∧ limit b = 100 ∧ inflight b = total (sizes (handlers s)).
Proof.
  eexists. split; [vm_compute; reflexivity|].
  match goal with |- sem ?s0 = _ ∧ _ => destruct (subscription_in_flight small s0) as (H1 & H2 & _ & H3) end.
  { eapply (subscription_steps small at_work); [constructor|vm_compute; reflexivity]. }
  split; [exact H1|]. split; [exact H2|]. destruct H3 as (b & H4 & H5 & H6 & _); [done|].
  by exists b.
Defined.

(** Stopped, then called again; and refused at its first subscription. *)
Definition refused_at_first : list label := [LMain MNext; LMain (MOpenCall AnsOk); LMain (MOpenCall AnsWrongType)].

Lemma consume_returns_witness :
  (∃ s, steps small (boot ++ stops ++ [LConsume]) (initial small) = Some s ∧ main s = MReturned None
     ∧ Active (snapshot s) = false
     ∧ runConsume_enter s = Some (Some (Some (Wrap [Sentinel ErrInvalidOptions])), s))
  ∧ ∃ s, steps small refused_at_first (initial small) = Some s ∧ main s = MReturned (Some (OtherError 3))
      ∧ Active (snapshot s) = false.
Proof.
  split; eexists; (split; [vm_compute; reflexivity|]); (split; [reflexivity|]).
  - match goal with |- Active (snapshot ?s0) = _ ∧ _ =>
      destruct (consume_returns_drained small (boot ++ stops ++ [LConsume]) s0) as [H1 H2] end;
      [vm_compute; reflexivity|].
    split; [apply (H2 None); reflexivity|apply H1; discriminate].
  - match goal with |- Active (snapshot ?s0) = _ =>
      destruct (consume_returns_drained small refused_at_first s0) as [_ H2] end;
      [vm_compute; reflexivity|].
    apply (H2 (Some (OtherError 3))). reflexivity.
Defined.

(** The subscriptions of a state with a single one. *)
Lemma single_sub (P : sub -> Prop) (m : gmap nat sub) j x :
  map_to_list m = [(j, x)] -> P x -> ∀ i y, m !! i = Some y -> P y.
Proof.
  intros E HP i y Hy%elem_of_map_to_list. rewrite E in Hy. apply list_elem_of_singleton in Hy. by simplify_eq.
Qed.

Lemma channel_end_witness :
  ∃ s h, steps small (boot ++ dies 0 1) (initial small) = Some s ∧ chans s !! 0%nat = Some h ∧ done h = true.
Proof.
  eexists _, _. split; [vm_compute; reflexivity|]. split; [vm_compute; reflexivity|].
  eapply (channel_end_reaches_handlers small _ 0 _ 1);
    [eapply (subscription_steps small (boot ++ dies 0 1)); [constructor|vm_compute; reflexivity]
    |reflexivity|reflexivity|reflexivity|reflexivity|reflexivity|].
  eapply (single_sub (fun y => onChan y = 0%nat -> pump y = QExit)); [vm_compute; reflexivity|done].
Defined.

Lemma channel_done_witness :
  ∃ s h, steps small (boot ++ dies 0 1) (initial small) = Some s ∧ chans s !! 0%nat = Some h ∧ done h = true
    ∧ (ended h = true ∨ ∃ j x, subs s !! j = Some x ∧ onChan x = 0%nat ∧ cancelled x = true
                               ∧ streamClosed x = true).
Proof.
  eexists _, _. do 3 (split; [vm_compute; reflexivity|]).
  eapply (channel_done_justified small); [|vm_compute; reflexivity|reflexivity].
  eapply (subscription_steps small (boot ++ dies 0 1)); [constructor|vm_compute; reflexivity].
Defined.

Definition broker_cancels : list label :=
  boot ++ [LEnv (ERevoke 0 "ctag"); LPump 1 ArmCancel; LPump 1 ArmNext].

Lemma broker_cancel_witness :
  ∃ s, steps small broker_cancels (initial small) = Some s ∧ cancelReasonCh s = Some "ctag"%string
    ∧ (is_Some (cancelReasonCh s)
       ∨ ∃ e, errors_is (Some e) ErrConsumerCancelled = true ∧ surfaced s ≠ []
           ∧ (main s = MBroker e ∨ main s = MReturned (Some e))).
Proof.
  eexists. do 2 (split; [vm_compute; reflexivity|]).
  eapply (broker_cancel_surfaces small _ 1);
    [|reflexivity|reflexivity|reflexivity|reflexivity|reflexivity|reflexivity].
  eapply (subscription_steps small broker_cancels); [constructor|vm_compute; reflexivity].
Defined.

Lemma resume_witness :
  ∃ s s1, steps small (boot ++ pauses) (initial small) = Some s
    ∧ steps small resumes s = Some s1 ∧ paused s1 = false.
Proof.
  eexists. 
  destruct (resume_commits_or_rolls_back small
    (default (initial small) (steps small (boot ++ pauses) (initial small))) 0 (OtherError 1)) as [(s1 & E & Hp & _) _];
    try (vm_compute; reflexivity).
  exists s1. split; [vm_compute; reflexivity|]. split; [exact E|exact Hp].
Defined.
