(* ===== verification/Message.v ===== *)
(** * Message: defaults, header validation, encoding and the publish frame

    Models [src/message.go] and, of [src/publisher.go], [encodeMsg],
    [injectTrace] and [buildPublishing].  The codec, the UUID generator and the
    clock are the environment.  Header maps are modelled by their contents;
    on an error the code leaves the caller's map partly coerced, which no
    result shows. *)

From S2P Require Import Prelude Errors Values.

Open Scope go_scope.

(** ** Message *)

Abbreviation Headers := (option (gmap string value)).

(** [mBody] tells whether the body pointer is non-nil; its contents are the
    codec's business.  [mTimestamp] is [None] for the zero time. *)
Record Message : Type := mkMessage {
  mBody : bool;
  mMessageID : string;
  mCorrelationID : string;
  mReplyTo : string;
  mType : string;
  mAppID : string;
  mUserID : string;
  mContentType : string;
  mContentEncoding : string;
  mHeaders : Headers;
  mPriority : Z;
  mTimestamp : option Z;
  mExpiration : Z;
  mDeliveryMode : Z;
  mDelay : Z
}.

Definition set_defaults (id : string) (ts : option Z) (ct : string) (m : Message) : Message :=
  mkMessage (mBody m) id (mCorrelationID m) (mReplyTo m) (mType m) (mAppID m) (mUserID m) ct
    (mContentEncoding m) (mHeaders m) (mPriority m) ts (mExpiration m) (mDeliveryMode m) (mDelay m).

Definition set_headers (h : Headers) (m : Message) : Message :=
  mkMessage (mBody m) (mMessageID m) (mCorrelationID m) (mReplyTo m) (mType m) (mAppID m) (mUserID m)
    (mContentType m) (mContentEncoding m) h (mPriority m) (mTimestamp m) (mExpiration m)
    (mDeliveryMode m) (mDelay m).

Definition set_user (u : string) (m : Message) : Message :=
  mkMessage (mBody m) (mMessageID m) (mCorrelationID m) (mReplyTo m) (mType m) (mAppID m) u
    (mContentType m) (mContentEncoding m) (mHeaders m) (mPriority m) (mTimestamp m) (mExpiration m)
    (mDeliveryMode m) (mDelay m).

Definition set_content_type (ct : string) (m : Message) : Message :=
  set_defaults (mMessageID m) (mTimestamp m) ct m.

(** ** applyDefaults *)

(** [uuid] is the outcome of [uuid.NewV7], [now] the clock, [codecCT] the
    codec's content type. *)
Definition applyDefaults (uuid : result error string) (now : Z) (codecCT : string) (m : Message)
  : result error Message :=
  let? id := if decide (mMessageID m = ""%string) then
               match uuid with
               | Ok id => Ok id
               | Err e => Err (Wrap [Sentinel ErrInvalidMessage; e])
               end
             else Ok (mMessageID m) in
  let ts := match mTimestamp m with None => Some now | Some t => Some t end in
  let ct := if decide (mContentType m = ""%string) then codecCT else mContentType m in
  Ok (set_defaults id ts ct m).

(** ** Header validation *)

Definition maxHeaderDepth : nat := 10.

(** [validateHeaderValue] and the range loops around it: a platform-width
    integer is coerced by the loop that holds it, any other value must have a
    supported type.  [depth] is the depth of the enclosing map. *)
Fixpoint supported (depth : nat) (v : value) : bool :=
  match v with
  | VNil | VBool _ | VNum _ _ | VFloat _ _ | VString _ | VBytes _ | VTime _ => true
  | VHeaders es =>
      negb (Nat.ltb maxHeaderDepth (S depth))
      && (fix go (es : list (string * value)) : bool :=
            match es with [] => true | (_, x) :: r => supported (S depth) x && go r end) es
  | VSlice vs =>
      (fix go (vs : list value) : bool :=
         match vs with [] => true | x :: r => supported depth x && go r end) vs
  | VTable _ | VMap _ | VOverflowPolicy _ | VOther _ => false
  end.

(** The in-place coercion of [int] and [uint]. *)
Fixpoint coerce (v : value) : value :=
  match v with
  | VNum KInt z => VNum KInt64 z
  | VNum KUint z => VNum KUint64 z
  | VHeaders es =>
      VHeaders ((fix go (es : list (string * value)) : list (string * value) :=
                   match es with [] => [] | (k, x) :: r => (k, coerce x) :: go r end) es)
  | VSlice vs =>
      VSlice ((fix go (vs : list value) : list value :=
                 match vs with [] => [] | x :: r => coerce x :: go r end) vs)
  | _ => v
  end.

Definition validateHeadersMap (h : gmap string value) : result error (gmap string value) :=
  if forallb (fun kv => supported 0 kv.2) (map_to_list h) then Ok (coerce <$> h)
  else Err (Wrap [Sentinel ErrInvalidMessage]).

Definition validateHeaders (h : Headers) : result error Headers :=
  match h with
  | None => Ok None
  | Some m => let? m' := validateHeadersMap m in Ok (Some m')
  end.

(** ** encodeMsg *)

(** What the codec does with the body: the length of the encoding, the headers
    and the content type of a [HeaderCodec], or an error; a panic is recovered. *)
Inductive encode_outcome : Type :=
| EncOk (len : Z) (ceHeaders : gmap string value) (ceContentType : string)
| EncErr (e : error)
| EncPanic.

Definition codec_panic : error := OtherError 1.

Definition safeEncodeBody (o : encode_outcome) : result error (Z * gmap string value * string) :=
  match o with
  | EncOk n h ct => Ok (n, h, ct)
  | EncErr e => Err e
  | EncPanic => Err codec_panic
  end.

(** The fields of [Publisher] that [encodeMsg] reads. *)
Record encoder : Type := mkEncoder {
  stampUserID : bool;
  authUser : string;
  maxMessageSizeBytes : Z
}.

Record encode_env : Type := mkEncodeEnv {
  uuidOutcome : result error string;
  clockNow : Z;
  codecContentType : string;
  codecOutcome : encode_outcome
}.

Definition invalidMessage : error := Wrap [Sentinel ErrInvalidMessage].

(** The message and the length of its body, or the validation error. *)
Definition encodeMsg (p : encoder) (e : encode_env) (msg : Message) : result error (Message * Z) :=
  let? msg := applyDefaults (uuidOutcome e) (clockNow e) (codecContentType e) msg in
  let? h := validateHeaders (mHeaders msg) in
  let msg := set_headers h msg in
  let msg := if stampUserID p && bool_decide (mUserID msg = ""%string)
             then set_user (authUser p) msg else msg in
  if decide (mUserID msg ≠ ""%string ∧ authUser p ≠ ""%string ∧ mUserID msg ≠ authUser p)
  then Err invalidMessage
  else if negb (mBody msg) then Err invalidMessage
  else if decide (milliseconds (mDelay msg) < 0 ∨ maxInt32 < milliseconds (mDelay msg))
  then Err invalidMessage
  else if decide (mExpiration msg ≠ 0 ∧ milliseconds (mExpiration msg) <= 0)
  then Err invalidMessage
  else
    match safeEncodeBody (codecOutcome e) with
    | Err err => Err (Wrap [Sentinel ErrInvalidMessage; err])
    | Ok (len, ceHeaders, ceContentType) =>
        let? msg :=
          if decide (ceHeaders = ∅) then Ok msg
          else
            let? ce := validateHeadersMap ceHeaders in
            (* maps.Copy: the codec's headers win *)
            Ok (set_headers (Some (ce ∪ default ∅ (mHeaders msg))) msg) in
        let msg := if decide (ceContentType = ""%string) then msg
                   else set_content_type ceContentType msg in
        if decide (0 < maxMessageSizeBytes p ∧ maxMessageSizeBytes p < len)
        then Err (Wrap [Sentinel ErrMessageTooLarge])
        else Ok (msg, len)
    end.

(** ** injectTrace *)

Definition HeaderTraceParent : string := "traceparent".
Definition HeaderTraceState : string := "tracestate".

(** [active] tells whether the context carries a live span, [inject] is what
    the propagator writes. *)
Definition injectTrace (active : bool) (inject : gmap string value -> gmap string value)
    (headers : Headers) : Headers :=
  if active then
    let out := default ∅ headers in
    let callerTP := out !! HeaderTraceParent in
    let callerTS := out !! HeaderTraceState in
    let out := inject out in
    let out := match callerTP with Some v => <[ HeaderTraceParent := v ]> out | None => out end in
    let out := match callerTS with Some v => <[ HeaderTraceState := v ]> out | None => out end in
    Some out
  else headers.

(** ** buildPublishing *)

Record Publishing : Type := mkPublishing {
  pContentType : string;
  pContentEncoding : string;
  pHeaders : Headers;
  pDeliveryMode : Z;
  pPriority : Z;
  pMessageId : string;
  pCorrelationId : string;
  pReplyTo : string;
  pType : string;
  pAppId : string;
  pUserId : string;
  pTimestamp : option Z;
  pExpiration : string;
  pBodyLen : Z
}.

Definition buildPublishing (msg : Message) (len : Z) : Publishing :=
  mkPublishing (mContentType msg) (mContentEncoding msg)
    (if decide (0 < mDelay msg)
     then Some (<[ "x-delay"%string := VNum KInt32 (wrap_signed 32 (milliseconds (mDelay msg))) ]>
                  (default ∅ (mHeaders msg)))
     else mHeaders msg)
    (wire (mDeliveryMode msg)) (mPriority msg) (mMessageID msg) (mCorrelationID msg)
    (mReplyTo msg) (mType msg) (mAppID msg) (mUserID msg) (mTimestamp msg)
    (if decide (0 < mExpiration msg) then pretty (milliseconds (mExpiration msg)) else ""%string)
    len.

(** ** Lemmas *)

(** A value the wire encoder can take: no platform-width integer and no
    unsupported type at any depth. *)
Fixpoint wire_ok (v : value) : bool :=
  match v with
  | VNum KInt _ | VNum KUint _ => false
  | VNil | VBool _ | VNum _ _ | VFloat _ _ | VString _ | VBytes _ | VTime _ => true
  | VHeaders es =>
      (fix go (es : list (string * value)) : bool :=
         match es with [] => true | (_, x) :: r => wire_ok x && go r end) es
  | VSlice vs =>
      (fix go (vs : list value) : bool :=
         match vs with [] => true | x :: r => wire_ok x && go r end) vs
  | _ => false
  end.

(** Nesting depth of the [Headers] maps of a value. *)
Fixpoint nesting (v : value) : nat :=
  match v with
  | VHeaders es =>
      S ((fix go (es : list (string * value)) : nat :=
            match es with [] => 0%nat | (_, x) :: r => Nat.max (nesting x) (go r) end) es)
  | VSlice vs =>
      (fix go (vs : list value) : nat :=
         match vs with [] => 0%nat | x :: r => Nat.max (nesting x) (go r) end) vs
  | _ => 0%nat
  end.

Lemma coerce_wire_ok : ∀ v d, supported d v = true -> wire_ok (coerce v) = true.
Proof.
  fix IH 1. intros v d. destruct v as [|b|k z|w bits|s|bs|t|es|es|es|vs|s|id]; simpl; try done.
  - by destruct k.
  - intros H. apply andb_true_iff in H as [_ H].
    induction es as [|[k x] es IHes]; [done|]. apply andb_true_iff in H as [Hx H].
    apply andb_true_iff. split; [by eapply IH|by apply IHes].
  - intros H. induction vs as [|x vs IHvs]; [done|]. apply andb_true_iff in H as [Hx H].
    apply andb_true_iff. split; [by eapply IH|by apply IHvs].
Qed.

Lemma supported_nesting : ∀ v d, supported d v = true -> (d <= maxHeaderDepth)%nat ->
  (d + nesting v <= maxHeaderDepth)%nat.
Proof.
  fix IH 1. intros v d. destruct v as [|b|k z|w bits|s|bs|t|es|es|es|vs|s|id]; simpl; try (intros; lia); try done.
  - intros H Hd. apply andb_true_iff in H as [Hlt H]. apply negb_true_iff, Nat.ltb_ge in Hlt.
    induction es as [|[k x] es IHes]; [lia|]. apply andb_true_iff in H as [Hx H].
    specialize (IHes H). pose proof (IH x (S d) Hx Hlt). lia.
  - intros H Hd. induction vs as [|x vs IHvs]; [lia|]. apply andb_true_iff in H as [Hx H].
    specialize (IHvs H). pose proof (IH x d Hx Hd). lia.
Qed.

Lemma coerce_id : ∀ v, wire_ok v = true -> coerce v = v.
Proof.
  fix IH 1. intros v. destruct v as [|b|k z|w bits|s|bs|t|es|es|es|vs|s|id]; simpl; try done.
  - by destruct k.
  - intros H. f_equal. induction es as [|[k x] es IHes]; [done|].
    apply andb_true_iff in H as [Hx H]. f_equal; [f_equal; by apply IH|by apply IHes].
  - intros H. f_equal. induction vs as [|x vs IHvs]; [done|].
    apply andb_true_iff in H as [Hx H]. f_equal; [by apply IH|by apply IHvs].
Qed.

Lemma validateHeadersMap_Ok h h' :
  validateHeadersMap h = Ok h' ->
  h' = coerce <$> h ∧ ∀ k v, h !! k = Some v -> supported 0 v = true.
Proof.
  unfold validateHeadersMap. case_match eqn:E; [|done]. intros [= <-]. split; [done|].
  intros k v Hk. rewrite forallb_forall in E. apply (E (k, v)).
  apply list_elem_of_In, elem_of_map_to_list. done.
Qed.

Lemma validateHeadersMap_wire h h' :
  validateHeadersMap h = Ok h' -> ∀ k v, h' !! k = Some v -> wire_ok v = true.
Proof.
  intros H. apply validateHeadersMap_Ok in H as [-> Hs]. intros k v Hk.
  rewrite lookup_fmap in Hk. destruct (h !! k) as [x|] eqn:E; simplify_eq/=.
  by eapply coerce_wire_ok, Hs.
Qed.

Lemma supported_coerce : ∀ v d, supported d v = true -> supported d (coerce v) = true.
Proof.
  fix IH 1. intros v d. destruct v as [|b|k z|w bits|s|bs|t|es|es|es|vs|s|id]; simpl; try done.
  - by destruct k.
  - intros H. apply andb_true_iff in H as [Hd H]. apply andb_true_iff. split; [done|].
    clear Hd. induction es as [|[k x] es IHes]; [done|]. apply andb_true_iff in H as [Hx H].
    apply andb_true_iff. split; [by apply IH|by apply IHes].
  - intros H. induction vs as [|x vs IHvs]; [done|]. apply andb_true_iff in H as [Hx H].
    apply andb_true_iff. split; [by apply IH|by apply IHvs].
Qed.

Lemma validateHeadersMap_idem h h' :
  validateHeadersMap h = Ok h' -> validateHeadersMap h' = Ok h'.
Proof.
  intros H. pose proof (validateHeadersMap_wire h h' H) as Hw.
  apply validateHeadersMap_Ok in H as [-> Hs]. unfold validateHeadersMap.
  assert (forallb (fun kv => supported 0 kv.2) (map_to_list (coerce <$> h)) = true) as ->.
  { apply forallb_forall. intros [k v] Hin. apply list_elem_of_In, elem_of_map_to_list in Hin.
    rewrite lookup_fmap in Hin. destruct (h !! k) as [x|] eqn:E; simplify_eq/=.
    eapply supported_coerce, Hs, E. }
  f_equal. apply map_eq. intros k. rewrite lookup_fmap. destruct ((coerce <$> h) !! k) as [v|] eqn:E; [|done].
  simpl. rewrite coerce_id; [done|]. by eapply Hw.
Qed.

(** Inversion of a chain of checks. *)
Lemma applyDefaults_Ok uuid now ct m m' :
  applyDefaults uuid now ct m = Ok m' ->
  (∀ id, uuid = Ok id -> id ≠ ""%string) ->
  mMessageID m' ≠ ""%string ∧ is_Some (mTimestamp m') ∧ mHeaders m' = mHeaders m
  ∧ mDelay m' = mDelay m ∧ mExpiration m' = mExpiration m ∧ mUserID m' = mUserID m.
Proof.
  unfold applyDefaults. intros H Hid. destruct (decide (mMessageID m = ""%string)) as [E|E].
  - destruct uuid as [id|]; simplify_eq/=. split; [by apply Hid|].
    split; [destruct (mTimestamp m); eauto|done].
  - simplify_eq/=. split; [done|]. split; [destruct (mTimestamp m); eauto|done].
Qed.

(** What [encodeMsg] guarantees about the message it returns. *)
Record encoded_ok (p : encoder) (m : Message) (len : Z) : Prop := {
  ok_id : mMessageID m ≠ ""%string;
  ok_user : mUserID m = ""%string ∨ authUser p = ""%string ∨ mUserID m = authUser p;
  ok_headers : ∀ h k v, mHeaders m = Some h -> h !! k = Some v -> wire_ok v = true;
  ok_delay : 0 <= milliseconds (mDelay m) <= maxInt32;
  ok_expiration : mExpiration m = 0 ∨ 1 <= milliseconds (mExpiration m);
  ok_size : 0 < maxMessageSizeBytes p -> len <= maxMessageSizeBytes p
}.

Lemma validateHeaders_wire h h' :
  validateHeaders h = Ok h' -> ∀ m k v, h' = Some m -> m !! k = Some v -> wire_ok v = true.
Proof.
  unfold validateHeaders. destruct h as [h|]; [|by intros [= <-] ? ? ? [=]].
  destruct (validateHeadersMap h) as [h1|] eqn:E; simpl; [|done]. intros [= <-] m k v [= <-] Hk.
  by eapply validateHeadersMap_wire.
Qed.

Lemma encodeMsg_Ok p e msg m len :
  encodeMsg p e msg = Ok (m, len) ->
  (∀ id, uuidOutcome e = Ok id -> id ≠ ""%string) -> encoded_ok p m len.
Proof.
  unfold encodeMsg. intros H Hid.
  destruct (applyDefaults _ _ _ msg) as [m1|] eqn:E1; [|done]. simpl in H.
  destruct (applyDefaults_Ok _ _ _ _ _ E1 Hid) as (H1 & _ & _ & _).
  destruct (validateHeaders (mHeaders m1)) as [h|] eqn:E2; [|done]. simpl in H.
  pose proof (validateHeaders_wire _ _ E2) as Hw.
  set (m2 := if stampUserID p && _ then _ else _) in H.
  assert (mMessageID m2 = mMessageID m1 ∧ mHeaders m2 = h) as [Hm1 Hm2]
    by (unfold m2; by destruct (_ && _)).
  destruct (decide (_ ∧ _ ∧ _)) as [|Hu] in H; [done|].
  destruct (negb (mBody m2)); [done|].
  destruct (decide (_ ∨ _)) as [|Hd] in H; [done|].
  destruct (decide (_ ∧ _)) as [|Hx] in H; [done|].
  destruct (safeEncodeBody (codecOutcome e)) as [[[n ce] ct]|]; [|done].
  assert (∃ h3, (if decide (ce = ∅) then Ok m2 else
      let? ce0 := validateHeadersMap ce in Ok (set_headers (Some (ce0 ∪ default ∅ (mHeaders m2))) m2))
      = @Ok error _ (set_headers h3 m2)
    ∧ ∀ h k v, h3 = Some h -> h !! k = Some v -> wire_ok v = true) as (h3 & E3 & Hw3).
  { destruct (decide (ce = ∅)).
    - exists (mHeaders m2). split; [by destruct m2|]. rewrite Hm2. exact Hw.
    - destruct (validateHeadersMap ce) as [ce1|] eqn:Ec in H |- *; simpl in H |- *; [|done].
      eexists. split; [done|]. intros h' k v [= <-] Hk.
      apply lookup_union_Some_raw in Hk as [Hk|[_ Hk]]; [by eapply validateHeadersMap_wire|].
      rewrite Hm2 in Hk. destruct h as [h|]; [by eapply Hw|]. simpl in Hk. by rewrite lookup_empty in Hk. }
  rewrite E3 in H. simpl in H.
  destruct (decide (0 < _ ∧ _)) as [|Hs] in H; [done|].
  destruct (decide (ct = ""%string)) in H; injection H as <- <-.
  - constructor; simpl; try lia; [by rewrite Hm1| |exact Hw3].
    destruct (decide (mUserID m2 = ""%string)), (decide (authUser p = ""%string)),
      (decide (mUserID m2 = authUser p)); auto. tauto.
  - constructor; simpl; try lia; [by rewrite Hm1| |exact Hw3].
    destruct (decide (mUserID m2 = ""%string)), (decide (authUser p = ""%string)),
      (decide (mUserID m2 = authUser p)); auto. tauto.
Qed.

(** ** Properties *)

(** Header validation yields exactly what the wire encoder can take: when it
    succeeds, every value at every depth has a fixed width and a supported
    type, [Headers] nest at most ten deep below the top, the keys are the
    caller's and validating again changes nothing. *)
Lemma validateHeaders_encodable h h' :
  validateHeadersMap h = Ok h' ->
  (∀ k v, h' !! k = Some v -> wire_ok v = true)
  ∧ (∀ k v, h !! k = Some v -> (nesting v <= maxHeaderDepth)%nat)
  ∧ (∀ k, is_Some (h' !! k) <-> is_Some (h !! k))
  ∧ validateHeadersMap h' = Ok h'.
Proof.
  intros H. split; [by apply (validateHeadersMap_wire h)|].
  pose proof (validateHeadersMap_idem h h' H) as Hid.
  apply validateHeadersMap_Ok in H as [-> Hs]. split; [|split; [|exact Hid]].
  - intros k v Hk. pose proof (supported_nesting v 0 (Hs k v Hk)). lia.
  - intros k. rewrite lookup_fmap. by rewrite fmap_is_Some.
Qed.

(** No frame that misstates the caller's intent leaves the client: when
    [encodeMsg] accepts a message, the frame built from it has a message id,
    a user id the broker will accept, encodable headers, an x-delay that is the
    exact millisecond count, an expiration that is never "0", and a body
    within the configured cap. *)
Lemma encoded_frame_faithful p e msg m len :
  encodeMsg p e msg = Ok (m, len) ->
  (∀ id, uuidOutcome e = Ok id -> id ≠ ""%string) ->
  let pub := buildPublishing m len in
  pMessageId pub ≠ ""%string
  ∧ (pUserId pub = ""%string ∨ authUser p = ""%string ∨ pUserId pub = authUser p)
  ∧ (∀ h k v, pHeaders pub = Some h -> h !! k = Some v -> wire_ok v = true)
  ∧ (0 < mDelay m -> ∃ h, pHeaders pub = Some h
       ∧ h !! "x-delay"%string = Some (VNum KInt32 (milliseconds (mDelay m))))
  ∧ (pExpiration pub = ""%string ∨ ∃ n, 1 <= n ∧ pExpiration pub = pretty n)
  ∧ (0 < maxMessageSizeBytes p -> pBodyLen pub <= maxMessageSizeBytes p).
Proof.
  intros H Hid. cbv zeta. destruct (encodeMsg_Ok p e msg m len H Hid) as [H1 H2 H3 H4 H5 H6].
  assert (wrap_signed 32 (milliseconds (mDelay m)) = milliseconds (mDelay m)) as Hwrap.
  { apply wrap_signed_id; [lia|]. change (2 ^ (32 - 1)) with 2147483648. unfold maxInt32 in H4. lia. }
  do 2 (split; [done|]). split; [|split; [|split]].
  - intros h k v. simpl. case_decide; [|by apply H3]. intros [= <-] Hk.
    rewrite lookup_insert in Hk. case_decide; [by simplify_eq|].
    destruct (mHeaders m) as [h0|]; simpl in Hk; [by eapply H3|by rewrite lookup_empty in Hk].
  - intros Hd. simpl. rewrite decide_True by done. eexists. split; [done|].
    rewrite lookup_insert_eq. by rewrite Hwrap.
  - simpl. case_decide as Hx; [|by left]. right. eexists. split; [|done]. lia.
  - done.
Qed.

(** Trace injection never overwrites what the caller set and adds nothing
    when there is no live span. *)
Lemma injectTrace_preserves active inject headers k v :
  (∀ m j w, m !! j = Some w -> j ≠ HeaderTraceParent -> j ≠ HeaderTraceState -> inject m !! j = Some w) ->
  (headers ≫= (fun h => h !! k)) = Some v ->
  (injectTrace active inject headers ≫= (fun h => h !! k)) = Some v.
Proof.
  intros Hinj Hk. unfold injectTrace. destruct active; [|done].
  destruct headers as [h|]; [|done]. simpl in *.
  destruct (decide (k = HeaderTraceState)) as [->|Hs].
  { rewrite Hk. apply lookup_insert_eq. }
  assert (∀ o m, (match o with Some x => <[ HeaderTraceState := x ]> m | None => m end : gmap string value) !! k
    = m !! k) as Hskip by (intros [x|] m; [by rewrite lookup_insert_ne|done]).
  rewrite Hskip. destruct (decide (k = HeaderTraceParent)) as [->|Hp].
  { rewrite Hk. apply lookup_insert_eq. }
  destruct (h !! HeaderTraceParent); [rewrite lookup_insert_ne by done|]; by apply Hinj.
Qed.

(** The types [Headers] documents as supported but validation refuses. *)
Lemma plain_map_refused es : supported 0 (VMap es) = false.
Proof. done. Qed.

(** ** Witnesses *)

Definition sample_headers : gmap string value :=
  {[ "n"%string := VNum KInt 5; "l"%string := VSlice [VNum KUint 7; VHeaders [("x"%string, VBool true)]] ]}.

Lemma validateHeaders_witness :
  validateHeadersMap (coerce <$> sample_headers) = Ok (coerce <$> sample_headers)
  ∧ coerce (VNum KInt 5) = VNum KInt64 5.
Proof.
  split; [|reflexivity].
  apply (validateHeaders_encodable sample_headers). vm_compute. reflexivity.
Defined.

Definition sample_msg : Message :=
  mkMessage true "" "" "" "" "" "" "" "" (Some sample_headers) 0 None (5 * second) 0 (2 * second).

Definition sample_encoder : encoder := mkEncoder true "guest" 1000.

Definition sample_encode_env : encode_env :=
  mkEncodeEnv (Ok "id-1"%string) 77 "application/json" (EncOk 10 ∅ "").

Definition sample_encoded : Message :=
  match encodeMsg sample_encoder sample_encode_env sample_msg with Ok (m, _) => m | Err _ => sample_msg end.

Lemma encoded_frame_witness :
  pExpiration (buildPublishing sample_encoded 10) = "5000"%string
  ∧ pMessageId (buildPublishing sample_encoded 10) ≠ ""%string.
Proof.
  split; [vm_compute; reflexivity|].
  apply (encoded_frame_faithful sample_encoder sample_encode_env sample_msg sample_encoded 10).
  - vm_compute. reflexivity.
  - intros id [= <-]. done.
Defined.

Lemma injectTrace_witness :
  (injectTrace true (fun m => <[ HeaderTraceParent := VString "new" ]> m)
     (Some {[ HeaderTraceParent := VString "mine" ]}) ≫= (fun h => h !! HeaderTraceParent))
  = Some (VString "mine").
Proof.
  apply injectTrace_preserves.
  - intros m j w Hj Hp _. by rewrite lookup_insert_ne.
  - reflexivity.
Defined.
