(* ===== verification/Codec.v ===== *)
(** * Codec: the codec contract, JSON and Protocol Buffers

    Models [src/codec/codec.go], [src/codec/json.go] and
    [src/codec/protobuf.go].  Of the standard library's JSON package the byte
    scanner, which finds where the first value ends, and [Decoder.More] are
    modelled; what decoding does to a destination of a given Go type is a
    parameter, and so is the Protocol Buffers runtime. *)

From S2P Require Import Prelude Errors.

Abbreviation bytes := (list Byte.byte).

(** ** codec.go *)

(** [fmt.Errorf] with [codec.ErrInvalidMessage], alone or with a cause. *)
Definition codecErr (cause : goerror) : error :=
  Wrap (Sentinel CodecErrInvalidMessage :: match cause with Some e => [e] | None => [] end).

(** [Decode] gives the destination after the call and the error. *)
Record codec (A : Type) : Type := mkCodec {
  Encode : A -> result error bytes;
  Decode : bytes -> A -> A * goerror;
  ContentType : string
}.
Arguments mkCodec {A}.
Arguments Encode {A}.
Arguments Decode {A}.
Arguments ContentType {A}.

(** The contract the interface documents: a codec that fails returns
    [ErrInvalidMessage]. *)
Class CodecErrors {A} (c : codec A) : Prop := {
  encode_error v e : Encode c v = Err e -> err_is e CodecErrInvalidMessage = true;
  decode_error d v v' e : Decode c d v = (v', Some e) -> err_is e CodecErrInvalidMessage = true
}.

Lemma codecErr_is cause : err_is (codecErr cause) CodecErrInvalidMessage = true.
Proof. by destruct cause. Qed.

#[export] Hint Resolve codecErr_is : warren.

(** ** The scanner of encoding/json *)

Module Scanner.

Definition code (b : Byte.byte) : Z := Z.of_N (Byte.to_N b).

Definition isSpace (c : Z) : bool := (c =? 32) || (c =? 9) || (c =? 13) || (c =? 10).
Definition isDigit (c : Z) : bool := (48 <=? c) && (c <=? 57).
Definition isHex (c : Z) : bool :=
  isDigit c || ((97 <=? c) && (c <=? 102)) || ((65 <=? c) && (c <=? 70)).

(** What encloses the current position, innermost first. *)
Inductive parse_state : Type := parseObjectKey | parseObjectValue | parseArrayValue.

Inductive phase : Type :=
| BeginValue | BeginValueOrEmpty | BeginString | BeginStringOrEmpty
| InString | InStringEsc | InStringEscU (left : nat)
| Neg | Digits | Zero | Dot | Dot0 | Exp | ExpSign | Exp0
| Literal (left : list Z)
| EndValue.

(** [Next]: the byte belongs to the value; [Closed]: it is its last byte (the
    bracket that closes the outermost value); [Over]: the value ended before
    it; [Bad]: a syntax error. *)
Inductive outcome : Type :=
| Next (p : phase) (st : list parse_state)
| Closed
| Over
| Bad.

Definition maxNestingDepth : nat := 10000.

Definition push (p : phase) (s : parse_state) (st : list parse_state) : outcome :=
  if decide (S (length st) <= maxNestingDepth)%nat then Next p (s :: st) else Bad.

(** [popParseState]: the end of an object or array. *)
Definition pop (st : list parse_state) : outcome :=
  match st with
  | _ :: [] | [] => Closed
  | _ :: r => Next EndValue r
  end.

Definition beginValue (c : Z) (st : list parse_state) : outcome :=
  if isSpace c then Next BeginValue st
  else if c =? 123 then push BeginStringOrEmpty parseObjectKey st
  else if c =? 91 then push BeginValueOrEmpty parseArrayValue st
  else if c =? 34 then Next InString st
  else if c =? 45 then Next Neg st
  else if c =? 48 then Next Zero st
  else if c =? 116 then Next (Literal [114; 117; 101]) st
  else if c =? 102 then Next (Literal [97; 108; 115; 101]) st
  else if c =? 110 then Next (Literal [117; 108; 108]) st
  else if (49 <=? c) && (c <=? 57) then Next Digits st
  else Bad.

Definition endValue (c : Z) (st : list parse_state) : outcome :=
  match st with
  | [] => Over
  | s :: r =>
      if isSpace c then Next EndValue st
      else
        match s with
        | parseObjectKey => if c =? 58 then Next BeginValue (parseObjectValue :: r) else Bad
        | parseObjectValue =>
            if c =? 44 then Next BeginString (parseObjectKey :: r)
            else if c =? 125 then pop st else Bad
        | parseArrayValue =>
            if c =? 44 then Next BeginValue st
            else if c =? 93 then pop st else Bad
        end
  end.

Definition beginString (c : Z) (st : list parse_state) : outcome :=
  if isSpace c then Next BeginString st else if c =? 34 then Next InString st else Bad.

Definition exponent (c : Z) (st : list parse_state) : outcome :=
  if (c =? 101) || (c =? 69) then Next Exp st else endValue c st.

Definition fraction (c : Z) (st : list parse_state) : outcome :=
  if c =? 46 then Next Dot st else exponent c st.

Definition step (p : phase) (st : list parse_state) (c : Z) : outcome :=
  match p with
  | BeginValue => beginValue c st
  | BeginValueOrEmpty =>
      if isSpace c then Next BeginValueOrEmpty st
      else if c =? 93 then pop st else beginValue c st
  | BeginString => beginString c st
  | BeginStringOrEmpty =>
      if isSpace c then Next BeginStringOrEmpty st
      else if c =? 125 then pop st else beginString c st
  | InString =>
      if c =? 34 then Next EndValue st
      else if c =? 92 then Next InStringEsc st
      else if c <? 32 then Bad else Next InString st
  | InStringEsc =>
      if (c =? 98) || (c =? 102) || (c =? 110) || (c =? 114) || (c =? 116)
         || (c =? 92) || (c =? 47) || (c =? 34) then Next InString st
      else if c =? 117 then Next (InStringEscU 3) st else Bad
  | InStringEscU n =>
      if isHex c then Next (match n with O => InString | S m => InStringEscU m end) st else Bad
  | Neg => if c =? 48 then Next Zero st
           else if (49 <=? c) && (c <=? 57) then Next Digits st else Bad
  | Digits => if isDigit c then Next Digits st else fraction c st
  | Zero => fraction c st
  | Dot => if isDigit c then Next Dot0 st else Bad
  | Dot0 => if isDigit c then Next Dot0 st else exponent c st
  | Exp => if (c =? 43) || (c =? 45) then Next ExpSign st
           else if isDigit c then Next Exp0 st else Bad
  | ExpSign => if isDigit c then Next Exp0 st else Bad
  | Exp0 => if isDigit c then Next Exp0 st else endValue c st
  | Literal [] => endValue c st
  | Literal (l :: ls) =>
      if c =? l then Next (match ls with [] => EndValue | _ => Literal ls end) st else Bad
  | EndValue => endValue c st
  end.

(** [Decoder.readValue]: the bytes of the first value and what follows.  At the
    end of the input the scanner is fed one blank. *)
Fixpoint readValue (p : phase) (st : list parse_state) (data : bytes) : option (bytes * bytes) :=
  match data with
  | [] => match step p st 32 with Over => Some ([], []) | _ => None end
  | b :: r =>
      match step p st (code b) with
      | Next p st => '(raw, rest) ← readValue p st r; Some (b :: raw, rest)
      | Closed => Some ([b], r)
      | Over => Some ([], data)
      | Bad => None
      end
  end.

Definition firstValue (data : bytes) : option (bytes * bytes) := readValue BeginValue [] data.

(** [Decoder.peek]: the next byte that is no blank. *)
Fixpoint peek (data : bytes) : option Z :=
  match data with
  | [] => None
  | b :: r => if isSpace (code b) then peek r else Some (code b)
  end.

Definition More (data : bytes) : bool :=
  match peek data with
  | None => false
  | Some c => negb (c =? 93) && negb (c =? 125)
  end.

Lemma readValue_app p st data raw rest : readValue p st data = Some (raw, rest) -> data = raw ++ rest.
Proof.
  revert p st raw rest. induction data as [|b r IH]; intros p st raw rest; simpl.
  { destruct (step p st 32); by intros [= <- <-]. }
  destruct (step p st (code b)) as [p' st'| | |]; try (by intros [= <- <-]).
  destruct (readValue p' st' r) as [[raw' rest']|] eqn:E; [|done]. intros [= <- <-].
  simpl. f_equal. by eapply IH.
Qed.
End Scanner.

(** ** Go types, as reflection shows them *)

(** Types are named, so that a struct may embed a pointer to itself. *)
Record field : Type := mkField {
  fName : string;
  fPkgPath : string;
  fAnonymous : bool;
  fTag : string;
  fType : positive
}.

Inductive go_type : Type :=
| Struct (fs : list field)
| Pointer (elem : positive)
| Scalar.

(** [strings.Cut(s, ",")]: what precedes the first comma. *)
Fixpoint cut_comma (s : string) : string :=
  match s with
  | EmptyString => EmptyString
  | String a r => if decide (a = Ascii.ascii_of_nat 44) then EmptyString else String a (cut_comma r)
  end.

(** ** json.go *)

Record jsonCodec : Type := mkJson { strict : bool; observer : bool }.

(** [NewJSON], with the observer option or without, and [NewJSONStrict]. *)
Definition NewJSON (observer : bool) : jsonCodec := mkJson false observer.
Definition NewJSONStrict : jsonCodec := mkJson true false.

(** [jsonMarshal] is [json.Marshal] on the message type. *)
Definition jsonEncode {V} (jsonMarshal : V -> result error bytes) (v : V) : result error bytes :=
  match jsonMarshal v with
  | Err e => Err (codecErr (Some e))
  | Ok out => Ok out
  end.

Section json.
  (** The declared types; [strings.ToLower]; values of the message type and
      what the library does with them: [jsonUnmarshal], which rejects unknown
      fields when its flag is set, and [objectKeys], the keys of the payload as
      an object in the order the runtime visits them. *)
  Context (types : gmap positive go_type) (toLower : string -> string).
  Context {V : Type} (jsonUnmarshal : bool -> bytes -> V -> V * goerror).
  Context (objectKeys : bytes -> option (list string)).

(** [for t.Kind() == reflect.Pointer { t = t.Elem() }] *)
Fixpoint elem_type (fuel : nat) (t : positive) : option positive :=
  match fuel with
  | O => None
  | S f =>
      match types !! t with
      | Some (Pointer t') => elem_type f t'
      | _ => Some t
      end
  end.

Definition struct_fields (t : positive) : option (list field) :=
  match types !! t with Some (Struct fs) => Some fs | _ => None end.

Definition cache : Type := gmap positive (gset string).

(** The name a field is known by. *)
Definition field_name (f : field) : string :=
  let tagName := cut_comma (fTag f) in
  toLower (if decide (tagName = ""%string) then fName f else tagName).

(** [computeKnownJSONFields]: the loop over the fields; [known] is the
    memoized [knownJSONFields] it calls for an embedded struct. *)
Fixpoint computeKnownJSONFields (fuel : nat) (known : cache -> positive -> option (gset string * cache))
    (fs : list field) (c : cache) (out : gset string) : option (gset string * cache) :=
  match fs with
  | [] => Some (out, c)
  | f :: r =>
      let skip := computeKnownJSONFields fuel known r in
      if bool_decide (fPkgPath f ≠ ""%string) && negb (fAnonymous f) then skip c out
      else
        let tagName := cut_comma (fTag f) in
        if decide (tagName = "-"%string) then skip c out
        else
          let named := skip c ({[ field_name f ]} ∪ out) in
          if fAnonymous f && bool_decide (tagName = ""%string) then
            ft ← elem_type fuel (fType f);
            match struct_fields ft with
            | Some _ => '(inner, c) ← known c ft; skip c (inner ∪ out)
            | None => named
            end
          else named
  end.

(** [knownJSONFields]: [None] is a run longer than the fuel. *)
Fixpoint knownJSONFields (fuel : nat) (c : cache) (rt : positive) : option (gset string * cache) :=
  match fuel with
  | O => None
  | S f =>
      match c !! rt with
      | Some s => Some (s, c)
      | None =>
          fs ← struct_fields rt;
          '(out, c) ← computeKnownJSONFields f (knownJSONFields f) fs c ∅;
          (* LoadOrStore *)
          match c !! rt with
          | Some s => Some (s, c)
          | None => Some (out, <[ rt := out ]> c)
          end
      end
  end.

(** [reportUnknownFields]: the observer's calls. *)
Definition reportUnknownFields (fuel : nat) (c : cache) (data : bytes) (t : positive)
    : option (list string * cache) :=
  rt ← elem_type fuel t;
  match struct_fields rt with
  | None => Some ([], c)
  | Some _ =>
      match objectKeys data with
      | None => Some ([], c)
      | Some keys =>
          '(known, c) ← knownJSONFields fuel c rt;
          Some (filter (fun k => toLower k ∉ known) keys, c)
      end
  end.

(** The part of [Decode] before the observer. *)
Definition jsonDecodeValue (c : jsonCodec) (data : bytes) (v : V) : V * goerror :=
  match Scanner.firstValue data with
  | None => (v, Some (codecErr (Some (OtherError 20))))
  | Some (raw, rest) =>
      let '(v', err) := jsonUnmarshal (strict c) raw v in
      match err with
      | Some e => (v', Some (codecErr (Some e)))
      | None => if Scanner.More rest then (v', Some (codecErr None)) else (v', None)
      end
  end.

(** [Decode] into a destination of type [t]: the destination, the error, the
    observer's calls and the cache. *)
Definition jsonDecode (fuel : nat) (j : jsonCodec) (t : positive) (c : cache) (data : bytes) (v : V)
    : option (V * goerror * list string * cache) :=
  let '(v', err) := jsonDecodeValue j data v in
  match err with
  | Some e => Some (v', Some e, [], c)
  | None =>
      if observer j then
        '(calls, c) ← reportUnknownFields fuel c data t; Some (v', None, calls, c)
      else Some (v', None, [], c)
  end.

Definition json_codec (jsonMarshal : V -> result error bytes) (j : jsonCodec) : codec V :=
  mkCodec (jsonEncode jsonMarshal) (jsonDecodeValue j) "application/json".

#[global] Instance json_errors jsonMarshal j : CodecErrors (json_codec jsonMarshal j).
Proof.
  constructor; simpl.
  - unfold jsonEncode. intros v e H. case_match; simplify_eq. apply codecErr_is.
  - unfold jsonDecodeValue. intros d v v' e H. repeat case_match; simplify_eq; apply codecErr_is.
Qed.

(** ** What a struct type accepts *)

(** Following pointers. *)
Inductive Elem : positive -> positive -> Prop :=
| Elem_here t : (∀ u, types !! t ≠ Some (Pointer u)) -> Elem t t
| Elem_pointer t u w : types !! t = Some (Pointer u) -> Elem u w -> Elem t w.

Definition visible (f : field) : bool :=
  negb (bool_decide (fPkgPath f ≠ ""%string) && negb (fAnonymous f))
  && negb (bool_decide (cut_comma (fTag f) = "-"%string)).

Definition untagged_embedded (f : field) : bool :=
  fAnonymous f && bool_decide (cut_comma (fTag f) = ""%string).

(** The rules the comment on [knownJSONFields] states. *)
Inductive Known : positive -> string -> Prop :=
| Known_named rt fs f :
    struct_fields rt = Some fs -> f ∈ fs -> visible f = true ->
    (untagged_embedded f = true -> ∀ ft, Elem (fType f) ft -> struct_fields ft = None) ->
    Known rt (field_name f)
| Known_promoted rt fs f ft fs' n :
    struct_fields rt = Some fs -> f ∈ fs -> visible f = true -> untagged_embedded f = true ->
    Elem (fType f) ft -> struct_fields ft = Some fs' -> Known ft n -> Known rt n.

Definition coherent (c : cache) : Prop :=
  ∀ t s, c !! t = Some s -> ∀ n, n ∈ s <-> Known t n.

Lemma elem_type_Elem fuel t w : elem_type fuel t = Some w -> Elem t w.
Proof.
  revert t. induction fuel as [|f IH]; intros t; simpl; [done|].
  destruct (types !! t) as [[fs|u|]|] eqn:E.
  - intros [= <-]. constructor. intros u. by rewrite E.
  - intros H. econstructor; [done|]. by apply IH.
  - intros [= <-]. constructor. intros u. by rewrite E.
  - intros [= <-]. constructor. intros u. by rewrite E.
Qed.

Lemma Elem_unique t w w' : Elem t w -> Elem t w' -> w = w'.
Proof.
  intros H. revert w'. induction H as [t Hn|t u w E _ IH]; intros w'; destruct 1 as [t' Hn'|t' u' w' E' H'];
    [done|by destruct (Hn u')|by destruct (Hn' u)|]. apply IH. congruence.
Qed.

(** What one field adds. *)
Definition Adds (f : field) (n : string) : Prop :=
  visible f = true
  ∧ (((untagged_embedded f = true -> ∀ ft, Elem (fType f) ft -> struct_fields ft = None)
      ∧ n = field_name f)
     ∨ (untagged_embedded f = true
        ∧ ∃ ft fs, Elem (fType f) ft ∧ struct_fields ft = Some fs ∧ Known ft n)).

Lemma Known_Adds rt n :
  Known rt n <-> ∃ fs f, struct_fields rt = Some fs ∧ f ∈ fs ∧ Adds f n.
Proof.
  split.
  - destruct 1 as [rt fs f Hs Hf Hv Hu|rt fs f ft fs' n Hs Hf Hv Hu He Hs' Hk]; exists fs, f.
    + split_and!; [done..|]. split; [done|]. by left.
    + split_and!; [done..|]. split; [done|]. right. split; [done|]. by exists ft, fs'.
  - intros (fs & f & Hs & Hf & Hv & [[Hu ->]|[Hu (ft & fs' & He & Hs' & Hk)]]).
    + by eapply Known_named.
    + by eapply Known_promoted.
Qed.

(** The known fields of a type, with a cache that stays right. *)
Definition exact (known : cache -> positive -> option (gset string * cache)) : Prop :=
  ∀ c t s c', coherent c -> known c t = Some (s, c') ->
    coherent c' ∧ ∀ n, n ∈ s <-> Known t n.

Lemma Adds_invisible f (out : gset string) n : visible f = false -> n ∈ out <-> n ∈ out ∨ Adds f n.
Proof. intros Hv. split; [by left|]. intros [?|[Hv' _]]; [done|congruence]. Qed.

Lemma Adds_named f (out : gset string) n :
  visible f = true ->
  (untagged_embedded f = true -> ∀ ft, Elem (fType f) ft -> struct_fields ft = None) ->
  n ∈ ({[ field_name f ]} ∪ out : gset string) <-> n ∈ out ∨ Adds f n.
Proof.
  intros Hv Hu. rewrite elem_of_union, elem_of_singleton. unfold Adds. split; [naive_solver|].
  intros [?|[_ [[_ ->]|[Hu' (ft & fs & He & Hs & _)]]]]; [auto..|]. by rewrite (Hu Hu' ft He) in Hs.
Qed.

Lemma Adds_promoted f ft fs (inner out : gset string) n :
  visible f = true -> untagged_embedded f = true -> Elem (fType f) ft -> struct_fields ft = Some fs ->
  (∀ n, n ∈ inner <-> Known ft n) -> n ∈ inner ∪ out <-> n ∈ out ∨ Adds f n.
Proof.
  intros Hv Hu He Hs Hin. rewrite elem_of_union, Hin. unfold Adds. split.
  - intros [Hk|?]; [|by left]. right. split; [done|]. right. split; [done|]. by exists ft, fs.
  - intros [?|[_ [[Hno _]|[_ (ft' & fs2 & He' & _ & Hk)]]]]; [by right| |].
    + by rewrite (Hno Hu ft He) in Hs.
    + left. by rewrite (Elem_unique _ _ _ He He').
Qed.

Lemma computeKnown_exact fuel known fs : exact known ->
  ∀ c out s c', coherent c ->
  computeKnownJSONFields fuel known fs c out = Some (s, c') ->
  coherent c' ∧ ∀ n, n ∈ s <-> n ∈ out ∨ ∃ f, f ∈ fs ∧ Adds f n.
Proof.
  intros Hex. induction fs as [|f r IH]; intros c out s c' Hc; simpl.
  { intros [= <- <-]. split; [done|]. set_solver. }
  assert (∀ c1 (o1 : gset string), coherent c1 -> (∀ n, n ∈ o1 <-> n ∈ out ∨ Adds f n) ->
    computeKnownJSONFields fuel known r c1 o1 = Some (s, c') ->
    coherent c' ∧ ∀ n, n ∈ s <-> n ∈ out ∨ ∃ f', f' ∈ f :: r ∧ Adds f' n) as Hcont.
  { intros c1 o1 Hc1 Ho H. apply IH in H as [Hc' Hs]; [|done]. split; [done|]. intros n.
    rewrite Hs, Ho. set_solver. }
  destruct (bool_decide (fPkgPath f ≠ _) && negb (fAnonymous f)) eqn:Ex.
  { apply Hcont; [done|]. intros n. apply Adds_invisible. unfold visible. by rewrite Ex. }
  destruct (decide (cut_comma (fTag f) = "-"%string)) as [Et|Et].
  { apply Hcont; [done|]. intros n. apply Adds_invisible. unfold visible.
    rewrite Ex. by rewrite bool_decide_eq_true_2. }
  assert (visible f = true) as Hv by (unfold visible; rewrite Ex; by rewrite bool_decide_eq_false_2).
  fold (untagged_embedded f). destruct (untagged_embedded f) eqn:Eu.
  2:{ apply Hcont; [done|]. intros n. apply Adds_named; [done|congruence]. }
  destruct (elem_type fuel (fType f)) as [ft|] eqn:Ee; simpl; [|done].
  apply elem_type_Elem in Ee.
  destruct (struct_fields ft) as [fs'|] eqn:Es.
  - destruct (known c ft) as [[inner c1]|] eqn:Ek; simpl; [|done].
    destruct (Hex _ _ _ _ Hc Ek) as [Hc1 Hin]. apply Hcont; [done|]. intros n.
    by eapply Adds_promoted.
  - apply Hcont; [done|]. intros n. apply Adds_named; [done|].
    intros _ ft' He'. by rewrite <- (Elem_unique _ _ _ Ee He').
Qed.

Lemma knownJSONFields_exact fuel : exact (knownJSONFields fuel).
Proof.
  induction fuel as [|f IH]; intros c t s c' Hc; simpl; [done|].
  destruct (c !! t) as [s0|] eqn:E. { intros [= <- <-]. split; [done|]. by apply Hc. }
  destruct (struct_fields t) as [fs|] eqn:Es; simpl; [|done].
  destruct (computeKnownJSONFields _ _ _ _ _) as [[out c1]|] eqn:Ec; simpl; [|done].
  apply (computeKnown_exact _ _ _ IH) in Ec as [Hc1 Ho]; [|done].
  assert (∀ n, n ∈ out <-> Known t n) as Hout.
  { intros n. rewrite Ho, Known_Adds. set_solver. }
  destruct (c1 !! t) as [s1|] eqn:E1; intros [= <- <-].
  - split; [done|]. by apply Hc1.
  - split; [|done]. intros u su [[<- <-]|[_ Hu]]%lookup_insert_Some; [done|by apply Hc1].
Qed.

(** ** Termination *)

(** No type contains itself through pointers and promoted fields. *)
Definition ranked (rank : positive -> nat) : Prop :=
  (∀ t u, types !! t = Some (Pointer u) -> (rank u < rank t)%nat)
  ∧ (∀ t fs f, struct_fields t = Some fs -> f ∈ fs -> untagged_embedded f = true ->
       (rank (fType f) < rank t)%nat).

Lemma elem_type_ranked rank fuel t :
  ranked rank -> (rank t < fuel)%nat -> ∃ w, elem_type fuel t = Some w ∧ (rank w <= rank t)%nat.
Proof.
  intros [Hp _]. revert t. induction fuel as [|f IH]; intros t Hr; [lia|]. simpl.
  destruct (types !! t) as [[fs|u|]|] eqn:E; try (by exists t).
  pose proof (Hp t u E). destruct (IH u) as (w & -> & Hw); [lia|]. exists w. split; [done|]. lia.
Qed.

Lemma computeKnown_total rank fuel known fs :
  ranked rank -> (∀ c t fs', struct_fields t = Some fs' -> (rank t < fuel)%nat -> known c t ≠ None) ->
  (∀ f, f ∈ fs -> untagged_embedded f = true -> (rank (fType f) < fuel)%nat) ->
  ∀ c out, computeKnownJSONFields fuel known fs c out ≠ None.
Proof.
  intros Hr Hk. induction fs as [|f r IH]; intros Hf c out; simpl; [done|].
  assert (∀ c out, computeKnownJSONFields fuel known r c out ≠ None) as IH'
    by (apply IH; intros; apply Hf; [by constructor|done]).
  destruct (_ && negb _); [apply IH'|]. destruct (decide (_ = "-"%string)); [apply IH'|].
  fold (untagged_embedded f). destruct (untagged_embedded f) eqn:Eu; [|apply IH'].
  destruct (elem_type_ranked rank fuel (fType f) Hr) as (w & -> & Hw); [by apply Hf; [constructor|]|].
  pose proof (Hf f (list_elem_of_here _ _) Eu). simpl.
  destruct (struct_fields w) as [fs'|] eqn:Es; [|apply IH'].
  destruct (known c w) as [[inner c1]|] eqn:Ek; [apply IH'|]. exfalso. eapply Hk; [done| |done]. lia.
Qed.

Lemma knownJSONFields_total rank fuel c t fs :
  ranked rank -> struct_fields t = Some fs -> (rank t < fuel)%nat -> knownJSONFields fuel c t ≠ None.
Proof.
  intros Hr. revert c t fs. induction fuel as [|f IH]; intros c t fs Hs Hf; [lia|]. simpl.
  destruct (c !! t); [done|]. rewrite Hs. simpl.
  destruct (computeKnownJSONFields _ _ _ _ _) as [[out c1]|] eqn:E; simpl; [by case_match|].
  exfalso. eapply (computeKnown_total rank); [done| | |exact E].
  - intros c1 u fs' Hs' Hu. by eapply IH.
  - intros g Hg Hu. pose proof (proj2 Hr t fs g Hs Hg Hu). lia.
Qed.

Lemma reportUnknownFields_spec rank fuel c data t :
  coherent c -> ranked rank -> (rank t < fuel)%nat ->
  (∀ keys, objectKeys data = Some keys -> NoDup keys) ->
  ∃ calls c', reportUnknownFields fuel c data t = Some (calls, c') ∧ coherent c' ∧ NoDup calls
    ∧ ∀ k, k ∈ calls <-> ∃ rt fs keys, Elem t rt ∧ struct_fields rt = Some fs
        ∧ objectKeys data = Some keys ∧ k ∈ keys ∧ ~ Known rt (toLower k).
Proof.
  intros Hc Hr Hf Hnd. unfold reportUnknownFields.
  destruct (elem_type_ranked rank fuel t Hr Hf) as (rt & Ee & Hrt). rewrite Ee. simpl.
  apply elem_type_Elem in Ee.
  destruct (struct_fields rt) as [fs|] eqn:Es.
  2:{ exists [], c. split_and!; [done|done|constructor|]. intros k. split; [set_solver|].
      intros (rt' & fs & keys & He & Hs & _). rewrite (Elem_unique _ _ _ Ee He) in Es. congruence. }
  destruct (objectKeys data) as [keys|] eqn:Ek.
  2:{ exists [], c. split_and!; [done|done|constructor|]. intros k. split; [set_solver|].
      by intros (? & ? & ? & _ & _ & ? & _). }
  destruct (knownJSONFields fuel c rt) as [[known c1]|] eqn:E; simpl.
  2:{ exfalso. eapply (knownJSONFields_total rank); [done|done| |done]. lia. }
  apply knownJSONFields_exact in E as [Hc1 Hk]; [|done].
  do 2 eexists. split; [done|]. split; [done|]. split; [by apply NoDup_filter, Hnd|].
  intros k. rewrite list_elem_of_filter, Hk. split.
  - intros [Hn Hin]. by exists rt, fs, keys.
  - intros (rt' & fs' & keys' & He & _ & [= <-] & Hin & Hn). by rewrite (Elem_unique _ _ _ Ee He).
Qed.

(** A payload is accepted exactly when its first value is well formed, fits the
    destination (no unknown field in strict mode) and is followed by nothing,
    or by a closing bracket. *)
Lemma json_decode_exact j data v v' :
  jsonDecodeValue j data v = (v', None) <->
  ∃ raw rest, Scanner.firstValue data = Some (raw, rest) ∧ data = raw ++ rest
    ∧ jsonUnmarshal (strict j) raw v = (v', None)
    ∧ (Scanner.peek rest = None ∨ Scanner.peek rest = Some 93 ∨ Scanner.peek rest = Some 125).
Proof.
  unfold jsonDecodeValue, Scanner.More. split.
  - intros H. destruct (Scanner.firstValue data) as [[raw rest]|] eqn:E; [|done].
    exists raw, rest. split; [done|]. split; [by eapply Scanner.readValue_app|].
    destruct (jsonUnmarshal _ raw v) as [w [e|]]; [done|].
    destruct (Scanner.peek rest) as [c|]; [|split; [congruence|auto]].
    destruct (c =? 93) eqn:E1; [apply Z.eqb_eq in E1; subst; split; [by simplify_eq/=|auto]|].
    destruct (c =? 125) eqn:E2; [apply Z.eqb_eq in E2; subst; split; [by simplify_eq/=|auto]|done].
  - intros (raw & rest & -> & _ & -> & [->|[->| ->]]); done.
Qed.

(** The unknown-field observer is a pure signal: with an observer or without,
    [Decode] ends with the same destination and error; the observer is called
    only after a success, once for each wire key that the struct type does not
    know by the documented rules and for no other, and the shared cache of
    known fields stays right. *)
Lemma observer_reports_drift rank fuel j t c data v :
  coherent c -> ranked rank -> (rank t < fuel)%nat ->
  (∀ keys, objectKeys data = Some keys -> NoDup keys) ->
  ∃ calls c', jsonDecode fuel j t c data v =
      Some ((jsonDecodeValue j data v).1, (jsonDecodeValue j data v).2, calls, c')
    ∧ coherent c' ∧ NoDup calls
    ∧ ∀ k, k ∈ calls <->
        observer j = true ∧ (jsonDecodeValue j data v).2 = None
        ∧ ∃ rt fs keys, Elem t rt ∧ struct_fields rt = Some fs
            ∧ objectKeys data = Some keys ∧ k ∈ keys ∧ ~ Known rt (toLower k).
Proof.
  intros Hc Hr Hf Hnd. unfold jsonDecode.
  destruct (jsonDecodeValue j data v) as [v' [e|]]; simpl.
  { exists [], c. split_and!; [done|done|constructor|set_solver]. }
  destruct (observer j); simpl.
  2:{ exists [], c. split_and!; [done|done|constructor|set_solver]. }
  destruct (reportUnknownFields_spec rank fuel c data t Hc Hr Hf Hnd) as (calls & c' & -> & Hc' & Hn & Hk).
  exists calls, c'. split_and!; [done..|]. intros k. rewrite Hk. naive_solver.
Qed.
End json.

(** ** protobuf.go *)

Section protobuf.
  (** A message of the generated type, and what the runtime does with it. *)
  Context {M : Type} (protoMarshal : M -> result error bytes).
  Context (protoUnmarshal : bytes -> M -> M * goerror).

(** A value handed to the codec: a message, a typed nil pointer to one, or a
    value that is no [proto.Message]. *)
Inductive proto_dyn : Type :=
| PMessage (m : M)
| PTypedNil
| PNotMessage.

Definition protobufEncode (v : proto_dyn) : result error bytes :=
  match v with
  | PNotMessage => Err (codecErr None)
  | PTypedNil => Err (codecErr None)
  | PMessage m =>
      match protoMarshal m with
      | Err e => Err (codecErr (Some e))
      | Ok out => Ok out
      end
  end.

Definition protobufDecode (data : bytes) (v : proto_dyn) : proto_dyn * goerror :=
  match v with
  | PNotMessage => (v, Some (codecErr None))
  | PTypedNil => (v, Some (codecErr None))
  | PMessage m =>
      let '(m', err) := protoUnmarshal data m in
      match err with
      | Some e => (PMessage m', Some (codecErr (Some e)))
      | None => (PMessage m', None)
      end
  end.

Definition NewProtobuf : codec proto_dyn :=
  mkCodec protobufEncode protobufDecode "application/x-protobuf".

#[global] Instance protobuf_errors : CodecErrors NewProtobuf.
Proof.
  constructor; simpl.
  - unfold protobufEncode. intros v e H. repeat case_match; simplify_eq; apply codecErr_is.
  - unfold protobufDecode. intros d v v' e H. repeat case_match; simplify_eq; apply codecErr_is.
Qed.

(** No empty body is published for a nil message, and none is decoded into. *)
Lemma protobuf_typed_nil d :
  (∃ e, protobufEncode PTypedNil = Err e) ∧ (protobufDecode d PTypedNil).2 ≠ None.
Proof. split; [by eexists|done]. Qed.
End protobuf.

(** ** Where the JSON codec departs from what it means to do *)

Definition text (s : string) : bytes := String.list_byte_of_string s.

(** The check for trailing data asks [Decoder.More], which is made for the
    inside of arrays and objects: a closing bracket and whatever follows it
    pass as the end of the payload, in strict mode too. *)
Lemma json_trailing_bracket_accepted {V} (um : bool -> bytes -> V -> V * goerror) j v v' :
  um (strict j) (text "[1]") v = (v', None) ->
  jsonDecodeValue um j (text "[1]] [2] garbage") v = (v', None)
  ∧ jsonDecodeValue um j (text "[1]}") v = (v', None).
Proof.
  intros H. unfold jsonDecodeValue.
  change (Scanner.firstValue (text "[1]] [2] garbage")) with (Some (text "[1]", text "] [2] garbage")).
  change (Scanner.firstValue (text "[1]}")) with (Some (text "[1]", text "}")).
  cbv beta iota. by rewrite H.
Qed.

(** Other trailing data is rejected. *)
Lemma json_trailing_value_rejected {V} (um : bool -> bytes -> V -> V * goerror) j v :
  (jsonDecodeValue um j (text "[1] [2]") v).2 ≠ None.
Proof. unfold jsonDecodeValue. simpl. by destruct (um _ _ v) as [w []]. Qed.

(** [type T struct { *T }]: the walk over promoted fields does not end, where
    the standard library visits each type once. *)
Definition self_embedding : gmap positive go_type :=
  {[ 1%positive := Struct [mkField "T" "" true "" 2%positive]; 2%positive := Pointer 1%positive ]}.

Lemma self_embedding_step toLower fuel known c out :
  known c 1%positive = None ->
  computeKnownJSONFields self_embedding toLower fuel known [mkField "T" "" true "" 2%positive] c out = None.
Proof.
  intros H. destruct fuel as [|[|f]]; [done..|].
  cbn -[elem_type self_embedding struct_fields].
  change (elem_type self_embedding (S (S f)) 2%positive) with (Some 1%positive).
  cbn -[elem_type self_embedding struct_fields].
  change (struct_fields self_embedding 1%positive) with (Some [mkField "T" "" true "" 2%positive]).
  by rewrite H.
Qed.

Lemma self_embedding_never_returns toLower fuel :
  knownJSONFields self_embedding toLower fuel ∅ 1%positive = None.
Proof.
  induction fuel as [|f IH]; [done|]. cbn -[computeKnownJSONFields self_embedding struct_fields].
  change (struct_fields self_embedding 1%positive) with (Some [mkField "T" "" true "" 2%positive]).
  cbn -[computeKnownJSONFields self_embedding]. by rewrite self_embedding_step.
Qed.

(** The tag ["-,"] names a field by a hyphen for the standard library; the
    observer's rules drop it, so a known key is reported as drift. *)
Lemma hyphen_tag_dropped types toLower fuel known f c out :
  fTag f = "-,"%string -> computeKnownJSONFields types toLower fuel known [f] c out = Some (out, c).
Proof. intros H. simpl. rewrite H. by destruct (_ && _). Qed.

(** ** Witnesses *)

(** An order whose embedded metadata is promoted; the second field is renamed,
    the third excluded. *)
Definition order_types : gmap positive go_type :=
  {[ 1%positive := Struct [mkField "ID" "" false "" 9; mkField "Total" "" false "total,omitempty" 9;
                           mkField "Secret" "" false "-" 9; mkField "Meta" "" true "" 3];
     2%positive := Struct [mkField "Region" "" false "" 9; mkField "cache" "warren" false "" 9];
     3%positive := Pointer 2;
     4%positive := Pointer 1 ]}.

Definition order_rank (t : positive) : nat := match t with 4%positive => 3 | 1%positive => 2 | 3%positive => 1 | _ => 0 end.

Definition lower (s : string) : string :=
  String.string_of_list_ascii (map (fun a => let n := Ascii.nat_of_ascii a in
    if (65 <=? n)%nat && (n <=? 90)%nat then Ascii.ascii_of_nat (n + 32) else a) (String.list_ascii_of_string s)).

Lemma order_ranked : ranked order_types order_rank.
Proof.
  split.
  - intros t u H. unfold order_types in H. repeat (apply lookup_insert_Some in H as [[<- H]|[_ H]]; [simplify_eq; simpl; lia|]).
    apply lookup_singleton_Some in H as [<- H]. simplify_eq. simpl. lia.
  - intros t fs f H Hf Hu. unfold struct_fields in H. destruct (order_types !! t) as [ty|] eqn:E; [|done].
    destruct ty; simplify_eq. unfold order_types in E.
    repeat (apply lookup_insert_Some in E as [[<- E]|[_ E]]; [simplify_eq; repeat (apply elem_of_cons in Hf as [->|Hf]; [by (simpl; lia) || by vm_compute in Hu|]); by apply not_elem_of_nil in Hf|]).
    by apply lookup_singleton_Some in E as [_ E].
Qed.

Lemma observer_reports_drift_witness :
  let data := text "{}" in
  let keys := fun _ : bytes => Some ["id"; "Total"; "REGION"; "secret"; "discount"]%string in
  let r := jsonDecode order_types lower (fun _ _ v => (v, None)) keys 4 (NewJSON true) 4 ∅ data 0 in
  (∃ c, r = Some (0, None, ["secret"; "discount"]%string, c))
  ∧ ∃ calls c', r = Some (0, None, calls, c') ∧ coherent order_types lower c' ∧ NoDup calls.
Proof.
  split; [eexists; vm_compute; reflexivity|].
  destruct (observer_reports_drift order_types lower (fun _ _ v => (v, None))
    (fun _ : bytes => Some ["id"; "Total"; "REGION"; "secret"; "discount"]%string)
    order_rank 4 (NewJSON true) 4 ∅ (text "{}") 0) as (calls & c' & E & Hc & Hn & _).
  - intros t s H. exfalso. apply (lookup_empty_Some t s H).
  - apply order_ranked.
  - simpl. lia.
  - intros ks [= <-]. apply (bool_decide_unpack _). vm_compute. exact I.
  - exists calls, c'. split_and!; [exact E|done|done].
Defined.

Lemma json_decode_exact_witness :
  jsonDecodeValue (fun _ raw _ => (length raw, None)) NewJSONStrict (text " [1, 2.5e3, true] ") 0%nat = (17%nat, None)
  ∧ Scanner.firstValue (text "[1,]") = None ∧ Scanner.firstValue (text "01") = Some (text "0", text "1").
Proof. by vm_compute. Qed.
