(* ===== verification/CloudEvents.v ===== *)
(** * CloudEvents: the two CloudEvents codecs

    Models [src/codec/cloudevents.go].  The event type is the one of the
    official SDK, which is not part of the repository: it enters as a class of
    operations ([EventSDK]) with the behaviour the codecs rely on
    ([EventLaws]).  The binary codec is proved to carry every event the SDK can
    store through headers, body and content type, also through the publisher's
    own [encodeMsg] and [buildPublishing] ([Message]). *)

From S2P Require Import Prelude Errors Values Message Codec.

(** ** The SDK *)

(** What the getters of an event return.  [vTime] counts nanoseconds from the
    zero time; an absent attribute reads as the empty string. *)
Record view : Type := mkView {
  vSpecVersion : string;
  vID : string;
  vSource : string;
  vType : string;
  vSubject : string;
  vDataSchema : string;
  vDataContentType : string;
  vTime : Z;
  vExtensions : gmap string value;
  vData : list Byte.byte
}.

(** The attributes with a string setter. *)
Inductive attr : Type :=
| AID | ASource | AType | ASubject | ADataSchema | ADataContentType
| AExtension (name : string).

#[global] Instance attr_eq_dec : EqDecision attr.
Proof. solve_decision. Defined.

Definition blank (version : string) : view :=
  mkView version "" "" "" "" "" "" 0 ∅ [].

Definition put (a : attr) (s : string) (v : view) : view :=
  let '(mkView sv i so ty su ds ct t x d) := v in
  match a with
  | AID => mkView sv s so ty su ds ct t x d
  | ASource => mkView sv i s ty su ds ct t x d
  | AType => mkView sv i so s su ds ct t x d
  | ASubject => mkView sv i so ty s ds ct t x d
  | ADataSchema => mkView sv i so ty su s ct t x d
  | ADataContentType => mkView sv i so ty su ds s t x d
  | AExtension n => mkView sv i so ty su ds ct t (<[ n := VString s ]> x) d
  end.

Definition put_time (t : Z) (v : view) : view :=
  let '(mkView sv i so ty su ds ct _ x d) := v in mkView sv i so ty su ds ct t x d.

Definition put_data (d : list Byte.byte) (v : view) : view :=
  let '(mkView sv i so ty su ds ct t x _) := v in mkView sv i so ty su ds ct t x d.

Definition put_extensions (x : gmap string value) (v : view) : view :=
  let '(mkView sv i so ty su ds ct t _ d) := v in mkView sv i so ty su ds ct t x d.

(** Operations.  [New] is [event.New]: [None] when it leaves the context nil.
    [set_attr] is the family [SetID], [SetSource], ..., [SetExtension];
    [set_data] is the assignment of [DataEncoded] with [DataBase64] cleared;
    [marshal]/[unmarshal] are the JSON event format. *)
Class EventSDK : Type := {
  event : Type;
  see : event -> view;
  New : string -> option event;
  set_attr : attr -> string -> event -> event;
  SetTime : Z -> event -> event;
  set_data : list Byte.byte -> event -> event;
  Validate : event -> goerror;
  FormatTime : Z -> string;
  ParseTime : string -> result error Z;
  Format : value -> result error string;
  marshal : event -> result error (list Byte.byte);
  unmarshal : list Byte.byte -> event -> event * goerror
}.

(** What the codecs rely on.  [stores a s]: the setter of [a] keeps [s] as it
    is; [refuses a s]: it records an error instead, which [Validate] reports
    until the same attribute is set again.  A setter may do neither (it trims
    blanks, say).  A valid event stays valid when its extensions are replaced
    by strings. *)
Class EventLaws (S : EventSDK) : Type := {
  stores : attr -> string -> bool;
  refuses : attr -> string -> bool;
  refused : event -> attr -> bool;
  valid : view -> bool;
  New_blank v e : New v = Some e -> see e = blank v ∧ ∀ a, refused e a = false;
  set_stores a s e : stores a s = true ->
    see (set_attr a s e) = put a s (see e)
    ∧ ∀ b, refused (set_attr a s e) b = if decide (a = b) then false else refused e b;
  set_refuses a s e : refuses a s = true -> refused (set_attr a s e) a = true;
  set_other a b s e : a ≠ b -> refused e a = true -> refused (set_attr b s e) a = true;
  SetTime_see t e : see (SetTime t e) = put_time t (see e) ∧ refused (SetTime t e) = refused e;
  set_data_see d e : see (set_data d e) = put_data d (see e) ∧ refused (set_data d e) = refused e;
  Validate_nil e : Validate e = None <-> (∀ a, refused e a = false) ∧ valid (see e) = true;
  valid_strings v (x : gmap string string) :
    valid v = true -> dom x = dom (vExtensions v) -> valid (put_extensions (VString <$> x) v) = true
}.

(** ** Constants *)

Definition ceStructuredContentType : string := "application/cloudevents+json".
Definition ceAMQPPrefix : string := "cloudEvents:".
Definition maxCEBinaryExtensions : Z := 128.

Definition ceStandardAttrs : gset string :=
  list_to_set ["specversion"; "id"; "source"; "type"; "subject"; "dataschema"; "time";
               "datacontenttype"]%string.

(** ** Helpers *)

(** [strings.HasPrefix] with [strings.TrimPrefix]: the rest after the prefix. *)
Fixpoint cut_prefix (p k : string) : option string :=
  match p, k with
  | EmptyString, _ => Some k
  | String a p', String b k' => if decide (a = b) then cut_prefix p' k' else None
  | String _ _, EmptyString => None
  end.

Definition ceHeaderString (headers : gmap string value) (key : string) : option string :=
  match headers !! key with
  | Some (VString s) => Some s
  | Some (VBytes bs) => Some (String.string_of_list_byte bs)
  | _ => None
  end.

Definition attr_key (name : string) : string := (ceAMQPPrefix +:+ name)%string.

(** ** The codecs *)

Section codecs.
  Context {S : EventSDK}.

(** A dynamic value handed to a codec: an event pointer, an event, or a value
    of any other type. *)
Inductive dyn : Type :=
| DPtr (p : option event)
| DEvent (e : event)
| DOther.

Definition asEvent (v : dyn) : result error event :=
  match v with
  | DPtr None => Err (codecErr None)
  | DPtr (Some e) => Ok e
  | DEvent e => Ok e
  | DOther => Err (codecErr None)
  end.

Definition asEventDest (v : dyn) : result error event :=
  match v with
  | DPtr (Some e) => Ok e
  | _ => Err (codecErr None)
  end.

Definition wire_message : Type := list Byte.byte * gmap string value * string.

(** A header that is written only when the attribute is set. *)
Definition opt_header (name s : string) (h : gmap string value) : gmap string value :=
  if decide (s = ""%string) then h else <[ attr_key name := VString s ]> h.

(** The loop over the extensions, in the order [es] the runtime visits them. *)
Fixpoint encodeExtensions (es : list (string * value)) (h : gmap string value)
    : result error (gmap string value) :=
  match es with
  | [] => Ok h
  | (name, val) :: r =>
      match Format val with
      | Err e => Err (codecErr (Some e))
      | Ok s => encodeExtensions r (<[ attr_key name := VString s ]> h)
      end
  end.

Definition standardHeaders (v : view) : gmap string value :=
  let h := <[ attr_key "specversion" := VString (vSpecVersion v) ]> ∅ in
  let h := <[ attr_key "id" := VString (vID v) ]> h in
  let h := <[ attr_key "source" := VString (vSource v) ]> h in
  let h := <[ attr_key "type" := VString (vType v) ]> h in
  let h := opt_header "subject" (vSubject v) h in
  let h := opt_header "dataschema" (vDataSchema v) h in
  if decide (vTime v = 0) then h else <[ attr_key "time" := VString (FormatTime (vTime v)) ]> h.

Definition EncodeWithHeaders (es : list (string * value)) (v : dyn) : result error wire_message :=
  match asEvent v with
  | Err e => Err e
  | Ok ev =>
      match Validate ev with
      | Some e => Err (codecErr (Some e))
      | None =>
          match encodeExtensions es (standardHeaders (see ev)) with
          | Err e => Err e
          | Ok h => Ok (vData (see ev), h, vDataContentType (see ev))
          end
      end
  end.

(** [if s, ok := ceHeaderString(...); ok { ev.SetX(s) }] *)
Definition read_attr (h : gmap string value) (name : string) (a : attr) (ev : event) : event :=
  match ceHeaderString h (attr_key name) with
  | Some s => set_attr a s ev
  | None => ev
  end.

(** The loop over the header keys, in the order [ks] the runtime visits them;
    [n] is [extCount]. *)
Fixpoint readExtensions (h : gmap string value) (ks : list string) (n : Z) (ev : event)
    : result error event :=
  match ks with
  | [] => Ok ev
  | k :: r =>
      match cut_prefix ceAMQPPrefix k with
      | None => readExtensions h r n ev
      | Some name =>
          if decide (name ∈ ceStandardAttrs) then readExtensions h r n ev
          else
            match ceHeaderString h k with
            | None => readExtensions h r n ev
            | Some s =>
                let n := n + 1 in
                if decide (maxCEBinaryExtensions < n) then Err (codecErr None)
                else readExtensions h r n (set_attr (AExtension name) s ev)
            end
      end
  end.

Definition readTime (h : gmap string value) (ev : event) : result error event :=
  match ceHeaderString h (attr_key "time") with
  | None => Ok ev
  | Some s =>
      match ParseTime s with
      | Err e => Err (codecErr (Some e))
      | Ok t => Ok (SetTime t ev)
      end
  end.

(** The event that [DecodeWithHeaders] builds before it touches the
    destination. *)
Definition decodeEvent (body : list Byte.byte) (headers : gmap string value) (ks : list string)
    (contentType : string) : result error event :=
  match ceHeaderString headers (attr_key "specversion") with
  | None => Err (codecErr None)
  | Some version =>
      match New version with
      | None => Err (codecErr None)
      | Some ev =>
          let ev := read_attr headers "id" AID ev in
          let ev := read_attr headers "source" ASource ev in
          let ev := read_attr headers "type" AType ev in
          let ev := read_attr headers "subject" ASubject ev in
          let ev := read_attr headers "dataschema" ADataSchema ev in
          match readTime headers ev with
          | Err e => Err e
          | Ok ev =>
              match readExtensions headers ks 0 ev with
              | Err e => Err e
              | Ok ev =>
                  let ev := if decide (contentType = ""%string) then ev
                            else set_attr ADataContentType contentType ev in
                  let ev := if decide (0 < length body)%nat then set_data body ev else ev in
                  match Validate ev with
                  | Some e => Err (codecErr (Some e))
                  | None => Ok ev
                  end
              end
          end
      end
  end.

(** The destination after the call, and the error. *)
Definition DecodeWithHeaders (body : list Byte.byte) (headers : gmap string value)
    (ks : list string) (contentType : string) (v : dyn) : dyn * goerror :=
  match asEventDest v with
  | Err e => (v, Some e)
  | Ok _ =>
      match decodeEvent body headers ks contentType with
      | Err e => (v, Some e)
      | Ok ev => (DPtr (Some ev), None)
      end
  end.

(** The plain methods of the binary codec refuse every use. *)
Definition binaryEncode (v : dyn) : result error (list Byte.byte) := Err (codecErr None).

Definition binaryDecode (data : list Byte.byte) (v : dyn) : dyn * goerror :=
  (v, Some (codecErr None)).

(** [ceStructuredCodec]: [custom] is its [marshal] field, [None] when nil. *)
Definition structuredEncode (custom : option (event -> result error (list Byte.byte))) (v : dyn)
    : result error (list Byte.byte) :=
  match asEvent v with
  | Err e => Err e
  | Ok ev =>
      match Validate ev with
      | Some e => Err (codecErr (Some e))
      | None =>
          match (default marshal custom) ev with
          | Err e => Err (codecErr (Some e))
          | Ok out => Ok out
          end
      end
  end.

(** [json.Unmarshal] writes into the destination itself. *)
Definition structuredDecode (data : list Byte.byte) (v : dyn) : dyn * goerror :=
  match asEventDest v with
  | Err e => (v, Some e)
  | Ok ev =>
      let '(ev', err) := unmarshal data ev in
      match err with
      | Some e => (DPtr (Some ev'), Some (codecErr (Some e)))
      | None =>
          match Validate ev' with
          | Some e => (DPtr (Some ev'), Some (codecErr (Some e)))
          | None => (DPtr (Some ev'), None)
          end
      end
  end.
End codecs.

(** ** Lemmas on keys and headers *)

Lemma cut_prefix_Some (p k n : string) : cut_prefix p k = Some n <-> k = (p +:+ n)%string.
Proof.
  revert k. induction p as [|a p IH]; intros k; simpl.
  { split; [by intros [= ->]|by intros ->]. }
  change (String a p +:+ n)%string with (String a (p +:+ n)).
  destruct k as [|b k]; [done|]. case_decide as E.
  - subst. rewrite IH. split; [by intros ->|]. intros H. by injection H.
  - split; [done|]. intros H. by injection H.
Qed.

#[global] Arguments cut_prefix : simpl never.
#[global] Arguments attr_key : simpl never.

#[global] Instance attr_key_inj : Inj (=) (=) attr_key.
Proof. intros a b. apply String.app_inj. Qed.

Lemma cut_attr_key (n : string) : cut_prefix ceAMQPPrefix (attr_key n) = Some n.
Proof. by apply cut_prefix_Some. Qed.

(** The extension one header carries, if any. *)
Definition ext_of (h : gmap string value) (k : string) : option (string * string) :=
  n ← cut_prefix ceAMQPPrefix k;
  if decide (n ∈ ceStandardAttrs) then None else s ← ceHeaderString h k; Some (n, s).

Lemma ext_of_Some h k n s :
  ext_of h k = Some (n, s) <->
  k = attr_key n ∧ n ∉ ceStandardAttrs ∧ ceHeaderString h k = Some s.
Proof.
  unfold ext_of. destruct (cut_prefix _ k) as [m|] eqn:E; simpl.
  - apply cut_prefix_Some in E as ->. fold (attr_key m).
    case_decide; [|destruct (ceHeaderString _ _) eqn:Eh; simpl].
    + split; [done|]. by intros (->%(inj _) & ? & _).
    + split; [by intros [= -> ->]|]. intros (->%(inj _) & _ & ?). congruence.
    + split; [done|]. intros (->%(inj _) & _ & ?). congruence.
  - split; [done|]. intros (-> & _). by rewrite cut_attr_key in E.
Qed.

Definition exts (h : gmap string value) (ks : list string) : list (string * string) :=
  omap (ext_of h) ks.

Lemma exts_cons h k ks :
  exts h (k :: ks) = match ext_of h k with Some e => e :: exts h ks | None => exts h ks end.
Proof. done. Qed.

Lemma exts_NoDup h ks : NoDup ks -> NoDup (exts h ks).*1.
Proof.
  unfold exts. induction 1 as [|k ks Hk _ IH]; [constructor|]. simpl.
  destruct (ext_of h k) as [[n s]|] eqn:E; [|done]. simpl. constructor; [|done].
  apply ext_of_Some in E as (-> & _). intros ([n' s'] & -> & Hin)%list_elem_of_fmap.
  apply list_elem_of_omap in Hin as (k' & Hk' & (-> & _)%ext_of_Some). done.
Qed.

Section laws.
  Context {S : EventSDK}.

Definition set_extensions (ev : event) (l : list (string * string)) : event :=
  foldl (fun ev ns => set_attr (AExtension ns.1) ns.2 ev) ev l.

Lemma readExtensions_cons h k ks n ev :
  readExtensions h (k :: ks) n ev =
    match ext_of h k with
    | None => readExtensions h ks n ev
    | Some (name, s) =>
        if decide (maxCEBinaryExtensions < n + 1) then Err (codecErr None)
        else readExtensions h ks (n + 1) (set_attr (AExtension name) s ev)
    end.
Proof.
  simpl. unfold ext_of. destruct (cut_prefix _ k) as [m|]; simpl; [|done].
  case_decide; [done|]. by destruct (ceHeaderString h k).
Qed.

(** The loop refuses exactly a message with too many extensions, and sets each
    of them otherwise. *)
Lemma readExtensions_spec h ks n ev :
  n <= maxCEBinaryExtensions ->
  readExtensions h ks n ev =
    if decide (maxCEBinaryExtensions < n + Z.of_nat (length (exts h ks)))
    then Err (codecErr None) else Ok (set_extensions ev (exts h ks)).
Proof.
  revert n ev. induction ks as [|k ks IH]; intros n ev Hn.
  { simpl. case_decide; [lia|done]. }
  rewrite readExtensions_cons, exts_cons.
  destruct (ext_of h k) as [[m s]|]; [|by apply IH]. rewrite length_cons.
  destruct (decide (maxCEBinaryExtensions < n + 1)).
  - rewrite decide_True; [done|lia].
  - rewrite IH by lia. repeat case_decide; (lia || done).
Qed.

Lemma encodeExtensions_ok (fmt : value -> string) es h :
  (∀ n v, (n, v) ∈ es -> Format v = Ok (fmt v)) ->
  encodeExtensions es h =
    Ok (foldl (fun h nv => <[ attr_key nv.1 := VString (fmt nv.2) ]> h) h es).
Proof.
  revert h. induction es as [|[n v] es IH]; intros h Hf; simpl; [done|].
  rewrite (Hf n v) by constructor. apply IH. intros. apply (Hf n0). by constructor.
Qed.

(** An encoded header map: the extension headers over the standard ones. *)
Definition put_headers (f : value -> value) (es : list (string * value)) (h : gmap string value)
    : gmap string value :=
  foldl (fun h nv => <[ attr_key nv.1 := f nv.2 ]> h) h es.

Lemma put_headers_ne f es h k :
  (∀ n, n ∈ es.*1 -> k ≠ attr_key n) -> put_headers f es h !! k = h !! k.
Proof.
  unfold put_headers. revert h. induction es as [|[n v] es IH]; intros h Hk; simpl; [done|].
  rewrite IH by (intros m Hm; apply Hk; simpl; by constructor).
  rewrite lookup_insert_ne; [done|]. intros E. by apply (Hk n); [constructor|].
Qed.

Lemma put_headers_in f es h n v :
  NoDup es.*1 -> (n, v) ∈ es -> put_headers f es h !! attr_key n = Some (f v).
Proof.
  unfold put_headers. revert h. induction es as [|[m w] es IH]; intros h Hn Hin; simpl.
  { by apply not_elem_of_nil in Hin. }
  apply NoDup_cons in Hn as [Hm Hn]. apply elem_of_cons in Hin as [[= <- <-]|Hin]; [|by apply IH].
  fold (put_headers f es (<[ attr_key n := f v ]> h)). rewrite put_headers_ne; [by rewrite lookup_insert_eq|].
  by intros n' Hn' ->%(inj _).
Qed.
End laws.

(** ** Building an event through the setters *)

Section build.
  Context {S : EventSDK} {L : EventLaws S}.

(** The event shows [v] and no setter has refused anything. *)
Definition built (e : event) (v : view) : Prop := see e = v ∧ ∀ a, refused e a = false.

Lemma built_New s e : New s = Some e -> built e (blank s).
Proof. apply New_blank. Qed.

Lemma built_set a s e v : stores a s = true -> built e v -> built (set_attr a s e) (put a s v).
Proof.
  intros Hs [<- Hr]. destruct (set_stores a s e Hs) as [E Hb]. split; [done|].
  intros b. rewrite Hb. by case_decide.
Qed.

Lemma built_time t e v : built e v -> built (SetTime t e) (put_time t v).
Proof. intros [<- Hr]. destruct (SetTime_see t e) as [E' E]. split; [done|]. by rewrite E. Qed.

Lemma built_data d e v : built e v -> built (set_data d e) (put_data d v).
Proof. intros [<- Hr]. destruct (set_data_see d e) as [E' E]. split; [done|]. by rewrite E. Qed.

Definition put_strings (l : list (string * string)) (x : gmap string value) : gmap string value :=
  foldl (fun x ns => <[ ns.1 := VString ns.2 ]> x) x l.

Lemma put_strings_ne l x n : n ∉ l.*1 -> put_strings l x !! n = x !! n.
Proof.
  unfold put_strings. revert x. induction l as [|[m s] l IH]; intros x Hn; simpl; [done|].
  apply not_elem_of_cons in Hn as [Hm Hn]. rewrite IH by done. by rewrite lookup_insert_ne.
Qed.

Lemma put_strings_in l x n s :
  NoDup l.*1 -> (n, s) ∈ l -> put_strings l x !! n = Some (VString s).
Proof.
  unfold put_strings. revert x. induction l as [|[m w] l IH]; intros x Hn Hin; simpl.
  { by apply not_elem_of_nil in Hin. }
  apply NoDup_cons in Hn as [Hm Hn]. apply elem_of_cons in Hin as [[= <- <-]|Hin]; [|by apply IH].
  fold (put_strings l (<[ n := VString s ]> x)). rewrite put_strings_ne by done.
  by rewrite lookup_insert_eq.
Qed.

Lemma built_extensions l e v :
  (∀ n s, (n, s) ∈ l -> stores (AExtension n) s = true) -> built e v ->
  built (set_extensions e l) (put_extensions (put_strings l (vExtensions v)) v).
Proof.
  unfold set_extensions, put_strings. revert e v. induction l as [|[n s] l IH]; intros e v Hl Hb; simpl.
  { by destruct v. }
  assert (built (set_attr (AExtension n) s e) (put (AExtension n) s v)) as Hb'.
  { apply built_set; [|done]. apply Hl. constructor. }
  apply IH in Hb'; [by destruct v|]. intros m w Hin. apply Hl. by constructor.
Qed.

(** ** What the binary codec can carry *)

Definition canonical (x : value) : string :=
  match Format x with Ok s => s | Err _ => ""%string end.

(** Every attribute of the event is one its setter keeps as it is, extension
    names are no standard attributes, and the time survives its textual form. *)
Definition storable (v : view) : Prop :=
  New (vSpecVersion v) ≠ None
  ∧ stores AID (vID v) = true ∧ stores ASource (vSource v) = true ∧ stores AType (vType v) = true
  ∧ (vSubject v ≠ ""%string -> stores ASubject (vSubject v) = true)
  ∧ (vDataSchema v ≠ ""%string -> stores ADataSchema (vDataSchema v) = true)
  ∧ (vDataContentType v ≠ ""%string -> stores ADataContentType (vDataContentType v) = true)
  ∧ (vTime v ≠ 0 -> ParseTime (FormatTime (vTime v)) = Ok (vTime v))
  ∧ ∀ n x, vExtensions v !! n = Some x ->
      n ∉ ceStandardAttrs ∧ Format x = Ok (canonical x)
      ∧ stores (AExtension n) (canonical x) = true.

(** Extensions travel in their string form. *)
Definition narrow (v : view) : view :=
  put_extensions ((fun x => VString (canonical x)) <$> vExtensions v) v.

(** The string the encoding of [v] carries for the attribute [n]. *)
Definition carried (v : view) (n : string) : option string :=
  if decide (n ∈ ceStandardAttrs) then ceHeaderString (standardHeaders v) (attr_key n)
  else canonical <$> vExtensions v !! n.

Lemma standardHeaders_other v n :
  n ∉ ceStandardAttrs -> standardHeaders v !! attr_key n = None.
Proof.
  intros Hn. unfold standardHeaders, opt_header.
  assert (∀ m, m ∈ ceStandardAttrs -> attr_key m ≠ attr_key n) as Hne by (by intros m Hm ->%(inj _)).
  repeat case_decide; rewrite ?lookup_insert_ne by (apply Hne; vm_compute; done); done.
Qed.

Lemma encode_carried v es n :
  storable v -> es ≡ₚ map_to_list (vExtensions v) ->
  ceHeaderString (put_headers (fun x => VString (canonical x)) es (standardHeaders v)) (attr_key n)
  = carried v n.
Proof.
  intros (_ & _ & _ & _ & _ & _ & _ & _ & Hx) Hp. unfold carried.
  assert (∀ m x, (m, x) ∈ es <-> vExtensions v !! m = Some x) as Hes
    by (intros; by rewrite Hp, elem_of_map_to_list).
  unfold ceHeaderString at 1.
  assert (NoDup es.*1) as Hnd by (rewrite Hp; apply NoDup_fst_map_to_list).
  destruct (vExtensions v !! n) as [x|] eqn:E.
  - rewrite (put_headers_in _ _ _ n x) by (done || by apply Hes).
    rewrite decide_False by (by apply (Hx n x)). done.
  - rewrite put_headers_ne.
    + case_decide; [done|]. by rewrite standardHeaders_other.
    + intros m ([m' y] & -> & Hin)%list_elem_of_fmap ->%(inj _). apply Hes in Hin. simpl in *. congruence.
Qed.

(** A header written only when the attribute is not empty. *)
Definition opt_string (s : string) : option string :=
  if decide (s = ""%string) then None else Some s.

Lemma carried_standard v :
  carried v "specversion" = Some (vSpecVersion v)
  ∧ carried v "id" = Some (vID v)
  ∧ carried v "source" = Some (vSource v)
  ∧ carried v "type" = Some (vType v)
  ∧ carried v "subject" = opt_string (vSubject v)
  ∧ carried v "dataschema" = opt_string (vDataSchema v)
  ∧ carried v "time" = if decide (vTime v = 0) then None else Some (FormatTime (vTime v)).
Proof.
  unfold carried, ceHeaderString, standardHeaders, opt_header, opt_string.
  repeat match goal with |- context [decide (?n ∈ ceStandardAttrs)] =>
    rewrite (decide_True (P:=n ∈ ceStandardAttrs)) by (vm_compute; done) end.
  split_and!; repeat case_decide; by simplify_map_eq.
Qed.

(** The extension headers are the extensions of the event. *)
Lemma exts_carried v h ks :
  (∀ n, ceHeaderString h (attr_key n) = carried v n) -> (∀ k, k ∈ ks <-> is_Some (h !! k)) ->
  ∀ n s, (n, s) ∈ exts h ks <->
    n ∉ ceStandardAttrs ∧ canonical <$> vExtensions v !! n = Some s.
Proof.
  intros Hh Hk n s. unfold exts. rewrite list_elem_of_omap. split.
  - intros (k & _ & (-> & Hn & Hs)%ext_of_Some). rewrite Hh in Hs. unfold carried in Hs.
    by rewrite decide_False in Hs.
  - intros [Hn Hs]. assert (ceHeaderString h (attr_key n) = Some s) as Hc
      by (rewrite Hh; unfold carried; by rewrite decide_False).
    exists (attr_key n). split; [|by apply ext_of_Some].
    apply Hk. unfold ceHeaderString in Hc. destruct (h !! attr_key n); [by eexists|done].
Qed.

Lemma exts_bound v h ks :
  (∀ n, ceHeaderString h (attr_key n) = carried v n) -> (∀ k, k ∈ ks <-> is_Some (h !! k)) ->
  NoDup ks -> (length (exts h ks) <= size (vExtensions v))%nat.
Proof.
  intros Hh Hk Hn. rewrite <- (length_fmap fst), <- size_dom.
  rewrite <- (size_list_to_set (C:=gset string)) by (by apply exts_NoDup).
  apply subseteq_size. intros n. rewrite elem_of_list_to_set, list_elem_of_fmap, elem_of_dom.
  intros ([m s] & -> & Hin). apply (exts_carried v) in Hin as [_ Hin]; [|done..].
  by apply fmap_Some in Hin as (x & Hx & _); eexists.
Qed.

Lemma put_strings_carried v h ks :
  storable v -> (∀ n, ceHeaderString h (attr_key n) = carried v n) ->
  (∀ k, k ∈ ks <-> is_Some (h !! k)) -> NoDup ks ->
  put_strings (exts h ks) ∅ = (fun x => VString (canonical x)) <$> vExtensions v.
Proof.
  intros (_ & _ & _ & _ & _ & _ & _ & _ & Hx) Hh Hk Hn.
  apply map_eq. intros n. rewrite lookup_fmap.
  destruct (vExtensions v !! n) as [x|] eqn:E; simpl.
  - apply put_strings_in; [by apply exts_NoDup|]. apply (exts_carried v); [done..|].
    rewrite E. split; [by apply (Hx n x)|done].
  - rewrite put_strings_ne; [done|]. intros ([m s] & -> & Hin)%list_elem_of_fmap.
    apply (exts_carried v) in Hin as [_ Hin]; [|done..]. simpl in *. by rewrite E in Hin.
Qed.

Lemma built_read h name a e v o :
  ceHeaderString h (attr_key name) = o ->
  (∀ s, o = Some s -> stores a s = true) -> built e v ->
  built (read_attr h name a e) (match o with Some s => put a s v | None => v end).
Proof.
  unfold read_attr. intros -> Hs Hb. destruct o as [s|]; [|done]. apply built_set; [by apply Hs|done].
Qed.
End build.

(** ** The binary codec *)

Section binary.
  Context {S : EventSDK} {L : EventLaws S}.

(** The time header, once its text is the time's own. *)
Lemma built_readTime h e v t :
  ceHeaderString h (attr_key "time") = (if decide (t = 0) then None else Some (FormatTime t)) ->
  (t ≠ 0 -> ParseTime (FormatTime t) = Ok t) -> built e v -> vTime v = 0 ->
  ∃ e', readTime h e = Ok e' ∧ built e' (put_time t v).
Proof.
  unfold readTime. intros -> Ht Hb Hv. case_decide as E.
  - exists e. split; [done|]. subst. by destruct v; simpl in *; subst.
  - rewrite Ht by done. eexists. split; [done|]. by apply built_time.
Qed.

Lemma opt_string_stores a s s' :
  (s ≠ ""%string -> stores a s = true) -> opt_string s = Some s' -> stores a s' = true.
Proof. unfold opt_string. intros Hs. case_decide; [done|]. intros [= <-]. by apply Hs. Qed.

(** The event as it is before the loop over the headers. *)
Lemma built_standard v h e :
  storable v -> (∀ n, ceHeaderString h (attr_key n) = carried v n) ->
  New (vSpecVersion v) = Some e ->
  ∃ e', readTime h (read_attr h "dataschema" ADataSchema (read_attr h "subject" ASubject
          (read_attr h "type" AType (read_attr h "source" ASource (read_attr h "id" AID e))))) = Ok e'
      ∧ built e' (mkView (vSpecVersion v) (vID v) (vSource v) (vType v) (vSubject v) (vDataSchema v)
                    "" (vTime v) ∅ []).
Proof.
  intros (_ & Hi & Hso & Hty & Hsu & Hds & _ & Ht & _) Hh He.
  destruct (carried_standard v) as (_ & Ci & Cso & Cty & Csu & Cds & Ct).
  apply built_New in He.
  eapply (built_read h "id" AID) in He; [|rewrite Hh; exact Ci|by intros ? [= <-]].
  eapply (built_read h "source" ASource) in He; [|rewrite Hh; exact Cso|by intros ? [= <-]].
  eapply (built_read h "type" AType) in He; [|rewrite Hh; exact Cty|by intros ? [= <-]].
  eapply (built_read h "subject" ASubject) in He;
    [|rewrite Hh; exact Csu|intros ?; by apply opt_string_stores].
  eapply (built_read h "dataschema" ADataSchema) in He;
    [|rewrite Hh; exact Cds|intros ?; by apply opt_string_stores].
  destruct (built_readTime h _ _ (vTime v) (eq_trans (Hh _) Ct) Ht He) as (e' & -> & Hb).
  { unfold opt_string. by repeat case_decide. }
  exists e'. split; [done|]. revert Hb. unfold opt_string.
  repeat case_decide; simpl; congruence.
Qed.

Lemma decode_carried v h ks :
  storable v -> valid (narrow v) = true -> Z.of_nat (size (vExtensions v)) <= maxCEBinaryExtensions ->
  (∀ n, ceHeaderString h (attr_key n) = carried v n) ->
  NoDup ks -> (∀ k, k ∈ ks <-> is_Some (h !! k)) ->
  ∃ e', decodeEvent (vData v) h ks (vDataContentType v) = Ok e' ∧ built e' (narrow v).
Proof.
  intros Hst Hval Hsz Hh Hnd Hk. unfold decodeEvent.
  destruct (carried_standard v) as [Csv _]. rewrite Hh, Csv.
  destruct (New (vSpecVersion v)) as [e|] eqn:En; [|by destruct Hst].
  edestruct built_standard as (e1 & -> & Hb); [done..|].
  rewrite readExtensions_spec by done.
  pose proof (exts_bound v h ks Hh Hk Hnd). rewrite decide_False by lia.
  apply (built_extensions (exts h ks)) in Hb.
  2:{ intros n s Hin. apply (exts_carried v h ks Hh Hk) in Hin as [_ (x & Hx & ->)%fmap_Some].
      by apply Hst. }
  simpl in Hb. rewrite (put_strings_carried v) in Hb by done.
  set (e2 := set_extensions e1 _) in *.
  assert (∃ e3, (if decide (vDataContentType v = ""%string) then e2
                 else set_attr ADataContentType (vDataContentType v) e2) = e3
     ∧ built e3 (put_data [] (narrow v))) as (e3 & -> & Hb3).
  { eexists. split; [done|]. unfold narrow. case_decide as E.
    - destruct v; simpl in *; by subst.
    - apply (built_set ADataContentType (vDataContentType v)) in Hb; [by destruct v|by apply Hst]. }
  assert (∃ e4, (if decide (0 < length (vData v))%nat then set_data (vData v) e3 else e3) = e4
     ∧ built e4 (narrow v)) as (e4 & -> & Hb4).
  { eexists. split; [done|]. case_decide as E.
    - apply (built_data (vData v)) in Hb3. by destruct v.
    - destruct v as [? ? ? ? ? ? ? ? ? d]; simpl in *. by destruct d; [|simpl in E; lia]. }
  exists e4. replace (Validate e4) with (@None error); [done|]. symmetry.
  apply Validate_nil. destruct Hb4 as [-> Hr]. done.
Qed.

Lemma encode_ok v e es :
  asEvent v = Ok e -> Validate e = None -> storable (see e) ->
  es ≡ₚ map_to_list (vExtensions (see e)) ->
  EncodeWithHeaders es v =
    Ok (vData (see e), put_headers (fun x => VString (canonical x)) es (standardHeaders (see e)),
        vDataContentType (see e)).
Proof.
  intros Hv HV (_ & _ & _ & _ & _ & _ & _ & _ & Hx) Hp. unfold EncodeWithHeaders. rewrite Hv, HV.
  rewrite (encodeExtensions_ok canonical); [done|].
  intros n x Hin. rewrite Hp, elem_of_map_to_list in Hin. by apply (Hx n).
Qed.

Lemma valid_narrow e : Validate e = None -> storable (see e) -> valid (narrow (see e)) = true.
Proof.
  intros [_ Hv]%Validate_nil Hst. unfold narrow.
  replace ((fun x => VString (canonical x)) <$> vExtensions (see e))
    with (VString <$> (canonical <$> vExtensions (see e))) by (by rewrite <- map_fmap_compose).
  apply valid_strings; [done|]. by rewrite dom_fmap_L.
Qed.

(** CloudEvents binary mode loses nothing: a valid event whose attributes the
    SDK stores as they are, with at most 128 extensions, is encoded, and
    decoding the result gives a valid event with the same attributes, data and
    content type, its extensions in their string form - in whatever order the
    maps are walked, with any other headers beside the attributes, and whether
    the broker hands strings or byte strings back. *)
Lemma ce_binary_roundtrip v e es :
  asEvent v = Ok e -> Validate e = None -> storable (see e) ->
  Z.of_nat (size (vExtensions (see e))) <= maxCEBinaryExtensions ->
  es ≡ₚ map_to_list (vExtensions (see e)) ->
  ∃ body h ct, EncodeWithHeaders es v = Ok (body, h, ct)
    ∧ ∀ h' ks dest,
        (∀ n, ceHeaderString h' (attr_key n) = ceHeaderString h (attr_key n)) ->
        ks ≡ₚ (map_to_list h').*1 ->
        ∃ e', DecodeWithHeaders body h' ks ct (DPtr (Some dest)) = (DPtr (Some e'), None)
            ∧ see e' = narrow (see e) ∧ Validate e' = None.
Proof.
  intros Hv HV Hst Hsz Hp. do 3 eexists. split; [by apply encode_ok|].
  intros h' ks dest Hh Hks.
  destruct (decode_carried (see e) h' ks) as (e' & He' & Hs & Hr); [done|by apply valid_narrow|done| | | |].
  - intros n. rewrite Hh. by apply encode_carried.
  - rewrite Hks. apply NoDup_fst_map_to_list.
  - intros k. rewrite Hks, list_elem_of_fmap. split.
    + intros ([k' x] & -> & Hin). apply elem_of_map_to_list in Hin. by eexists.
    + intros [x Hx]. exists (k, x). by rewrite elem_of_map_to_list.
  - exists e'. unfold DecodeWithHeaders. simpl. rewrite He'. split_and!; [done..|].
    apply Validate_nil. split; [done|]. rewrite Hs. by apply valid_narrow.
Qed.
End binary.

(** ** What the decoder accepts *)

Section accepts.
  Context {S : EventSDK} {L : EventLaws S}.

(** A refusal stays until its attribute is set again. *)
Lemma refused_read a b h name e :
  a ≠ b -> refused e a = true -> refused (read_attr h name b e) a = true.
Proof. unfold read_attr. intros. case_match; [by apply set_other|done]. Qed.

Lemma refused_here a s h name e :
  ceHeaderString h (attr_key name) = Some s -> refuses a s = true ->
  refused (read_attr h name a e) a = true.
Proof. unfold read_attr. intros ->. apply set_refuses. Qed.

Lemma refused_time a h e e' : readTime h e = Ok e' -> refused e a = true -> refused e' a = true.
Proof.
  unfold readTime. intros H Hr. repeat case_match; simplify_eq; [|done].
  by destruct (SetTime_see a0 e) as [_ ->].
Qed.

Lemma refused_extensions a l e :
  (∀ n, n ∈ l.*1 -> a ≠ AExtension n) -> refused e a = true -> refused (set_extensions e l) a = true.
Proof.
  unfold set_extensions. revert e. induction l as [|[n s] l IH]; intros e Hn Hr; simpl; [done|].
  apply IH; [intros m Hm; apply Hn; by constructor|]. apply set_other; [|done]. apply Hn. constructor.
Qed.

Lemma refused_extension n s l e :
  NoDup l.*1 -> (n, s) ∈ l -> refuses (AExtension n) s = true ->
  refused (set_extensions e l) (AExtension n) = true.
Proof.
  unfold set_extensions. revert e. induction l as [|[m w] l IH]; intros e Hn Hin Hr; simpl.
  { by apply not_elem_of_nil in Hin. }
  apply NoDup_cons in Hn as [Hm Hn]. apply elem_of_cons in Hin as [[= <- <-]|Hin]; [|by apply IH].
  apply (refused_extensions _ l); [|by apply set_refuses]. by intros m Hm' [= <-].
Qed.

Definition set_content_type_data (ct : string) (body : list Byte.byte) (e : event) : event :=
  let e := if decide (ct = ""%string) then e else set_attr ADataContentType ct e in
  if decide (0 < length body)%nat then set_data body e else e.

Lemma refused_rest a ct body e :
  a ≠ ADataContentType -> refused e a = true -> refused (set_content_type_data ct body e) a = true.
Proof.
  unfold set_content_type_data. intros Ha Hr.
  repeat case_decide; rewrite ?(proj2 (set_data_see _ _)); try done; by apply set_other.
Qed.

Lemma refused_content_type ct body e :
  ct ≠ ""%string -> refuses ADataContentType ct = true ->
  refused (set_content_type_data ct body e) ADataContentType = true.
Proof.
  unfold set_content_type_data. intros Ha Hr. rewrite (decide_False (P := ct = ""%string)) by done.
  case_decide; rewrite ?(proj2 (set_data_see _ _)); by apply set_refuses.
Qed.

(** The event the attribute headers build. *)
Definition read_attrs (h : gmap string value) (e : event) : event :=
  read_attr h "dataschema" ADataSchema (read_attr h "subject" ASubject
    (read_attr h "type" AType (read_attr h "source" ASource (read_attr h "id" AID e)))).

Definition attr_table : list (string * attr) :=
  [("id", AID); ("source", ASource); ("type", AType); ("subject", ASubject);
   ("dataschema", ADataSchema)]%string.

Lemma refused_attrs h name a s e :
  (name, a) ∈ attr_table -> ceHeaderString h (attr_key name) = Some s -> refuses a s = true ->
  refused (read_attrs h e) a = true.
Proof.
  unfold attr_table, read_attrs. rewrite !elem_of_cons. intros Hin Hs Hr.
  repeat destruct Hin as [[= -> ->]|Hin]; [..|by apply not_elem_of_nil in Hin];
    repeat first [solve [eapply refused_here; eassumption] | apply refused_read; [done|]].
Qed.

Lemma decodeEvent_Ok body h ks ct e' :
  decodeEvent body h ks ct = Ok e' ->
  ∃ sv e e1, ceHeaderString h (attr_key "specversion") = Some sv ∧ New sv = Some e
    ∧ readTime h (read_attrs h e) = Ok e1
    ∧ Z.of_nat (length (exts h ks)) <= maxCEBinaryExtensions
    ∧ e' = set_content_type_data ct body (set_extensions e1 (exts h ks)) ∧ Validate e' = None.
Proof.
  unfold decodeEvent. intros H.
  destruct (ceHeaderString h _) as [sv|] eqn:Esv; [|done].
  destruct (New sv) as [e|] eqn:En; [|done].
  fold (read_attrs h e) in H. destruct (readTime h _) as [e1|] eqn:Et; [|done].
  rewrite readExtensions_spec in H by done. case_decide as Hl; [done|].
  fold (set_content_type_data ct body (set_extensions e1 (exts h ks))) in H.
  destruct (Validate _) eqn:Ev; [done|]. injection H as <-. exists sv, e, e1.
  split_and!; [done..|lia|done|done].
Qed.

Lemma decodeEvent_Err body h ks ct e : decodeEvent body h ks ct = Err e -> err_is e CodecErrInvalidMessage = true.
Proof.
  unfold decodeEvent, readTime. intros H.
  repeat (case_match; simplify_eq; try done);
    match goal with H : readExtensions _ _ _ _ = Err _ |- _ =>
      rewrite readExtensions_spec in H by done; case_decide; by simplify_eq end.
Qed.

(** C24. Decoding either fails with [ErrInvalidMessage] and leaves the destination
    as it was, or yields a valid event of a supported version, with at most 128
    extensions and without any header the SDK refuses: no attribute is dropped
    in silence. *)
Theorem ce_binary_decode_strict body h ks ct v d err :
  NoDup ks -> DecodeWithHeaders body h ks ct v = (d, err) ->
  match err with
  | Some e => d = v ∧ err_is e CodecErrInvalidMessage = true
  | None => ∃ e', d = DPtr (Some e') ∧ Validate e' = None
      ∧ (∃ sv, ceHeaderString h (attr_key "specversion") = Some sv ∧ New sv ≠ None)
      ∧ Z.of_nat (length (exts h ks)) <= maxCEBinaryExtensions
      ∧ (∀ name a s, (name, a) ∈ attr_table -> ceHeaderString h (attr_key name) = Some s -> refuses a s = false)
      ∧ (∀ n s, (n, s) ∈ exts h ks -> refuses (AExtension n) s = false)
      ∧ (ct ≠ ""%string -> refuses ADataContentType ct = false)
  end.
Proof.
  intros Hnd H. unfold DecodeWithHeaders in H.
  destruct (asEventDest v) as [x|ex] eqn:Ed.
  2:{ simplify_eq. split; [done|]. unfold asEventDest in Ed. by repeat case_match; simplify_eq. }
  destruct (decodeEvent _ _ _ _) as [e'|e] eqn:E; simplify_eq.
  2:{ split; [done|]. by eapply decodeEvent_Err. }
  apply decodeEvent_Ok in E as (sv & e & e1 & Hsv & Hn & Ht & Hl & He' & HV).
  exists e'. pose proof (proj1 (Validate_nil e') HV) as [Hr _].
  assert (∀ a, refused e' a ≠ true) as Hr' by (intros a; by rewrite Hr).
  split_and!; [done|done|exists sv; by rewrite Hn|done|..].
  - intros name a s Hin Hs. apply not_true_is_false. intros Hx. apply (Hr' a). subst e'.
    assert (a ≠ ADataContentType ∧ ∀ n, a ≠ AExtension n) as [Ha1 Ha2]
      by (unfold attr_table in Hin; rewrite !elem_of_cons, elem_of_nil in Hin; naive_solver).
    apply refused_rest; [done|]. apply refused_extensions; [done|].
    eapply refused_time; [done|]. by eapply refused_attrs.
  - intros n s Hin. apply not_true_is_false. intros Hx. apply (Hr' (AExtension n)). subst e'.
    apply refused_rest; [done|]. eapply refused_extension; [by apply exts_NoDup|done|done].
  - intros Hc. apply not_true_is_false. intros Hx. apply (Hr' ADataContentType). subst e'.
    by apply refused_content_type.
Qed.
End accepts.

(** ** Through the publisher *)

(** What an accepted message carries when the codec is a [HeaderCodec]: its
    headers win over the caller's, and so does its content type. *)
Lemma encodeMsg_codec_headers p e msg m len n ce ct :
  encodeMsg p e msg = Ok (m, len) -> codecOutcome e = EncOk n ce ct -> ce ≠ ∅ ->
  mHeaders m = Some ((coerce <$> ce) ∪ (coerce <$> default ∅ (mHeaders msg)))
  ∧ mContentType m = (if decide (ct = ""%string) then
                        if decide (mContentType msg = ""%string) then codecContentType e
                        else mContentType msg
                      else ct).
Proof.
  unfold encodeMsg. intros H Ho Hce. rewrite Ho in H.
  destruct (applyDefaults _ _ _ msg) as [m1|] eqn:E1; [|done]. simpl in H.
  assert (mHeaders m1 = mHeaders msg ∧ mContentType m1 =
    (if decide (mContentType msg = ""%string) then codecContentType e else mContentType msg)) as [Hh1 Hc1].
  { unfold applyDefaults in E1. destruct (if decide _ then _ else _) in E1; simplify_eq/=. done. }
  destruct (validateHeaders (mHeaders m1)) as [h|] eqn:E2; [|done]. simpl in H.
  assert (default ∅ h = coerce <$> default ∅ (mHeaders msg)) as Hh.
  { rewrite Hh1 in E2. unfold validateHeaders in E2. destruct (mHeaders msg) as [h0|]; simpl in E2.
    - destruct (validateHeadersMap h0) eqn:Ev; simplify_eq/=. by apply validateHeadersMap_Ok in Ev as [-> _].
    - simplify_eq/=. by rewrite fmap_empty. }
  set (m2 := if stampUserID p && _ then _ else _) in H.
  assert (mHeaders m2 = h ∧ mContentType m2 = mContentType m1) as [Hm2 Hc2]
    by (unfold m2; by destruct (_ && _)).
  destruct (decide (_ ∧ _ ∧ _)) in H; [done|]. destruct (negb (mBody m2)); [done|].
  destruct (decide (_ ∨ _)) in H; [done|]. destruct (decide (_ ∧ _)) in H; [done|].
  simpl in H. rewrite decide_False in H by done.
  destruct (validateHeadersMap ce) as [ce1|] eqn:Ec in H; simpl in H; [|done].
  apply validateHeadersMap_Ok in Ec as [-> _]. rewrite Hm2, Hh in H.
  destruct (decide (0 < _ ∧ _)) in H; [done|].
  destruct (decide (ct = ""%string)); injection H as <- <-; simpl; split; congruence.
Qed.

(** Coercion leaves the string values alone and makes no new ones. *)
Lemma ceHeaderString_coerce h k : ceHeaderString (coerce <$> h) k = ceHeaderString h k.
Proof.
  unfold ceHeaderString. rewrite lookup_fmap. destruct (h !! k) as [x|]; [|done]. by destruct x as [| |[]| | | | | | | | | |].
Qed.

Lemma ceHeaderString_union h m k :
  m !! k = None -> ceHeaderString (h ∪ m) k = ceHeaderString h k.
Proof. intros Hm. unfold ceHeaderString. rewrite lookup_union, Hm. by destruct (h !! k). Qed.

(** The tracing headers and the delay header are no CloudEvents attributes. *)
Lemma ceHeaderString_insert_other h k v n :
  cut_prefix ceAMQPPrefix k = None -> ceHeaderString (<[ k := v ]> h) (attr_key n) = ceHeaderString h (attr_key n).
Proof.
  intros Hk. unfold ceHeaderString. rewrite lookup_insert_ne; [done|].
  intros ->. by rewrite cut_attr_key in Hk.
Qed.

Lemma ceHeaderString_injectTrace active inject h n :
  (∀ m, inject m !! attr_key n = m !! attr_key n) ->
  ceHeaderString (default ∅ (injectTrace active inject h)) (attr_key n)
  = ceHeaderString (default ∅ h) (attr_key n).
Proof.
  intros Hi. unfold injectTrace. destruct active; [|done]. simpl.
  repeat case_match; rewrite ?ceHeaderString_insert_other by done; unfold ceHeaderString; by rewrite Hi.
Qed.

Lemma ceHeaderString_buildPublishing m len n :
  ceHeaderString (default ∅ (pHeaders (buildPublishing m len))) (attr_key n)
  = ceHeaderString (default ∅ (mHeaders m)) (attr_key n).
Proof. simpl. case_decide; [|done]. simpl. by rewrite ceHeaderString_insert_other. Qed.

(** The headers of a publishing that come from the codec. *)
Lemma published_headers p env msg m len h ct active inject n :
  encodeMsg p env msg = Ok (m, len) -> (∃ k, codecOutcome env = EncOk k h ct) -> h ≠ ∅ ->
  (∀ k, default ∅ (mHeaders msg) !! attr_key k = None) ->
  (∀ hs k, inject hs !! attr_key k = hs !! attr_key k) ->
  ceHeaderString (default ∅ (pHeaders (buildPublishing
     (set_headers (injectTrace active inject (mHeaders m)) m) len))) (attr_key n)
  = ceHeaderString h (attr_key n).
Proof.
  intros He [k Ho] Hne Hu Hi.
  rewrite ceHeaderString_buildPublishing. simpl. rewrite ceHeaderString_injectTrace by done.
  destruct (encodeMsg_codec_headers _ _ _ _ _ _ _ _ He Ho Hne) as [-> _]. simpl.
  rewrite ceHeaderString_union; [by rewrite ceHeaderString_coerce|]. by rewrite lookup_fmap, Hu.
Qed.

Section published.
  Context {S : EventSDK} {L : EventLaws S}.

(** C23. A valid CloudEvent whose attributes the SDK's setters keep as they are,
    with at most 128 extensions, survives publishing: when the message sets no
    content type of its own, nor do the caller or the propagator write a
    [cloudEvents:] header, the frame that [encodeMsg], [injectTrace] and
    [buildPublishing] make of it, with whatever other headers they add, decodes
    to the same event on the consumer's side, extensions in string form, with
    its own content type. *)
Theorem cloudevent_survives_publish v e es body h ct p env msg m len active inject dest ks :
  asEvent v = Ok e -> Validate e = None -> storable (see e) ->
  Z.of_nat (size (vExtensions (see e))) <= maxCEBinaryExtensions ->
  es ≡ₚ map_to_list (vExtensions (see e)) ->
  EncodeWithHeaders es v = Ok (body, h, ct) ->
  codecOutcome env = EncOk (Z.of_nat (length body)) h ct -> codecContentType env = ""%string ->
  mContentType msg = ""%string -> (∀ n, default ∅ (mHeaders msg) !! attr_key n = None) ->
  (∀ hs n, inject hs !! attr_key n = hs !! attr_key n) ->
  encodeMsg p env msg = Ok (m, len) ->
  let pub := buildPublishing (set_headers (injectTrace active inject (mHeaders m)) m) len in
  ks ≡ₚ (map_to_list (default ∅ (pHeaders pub))).*1 ->
  ∃ e', DecodeWithHeaders body (default ∅ (pHeaders pub)) ks (pContentType pub) (DPtr (Some dest))
          = (DPtr (Some e'), None)
      ∧ see e' = narrow (see e) ∧ Validate e' = None.
Proof.
  intros Hv HV Hst Hsz Hes Henc Ho Hct Hmct Hu Hi Hem pub Hks.
  destruct (ce_binary_roundtrip v e es Hv HV Hst Hsz Hes) as (b & h0 & ct0 & E & Hdec).
  rewrite Henc in E. injection E as <- <- <-.
  assert (h ≠ ∅) as Hne.
  { intros ->. pose proof (encode_carried (see e) es "specversion" Hst Hes) as Hc.
    rewrite (encode_ok v e es) in Henc by done. injection Henc as _ E _. rewrite E in Hc.
    destruct (carried_standard (see e)) as [Hs _]. by rewrite Hs in Hc. }
  replace (pContentType pub) with ct.
  - apply Hdec; [|done]. intros n. by eapply published_headers; eauto.
  - destruct (encodeMsg_codec_headers _ _ _ _ _ _ _ _ Hem Ho Hne) as [_ Hc]. simpl. rewrite Hc, Hmct, Hct.
    by case_decide.
Qed.
End published.

(** ** The limit is one-sided *)

Section limit.
  Context {S : EventSDK} {L : EventLaws S}.

Lemma exts_complete v h ks :
  storable v -> (∀ n, ceHeaderString h (attr_key n) = carried v n) ->
  (∀ k, k ∈ ks <-> is_Some (h !! k)) -> NoDup ks ->
  (size (vExtensions v) <= length (exts h ks))%nat.
Proof.
  intros (_ & _ & _ & _ & _ & _ & _ & _ & Hx) Hh Hk Hn. rewrite <- (length_fmap fst (exts h ks)), <- size_dom.
  rewrite <- (size_list_to_set (C:=gset string)) by (by apply exts_NoDup).
  apply subseteq_size. intros n [x Hv]%elem_of_dom.
  rewrite elem_of_list_to_set, list_elem_of_fmap. exists (n, canonical x). split; [done|].
  apply (exts_carried v h ks Hh Hk). rewrite Hv. split; [by apply (Hx n x)|done].
Qed.

(** An event with more than 128 extensions is encoded and published without an
    error; every decoder of this library refuses it. *)
Lemma too_many_extensions_sent v e es h' ks dest :
  asEvent v = Ok e -> Validate e = None -> storable (see e) ->
  maxCEBinaryExtensions < Z.of_nat (size (vExtensions (see e))) ->
  es ≡ₚ map_to_list (vExtensions (see e)) ->
  ∃ body h ct, EncodeWithHeaders es v = Ok (body, h, ct)
    ∧ ((∀ n, ceHeaderString h' (attr_key n) = ceHeaderString h (attr_key n)) ->
       (∀ k, k ∈ ks <-> is_Some (h' !! k)) -> NoDup ks ->
       ∃ err, DecodeWithHeaders body h' ks ct (DPtr (Some dest)) = (DPtr (Some dest), Some err)).
Proof.
  intros Hv HV Hst Hsz Hp. do 3 eexists. split; [by apply encode_ok|]. intros Hh Hk Hnd.
  unfold DecodeWithHeaders. simpl.
  destruct (decodeEvent _ _ _ _) as [e'|err] eqn:E; [|by eexists].
  apply decodeEvent_Ok in E as (_ & _ & _ & _ & _ & _ & Hl & _).
  assert (size (vExtensions (see e)) <= length (exts h' ks))%nat; [|lia].
  apply exts_complete; [done| |done|done]. intros n. rewrite Hh. by apply encode_carried.
Qed.
End limit.

(** ** The codec contract *)

Section contract.
  Context {S : EventSDK}.

Definition NewCloudEventsBinary : codec dyn := mkCodec binaryEncode binaryDecode "".

Definition NewCloudEventsStructured : codec dyn :=
  mkCodec (structuredEncode (Some marshal)) structuredDecode ceStructuredContentType.

#[global] Instance binary_errors : CodecErrors NewCloudEventsBinary.
Proof. constructor; [by intros v e [= <-]|by intros d v v' e [= _ <-]]. Qed.

Lemma asEvent_error v e : asEvent v = Err e -> err_is e CodecErrInvalidMessage = true.
Proof. intros. by destruct v as [[]| |]; simplify_eq/=. Qed.

Lemma asEventDest_error v e : asEventDest v = Err e -> err_is e CodecErrInvalidMessage = true.
Proof. intros. by destruct v as [[]| |]; simplify_eq/=. Qed.

#[global] Instance structured_errors : CodecErrors NewCloudEventsStructured.
Proof.
  constructor; simpl.
  - unfold structuredEncode. intros v e H. destruct (asEvent v) eqn:E; [|simplify_eq; by eapply asEvent_error].
    repeat case_match; simplify_eq; apply codecErr_is.
  - unfold structuredDecode. intros d v v' e H.
    destruct (asEventDest v) eqn:E; [|simplify_eq; by eapply asEventDest_error].
    repeat case_match; simplify_eq; apply codecErr_is.
Qed.

(** What the structured codec sends and returns is valid; unlike the binary
    codec it writes into the destination before it validates. *)
Lemma structured_only_valid v out :
  structuredEncode (Some marshal) v = Ok out -> ∃ e, asEvent v = Ok e ∧ Validate e = None ∧ marshal e = Ok out.
Proof.
  unfold structuredEncode. intros H. destruct (asEvent v) as [e|]; [|done].
  destruct (Validate e) eqn:?; [done|]. simpl in H. destruct (marshal e) eqn:?; simplify_eq. by exists e.
Qed.

Lemma structured_decode_valid d v v' :
  structuredDecode d v = (v', None) -> ∃ e, v' = DPtr (Some e) ∧ Validate e = None.
Proof.
  unfold structuredDecode. intros H. repeat case_match; simplify_eq. by eexists.
Qed.
End contract.

(** ** An instance and witnesses *)

(** A small SDK: mandatory attributes and extension values are non-empty, names
    with a hyphen are refused. *)
Module SmallSDK.

Definition hyphenated (n : string) : bool := existsb (Ascii.eqb (Ascii.ascii_of_nat 45)) (String.list_ascii_of_string n).

Definition bad (a : attr) (s : string) : bool :=
  bool_decide (s = ""%string) || match a with AExtension n => hyphenated n | _ => false end.

Definition set (a : attr) (s : string) (e : view * list attr) : view * list attr :=
  let others := filter (fun b => b ≠ a) e.2 in
  if bad a s then (e.1, a :: others) else (put a s e.1, others).

Definition complete (v : view) : bool :=
  negb (bool_decide (vID v = ""%string)) && negb (bool_decide (vSource v = ""%string))
  && negb (bool_decide (vType v = ""%string)).

Definition stamp : string := "0001-01-01T00:00:00.000000001Z".

#[global] Instance small : EventSDK := {|
  event := view * list attr;
  see := fst;
  New := fun v => if decide (v = "1.0"%string ∨ v = "0.3"%string) then Some (blank v, []) else None;
  set_attr := set;
  SetTime := fun t e => (put_time t e.1, e.2);
  set_data := fun d e => (put_data d e.1, e.2);
  Validate := fun e => if decide (e.2 = [] ∧ complete e.1 = true) then None else Some (OtherError 7);
  FormatTime := fun t => if decide (t = 1) then stamp else "?"%string;
  ParseTime := fun s => if decide (s = stamp) then Ok 1 else Err (OtherError 8);
  Format := fun x => match x with
                     | VString s => Ok s
                     | VNum KInt32 z => Ok (pretty z)
                     | _ => Err (OtherError 9)
                     end;
  marshal := fun e => if decide (vTime e.1 < 0) then Err (OtherError 10) else Ok (vData e.1);
  unmarshal := fun d e => ((put_data d e.1, e.2), None)
|}.

#[global] Instance small_laws : EventLaws small.
Proof.
  refine {| stores := fun a s => negb (bad a s); refuses := bad;
            refused := fun (e : @event small) a => bool_decide (a ∈ (e : view * list attr).2);
            valid := complete |}; simpl.
  - intros v e H. case_decide; [|done]. simplify_eq. by split.
  - intros a s [v l] Hs. apply negb_true_iff in Hs. unfold set. rewrite Hs. split; [done|].
    intros b. simpl. case_decide as E.
    + subst. apply bool_decide_eq_false. rewrite list_elem_of_filter. by intros [].
    + apply bool_decide_ext. rewrite list_elem_of_filter. naive_solver.
  - intros a s [v l] Hs. unfold set. rewrite Hs. simpl. apply bool_decide_eq_true. constructor.
  - intros a b s [v l] Hab Hr. apply bool_decide_eq_true in Hr. apply bool_decide_eq_true.
    unfold set. destruct (bad b s); simpl in *.
    + constructor. by rewrite list_elem_of_filter.
    + by rewrite list_elem_of_filter.
  - done.
  - done.
  - intros [v l]. simpl. case_decide as E; [destruct E as [-> E]|]; split; try done.
    intros [Hr Hc]. exfalso. apply E. split; [|done]. destruct l as [|a l]; [done|].
    specialize (Hr a). apply bool_decide_eq_false in Hr. destruct Hr. constructor.
  - intros v x Hv _. by destruct v.
Defined.

Definition sample : @event small :=
  (mkView "1.0" "id-1" "/orders" "order.created" "" "" "application/json" 1
     {[ "tenant"%string := VString "acme"; "partition"%string := VNum KInt32 7 ]} [Byte.x7b; Byte.x7d], []).

Definition sample_order : list (string * value) := map_to_list (vExtensions (see sample)).

Lemma sample_storable : storable (see sample).
Proof.
  split_and!; try (vm_compute; done); try (intros; vm_compute; done).
  intros n x Hx. simpl in Hx. apply lookup_insert_Some in Hx as [[<- <-]|[_ Hx]];
    [|apply lookup_singleton_Some in Hx as [<- <-]]; vm_compute; split_and!; done.
Qed.

Definition trace (hs : gmap string value) : gmap string value :=
  <[ HeaderTraceParent := VString "00-1-2-01" ]> hs.

Lemma trace_other hs n : trace hs !! attr_key n = hs !! attr_key n.
Proof. unfold trace. by rewrite lookup_insert_ne. Qed.

Definition message : Message :=
  mkMessage true "m-1" "" "" "" "" "" "" "" (Some {[ "tries"%string := VNum KInt 3 ]}) 0 None 0 0 0.

Definition sample_wire : wire_message :=
  match EncodeWithHeaders sample_order (DEvent sample) with Ok w => w | Err _ => ([], ∅, ""%string) end.

Definition sample_env : encode_env :=
  mkEncodeEnv (Ok "u"%string) 5 ""
    (EncOk (Z.of_nat (length sample_wire.1.1)) sample_wire.1.2 sample_wire.2).

Definition sample_sent : Message * Z :=
  match encodeMsg (mkEncoder false "" 0) sample_env message with Ok r => r | Err _ => (message, 0) end.

Definition sample_pub : Publishing :=
  buildPublishing (set_headers (injectTrace true trace (mHeaders sample_sent.1)) sample_sent.1) sample_sent.2.
End SmallSDK.

Lemma cloudevent_survives_publish_witness :
  let h := default ∅ (pHeaders SmallSDK.sample_pub) in
  (h !! HeaderTraceParent, h !! "tries"%string) = (Some (VString "00-1-2-01"), Some (VNum KInt64 3))
  ∧ ∃ e', DecodeWithHeaders SmallSDK.sample_wire.1.1 h (map_to_list h).*1
            (pContentType SmallSDK.sample_pub) (DPtr (Some (blank "", []))) = (DPtr (Some e'), None)
        ∧ see e' = narrow (see SmallSDK.sample) ∧ Validate e' = None.
Proof.
  split; [vm_compute; reflexivity|].
  eapply (cloudevent_survives_publish (DEvent SmallSDK.sample) SmallSDK.sample SmallSDK.sample_order
            _ SmallSDK.sample_wire.1.2 SmallSDK.sample_wire.2 (mkEncoder false "" 0) SmallSDK.sample_env
            SmallSDK.message SmallSDK.sample_sent.1 SmallSDK.sample_sent.2 true SmallSDK.trace);
    try reflexivity; try (vm_compute; reflexivity).
  - apply SmallSDK.sample_storable.
  - vm_compute. done.
  - intros. apply SmallSDK.trace_other.
Defined.

(** A frame with an extension name the SDK refuses is rejected as a whole. *)
Lemma ce_binary_decode_strict_witness :
  let h : gmap string value := <[ attr_key "bad-name" := VString "x" ]> SmallSDK.sample_wire.1.2 in
  let r := DecodeWithHeaders [] h (map_to_list h).*1 "" (DPtr (Some SmallSDK.sample)) in
  NoDup (map_to_list h).*1 ∧ r.2 ≠ None
  ∧ match r.2 with
    | Some e => r.1 = DPtr (Some SmallSDK.sample) ∧ err_is e CodecErrInvalidMessage = true
    | None => False
    end.
Proof.
  intros h r. split; [apply NoDup_fst_map_to_list|]. split; [vm_compute; done|].
  pose proof (ce_binary_decode_strict [] h (map_to_list h).*1 "" (DPtr (Some SmallSDK.sample)) r.1 r.2
    (NoDup_fst_map_to_list h) (surjective_pairing r)) as Hs.
  destruct r.2 as [e|] eqn:E; [exact Hs|]. exfalso.
  assert (r.2 ≠ None) as Hr by (vm_compute; done). by apply Hr.
Defined.

Lemma too_many_extensions_witness :
  let x : gmap string value :=
    list_to_map ((fun i : nat => ("x" +:+ pretty i, VString "1")%string) <$> seq 0 129) in
  let e : @event SmallSDK.small := (put_extensions x (see SmallSDK.sample), []) in
  match EncodeWithHeaders (map_to_list x) (DEvent e) with
  | Ok (body, h, ct) => (DecodeWithHeaders body h (map_to_list h).*1 ct (DPtr (Some e))).2 ≠ None
  | Err _ => False
  end.
Proof. vm_compute. done. Qed.
