(* ===== verification/Publisher.v ===== *)
(** * Publisher: publishing with confirms

    Models, of [src/publisher.go], the confirm demultiplexer, [publishOnce],
    the retry loop of [Publish], [PublishBatch], the choice of a pool and the
    error maps.  The channel entry holds the real confirm tracker
    ([Confirms.v]); the frames the demultiplexer handles while a publisher waits
    are the environment. *)

From S2P Require Import Prelude Errors Confirms Values Message.

(** ** Error maps *)

Definition mapConfirmError (err : error) : error :=
  if err_is err ConfirmsErrTimeout then Sentinel ErrConfirmTimeout
  else if err_is err ConfirmsErrNacked then Sentinel ErrPublishNacked
  else if err_is err ConfirmsErrClosed then Sentinel ErrChannelClosed
  else match as_unroutable err with
       | Some code => wrapCode code (Sentinel ErrUnroutable)
       | None => err
       end.

Definition retryReason (err : error) : string :=
  if err_is err ErrPublishNacked then "nacked"
  else if err_is err ErrConfirmTimeout then "confirm_timeout"
  else if err_is err ErrChannelClosed then "channel_closed"
  else if err_is err ErrChannelPoolExhausted then "pool_exhausted"
  else if err_is err ErrConnectionBlocked then "blocked"
  else if err_is err ErrReconnecting then "reconnecting"
  else if err_is err ErrRateLimited then "rate_limited"
  else "network".

Definition publishOutcome (err : goerror) : string * string :=
  match err with
  | None => ("ack", "")
  | Some e =>
      if err_is e ErrUnroutable then ("return", "ErrUnroutable")
      else if err_is e ErrConfirmTimeout then ("timeout", "ErrConfirmTimeout")
      else if err_is e ErrPublishNacked then ("nack", "ErrPublishNacked")
      else if err_is e ErrMessageTooLarge then ("too_large", "ErrMessageTooLarge")
      else if err_is e ErrChannelPoolExhausted then ("pool_exhausted", "ErrChannelPoolExhausted")
      else if err_is e ErrConnectionBlocked then ("blocked", "ErrConnectionBlocked")
      else if err_is e ErrInvalidMessage then ("error", "ErrInvalidMessage")
      else if err_is e ErrChannelClosed then ("error", "ErrChannelClosed")
      else if err_is e ErrReconnecting then ("error", "ErrReconnecting")
      else if err_is e ErrRateLimited then ("rate_limited", "ErrRateLimited")
      else ("error", "error")
  end%string.

(** ** selectPool *)

(** The loop over the pools' in-flight counters: minFlight and minIdx. *)
Fixpoint select_from (i : nat) (flights : list Z) (minFlight : Z) (minIdx : nat) : nat :=
  match flights with
  | [] => minIdx
  | n :: r =>
      if decide (minFlight < 0 ∨ n < minFlight) then select_from (S i) r n i
      else select_from (S i) r minFlight minIdx
  end.

Definition selectPool (flights : list Z) : nat := select_from 0 flights (-1) 0.

(** ** The channel entry and the demultiplexer *)

(** [publisherEntry]: the tracker and the map from message ids to delivery
    tags; [returns] is the history of calls of [onReturn]. *)
Record entry : Type := mkEntry {
  tracker : Tracker;
  returnTagMap : gmap string Z;
  returns : list (string * Z)
}.

(** What the demultiplexer receives. *)
Inductive demux : Type :=
| DReturn (messageId : string) (replyCode : Z)
| DConfirm (tag : Z) (ack : bool)
| DClosed.                       (* confirmCh is closed *)

#[global] Instance demux_eq_dec : EqDecision demux.
Proof. solve_decision. Defined.

(** One iteration of the goroutine of [startConfirmDemux]. *)
Definition demux_step (en : entry) (d : demux) : entry :=
  match d with
  | DReturn mid code =>
      if decide (mid = ""%string) then en
      else match returnTagMap en !! mid with
           | Some tag =>
               mkEntry (MarkReturned tag code (tracker en)) (delete mid (returnTagMap en))
                       (returns en ++ [(mid, code)])
           | None => en
           end
  | DConfirm tag ack =>
      mkEntry (if ack then Ack tag false (tracker en) else Nack tag false (tracker en))
              (returnTagMap en) (returns en)
  | DClosed => mkEntry (CloseAll (tracker en)) (returnTagMap en) (returns en)
  end.

Definition demux_run (ds : list demux) (en : entry) : entry := foldl demux_step en ds.

(** ** publishOnce *)

(** What the environment does to one attempt.  [aTag] is the sequence number the
    driver reports; [aEarly] are the frames the demultiplexer handles before
    [Wait] looks its slot up, [aFrames] those before the select fires. *)
Record attempt : Type := mkAttempt {
  aRateErr : goerror;        (* the context's error while waiting for a token *)
  aBarrierErr : goerror;     (* waitBarrier *)
  aAcquireErr : goerror;     (* pool.acquire *)
  aTag : Z;                  (* GetNextPublishSeqNo *)
  aPublishErr : goerror;     (* PublishWithContext *)
  aEarly : list demux;
  aFrames : list demux;
  aWake : wake               (* the case of the select in Wait *)
}.

Definition set_tracker (t : Tracker) (en : entry) : entry :=
  mkEntry t (returnTagMap en) (returns en).

Definition store_tag (mandatory : bool) (mid : string) (tag : Z) (en : entry) : entry :=
  if mandatory then mkEntry (tracker en) (<[ mid := tag ]> (returnTagMap en)) (returns en) else en.

Definition drop_tag (mandatory : bool) (mid : string) (en : entry) : entry :=
  if mandatory then mkEntry (tracker en) (delete mid (returnTagMap en)) (returns en) else en.

(** The part of [publishOnce] that runs on an acquired entry.  [None]: the
    select never fires in this environment. *)
Definition publish_on (mandatory : bool) (confirmTimeout : Z) (mid : string) (a : attempt) (en : entry)
  : option (goerror * entry) :=
  let tag := aTag a in
  let en1 := store_tag mandatory mid tag en in
  match Register tag (tracker en1) with
  | (Some err, t1) =>
      Some (Some (mapConfirmError err), drop_tag mandatory mid (set_tracker t1 en1))
  | (None, t1) =>
      let en2 := demux_run (aEarly a) (set_tracker t1 en1) in
      match aPublishErr a with
      | Some err =>
          Some (wrapAMQPError (Some err),
                drop_tag mandatory mid (set_tracker (Cancel tag (tracker en2)) en2))
      | None =>
          match Wait_lookup tag (tracker en2) with
          | None =>
              Some (Some (mapConfirmError (Sentinel ConfirmsErrClosed)), drop_tag mandatory mid en2)
          | Some addr =>
              let en3 := demux_run (aFrames a) en2 in
              match Wait_finish tag addr confirmTimeout (aWake a) (tracker en3) with
              | Some (werr, t4) =>
                  Some (mapConfirmError <$> werr, drop_tag mandatory mid (set_tracker t4 en3))
              | None => None
              end
          end
      end
  end.

Definition publishOnce (mandatory : bool) (confirmTimeout : Z) (mid : string) (a : attempt) (en : entry)
  : option (goerror * entry) :=
  match aRateErr a with
  | Some err => Some (Some (Wrap [Sentinel ErrRateLimited; err]), en)
  | None =>
      match aBarrierErr a with
      | Some err => Some (Some err, en)
      | None =>
          match aAcquireErr a with
          | Some err => Some (Some err, en)
          | None => publish_on mandatory confirmTimeout mid a en
          end
      end
  end.

(** ** The retry loop of Publish *)

(** One round: the attempt's result, whether the context was done after it, and
    whether it fired during the back-off. *)
Record round : Type := mkRound { rErr : goerror; rCtxDone : bool; rBackoffCancelled : bool }.

(** [policy] is [None] for a nil retryPolicy, else its [Retries].  The result is
    the error returned, the retries recorded and the attempts made; [None] when
    the rounds run out before [Publish] returns. *)
Fixpoint publish_loop (policy : option Z) (attempt : Z) (rounds : list round)
  : option (goerror * list string * nat) :=
  match rounds with
  | [] => None
  | r :: rest =>
      match rErr r with
      | None => Some (None, [], 1%nat)
      | Some err =>
          let stop := Some (Some err, [], 1%nat) in
          match policy with
          | None => stop
          | Some retries =>
              if negb (IsTransient (Some err)) then stop
              else if decide (0 < retries ∧ retries <= attempt) then stop
              else if rCtxDone r then stop
              else if rBackoffCancelled r then Some (Some err, [retryReason err], 1%nat)
              else match publish_loop policy (attempt + 1) rest with
                   | Some (res, ms, n) => Some (res, retryReason err :: ms, S n)
                   | None => None
                   end
          end
      end
  end.

(** ** Publish *)

(** One attempt of [Publish], on the entry the pool hands out, with what the
    context does after it. *)
Record try : Type := mkTry {
  tryAttempt : attempt;
  tryEntry : entry;
  tryCtxDone : bool;
  tryBackoffCancelled : bool
}.

(** The attempts, made one by one; one that never returns is the last. *)
Fixpoint try_rounds (mandatory : bool) (confirmTimeout : Z) (mid : string) (tries : list try) : list round :=
  match tries with
  | [] => []
  | t :: rest =>
      match publishOnce mandatory confirmTimeout mid (tryAttempt t) (tryEntry t) with
      | Some (err, _) =>
          mkRound err (tryCtxDone t) (tryBackoffCancelled t)
            :: try_rounds mandatory confirmTimeout mid rest
      | None => []
      end
  end.

(** The error returned, the retries recorded, the attempts made, and the frame
    every attempt publishes. *)
Record publish_out : Type := mkOut {
  oErr : goerror;
  oRetries : list string;
  oAttempts : nat;
  oFrame : option Publishing
}.

(** [None]: the attempts run out before [Publish] returns. *)
Definition Publish (closed mandatory : bool) (confirmTimeout : Z) (policy : option Z)
    (p : encoder) (e : encode_env) (active : bool) (inject : gmap string value -> gmap string value)
    (msg : Message) (tries : list try) : option publish_out :=
  if closed then Some (mkOut (Some (Sentinel ErrAlreadyClosed)) [] 0 None)
  else
    match encodeMsg p e msg with
    | Err err => Some (mkOut (Some err) [] 0 None)
    | Ok (m, len) =>
        let m := set_headers (injectTrace active inject (mHeaders m)) m in
        match publish_loop policy 0 (try_rounds mandatory confirmTimeout (mMessageID m) tries) with
        | Some (err, retries, n) => Some (mkOut err retries n (Some (buildPublishing m len)))
        | None => None
        end
    end.

(** ** PublishBatch *)

(** One message of a batch: the caller's [MessageID] and what the environment
    does with the message.  [iEncoded] is the outcome of [encodeMsg]: the id of
    the encoded message, stamped if the caller gave none, or the validation
    error.  [iAfter] are the frames the demultiplexer handles while the message
    is written, [iEarly] those before [Wait] looks its slot up, [iFrames] those
    before its select fires. *)
Record item : Type := mkItem {
  iMessageID : string;
  iEncoded : result error string;
  iTag : Z;                    (* GetNextPublishSeqNo *)
  iPublishErr : goerror;       (* PublishWithContext *)
  iAfter : list demux;
  iEarly : list demux;
  iFrames : list demux;
  iWake : wake
}.

(** The guard against duplicate explicit ids. *)
Fixpoint has_dup (seen : gset string) (ids : list string) : bool :=
  match ids with
  | [] => false
  | id :: r =>
      if decide (id = ""%string) then has_dup seen r
      else if decide (id ∈ seen) then true
      else has_dup ({[ id ]} ∪ seen) r
  end.

Definition encode_err (it : item) : goerror :=
  match iEncoded it with
  | Ok _ => None
  | Err e => Some e
  end.

(** The entry, and the frames its demultiplexer has handled since the batch
    acquired it. *)
Definition bstate : Type := (entry * list demux)%type.

Definition handle (ds : list demux) (s : bstate) : bstate := (demux_run ds s.1, s.2 ++ ds).

Definition on_entry (f : entry -> entry) (s : bstate) : bstate := (f s.1, s.2).

(** Step 3, one message: what is recorded in [results[i]], whether the message
    is appended to [published], and the state. *)
Definition batch_write_one (mandatory : bool) (it : item) (s : bstate)
  : goerror * bool * bstate :=
  match iEncoded it with
  | Err e => (Some e, false, s)
  | Ok mid =>
      let s1 := on_entry (store_tag mandatory mid (iTag it)) s in
      match Register (iTag it) (tracker s1.1) with
      | (Some regErr, t1) =>
          (Some (mapConfirmError regErr), false,
           on_entry (fun en => drop_tag mandatory mid (set_tracker t1 en)) s1)
      | (None, t1) =>
          let s2 := handle (iAfter it) (on_entry (set_tracker t1) s1) in
          match iPublishErr it with
          | Some pubErr =>
              (wrapAMQPError (Some pubErr), false,
               on_entry (fun en => set_tracker (Cancel (iTag it) (tracker en)) en) s2)
          | None => (None, true, s2)
          end
      end
  end.

(** Step 3: the results so far, and the index and message of those published. *)
Fixpoint batch_write (mandatory : bool) (i : nat) (items : list item) (s : bstate)
  : list goerror * list (nat * item) * bstate :=
  match items with
  | [] => ([], [], s)
  | it :: rest =>
      let '(r, sent, s1) := batch_write_one mandatory it s in
      let '(rs, published, s2) := batch_write mandatory (S i) rest s1 in
      (r :: rs, (if sent then [(i, it)] else []) ++ published, s2)
  end.

(** [tracker.Wait] on a published message.  [None]: its select never fires. *)
Definition batch_wait_one (confirmTimeout : Z) (it : item) (s : bstate)
  : option (goerror * bstate) :=
  let s1 := handle (iEarly it) s in
  match Wait_lookup (iTag it) (tracker s1.1) with
  | None => Some (Some (mapConfirmError (Sentinel ConfirmsErrClosed)), s1)
  | Some addr =>
      let s2 := handle (iFrames it) s1 in
      match Wait_finish (iTag it) addr confirmTimeout (iWake it) (tracker s2.1) with
      | Some (waitErr, t) => Some (mapConfirmError <$> waitErr, on_entry (set_tracker t) s2)
      | None => None
      end
  end.

(** Step 4: wait for the published messages in order. *)
Fixpoint batch_wait (confirmTimeout : Z) (published : list (nat * item)) (results : list goerror)
    (s : bstate) : option (list goerror * bstate) :=
  match published with
  | [] => Some (results, s)
  | (i, it) :: rest =>
      match batch_wait_one confirmTimeout it s with
      | Some (r, s1) => batch_wait confirmTimeout rest (<[ i := r ]> results) s1
      | None => None
      end
  end.

(** Step 4.5. *)
Definition batch_cleanup (mandatory : bool) (items : list item) (en : entry) : entry :=
  foldl (fun en it => match iEncoded it with
                      | Ok mid => drop_tag mandatory mid en
                      | Err _ => en
                      end) en items.

(** What a batch does: the per-message results ([None]: nil), the overall
    error, the messages published, and the entry with the frames handled. *)
Record batch_out : Type := mkBatch {
  bResults : option (list goerror);
  bErr : goerror;
  bPublished : list (nat * item);
  bState : bstate
}.

(** [barrierErr] and [acquireErr] are the results of [waitBarrier] and
    [pool.acquire].  [None]: some [Wait] never returns. *)
Definition PublishBatch (mandatory closed : bool) (publishBatchMaxSize confirmTimeout : Z)
    (barrierErr acquireErr : goerror) (items : list item) (en : entry) : option batch_out :=
  let maxSize := if decide (publishBatchMaxSize <= 0) then 1024 else publishBatchMaxSize in
  let fail err := Some (mkBatch None (Some err) [] (en, [])) in
  match items with
  | [] => Some (mkBatch None None [] (en, []))
  | _ =>
      if decide (maxSize < Z.of_nat (length items)) then fail (Sentinel ErrBatchTooLarge)
      else if mandatory && has_dup ∅ (iMessageID <$> items)
      then fail (Wrap [Sentinel ErrInvalidMessage])
      else if closed then fail (Sentinel ErrAlreadyClosed)
      else if forallb (fun it => match encode_err it with Some _ => true | None => false end) items
      then Some (mkBatch (Some (encode_err <$> items)) (Some (Sentinel ErrPartialBatch)) [] (en, []))
      else match barrierErr with
           | Some e => fail e
           | None =>
               match acquireErr with
               | Some e => fail e
               | None =>
                   let '(results, published, s1) := batch_write mandatory 0 items (en, []) in
                   match batch_wait confirmTimeout published results s1 with
                   | None => None
                   | Some (results, s2) =>
                       let overall :=
                         if forallb (fun r => match r with None => true | Some _ => false end) results
                         then None else Some (Sentinel ErrPartialBatch) in
                       Some (mkBatch (Some results) overall published
                               (on_entry (batch_cleanup mandatory items) s2))
                   end
               end
           end
  end.

(** ** Reference: the outcome of a publish, read off the frames *)

(** The result of the publish with delivery tag [tag] and message id [mid] after
    the frames [ds]; [ret] is the reply code of its return, if one came.
    [None]: still unconfirmed. *)
Fixpoint expected (mandatory : bool) (mid : string) (tag : Z) (ret : option Z) (ds : list demux)
  : option goerror :=
  match ds with
  | [] => None
  | DReturn m code :: r =>
      if decide (mandatory = true ∧ m = mid ∧ mid ≠ ""%string ∧ ret = None)
      then expected mandatory mid tag (Some code) r
      else expected mandatory mid tag ret r
  | DConfirm x ack :: r =>
      if decide (x = tag)
      then Some (if ack then match ret with
                             | Some code => Some (CodeError code (Sentinel ErrUnroutable))
                             | None => None
                             end
                 else Some (Sentinel ErrPublishNacked))
      else expected mandatory mid tag ret r
  | DClosed :: _ => Some (Some (Sentinel ErrChannelClosed))
  end.

(** The frames handled while the messages before the [i]-th are written: when it
    is registered, exactly these have been handled. *)
Definition frames_before (i : nat) (items : list item) : list demux :=
  concat ((fun it => match iEncoded it with Ok _ => iAfter it | Err _ => [] end) <$> take i items).

(** ** Lemmas: the demultiplexer *)

(** The tracker operation a frame amounts to. *)
Definition demux_op (en : entry) (d : demux) : list op :=
  match d with
  | DReturn mid code =>
      if decide (mid = ""%string) then []
      else match returnTagMap en !! mid with
           | Some tag => [OpMarkReturned tag code]
           | None => []
           end
  | DConfirm tag true => [OpAck tag false]
  | DConfirm tag false => [OpNack tag false]
  | DClosed => [OpCloseAll]
  end.

Lemma demux_step_run en d : tracker (demux_step en d) = run (demux_op en d) (tracker en).
Proof.
  destruct d as [mid code|tag [|]|]; simpl; try done. case_decide; [done|].
  by destruct (returnTagMap en !! mid).
Qed.

Lemma demux_step_wf en d : wf (tracker en) -> wf (tracker (demux_step en d)).
Proof. intros H. rewrite demux_step_run. by apply run_refines. Qed.

Lemma demux_run_wf ds en : wf (tracker en) -> wf (tracker (demux_run ds en)).
Proof.
  revert en. induction ds as [|d ds IH]; intros en H; [done|]. simpl. apply IH. by apply demux_step_wf.
Qed.

(** The publish holds its slot and is unresolved. *)
Record unresolved (mandatory : bool) (mid : string) (tag : Z) (a : nat) (ret : option Z) (en : entry)
  : Prop := {
  un_wf : wf (tracker en);
  un_pending : pending (tracker en) !! tag = Some a;
  un_heap : heap (tracker en) !! a
            = Some (Waiter None (default 0 ret) (bool_decide (is_Some ret)) false);
  un_map : ∀ m, returnTagMap en !! m = Some tag <-> mandatory = true ∧ m = mid ∧ ret = None
}.

(** The publish has its result. *)
Record settled (tag : Z) (a : nat) (r : goerror) (en : entry) : Prop := {
  se_wf : wf (tracker en);
  se_heap : ∃ w, heap (tracker en) !! a = Some w ∧ done w = Some r ∧ consumed w = false;
  se_slot : pending (tracker en) !! tag = Some a
            ∨ (pending (tracker en) !! tag = None ∧ r = Some (Sentinel ConfirmsErrClosed))
}.

(** Single-tag operations leave the map of slots alone. *)
Lemma demux_pending en d :
  d ≠ DClosed -> pending (tracker (demux_step en d)) = pending (tracker en).
Proof.
  intros Hd. destruct d as [mid code|x [|]|]; simpl; [|unfold Ack, resolveOne|unfold Nack, resolveOne|done].
  - case_decide; [done|]. destruct (returnTagMap en !! mid); [|done]. simpl. unfold MarkReturned.
    by case_match.
  - by case_match.
  - by case_match.
Qed.

Lemma settled_step tag a r en d : settled tag a r en -> settled tag a r (demux_step en d).
Proof.
  intros [Hwf (w & Hw & Hd & Hc) Hs]. pose proof (demux_step_wf en d Hwf) as Hwf'.
  assert (∃ w', heap (tracker (demux_step en d)) !! a = Some w' ∧ done w' = Some r ∧ consumed w' = false) as Hh.
  { rewrite demux_step_run. destruct (demux_op en d) as [|o [|]] eqn:E; [eauto| |].
    - simpl. eapply exec_keeps_result; eauto. intros ->.
      destruct d as [mid code|x [|]|]; simpl in E; repeat case_match; by simplify_eq.
    - destruct d as [mid code|x [|]|]; simpl in E; repeat case_match; by simplify_eq. }
  constructor; auto. destruct (decide (d = DClosed)) as [->|Hne]; [|by rewrite demux_pending].
  simpl. destruct (CloseAll_shape (tracker en) Hwf) as (_ & -> & _).
  destruct Hs as [Hs|[Hs ->]]; [left|right; split; [|done]].
  - apply map_lookup_filter_Some. split; [done|]. simpl. unfold buffer_full. by rewrite Hw, Hd.
  - rewrite map_lookup_filter, Hs. done.
Qed.

Lemma settled_run ds tag a r en : settled tag a r en -> settled tag a r (demux_run ds en).
Proof.
  revert en. induction ds as [|d ds IH]; intros en H; [done|]. simpl. apply IH. by apply settled_step.
Qed.

(** The raw result the tracker holds for a confirmed publish. *)
Definition raw_result (ret : option Z) (ack : bool) : goerror :=
  if ack then UnroutableError <$> ret else Some (Sentinel ConfirmsErrNacked).

Lemma alter_other en tag a b x f :
  wf (tracker en) -> pending (tracker en) !! tag = Some a -> pending (tracker en) !! x = Some b ->
  x ≠ tag -> alter f b (heap (tracker en)) !! a = heap (tracker en) !! a.
Proof.
  intros Hwf Ha Hb Hx. rewrite lookup_alter_ne; [done|]. intros ->. apply Hx.
  by eapply (wf_inj _ Hwf).
Qed.

Lemma unresolved_other_confirm mandatory mid tag a ret en x ack :
  unresolved mandatory mid tag a ret en -> x ≠ tag ->
  unresolved mandatory mid tag a ret (demux_step en (DConfirm x ack)).
Proof.
  intros [Hwf Hp Hh Hm] Hx. constructor; [by apply demux_step_wf|by rewrite demux_pending| |exact Hm].
  simpl. destruct ack; unfold Ack, Nack, resolveOne;
    destruct (pending (tracker en) !! x) as [b|] eqn:Hb; simpl; try done;
    by erewrite alter_other.
Qed.

Lemma unresolved_confirm mandatory mid tag a ret en ack :
  unresolved mandatory mid tag a ret en ->
  settled tag a (raw_result ret ack) (demux_step en (DConfirm tag ack)).
Proof.
  intros [Hwf Hp Hh Hm]. constructor; [by apply demux_step_wf| |left; by rewrite demux_pending].
  simpl. destruct ack; unfold Ack, Nack, resolveOne; rewrite Hp; simpl;
    rewrite lookup_alter_eq, Hh; simpl; eexists; (split; [done|]);
    unfold resolve_waiter, resolution; simpl; by destruct ret.
Qed.

Lemma unresolved_closed mandatory mid tag a ret en :
  unresolved mandatory mid tag a ret en ->
  settled tag a (Some (Sentinel ConfirmsErrClosed)) (demux_step en DClosed).
Proof.
  intros [Hwf Hp Hh Hm]. pose proof (demux_step_wf en DClosed Hwf). simpl in *.
  destruct (CloseAll_shape (tracker en) Hwf) as (Hheap & Hpend & _).
  constructor; [done| |right; split; [|done]]; simpl.
  - rewrite Hheap, decide_True by (apply addrs_elem; eauto). rewrite Hh. simpl. by eexists.
  - rewrite Hpend, map_lookup_filter, Hp. simpl. unfold buffer_full. by rewrite Hh.
Qed.

Lemma unresolved_return mandatory mid tag a ret en m code :
  unresolved mandatory mid tag a ret en ->
  unresolved mandatory mid tag a
    (if decide (mandatory = true ∧ m = mid ∧ mid ≠ ""%string ∧ ret = None) then Some code else ret)
    (demux_step en (DReturn m code)).
Proof.
  intros [Hwf Hp Hh Hm]. pose proof (demux_step_wf en (DReturn m code) Hwf) as Hwf'.
  assert (pending (tracker (demux_step en (DReturn m code))) !! tag = Some a) as Hp'
    by by rewrite demux_pending.
  destruct (decide (m = ""%string)) as [->|Hne].
  { rewrite decide_False by naive_solver.
    assert (demux_step en (DReturn "" code) = en) as -> by done. by constructor. }
  assert (demux_step en (DReturn m code) = match returnTagMap en !! m with
    | Some x => mkEntry (MarkReturned x code (tracker en)) (delete m (returnTagMap en))
                        (returns en ++ [(m, code)])
    | None => en end) as E by (simpl; by rewrite decide_False).
  rewrite E in *. clear E.
  destruct (returnTagMap en !! m) as [x|] eqn:Hx; simpl in *.
  2:{ rewrite decide_False; [by constructor|]. intros (H1 & -> & _ & H2).
      assert (returnTagMap en !! mid = Some tag) by (apply Hm; done). congruence. }
  case_decide as Hd.
  - destruct Hd as (-> & -> & _ & ->).
    assert (returnTagMap en !! mid = Some tag) as E by (apply Hm; done). rewrite Hx in E. injection E as ->.
    constructor; simpl; auto.
    + unfold MarkReturned. rewrite Hp. simpl. rewrite lookup_alter_eq, Hh. done.
    + intros m. rewrite lookup_delete. case_decide; [naive_solver|]. rewrite Hm. naive_solver.
  - assert (x ≠ tag) as Hxt.
    { intros ->. apply Hm in Hx as (-> & -> & ->). naive_solver. }
    constructor; simpl; auto.
    + unfold MarkReturned. destruct (pending (tracker en) !! x) as [b|] eqn:Hb; simpl; [|done].
      by erewrite alter_other.
    + intros m'. rewrite lookup_delete. case_decide as Hmm; [|apply Hm]. subst m'.
      split; [done|]. intros (-> & -> & ->). by destruct Hd.
Qed.

Lemma map_raw_result ret ack :
  mapConfirmError <$> raw_result ret ack
  = if ack then match ret with
                | Some code => Some (CodeError code (Sentinel ErrUnroutable))
                | None => None
                end
    else Some (Sentinel ErrPublishNacked).
Proof. by destruct ack, ret. Qed.

(** Running the frames resolves the publish exactly when the reference says so. *)
Lemma demux_run_expected mandatory mid tag a ds ret en :
  unresolved mandatory mid tag a ret en ->
  match expected mandatory mid tag ret ds with
  | Some res => ∃ r, settled tag a r (demux_run ds en) ∧ mapConfirmError <$> r = res
  | None => ∃ ret', unresolved mandatory mid tag a ret' (demux_run ds en)
  end.
Proof.
  revert ret en. induction ds as [|d ds IH]; intros ret en Hu; [by eexists|].
  destruct d as [m code|x ack|]; cbn [expected demux_run foldl].
  - pose proof (unresolved_return _ _ _ _ _ _ m code Hu) as Hr.
    change (foldl demux_step ?e ds) with (demux_run ds e).
    case_decide; by apply IH.
  - change (foldl demux_step ?e ds) with (demux_run ds e). case_decide as Hx.
    + subst x. exists (raw_result ret ack). split; [|apply map_raw_result].
      apply settled_run. by eapply unresolved_confirm.
    + apply IH. by apply unresolved_other_confirm.
  - change (foldl demux_step ?e ds) with (demux_run ds e).
    exists (Some (Sentinel ConfirmsErrClosed)). split; [|done].
    apply settled_run. by eapply unresolved_closed.
Qed.

(** The slot right after a successful [Register]. *)
Lemma Register_unresolved mandatory mid tag en :
  wf (tracker en) -> closed (tracker en) = false ->
  (∀ m, returnTagMap en !! m ≠ Some tag) ->
  ∃ t1, Register tag (tracker (store_tag mandatory mid tag en)) = (None, t1)
    ∧ unresolved mandatory mid tag (fresh (tracker en)) None
        (set_tracker t1 (store_tag mandatory mid tag en)).
Proof.
  intros Hwf Hcl Hmap. assert (tracker (store_tag mandatory mid tag en) = tracker en) as ->
    by by destruct mandatory.
  destruct (Register_refines tag (tracker en) Hwf) as (Hwf1 & _).
  unfold Register in *. rewrite Hcl in *. simpl in *. eexists. split; [done|].
  set (t0 := mkTracker _ _ _ _ _ _) in *.
  assert (index_ok t0) as Hi1 by by destruct (wf_index_ok _ Hwf).
  destruct (orderInsert_spec tag t0 Hi1) as ((Hh1 & _ & Hp1 & _) & Hi2 & _).
  destruct (advanceLowWater_spec (orderInsert tag t0) Hi2) as ((Hh2 & _ & Hp2 & _) & _).
  constructor; simpl; [done| | |].
  - rewrite Hp2, Hp1. simpl. apply lookup_insert_eq.
  - rewrite Hh2, Hh1. simpl. apply lookup_insert_eq.
  - intros m. destruct mandatory; simpl; [|naive_solver]. rewrite lookup_insert. case_decide; [naive_solver|].
    split; [intros E; by destruct (Hmap m)|naive_solver].
Qed.

(** ** Lemmas: results *)

Lemma settled_recv tag a r en ct :
  settled tag a r en ->
  fst <$> Wait_finish tag a ct WakeDone (tracker en) = Some r
  ∧ (∀ x, Wait_finish tag a ct WakeDone (tracker en) = Some x -> pending x.2 !! tag = None).
Proof.
  intros [_ (w & Hw & Hd & _) _]. unfold Wait_finish, Wait_recv. rewrite Hw, Hd.
  split; [done|]. intros x [= <-]. simpl. apply lookup_delete_eq.
Qed.

Lemma unresolved_blocks mandatory mid tag a ret en ct :
  unresolved mandatory mid tag a ret en -> Wait_finish tag a ct WakeDone (tracker en) = None.
Proof. intros [_ _ Hh _]. unfold Wait_finish, Wait_recv. by rewrite Hh. Qed.

(** The reference over frames split at the lookup. *)
Lemma expected_app mandatory mid tag ret ds1 ds2 :
  (∃ res, expected mandatory mid tag ret ds1 = Some res
          ∧ expected mandatory mid tag ret (ds1 ++ ds2) = Some res)
  ∨ expected mandatory mid tag ret ds1 = None.
Proof.
  revert ret. induction ds1 as [|d ds1 IH]; intros ret; [by right|].
  destruct d as [m code|x ack|]; cbn [app expected]; try case_decide; eauto.
Qed.

Lemma demux_run_app ds1 ds2 en : demux_run (ds1 ++ ds2) en = demux_run ds2 (demux_run ds1 en).
Proof. apply foldl_app. Qed.

(** A nil result comes from an ack of this tag before which neither a confirm
    of it, nor a close, nor a return of the message came. *)
Lemma expected_nil mandatory mid tag ret ds :
  expected mandatory mid tag ret ds = Some None ->
  ret = None ∧ ∃ pre post, ds = pre ++ DConfirm tag true :: post
    ∧ (∀ ack, DConfirm tag ack ∉ pre) ∧ DClosed ∉ pre
    ∧ (mandatory = true -> mid ≠ ""%string -> ∀ code, DReturn mid code ∉ pre).
Proof.
  revert ret. induction ds as [|d ds IH]; intros ret; [done|].
  destruct d as [m code|x ack|]; cbn [expected]; [| |done].
  - case_decide as Hd; intros H; apply IH in H as (Hr & pre & post & -> & H1 & H2 & H3); [done|].
    split; [done|]. exists (DReturn m code :: pre), post. split; [done|]. split; [set_solver|].
    split; [set_solver|]. intros Hm Hne c [E|Hin]%elem_of_cons; [|by eapply H3].
    injection E as -> ->. by apply Hd.
  - case_decide as Hx.
    + subst x. destruct ack; [|done]. destruct ret; [done|]. intros _. split; [done|].
      exists [], ds. split; [done|]. split; [set_solver|]. split; [set_solver|]. set_solver.
    + intros H. apply IH in H as (Hr & pre & post & -> & H1 & H2 & H3). split; [done|].
      exists (DConfirm x ack :: pre), post. split; [done|]. split; [set_solver|].
      split; [set_solver|]. intros Hm Hne c [E|Hin]%elem_of_cons; [done|by eapply H3].
Qed.

Lemma publish_on_expected mandatory ct mid a en :
  wf (tracker en) -> closed (tracker en) = false ->
  (∀ m, returnTagMap en !! m ≠ Some (aTag a)) ->
  aPublishErr a = None -> aWake a = WakeDone ->
  fst <$> publish_on mandatory ct mid a en
  = expected mandatory mid (aTag a) None (aEarly a ++ aFrames a).
Proof.
  intros Hwf Hcl Hmap Hpub Hwake. unfold publish_on. rewrite Hpub, Hwake.
  destruct (Register_unresolved mandatory mid (aTag a) en Hwf Hcl Hmap) as (t1 & Hreg & Hu).
  rewrite Hreg. set (en1 := set_tracker t1 (store_tag mandatory mid (aTag a) en)) in *.
  pose proof (demux_run_expected _ _ _ _ (aEarly a) None en1 Hu) as He.
  pose proof (demux_run_expected _ _ _ _ (aEarly a ++ aFrames a) None en1 Hu) as Hall.
  rewrite demux_run_app in Hall. unfold Wait_lookup.
  destruct (expected_app mandatory mid (aTag a) None (aEarly a) (aFrames a)) as [(res & E1 & E2)|E1].
  - rewrite E1 in He. rewrite E2 in *. destruct He as (r & Hs & <-). destruct (se_slot _ _ _ _ Hs) as [Hp|[Hp ->]].
    + rewrite Hp. destruct (settled_recv (aTag a) _ r _ ct (settled_run (aFrames a) _ _ _ _ Hs)) as [Hf _].
      destruct (Wait_finish _ _ _ _ _) as [[werr t4]|]; simplify_eq/=. done.
    + rewrite Hp. done.
  - rewrite E1 in He. destruct He as (ret' & Hu'). rewrite (un_pending _ _ _ _ _ _ Hu').
    destruct (expected mandatory mid (aTag a) None (aEarly a ++ aFrames a)) as [res|].
    + destruct Hall as (r & Hs & <-). destruct (settled_recv (aTag a) _ r _ ct Hs) as [Hf _].
      destruct (Wait_finish _ _ _ _ _) as [[werr t4]|]; simplify_eq/=. done.
    + destruct Hall as (ret2 & Hu2). by rewrite (unresolved_blocks _ _ _ _ _ _ ct Hu2).
Qed.

Lemma publish_on_wake_nil mandatory ct mid a en en' :
  wf (tracker en) -> closed (tracker en) = false ->
  (∀ m, returnTagMap en !! m ≠ Some (aTag a)) ->
  publish_on mandatory ct mid a en = Some (None, en') ->
  aPublishErr a = None ∧ aWake a = WakeDone.
Proof.
  intros Hwf Hcl Hmap H. unfold publish_on in H.
  destruct (Register_unresolved mandatory mid (aTag a) en Hwf Hcl Hmap) as (t1 & Hreg & _).
  rewrite Hreg in H. destruct (aPublishErr a) as [err|].
  { exfalso. injection H as H _. unfold wrapAMQPError in H. repeat case_match; simplify_eq. }
  split; [done|]. destruct (Wait_lookup _ _); [|done].
  destruct (aWake a) as [| |e]; [done| |]; unfold Wait_finish in H; repeat case_match; simplify_eq/=.
Qed.

(** Past the rate limiter, the barrier and the pool, an attempt is its part on
    the acquired entry. *)
Definition reached (a : attempt) : Prop :=
  aRateErr a = None ∧ aBarrierErr a = None ∧ aAcquireErr a = None.

Lemma publishOnce_reached mandatory ct mid a en :
  reached a -> publishOnce mandatory ct mid a en = publish_on mandatory ct mid a en.
Proof. intros (H1 & H2 & H3). unfold publishOnce. by rewrite H1, H2, H3. Qed.

Lemma publishOnce_nil_reached mandatory ct mid a en en' :
  publishOnce mandatory ct mid a en = Some (None, en') -> reached a.
Proof. unfold publishOnce, reached. intros H. repeat case_match; by simplify_eq. Qed.

(** A channel entry at rest between publishes: its tracker is well formed and
    open, and no message id points at the tag about to be used. *)
Definition idle (tag : Z) (en : entry) : Prop :=
  wf (tracker en) ∧ closed (tracker en) = false ∧ ∀ m, returnTagMap en !! m ≠ Some tag.

(** ** Lemmas: no leak *)

Lemma drop_tag_map mandatory mid en :
  returnTagMap (drop_tag mandatory mid en) = if mandatory then delete mid (returnTagMap en) else returnTagMap en.
Proof. by destruct mandatory. Qed.

Lemma drop_tag_tracker mandatory mid en : tracker (drop_tag mandatory mid en) = tracker en.
Proof. by destruct mandatory. Qed.

Lemma demux_map_shrinks ds en m tag :
  returnTagMap (demux_run ds en) !! m = Some tag -> returnTagMap en !! m = Some tag.
Proof.
  revert en. induction ds as [|d ds IH]; intros en H; [done|]. simpl in H. apply IH in H.
  destruct d as [mid code|x ack|]; simpl in H; try done. case_decide; [done|].
  destruct (returnTagMap en !! mid); [|done]. simpl in H. by apply lookup_delete_Some in H as [_ H].
Qed.

Lemma Wait_finish_slot tag a ct k t r t' : Wait_finish tag a ct k t = Some (r, t') -> pending t' !! tag = None.
Proof.
  unfold Wait_finish. intros H. repeat case_match; simplify_eq/=; apply lookup_delete_eq.
Qed.

Lemma Cancel_slot tag t : pending (Cancel tag t) !! tag = None.
Proof. unfold Cancel. case_match eqn:E; simpl; [apply lookup_delete_eq|done]. Qed.

(** ** Lemmas: a publish among others

    [tracked mandatory mid tag a ds en]: the publish whose slot is [a] has seen
    the frames [ds] since its registration, and the tracker holds what the
    reference says about them. *)
Definition tracked (mandatory : bool) (mid : string) (tag : Z) (a : nat) (ds : list demux) (en : entry)
  : Prop :=
  match expected mandatory mid tag None ds with
  | Some res => ∃ r, settled tag a r en ∧ mapConfirmError <$> r = res
  | None => ∃ ret, unresolved mandatory mid tag a ret en
              ∧ ∀ ds', expected mandatory mid tag None (ds ++ ds') = expected mandatory mid tag ret ds'
  end.

Lemma tracked_step mandatory mid tag a ds en d :
  tracked mandatory mid tag a ds en -> tracked mandatory mid tag a (ds ++ [d]) (demux_step en d).
Proof.
  unfold tracked. intros H.
  destruct (expected_app mandatory mid tag None ds [d]) as [(res & E1 & E2)|E1]; rewrite E1 in H.
  { rewrite E2. destruct H as (r & Hs & Hr). exists r. split; [by apply settled_step|done]. }
  destruct H as (ret & Hu & Hc). rewrite Hc.
  assert (∀ ds', expected mandatory mid tag None ((ds ++ [d]) ++ ds')
                 = expected mandatory mid tag ret (d :: ds')) as Hc'.
  { intros ds'. by rewrite <- app_assoc, Hc. }
  destruct d as [m code|x ack|]; cbn [expected] in *.
  - pose proof (unresolved_return _ _ _ _ _ _ m code Hu) as Hr. case_decide; eauto.
  - case_decide as Hx.
    + subst x. exists (raw_result ret ack). split; [by eapply unresolved_confirm|apply map_raw_result].
    + exists ret. split; [by apply unresolved_other_confirm|done].
  - eexists. split; [by eapply unresolved_closed|done].
Qed.

Lemma tracked_run mandatory mid tag a ds ds' en :
  tracked mandatory mid tag a ds en -> tracked mandatory mid tag a (ds ++ ds') (demux_run ds' en).
Proof.
  revert ds en. induction ds' as [|d ds' IH]; intros ds en H; [by rewrite app_nil_r|].
  rewrite (cons_middle d ds ds'), app_assoc. simpl. apply IH. by apply tracked_step.
Qed.

Lemma tracked_wf mandatory mid tag a ds en : tracked mandatory mid tag a ds en -> wf (tracker en).
Proof.
  unfold tracked. intros H. case_match.
  - destruct H as (r & Hs & _). apply Hs.
  - destruct H as (ret & Hu & _). apply Hu.
Qed.

(** The slot of a tracked publish is its own, and allocated. *)
Lemma tracked_slot mandatory mid tag a ds en :
  tracked mandatory mid tag a ds en ->
  is_Some (heap (tracker en) !! a) ∧ ∀ b, pending (tracker en) !! tag = Some b -> b = a.
Proof.
  unfold tracked. intros H. case_match.
  - destruct H as (r & [_ (w & Hw & _) Hs] & _). split; [eauto|]. naive_solver.
  - destruct H as (ret & [_ Hp Hh _] & _). split; [eauto|]. naive_solver.
Qed.

(** Nothing of the publish has changed. *)
Record undisturbed (mid : string) (tag : Z) (a : nat) (en en' : entry) : Prop := {
  ud_wf : wf (tracker en');
  ud_heap : heap (tracker en') !! a = heap (tracker en) !! a;
  ud_pending : pending (tracker en') !! tag = pending (tracker en) !! tag;
  ud_mid : returnTagMap en' !! mid = returnTagMap en !! mid;
  ud_map : ∀ m, returnTagMap en' !! m = Some tag -> returnTagMap en !! m = Some tag
}.

Lemma undisturbed_unresolved mandatory mid tag a ret en en' :
  undisturbed mid tag a en en' ->
  unresolved mandatory mid tag a ret en -> unresolved mandatory mid tag a ret en'.
Proof.
  intros [Hwf' Hh' Hp' Hmid Hmap] [_ Hp Hh Hm].
  constructor; [done|by rewrite Hp'|by rewrite Hh'|]. intros m. split; [intros E; by apply Hm, Hmap|].
  intros (H1 & -> & H2). rewrite Hmid. by apply Hm.
Qed.

Lemma undisturbed_settled mid tag a r en en' :
  undisturbed mid tag a en en' -> settled tag a r en -> settled tag a r en'.
Proof.
  intros [Hwf' Hh' Hp' _ _] [_ Hh Hs]. constructor; [done|by rewrite Hh'|by rewrite Hp'].
Qed.

Lemma tracked_undisturbed mandatory mid tag a ds en en' :
  undisturbed mid tag a en en' ->
  tracked mandatory mid tag a ds en -> tracked mandatory mid tag a ds en'.
Proof.
  unfold tracked. intros Hu H. case_match.
  - destruct H as (r & Hs & Hr). exists r. split; [by eapply undisturbed_settled|done].
  - destruct H as (ret & Hr & Hc). exists ret. split; [by eapply undisturbed_unresolved|done].
Qed.

(** Registering another publish, whether it succeeds or the tracker is closed. *)
Lemma Register_undisturbed mandatory mid tag a en mid' tag' t1 :
  wf (tracker en) -> is_Some (heap (tracker en) !! a) -> tag' ≠ tag -> (mandatory = true -> mid' ≠ mid) ->
  (Register tag' (tracker (store_tag mandatory mid' tag' en))).2 = t1 ->
  undisturbed mid tag a en (set_tracker t1 (store_tag mandatory mid' tag' en)).
Proof.
  intros Hwf Ha Ht Hm <-. assert (tracker (store_tag mandatory mid' tag' en) = tracker en) as ->
    by by destruct mandatory.
  destruct (Register_refines tag' (tracker en) Hwf) as (Hwf1 & _).
  assert (a ≠ fresh (tracker en)) as Hf.
  { intros ->. destruct Ha as [w Hw]. by rewrite (wf_fresh _ Hwf) in Hw. }
  constructor; simpl; [done| | | |].
  - unfold Register in *. destruct (closed (tracker en)); [done|]. simpl in *.
    set (t0 := mkTracker _ _ _ _ _ _) in *.
    assert (index_ok t0) as Hi1 by by destruct (wf_index_ok _ Hwf).
    destruct (orderInsert_spec tag' t0 Hi1) as ((Hh1 & _) & Hi2 & _).
    destruct (advanceLowWater_spec (orderInsert tag' t0) Hi2) as ((Hh2 & _) & _).
    rewrite Hh2, Hh1. by apply lookup_insert_ne.
  - unfold Register in *. destruct (closed (tracker en)); [done|]. simpl in *.
    set (t0 := mkTracker _ _ _ _ _ _) in *.
    assert (index_ok t0) as Hi1 by by destruct (wf_index_ok _ Hwf).
    destruct (orderInsert_spec tag' t0 Hi1) as ((_ & _ & Hp1 & _) & Hi2 & _).
    destruct (advanceLowWater_spec (orderInsert tag' t0) Hi2) as ((_ & _ & Hp2 & _) & _).
    rewrite Hp2, Hp1. by apply lookup_insert_ne.
  - destruct mandatory; [|done]. simpl. apply lookup_insert_ne. by apply Hm.
  - intros m. destruct mandatory; [|done]. simpl. rewrite lookup_insert. case_decide; [naive_solver|done].
Qed.

Lemma drop_tag_undisturbed mandatory mid tag a en mid' :
  wf (tracker en) -> (mandatory = true -> mid' ≠ mid) ->
  undisturbed mid tag a en (drop_tag mandatory mid' en).
Proof.
  intros Hwf Hm. destruct mandatory; [|by constructor]. constructor; simpl; auto.
  - apply lookup_delete_ne. by apply Hm.
  - intros m H. by apply lookup_delete_Some in H as [_ H].
Qed.

Lemma undisturbed_trans mid tag a en1 en2 en3 :
  undisturbed mid tag a en1 en2 -> undisturbed mid tag a en2 en3 -> undisturbed mid tag a en1 en3.
Proof.
  intros [] []. constructor; auto; congruence.
Qed.

(** Cancelling or waiting for a publish with another tag and another slot. *)
Lemma Cancel_undisturbed mid tag a en x :
  wf (tracker en) -> x ≠ tag -> (∀ b, pending (tracker en) !! x = Some b -> b ≠ a) ->
  undisturbed mid tag a en (set_tracker (Cancel x (tracker en)) en).
Proof.
  intros Hwf Hx Hb. constructor; simpl; auto; [by apply Cancel_refines| |].
  - unfold Cancel. destruct (pending (tracker en) !! x) as [b|] eqn:E; [|done]. simpl.
    apply lookup_alter_ne. by apply Hb.
  - unfold Cancel. destruct (pending (tracker en) !! x) as [b|] eqn:E; [|done]. simpl.
    by apply lookup_delete_ne.
Qed.

Lemma Wait_finish_wf x b ct k t r t' :
  wf t -> Wait_finish x b ct k t = Some (r, t') -> wf t'.
Proof.
  intros Hwf H. pose proof (Wait_delete_refines x t Hwf) as [Hd _].
  destruct k; simpl in H; [|case_decide|]; simplify_eq; try done.
  pose proof (Wait_recv_refines b t Hwf) as [Hr _]. simpl in Hr.
  destruct (Wait_recv b t) as [[e t1]|]; simplify_eq. by apply Wait_delete_refines.
Qed.

Lemma Wait_finish_undisturbed mid tag a en x b ct k r t' :
  wf (tracker en) -> x ≠ tag -> b ≠ a -> Wait_finish x b ct k (tracker en) = Some (r, t') ->
  undisturbed mid tag a en (set_tracker t' en).
Proof.
  intros Hwf Hx Hb H.
  pose proof (Wait_finish_wf _ _ _ _ _ _ _ Hwf H) as H1.
  assert (heap t' !! a = heap (tracker en) !! a ∧ pending t' = delete x (pending (tracker en))) as [H2 H3].
  { destruct k; simpl in H; [|case_decide|]; simplify_eq; try done.
    unfold Wait_recv in H. repeat case_match; simplify_eq/=. split; [by apply lookup_insert_ne|done]. }
  constructor; simpl; auto. rewrite H3. by apply lookup_delete_ne.
Qed.

(** ** Lemmas: the batch *)

(** A published message: its index, its slot, and how many frames had been
    handled when it was registered. *)
Record track : Type := mkTrack {
  tIdx : nat; tItem : item; tMid : string; tAddr : nat; tFrom : nat
}.

Definition tPub (k : track) : nat * item := (tIdx k, tItem k).

Definition follows (mandatory : bool) (s : bstate) (k : track) : Prop :=
  iEncoded (tItem k) = Ok (tMid k)
  ∧ (tFrom k <= length s.2)%nat
  ∧ tracked mandatory (tMid k) (iTag (tItem k)) (tAddr k) (drop (tFrom k) s.2) s.1.

(** Messages of one batch have different tags and, when returns are correlated
    by id, different ids. *)
Definition apart (mandatory : bool) (x y : item) : Prop :=
  iTag x ≠ iTag y ∧ (mandatory = true -> ∀ m, iEncoded x = Ok m -> iEncoded y ≠ Ok m).

Record batch_inv (mandatory : bool) (ks : list track) (s : bstate) : Prop := {
  bi_wf : wf (tracker s.1);
  bi_apart : StronglySorted (apart mandatory) (tItem <$> ks);
  bi_addrs : NoDup (tAddr <$> ks);
  bi_follows : Forall (follows mandatory s) ks
}.

Lemma apart_sym mandatory x y : apart mandatory x y -> apart mandatory y x.
Proof. intros [H1 H2]. split; [done|]. intros Hm m Hy Hx. by eapply H2. Qed.

Lemma follows_handle mandatory ds s k :
  follows mandatory s k -> follows mandatory (handle ds s) k.
Proof.
  intros (H1 & H2 & H3). unfold follows, handle. simpl. rewrite length_app.
  split; [done|]. split; [lia|]. rewrite drop_app_le by done. by apply tracked_run.
Qed.

Lemma batch_inv_handle mandatory ks ds s :
  batch_inv mandatory ks s -> batch_inv mandatory ks (handle ds s).
Proof.
  intros [Hwf Ha Hd Hf]. constructor; [by apply demux_run_wf|done|done|].
  eapply Forall_impl; [exact Hf|]. intros k. apply follows_handle.
Qed.

(** A change of the entry that disturbs none of the publishes. *)
Lemma batch_inv_frame mandatory ks s f :
  batch_inv mandatory ks s -> wf (tracker (f s.1)) ->
  (∀ k, k ∈ ks -> follows mandatory s k ->
        undisturbed (tMid k) (iTag (tItem k)) (tAddr k) s.1 (f s.1)) ->
  batch_inv mandatory ks (on_entry f s).
Proof.
  intros [Hwf Ha Hd Hf] Hwf' Hu. constructor; [done|done|done|].
  apply Forall_forall. intros k Hk. rewrite Forall_forall in Hf. pose proof (Hf k Hk) as Hfk.
  destruct Hfk as (H1 & H2 & H3). split; [done|]. split; [done|].
  eapply tracked_undisturbed; [|done]. by apply Hu.
Qed.

Lemma batch_inv_nil mandatory s : wf (tracker s.1) -> batch_inv mandatory [] s.
Proof. intros H. constructor; [done|constructor|constructor|constructor]. Qed.

Lemma batch_inv_tail mandatory k ks s :
  batch_inv mandatory (k :: ks) s -> batch_inv mandatory ks s.
Proof.
  intros [Hwf Ha Hd Hf]. inversion_clear Ha. inversion_clear Hd. inversion_clear Hf. by constructor.
Qed.

Lemma batch_inv_app_l mandatory ks ks' s :
  batch_inv mandatory (ks ++ ks') s -> batch_inv mandatory ks s.
Proof.
  intros [Hwf Ha Hd Hf]. rewrite fmap_app in Ha. rewrite fmap_app in Hd.
  apply Forall_app in Hf as [Hf _]. apply NoDup_app in Hd as (Hd & _).
  apply StronglySorted_app_1_l in Ha. by constructor.
Qed.

Lemma batch_inv_snoc mandatory ks k s :
  batch_inv mandatory ks s -> Forall (fun k' => apart mandatory (tItem k') (tItem k)) ks ->
  tAddr k ∉ tAddr <$> ks -> follows mandatory s k -> batch_inv mandatory (ks ++ [k]) s.
Proof.
  intros [Hwf Ha Hd Hf] Hk Hn Hfk. constructor; [done| | |].
  - rewrite fmap_app. apply StronglySorted_app_2; [|done|repeat constructor].
    intros x y Hx ->%list_elem_of_singleton. apply list_elem_of_fmap in Hx as (k' & -> & Hk').
    rewrite Forall_forall in Hk. by apply Hk.
  - rewrite fmap_app. apply NoDup_app. split; [done|]. split; [|apply NoDup_singleton].
    intros x Hx ->%list_elem_of_singleton. done.
  - apply Forall_app. split; [done|]. by constructor.
Qed.

(** Slots already in use are not the next one allocated. *)
Lemma batch_inv_fresh mandatory ks s :
  batch_inv mandatory ks s -> fresh (tracker s.1) ∉ tAddr <$> ks.
Proof.
  intros [Hwf _ _ Hf] (k & Hk & Hin)%list_elem_of_fmap. rewrite Forall_forall in Hf.
  destruct (Hf k Hin) as (_ & _ & Ht). apply tracked_slot in Ht as [[w Hw] _].
  rewrite <- Hk, (wf_fresh _ Hwf) in Hw; [done|lia].
Qed.

(** No id points at the tags still to be used. *)
Definition tags_unused (items : list item) (en : entry) : Prop :=
  ∀ it m, it ∈ items -> returnTagMap en !! m ≠ Some (iTag it).

(** The entry after [store_tag] and [Register] of a further message. *)
Lemma batch_inv_register mandatory ks s it mid :
  batch_inv mandatory ks s -> iEncoded it = Ok mid ->
  Forall (fun k => apart mandatory (tItem k) it) ks ->
  let en1 := store_tag mandatory mid (iTag it) s.1 in
  batch_inv mandatory ks (on_entry (fun en => set_tracker (Register (iTag it) (tracker en1)).2 en1) s).
Proof.
  intros Hinv He Hap en1. pose proof (bi_wf _ _ _ Hinv) as Hwf.
  assert (tracker en1 = tracker s.1) as Htr by (unfold en1; by destruct mandatory).
  apply batch_inv_frame; [done|simpl; rewrite Htr; by apply Register_refines|].
  intros k Hk (Hke & _ & Ht). rewrite Forall_forall in Hap. destruct (Hap k Hk) as [Hne Hmid].
  apply tracked_slot in Ht as [Ha _]. eapply Register_undisturbed; [done|done|congruence| |done].
  intros Hm ->. by apply (Hmid Hm (tMid k)).
Qed.

(** A registered message that reached its slot, as a new track. *)
Lemma register_follows mandatory ks i it mid s t1 :
  batch_inv mandatory ks s -> iEncoded it = Ok mid ->
  Forall (fun k => apart mandatory (tItem k) it) ks ->
  (∀ m, returnTagMap s.1 !! m ≠ Some (iTag it)) ->
  Register (iTag it) (tracker (store_tag mandatory mid (iTag it) s.1)) = (None, t1) ->
  batch_inv mandatory (ks ++ [mkTrack i it mid (fresh (tracker s.1)) (length s.2)])
    (on_entry (fun en => set_tracker t1 (store_tag mandatory mid (iTag it) en)) s).
Proof.
  intros Hinv He Hap Hmap Hreg. pose proof (batch_inv_register mandatory ks s it mid Hinv He Hap) as Hr.
  cbv zeta in Hr. rewrite Hreg in Hr. apply batch_inv_snoc; [exact Hr|done|by apply (batch_inv_fresh mandatory ks s)|].
  split; [done|]. split; [done|]. simpl. rewrite drop_all. unfold tracked. simpl.
  assert (closed (tracker s.1) = false) as Hcl.
  { assert (tracker (store_tag mandatory mid (iTag it) s.1) = tracker s.1) as E by by destruct mandatory.
    rewrite E in Hreg. unfold Register in Hreg. by destruct (closed (tracker s.1)). }
  destruct (Register_unresolved mandatory mid (iTag it) s.1 (bi_wf _ _ _ Hinv) Hcl Hmap) as (t2 & Hreg2 & Hu).
  rewrite Hreg in Hreg2. injection Hreg2 as <-. by exists None.
Qed.

(** Writing one message keeps the publishes before it, and follows the new one
    if it was written. *)
Lemma batch_write_one_inv mandatory ks i it s r sent s' :
  batch_inv mandatory ks s -> Forall (fun k => apart mandatory (tItem k) it) ks ->
  (∀ m, returnTagMap s.1 !! m ≠ Some (iTag it)) ->
  batch_write_one mandatory it s = (r, sent, s') ->
  ∃ ks', batch_inv mandatory (ks ++ ks') s' ∧ tPub <$> ks' = (if sent then [(i, it)] else [])
    ∧ Forall (fun k => tFrom k = length s.2) ks'.
Proof.
  intros Hinv Hap Hmap H. unfold batch_write_one in H.
  destruct (iEncoded it) as [mid|e] eqn:He.
  2:{ injection H as <- <- <-. exists []. rewrite app_nil_r. by split_and!; [| |constructor]. }
  destruct (Register (iTag it) _) as [[regErr|] t1] eqn:Hreg; simpl in Hreg.
  - injection H as <- <- <-. exists []. rewrite app_nil_r. split; [|by split; [|constructor]].
    pose proof (batch_inv_register mandatory ks s it mid Hinv He Hap) as Hr. cbv zeta in Hr.
    rewrite Hreg in Hr. simpl in Hr.
    apply (batch_inv_frame _ _ _ (drop_tag mandatory mid)) in Hr; [exact Hr| |].
    + rewrite drop_tag_tracker. apply Hr.
    + intros k Hk (Hke & _). apply drop_tag_undisturbed; [apply Hr|]. intros Hm ->.
      rewrite Forall_forall in Hap. destruct (Hap k Hk) as [_ Hmid]. by eapply Hmid.
  - pose proof (register_follows mandatory ks i it mid s t1 Hinv He Hap Hmap Hreg) as Hf.
    apply (batch_inv_handle _ _ (iAfter it)) in Hf.
    destruct (iPublishErr it) as [pubErr|]; injection H as <- <- <-; [|by eexists; split_and!; [exact Hf|done|repeat constructor]].
    exists []. rewrite app_nil_r. split; [|by split; [|constructor]].
    apply (batch_inv_frame _ _ _ (fun en => set_tracker (Cancel (iTag it) (tracker en)) en)).
    + by apply batch_inv_app_l in Hf.
    + apply Cancel_refines, Hf.
    + destruct Hf as [Hwf Ha Hd Hfo]. apply Forall_app in Hfo as [_ Hfo].
      apply Forall_cons in Hfo as [(_ & _ & Ht) _]. apply tracked_slot in Ht as [_ Hslot]. simpl in Hslot.
      intros k Hk _. apply Cancel_undisturbed; [exact Hwf| |].
      * rewrite Forall_forall in Hap. destruct (Hap k Hk) as [Hne _]. congruence.
      * intros b Hb ->. apply Hslot in Hb. apply (batch_inv_fresh _ _ _ Hinv).
        rewrite <- Hb. by apply list_elem_of_fmap_2.
Qed.

(** The return map gains at most the message's own tag. *)
Lemma batch_write_one_map mandatory it s r sent s' m x :
  batch_write_one mandatory it s = (r, sent, s') ->
  returnTagMap s'.1 !! m = Some x -> x = iTag it ∨ returnTagMap s.1 !! m = Some x.
Proof.
  assert (∀ mid en, returnTagMap (store_tag mandatory mid (iTag it) en) !! m = Some x ->
                    x = iTag it ∨ returnTagMap en !! m = Some x) as Hst.
  { intros mid en E. destruct mandatory; [|by right]. simpl in E. rewrite lookup_insert in E.
    case_decide; [left; congruence|by right]. }
  unfold batch_write_one. intros H E. destruct (iEncoded it) as [mid|e]; [|simplify_eq; by right].
  destruct (Register _ _) as [[regErr|] t1].
  - simplify_eq. simpl in E. rewrite drop_tag_map in E. simpl in E.
    destruct mandatory; [apply lookup_delete_Some in E as [_ E]|]; by eapply Hst.
  - destruct (iPublishErr it); simplify_eq; simpl in E; apply demux_map_shrinks in E; simpl in E; by eapply Hst.
Qed.

Lemma batch_write_index mandatory i items s rs published s' j it :
  batch_write mandatory i items s = (rs, published, s') -> (j, it) ∈ published -> (i <= j)%nat.
Proof.
  revert i s rs published. induction items as [|x items IH]; intros i s rs published H Hin;
    [simplify_eq/=; by apply not_elem_of_nil in Hin|].
  cbn [batch_write] in H. destruct (batch_write_one mandatory x s) as [[r sent] s1].
  destruct (batch_write mandatory (S i) items s1) as [[rs2 pub2] s2] eqn:H2. simplify_eq.
  apply elem_of_app in Hin as [Hin|Hin].
  - destruct sent; [|by apply not_elem_of_nil in Hin]. by apply list_elem_of_singleton in Hin as [= -> _].
  - apply (IH _ _ _ _ H2) in Hin. lia.
Qed.

(** A closed tracker stays closed and registers nothing. *)
Lemma Register_err tag t err t1 : Register tag t = (Some err, t1) -> closed t = true ∧ t1 = t.
Proof. unfold Register. destruct (closed t); [|done]. by intros [= <- <-]. Qed.

Lemma batch_write_one_trace mandatory it s r sent s' :
  batch_write_one mandatory it s = (r, sent, s') ->
  if closed (tracker s.1) then sent = false ∧ closed (tracker s'.1) = true
  else s'.2 = s.2 ++ frames_before 1 [it].
Proof.
  unfold batch_write_one, frames_before. cbn [take fmap list_fmap concat]. rewrite app_nil_r.
  assert (∀ mid, tracker (store_tag mandatory mid (iTag it) s.1) = tracker s.1) as Hst by by destruct mandatory.
  destruct (iEncoded it) as [mid|e].
  2:{ intros [= <- <- <-]. destruct (closed _); [done|by rewrite app_nil_r]. }
  cbn [on_entry fst]. rewrite Hst. destruct (Register _ _) as [[regErr|] t1] eqn:Hreg; cbn [on_entry fst snd].
  - apply Register_err in Hreg as [Hc ->]. intros [= <- <- <-]. rewrite Hc. cbn [fst]. split; [done|].
    unfold on_entry. cbn [fst]. by rewrite drop_tag_tracker.
  - intros H. assert (closed (tracker s.1) = false) as ->.
    { unfold Register in Hreg. by destruct (closed (tracker s.1)). }
    destruct (iPublishErr it); by simplify_eq/=.
Qed.

Lemma batch_write_closed mandatory i items s rs published s' :
  closed (tracker s.1) = true -> batch_write mandatory i items s = (rs, published, s') -> published = [].
Proof.
  revert i s rs published. induction items as [|it items IH]; intros i s rs published Hc H; [by simplify_eq/=|].
  cbn [batch_write] in H. destruct (batch_write_one mandatory it s) as [[r sent] s1] eqn:H1.
  destruct (batch_write mandatory (S i) items s1) as [[rs2 pub2] s2] eqn:H2. simplify_eq/=.
  apply batch_write_one_trace in H1. rewrite Hc in H1. destruct H1 as [-> Hc1]. by eapply IH.
Qed.

Lemma batch_write_inv mandatory ks i items s rs published s' :
  batch_inv mandatory ks s -> StronglySorted (apart mandatory) items ->
  Forall (fun k => Forall (apart mandatory (tItem k)) items) ks -> tags_unused items s.1 ->
  batch_write mandatory i items s = (rs, published, s') ->
  ∃ ks', batch_inv mandatory (ks ++ ks') s' ∧ tPub <$> ks' = published
    ∧ Forall (fun k => tFrom k = length (s.2 ++ frames_before (tIdx k - i) items)) ks'.
Proof.
  revert ks i s rs published. induction items as [|it items IH]; intros ks i s rs published Hinv Hs Hap Hun H.
  { injection H as <- <- <-. exists []. rewrite app_nil_r. by split_and!; [| |constructor]. }
  cbn [batch_write] in H. destruct (batch_write_one mandatory it s) as [[r sent] s1] eqn:H1.
  destruct (batch_write mandatory (S i) items s1) as [[rs2 pub2] s2] eqn:H2. injection H as <- <- <-.
  apply StronglySorted_inv in Hs as [Hs Hit].
  assert (Forall (fun k => apart mandatory (tItem k) it) ks ∧ Forall (fun k => Forall (apart mandatory (tItem k)) items) ks)
    as [Ha1 Ha2].
  { split; (eapply Forall_impl; [exact Hap|]); intros k Hk; by apply Forall_cons in Hk as [? ?]. }
  destruct (batch_write_one_inv mandatory ks i it s r sent s1 Hinv Ha1) as (k1 & Hinv1 & Hk1 & Hf1); [|done|].
  { intros m. apply Hun. set_solver. }
  edestruct (IH (ks ++ k1) (S i) s1) as (k2 & Hinv2 & Hk2 & Hf2); [exact Hinv1|done| | |exact H2|].
  - apply Forall_app. split; [done|]. destruct k1 as [|k [|]]; [constructor| |by destruct sent].
    constructor; [|constructor]. destruct sent; [|done]. simpl in Hk1.
    by injection Hk1 as _ ->.
  - intros y m Hy E. destruct (batch_write_one_map _ _ _ _ _ _ _ _ H1 E) as [Ex|Ex].
    + rewrite Forall_forall in Hit. by destruct (Hit y Hy).
    + eapply Hun; [|exact Ex]. set_solver.
  - exists (k1 ++ k2). rewrite app_assoc. split; [done|]. split; [by rewrite fmap_app, Hk1, Hk2|].
    apply Forall_app. split.
    + apply Forall_forall. intros k Hk. rewrite Forall_forall in Hf1. rewrite (Hf1 k Hk).
      assert (tPub k ∈ (if sent then [(i, it)] else [])) as Hp by (rewrite <- Hk1; by apply list_elem_of_fmap_2).
      destruct sent; [|by apply not_elem_of_nil in Hp]. apply list_elem_of_singleton in Hp as [= -> _].
      rewrite Nat.sub_diag. unfold frames_before. simpl. by rewrite app_nil_r.
    + apply batch_write_one_trace in H1. destruct (closed (tracker s.1)).
      * destruct H1 as [_ Hc]. apply batch_write_closed in H2; [|done]. subst pub2. by destruct k2.
      * apply Forall_forall. intros k Hk. rewrite Forall_forall in Hf2. rewrite (Hf2 k Hk), H1, <- app_assoc.
        assert (tPub k ∈ pub2) as Hp by (rewrite <- Hk2; by apply list_elem_of_fmap_2).
        apply (batch_write_index _ _ _ _ _ _ _ _ _ H2) in Hp.
        replace (tIdx k - i)%nat with (S (tIdx k - S i)) by lia. unfold frames_before. simpl. by rewrite app_nil_r.
Qed.

(** Which results the loop leaves nil, and in which order it publishes. *)
Record write_shape (i : nat) (items : list item) (rs : list goerror) (published : list (nat * item))
  : Prop := {
  ws_length : length rs = length items;
  ws_item : ∀ j it, (j, it) ∈ published ->
              (i <= j)%nat ∧ items !! (j - i)%nat = Some it ∧ ∃ mid, iEncoded it = Ok mid;
  ws_nil : ∀ j, rs !! j = Some None -> ∃ it, ((i + j)%nat, it) ∈ published;
  ws_sorted : StronglySorted lt published.*1
}.

Lemma batch_write_one_sent mandatory it s r sent s' :
  batch_write_one mandatory it s = (r, sent, s') ->
  (sent = true -> ∃ mid, iEncoded it = Ok mid) ∧ (r = None -> sent = true).
Proof.
  unfold batch_write_one. intros H. destruct (iEncoded it) as [mid|e]; [|by simplify_eq].
  destruct (Register _ _) as [[regErr|] t1]; [by simplify_eq|].
  destruct (iPublishErr it); simplify_eq; [|eauto]. split; [done|].
  intros E. unfold wrapAMQPError in E. repeat case_match; by simplify_eq.
Qed.

Lemma batch_write_shape mandatory i items s rs published s' :
  batch_write mandatory i items s = (rs, published, s') -> write_shape i items rs published.
Proof.
  revert i s rs published. induction items as [|it items IH]; intros i s rs published H.
  { injection H as <- <- <-. constructor; [done|set_solver|done|constructor]. }
  cbn [batch_write] in H. destruct (batch_write_one mandatory it s) as [[r sent] s1] eqn:H1.
  destruct (batch_write mandatory (S i) items s1) as [[rs2 pub2] s2] eqn:H2. injection H as <- <- <-.
  apply IH in H2 as [Hl Hi Hn Hs]. apply batch_write_one_sent in H1 as [Hsent Hnil].
  constructor.
  - simpl. by rewrite Hl.
  - intros j x [Hj|Hj]%elem_of_app.
    + destruct sent; [|by apply not_elem_of_nil in Hj]. apply list_elem_of_singleton in Hj as [= -> ->].
      split; [lia|]. rewrite Nat.sub_diag. eauto.
    + destruct (Hi j x Hj) as (H1 & H2 & H3). split; [lia|]. split; [|done].
      replace (j - i)%nat with (S (j - S i)) by lia. done.
  - intros [|j] Hj; simpl in Hj.
    + injection Hj as ->. rewrite (Hnil eq_refl). exists it. rewrite Nat.add_0_r. set_solver.
    + destruct (Hn j Hj) as [x Hx]. exists x. replace (i + S j)%nat with (S i + j)%nat by lia. set_solver.
  - destruct sent; [|done]. simpl. constructor; [done|]. apply Forall_forall. intros j Hj.
    apply list_elem_of_fmap in Hj as ([j' x] & -> & Hx). simpl. destruct (Hi j' x Hx). lia.
Qed.

(** What the code reports of a published message, against all frames handled
    since it was registered: those after the one that decided change nothing. *)
Definition reported (mandatory : bool) (k : track) (trace : list demux) (r : goerror) : Prop :=
  r = None ∨ iWake (tItem k) = WakeDone ->
  expected mandatory (tMid k) (iTag (tItem k)) None (drop (tFrom k) trace) = Some r.

Lemma reported_later mandatory k trace more r :
  (tFrom k <= length trace)%nat -> reported mandatory k trace r -> reported mandatory k (trace ++ more) r.
Proof.
  intros Hl H Hr. specialize (H Hr). rewrite drop_app_le by done.
  destruct (expected_app mandatory (tMid k) (iTag (tItem k)) None (drop (tFrom k) trace) more) as [(res & E1 & E2)|E];
    congruence.
Qed.

(** Waiting for a tracked publish gives what the reference says. *)
Lemma tracked_finish mandatory mid tag a ds en ct wk r t :
  tracked mandatory mid tag a ds en -> Wait_finish tag a ct wk (tracker en) = Some (r, t) ->
  mapConfirmError <$> r = None ∨ wk = WakeDone ->
  expected mandatory mid tag None ds = Some (mapConfirmError <$> r).
Proof.
  unfold tracked. intros H Hf Hr.
  assert (wk = WakeDone) as ->.
  { destruct Hr as [Hr|]; [|done]. destruct wk; simpl in Hf; [done|case_decide|]; by simplify_eq. }
  destruct (expected mandatory mid tag None ds) as [res|].
  - destruct H as (r' & Hs & <-). apply (settled_recv _ _ _ _ ct) in Hs as [Hs _]. rewrite Hf in Hs.
    simpl in Hs. by simplify_eq.
  - destruct H as (ret & Hu & _). by rewrite (unresolved_blocks _ _ _ _ _ _ ct Hu) in Hf.
Qed.

Lemma batch_wait_one_inv mandatory k ks ct s r s1 :
  batch_inv mandatory (k :: ks) s -> batch_wait_one ct (tItem k) s = Some (r, s1) ->
  batch_inv mandatory ks s1 ∧ reported mandatory k s1.2 r ∧ (tFrom k <= length s1.2)%nat
  ∧ ∃ more, s1.2 = s.2 ++ more.
Proof.
  intros Hinv H. unfold batch_wait_one in H.
  apply (batch_inv_handle _ _ (iEarly (tItem k))) in Hinv. pose proof (bi_follows _ _ _ Hinv) as Hf.
  apply Forall_cons in Hf as [(_ & Hl & Ht) _]. destruct (tracked_slot _ _ _ _ _ _ Ht) as [_ Hslot].
  destruct (Wait_lookup _ _) as [addr|] eqn:Hp.
  - unfold Wait_lookup in Hp. apply Hslot in Hp as ->.
    apply (batch_inv_handle _ _ (iFrames (tItem k))) in Hinv. pose proof (bi_follows _ _ _ Hinv) as Hf.
    apply Forall_cons in Hf as [(_ & Hl2 & Ht2) _].
    set (s2 := handle (iFrames (tItem k)) (handle (iEarly (tItem k)) s)) in *.
    destruct (Wait_finish _ _ _ _ _) as [[werr t]|] eqn:Hw; [|done]. injection H as <- <-.
    split; [|split; [|split; [done|]]].
    + pose proof (Wait_finish_wf _ _ _ _ _ _ _ (bi_wf _ _ _ Hinv) Hw) as Hwf.
      apply batch_inv_frame; [by apply batch_inv_tail in Hinv|done|]. intros k' Hk' _.
      eapply Wait_finish_undisturbed; [apply Hinv| | |exact Hw].
      * pose proof (bi_apart _ _ _ Hinv) as Ha. apply StronglySorted_inv in Ha as [_ Ha].
        rewrite Forall_forall in Ha. apply (Ha (tItem k')). by apply list_elem_of_fmap_2.
      * pose proof (bi_addrs _ _ _ Hinv) as Hd. apply NoDup_cons in Hd as [Hd _]. intros E. apply Hd.
        rewrite E. by apply list_elem_of_fmap_2.
    + intros Hr. by eapply tracked_finish.
    + exists (iEarly (tItem k) ++ iFrames (tItem k)). simpl. by rewrite app_assoc.
  - injection H as <- <-. split; [by apply batch_inv_tail in Hinv|]. split; [|split; [done|by eexists]].
    intros _. unfold tracked in Ht. unfold Wait_lookup in Hp.
    destruct (expected _ _ _ _ _) as [res|].
    + destruct Ht as (r & Hs & <-). destruct (se_slot _ _ _ _ Hs) as [E|[_ ->]]; [congruence|done].
    + destruct Ht as (ret & Hu & _). pose proof (un_pending _ _ _ _ _ _ Hu). congruence.
Qed.

Lemma batch_wait_spec mandatory ks ct results s rs' s' :
  batch_inv mandatory ks s -> Forall (fun k => (tIdx k < length results)%nat) ks -> NoDup (tIdx <$> ks) ->
  batch_wait ct (tPub <$> ks) results s = Some (rs', s') ->
  length rs' = length results ∧ (∃ more, s'.2 = s.2 ++ more)
  ∧ (∀ j, j ∉ tIdx <$> ks -> rs' !! j = results !! j)
  ∧ (∀ k, k ∈ ks -> ∃ r, rs' !! tIdx k = Some r ∧ reported mandatory k s'.2 r).
Proof.
  revert results s. induction ks as [|k ks IH]; intros results s Hinv Hr Hnd H.
  { injection H as <- <-. split; [done|]. split; [exists []; by rewrite app_nil_r|]. split; [done|set_solver]. }
  cbn in H. destruct (batch_wait_one ct (tItem k) s) as [[r s1]|] eqn:H1; [|done].
  destruct (batch_wait_one_inv mandatory k ks ct s r s1 Hinv H1) as (Hinv1 & Hrep & Hlen & more1 & E1).
  apply Forall_cons in Hr as [Hk Hr]. apply NoDup_cons in Hnd as [Hki Hnd].
  apply IH in H as (Hl & (more2 & E2) & Hout & Hin); [|done| |done].
  2:{ eapply Forall_impl; [exact Hr|]. intros k'. by rewrite length_insert. }
  rewrite length_insert in Hl. split; [done|]. split; [exists (more1 ++ more2); by rewrite E2, E1, app_assoc|].
  split.
  - intros j Hj. apply not_elem_of_cons in Hj as [Hj1 Hj2]. rewrite Hout by done.
    by apply list_lookup_insert_ne.
  - intros k' [->|Hk']%elem_of_cons; [|by apply Hin]. exists r. split.
    + rewrite Hout by done. by apply list_lookup_insert_eq.
    + rewrite E2. by apply reported_later.
Qed.

(** ** Lemmas: the guards of a batch *)

Lemma has_dup_spec seen ids :
  has_dup seen ids = false ->
  (∀ i x, ids !! i = Some x -> x ≠ ""%string -> x ∉ seen)
  ∧ ∀ i j x, ids !! i = Some x -> ids !! j = Some x -> x ≠ ""%string -> i = j.
Proof.
  revert seen. induction ids as [|id ids IH]; intros seen H; [done|]. simpl in H.
  case_decide as Hid.
  - subst id. destruct (IH seen H) as [H1 H2]. split.
    + intros [|i] x Hx Hne; simplify_eq/=. by eapply H1.
    + intros [|i] [|j] x Hi Hj Hne; simplify_eq/=. f_equal. by eapply H2.
  - case_decide as Hs; [done|]. destruct (IH _ H) as [H1 H2]. split.
    + intros [|i] x Hx Hne; simplify_eq/=; [done|]. specialize (H1 i x Hx Hne). set_solver.
    + intros [|i] [|j] x Hi Hj Hne; simplify_eq/=; [done| | |f_equal; by eapply H2].
      * specialize (H1 j x Hj Hne). set_solver.
      * specialize (H1 i x Hi Hne). set_solver.
Qed.

(** What [encodeMsg] does with ids: an explicit id is kept, and a generated one
    is no other message's id. *)
Definition ids_stamped (items : list item) : Prop :=
  (∀ it m, it ∈ items -> iEncoded it = Ok m -> iMessageID it ≠ ""%string -> m = iMessageID it)
  ∧ (∀ i j x y m, items !! i = Some x -> items !! j = Some y -> i ≠ j ->
       iEncoded x = Ok m -> iEncoded y = Ok m ->
       iMessageID x ≠ ""%string ∧ iMessageID y ≠ ""%string).

(** The driver hands out each sequence number once. *)
Definition tags_distinct (items : list item) : Prop :=
  ∀ i j x y, items !! i = Some x -> items !! j = Some y -> iTag x = iTag y -> i = j.

Lemma sorted_of_pairs {A} (R : A -> A -> Prop) (l : list A) :
  (∀ i j x y, (i < j)%nat -> l !! i = Some x -> l !! j = Some y -> R x y) -> StronglySorted R l.
Proof.
  induction l as [|x l IH]; intros H; constructor.
  - apply IH. intros i j a b Hij Ha Hb. apply (H (S i) (S j)); [lia|done|done].
  - apply Forall_forall. intros y Hy. apply list_elem_of_lookup in Hy as [j Hj].
    apply (H 0%nat (S j)); [lia|done|done].
Qed.

Lemma batch_apart mandatory items :
  mandatory && has_dup ∅ (iMessageID <$> items) = false ->
  tags_distinct items -> ids_stamped items -> StronglySorted (apart mandatory) items.
Proof.
  intros Hdup Htags [Hkeep Hgen]. apply sorted_of_pairs. intros i j x y Hij Hx Hy. split.
  - intros E. specialize (Htags i j x y Hx Hy E). lia.
  - intros -> m Ex Ey. simpl in Hdup. apply has_dup_spec in Hdup as [_ Hu].
    destruct (Hgen i j x y m Hx Hy ltac:(lia) Ex Ey) as [Nx Ny].
    assert (m = iMessageID x) as E1 by (eapply Hkeep; eauto using list_elem_of_lookup_2).
    assert (m = iMessageID y) as E2 by (eapply Hkeep; eauto using list_elem_of_lookup_2).
    assert (i = j); [|lia]. apply (Hu i j m); rewrite ?list_lookup_fmap, ?Hx, ?Hy; simpl; congruence.
Qed.

Lemma sorted_lt_NoDup (l : list nat) : StronglySorted lt l -> NoDup l.
Proof.
  induction 1 as [|x l Hs IH Hx]; constructor; [|done]. intros Hin. rewrite Forall_forall in Hx.
  specialize (Hx x Hin). lia.
Qed.

Lemma all_nil_iff (rs : list goerror) (e : error) :
  (if forallb (fun r => match r with None => true | Some _ => false end) rs then None else Some e) = None
  <-> Forall (fun r => r = None) rs.
Proof.
  induction rs as [|[r|] rs IH]; simpl; [by split| |].
  - split; [done|]. intros H. by apply Forall_cons in H as [? _].
  - rewrite IH, Forall_cons. naive_solver.
Qed.

(** How a batch ends: refused before any write, or written and awaited. *)
Inductive batch_end (mandatory : bool) (ct : Z) (items : list item) (en : entry) : batch_out -> Prop :=
| BatchRefused err : batch_end mandatory ct items en (mkBatch None err [] (en, []))
| BatchInvalid :
    Forall (fun it => encode_err it ≠ None) items -> items ≠ [] ->
    batch_end mandatory ct items en
      (mkBatch (Some (encode_err <$> items)) (Some (Sentinel ErrPartialBatch)) [] (en, []))
| BatchRun rs0 published s1 rs s2 :
    mandatory && has_dup ∅ (iMessageID <$> items) = false ->
    batch_write mandatory 0 items (en, []) = (rs0, published, s1) ->
    batch_wait ct published rs0 s1 = Some (rs, s2) ->
    batch_end mandatory ct items en
      (mkBatch (Some rs)
         (if forallb (fun r : goerror => match r with None => true | Some _ => false end) rs
          then None else Some (Sentinel ErrPartialBatch))
         published (on_entry (batch_cleanup mandatory items) s2)).

Lemma PublishBatch_end mandatory closed maxSize ct berr aerr items en out :
  PublishBatch mandatory closed maxSize ct berr aerr items en = Some out ->
  batch_end mandatory ct items en out.
Proof.
  unfold PublishBatch. intros H. destruct items as [|it0 items0]; [simplify_eq; constructor|].
  set (items := it0 :: items0) in *. case_decide; [simplify_eq; constructor|].
  destruct (mandatory && _) eqn:Hdup; [simplify_eq; constructor|].
  destruct closed; [simplify_eq; constructor|]. destruct (forallb _ items) eqn:Hall.
  - simplify_eq. apply BatchInvalid; [|done]. apply Forall_forall. intros it Hit E.
    rewrite List.forallb_forall in Hall. apply list_elem_of_In in Hit. specialize (Hall it Hit).
    by rewrite E in Hall.
  - destruct berr; [simplify_eq; constructor|]. destruct aerr; [simplify_eq; constructor|].
    destruct (batch_write mandatory 0 items (en, [])) as [[rs0 published] s1] eqn:Hw.
    destruct (batch_wait ct published rs0 s1) as [[rs s2]|] eqn:Ha; [|done]. simplify_eq.
    by eapply BatchRun.
Qed.

(** The result of a batch that ran, message by message. *)
Lemma batch_run_spec mandatory ct items en rs0 published s1 rs s2 :
  wf (tracker en) -> tags_unused items en -> tags_distinct items -> ids_stamped items ->
  mandatory && has_dup ∅ (iMessageID <$> items) = false ->
  batch_write mandatory 0 items (en, []) = (rs0, published, s1) ->
  batch_wait ct published rs0 s1 = Some (rs, s2) ->
  ∃ ks, tPub <$> ks = published ∧ length rs = length items
    ∧ (∀ j, j ∉ published.*1 -> rs !! j = rs0 !! j)
    ∧ (∀ k, k ∈ ks -> iEncoded (tItem k) = Ok (tMid k) ∧ tFrom k = length (frames_before (tIdx k) items)
         ∧ ∃ r, rs !! tIdx k = Some r ∧ reported mandatory k s2.2 r).
Proof.
  intros Hwf Hun Htags Hids Hdup Hw Ha.
  pose proof (batch_apart mandatory items Hdup Htags Hids) as Hap.
  destruct (batch_write_shape _ _ _ _ _ _ _ Hw) as [Hl Hi _ Hs].
  destruct (batch_write_inv mandatory [] 0 items (en, []) rs0 published s1) as (ks & Hinv & Hk & Hfrom);
    [by apply batch_inv_nil|done|constructor|exact Hun|exact Hw|].
  simpl in Hinv. assert (tIdx <$> ks = published.*1) as Hfst.
  { rewrite <- Hk, <- list_fmap_compose. done. }
  exists ks. split; [done|]. rewrite <- Hk in Ha.
  destruct (batch_wait_spec mandatory ks ct rs0 s1 rs s2) as (Hlen & _ & Hout & Hin); [done| | |exact Ha|].
  - apply Forall_forall. intros k Hkin.
    assert (tPub k ∈ published) as Hpub by (rewrite <- Hk; by apply list_elem_of_fmap_2).
    apply Hi in Hpub as (_ & Hpub & _). apply lookup_lt_Some in Hpub. lia.
  - rewrite Hfst. by apply sorted_lt_NoDup.
  - split; [congruence|]. split; [by rewrite <- Hfst|]. intros k Hkin.
    split; [|split; [rewrite Forall_forall in Hfrom; specialize (Hfrom k Hkin); by rewrite Nat.sub_0_r in Hfrom|by apply Hin]].
    pose proof (bi_follows _ _ _ Hinv) as Hf. rewrite Forall_forall in Hf. by apply Hf.
Qed.

(** ** Lemmas: selectPool *)

Lemma select_from_spec i flights mf mi :
  Forall (fun n => 0 <= n) flights ->
  let r := select_from i flights mf mi in
  (r = mi ∧ (flights = [] ∨ 0 <= mf) ∧ Forall (fun n => 0 <= mf -> mf <= n) flights)
  ∨ (∃ k n, r = (i + k)%nat ∧ flights !! k = Some n ∧ (0 <= mf -> n < mf)
       ∧ Forall (fun m => n <= m) flights ∧ ∀ j m, (j < k)%nat -> flights !! j = Some m -> n < m).
Proof.
  revert i mf mi. induction flights as [|n0 fl IH]; intros i mf mi Hf; simpl; [left; eauto|].
  apply Forall_cons in Hf as [Hn0 Hf]. case_decide as Hc.
  - right. destruct (IH (S i) n0 i Hf) as [(-> & _ & H)|(k & n & -> & Hk & Hlt & Hmin & Hfirst)].
    + exists 0%nat, n0. split; [lia|]. split; [done|]. split; [lia|]. split; [|intros; lia].
      constructor; [lia|]. eapply Forall_impl; [exact H|]. simpl. lia.
    + exists (S k), n. split; [lia|]. split; [done|]. specialize (Hlt Hn0). split; [lia|].
      split; [constructor; [lia|done]|]. intros [|j] m Hj Hm; simplify_eq/=; [lia|]. eapply Hfirst; [|done]. lia.
  - destruct (IH (S i) mf mi Hf) as [(-> & H0 & H)|(k & n & -> & Hk & Hlt & Hmin & Hfirst)].
    + left. split; [done|]. split; [right; lia|]. constructor; [lia|done].
    + right. exists (S k), n. split; [lia|]. split; [done|]. split; [done|].
      split; [constructor; [lia|done]|]. intros [|j] m Hj Hm; simplify_eq/=; [lia|]. eapply Hfirst; [|done]. lia.
Qed.

(** ** Lemmas: the retry loop *)

(** What the loop guarantees when it starts at attempt [k]. *)
Record retry_ok (policy : option Z) (k : Z) (rounds : list round)
    (res : goerror) (ms : list string) (n : nat) : Prop := {
  ro_last : ∃ r, rounds !! (n - 1)%nat = Some r ∧ rErr r = res;
  ro_pos : (1 <= n)%nat;
  ro_transient : ∀ i r, (i < n - 1)%nat -> rounds !! i = Some r -> IsTransient (rErr r) = true;
  ro_bound : ∀ retries, policy = Some retries -> 0 < retries -> k <= retries ->
               k + Z.of_nat n <= retries + 1;
  ro_once : policy = None -> n = 1%nat;
  ro_metrics : res = None -> length ms = (n - 1)%nat
}.

(** A loop that stops in its first round. *)
Lemma retry_ok_stop policy k r rounds ms :
  (rErr r = None -> ms = []) -> retry_ok policy k (r :: rounds) (rErr r) ms 1.
Proof.
  intros Hm. constructor.
  - by exists r.
  - lia.
  - intros; lia.
  - intros; lia.
  - done.
  - intros Hn. by rewrite (Hm Hn).
Qed.

Lemma retry_ok_next retries k r rounds res ms n err :
  rErr r = Some err -> IsTransient (Some err) = true -> ¬ (0 < retries ∧ retries <= k) ->
  retry_ok (Some retries) (k + 1) rounds res ms n ->
  retry_ok (Some retries) k (r :: rounds) res (retryReason err :: ms) (S n).
Proof.
  intros Er Et Hlim [Hl Hn Ht Hb _ Hm]. destruct n as [|n]; [lia|].
  simpl in *. rewrite Nat.sub_0_r in *. constructor; simpl; rewrite ?Nat.sub_0_r; [done|lia| | |done|].
  - intros [|i] r' Hi Hr'; simplify_eq/=; [by rewrite Er|]. eapply Ht; [|done]. lia.
  - intros rt [= <-] Hrt Hkr. specialize (Hb retries eq_refl Hrt ltac:(lia)). lia.
  - intros Hres. rewrite (Hm Hres). lia.
Qed.

Lemma publish_loop_ok policy k rounds res ms n :
  0 <= k -> publish_loop policy k rounds = Some (res, ms, n) -> retry_ok policy k rounds res ms n.
Proof.
  revert k res ms n. induction rounds as [|r rounds IH]; intros k res ms n Hk H; [done|].
  cbn [publish_loop] in H. pose proof (retry_ok_stop policy k r rounds) as Hstop.
  destruct (rErr r) as [err|] eqn:Er; [|injection H as <- <- <-; by apply Hstop].
  destruct policy as [retries|]; [|injection H as <- <- <-; by apply Hstop].
  destruct (IsTransient (Some err)) eqn:Et; simpl negb in H; [|injection H as <- <- <-; by apply Hstop].
  case_decide as Hlim; [injection H as <- <- <-; by apply Hstop|].
  destruct (rCtxDone r); [injection H as <- <- <-; by apply Hstop|].
  destruct (rBackoffCancelled r); [injection H as <- <- <-; by apply Hstop|].
  destruct (publish_loop (Some retries) (k + 1) rounds) as [[[res' ms'] n']|] eqn:El; [|done].
  injection H as <- <- <-. eapply retry_ok_next; eauto. apply IH; [lia|done].
Qed.

(** ** Lemmas: Publish *)

Lemma publishOnce_nil mandatory ct mid a en en' :
  idle (aTag a) en -> publishOnce mandatory ct mid a en = Some (None, en') ->
  ∃ pre post, aEarly a ++ aFrames a = pre ++ DConfirm (aTag a) true :: post
    ∧ (∀ ack, DConfirm (aTag a) ack ∉ pre) ∧ DClosed ∉ pre
    ∧ (mandatory = true -> mid ≠ ""%string -> ∀ code, DReturn mid code ∉ pre).
Proof.
  intros (Hwf & Hcl & Hmap) H. pose proof (publishOnce_nil_reached _ _ _ _ _ _ H) as Hr.
  rewrite publishOnce_reached in H by done.
  destruct (publish_on_wake_nil _ _ _ _ _ _ Hwf Hcl Hmap H) as [Hp Hw].
  pose proof (publish_on_expected mandatory ct mid a en Hwf Hcl Hmap Hp Hw) as E.
  rewrite H in E. symmetry in E. by apply expected_nil in E as [_ E].
Qed.

Lemma try_rounds_lookup mandatory ct mid tries i r :
  try_rounds mandatory ct mid tries !! i = Some r ->
  ∃ t err en', tries !! i = Some t
    ∧ publishOnce mandatory ct mid (tryAttempt t) (tryEntry t) = Some (err, en')
    ∧ r = mkRound err (tryCtxDone t) (tryBackoffCancelled t).
Proof.
  revert i. induction tries as [|t tries IH]; intros i H; [done|]. cbn [try_rounds] in H.
  destruct (publishOnce _ _ _ _ _) as [[err en']|] eqn:E; [|done].
  destruct i as [|i]; [injection H as <-; eauto 10|]. by apply IH.
Qed.

(** The rounds are a prefix of the attempts. *)
Lemma try_rounds_some mandatory ct mid tries i j r t :
  (i <= j)%nat -> try_rounds mandatory ct mid tries !! j = Some r -> tries !! i = Some t ->
  is_Some (try_rounds mandatory ct mid tries !! i).
Proof. intros Hij Hj _. apply lookup_lt_is_Some. apply lookup_lt_Some in Hj. lia. Qed.

(** How [Publish] returns: closed, refused by [encodeMsg], or from its loop. *)
Inductive publish_end (closed mandatory : bool) (ct : Z) (policy : option Z) (p : encoder) (e : encode_env)
    (msg : Message) (tries : list try) : publish_out -> Prop :=
| EndClosed : publish_end closed mandatory ct policy p e msg tries
                (mkOut (Some (Sentinel ErrAlreadyClosed)) [] 0 None)
| EndEncode err :
    encodeMsg p e msg = Err err ->
    publish_end closed mandatory ct policy p e msg tries (mkOut (Some err) [] 0 None)
| EndLoop m0 m len err retries n :
    encodeMsg p e msg = Ok (m0, len) -> mMessageID m = mMessageID m0 ->
    publish_loop policy 0 (try_rounds mandatory ct (mMessageID m) tries) = Some (err, retries, n) ->
    publish_end closed mandatory ct policy p e msg tries
      (mkOut err retries n (Some (buildPublishing m len))).

Lemma Publish_end closed mandatory ct policy p e active inject msg tries out :
  Publish closed mandatory ct policy p e active inject msg tries = Some out ->
  publish_end closed mandatory ct policy p e msg tries out.
Proof.
  unfold Publish. intros H. destruct closed; [simplify_eq; constructor|].
  destruct (encodeMsg p e msg) as [[m len]|err] eqn:E; [|simplify_eq; by constructor].
  destruct (publish_loop _ _ _) as [[[err retries] n]|] eqn:Hl; [|done]. injection H as <-.
  by eapply EndLoop.
Qed.

(** The attempt behind a nil result. *)
Lemma Publish_nil closed mandatory ct policy p e active inject msg tries out :
  Publish closed mandatory ct policy p e active inject msg tries = Some out -> oErr out = None ->
  ∃ m0 m len t en', encodeMsg p e msg = Ok (m0, len) ∧ mMessageID m = mMessageID m0
    ∧ oFrame out = Some (buildPublishing m len) ∧ tries !! (oAttempts out - 1)%nat = Some t
    ∧ (1 <= oAttempts out)%nat
    ∧ publishOnce mandatory ct (mMessageID m) (tryAttempt t) (tryEntry t) = Some (None, en').
Proof.
  intros H. apply Publish_end in H as [|err Henc|m0 m len err retries n Henc Hid Hl]; [done|done|].
  simpl. intros ->. apply publish_loop_ok in Hl as [(r & Hr & Hre) Hpos _ _ _ _]; [|done].
  apply try_rounds_lookup in Hr as (t & err & en' & Ht & Honce & ->). simpl in Hre. subst err.
  by exists m0, m, len, t, en'.
Qed.

(** ** Properties *)

(** C3. A publish reports exactly what the broker said: with the confirm
    tracker, the return map and the demultiplexer composed as in the code, the
    result of an attempt whose [Wait] is woken by its slot is the one read off
    the frames (nil for an ack, [ErrUnroutable] with the reply code for a
    return then an ack, [ErrPublishNacked] for a nack, [ErrChannelClosed] when
    the channel closed first), and the attempt keeps waiting exactly while the
    frames settle nothing. *)
Theorem publish_outcome_exact mandatory ct mid a en :
  idle (aTag a) en -> reached a -> aPublishErr a = None -> aWake a = WakeDone ->
  fst <$> publishOnce mandatory ct mid a en
  = expected mandatory mid (aTag a) None (aEarly a ++ aFrames a).
Proof.
  intros (Hwf & Hcl & Hmap) Hr Hp Hw. rewrite publishOnce_reached by done.
  by apply publish_on_expected.
Qed.

(** C2. A nil result is a promise: [Publish] returns nil only when, in its last
    attempt, the broker acked the very delivery tag of that attempt, no close of
    the channel and no nack of the tag came before that ack and, for a mandatory
    publisher, no return of the message either. *)
Theorem publish_nil_means_confirmed closed mandatory ct policy p e active inject msg tries out :
  (∀ t, t ∈ tries -> idle (aTag (tryAttempt t)) (tryEntry t)) ->
  (∀ id, uuidOutcome e = Ok id -> id ≠ ""%string) ->
  Publish closed mandatory ct policy p e active inject msg tries = Some out -> oErr out = None ->
  ∃ t pub pre post, tries !! (oAttempts out - 1)%nat = Some t ∧ oFrame out = Some pub
    ∧ aEarly (tryAttempt t) ++ aFrames (tryAttempt t)
      = pre ++ DConfirm (aTag (tryAttempt t)) true :: post
    ∧ (∀ ack, DConfirm (aTag (tryAttempt t)) ack ∉ pre) ∧ DClosed ∉ pre
    ∧ (mandatory = true -> ∀ code, DReturn (pMessageId pub) code ∉ pre).
Proof.
  intros Hidle Huuid H Hn.
  destruct (Publish_nil _ _ _ _ _ _ _ _ _ _ _ H Hn) as (m0 & m & len & t & en' & Henc & Hid & Hf & Ht & _ & Honce).
  apply publishOnce_nil in Honce as (pre & post & E & H1 & H2 & H3); [|by eapply Hidle, list_elem_of_lookup_2].
  exists t, (buildPublishing m len), pre, post. repeat (split; [done|]).
  intros Hm code. apply H3; [done|]. simpl. rewrite Hid. by apply (encodeMsg_Ok _ _ _ _ _ Henc).
Qed.

(** No attempt leaks: whichever way an attempt on an idle entry ends,
    confirmed, refused, timed out or cancelled, its slot is gone from the
    tracker and no message id points at its tag any more. *)
Lemma publish_leaves_no_slot mandatory ct mid a en err en' :
  idle (aTag a) en -> reached a -> publishOnce mandatory ct mid a en = Some (err, en') ->
  pending (tracker en') !! aTag a = None ∧ ∀ m, returnTagMap en' !! m ≠ Some (aTag a).
Proof.
  intros (Hwf & Hcl & Hmap) Hr H. rewrite publishOnce_reached in H by done. unfold publish_on in H.
  destruct (Register_unresolved mandatory mid (aTag a) en Hwf Hcl Hmap) as (t1 & Hreg & [_ _ _ Hum]).
  rewrite Hreg in H. set (en1 := set_tracker t1 (store_tag mandatory mid (aTag a) en)) in *.
  assert (∀ ds t m, returnTagMap (drop_tag mandatory mid (set_tracker t (demux_run ds en1))) !! m
    ≠ Some (aTag a)) as Hd.
  { intros ds t m E. rewrite drop_tag_map in E. simpl in E.
    destruct mandatory; [apply lookup_delete_Some in E as [Hne E]|];
      apply demux_map_shrinks in E; apply Hum in E as (? & ? & ?); congruence. }
  destruct (aPublishErr a) as [perr|].
  { injection H as _ <-. split; [rewrite drop_tag_tracker; apply Cancel_slot|]. intros m. apply Hd. }
  unfold Wait_lookup in H. destruct (pending (tracker (demux_run (aEarly a) en1)) !! aTag a) as [addr|] eqn:Hp.
  - destruct (Wait_finish _ _ _ _ _) as [[werr t4]|] eqn:Hf; [|done]. injection H as _ <-.
    rewrite drop_tag_tracker. split; [by eapply Wait_finish_slot|]. intros m.
    rewrite <- demux_run_app. apply Hd.
  - injection H as _ <-. rewrite drop_tag_tracker. split; [done|]. intros m.
    pose proof (Hd (aEarly a) (tracker (demux_run (aEarly a) en1)) m) as Hdm.
    by destruct (demux_run (aEarly a) en1).
Qed.

(** Retrying is bounded and selective: [Publish] makes at most [Retries + 1]
    attempts when [Retries] is positive and at most one without a policy; every
    attempt but the last failed with a transient error; the error returned is
    that of the last attempt; and a publish that succeeds has recorded one
    retry per failed attempt. *)
Lemma publish_retry_bounded closed mandatory ct policy p e active inject msg tries out :
  Publish closed mandatory ct policy p e active inject msg tries = Some out ->
  (∀ retries, policy = Some retries -> 0 < retries -> Z.of_nat (oAttempts out) <= retries + 1)
  ∧ (policy = None -> (oAttempts out <= 1)%nat)
  ∧ (∀ i t, (i < oAttempts out)%nat -> tries !! i = Some t ->
       ∃ mid err en', publishOnce mandatory ct mid (tryAttempt t) (tryEntry t) = Some (err, en')
         ∧ (if decide (i = oAttempts out - 1)%nat then err = oErr out else IsTransient err = true))
  ∧ (oErr out = None -> (1 <= oAttempts out)%nat ∧ length (oRetries out) = (oAttempts out - 1)%nat).
Proof.
  intros H. apply Publish_end in H as [|err Henc|m0 m len err retries n Henc Hid Hl]; simpl.
  - repeat split; intros; try lia; done.
  - repeat split; intros; try lia; done.
  - apply publish_loop_ok in Hl as [(r & Hr & Hre) Hpos Ht Hb Ho Hm]; [|done].
    split; [intros k -> Hk; specialize (Hb k eq_refl Hk); lia|]. split; [intros Hp; rewrite (Ho Hp); lia|].
    split; [|auto]. intros i t Hi Hti. exists (mMessageID m).
    destruct (try_rounds_some mandatory ct (mMessageID m) tries i (n - 1) r t) as [r' Hr']; [lia|done|done|].
    destruct (try_rounds_lookup _ _ _ _ _ _ Hr') as (t' & err' & en' & Ht' & Honce & ->).
    rewrite Hti in Ht'. injection Ht' as <-. exists err', en'. split; [done|]. case_decide as Hd.
    + subst i. rewrite Hr in Hr'. injection Hr' as ->. done.
    + apply (Ht i _ ltac:(lia) Hr').
Qed.

(** C6. A batch reports exactly what the broker said of each message: although
    its messages share one channel, the result of every published message whose
    [Wait] is woken by its slot is the one read off the frames handled since its
    own registration (the first confirm of its own tag, a return of its own id
    before it, a close before both); and so is a nil result however the message
    was awaited: it comes from an ack of its own tag, with no return before it. *)
Theorem publish_batch_exact mandatory closed maxSize ct berr aerr items en out i it mid :
  wf (tracker en) -> tags_unused items en -> tags_distinct items -> ids_stamped items ->
  PublishBatch mandatory closed maxSize ct berr aerr items en = Some out ->
  (i, it) ∈ bPublished out -> iEncoded it = Ok mid ->
  ∃ rs r, bResults out = Some rs ∧ rs !! i = Some r
    ∧ (r = None ∨ iWake it = WakeDone ->
       expected mandatory mid (iTag it) None (drop (length (frames_before i items)) (bState out).2) = Some r).
Proof.
  intros Hwf Hun Htags Hids H Hin Hmid. apply PublishBatch_end in H. revert Hin.
  destruct H as [err| |rs0 published s1 rs s2 Hdup Hw Ha]; simpl; intros Hin;
    [by apply not_elem_of_nil in Hin|by apply not_elem_of_nil in Hin|].
  destruct (batch_run_spec mandatory ct items en rs0 published s1 rs s2) as (ks & <- & _ & _ & Hks); try done.
  apply list_elem_of_fmap in Hin as (k & [= -> ->] & Hk).
  destruct (Hks k Hk) as (Emid & Hfrom & r & Hr & Hexp). rewrite Hmid in Emid. injection Emid as ->.
  exists rs, r. split; [done|]. split; [done|]. rewrite <- Hfrom. exact Hexp.
Qed.

(** A batch accounts for every message: when results are returned there is
    one per message, the overall error is nil exactly when all of them are, and
    a nil result means that the message was published; when no results are
    returned nothing was published and the channel entry is untouched; messages
    are published in the order given, each at most once. *)
Lemma publish_batch_accounts mandatory closed maxSize ct berr aerr items en out :
  wf (tracker en) -> tags_unused items en -> tags_distinct items -> ids_stamped items ->
  PublishBatch mandatory closed maxSize ct berr aerr items en = Some out ->
  match bResults out with
  | Some rs =>
      length rs = length items
      ∧ (bErr out = None <-> Forall (fun r => r = None) rs)
      ∧ (∀ i, rs !! i = Some None -> ∃ it, items !! i = Some it ∧ (i, it) ∈ bPublished out)
  | None => bPublished out = [] ∧ bState out = (en, [])
  end
  ∧ StronglySorted lt (bPublished out).*1
  ∧ (∀ i it, (i, it) ∈ bPublished out -> items !! i = Some it).
Proof.
  intros Hwf Hun Htags Hids H. apply PublishBatch_end in H as [err|Hall Hne|rs0 published s1 rs s2 Hdup Hw Ha]; simpl.
  - split; [done|]. split; [constructor|set_solver].
  - split; [|split; [constructor|set_solver]]. split; [by rewrite length_fmap|].
    rewrite Forall_forall in Hall. split.
    + split; [done|]. intros Hf. destruct items as [|it items]; [done|]. simpl in Hf.
      apply Forall_cons in Hf as [Hf _]. destruct (Hall it); [set_solver|done].
    + intros i Hi. rewrite list_lookup_fmap in Hi. destruct (items !! i) as [it|] eqn:E; [|done].
      simpl in Hi. destruct (Hall it); [by apply list_elem_of_lookup_2 in E|congruence].
  - destruct (batch_write_shape _ _ _ _ _ _ _ Hw) as [Hl Hi Hn Hs].
    destruct (batch_run_spec mandatory ct items en rs0 published s1 rs s2) as (ks & _ & Hlen & Hout & _); try done.
    split; [|split; [done|]].
    + split; [done|]. split.
      * by apply all_nil_iff.
      * intros i Hr. destruct (decide (i ∈ published.*1)) as [Hp|Hp].
        -- apply list_elem_of_fmap in Hp as ([j it] & -> & Hp). destruct (Hi j it Hp) as (_ & Hj & _).
           rewrite Nat.sub_0_r in Hj. eauto.
        -- rewrite Hout in Hr by done. destruct (Hn i Hr) as [it Hit]. exists it.
           destruct (Hi _ _ Hit) as (_ & Hj & _). by rewrite Nat.sub_0_r in Hj.
    + intros i it Hp. destruct (Hi i it Hp) as (_ & Hj & _). by rewrite Nat.sub_0_r in Hj.
Qed.

(** [selectPool] balances: it returns the index of a pool with the fewest
    publishes in flight, the first of them when there are several. *)
Lemma selectPool_least_loaded flights :
  flights ≠ [] -> Forall (fun n => 0 <= n) flights ->
  ∃ n, flights !! selectPool flights = Some n
    ∧ Forall (fun m => n <= m) flights
    ∧ ∀ j m, (j < selectPool flights)%nat -> flights !! j = Some m -> n < m.
Proof.
  intros Hne Hf. unfold selectPool.
  destruct (select_from_spec 0 flights (-1) 0 Hf) as [(_ & [?|?] & _)|(k & n & -> & Hk & _ & Hmin & Hfirst)];
    [done|lia|]. exists n. by split.
Qed.

(** ** Witnesses *)

Definition entry0 : entry := mkEntry New ∅ [].

Lemma idle0 tag : idle tag entry0.
Proof. split; [apply wf_New|]. split; [done|]. intros m. simpl. by rewrite lookup_empty. Qed.

(** A mandatory publish that is returned and then acked. *)
Definition returned0 : attempt :=
  mkAttempt None None None 1 None [DReturn "m" 312] [DConfirm 1 true] WakeDone.

(** A publish that is acked after a neighbour's nack. *)
Definition acked0 : attempt :=
  mkAttempt None None None 2 None [DConfirm 1 false] [DConfirm 2 true] WakeDone.

Lemma publish_outcome_witness :
  fst <$> publishOnce true 0 "m" returned0 entry0
  = Some (Some (CodeError 312 (Sentinel ErrUnroutable))).
Proof.
  rewrite (publish_outcome_exact true 0 "m" returned0 entry0);
    [reflexivity|apply idle0|done|reflexivity|reflexivity].
Defined.

(** A first attempt that is nacked and retried, then one that is acked. *)
Definition tries0 : list try :=
  [mkTry (mkAttempt None None None 1 None [] [DConfirm 1 false] WakeDone) entry0 false false;
   mkTry acked0 entry0 false false].

Definition publish0 : option publish_out :=
  Publish false true 0 (Some 5) sample_encoder sample_encode_env false (fun h => h) sample_msg tries0.

Lemma publish_nil_witness :
  ∃ out t, publish0 = Some out ∧ oErr out = None ∧ tries0 !! (oAttempts out - 1)%nat = Some t
    ∧ DConfirm 2 true ∈ aEarly (tryAttempt t) ++ aFrames (tryAttempt t).
Proof.
  destruct publish0 as [out|] eqn:E; [|by vm_compute in E].
  assert (oErr out = None) as Hn by (vm_compute in E; by injection E as <-).
  assert (oAttempts out = 2%nat) as H2 by (vm_compute in E; by injection E as <-).
  destruct (publish_nil_means_confirmed false true 0 (Some 5) sample_encoder sample_encode_env false (fun h => h)
              sample_msg tries0 out) as (t & pub & pre & post & Ht & _ & Hf & _).
  - intros t Ht. repeat apply elem_of_cons in Ht as [->|Ht]; try apply idle0. by apply not_elem_of_nil in Ht.
  - intros id [= <-]. done.
  - exact E.
  - exact Hn.
  - exists out, t. split; [reflexivity|]. split; [exact Hn|]. split; [exact Ht|].
    rewrite H2 in Ht. injection Ht as <-. set_solver.
Defined.

(** A publish whose write fails. *)
Definition failed0 : attempt :=
  mkAttempt None None None 1 (Some (AmqpError false 504)) [] [] WakeDone.

Lemma publish_no_slot_witness :
  ∃ err en', publishOnce true 0 "m" failed0 entry0 = Some (err, en')
    ∧ pending (tracker en') !! 1 = None ∧ ∀ m, returnTagMap en' !! m ≠ Some 1.
Proof.
  destruct (publishOnce true 0 "m" failed0 entry0) as [[r en']|] eqn:E; [|by vm_compute in E].
  exists r, en'. split; [reflexivity|].
  exact (publish_leaves_no_slot true 0 "m" failed0 entry0 r en' (idle0 1) ltac:(done) E).
Defined.

Lemma publish_retry_witness :
  ∃ out, publish0 = Some out ∧ oRetries out = ["nacked"]%string ∧ Z.of_nat (oAttempts out) <= 5 + 1.
Proof.
  destruct publish0 as [out|] eqn:E; [|by vm_compute in E]. exists out. split; [reflexivity|].
  split; [vm_compute in E; by injection E as <-|].
  destruct (publish_retry_bounded false true 0 (Some 5) sample_encoder sample_encode_env false (fun h => h)
              sample_msg tries0 out E) as (H & _).
  exact (H 5 eq_refl eq_refl).
Defined.

(** Two messages on one channel: the first is returned and acked, the second,
    whose id was generated, is acked first. *)
Definition batch0 : list item :=
  [mkItem "a" (Ok "a"%string) 1 None [] [DReturn "a" 312; DConfirm 2 true] [DConfirm 1 true] WakeDone;
   mkItem "" (Ok "u"%string) 2 None [] [] [] WakeDone].

Lemma batch0_unused : tags_unused batch0 entry0.
Proof. intros it m _. simpl. by rewrite lookup_empty. Qed.

Lemma batch0_tags : tags_distinct batch0.
Proof. intros [|[|i]] [|[|j]] x y Hx Hy E; simpl in *; simplify_eq/=; done. Qed.

Lemma batch0_ids : ids_stamped batch0.
Proof.
  split.
  - intros it m Hit E Hne. repeat apply elem_of_cons in Hit as [->|Hit]; simplify_eq/=;
      [done|by apply not_elem_of_nil in Hit].
  - intros [|[|i]] [|[|j]] x y m Hx Hy Hij Ex Ey; simpl in *; simplify_eq/=.
Qed.

(** Of the two messages one is returned and acked, the other acked. *)
Lemma publish_batch_exact_witness :
  ∃ out rs r, PublishBatch true false 0 0 None None batch0 entry0 = Some out
    ∧ bResults out = Some rs ∧ rs !! 0%nat = Some r
    ∧ expected true "a" 1 None (drop (length (frames_before 0 batch0)) (bState out).2) = Some r.
Proof.
  destruct (PublishBatch true false 0 0 None None batch0 entry0) as [out|] eqn:E; [|by vm_compute in E].
  destruct (publish_batch_exact true false 0 0 None None batch0 entry0 out 0
              (mkItem "a" (Ok "a"%string) 1 None [] [DReturn "a" 312; DConfirm 2 true] [DConfirm 1 true] WakeDone)
              "a" wf_New batch0_unused batch0_tags batch0_ids E) as (rs & r & Hrs & Hr & Hexp).
  - vm_compute in E. injection E as <-. set_solver.
  - reflexivity.
  - exists out, rs, r. repeat split; [assumption|assumption|]. apply Hexp. right. reflexivity.
Defined.

Lemma publish_batch_accounts_witness :
  ∃ out, PublishBatch true false 0 0 None None batch0 entry0 = Some out
    ∧ bErr out = Some (Sentinel ErrPartialBatch) ∧ StronglySorted lt (bPublished out).*1.
Proof.
  destruct (PublishBatch true false 0 0 None None batch0 entry0) as [out|] eqn:E; [|by vm_compute in E].
  exists out. split; [reflexivity|]. split; [vm_compute in E; by injection E as <-|].
  exact (proj1 (proj2 (publish_batch_accounts true false 0 0 None None batch0 entry0 out
    wf_New batch0_unused batch0_tags batch0_ids E))).
Defined.

Lemma selectPool_witness :
  selectPool [3; 1; 2; 1] = 1%nat ∧ ∃ n, [3; 1; 2; 1] !! selectPool [3; 1; 2; 1] = Some n.
Proof.
  split; [reflexivity|].
  destruct (selectPool_least_loaded [3; 1; 2; 1] ltac:(done) ltac:(repeat constructor; lia)) as (n & Hn & _).
  by exists n.
Defined.
