(* ===== verification/Rpc.v ===== *)
(** * Rpc: the calling side of request/reply

    Models [src/rpc.go]: the dedicated session of a [Caller], [ensureSession],
    [openSession], [Call], [Close] and the dispatcher that routes replies to
    the calls waiting for them.  Concurrent calls, the dispatcher of each
    session and the environment (broker, driver, contexts) interleave; a step
    is one critical section, one operation on [pending] or one channel
    operation.  A reply slot belongs to one call and is known by it. *)

From S2P Require Import Prelude Errors Values Message Consumer.

Open Scope go_scope.

(** ** encodeMessageBody *)

(** The message with its defaults and the codec's headers, and the length of
    the body. *)
Definition encodeMessageBody (e : encode_env) (msg : Message) : result error (Message * Z) :=
  let? msg := applyDefaults (uuidOutcome e) (clockNow e) (codecContentType e) msg in
  let? h := validateHeaders (mHeaders msg) in
  let msg := set_headers h msg in
  if negb (mBody msg) then Err invalidMessage
  else
    match safeEncodeBody (codecOutcome e) with
    | Err err => Err (Wrap [Sentinel ErrInvalidMessage; err])
    | Ok (len, ceHeaders, ceContentType) =>
        let? msg :=
          if decide (ceHeaders = ∅) then Ok msg
          else let? ce := validateHeadersMap ceHeaders in Ok (set_headers (Some ce) msg) in
        Ok (if decide (ceContentType = ""%string) then msg else set_content_type ceContentType msg, len)
    end.

(** The request and the reply are built from nothing but these fields. *)
Definition rpc_message (correlationID replyTo : string) : Message :=
  mkMessage true "" correlationID replyTo "" "" "" "" "" None 0 None 0 0 0.

(** ** openSession *)

Definition directReplyToQueue : string := "amq.rabbitmq.reply-to".

(** The driver's answers, and the calls made on it. *)
Record open_env : Type := mkOpenEnv {
  oOpen : goerror;                   (* openChannel *)
  oDeclare : result error string;    (* QueueDeclare: the generated name *)
  oQos : goerror;
  oConsume : goerror
}.

Inductive chan_call : Type :=
| COpenChannel
| CQueueDeclare
| CQos (prefetch : Z)
| CConsume (queue : string) (autoAck : bool)
| CClose.

Definition wrap_driver (e : error) : error :=
  Wrap (match wrapAMQPError (Some e) with Some e' => [e'] | None => [] end).

(** The reply address and whether replies are acked, or the error; and the
    calls made. *)
Definition openSession (useExclusiveQueue : bool) (prefetch : Z) (e : open_env)
  : result error (string * bool) * list chan_call :=
  match oOpen e with
  | Some err => (Err err, [])
  | None =>
      let subscribe replyTo autoAck calls :=
        match oConsume e with
        | Some err => (Err (wrap_driver err), calls ++ [CConsume replyTo autoAck; CClose])
        | None => (Ok (replyTo, negb autoAck), calls ++ [CConsume replyTo autoAck])
        end in
      if useExclusiveQueue then
        match oDeclare e with
        | Err derr => (Err (wrap_driver derr), [COpenChannel; CQueueDeclare; CClose])
        | Ok name =>
            if decide (0 < prefetch) then
              match oQos e with
              | Some qerr =>
                  (Err (wrap_driver qerr), [COpenChannel; CQueueDeclare; CQos prefetch; CClose])
              | None => subscribe name false [COpenChannel; CQueueDeclare; CQos prefetch]
              end
            else subscribe name false [COpenChannel; CQueueDeclare]
        end
      else subscribe directReplyToQueue true [COpenChannel]
  end.

(** ** State *)

(** A reply delivery: its correlation id and what decoding its body gives. *)
Record reply : Type := mkReply { rpCid : string; rpDecode : decode_outcome }.

(** The dispatcher: in its range, about to send a reply on the slot it loaded,
    gone. *)
Inductive dphase : Type := DRange | DSend (i : nat) (r : reply) | DGone.

(** [callerSession]; [arrived] is the history of replies the broker delivered
    on the session. *)
Record session : Type := mkSession {
  replyTo : string;
  ackReplies : bool;
  replies : list reply;
  repliesClosed : bool;
  dispatcher : dphase;
  sdone : bool;
  acked : list reply;
  arrived : list reply
}.

Inductive outcome : Type := Replied (r : reply) | Failed (e : error).

(** Where a call is: waiting for [c.mu], in [waitBarrier] and [openSession]
    with the lock held, with a session, with its slot registered, published and
    in its select, before the deferred [Delete], returned. *)
Inductive cphase : Type :=
| PLock
| PBarrier
| POpen
| PSession (sid : nat)
| PStored (sid : nat)
| PWait (sid : nat)
| PDefer (o : outcome)
| PReturned (o : outcome).

(** [ctx] tells whether the call's context is done, [slot] is its reply channel
    of capacity one.  [cid] is the correlation id once the slot is registered,
    [frame] the history of what it published. *)
Record call : Type := mkCall {
  phase : cphase;
  ctx : bool;
  cid : option string;
  slot : option reply;
  frame : option Publishing
}.

Record caller : Type := mkCaller {
  closed : bool;
  session_of : option nat;
  sessions : gmap nat session;
  nextSession : nat;
  pending : gmap string nat;
  mu : option nat;
  calls : gmap nat call;
  nextCall : nat;
  useExclusive : bool;
  callerPrefetch : Z
}.

Definition new_caller (exclusive : bool) (prefetch : Z) : caller :=
  mkCaller false None ∅ 0 ∅ None ∅ 0 exclusive prefetch.

Definition with_call (i : nat) (x : call) (s : caller) : caller :=
  {| s with calls := <[ i := x ]> (calls s) |}.
Definition with_session (k : nat) (x : session) (s : caller) : caller :=
  {| s with sessions := <[ k := x ]> (sessions s) |}.
Definition goto (p : cphase) (x : call) : call := {| x with phase := p |}.

Definition alive (k : nat) (s : caller) : bool :=
  match sessions s !! k with Some x => negb (sdone x) | None => false end.

(** ** Call *)

(** What a call meets at its next point. *)
Inductive call_arm : Type :=
| ALock
| ABarrier (err : goerror)
| AOpen (e : open_env)
| AEncode (uuid : result error string) (e : encode_env)
| APublish (err : goerror)
| ACtx (err : error)       (* the error of the context *)
| ADone
| AReply
| ADelete.

(** [ensureSession]: the part before the barrier. *)
Definition ensureSession (i : nat) (x : call) (s : caller) : option caller :=
  match mu s with
  | Some _ => None
  | None =>
      if closed s then Some (with_call i (goto (PReturned (Failed (Sentinel ErrAlreadyClosed))) x) s)
      else
        let reopen := Some (with_call i (goto PBarrier x) {| s with mu := Some i |}) in
        match session_of s with
        | Some k => if alive k s then Some (with_call i (goto (PSession k) x) s) else reopen
        | None => reopen
        end
  end.

(** [openSession] under the lock, and the return of [ensureSession]. *)
Definition open_and_install (i : nat) (x : call) (e : open_env) (s : caller) : caller :=
  match (openSession (useExclusive s) (callerPrefetch s) e).1 with
  | Err err => with_call i (goto (PReturned (Failed err)) x) {| s with mu := None |}
  | Ok (rt, acks) =>
      let k := nextSession s in
      with_call i (goto (PSession k) x)
        (with_session k (mkSession rt acks [] false DRange false [] [])
           {| s with session_of := Some k; nextSession := S k; mu := None |})
  end.

(** The correlation id, the encoding, and the registration of the slot. *)
Definition prepare (i k : nat) (x : call) (sess : session) (uuid : result error string) (e : encode_env)
    (s : caller) : caller :=
  match uuid with
  | Err err => with_call i (goto (PReturned (Failed (Wrap [Sentinel ErrInvalidMessage; err]))) x) s
  | Ok id =>
      match encodeMessageBody e (rpc_message id (replyTo sess)) with
      | Err err => with_call i (goto (PReturned (Failed err)) x) s
      | Ok (m, len) =>
          with_call i {| x with phase := PStored k; cid := Some id; frame := Some (buildPublishing m len) |}
            {| s with pending := <[ id := i ]> (pending s) |}
      end
  end.

Definition Call (i : nat) (arm : call_arm) (s : caller) : option caller :=
  match calls s !! i with
  | None => None
  | Some x =>
      match phase x, arm with
      | PLock, ALock => ensureSession i x s
      | PBarrier, ABarrier None => Some (with_call i (goto POpen x) s)
      | PBarrier, ABarrier (Some err) =>
          Some (with_call i (goto (PReturned (Failed err)) x) {| s with mu := None |})
      | POpen, AOpen e => Some (open_and_install i x e s)
      | PSession k, AEncode uuid e =>
          match sessions s !! k with
          | Some sess => Some (prepare i k x sess uuid e s)
          | None => None
          end
      | PStored k, APublish (Some err) => Some (with_call i (goto (PDefer (Failed (wrap_driver err))) x) s)
      | PStored k, APublish None => Some (with_call i (goto (PWait k) x) s)
      | PWait k, ACtx err =>
          if ctx x then Some (with_call i (goto (PDefer (Failed (Wrap [Sentinel ErrCallTimeout; err]))) x) s)
          else None
      | PWait k, ADone =>
          if alive k s then None
          else Some (with_call i (goto (PDefer (Failed (Sentinel ErrChannelClosed))) x) s)
      | PWait k, AReply =>
          match slot x with
          | Some r =>
              let o := match safeDecodeConsumer (rpDecode r) with Some err => Failed err | None => Replied r end in
              Some (with_call i {| x with phase := PDefer o; slot := None |} s)
          | None => None
          end
      | PDefer o, ADelete =>
          Some (with_call i (goto (PReturned o) x)
                  {| s with pending := match cid x with Some id => delete id (pending s) | None => pending s end |})
      | _, _ => None
      end
  end.

(** ** The dispatcher of a session *)

Definition dispatch (k : nat) (s : caller) : option caller :=
  match sessions s !! k with
  | None => None
  | Some x =>
      match dispatcher x with
      | DRange =>
          match replies x with
          | r :: rest =>
              let ack := if ackReplies x then acked x ++ [r] else acked x in
              match pending s !! rpCid r with
              | Some i => Some (with_session k {| x with replies := rest; dispatcher := DSend i r |} s)
              | None => Some (with_session k {| x with replies := rest; acked := ack |} s)
              end
          | [] =>
              if repliesClosed x
              then Some (with_session k {| x with dispatcher := DGone; sdone := true |} s) else None
          end
      | DSend i r =>
          let x' := {| x with dispatcher := DRange;
                              acked := if ackReplies x then acked x ++ [r] else acked x |} in
          match calls s !! i with
          | Some y =>
              (* a full slot drops the duplicate *)
              let y' := match slot y with Some _ => y | None => {| y with slot := Some r |} end in
              Some (with_call i y' (with_session k x' s))
          | None => Some (with_session k x' s)
          end
      | DGone => None
      end
  end.

(** ** Close *)

Definition Close (s : caller) : option (goerror * caller) :=
  match mu s with
  | Some _ => None
  | None =>
      if closed s then Some (Some (Sentinel ErrAlreadyClosed), s)
      else
        let s1 := {| s with closed := true |} in
        Some (None,
              match session_of s with
              | Some k =>
                  match sessions s !! k with
                  | Some x => with_session k {| x with repliesClosed := true |} s1
                  | None => s1
                  end
              | None => s1
              end)
  end.

(** ** The system *)

Inductive label : Type :=
| LStart                        (* a goroutine calls Call *)
| LCall (i : nat) (arm : call_arm)
| LDispatch (k : nat)
| LReply (k : nat) (r : reply)  (* the broker delivers a reply *)
| LChannelClosed (k : nat)
| LCtxDone (i : nat)
| LClose.

(** [uuid.NewV7] does not repeat: an id already used is not drawn again. *)
Definition id_used (id : string) (s : caller) : bool :=
  bool_decide (map_Exists (fun _ x => cid x = Some id) (calls s)).

Definition fresh_uuid (l : label) (s : caller) : bool :=
  match l with
  | LCall _ (AEncode (Ok id) _) => negb (id_used id s)
  | _ => true
  end.

Definition step (l : label) (s : caller) : option caller :=
  if fresh_uuid l s then
    match l with
    | LStart =>
        Some {| s with calls := <[ nextCall s := mkCall PLock false None None None ]> (calls s);
                       nextCall := S (nextCall s) |}
    | LCall i arm => Call i arm s
    | LDispatch k => dispatch k s
    | LReply k r =>
        match sessions s !! k with
        | Some x => if repliesClosed x then None
                    else Some (with_session k {| x with replies := replies x ++ [r];
                                                        arrived := arrived x ++ [r] |} s)
        | None => None
        end
    | LChannelClosed k =>
        match sessions s !! k with
        | Some x => Some (with_session k {| x with repliesClosed := true |} s)
        | None => None
        end
    | LCtxDone i =>
        match calls s !! i with
        | Some x => Some (with_call i {| x with ctx := true |} s)
        | None => None
        end
    | LClose => snd <$> Close s
    end
  else None.

Inductive reachable (exclusive : bool) (prefetch : Z) : caller -> Prop :=
| reach_new : reachable exclusive prefetch (new_caller exclusive prefetch)
| reach_step l s s' : reachable exclusive prefetch s -> step l s = Some s' -> reachable exclusive prefetch s'.

Fixpoint steps (ls : list label) (s : caller) : option caller :=
  match ls with
  | [] => Some s
  | l :: r => match step l s with Some s' => steps r s' | None => None end
  end.

Lemma rpc_steps exclusive prefetch ls s s' :
  reachable exclusive prefetch s -> steps ls s = Some s' -> reachable exclusive prefetch s'.
Proof.
  revert s. induction ls as [|l ls IH]; intros s Hs; simpl; [by intros [= <-]|].
  destruct (step l s) eqn:E; [|done]. apply IH. by eapply reach_step.
Qed.

Lemma steps_app l1 l2 s : steps (l1 ++ l2) s = match steps l1 s with Some s' => steps l2 s' | None => None end.
Proof. revert s. induction l1 as [|l l1 IH]; intros s; simpl; [done|]. destruct (step l s); [apply IH|done]. Qed.

(** ** Lemmas: the invariant *)

Definition in_flight (p : cphase) : bool :=
  match p with PStored _ | PWait _ | PDefer _ => true | _ => false end.

Definition before (p : cphase) : bool :=
  match p with PLock | PBarrier | POpen | PSession _ => true | _ => false end.

Definition holds_lock (p : cphase) : bool :=
  match p with PBarrier | POpen => true | _ => false end.

Definition result_of (p : cphase) : option outcome :=
  match p with PDefer o | PReturned o => Some o | _ => None end.

Definition session_in (p : cphase) : option nat :=
  match p with PSession k | PStored k | PWait k => Some k | _ => None end.

(** The broker delivered [r] on some session. *)
Definition has_arrived (r : reply) (s : caller) : Prop :=
  ∃ k x, sessions s !! k = Some x ∧ r ∈ arrived x.

Record call_ok (s : caller) (i : nat) (x : call) : Prop := {
  co_before : before (phase x) = true -> cid x = None;
  co_flight : in_flight (phase x) = true -> ∃ id, cid x = Some id ∧ pending s !! id = Some i;
  co_slot : ∀ r, slot x = Some r -> cid x = Some (rpCid r) ∧ has_arrived r s;
  co_result : ∀ r, result_of (phase x) = Some (Replied r) -> cid x = Some (rpCid r) ∧ has_arrived r s;
  co_frame : ∀ id, cid x = Some id -> ∃ f, frame x = Some f ∧ pCorrelationId f = id
               ∧ ∃ k sess, sessions s !! k = Some sess ∧ pReplyTo f = replyTo sess;
  co_session : ∀ k, session_in (phase x) = Some k -> is_Some (sessions s !! k);
  co_lock : holds_lock (phase x) = true -> mu s = Some i
}.

Record session_ok (s : caller) (x : session) : Prop := {
  so_replies : ∀ r, r ∈ replies x -> r ∈ arrived x;
  so_send : ∀ i r, dispatcher x = DSend i r ->
      r ∈ arrived x ∧ ∃ y, calls s !! i = Some y ∧ cid y = Some (rpCid r);
  so_done : sdone x = true <-> dispatcher x = DGone;
  so_closed : sdone x = true -> repliesClosed x = true
}.

Record inv (s : caller) : Prop := {
  i_calls : ∀ i x, calls s !! i = Some x -> call_ok s i x;
  i_sessions : ∀ k x, sessions s !! k = Some x -> session_ok s x;
  i_pending : ∀ id i, pending s !! id = Some i ->
      ∃ x, calls s !! i = Some x ∧ cid x = Some id ∧ in_flight (phase x) = true;
  i_unique : ∀ i j x y id, calls s !! i = Some x -> calls s !! j = Some y ->
      cid x = Some id -> cid y = Some id -> i = j;
  i_fresh : ∀ i, (nextCall s <= i)%nat -> calls s !! i = None;
  i_freshs : ∀ k, (nextSession s <= k)%nat -> sessions s !! k = None
}.

(** What no step takes back. *)
Definition call_ev (x x' : call) : Prop := ∀ id, cid x = Some id -> cid x' = Some id.
Definition session_ev (x x' : session) : Prop :=
  replyTo x' = replyTo x ∧ ∀ r, r ∈ arrived x -> r ∈ arrived x'.

#[export] Instance call_ev_refl : Reflexive call_ev.
Proof. by intros x id. Qed.
#[export] Instance session_ev_refl : Reflexive session_ev.
Proof. by split. Qed.

Record kept (s s' : caller) : Prop := {
  k_calls : keeps call_ev (calls s) (calls s');
  k_sessions : keeps session_ev (sessions s) (sessions s')
}.

Ltac rpc_cases H :=
  unfold step in H; destruct (fresh_uuid _ _) eqn:Huuid; [|discriminate H];
  match type of H with (match ?l with _ => _ end) = _ => destruct l end; cbn beta iota in H;
  unfold Call, ensureSession, open_and_install, prepare, dispatch, Close in H; branches H; cbn in H;
  repeat match goal with Hs : Some _ = Some (_, _) |- _ => injection Hs as ? ?; subst end;
  try discriminate H; injection H as <-.

Ltac keeps_tac :=
  first [ apply keeps_refl; apply _
        | apply keeps_fresh; [apply _|assumption]
        | eapply keeps_insert; [apply _|eassumption|] ].

Lemma step_kept l s s' : inv s -> step l s = Some s' -> kept s s'.
Proof.
  intros [Hc Hs Hp Hu Hf Hg] H.
  pose proof (Hf _ (le_n (nextCall s))) as Hn. pose proof (Hg _ (le_n (nextSession s))) as Hm.
  rpc_cases H; split; cbn; try keeps_tac; try (intros ? ?; done);
    try (split; [done|]; set_solver).
  intros id E. rewrite (co_before _ _ _ (Hc _ _ Heqo)) in E by (by rewrite Heqc0). done.
Qed.

Lemma has_arrived_kept r s s' : kept s s' -> has_arrived r s -> has_arrived r s'.
Proof.
  intros [_ Hs] (k & x & Hx & Hr). destruct (Hs _ _ Hx) as (x' & Hx' & _ & Ha). exists k, x'. auto.
Qed.

(** A call that moves without drawing its correlation id. *)
Lemma call_ok_move s s' i x x' :
  kept s s' -> call_ok s i x -> cid x' = cid x -> frame x' = frame x ->
  (before (phase x') = true -> before (phase x) = true) ->
  (∀ id, cid x = Some id -> in_flight (phase x') = true ->
     in_flight (phase x) = true ∧ (pending s !! id = Some i -> pending s' !! id = Some i)) ->
  (in_flight (phase x') = true -> in_flight (phase x) = true) ->
  (∀ r, slot x' = Some r -> slot x = Some r ∨ cid x = Some (rpCid r) ∧ has_arrived r s) ->
  (∀ r, result_of (phase x') = Some (Replied r) ->
     result_of (phase x) = Some (Replied r) ∨ slot x = Some r) ->
  (∀ k, session_in (phase x') = Some k -> session_in (phase x) = Some k ∨ is_Some (sessions s' !! k)) ->
  (holds_lock (phase x') = true -> (holds_lock (phase x) = true -> mu s = Some i) -> mu s' = Some i) ->
  call_ok s' i x'.
Proof.
  intros Hk [H1 H2 H3 H4 H5 H6 H7] Ec Ef Hb Hf Hff Hs Hr Hn Hm.
  assert (∀ r, cid x = Some (rpCid r) ∧ has_arrived r s -> cid x = Some (rpCid r) ∧ has_arrived r s')
    as Ha by (intros r [? ?]; eauto using has_arrived_kept).
  split; rewrite ?Ec, ?Ef; auto.
  - intros E. destruct (H2 (Hff E)) as (id & Ei & Hq). exists id. destruct (Hf id Ei E). auto.
  - intros r E. destruct (Hs r E); auto.
  - intros r E. destruct (Hr r E); auto.
  - intros id E. destruct (H5 id E) as (f & Hf' & Hc & k & x0 & Hx & Er). exists f. do 2 (split; [done|]).
    destruct (k_sessions _ _ Hk _ _ Hx) as (y & Hy & Ey & _). exists k, y. by rewrite Ey.
  - intros k E. destruct (Hn k E) as [E'|]; [|done]. destruct (H6 k E') as [x0 Hx].
    destruct (k_sessions _ _ Hk _ _ Hx) as (y & Hy & _). eauto.
Qed.

Lemma session_ok_frame s s' x : kept s s' -> session_ok s x -> session_ok s' x.
Proof.
  intros Hk [H1 H2 H3 H4]. split; try done. intros i r E. destruct (H2 i r E) as (Ha & y & Hy & Hc).
  split; [done|]. destruct (k_calls _ _ Hk _ _ Hy) as (y' & Hy' & Hc'). exists y'. auto.
Qed.

Lemma rpc_frame e id rt m len :
  encodeMessageBody e (rpc_message id rt) = Ok (m, len) ->
  pCorrelationId (buildPublishing m len) = id ∧ pReplyTo (buildPublishing m len) = rt.
Proof.
  unfold encodeMessageBody, rbind, applyDefaults, validateHeaders, rpc_message. simpl.
  intros H. repeat (case_match; simplify_eq/=); done.
Qed.

Lemma fresh_uuid_spec i id e s j x :
  fresh_uuid (LCall i (AEncode (Ok id) e)) s = true -> calls s !! j = Some x -> cid x ≠ Some id.
Proof.
  simpl. unfold id_used. intros H Hx E. apply negb_true_iff, bool_decide_eq_false in H. apply H.
  exists j, x. auto.
Qed.

(** An entry of a map after a step: the one the step wrote, or an old one. *)
Ltac map_cases Hx :=
  cbn in Hx;
  repeat match type of Hx with
  | <[ _ := _ ]> _ !! _ = Some _ => apply lookup_insert_Some in Hx as [[<- <-]|[? Hx]]
  end.

Lemma rpc_fresh_step l s s' : inv s -> step l s = Some s' ->
  (∀ i, (nextCall s' <= i)%nat -> calls s' !! i = None)
  ∧ ∀ k, (nextSession s' <= k)%nat -> sessions s' !! k = None.
Proof.
  intros [_ _ _ _ Hf Hg] H. rpc_cases H; cbn; split; intros q Hq; try (apply Hf; lia); try (apply Hg; lia).
  all: rewrite lookup_insert_None.
  all: first [split; [apply Hf; lia|]|split; [apply Hg; lia|]]; try lia.
  all: intros ->; by rewrite ?Hf, ?Hg in * by lia.
Qed.

Lemma rpc_unique_step l s s' i j x y id : inv s -> step l s = Some s' ->
  calls s' !! i = Some x -> calls s' !! j = Some y -> cid x = Some id -> cid y = Some id -> i = j.
Proof.
  intros [Hc _ _ Hu _ _] H Hx Hy Ex Ey. rpc_cases H; map_cases Hx; map_cases Hy; cbn in *; try done; eauto.
  all: exfalso; injection Ex as <- || injection Ey as <-; by eapply (fresh_uuid_spec 0 a e s).
Qed.

Lemma rpc_pending_step l s s' id i : inv s -> step l s = Some s' -> pending s' !! id = Some i ->
  ∃ x, calls s' !! i = Some x ∧ cid x = Some id ∧ in_flight (phase x) = true.
Proof.
  intros Hi H Hp. pose proof Hi as [Hc _ Hq Hu Hf _]. pose proof (step_kept _ _ _ Hi H) as Hk.
  rpc_cases H; cbn in Hp |- *.
  all: try (apply lookup_insert_Some in Hp as [[<- <-]|[Hne Hp]];
            [rewrite lookup_insert_eq; eexists; by split|]).
  all: try apply lookup_delete_Some in Hp as [Hne Hp].
  all: destruct (Hq _ _ Hp) as (x & Hx & Ec & Ef).
  all: try (exists x; split; [|done]; done).
  all: match goal with |- context [<[ ?n := _ ]> _ !! _] => destruct (decide (n = i)) as [Ei|] end;
    [rewrite Ei, lookup_insert_eq|rewrite lookup_insert_ne by done; by exists x].
  all: first [rewrite Hf in Hx by lia; done|subst; simplify_eq/=].
  all: try match goal with E : phase _ = _ |- _ => rewrite E in Ef; done end.
  all: eexists; split_and!; [reflexivity|done|done].
Qed.

Lemma rpc_sessions_step l s s' k x : inv s -> step l s = Some s' -> sessions s' !! k = Some x ->
  session_ok s' x.
Proof.
  intros Hi H Hx. pose proof Hi as [Hc Hs Hq _ _ _]. pose proof (step_kept _ _ _ Hi H) as Hk.
  rpc_cases H; map_cases Hx.
  all: try (eapply session_ok_frame; [exact Hk|by eapply Hs]).
  all: try match goal with E : sessions _ !! _ = Some _ |- _ =>
    pose proof (session_ok_frame _ _ _ Hk (Hs _ _ E)) as [H1 H2 H3 H4] end.
  all: clear Hc Hs; split; cbn; try done.
  all: repeat match goal with E : replies _ = _ |- _ => rewrite E in H1; clear E end.
  all: try (intros ? ?; apply H1; by constructor).
  all: try (by rewrite H3; split; intros E; [congruence|discriminate]).
  all: try done.
  - intros i r0 [= <- <-]. split; [apply H1; by constructor|].
    destruct (Hq _ _ Heqo0) as (y & Hy & Ec & _). by exists y.
  - intros r0 Hr. apply elem_of_app in Hr as [Hr|Hr]; apply elem_of_app; auto.
  - intros i r0 E. destruct (H2 _ _ E) as [Ha Hy]. split; [apply elem_of_app; by left|done].
  - intros E. rewrite (H4 E) in *. done.
Qed.

Lemma rpc_calls_step l s s' i x : inv s -> step l s = Some s' -> calls s' !! i = Some x ->
  call_ok s' i x.
Proof.
  intros Hi H Hx. pose proof Hi as [Hc Hs Hq Hu _ _]. pose proof (step_kept _ _ _ Hi H) as Hk.
  rpc_cases H; map_cases Hx.
  1: by split.
  all: try match goal with E : calls _ !! ?j = Some ?y |- call_ok _ ?j _ => 
    match goal with |- call_ok _ _ (mkCall _ _ _ _ (Some _)) => fail 1 | _ => idtac end;
    eapply (call_ok_move _ _ _ _ _ Hk (Hc _ _ E)); cbn;
    repeat match goal with Hp : phase _ = _ |- _ => rewrite Hp; clear Hp end; cbn; eauto; try done end.
  all: try (intros E1 E2; specialize (E2 E1);
    try (pose proof (co_lock _ _ _ (Hc _ _ Heqo)) as Hl; rewrite Heqc0 in Hl; specialize (Hl eq_refl));
    congruence).
  all: try (intros r0 [= <-]; right;
    destruct (so_send _ _ (Hs _ _ Heqo) _ _ Heqd) as (Ha & y & Hy & Ey); simplify_eq;
    split; [done|by exists k, s0]).
  - intros k [= <-]. right. unfold alive in *. case_match; [eauto|done].
  - intros k [= <-]. right. rewrite lookup_insert_eq. eauto.
  - pose proof (rpc_frame _ _ _ _ _ Heqr0) as [F1 F2].
    destruct (Hc _ _ Heqo) as [G1 _ G3 _ _ _ _]. rewrite Heqc0 in G1. specialize (G1 eq_refl).
    split; cbn; try done.
    + intros _. exists a. by rewrite lookup_insert_eq.
    + intros r E. destruct (G3 r E). congruence.
    + intros id [= <-]. eexists. split_and!; [done|done|]. eauto.
    + intros k [= <-]. eauto.
  - intros id E1 E2. split; [done|]. intros E3. rewrite lookup_insert_ne; [done|].
    intros ->. by eapply (fresh_uuid_spec 0 id e).
  - intros r0 [= <-]. auto.
  - intros id E1 E2. split; [done|]. intros E3. rewrite lookup_delete_ne; [done|]. intros ->. eauto.
Qed.

Lemma inv_step l s s' : inv s -> step l s = Some s' -> inv s'.
Proof.
  intros Hi H. split.
  - intros i x. by eapply rpc_calls_step.
  - intros k x. by eapply rpc_sessions_step.
  - intros id i. by eapply rpc_pending_step.
  - intros i j x y id. by eapply rpc_unique_step.
  - by eapply rpc_fresh_step.
  - by eapply rpc_fresh_step.
Qed.

Lemma rpc_inv exclusive prefetch s : reachable exclusive prefetch s -> inv s.
Proof. induction 1; [by split|by eapply inv_step]. Qed.

(** *** The dispatcher drains a closed stream *)

Definition to_dispatch (x : session) : nat :=
  2 * length (replies x) + match dispatcher x with DSend _ _ => 1 | _ => 0 end.

Lemma dispatch_progress s k x :
  sessions s !! k = Some x -> repliesClosed x = true -> dispatcher x ≠ DGone ->
  ∃ s' x', step (LDispatch k) s = Some s' ∧ sessions s' !! k = Some x' ∧ repliesClosed x' = true
    ∧ (∀ i, phase <$> calls s' !! i = phase <$> calls s !! i)
    ∧ (sdone x' = true ∨ (to_dispatch x' < to_dispatch x)%nat).
Proof.
  intros Hx Hc Hd. unfold step, dispatch, to_dispatch. simpl. rewrite Hx.
  destruct (dispatcher x) as [|i r|]; [destruct (replies x) as [|r rest]| |done].
  - rewrite Hc. eexists _, _. split_and!; [done|apply lookup_insert_eq|done|done|by left].
  - destruct (pending s !! rpCid r); eexists _, _;
      (split_and!; [done|apply lookup_insert_eq|done|done|right; simpl; lia]).
  - destruct (calls s !! i) as [y|] eqn:Hy; eexists _, _;
      (split_and!; [done|apply lookup_insert_eq|done| |right; simpl; lia]); [|done].
    intros j. simpl. destruct (decide (i = j)) as [<-|]; [|by rewrite lookup_insert_ne].
    rewrite lookup_insert_eq, Hy. simpl. by destruct (slot y).
Qed.

Lemma dispatcher_drains n s k x :
  inv s -> sessions s !! k = Some x -> repliesClosed x = true -> (to_dispatch x <= n)%nat ->
  ∃ m s', (m <= S n)%nat ∧ steps (repeat (LDispatch k) m) s = Some s' ∧ alive k s' = false
    ∧ ∀ i, phase <$> calls s' !! i = phase <$> calls s !! i.
Proof.
  revert s x. induction n as [n IH] using lt_wf_ind. intros s x Hi Hx Hc Hn.
  assert (dispatcher x = DGone ∨ dispatcher x ≠ DGone) as [Hd|Hd] by (destruct (dispatcher x); auto).
  - exists 0%nat, s. split_and!; [lia|done| |done]. unfold alive. rewrite Hx.
    by rewrite (proj2 (so_done _ _ (i_sessions _ Hi _ _ Hx)) Hd).
  - destruct (dispatch_progress s k x Hx Hc Hd) as (s1 & x1 & H1 & Hx1 & Hc1 & Hp & [Hs|Hm]).
    + exists 1%nat, s1. split_and!; [lia| | |done]; [by cbn [repeat steps]; rewrite H1|].
      unfold alive. by rewrite Hx1, Hs.
    + destruct (IH (pred n) ltac:(lia) s1 x1) as (m & s' & Hm' & Hst & Ha & Hp');
        [by eapply inv_step|done|done|lia|].
      exists (S m), s'. split_and!; [lia| |done|intros i; by rewrite Hp', Hp].
      cbn [repeat steps]. by rewrite H1.
Qed.

(** ** Properties *)

(** C17. A call that returns a reply published one request, with a correlation
    id no other call uses and the reply address of a session, and the reply
    is one the broker delivered with that same correlation id: no call ever
    gets the answer to another's request. *)
Theorem call_gets_its_reply exclusive prefetch s i x r :
  reachable exclusive prefetch s -> calls s !! i = Some x -> phase x = PReturned (Replied r) ->
  has_arrived r s
  ∧ (∃ f, frame x = Some f ∧ pCorrelationId f = rpCid r
          ∧ ∃ k sess, sessions s !! k = Some sess ∧ pReplyTo f = replyTo sess)
  ∧ ∀ j y g, calls s !! j = Some y -> cid y = Some (rpCid r) -> frame y = Some g -> j = i.
Proof.
  intros Hs Hx Hp. apply rpc_inv in Hs as [Hc _ _ Hu _ _]. destruct (Hc _ _ Hx) as [_ _ _ H4 H5 _ _].
  destruct (H4 r) as [Hi Ha]; [by rewrite Hp|]. split_and!; [done|auto|]. intros j y g Hy Ey _. eauto.
Qed.

(** C18. The table of pending calls is exactly the calls between their
    registration and their deferred removal: an entry leads to the one call
    that drew the id, and a call that returned, in whatever way, left none. *)
Theorem pending_exact exclusive prefetch s id i :
  reachable exclusive prefetch s ->
  pending s !! id = Some i <->
  ∃ x, calls s !! i = Some x ∧ cid x = Some id ∧ in_flight (phase x) = true.
Proof.
  intros Hs. apply rpc_inv in Hs as [Hc _ Hq _ _ _]. split; [apply Hq|].
  intros (x & Hx & E & Hf). destruct (Hc _ _ Hx) as [_ H2 _ _ _ _ _].
  destruct (H2 Hf) as (id' & E' & Hp). congruence.
Qed.

(** C19. No call is left waiting on a dead channel.  Once the delivery stream of
    its session closed, the dispatcher alone, in at most twice the buffered
    replies plus two steps and whatever the other calls and the contexts do not
    do, signals [done]; the call's select can then take that arm, and the call
    returns [ErrChannelClosed] with its slot removed. *)
Theorem call_never_stranded exclusive prefetch s i x k sess :
  reachable exclusive prefetch s -> calls s !! i = Some x -> phase x = PWait k ->
  sessions s !! k = Some sess -> repliesClosed sess = true ->
  ∃ m s' x', (m <= 2 * length (replies sess) + 2)%nat
    ∧ steps (repeat (LDispatch k) m ++ [LCall i ADone; LCall i ADelete]) s = Some s'
    ∧ calls s' !! i = Some x' ∧ phase x' = PReturned (Failed (Sentinel ErrChannelClosed))
    ∧ ∀ id, pending s' !! id ≠ Some i.
Proof.
  intros Hr Hx Hp Hs Hc. pose proof (rpc_inv _ _ _ Hr) as Hi.
  destruct (dispatcher_drains _ s k sess Hi Hs Hc (le_n _)) as (m & s1 & Hm & Hst & Ha & Hph).
  specialize (Hph i). rewrite Hx in Hph. destruct (calls s1 !! i) as [y|] eqn:Hy; [|done].
  simpl in Hph. injection Hph as Hph. rewrite Hp in Hph.
  eassert (steps [LCall i ADone; LCall i ADelete] s1 = Some _) as He.
  { cbn [steps]. unfold step at 1. cbn [fresh_uuid]. unfold Call. rewrite Hy, Hph, Ha.
    unfold step. cbn [fresh_uuid]. unfold Call. simpl. rewrite lookup_insert_eq. simpl. reflexivity. }
  eexists m, _, _. split_and!.
  - unfold to_dispatch in Hm. destruct (dispatcher sess); lia.
  - rewrite steps_app, Hst. exact He.
  - apply lookup_insert_eq.
  - done.
  - intros id E. apply (rpc_steps _ _ _ _ _ Hr) in Hst. apply (rpc_steps _ _ _ _ _ Hst) in He.
    apply (i_pending _ (rpc_inv _ _ _ He)) in E as (z & Hz & _ & Hf).
    simpl in Hz. rewrite lookup_insert_eq in Hz. injection Hz as <-. done.
Qed.

(** Opening a session leaves nothing behind: whatever call of the driver
    fails, a channel that was opened is closed, last; and on success the
    channel stays open, with exactly one subscription, to the reply address
    the session announces, acking replies exactly in exclusive-queue mode. *)
Lemma openSession_cleans_up useExclusiveQueue prefetch e :
  match openSession useExclusiveQueue prefetch e with
  | (Err _, cs) => cs = [] ∧ is_Some (oOpen e) ∨ ∃ cs', cs = COpenChannel :: cs' ++ [CClose] ∧ CClose ∉ cs'
  | (Ok (rt, acks), cs) => acks = useExclusiveQueue
      ∧ (∃ cs', cs = COpenChannel :: cs' ++ [CConsume rt (negb acks)] ∧ CClose ∉ cs'
                ∧ (∀ q a, CConsume q a ∉ cs') ∧ (CQos prefetch ∈ cs' <-> acks = true ∧ 0 < prefetch))
      ∧ (useExclusiveQueue = false -> rt = directReplyToQueue)
  end.
Proof.
  unfold openSession. destruct (oOpen e) as [err|]; [by left|].
  destruct useExclusiveQueue; [destruct (oDeclare e); [case_decide; [destruct (oQos e)|]|]|];
    try destruct (oConsume e); simpl.
  all: try (right; match goal with |- ∃ _, ?l = _ ∧ _ => exists (removelast (tail l)) end;
            split; [reflexivity|simpl; set_solver]).
  all: split; [done|split; [|done]];
    match goal with |- ∃ _, ?l = _ ∧ _ => exists (removelast (tail l)) end;
    (split; [reflexivity|]); simpl; split_and!; set_solver.
Qed.

(** ** A run *)

Definition all_well : open_env := mkOpenEnv None (Ok "amq.gen-1"%string) None None.

(** A first call opens the session; a second one shares it. *)
Definition two_calls : list label :=
  [LStart; LStart; LCall 0 ALock; LCall 0 (ABarrier None); LCall 0 (AOpen all_well); LCall 1 ALock;
   LCall 0 (AEncode (Ok "a"%string) sample_encode_env); LCall 1 (AEncode (Ok "b"%string) sample_encode_env);
   LCall 0 (APublish None); LCall 1 (APublish None)].

(** The replies come back in the other order, one of them twice, and one to a
    call nobody made. *)
Definition replies_back : list label :=
  [LReply 0 (mkReply "b" DOk); LReply 0 (mkReply "z" DOk); LReply 0 (mkReply "a" DOk); LReply 0 (mkReply "a" DOk);
   LDispatch 0; LDispatch 0; LDispatch 0; LDispatch 0; LDispatch 0; LDispatch 0; LDispatch 0;
   LCall 0 AReply; LCall 1 AReply; LCall 0 ADelete; LCall 1 ADelete].

Definition run_of (ls : list label) : caller :=
  match steps ls (new_caller false 0) with Some s => s | None => new_caller false 0 end.

Lemma run_of_reachable ls :
  (match steps ls (new_caller false 0) with Some _ => true | None => false end) = true ->
  reachable false 0 (run_of ls).
Proof.
  unfold run_of. destruct (steps ls _) eqn:E; [|done]. intros _. eapply rpc_steps; [apply reach_new|exact E].
Qed.

Lemma call_gets_its_reply_witness :
  has_arrived (mkReply "a" DOk) (run_of (two_calls ++ replies_back)).
Proof.
  assert (∃ x, calls (run_of (two_calls ++ replies_back)) !! 0%nat = Some x
               ∧ phase x = PReturned (Replied (mkReply "a" DOk))) as (x & Hx & Hp)
    by (eexists; split; vm_compute; reflexivity).
  apply (call_gets_its_reply false 0 _ 0 x (mkReply "a" DOk)); [|exact Hx|exact Hp].
  apply run_of_reachable. by vm_compute.
Defined.

Lemma pending_exact_witness :
  pending (run_of two_calls) !! "b"%string = Some 1%nat
  ∧ pending (run_of (two_calls ++ replies_back)) !! "b"%string = None.
Proof.
  split; [|by vm_compute].
  apply (pending_exact false 0); [apply run_of_reachable; by vm_compute|].
  eexists. split_and!; vm_compute; reflexivity.
Defined.

(** The channel dies with a reply buffered and another in the dispatcher's hand. *)
Definition channel_dies : list label :=
  two_calls ++ [LReply 0 (mkReply "b" DOk); LReply 0 (mkReply "b" DOk); LDispatch 0; LChannelClosed 0].

Lemma call_never_stranded_witness :
  ∃ m s' x', (m <= 4)%nat
    ∧ steps (repeat (LDispatch 0) m ++ [LCall 0 ADone; LCall 0 ADelete]) (run_of channel_dies) = Some s'
    ∧ calls s' !! 0%nat = Some x' ∧ phase x' = PReturned (Failed (Sentinel ErrChannelClosed)).
Proof.
  assert (∃ x, calls (run_of channel_dies) !! 0%nat = Some x ∧ phase x = PWait 0) as (x & Hx & Hp)
    by (eexists; split; vm_compute; reflexivity).
  assert (∃ q, sessions (run_of channel_dies) !! 0%nat = Some q ∧ repliesClosed q = true
               ∧ length (replies q) = 1%nat) as (q & Hq & Hc & Hl)
    by (eexists; split_and!; vm_compute; reflexivity).
  destruct (call_never_stranded false 0 _ 0 x 0 q (run_of_reachable channel_dies eq_refl) Hx Hp Hq Hc)
    as (m & s' & x' & Hm & Hs & Hx' & Hp' & _).
  exists m, s', x'. rewrite Hl in Hm. auto.
Defined.

(** ** A deadline that is not observed *)

(** [Call] is documented to return [ErrCallTimeout] when its deadline fires,
    but it takes [c.mu] first, and a call that reopens the session holds
    [c.mu] through [waitBarrier]: a second call, its context done, can do
    nothing until the first one's barrier opens. *)
Lemma deadline_ignored_behind_reopen :
  ∃ s x, reachable false 0 s ∧ calls s !! 1%nat = Some x ∧ ctx x = true ∧ phase x = PLock
    ∧ ∀ arm, Call 1 arm s = None.
Proof.
  exists (run_of [LStart; LStart; LCall 0 ALock; LCtxDone 1]). eexists.
  split_and!; [apply run_of_reachable; by vm_compute|vm_compute; reflexivity|done|done|].
  intros []; vm_compute; try reflexivity; by destruct err.
Qed.

(** And a deadline that fires inside [waitBarrier] is returned as the barrier
    reports it, not as [ErrCallTimeout]. *)
Lemma barrier_error_returned_as_is err :
  ∃ s x, reachable false 0 s ∧ calls s !! 0%nat = Some x ∧ phase x = PReturned (Failed err).
Proof.
  exists (run_of [LStart; LCall 0 ALock; LCall 0 (ABarrier (Some err))]). eexists.
  split_and!; [apply run_of_reachable; by vm_compute|vm_compute; reflexivity|done].
Qed.
