(* ===== verification/Replier.v ===== *)
(** * Replier: the serving side of request/reply

    Models [src/rpc_replier.go]: the raw handler a [Replier] runs in its
    consumer, [nackDrop], and the confirm-tracked publisher of replies.  The
    raw handler is composed with the consumer's [dispatch] ([Consumer.v]), the
    reply with the confirm tracker and demultiplexer of [Publisher.v].

    Concurrent replies share one channel entry: between its critical section
    and the end of its wait, a reply sees the frames of the broker and the
    tracker operations of the other replies. *)

From S2P Require Import Prelude Errors Values Message Rpc Confirms XDeath Delivery Limiters Consumer Publisher.

Open Scope go_scope.

(** ** mapConfirmSentinel *)

Definition mapConfirmSentinel (err : error) : error :=
  if err_is err ConfirmsErrTimeout then Sentinel ErrConfirmTimeout
  else if err_is err ConfirmsErrNacked then Sentinel ErrPublishNacked
  else if err_is err ConfirmsErrClosed then Sentinel ErrChannelClosed
  else err.

(** ** replyPublisher *)

(** [entry] is the channel entry, [None] for the zero value; [open] as in the
    source; [closes] counts the channels closed. *)
Record replyPublisher : Type := mkReplyPub {
  rpEntry : entry;
  rpOpen : bool;
  rpCloses : nat
}.

(** What happens to the shared entry beside one reply: a frame of the broker,
    or a tracker operation of another reply. *)
Inductive happening : Type :=
| HFrame (d : demux)
| HOther (o : op).

Definition happen (en : entry) (h : happening) : entry :=
  match h with
  | HFrame d => demux_step en d
  | HOther o => set_tracker (exec o (tracker en)) en
  end.

Definition happens (hs : list happening) (en : entry) : entry := foldl happen en hs.

(** The environment of one publish. *)
Record reply_env : Type := mkReplyEnv {
  yEntryClosed : bool;               (* closeCh of the current entry *)
  yOpen : result error entry;        (* openEntry *)
  yTag : Z;                          (* GetNextPublishSeqNo *)
  yWriteErr : goerror;               (* PublishWithContext *)
  yEarly : list happening;           (* until Wait looks its slot up *)
  yLate : list happening;            (* until its select fires *)
  yWake : wake
}.

Definition ensureEntryLocked (y : reply_env) (rp : replyPublisher) : result error entry * replyPublisher :=
  let reopen rp :=
    match yOpen y with
    | Err err => (Err err, rp)
    | Ok e => (Ok e, mkReplyPub e true (rpCloses rp))
    end in
  if rpOpen rp then
    if yEntryClosed y then reopen (mkReplyPub (rpEntry rp) false (S (rpCloses rp)))
    else (Ok (rpEntry rp), rp)
  else reopen rp.

(** The confirm wait, on the entry of the critical section. *)
Definition await_confirm (confirmTimeout : Z) (y : reply_env) (e : entry) : option (goerror * entry) :=
  match Wait_lookup (yTag y) (tracker e) with
  | None => Some (Some (mapConfirmSentinel (Sentinel ConfirmsErrClosed)), e)
  | Some addr =>
      let e1 := happens (yLate y) e in
      match Wait_finish (yTag y) addr confirmTimeout (yWake y) (tracker e1) with
      | Some (werr, t) => Some (mapConfirmSentinel <$> werr, set_tracker t e1)
      | None => None
      end
  end.

(** The error, the publisher after the critical section, and the entry the
    reply used after its wait.  [None]: the wait never ends. *)
Definition publish (confirmTimeout : Z) (y : reply_env) (rp : replyPublisher)
  : option (goerror * replyPublisher * entry) :=
  match ensureEntryLocked y rp with
  | (Err err, rp1) => Some (Some err, rp1, rpEntry rp1)
  | (Ok e, rp1) =>
      match Register (yTag y) (tracker e) with
      | (Some rerr, t1) => Some (Some (mapConfirmSentinel rerr), rp1, set_tracker t1 e)
      | (None, t1) =>
          let e1 := happens (yEarly y) (set_tracker t1 e) in
          match yWriteErr y with
          | Some perr => Some (wrapAMQPError (Some perr), rp1, set_tracker (Cancel (yTag y) (tracker e1)) e1)
          | None =>
              match await_confirm confirmTimeout y e1 with
              | Some (err, e2) => Some (err, rp1, e2)
              | None => None
              end
          end
      end
  end.

Definition close (rp : replyPublisher) : replyPublisher :=
  if rpOpen rp then mkReplyPub (rpEntry rp) false (S (rpCloses rp)) else rp.

(** ** The raw handler *)

(** What the user and the metrics see. *)
Inductive notice : Type := NOnError (err : error) | NDropNoDLX.

Definition nackDrop (hasDLX closed : bool) (sendErr : goerror) : list notice * vcall :=
  (if hasDLX then [] else [NDropNoDLX], mkCall (FNack false false) closed sendErr).

(** What serving one request meets: the handler, the codec, the publish of the
    reply, and the channel at the verdict. *)
Record serve_env : Type := mkServe {
  vHandler : handler_outcome;
  vEncode : encode_env;
  vPublish : reply_env;
  vDone : bool;                  (* the consumer's closedCh, at the verdict *)
  vSend : goerror                (* the driver's answer to the verdict *)
}.

(** How the raw handler ends: its outcome, its verdicts, what it reported, the
    frame it published, and the reply publisher. *)
Record served : Type := mkServed {
  sOutcome : handler_outcome;
  sCalls : list vcall;
  sNotices : list notice;
  sReply : option (string * Publishing);
  sPub : replyPublisher
}.

Definition makeRawHandler (hasDLX hooked : bool) (confirmTimeout : Z) (v : serve_env)
    (replyTo correlationID : string) (rp : replyPublisher) : option served :=
  let onError err := if hooked then [NOnError err] else [] in
  let '(dropped, nack) := nackDrop hasDLX (vDone v) (vSend v) in
  let drop err := Some (mkServed (HReturn None) [nack] (onError err ++ dropped) None rp) in
  match vHandler v with
  | HPanic => Some (mkServed HPanic [] [] None rp)
  | HReturn (Some herr) => drop herr
  | HReturn None =>
      if decide (replyTo = ""%string) then drop (Wrap [Sentinel ErrInvalidMessage])
      else
        match encodeMessageBody (vEncode v) (rpc_message correlationID "") with
        | Err err => drop err
        | Ok (m, len) =>
            let frame := buildPublishing m len in
            match publish confirmTimeout (vPublish v) rp with
            | None => None
            | Some (Some _, rp1, _) =>
                Some (mkServed (HReturn None) [nack] dropped (Some (replyTo, frame)) rp1)
            | Some (None, rp1, _) =>
                Some (mkServed (HReturn None) [mkCall (FAck false) (vDone v) (vSend v)] []
                        (Some (replyTo, frame)) rp1)
            end
        end
  end.

(** ** Serving a request *)

(** The consumer [ReplierBuilder.Build] makes: no timeout, no redelivery cap,
    regular acks. *)
Definition request_config (queue tag : string) : Consumer.config :=
  mkConfig queue tag false 0 TimeoutNackNoRequeue 0 false false.

(** [ConsumeRaw] with the raw handler, on one delivery: what the handler did,
    if it ran, and the delivery after it. *)
Definition serve_one (queue tag : string) (hasDLX hooked : bool) (confirmTimeout : Z)
    (decode : decode_outcome) (chanClosed : bool) (v : serve_env) (replyTo : string) (raw : rawDelivery)
    (rp : replyPublisher) (s : dropSampler) : option (option served * Delivery) :=
  let run h calls :=
    (dispatch (request_config queue tag) false
       (mkEnv decode h calls [] chanClosed RHandler (vDone v) (vSend v)) raw ∅ s).1.1.2 in
  match safeDecodeConsumer decode with
  | Some _ => Some (None, run (HReturn None) [])
  | None =>
      match makeRawHandler hasDLX hooked confirmTimeout v replyTo (rCorrelationId raw) rp with
      | None => None
      | Some sv => Some (Some sv, run (sOutcome sv) (sCalls sv))
      end
  end.

(** ** Lemmas: other replies leave this one alone *)

(** The other replies hold other tags and other slots. *)
Definition foreign (tag : Z) (a : nat) (h : happening) : Prop :=
  match h with
  | HFrame _ => True
  | HOther (OpRegister x) | HOther (OpCancel x) | HOther (OpWaitDelete x) => x ≠ tag
  | HOther (OpWaitRecv b) => b ≠ a
  | HOther _ => False
  end.

Definition frame_of (h : happening) : list demux := match h with HFrame d => [d] | HOther _ => [] end.
Definition frames_of (hs : list happening) : list demux := hs ≫= frame_of.

Lemma Register_shape tag t :
  wf t -> closed t = false ->
  heap (Register tag t).2 = <[ fresh t := new_waiter ]> (heap t)
  ∧ pending (Register tag t).2 = <[ tag := fresh t ]> (pending t).
Proof.
  intros Hwf Hc. unfold Register. rewrite Hc. simpl. set (t0 := mkTracker _ _ _ _ _ _).
  assert (index_ok t0) as Hi1 by by destruct (wf_index_ok _ Hwf).
  destruct (orderInsert_spec tag t0 Hi1) as ((Hh1 & _ & Hp1 & _) & Hi2 & _).
  destruct (advanceLowWater_spec (orderInsert tag t0) Hi2) as ((Hh2 & _ & Hp2 & _) & _).
  by rewrite Hh2, Hh1, Hp2, Hp1.
Qed.

(** What another reply does to the slot of this one: nothing. *)
Lemma foreign_slot tag a o t w :
  wf t -> heap t !! a = Some w -> (∀ x, pending t !! x = Some a -> x = tag) -> foreign tag a (HOther o) ->
  heap (exec o t) !! a = Some w ∧ pending (exec o t) !! tag = pending t !! tag.
Proof.
  intros Hwf Hw Hu Hf. destruct o as [x| | | | |x|b|x]; simpl in Hf; try done; cbn [exec].
  - destruct (closed t) eqn:Hc; [unfold Register; by rewrite Hc|].
    destruct (Register_shape x t Hwf Hc) as [-> ->]. rewrite !lookup_insert_ne; try done.
    intros E. rewrite (wf_fresh t Hwf) in Hw by lia. done.
  - unfold Cancel. destruct (pending t !! x) as [b|] eqn:Hb; [|done]. simpl.
    rewrite lookup_delete_ne by done. rewrite lookup_alter_ne; [done|]. intros ->. by apply Hu in Hb.
  - unfold Wait_recv. destruct (heap t !! b) as [v|]; [|done]. destruct (done v); [|done]. simpl.
    by rewrite lookup_insert_ne.
  - simpl. by rewrite lookup_delete_ne.
Qed.

Definition single (o : op) : bool := match o with OpAck _ m | OpNack _ m => negb m | _ => true end.

(** No operation lets another tag point at an allocated slot. *)
Lemma exec_pending_sub o t x a :
  wf t -> single o = true -> is_Some (heap t !! a) -> pending (exec o t) !! x = Some a ->
  pending t !! x = Some a.
Proof.
  intros Hwf Hm [w Hw]. destruct o as [y|y code|y [|]|y [|]| |y|b|y]; try done; cbn [exec]; clear Hm.
  - destruct (closed t) eqn:Hc; [unfold Register; by rewrite Hc|].
    destruct (Register_shape y t Hwf Hc) as [_ ->]. intros [[_ <-]|[_ ?]]%lookup_insert_Some; [|done].
    rewrite (wf_fresh t Hwf) in Hw by lia. done.
  - unfold MarkReturned. by destruct (pending t !! y).
  - unfold Confirms.Ack, resolveOne. by case_match.
  - unfold Confirms.Nack, resolveOne. by case_match.
  - destruct (CloseAll_shape t Hwf) as (_ & -> & _). by intros [? _]%map_lookup_filter_Some.
  - unfold Cancel. case_match; [|done]. simpl. by intros [_ ?]%lookup_delete_Some.
  - unfold Wait_recv. destruct (heap t !! b) as [v|]; [|done]. by destruct (done v).
  - simpl. by intros [_ ?]%lookup_delete_Some.
Qed.

(** The slot of this reply, with its result; no other tag leads to it. *)
Record delivered (tag : Z) (a : nat) (r : goerror) (en : entry) : Prop := {
  de_settled : settled tag a r en;
  de_owner : ∀ x, pending (tracker en) !! x = Some a -> x = tag
}.

Lemma happen_exec tag a en h : foreign tag a h ->
  tracker (happen en h) = tracker en ∨ ∃ o, tracker (happen en h) = exec o (tracker en) ∧ single o = true.
Proof.
  destruct h as [d|o]; intros Hf.
  - simpl. rewrite demux_step_run. destruct d as [m c|x [|]|]; cbn [demux_op]; [case_decide; [|case_match]| | |];
      first [by left|right; eexists; split; reflexivity].
  - right. exists o. split; [done|]. by destruct o.
Qed.

Lemma owner_happen tag a en h :
  wf (tracker en) -> is_Some (heap (tracker en) !! a) -> foreign tag a h ->
  (∀ x, pending (tracker en) !! x = Some a -> x = tag) ->
  ∀ x, pending (tracker (happen en h)) !! x = Some a -> x = tag.
Proof.
  intros Hwf Ha Hf Ho x Hx. apply Ho. destruct (happen_exec _ _ en h Hf) as [E|(o & E & Hs)];
    rewrite E in Hx; [done|by eapply exec_pending_sub].
Qed.

Lemma delivered_happen tag a r en h :
  delivered tag a r en -> foreign tag a h -> delivered tag a r (happen en h).
Proof.
  intros [Hs Ho] Hf. pose proof Hs as [Hwf (w & Hw & Hd & Hc) Hp]. split.
  - destruct h as [d|o]; [by apply settled_step|]. simpl.
    destruct (foreign_slot tag a o (tracker en) w Hwf Hw Ho Hf) as [H1 H2].
    constructor; simpl; [by apply exec_refines|by exists w|by rewrite H2].
  - by apply owner_happen.
Qed.

Lemma unresolved_happen tag a en o :
  unresolved false "" tag a None en -> foreign tag a (HOther o) ->
  unresolved false "" tag a None (happen en (HOther o)).
Proof.
  intros [Hwf Hp Hh Hm] Hf. simpl.
  destruct (foreign_slot tag a o (tracker en) _ Hwf Hh) as [H1 H2];
    [intros x Hx; by eapply (wf_inj _ Hwf)|done|].
  constructor; simpl; [by apply exec_refines|by rewrite H2|done|done].
Qed.

Lemma delivered_happens hs tag a r en :
  delivered tag a r en -> Forall (foreign tag a) hs -> delivered tag a r (happens hs en).
Proof.
  revert en. induction hs as [|h hs IH]; intros en Hd Hf; [done|]. inversion Hf; subst.
  simpl. apply IH; [by apply delivered_happen|done].
Qed.

Lemma unresolved_frame tag a en d :
  unresolved false "" tag a None en ->
  match expected false "" tag None [d] with
  | Some res => ∃ r, delivered tag a r (demux_step en d) ∧ mapConfirmSentinel <$> r = res
  | None => unresolved false "" tag a None (demux_step en d)
  end.
Proof.
  intros Hu. pose proof Hu as [Hwf Hp Hh Hm].
  assert (∀ r, settled tag a r (demux_step en d) -> delivered tag a r (demux_step en d)) as Hd.
  { intros r Hs. split; [done|]. apply (owner_happen tag a en (HFrame d)); [done|by eexists|done|].
    intros x Hx. by eapply (wf_inj _ Hwf). }
  destruct d as [m code|x ack|]; cbn [expected].
  - pose proof (unresolved_return _ _ _ _ _ _ m code Hu) as H. rewrite decide_False in H by naive_solver.
    by rewrite decide_False by naive_solver.
  - case_decide as Hx; [subst x|by apply unresolved_other_confirm].
    exists (raw_result None ack). split; [by eapply Hd, unresolved_confirm|by destruct ack].
  - exists (Some (Sentinel ConfirmsErrClosed)). split; [by eapply Hd, unresolved_closed|done].
Qed.

(** Whatever the other replies do, the result is the one read off the frames. *)
Lemma happens_expected tag a hs en :
  unresolved false "" tag a None en -> Forall (foreign tag a) hs ->
  match expected false "" tag None (frames_of hs) with
  | Some res => ∃ r, delivered tag a r (happens hs en) ∧ mapConfirmSentinel <$> r = res
  | None => unresolved false "" tag a None (happens hs en)
  end.
Proof.
  revert en. induction hs as [|h hs IH]; intros en Hu Hf; [done|]. inversion Hf; subst.
  destruct h as [d|o]; [|by apply IH; [by apply unresolved_happen|]].
  pose proof (unresolved_frame tag a en d Hu) as Hs.
  change (frames_of (HFrame d :: hs)) with (d :: frames_of hs).
  change (happens (HFrame d :: hs) en) with (happens hs (demux_step en d)).
  destruct d as [m code|x ack|]; cbn [expected] in *.
  - rewrite decide_False in Hs |- * by naive_solver. by apply IH.
  - case_decide; [|by apply IH]. destruct Hs as (r & Hd & Hr). exists r.
    split; [by apply delivered_happens|done].
  - destruct Hs as (r & Hd & Hr). exists r. split; [by apply delivered_happens|done].
Qed.

(** ** Lemmas: the publish of a reply *)

(** The driver never repeats a sequence number on a channel, and the other
    replies hold other ones. *)
Definition undisturbed (y : reply_env) (e : entry) : Prop :=
  idle (yTag y) e ∧ Forall (foreign (yTag y) (fresh (tracker e))) (yEarly y ++ yLate y).

Lemma happens_app hs1 hs2 en : happens (hs1 ++ hs2) en = happens hs2 (happens hs1 en).
Proof. apply foldl_app. Qed.

Lemma frames_of_app hs1 hs2 : frames_of (hs1 ++ hs2) = frames_of hs1 ++ frames_of hs2.
Proof. unfold frames_of. by rewrite bind_app. Qed.

Lemma Register_idle y e : undisturbed y e ->
  ∃ t1, Register (yTag y) (tracker e) = (None, t1)
    ∧ unresolved false "" (yTag y) (fresh (tracker e)) None (set_tracker t1 e).
Proof. intros [(Hwf & Hc & Hm) _]. by apply (Register_unresolved false ""). Qed.

(** The wait of a reply whose result is in its slot, or not. *)
Lemma await_delivered ct y e a r :
  yWake y = WakeDone -> delivered (yTag y) a r e -> Forall (foreign (yTag y) a) (yLate y) ->
  fst <$> await_confirm ct y e = Some (mapConfirmSentinel <$> r).
Proof.
  intros Hw Hd Hf. unfold await_confirm, Wait_lookup. rewrite Hw.
  destruct (se_slot _ _ _ _ (de_settled _ _ _ _ Hd)) as [Hp|[Hp ->]]; rewrite Hp; [|done].
  destruct (settled_recv _ _ _ _ ct (de_settled _ _ _ _ (delivered_happens _ _ _ _ _ Hd Hf))) as [E _].
  destruct (Wait_finish _ _ _ _ _) as [[werr t]|]; simplify_eq/=. done.
Qed.

Lemma await_expected ct y e a :
  yWake y = WakeDone -> unresolved false "" (yTag y) a None e -> Forall (foreign (yTag y) a) (yLate y) ->
  fst <$> await_confirm ct y e = expected false "" (yTag y) None (frames_of (yLate y)).
Proof.
  intros Hw Hu Hf. unfold await_confirm, Wait_lookup. rewrite (un_pending _ _ _ _ _ _ Hu), Hw.
  pose proof (happens_expected _ _ (yLate y) e Hu Hf) as He.
  destruct (expected _ _ _ _ _) as [res|].
  - destruct He as (r & Hd & <-). destruct (settled_recv _ _ _ _ ct (de_settled _ _ _ _ Hd)) as [E _].
    destruct (Wait_finish _ _ _ _ _) as [[werr t]|]; simplify_eq/=. done.
  - by rewrite (unresolved_blocks _ _ _ _ _ _ ct He).
Qed.

Lemma expected_settled_app mandatory mid tag ret ds1 ds2 res :
  expected mandatory mid tag ret ds1 = Some res -> expected mandatory mid tag ret (ds1 ++ ds2) = Some res.
Proof.
  intros H. destruct (expected_app mandatory mid tag ret ds1 ds2) as [(r & E1 & E2)|E]; congruence.
Qed.

Lemma expected_open_app tag ds1 ds2 :
  expected false "" tag None ds1 = None ->
  expected false "" tag None (ds1 ++ ds2) = expected false "" tag None ds2.
Proof.
  induction ds1 as [|[m code|x ack|] ds1 IH]; cbn [app expected]; [done| | |done].
  - rewrite !decide_False by naive_solver. apply IH.
  - by case_decide.
Qed.

Lemma publish_frames ct y rp e rp1 :
  ensureEntryLocked y rp = (Ok e, rp1) -> undisturbed y e -> yWriteErr y = None -> yWake y = WakeDone ->
  (fun x => x.1.1) <$> publish ct y rp = expected false "" (yTag y) None (frames_of (yEarly y ++ yLate y)).
Proof.
  intros He Hu Hw Hk. unfold publish. rewrite He, Hw. destruct (Register_idle y e Hu) as (t1 & -> & H1).
  destruct Hu as [_ [Hf1 Hf2]%Forall_app]. rewrite frames_of_app.
  pose proof (happens_expected _ _ _ _ H1 Hf1) as Hx.
  destruct (expected _ _ _ _ (frames_of (yEarly y))) as [res|] eqn:E.
  - destruct Hx as (r & Hd & <-). pose proof (await_delivered ct y _ _ _ Hk Hd Hf2) as Ha.
    rewrite (expected_settled_app _ _ _ _ _ _ _ E).
    destruct (await_confirm _ _ _) as [[err e2]|]; simplify_eq/=. done.
  - rewrite (expected_open_app _ _ _ E). pose proof (await_expected ct y _ _ Hk Hx Hf2) as Ha. rewrite <- Ha.
    by destruct (await_confirm _ _ _) as [[err e2]|].
Qed.

(** A nil result only comes from the slot. *)
Lemma publish_nil_wake ct y rp rp1 e2 e :
  publish ct y rp = Some (None, rp1, e2) -> (ensureEntryLocked y rp).1 = Ok e -> undisturbed y e ->
  yWriteErr y = None ∧ yWake y = WakeDone.
Proof.
  unfold publish. destruct (ensureEntryLocked y rp) as [[e'|] rp']; [|done]. simpl. intros H [= ->] Hu.
  destruct (Register_idle y e Hu) as (t1 & Hr & _). rewrite Hr in H.
  destruct (yWriteErr y) as [err|].
  { exfalso. injection H as H _ _. unfold wrapAMQPError in H. repeat case_match; simplify_eq. }
  split; [done|]. unfold await_confirm in H. destruct (Wait_lookup _ _); [|done].
  destruct (yWake y) as [| |err]; [done| |]; unfold Wait_finish in H; repeat case_match; simplify_eq/=.
Qed.

Lemma publish_nil_confirmed ct y rp rp1 e2 :
  publish ct y rp = Some (None, rp1, e2) -> (∀ e, (ensureEntryLocked y rp).1 = Ok e -> undisturbed y e) ->
  ∃ pre post, frames_of (yEarly y ++ yLate y) = pre ++ DConfirm (yTag y) true :: post
    ∧ (∀ ack, DConfirm (yTag y) ack ∉ pre) ∧ DClosed ∉ pre.
Proof.
  intros H Hu. destruct (ensureEntryLocked y rp) as [[e|err] rp'] eqn:E;
    [|unfold publish in H; rewrite E in H; simplify_eq].
  specialize (Hu e eq_refl). destruct (publish_nil_wake ct y rp rp1 e2 e H) as [Hw Hk]; [by rewrite E|done|].
  pose proof (publish_frames ct y rp e rp' E Hu Hw Hk) as Hp. rewrite H in Hp. symmetry in Hp. simpl in Hp.
  apply expected_nil in Hp as (_ & pre & post & Hp & H1 & H2 & _). eauto 10.
Qed.

(** ** Lemmas: serving *)

Lemma request_dispatch queue tag e raw s :
  (dispatch (request_config queue tag) false e raw ∅ s).1.1.2
  = match safeDecodeConsumer (eDecode e) with
    | Some _ => send_frame (FNack false false) (newDelivery queue raw true)
    | None => run_calls (eCalls e) (newDelivery queue raw true)
    end.
Proof.
  unfold dispatch, request_config. simpl. destruct (safeDecodeConsumer (eDecode e)); [done|].
  unfold handler_returned, settleVerdict. simpl. by destruct (eChanClosed e), (safeCallHandler (eHandler e)).
Qed.

Lemma one_call_frames queue raw c :
  frames (run_calls [c] (newDelivery queue raw true)) = if vClosed c then [] else [vFrame c].
Proof.
  unfold run_calls, verdict, newDelivery. simpl. destruct (vClosed c); [done|]. by destruct (vSendErr c).
Qed.

(** The reply could be built: the handler answered, the request says where to,
    and the answer encodes. *)
Definition answerable (v : serve_env) (replyTo correlationID : string) : bool :=
  match vHandler v with
  | HReturn None => negb (bool_decide (replyTo = ""%string))
      && match encodeMessageBody (vEncode v) (rpc_message correlationID "") with Ok _ => true | Err _ => false end
  | _ => false
  end.

Definition published_ok (ct : Z) (v : serve_env) (rp : replyPublisher) : bool :=
  match publish ct (vPublish v) rp with Some (None, _, _) => true | _ => false end.

Lemma makeRawHandler_spec hasDLX hooked ct v replyTo cid rp sv :
  vHandler v ≠ HPanic -> makeRawHandler hasDLX hooked ct v replyTo cid rp = Some sv ->
  let acks := answerable v replyTo cid && published_ok ct v rp in
  sOutcome sv = HReturn None
  ∧ sCalls sv = [mkCall (if acks then FAck false else FNack false false) (vDone v) (vSend v)]
  ∧ ((∃ err, NOnError err ∈ sNotices sv) <-> hooked = true ∧ answerable v replyTo cid = false)
  ∧ (NDropNoDLX ∈ sNotices sv <-> hasDLX = false ∧ acks = false)
  ∧ (sReply sv ≠ None <-> answerable v replyTo cid = true)
  ∧ (∀ to f, sReply sv = Some (to, f) -> to = replyTo ∧ pCorrelationId f = cid).
Proof.
  intros Hp H. unfold makeRawHandler in H. unfold answerable, published_ok. cbn [nackDrop] in H.
  destruct (vHandler v) as [[herr|]|]; [| |done].
  - injection H as <-. destruct hasDLX, hooked; simpl; split_and!; set_solver.
  - case_decide as Hr.
    { injection H as <-. rewrite bool_decide_true by done. destruct hasDLX, hooked; simpl; split_and!; set_solver. }
    rewrite bool_decide_false by done. cbn [negb andb].
    destruct (encodeMessageBody _ _) as [[m len]|err] eqn:Em.
    2:{ injection H as <-. destruct hasDLX, hooked; simpl; split_and!; set_solver. }
    apply rpc_frame in Em as [Ec _].
    destruct (publish _ _ _) as [[[[e|] rp1] e2]|]; [| |done]; injection H as <-; simpl.
    + destruct hasDLX, hooked; simpl; split_and!; try set_solver; by intros ? ? [= <- <-].
    + split_and!; try set_solver; by intros ? ? [= <- <-].
Qed.

(** ** Lemmas: the publisher's map of errors *)

Lemma map_agrees err : as_unroutable err = None -> mapConfirmError err = mapConfirmSentinel err.
Proof. intros H. unfold mapConfirmError, mapConfirmSentinel. by rewrite H. Qed.

Lemma happens_frames ds en : happens (HFrame <$> ds) en = demux_run ds en.
Proof. revert en. induction ds as [|d ds IH]; intros en; [done|]. apply IH. Qed.

Lemma frames_of_frames ds : frames_of (HFrame <$> ds) = ds.
Proof. induction ds as [|d ds IH]; [done|]. unfold frames_of in *. cbn. by rewrite IH. Qed.

(** What a reply finds in its slot is never a return. *)
Lemma reply_never_unroutable tag a ds en r :
  unresolved false "" tag a None en -> Forall (foreign tag a) (HFrame <$> ds) ->
  settled tag a r (demux_run ds en) -> mapConfirmError <$> r = mapConfirmSentinel <$> r.
Proof.
  intros Hu Hf Hs. pose proof (demux_run_expected _ _ _ _ ds _ _ Hu) as H1.
  pose proof (happens_expected _ _ _ _ Hu Hf) as H2. rewrite happens_frames, frames_of_frames in H2.
  destruct Hs as [_ (w & Hw & Hd & _) _].
  destruct (expected _ _ _ _ _) as [res|].
  - destruct H1 as (r1 & [_ (w1 & Hw1 & Hd1 & _) _] & E1), H2 as (r2 & [[_ (w2 & Hw2 & Hd2 & _) _] _] & E2).
    congruence.
  - pose proof (un_heap _ _ _ _ _ _ H2). simplify_eq/=.
Qed.

(** The slot a wait looks up and receives from is the one its reply registered. *)
Lemma recv_agrees tag a b ds1 ds2 en err t :
  unresolved false "" tag a None en -> Wait_lookup tag (tracker (demux_run ds1 en)) = Some b ->
  Wait_recv b (tracker (demux_run (ds1 ++ ds2) en)) = Some (err, t) ->
  mapConfirmError <$> err = mapConfirmSentinel <$> err.
Proof.
  intros Hu Hl Hr. assert (∀ ds c, Forall (foreign tag c) (HFrame <$> ds)) as Hf
    by (intros ds c; apply Forall_fmap, Forall_true; done).
  assert (b = a) as ->.
  { pose proof (happens_expected _ _ _ _ Hu (Hf ds1 a)) as H. rewrite happens_frames in H. unfold Wait_lookup in Hl.
    destruct (expected _ _ _ _ _); [destruct H as (r & [[_ _ [Hs|[Hs _]]] _] & _)|apply un_pending in H]; congruence. }
  pose proof (happens_expected _ _ _ _ Hu (Hf (ds1 ++ ds2) a)) as H. rewrite happens_frames in H.
  unfold Wait_recv in Hr. destruct (expected _ _ _ _ _).
  - destruct H as (r & [Hs _] & _). pose proof Hs as [_ (w & Hw & Hd & _) _]. rewrite Hw, Hd in Hr.
    injection Hr as <- _. by eapply reply_never_unroutable.
  - by rewrite (un_heap _ _ _ _ _ _ H) in Hr.
Qed.

(** The three ways of a request: it does not decode, the handler panics, or the
    raw handler gives its one verdict. *)
Inductive serving (hasDLX hooked : bool) (ct : Z) (decode : decode_outcome) (v : serve_env) (replyTo : string)
    (raw : rawDelivery) (rp : replyPublisher) : option served -> list Delivery.frame -> Prop :=
| ServeUndecodable err :
    safeDecodeConsumer decode = Some err ->
    serving hasDLX hooked ct decode v replyTo raw rp None [FNack false false]
| ServePanic :
    safeDecodeConsumer decode = None -> vHandler v = HPanic ->
    serving hasDLX hooked ct decode v replyTo raw rp (Some (mkServed HPanic [] [] None rp)) []
| ServeVerdict sv :
    safeDecodeConsumer decode = None -> vHandler v ≠ HPanic ->
    makeRawHandler hasDLX hooked ct v replyTo (rCorrelationId raw) rp = Some sv ->
    serving hasDLX hooked ct decode v replyTo raw rp (Some sv)
      (if vDone v then []
       else [if answerable v replyTo (rCorrelationId raw) && published_ok ct v rp then FAck false
             else FNack false false]).

Lemma serve_one_serving queue tag hasDLX hooked ct decode chanClosed v replyTo raw rp s osv d :
  serve_one queue tag hasDLX hooked ct decode chanClosed v replyTo raw rp s = Some (osv, d) ->
  serving hasDLX hooked ct decode v replyTo raw rp osv (frames d).
Proof.
  unfold serve_one. destruct (safeDecodeConsumer decode) as [err|] eqn:Hd.
  { intros [= <- <-]. rewrite request_dispatch. simpl. rewrite Hd. by econstructor. }
  destruct (makeRawHandler _ _ _ _ _ _ _) as [sv|] eqn:Hm; [|done].
  intros [= <- <-]. rewrite request_dispatch. simpl. rewrite Hd.
  assert (vHandler v = HPanic ∨ vHandler v ≠ HPanic) as [Hp|Hp] by (destruct (vHandler v); auto).
  - pose proof Hm as Hm'. unfold makeRawHandler in Hm'. rewrite Hp in Hm'. cbn [nackDrop] in Hm'.
    injection Hm' as <-. by constructor.
  - destruct (makeRawHandler_spec _ _ _ _ _ _ _ _ Hp Hm) as (_ & Hc & _).
    rewrite Hc, one_call_frames. simpl. by constructor.
Qed.

(** ** Properties *)

(** The publish of a reply reports exactly what the broker said of its own
    delivery tag, whatever the replies that share the channel do in the
    meantime: its result is the one read off the frames of the broker, and it
    keeps waiting exactly while those settle nothing. *)
Lemma reply_publish_exact ct y rp e rp1 :
  ensureEntryLocked y rp = (Ok e, rp1) -> undisturbed y e -> yWriteErr y = None -> yWake y = WakeDone ->
  (fun x => x.1.1) <$> publish ct y rp
  = expected false "" (yTag y) None (frames_of (yEarly y ++ yLate y)).
Proof. apply publish_frames. Qed.

(** C22. The replier's own publish routine is the publisher's attempt without
    [mandatory]: on the entry it got, with the same frames, write result and
    wake-up, it returns the same error and leaves the tracker in the same
    state, although it maps the tracker's errors without the case of an
    unroutable message. *)
Theorem reply_publish_is_publishOnce ct mid y rp e rp1 ds1 ds2 :
  ensureEntryLocked y rp = (Ok e, rp1) -> idle (yTag y) e ->
  yEarly y = HFrame <$> ds1 -> yLate y = HFrame <$> ds2 ->
  (∀ err, yWake y = WakeCtx err -> as_unroutable err = None) ->
  publish ct y rp
  = (fun x => (x.1, rp1, x.2))
      <$> publishOnce false ct mid
            (mkAttempt None None None (yTag y) (yWriteErr y) ds1 ds2 (yWake y)) e.
Proof.
  intros He Hi E1 E2 Hctx. rewrite publishOnce_reached by done. unfold publish, publish_on. rewrite He. simpl.
  assert (∀ ds a, Forall (foreign (yTag y) a) (HFrame <$> ds)) as Hf
    by (intros ds a; apply Forall_fmap, Forall_true; done).
  destruct (Register_idle y e) as (t1 & -> & Hu); [split; [done|]; rewrite E1, E2, <- fmap_app; apply Hf|].
  rewrite E1, happens_frames. destruct (yWriteErr y); [done|]. unfold await_confirm. rewrite E2.
  destruct (Wait_lookup _ _) as [a|] eqn:Hl; [|done]. rewrite happens_frames, <- demux_run_app.
  destruct (Wait_finish _ _ _ _ _) as [[werr t]|] eqn:Hw; [|done]. simpl.
  do 3 f_equal. symmetry. destruct (yWake y) as [| |cerr]; simpl in Hw.
  - destruct (Wait_recv _ _) as [[r t']|] eqn:Hr; [|done]. injection Hw as -> _. by eapply recv_agrees.
  - case_decide; by simplify_eq.
  - injection Hw as <- _. simpl. by rewrite map_agrees by auto.
Qed.

(** C20. The replier acks a request only once its answer is safe: the frame went
    out to the address the request named, with the request's correlation id,
    and the broker confirmed the very delivery tag of that frame, with no nack
    of it and no close of the channel before. *)
Theorem replier_acks_after_confirm queue tag hasDLX hooked ct decode chanClosed v replyTo raw rp s osv d :
  serve_one queue tag hasDLX hooked ct decode chanClosed v replyTo raw rp s = Some (osv, d) ->
  (∀ e, (ensureEntryLocked (vPublish v) rp).1 = Ok e -> undisturbed (vPublish v) e) ->
  FAck false ∈ frames d ->
  ∃ sv f pre post, osv = Some sv ∧ sReply sv = Some (replyTo, f) ∧ replyTo ≠ ""%string
    ∧ pCorrelationId f = rCorrelationId raw ∧ vHandler v = HReturn None
    ∧ frames_of (yEarly (vPublish v) ++ yLate (vPublish v)) = pre ++ DConfirm (yTag (vPublish v)) true :: post
    ∧ (∀ ack, DConfirm (yTag (vPublish v)) ack ∉ pre) ∧ DClosed ∉ pre.
Proof.
  intros H Hu Hin. apply serve_one_serving in H. revert Hin.
  destruct H as [err He|Hd Hp|sv Hd Hp Hm]; [set_solver|set_solver|]. intros Hin.
  destruct (makeRawHandler_spec _ _ _ _ _ _ _ _ Hp Hm) as (_ & _ & _ & _ & Hr & Hs).
  destruct (vDone v); [set_solver|].
  destruct (answerable v replyTo (rCorrelationId raw)) eqn:Ha; [|set_solver].
  destruct (published_ok ct v rp) eqn:Hok; [|set_solver].
  destruct (sReply sv) as [[to f]|] eqn:E; [|by destruct (proj2 Hr eq_refl)].
  destruct (Hs to f eq_refl) as [-> Hc]. unfold published_ok in Hok.
  destruct (publish _ _ _) as [[[[|] rp1] e2]|] eqn:Hpub; try done.
  destruct (publish_nil_confirmed _ _ _ _ _ Hpub Hu) as (pre & post & H1 & H2 & H3).
  exists sv, f, pre, post. unfold answerable in Ha. destruct (vHandler v) as [[|]|]; try done.
  apply andb_true_iff in Ha as [Ha _]. apply negb_true_iff, bool_decide_eq_false in Ha. done.
Qed.

(** C21. Every request that reaches the handler and whose handler returns gets
    one verdict, and every way of not answering is reported as documented:
    [Ack] exactly when the reply was built and confirmed, else [Nack] without
    requeue; [OnError] exactly when the handler failed, the request names no
    address or the answer does not encode, and never for a reply the broker
    did not confirm; the drop metric on every [Nack] unless a dead-letter
    exchange is known. *)
Theorem replier_accounts queue tag hasDLX hooked ct decode chanClosed v replyTo raw rp s osv d :
  serve_one queue tag hasDLX hooked ct decode chanClosed v replyTo raw rp s = Some (osv, d) ->
  safeDecodeConsumer decode = None -> vHandler v ≠ HPanic ->
  let ok := answerable v replyTo (rCorrelationId raw) in
  let acks := ok && published_ok ct v rp in
  ∃ sv, osv = Some sv
    ∧ frames d = (if vDone v then [] else [if acks then FAck false else FNack false false])
    ∧ ((∃ err, NOnError err ∈ sNotices sv) <-> hooked = true ∧ ok = false)
    ∧ (NDropNoDLX ∈ sNotices sv <-> hasDLX = false ∧ acks = false)
    ∧ (sReply sv ≠ None <-> ok = true).
Proof.
  intros H Hd Hp. apply serve_one_serving in H. destruct H as [err|Hd' Hp'|sv _ _ Hm]; [congruence|done|].
  destruct (makeRawHandler_spec _ _ _ _ _ _ _ _ Hp Hm) as (_ & _ & H1 & H2 & H3 & _).
  by exists sv.
Qed.

(** ** What the documentation says otherwise *)

(** A handler that panics leaves its request without a verdict: neither acked
    nor nacked, no [OnError], no drop metric; the request stays with the
    consumer until the channel closes. *)
Lemma replier_panic_strands queue tag hasDLX hooked ct chanClosed v replyTo raw rp s :
  vHandler v = HPanic ->
  ∃ sv d, serve_one queue tag hasDLX hooked ct DOk chanClosed v replyTo raw rp s = Some (Some sv, d)
    ∧ frames d = [] ∧ resolved d = false ∧ sNotices sv = [].
Proof.
  intros Hp. unfold serve_one. simpl. unfold makeRawHandler. rewrite Hp. cbn [nackDrop].
  eexists _, _. split; [reflexivity|]. by rewrite request_dispatch.
Qed.

(** A request that does not decode is nacked without requeue by the consumer,
    which knows nothing of the replier's metric: no handler, no [OnError], no
    [replier_drop_no_dlx_total], whether or not a dead-letter exchange is known. *)
Lemma undecodable_drop_uncounted queue tag hasDLX hooked ct err chanClosed v replyTo raw rp s :
  ∃ d, serve_one queue tag hasDLX hooked ct (DErr err) chanClosed v replyTo raw rp s = Some (None, d)
    ∧ frames d = [FNack false false]
    ∧ EDropNoDLX ∉ (dispatch (request_config queue tag) false
                      (mkEnv (DErr err) (HReturn None) [] [] chanClosed RHandler (vDone v) (vSend v)) raw ∅ s).1.1.1.
Proof.
  unfold serve_one. simpl. eexists. split; [reflexivity|]. split; [done|]. set_solver.
Qed.

(** ** Witnesses *)

Definition closed_pub : replyPublisher := mkReplyPub entry0 false 0.

(** A reply with tag 2; another one, with tag 3, is registered, nacked and
    collected while it waits. *)
Definition busy : reply_env :=
  mkReplyEnv false (Ok entry0) 2 None [HOther (OpRegister 3); HFrame (DConfirm 1 false)]
    [HFrame (DConfirm 3 false); HOther (OpWaitRecv 1); HOther (OpWaitDelete 3); HFrame (DConfirm 2 true)] WakeDone.

Lemma busy_undisturbed : undisturbed busy entry0.
Proof. split; [apply idle0|]. repeat constructor; simpl; lia. Qed.

Definition quiet : reply_env :=
  mkReplyEnv false (Ok entry0) 2 None (HFrame <$> [DConfirm 1 false]) (HFrame <$> [DConfirm 2 false]) WakeDone.

Definition answers : serve_env := mkServe (HReturn None) sample_encode_env busy false None.

Definition request : rawDelivery := mkRaw 4 "m-4" "cid-4" None false 10.

Lemma reply_publish_exact_witness : (fun x => x.1.1) <$> publish 0 busy closed_pub = Some None.
Proof.
  rewrite (reply_publish_exact 0 busy closed_pub entry0 (mkReplyPub entry0 true 0));
    [reflexivity|reflexivity|apply busy_undisturbed|reflexivity|reflexivity].
Defined.

Lemma reply_publish_is_publishOnce_witness :
  publish 0 quiet closed_pub
  = (fun x => (x.1, mkReplyPub entry0 true 0, x.2))
      <$> publishOnce false 0 "m"
            (mkAttempt None None None 2 None [DConfirm 1 false] [DConfirm 2 false] WakeDone) entry0
  ∧ ∃ rp e, publish 0 quiet closed_pub = Some (Some (Sentinel ErrPublishNacked), rp, e).
Proof.
  split.
  - apply (reply_publish_is_publishOnce 0 "m" quiet closed_pub entry0); [reflexivity|apply idle0|done|done|done].
  - eexists _, _. vm_compute. reflexivity.
Defined.

Lemma replier_acks_witness :
  ∃ sv d, serve_one "q" "t" false true 0 DOk false answers "reply" request closed_pub sampler0 = Some (Some sv, d)
    ∧ frames d = [FAck false] ∧ ∃ f, sReply sv = Some ("reply"%string, f) ∧ pCorrelationId f = "cid-4"%string.
Proof.
  destruct (serve_one "q" "t" false true 0 DOk false answers "reply" request closed_pub sampler0)
    as [[osv d]|] eqn:E; [|by vm_compute in E].
  assert (frames d = [FAck false]) as Hf by (vm_compute in E; by injection E as _ <-).
  destruct (replier_acks_after_confirm "q" "t" false true 0 DOk false answers "reply" request closed_pub sampler0
              osv d E) as (sv & f & pre & post & -> & Hr & _ & Hc & _).
  - intros e [= <-]. apply busy_undisturbed.
  - rewrite Hf. by constructor.
  - exists sv, d. eauto.
Defined.

(** A handler that fails, on a queue with no known dead-letter exchange. *)
Lemma replier_accounts_witness :
  ∃ sv d, serve_one "q" "t" false true 0 DOk false
            (mkServe (HReturn (Some (OtherError 7))) sample_encode_env quiet false None)
            "reply" request closed_pub sampler0 = Some (Some sv, d)
    ∧ frames d = [FNack false false] ∧ NDropNoDLX ∈ sNotices sv ∧ sReply sv = None.
Proof.
  set (v := mkServe (HReturn (Some (OtherError 7))) sample_encode_env quiet false None).
  destruct (serve_one "q" "t" false true 0 DOk false v "reply" request closed_pub sampler0)
    as [[osv d]|] eqn:E; [|by vm_compute in E].
  destruct (replier_accounts "q" "t" false true 0 DOk false v "reply" request closed_pub sampler0 osv d E)
    as (sv & -> & Hf & _ & Hd & Hr); [reflexivity|done|].
  exists sv, d. split; [reflexivity|]. split; [exact Hf|]. split; [by apply Hd|].
  destruct (sReply sv) as [p|]; [|done]. assert (Some p ≠ None) as Hp by done. apply Hr in Hp. by vm_compute in Hp.
Defined.
