(* ===== verification/BatchConsumer.v ===== *)
(** * BatchConsumer: batches, their verdict and the consume loop

    Models [src/batch_consumer.go], [requeueUndispatched] of
    [src/consumer.go] and the fixtures of [src/fixture.go].  A batch shares its deliveries with the handler, which
    may acknowledge the batch or single deliveries while [flush] waits for it;
    the handler's actions are the environment, split at the points where
    [flush] reads or writes [batch.acked] under the mutex.  The consume loop is
    one goroutine: each iteration of its select is one step. *)

From S2P Require Import Prelude Errors Values XDeath Limiters Delivery Consumer.

(** ** Batch *)

(** [sent] is the history of the frames handed to the driver for this batch,
    each with its delivery tag. *)
Record Batch : Type := mkBatch {
  deliveries : list Delivery;
  acked : bool;
  sent : list (Z * frame)
}.

Definition set_acked (b : Batch) : Batch := mkBatch (deliveries b) true (sent b).

Definition log_frame (tag : Z) (f : frame) (b : Batch) : Batch :=
  mkBatch (deliveries b) (acked b) (sent b ++ [(tag, f)]).

Definition dTag (d : Delivery) : Z := rTag (dRaw d).

(** The scan of [highest] past the first delivery. *)
Definition highest_from (h : Delivery) (ds : list Delivery) : Delivery :=
  foldl (fun h d => if decide (dTag h < dTag d) then d else h) h ds.

Definition highest (b : Batch) : option Delivery :=
  match deliveries b with
  | [] => None
  | d :: ds => Some (highest_from d ds)
  end.

(** [ackAll] and [nackAll]: one frame on the highest tag. *)
Definition frame_all (f : frame) (sendErr : goerror) (b : Batch) : goerror * Batch :=
  match highest b with
  | None => (None, b)
  | Some h => (mapAckErr <$> sendErr, log_frame (dTag h) f b)
  end.

Definition ackAll : goerror -> Batch -> goerror * Batch := frame_all (FAck true).

Definition nackAll (requeue : bool) : goerror -> Batch -> goerror * Batch := frame_all (FNack true requeue).

Definition Batch_Ack (sendErr : goerror) (b : Batch) : goerror * Batch :=
  if acked b then (None, b) else ackAll sendErr (set_acked b).

Definition Batch_Nack (requeue : bool) (sendErr : goerror) (b : Batch) : goerror * Batch :=
  if acked b then (None, b) else nackAll requeue sendErr (set_acked b).

(** ** What a handler may do with its batch *)

Inductive act : Type :=
| ABatchAck (sendErr : goerror)
| ABatchNack (requeue : bool) (sendErr : goerror)
| AAck (i : nat) (closed : bool) (sendErr : goerror)
| ANack (i : nat) (requeue closed : bool) (sendErr : goerror).

(** [Ack] or [Nack] of one delivery: its frame, if it wins, and the
    [ackNotify] closure, which sets [batch.acked]. *)
Definition on_delivery (i : nat) (f : frame) (closed : bool) (sendErr : goerror) (b : Batch) : Batch :=
  match deliveries b !! i with
  | None => b
  | Some d =>
      let d' := (verdict f closed sendErr d).2 in
      mkBatch (<[ i := d' ]> (deliveries b))
              (acked b || bool_decide (notified d < notified d')%nat)
              (sent b ++ ((fun x => (dTag d, x)) <$> drop (length (frames d)) (frames d')))
  end.

Definition run_act (a : act) (b : Batch) : Batch :=
  match a with
  | ABatchAck e => (Batch_Ack e b).2
  | ABatchNack r e => (Batch_Nack r e b).2
  | AAck i cl e => on_delivery i (FAck false) cl e b
  | ANack i r cl e => on_delivery i (FNack false r) cl e b
  end.

Definition run_acts (l : list act) (b : Batch) : Batch := foldl (fun b a => run_act a b) b l.

(** ** Counter B *)

(** The fields of [BatchConsumer] the modelled code reads. *)
Record bconfig : Type := mkBConfig {
  bQueue : string;
  bTag : string;
  bSize : Z;
  bFlushAfter : Z;
  bHandlerTimeout : Z;
  bTimeoutVerdict : TimeoutVerdict;
  bMaxRedeliveries : Z;
  bCounterBDisabled : bool
}.

Definition batchCounterBKey (consumerTag msgID : string) (deliveryTag : Z) : string :=
  if decide (msgID = ""%string) then counterBKeyForDeliveryTag consumerTag deliveryTag
  else
    let key := counterBKeyForMsgID msgID in
    if decide (key = ""%string) then counterBKeyForDeliveryTag consumerTag deliveryTag else key.

Definition bkey (c : bconfig) (d : Delivery) : string :=
  batchCounterBKey (bTag c) (rMessageId (dRaw d)) (rTag (dRaw d)).

Definition delete_keys (keys : list string) (m : redeliveryCounter) : redeliveryCounter :=
  foldl (fun m k => delete k m) m keys.

Definition exceeded_events : list event :=
  [EMaxRedeliveries "in-process"; EWarnMaxRedeliveries "in-process"].

(** The general path's first loop: the pairs collected, or [None] at the first
    delivery over the limit. *)
Fixpoint collect (maxR : Z) (m : redeliveryCounter) (keys : list string) : option (list (string * Z)) :=
  match keys with
  | [] => Some []
  | k :: r =>
      let count := load m k in
      if decide (maxR < wrap_signed 64 (count + 1)) then None
      else match collect maxR m r with
           | Some ps => Some ((k, count) :: ps)
           | None => None
           end
  end.

(** Its second loop. *)
Definition store_pairs (ps : list (string * Z)) (m : redeliveryCounter) : redeliveryCounter :=
  foldl (fun m p => <[ p.1 := wrap_signed 64 (p.2 + 1) ]> m) m ps.

Definition maxRedeliveriesErr : error := Wrap [Sentinel ErrMaxRedeliveries].

Definition applyBatchCounterB (c : bconfig) (cs : option redeliveryCounter) (ds : list Delivery)
    (handlerErr : goerror) : list event * option redeliveryCounter * goerror :=
  if decide (bMaxRedeliveries c <= 0) then ([], cs, handlerErr)
  else if bCounterBDisabled c then ([], cs, handlerErr)
  else
    match cs with
    | None => ([], cs, handlerErr)
    | Some m =>
        let keys := bkey c <$> ds in
        if negb (errors_is handlerErr ErrRequeue) then ([], Some (delete_keys keys m), handlerErr)
        else
          match ds with
          | [d] =>
              let key := bkey c d in
              let count := load m key in
              if decide (bMaxRedeliveries c < wrap_signed 64 (count + 1))
              then (exceeded_events, Some (delete key m), Some maxRedeliveriesErr)
              else ([], Some (<[ key := wrap_signed 64 (count + 1) ]> m), handlerErr)
          | _ =>
              match collect (bMaxRedeliveries c) m keys with
              | None => (exceeded_events, Some (delete_keys keys m), Some maxRedeliveriesErr)
              | Some ps => ([], Some (store_pairs ps m), handlerErr)
              end
          end
    end.

(** ** Verdicts and flush *)

Definition applyBatchVerdict (c : bconfig) (cs : option redeliveryCounter) (handlerErr sendErr : goerror)
    (b : Batch) : list event * option redeliveryCounter * Batch :=
  let report err := [EHandlerMetric (handlerOutcome err); finishConsumeSpan (consumeVerdictOutcome err) err] in
  if acked b then (report handlerErr, cs, b)
  else
    let b1 := set_acked b in
    let '(evs, cs', err) := applyBatchCounterB c cs (deliveries b1) handlerErr in
    (evs ++ report err, cs',
     match err with
     | None => (ackAll sendErr b1).2
     | Some _ => (nackAll (errors_is err ErrRequeue) sendErr b1).2
     end).

(** The case of the select on the timeout path. *)
Inductive brace : Type := BHandler | BCtxDone (cause : ctx_cause).

(** One flush: the handler's actions before the select fires, between the two
    reads of [batch.acked] on the timeout path, and after the verdict. *)
Record fenv : Type := mkFEnv {
  fActs : list act;
  fRet : handler_outcome;
  fRace : brace;
  fMid : list act;
  fLate : list act;
  fSendErr : goerror
}.

Definition hook (d : Delivery) : Delivery :=
  mkDelivery (dRaw d) (death d) (tracked d) true (resolved d) (frames d) (notified d).

(** Whether the timeout verdict requeues, after counter B. *)
Definition timeout_requeue (c : bconfig) (cs : option redeliveryCounter) (ds : list Delivery)
  : list event * option redeliveryCounter * bool :=
  if decide (bTimeoutVerdict c = TimeoutNackRequeue) then
    let '(evs, cs', err) := applyBatchCounterB c cs ds (Some (Sentinel ErrRequeue)) in
    (evs, cs', errors_is err ErrRequeue)
  else ([], cs, false).

(** The branch of [hCtx.Done()] in [flush]. *)
Definition flush_ctx_done (c : bconfig) (e : fenv) (cause : ctx_cause) (cs : option redeliveryCounter)
    (b : Batch) : list event * option redeliveryCounter * Batch :=
  if err_is (hctx_err cause) ContextDeadlineExceeded then
    let stamp := finishConsumeSpan outcomeTimeout (Some (Sentinel ContextDeadlineExceeded)) in
    if acked b then ([stamp], cs, run_acts (fLate e) (run_acts (fMid e) b))
    else
      let outcome := if decide (bTimeoutVerdict c = TimeoutNackRequeue)
                     then "timeout_nack_requeue"%string else "timeout_nack_no_requeue"%string in
      let '(evs, cs', requeue) := timeout_requeue c cs (deliveries b) in
      let b1 := run_acts (fMid e) b in
      let b2 := if acked b1 then b1 else (nackAll requeue (fSendErr e) (set_acked b1)).2 in
      ([ETimeout; EHandlerMetric outcome] ++ evs ++ [stamp], cs', run_acts (fLate e) b2)
  else ([], cs, run_acts (fLate e) (run_acts (fMid e) b)).

(** [flush] on a non-empty [pending]. *)
Definition flush_batch (c : bconfig) (e : fenv) (cs : option redeliveryCounter) (toFlush : list Delivery)
  : list event * option redeliveryCounter * Batch :=
  let b := run_acts (fActs e) (mkBatch (hook <$> toFlush) false []) in
  if decide (0 < bHandlerTimeout c) then
    match fRace e with
    | BHandler => applyBatchVerdict c cs (safeCallHandler (fRet e)) (fSendErr e) b
    | BCtxDone cause => flush_ctx_done c e cause cs b
    end
  else applyBatchVerdict c cs (safeCallHandler (fRet e)) (fSendErr e) b.

(** ** The consume loop *)

(** What happens on the current channel, in order: a delivery the broker sends, a
    frame handed to the driver. *)
Inductive wire_event : Type :=
| WDeliver (tag : Z)
| WFrame (tag : Z) (f : frame).

(** [buffer] is what [cur.ch] holds, received and not yet read; [chan] is the
    history of the current channel, [batches] the tags of the batches flushed on
    it; [live] tells whether [cur.ch] is open, [resubbed] whether [resubCh] holds
    a subscription, [refused] whether the driver refused the nack of a buffered
    delivery, [ended] the result of [Consume]. *)
Record bloop : Type := mkLoop {
  pending : list Delivery;
  buffer : list rawDelivery;
  timer : bool;
  counter : option redeliveryCounter;
  chan : list wire_event;
  batches : list (list Z);
  live : bool;
  resubbed : bool;
  refused : bool;
  ended : option goerror
}.

Definition bloop_start : bloop := mkLoop [] [] false (Some ∅) [] [] true false false None.

(** [flush] in the loop. *)
Definition flush (c : bconfig) (e : fenv) (s : bloop) : bloop :=
  match pending s with
  | [] => s
  | ds =>
      let '(_, cs', b) := flush_batch c e (counter s) ds in
      mkLoop [] (buffer s) false cs' (chan s ++ ((fun '(t, f) => WFrame t f) <$> sent b))
             (batches s ++ [dTag <$> ds]) (live s) (resubbed s) (refused s) (ended s)
  end.

Definition set_ended (r : goerror) (s : bloop) : bloop :=
  mkLoop (pending s) (buffer s) (timer s) (counter s) (chan s) (batches s) (live s) (resubbed s) (refused s) (Some r).

Definition append_chan (evs : list wire_event) (s : bloop) : bloop :=
  mkLoop (pending s) (buffer s) (timer s) (counter s) (chan s ++ evs) (batches s) (live s) (resubbed s) (refused s)
         (ended s).

(** [requeueUndispatched] on what [cur.ch] holds, with the driver's answer to each
    nack: the frames, what is left when it stops at a refused one, and whether
    one was refused. *)
Fixpoint requeueUndispatched (brokerAutoAck : bool) (nackErr : rawDelivery -> goerror) (ch : list rawDelivery)
  : list wire_event * list rawDelivery * bool :=
  if brokerAutoAck then ([], ch, false)
  else match ch with
       | [] => ([], [], false)
       | d :: r =>
           match nackErr d with
           | Some _ => ([WFrame (rTag d) (FNack false true)], r, true)
           | None =>
               let '(evs, rest, failed) := requeueUndispatched brokerAutoAck nackErr r in
               (WFrame (rTag d) (FNack false true) :: evs, rest, failed)
           end
       end.

Inductive blabel : Type :=
| LArrive (raw : rawDelivery)                   (* the pump puts a delivery into cur.ch *)
| LDeliver (dec : decode_outcome) (e : fenv)    (* d := <-cur.ch *)
| LTimer (e : fenv)                             (* <-flushCh *)
| LReopen                                       (* the hook reopens the subscription *)
| LResub                                        (* sub := <-resubCh *)
| LClosed                                       (* cur.ch is closed, and empty *)
| LCancel                                       (* <-cancelReasonCh *)
| LCtxDone (e : fenv) (nackErr : rawDelivery -> goerror). (* <-ctx.Done() *)

Definition discard (lv : bool) (s : bloop) : bloop :=
  mkLoop [] (buffer s) false (counter s) (chan s) (batches s) lv (resubbed s) (refused s) (ended s).

Definition accept (c : bconfig) (d : Delivery) (s : bloop) : bloop :=
  mkLoop (pending s ++ [d]) (buffer s) (timer s || bool_decide (0 < bFlushAfter c)) (counter s) (chan s)
         (batches s) (live s) (resubbed s) (refused s) (ended s).

Definition set_buffer (b : list rawDelivery) (s : bloop) : bloop :=
  mkLoop (pending s) b (timer s) (counter s) (chan s) (batches s) (live s) (resubbed s) (refused s) (ended s).

(** The branch of a delivery that was read. *)
Definition receive (c : bconfig) (raw : rawDelivery) (dec : decode_outcome) (e : fenv) (s : bloop) : bloop :=
  let reject := append_chan [WFrame (rTag raw) (FNack false false)] s in
  match safeDecodeConsumer dec with
  | Some _ => reject
  | None =>
      let d := newDelivery (bQueue c) raw true in
      if bool_decide (0 < bMaxRedeliveries c) && bool_decide (bMaxRedeliveries c <= DeathCount d)
      then reject
      else
        let s2 := accept c d s in
        if decide (bSize c <= Z.of_nat (length (pending s2))) then flush c e s2 else s2
  end.

(** The branch of [ctx.Done()]. *)
Definition shut_down (c : bconfig) (e : fenv) (nackErr : rawDelivery -> goerror) (s : bloop) : bloop :=
  let s1 := flush c e s in
  let '(evs, rest, failed) := requeueUndispatched false nackErr (buffer s1) in
  let s2 := append_chan evs (set_buffer rest s1) in
  mkLoop (pending s2) (buffer s2) (timer s2) (counter s2) (chan s2) (batches s2) (live s2) (resubbed s2) failed
         (Some None).

(** A step of the pump or one iteration of the loop; [None] when the case is not
    ready. *)
Definition bstep (c : bconfig) (l : blabel) (s : bloop) : option bloop :=
  match ended s with
  | Some _ => None
  | None =>
      match l with
      | LArrive raw =>
          if live s then Some (append_chan [WDeliver (rTag raw)] (set_buffer (buffer s ++ [raw]) s)) else None
      | LDeliver dec e =>
          match buffer s with
          | raw :: rest => if live s then Some (receive c raw dec e (set_buffer rest s)) else None
          | [] => None
          end
      | LTimer e =>
          if live s && timer s
          then Some (flush c e (mkLoop (pending s) (buffer s) false (counter s) (chan s) (batches s) (live s)
                                       (resubbed s) (refused s) (ended s)))
          else None
      | LReopen =>
          Some (mkLoop (pending s) (buffer s) (timer s) (Some ∅) (chan s) (batches s) (live s) true (refused s) (ended s))
      | LResub =>
          if resubbed s then Some (mkLoop [] [] false (counter s) [] [] true false (refused s) (ended s)) else None
      | LClosed => if live s && bool_decide (length (buffer s) = 0%nat) then Some (discard false s) else None
      | LCancel => Some (set_ended (Some (Wrap [Sentinel ErrConsumerCancelled])) (discard (live s) s))
      | LCtxDone e nackErr => if live s then Some (shut_down c e nackErr s) else Some (set_ended None s)
      end
  end.

Fixpoint bsteps (c : bconfig) (ls : list blabel) (s : bloop) : option bloop :=
  match ls with
  | [] => Some s
  | l :: r => match bstep c l s with
              | Some s' => bsteps c r s'
              | None => None
              end
  end.

(** ** The broker's side *)

Definition multiple (f : frame) : bool :=
  match f with FAck m => m | FNack m _ => m end.

(** The deliveries of a channel the broker still holds as unacknowledged. *)
Definition settle (u : gset Z) (w : wire_event) : gset Z :=
  match w with
  | WDeliver t => {[ t ]} ∪ u
  | WFrame t f => if multiple f then filter (fun x => t < x) u else u ∖ {[ t ]}
  end.

Definition unsettled (ws : list wire_event) : gset Z := foldl settle ∅ ws.

Definition delivered (ws : list wire_event) : list Z :=
  omap (fun w => match w with WDeliver t => Some t | WFrame _ _ => None end) ws.

Definition tags (ds : list Delivery) : list Z := dTag <$> ds.

(** ** Lemmas: the highest tag *)

Lemma highest_from_spec h ds :
  (∀ d, d ∈ h :: ds -> dTag d <= dTag (highest_from h ds)) ∧ highest_from h ds ∈ h :: ds.
Proof.
  revert h. induction ds as [|d ds IH]; intros h; [split; [|set_solver]|].
  - intros d Hd. apply list_elem_of_singleton in Hd as ->. simpl. lia.
  - unfold highest_from. simpl. change (foldl _ ?x ds) with (highest_from x ds).
    case_decide as Hlt.
    + destruct (IH d) as [H1 H2]. split; [|set_solver].
      intros x [->|Hx]%elem_of_cons; [|by apply H1]. specialize (H1 d ltac:(set_solver)). lia.
    + destruct (IH h) as [H1 H2]. split; [|set_solver].
      intros x [->|[->|Hx]%elem_of_cons]%elem_of_cons; [apply H1; set_solver| |apply H1; set_solver].
      specialize (H1 h ltac:(set_solver)). lia.
Qed.

(** The highest tag depends on the tags only. *)
Definition top (ts : list Z) : option Z :=
  match ts with
  | [] => None
  | t :: r => Some (foldl Z.max t r)
  end.

Lemma highest_top b : dTag <$> highest b = top (tags (deliveries b)).
Proof.
  unfold highest, tags. destruct (deliveries b) as [|d ds]; [done|]. simpl. f_equal.
  unfold highest_from. revert d. induction ds as [|x ds IH]; intros d; [done|]. simpl.
  case_decide; rewrite IH; f_equal; lia.
Qed.

Lemma top_max ts t : top ts = Some t -> t ∈ ts ∧ ∀ x, x ∈ ts -> x <= t.
Proof.
  destruct ts as [|y ts]; [done|]. simpl. intros [= <-]. revert y.
  induction ts as [|z ts IH]; intros y; simpl.
  - split; [set_solver|]. intros x Hx. apply list_elem_of_singleton in Hx. lia.
  - destruct (IH (Z.max y z)) as [H1 H2]. split.
    + apply elem_of_cons in H1 as [E|H1]; [|set_solver]. rewrite E.
      destruct (Z.max_spec y z) as [[_ ->]|[_ ->]]; set_solver.
    + assert (Z.max y z <= foldl Z.max (Z.max y z) ts) by (apply H2; set_solver).
      intros x [->|[->|Hx]%elem_of_cons]%elem_of_cons; [lia|lia|]. apply H2. set_solver.
Qed.

(** ** Lemmas: frames of a batch *)

Definition multis (b : Batch) : list (Z * frame) := filter (fun p => multiple p.2 = true) (sent b).

(** At most one frame for the whole batch, sent by whoever set [acked]. *)
Record one_multi (ts : list Z) (b : Batch) : Prop := {
  om_tags : tags (deliveries b) = ts;
  om_count : (length (multis b) <= if acked b then 1 else 0)%nat;
  om_top : ∀ t f, (t, f) ∈ multis b -> top ts = Some t
}.

Lemma verdict_keeps f cl e d :
  dTag (verdict f cl e d).2 = dTag d
  ∧ (frames (verdict f cl e d).2 = frames d ∨ frames (verdict f cl e d).2 = frames d ++ [f]).
Proof.
  unfold verdict. destruct (tracked d && cl); [by auto|]. destruct (resolved d); [by auto|].
  destruct e; simpl; split; try done; by right.
Qed.

Lemma frame_all_one f e ts b :
  multiple f = true -> one_multi ts b -> acked b = false -> one_multi ts (frame_all f e (set_acked b)).2.
Proof.
  intros Hf [H1 H2 H3] Ha. rewrite Ha in H2. unfold frame_all.
  pose proof (highest_top (set_acked b)) as Htop. simpl in Htop. rewrite H1 in Htop.
  assert (multis b = []) as Hm by (destruct (multis b); simpl in H2; [done|lia]).
  unfold multis in Hm.
  destruct (highest (set_acked b)) as [h|]; constructor; simpl; try done; unfold multis; simpl.
  - rewrite filter_app, Hm. by rewrite filter_cons_True.
  - intros t g. rewrite filter_app, Hm, filter_cons_True, filter_nil by done. simpl.
    intros E%list_elem_of_singleton. by simplify_eq.
  - rewrite Hm. set_solver.
Qed.

Lemma on_delivery_one i f cl e ts b :
  multiple f = false -> one_multi ts b -> one_multi ts (on_delivery i f cl e b).
Proof.
  intros Hf [H1 H2 H3]. unfold on_delivery. destruct (deliveries b !! i) as [d|] eqn:Hd; [|done].
  destruct (verdict_keeps f cl e d) as [Ht Hfr].
  set (d' := (verdict f cl e d).2) in *.
  assert (filter (fun p : Z * frame => multiple p.2 = true)
            ((fun x => (dTag d, x)) <$> drop (length (frames d)) (frames d')) = []) as Hn.
  { destruct Hfr as [->| ->]; [by rewrite drop_all|]. rewrite drop_app_length. simpl.
    rewrite filter_cons_False; [done|]. simpl. congruence. }
  constructor; simpl; unfold multis; simpl.
  - rewrite <- H1. unfold tags. rewrite list_fmap_insert, Ht. apply list_insert_id.
    by rewrite list_lookup_fmap, Hd.
  - rewrite filter_app, Hn, app_nil_r. unfold multis in H2. destruct (acked b); simpl in *; [done|].
    case_match; lia.
  - intros t g. rewrite filter_app, Hn, app_nil_r. apply H3.
Qed.

Lemma run_act_one a ts b : one_multi ts b -> one_multi ts (run_act a b).
Proof.
  intros H. destruct a as [e|r e|i cl e|i r cl e]; simpl.
  - unfold Batch_Ack. destruct (acked b) eqn:Ha; [done|]. by apply frame_all_one.
  - unfold Batch_Nack. destruct (acked b) eqn:Ha; [done|]. by apply frame_all_one.
  - by apply on_delivery_one.
  - by apply on_delivery_one.
Qed.

Lemma run_acts_one l ts b : one_multi ts b -> one_multi ts (run_acts l b).
Proof.
  revert b. induction l as [|a l IH]; intros b H; [done|]. simpl. apply IH. by apply run_act_one.
Qed.

Lemma applyBatchVerdict_one c cs he se ts b :
  one_multi ts b -> one_multi ts (applyBatchVerdict c cs he se b).2.
Proof.
  intros H. unfold applyBatchVerdict. destruct (acked b) eqn:Ha; [done|].
  destruct (applyBatchCounterB _ _ _ _) as [[evs cs'] err]. simpl.
  destruct err; by apply frame_all_one.
Qed.

Lemma flush_batch_one c e cs ds : one_multi (tags ds) (flush_batch c e cs ds).2.
Proof.
  assert (one_multi (tags ds) (run_acts (fActs e) (mkBatch (hook <$> ds) false []))) as H0.
  { apply run_acts_one. constructor; [|done|set_solver]. simpl. unfold tags.
    by rewrite <- list_fmap_compose. }
  unfold flush_batch. case_decide; [|by apply applyBatchVerdict_one].
  destruct (fRace e) as [|cause]; [by apply applyBatchVerdict_one|].
  set (b0 := run_acts _ _) in *. unfold flush_ctx_done.
  destruct (err_is _ _); [|simpl; by do 2 apply run_acts_one].
  destruct (acked b0) eqn:Ha; [simpl; by do 2 apply run_acts_one|].
  destruct (timeout_requeue _ _ _) as [[evs cs'] rq]. simpl.
  apply run_acts_one. destruct (acked (run_acts (fMid e) b0)) eqn:Hm; [by apply run_acts_one|].
  apply frame_all_one; [done|by apply run_acts_one|done].
Qed.

(** A handler that leaves its batch to the framework or settles it as a whole. *)
Definition whole (a : act) : bool :=
  match a with ABatchAck _ | ABatchNack _ _ => true | _ => false end.

(** The flush ends with a verdict: no verdict on a single delivery, and, under a
    [HandlerTimeout], the consumer's context is not cancelled before the handler
    is done. *)
Definition settles (c : bconfig) (e : fenv) : Prop :=
  Forall (fun a => whole a = true) (fActs e ++ fMid e ++ fLate e)
  ∧ (0 < bHandlerTimeout c -> fRace e ≠ BCtxDone OuterCancelled).

(** Either nothing was sent yet, or one frame for the whole batch. *)
Definition clean (ts : list Z) (b : Batch) : Prop :=
  tags (deliveries b) = ts
  ∧ if acked b then ∃ t f, top ts = Some t ∧ multiple f = true ∧ sent b = [(t, f)] else sent b = [].

Lemma frame_all_clean f e ts b :
  multiple f = true -> ts ≠ [] -> clean ts b -> acked b = false ->
  clean ts (frame_all f e (set_acked b)).2 ∧ acked (frame_all f e (set_acked b)).2 = true.
Proof.
  intros Hf Hne [H1 H2] Ha. rewrite Ha in H2. unfold frame_all.
  pose proof (highest_top (set_acked b)) as Htop. simpl in Htop. rewrite H1 in Htop.
  destruct (highest (set_acked b)) as [h|]; [|by destruct ts].
  split; [|done]. split; [done|]. simpl. exists (dTag h), f. by rewrite H2.
Qed.

Lemma run_act_clean a ts b :
  whole a = true -> ts ≠ [] -> clean ts b -> clean ts (run_act a b) ∧ (acked b = true -> acked (run_act a b) = true).
Proof.
  intros Hw Hne H. destruct a as [e|r e|i cl e|i r cl e]; try done; simpl;
    [unfold Batch_Ack|unfold Batch_Nack]; destruct (acked b) eqn:Ha; try done;
    (split; [by apply frame_all_clean|done]).
Qed.

Lemma run_acts_clean l ts b :
  Forall (fun a => whole a = true) l -> ts ≠ [] -> clean ts b ->
  clean ts (run_acts l b) ∧ (acked b = true -> acked (run_acts l b) = true).
Proof.
  intros Hl Hne. revert b. induction Hl as [|a l Ha Hl IH]; intros b H; [done|]. simpl.
  destruct (run_act_clean a ts b Ha Hne H) as [H1 H2]. destruct (IH _ H1) as [H3 H4]. auto.
Qed.

Lemma applyBatchVerdict_clean c cs he se ts b :
  ts ≠ [] -> clean ts b ->
  clean ts (applyBatchVerdict c cs he se b).2 ∧ acked (applyBatchVerdict c cs he se b).2 = true.
Proof.
  intros Hne H. unfold applyBatchVerdict. destruct (acked b) eqn:Ha; [done|].
  destruct (applyBatchCounterB _ _ _ _) as [[evs cs'] err]. simpl.
  destruct err; by apply frame_all_clean.
Qed.

Lemma flush_batch_settles c e cs ds :
  settles c e -> ds ≠ [] ->
  clean (tags ds) (flush_batch c e cs ds).2 ∧ acked (flush_batch c e cs ds).2 = true.
Proof.
  intros [Hw Hr] Hds. apply Forall_app in Hw as [Hw1 [Hw2 Hw3]%Forall_app].
  assert (tags ds ≠ []) as Hne by by destruct ds.
  assert (clean (tags ds) (run_acts (fActs e) (mkBatch (hook <$> ds) false []))) as H0.
  { apply run_acts_clean; [done|done|]. split; [|done]. simpl. unfold tags.
    by rewrite <- list_fmap_compose. }
  unfold flush_batch. case_decide; [|by apply applyBatchVerdict_clean].
  destruct (fRace e) as [|cause]; [by apply applyBatchVerdict_clean|].
  set (b0 := run_acts _ _) in *. unfold flush_ctx_done.
  assert (err_is (hctx_err cause) ContextDeadlineExceeded = true) as ->
    by (destruct cause; [done| |done]; by destruct Hr).
  destruct (run_acts_clean (fMid e) (tags ds) b0 Hw2 Hne H0) as [Hm1 Hm2].
  destruct (acked b0) eqn:Ha.
  - simpl. destruct (run_acts_clean (fLate e) (tags ds) _ Hw3 Hne Hm1) as [Hl1 Hl2]. auto.
  - destruct (timeout_requeue _ _ _) as [[evs cs'] rq]. simpl.
    set (b2 := if acked (run_acts (fMid e) b0) then _ else _).
    assert (clean (tags ds) b2 ∧ acked b2 = true) as [H1 H2].
    { unfold b2. destruct (acked (run_acts (fMid e) b0)) eqn:Hm; [done|]. by apply frame_all_clean. }
    destruct (run_acts_clean (fLate e) (tags ds) b2 Hw3 Hne H1) as [Hl1 Hl2]. auto.
Qed.

(** ** Lemmas: the loop *)

Lemma unsettled_app u ws1 ws2 : foldl settle u (ws1 ++ ws2) = foldl settle (foldl settle u ws1) ws2.
Proof. apply foldl_app. Qed.

(** The deliveries of the channel that are still the consumer's: those pending
    and those not yet read. *)
Definition owed (s : bloop) : list Z := tags (pending s) ++ (rTag <$> buffer s).

(** What the broker still holds is exactly what the consumer still holds; [n]
    bounds the pending deliveries. *)
Record loop_inv (c : bconfig) (n : Z) (s : bloop) : Prop := {
  li_sorted : StronglySorted Z.lt (delivered (chan s));
  li_sub : concat (batches s) ++ owed s `sublist_of` delivered (chan s);
  li_size : Forall (fun b => b ≠ [] ∧ Z.of_nat (length b) <= bSize c) (batches s);
  li_pending : Z.of_nat (length (pending s)) <= n;
  li_unsettled : unsettled (chan s) = list_to_set (owed s)
}.

Lemma delivered_app ws1 ws2 : delivered (ws1 ++ ws2) = delivered ws1 ++ delivered ws2.
Proof. apply omap_app. Qed.

Lemma delivered_frames (l : list (Z * frame)) : delivered ((fun '(t, f) => WFrame t f) <$> l) = [].
Proof. induction l as [|[t f] l IH]; [done|]. exact IH. Qed.

Lemma unsettled_snoc ws w : unsettled (ws ++ [w]) = settle (unsettled ws) w.
Proof. unfold unsettled. by rewrite foldl_app. Qed.

Lemma sublist_sorted (l k : list Z) : l `sublist_of` k -> StronglySorted Z.lt k -> StronglySorted Z.lt l.
Proof.
  induction 1 as [|x l k Hs IH|x l k Hs IH]; intros Hk; [constructor| |]; apply StronglySorted_inv in Hk as [Hk Hx].
  - constructor; [by apply IH|]. rewrite Forall_forall in Hx |- *. intros y Hy. apply Hx.
    eapply elem_of_submseteq; [exact Hy|by apply sublist_submseteq].
  - by apply IH.
Qed.

(** What is owed is in the order of the tags. *)
Lemma owed_sorted c n s : loop_inv c n s -> StronglySorted Z.lt (owed s).
Proof. intros [H1 H2 _ _ _]. eapply sublist_sorted; [|exact H1]. etrans; [|exact H2]. by apply sublist_inserts_l. Qed.

(** The frame of a batch settles the batch, and nothing that came after it. *)
Lemma settle_all ts rest t f :
  StronglySorted Z.lt (ts ++ rest) -> top ts = Some t -> multiple f = true ->
  settle (list_to_set (ts ++ rest)) (WFrame t f) = list_to_set rest.
Proof.
  intros Hs Ht Hf. simpl. rewrite Hf. apply top_max in Ht as [Hin Ht]. apply set_eq. intros x.
  rewrite elem_of_filter, !elem_of_list_to_set, elem_of_app. split.
  - intros [H1 [H2|H2]]; [|done]. specialize (Ht x H2). lia.
  - intros Hx. split; [|by right]. by eapply (StronglySorted_app_1_elem_of Z.lt).
Qed.

(** The frame of one delivery settles it alone. *)
Lemma settle_one t rest f :
  t ∉ rest -> multiple f = false -> settle (list_to_set (t :: rest)) (WFrame t f) = list_to_set rest.
Proof. intros Hn Hf. simpl. rewrite Hf. set_solver. Qed.

Lemma sorted_notin (t : Z) pre rest : StronglySorted Z.lt (pre ++ t :: rest) -> t ∉ pre ++ rest.
Proof.
  intros Hs [Hin|Hin]%elem_of_app.
  - assert (t < t); [|lia]. eapply (StronglySorted_app_1_elem_of Z.lt); [exact Hs|done|by left].
  - apply StronglySorted_app_1_r, StronglySorted_inv in Hs as [_ Hf]. rewrite Forall_forall in Hf. specialize (Hf t Hin). lia.
Qed.

Lemma flush_inv c e s :
  0 < bSize c -> settles c e -> loop_inv c (bSize c) s -> loop_inv c (bSize c - 1) (flush c e s).
Proof.
  intros Hsz He Hi. pose proof (owed_sorted _ _ _ Hi) as Hsort. destruct Hi as [H1 H2 H3 H4 H5].
  unfold flush. destruct (pending s) as [|d ds] eqn:Hp.
  { constructor; rewrite ?Hp; try done. simpl. lia. }
  rewrite <- Hp in *. assert (pending s ≠ []) as Hne by by rewrite Hp.
  pose proof (flush_batch_settles c e (counter s) (pending s) He Hne) as [[_ Hcl] Ha].
  destruct (flush_batch c e (counter s) (pending s)) as [[evs cs'] b]. simpl in *. rewrite Ha in Hcl.
  destruct Hcl as (t & f & Ht & Hf & Hs). rewrite Hs.
  constructor; unfold owed in *; simpl; rewrite ?delivered_app, ?app_nil_r; try done.
  - rewrite concat_app. simpl. rewrite app_nil_r, <- app_assoc. exact H2.
  - apply Forall_app. split; [done|]. constructor; [|constructor]. rewrite length_fmap.
    split; [|lia]. by rewrite Hp.
  - lia.
  - rewrite unsettled_snoc, H5. by apply settle_all.
Qed.

(** The guards on the environment: tags increase on a channel, and every flush
    ends with a verdict for the whole batch. *)
Definition label_ok (c : bconfig) (l : blabel) (s : bloop) : Prop :=
  match l with
  | LArrive raw => ∀ t, t ∈ delivered (chan s) -> t < rTag raw
  | LDeliver _ e | LTimer e | LCtxDone e _ => settles c e
  | _ => True
  end.

Inductive bstep_ok (c : bconfig) : bloop -> bloop -> Prop :=
| bstep_ok_intro l s s' : label_ok c l s -> bstep c l s = Some s' -> bstep_ok c s s'.

Definition good (c : bconfig) (s : bloop) : Prop :=
  live s = true ->
  (ended s = None -> loop_inv c (bSize c - 1) s)
  ∧ (ended s = Some None ->
       pending s = [] ∧ unsettled (chan s) = list_to_set (rTag <$> buffer s) ∧ (refused s = false -> buffer s = [])).

(** A new delivery on the channel. *)
Lemma arrive_inv c n raw s :
  (∀ t, t ∈ delivered (chan s) -> t < rTag raw) -> loop_inv c n s ->
  loop_inv c n (append_chan [WDeliver (rTag raw)] (set_buffer (buffer s ++ [raw]) s)).
Proof.
  intros Ht [H1 H2 H3 H4 H5]. constructor; unfold owed in *; simpl; try done.
  - rewrite delivered_app. apply StronglySorted_app_2; [|done|repeat constructor].
    intros x y Hx ->%list_elem_of_singleton. by apply Ht.
  - rewrite delivered_app, fmap_app, !app_assoc, <- (app_assoc _ (tags (pending s))). by apply sublist_app.
  - rewrite unsettled_snoc, H5, fmap_app, app_assoc, list_to_set_app_L. simpl. set_solver.
Qed.

Lemma receive_inv c raw rest dec e s :
  0 < bSize c -> settles c e -> buffer s = raw :: rest ->
  loop_inv c (bSize c - 1) s -> loop_inv c (bSize c - 1) (receive c raw dec e (set_buffer rest s)).
Proof.
  intros Hsz He Hb Hi. pose proof (owed_sorted _ _ _ Hi) as Hsort. destruct Hi as [H1 H2 H3 H4 H5].
  unfold owed in *. rewrite Hb in *. cbn [fmap list_fmap] in *.
  assert (loop_inv c (bSize c - 1) (append_chan [WFrame (rTag raw) (FNack false false)] (set_buffer rest s))) as Hrej.
  { constructor; unfold owed; simpl; try done.
    - by rewrite delivered_app, app_nil_r.
    - rewrite delivered_app, app_nil_r. etrans; [|exact H2]. do 2 (apply sublist_app; [done|]). by apply sublist_cons.
    - rewrite unsettled_snoc, H5.
      replace (list_to_set (tags (pending s) ++ rTag raw :: (rTag <$> rest)) : gset Z)
        with (list_to_set (rTag raw :: tags (pending s) ++ (rTag <$> rest)) : gset Z) by set_solver.
      apply settle_one; [by apply sorted_notin|done]. }
  unfold receive. destruct (safeDecodeConsumer dec); [exact Hrej|].
  destruct (_ && _); [exact Hrej|]. clear Hrej.
  set (d := newDelivery (bQueue c) raw true). set (s2 := accept c d (set_buffer rest s)).
  assert (loop_inv c (bSize c) s2 ∧ length (pending s2) = S (length (pending s))) as [Hi2 Hlen].
  { assert (owed s2 = tags (pending s) ++ rTag raw :: (rTag <$> rest)) as Ho.
    { unfold owed, s2. simpl. unfold tags. rewrite fmap_app, <- app_assoc. done. }
    split; [|simpl; rewrite length_app; simpl; lia]. constructor; rewrite ?Ho; try done.
    simpl. rewrite length_app. simpl. lia. }
  case_decide; [by apply flush_inv|]. destruct Hi2 as [G1 G2 G3 G4 G5]. constructor; try done. lia.
Qed.

(** Nacking what is buffered settles it, up to a nack the driver refuses. *)
Lemma requeue_settles nackErr ch evs rest failed u :
  requeueUndispatched false nackErr ch = (evs, rest, failed) -> StronglySorted Z.lt (rTag <$> ch) ->
  u = list_to_set (rTag <$> ch) ->
  foldl settle u evs = list_to_set (rTag <$> rest) ∧ (failed = false -> rest = []).
Proof.
  revert evs rest failed u. induction ch as [|d r IH]; intros evs rest failed u H Hs ->; [by simplify_eq/=|].
  cbn in Hs. pose proof (sorted_notin _ [] _ Hs) as Hn. apply StronglySorted_inv in Hs as [Hs _].
  cbn [requeueUndispatched] in H. rewrite fmap_cons.
  pose proof (settle_one (rTag d) (rTag <$> r) (FNack false true) Hn eq_refl) as Hone.
  destruct (nackErr d).
  - injection H as <- <- <-. split; [exact Hone|done].
  - destruct (requeueUndispatched false nackErr r) as [[evs2 rest2] failed2] eqn:E. injection H as <- <- <-.
    cbn [foldl]. eapply IH; [done|done|exact Hone].
Qed.

Lemma flush_pending c e s : pending (flush c e s) = [].
Proof.
  unfold flush. destruct (pending s) eqn:E; [done|].
  by destruct (flush_batch _ _ _ _) as [[? ?] ?].
Qed.

Lemma flush_ended c e s : ended (flush c e s) = ended s ∧ live (flush c e s) = live s.
Proof.
  unfold flush. destruct (pending s) eqn:E; [done|].
  by destruct (flush_batch _ _ _ _) as [[? ?] ?].
Qed.

Lemma receive_ended c raw dec e s : ended (receive c raw dec e s) = ended s.
Proof.
  unfold receive. destruct (safeDecodeConsumer dec); [done|]. destruct (_ && _); [done|].
  case_decide; [|done]. by rewrite (proj1 (flush_ended _ _ _)).
Qed.

Lemma shut_down_good c e nackErr s :
  0 < bSize c -> settles c e -> loop_inv c (bSize c - 1) s -> good c (shut_down c e nackErr s).
Proof.
  intros Hsz He [H1 H2 H3 H4 H5].
  assert (loop_inv c (bSize c - 1) (flush c e s)) as Hi.
  { apply flush_inv; auto. constructor; try done. lia. }
  pose proof (owed_sorted _ _ _ Hi) as Hsort. pose proof (li_unsettled _ _ _ Hi) as Hu.
  unfold owed in Hsort, Hu. rewrite flush_pending in Hsort, Hu. simpl in Hsort, Hu.
  unfold shut_down. destruct (requeueUndispatched _ _ _) as [[evs rest] failed] eqn:E.
  intros _. split; [done|]. intros _. cbn [pending buffer chan refused append_chan set_buffer].
  destruct (requeue_settles nackErr _ evs rest failed _ E Hsort Hu) as [Hs Hf].
  split; [apply flush_pending|]. split; [|done]. unfold unsettled. by rewrite foldl_app.
Qed.

Lemma bstep_good c l s s' :
  0 < bSize c -> good c s -> label_ok c l s -> bstep c l s = Some s' -> good c s'.
Proof.
  intros Hsz Hg Hl H. unfold bstep in H. destruct (ended s) eqn:Hend; [done|].
  assert (live s = true -> loop_inv c (bSize c - 1) s) as Hi by (intros Hlv; by apply Hg).
  destruct l as [raw|dec e|e| | | | |e nackErr]; simpl in Hl.
  - destruct (live s) eqn:Hlv; [|done]. injection H as <-. intros _. simpl. rewrite Hend. split; [|done].
    intros _. by apply arrive_inv; auto.
  - destruct (buffer s) as [|raw rest] eqn:Hb; [done|]. destruct (live s) eqn:Hlv; [|done]. injection H as <-.
    intros _. split; [intros _; by apply receive_inv; auto|]. rewrite receive_ended. simpl. by rewrite Hend.
  - destruct (live s) eqn:Hlv, (timer s); try done. injection H as <-.
    intros _. split; [intros _|by rewrite (proj1 (flush_ended _ _ _))].
    apply flush_inv; auto. destruct (Hi eq_refl). constructor; simpl; try done. lia.
  - injection H as <-. intros Hlv. split; [|done]. intros _. destruct (Hi Hlv). by constructor.
  - destruct (resubbed s); [|done]. injection H as <-. intros Hlv. split; [|done]. intros _.
    constructor; simpl; try done; [constructor|lia].
  - destruct (live s && _); [|done]. by injection H as <-.
  - by injection H as <-.
  - destruct (live s) eqn:Hlv; injection H as <-; [by apply shut_down_good; auto|].
    intros E. simpl in E. congruence.
Qed.

Lemma bstep_ok_good c s s' : 0 < bSize c -> rtc (bstep_ok c) s s' -> good c s -> good c s'.
Proof.
  intros Hsz H. induction H as [s|s1 s2 s3 Hst _ IH]; intros Hg; [done|]. apply IH. clear IH. revert Hg.
  destruct Hst as [l s1 s2 Hl H]. intros Hg. by eapply bstep_good.
Qed.

Lemma start_good c : 0 < bSize c -> good c bloop_start.
Proof. intros H _. split; [intros _|done]. constructor; simpl; try done; [constructor|lia]. Qed.

(** ** Lemmas: counter B *)

Lemma load_delete_keys keys m k :
  load (delete_keys keys m) k = if decide (k ∈ keys) then 0 else load m k.
Proof.
  revert m. induction keys as [|x keys IH]; intros m; [by rewrite decide_False by set_solver|].
  simpl. rewrite IH. unfold load. destruct (decide (k ∈ keys)).
  - by rewrite decide_True by set_solver.
  - rewrite lookup_delete. case_decide as Hx.
    + subst. by rewrite decide_True by set_solver.
    + by rewrite decide_False by set_solver.
Qed.

Lemma collect_spec maxR m keys :
  match collect maxR m keys with
  | Some ps => ps = (fun k => (k, load m k)) <$> keys ∧ Forall (fun k => wrap_signed 64 (load m k + 1) <= maxR) keys
  | None => Exists (fun k => maxR < wrap_signed 64 (load m k + 1)) keys
  end.
Proof.
  induction keys as [|k keys IH]; [by split|]. simpl. case_decide; [by constructor|].
  destruct (collect maxR m keys) as [ps|].
  - destruct IH as [-> IH]. split; [done|]. constructor; [lia|done].
  - by apply Exists_cons_tl.
Qed.

Lemma store_pairs_spec keys m0 m k :
  NoDup keys ->
  load (store_pairs ((fun k => (k, load m0 k)) <$> keys) m) k
  = if decide (k ∈ keys) then wrap_signed 64 (load m0 k + 1) else load m k.
Proof.
  intros Hnd. revert m. induction Hnd as [|x keys Hx Hnd IH]; intros m; [by rewrite decide_False by set_solver|].
  simpl. rewrite IH. destruct (decide (k ∈ keys)).
  - by rewrite decide_True by set_solver.
  - unfold load. rewrite lookup_insert. case_decide as Hk.
    + subst. by rewrite decide_True by set_solver.
    + by rewrite decide_False by set_solver.
Qed.

(** The single-delivery path is the general path. *)
Lemma single_path c m d he :
  0 < bMaxRedeliveries c -> bCounterBDisabled c = false -> errors_is he ErrRequeue = true ->
  applyBatchCounterB c (Some m) [d] he
  = match collect (bMaxRedeliveries c) m [bkey c d] with
    | None => (exceeded_events, Some (delete_keys [bkey c d] m), Some maxRedeliveriesErr)
    | Some ps => ([], Some (store_pairs ps m), he)
    end.
Proof.
  intros H1 H2 H3. unfold applyBatchCounterB. rewrite decide_False by lia. rewrite H2, H3. simpl.
  by case_decide.
Qed.

Lemma general_path c m ds he :
  0 < bMaxRedeliveries c -> bCounterBDisabled c = false -> errors_is he ErrRequeue = true ->
  applyBatchCounterB c (Some m) ds he
  = match collect (bMaxRedeliveries c) m (bkey c <$> ds) with
    | None => (exceeded_events, Some (delete_keys (bkey c <$> ds) m), Some maxRedeliveriesErr)
    | Some ps => ([], Some (store_pairs ps m), he)
    end.
Proof.
  intros H1 H2 H3. destruct ds as [|d [|d' ds]]; [|by apply single_path|];
    unfold applyBatchCounterB; rewrite decide_False by lia; by rewrite H2, H3.
Qed.

Definition counts_ok (c : bconfig) (m : redeliveryCounter) : Prop :=
  ∀ k, 0 <= load m k <= bMaxRedeliveries c.

Lemma forget_counts c m ds :
  counts_ok c m ->
  let m' := delete_keys (bkey c <$> ds) m in
  (∀ k, k ∉ bkey c <$> ds -> load m' k = load m k) ∧ counts_ok c m'
  ∧ ∀ d, d ∈ ds -> load m' (bkey c d) = 0.
Proof.
  intros Hb. cbv zeta. split; [|split].
  - intros k Hk. rewrite load_delete_keys. by rewrite decide_False.
  - intros k. rewrite load_delete_keys. specialize (Hb k). case_decide; lia.
  - intros d Hd. rewrite load_delete_keys. rewrite decide_True; [done|]. by apply list_elem_of_fmap_2.
Qed.

(** A requeue verdict: every count goes up by one, or the batch is rejected. *)
Lemma requeue_counts c m ds he :
  0 < bMaxRedeliveries c < maxInt64 -> bCounterBDisabled c = false -> errors_is he ErrRequeue = true ->
  NoDup (bkey c <$> ds) -> counts_ok c m ->
  if decide (Forall (fun d => load m (bkey c d) < bMaxRedeliveries c) ds)
  then ∃ m', applyBatchCounterB c (Some m) ds he = ([], Some m', he)
         ∧ (∀ k, k ∉ bkey c <$> ds -> load m' k = load m k)
         ∧ ∀ d, d ∈ ds -> load m' (bkey c d) = load m (bkey c d) + 1
  else applyBatchCounterB c (Some m) ds he
       = (exceeded_events, Some (delete_keys (bkey c <$> ds) m), Some maxRedeliveriesErr).
Proof.
  intros Hmax Hen Hr Hnd Hb. rewrite !general_path by (done || lia).
  assert (∀ k, wrap_signed 64 (load m k + 1) = load m k + 1) as Hw.
  { intros k. apply wrap_signed_id; [lia|]. change (2 ^ (64 - 1)) with 9223372036854775808.
    unfold maxInt64 in Hmax. specialize (Hb k). lia. }
  pose proof (collect_spec (bMaxRedeliveries c) m (bkey c <$> ds)) as Hc.
  destruct (collect _ _ _) as [ps|].
  - destruct Hc as [-> Hc]. rewrite Forall_forall in Hc. rewrite decide_True.
    + eexists. split; [done|]. split; [intros k Hk|intros d Hd]; rewrite store_pairs_spec by done.
      * by rewrite decide_False.
      * rewrite decide_True by (by apply list_elem_of_fmap_2). by rewrite Hw.
    + apply Forall_forall. intros d Hd. specialize (Hc (bkey c d)). rewrite Hw in Hc.
      specialize (Hc ltac:(by apply list_elem_of_fmap_2)). lia.
  - rewrite decide_False; [done|]. rewrite Forall_forall. intros Hf.
    apply Exists_exists in Hc as (k & Hk & Hlt). apply list_elem_of_fmap in Hk as (d & -> & Hd).
    specialize (Hf d Hd). rewrite Hw in Hlt. lia.
Qed.

(** ** Counterexamples: where a message is settled that nobody settled *)

Definition msg (t : Z) : rawDelivery := mkRaw t "" "" None false 10.

Definition pairs_config : bconfig := mkBConfig "q" "ctag" 2 0 second TimeoutNackNoRequeue 0 false.

(** A handler that fails, or succeeds, and leaves the batch alone. *)
Definition fails : fenv := mkFEnv [] (HReturn (Some (OtherError 7))) BHandler [] [] None.
Definition succeeds : fenv := mkFEnv [] (HReturn None) BHandler [] [] None.

(** It acks its first delivery only, then fails. *)
Definition acks_first : fenv := mkFEnv [AAck 0 false None] (HReturn (Some (OtherError 7))) BHandler [] [] None.

Definition unsettled_after (ls : list blabel) : option (list Z) :=
  (fun s => filter (fun t => t ∈ unsettled (chan s)) [1; 2; 3; 4]) <$> bsteps pairs_config ls bloop_start.

(** A delivery that arrives and is read. *)
Definition deliver (t : Z) (e : fenv) : list blabel := [LArrive (msg t); LDeliver DOk e].

(** A handler that acks one delivery and fails gets no automatic verdict; the
    other delivery of its batch stays unacknowledged until the next batch's
    multiple=true ack settles it, although its handler failed. *)
Lemma partial_ack_is_acked_by_next_batch :
  unsettled_after (deliver 1 acks_first ++ deliver 2 acks_first) = Some [2]
  ∧ unsettled_after (deliver 1 acks_first ++ deliver 2 acks_first ++ deliver 3 succeeds ++ deliver 4 succeeds)
    = Some [].
Proof. split; vm_compute; reflexivity. Qed.

(** A context cancelled under a running handler gives the batch no verdict; the
    final flush of the deliveries received meanwhile acks it as well. *)
Definition cancelled : fenv :=
  mkFEnv [] (HReturn (Some (OtherError 7))) (BCtxDone OuterCancelled) [] [] None.

Lemma cancelled_batch_is_acked_by_final_flush :
  unsettled_after (deliver 1 cancelled ++ deliver 2 cancelled) = Some [1; 2]
  ∧ unsettled_after (deliver 1 cancelled ++ deliver 2 cancelled ++ deliver 3 succeeds
                       ++ [LCtxDone succeeds (fun _ => None)]) = Some [].
Proof. split; vm_compute; reflexivity. Qed.

(** [Batch.Ack] leaves the deliveries unresolved, so a later [Delivery.Ack]
    sends a second frame for a tag that is already settled. *)
Lemma ack_after_batch_ack_sends_again :
  sent (run_acts [ABatchAck None; AAck 0 false None]
          (mkBatch (hook <$> [newDelivery "q" (msg 1) true; newDelivery "q" (msg 2) true]) false []))
  = [(2, FAck true); (1, FAck false)].
Proof. vm_compute. reflexivity. Qed.

(** Two deliveries of one batch with the same message id count once. *)
Definition dup (t : Z) : Delivery := newDelivery "q" (mkRaw t "m" "" None false 10) true.
Definition limit_config : bconfig := mkBConfig "q" "ctag" 2 0 0 TimeoutNackNoRequeue 3 false.

Lemma duplicate_ids_count_once :
  (fun m => load m "mid:m") <$> (applyBatchCounterB limit_config (Some ∅) [dup 1; dup 2]
                                   (Some (Sentinel ErrRequeue))).1.2 = Some 1.
Proof. vm_compute. reflexivity. Qed.

(** ** Properties *)


(** One frame for the batch: whatever the handler does with the batch and
    its deliveries, before or after the timeout, [flush] and [Batch.Ack]/[Nack]
    together send at most one multiple=true frame, and it carries the highest
    delivery tag of the batch. *)
Lemma batch_at_most_one_multiple c e cs ds :
  let b := (flush_batch c e cs ds).2 in
  (length (multis b) <= 1)%nat
  ∧ ∀ t f, (t, f) ∈ multis b -> t ∈ tags ds ∧ ∀ x, x ∈ tags ds -> x <= t.
Proof.
  cbv zeta. destruct (flush_batch_one c e cs ds) as [_ H2 H3]. split; [case_match; lia|].
  intros t f Hf. apply top_max. by eapply H3.
Qed.

(** Counter B of a batch is exact: a requeue verdict goes through only if no
    message of the batch has used up its [MaxRedeliveries], and then counts
    one more redelivery for each; otherwise the whole batch is rejected with
    [ErrMaxRedeliveries] and forgotten; any other verdict forgets it too; and
    the counts of messages outside the batch never change. *)
Lemma batch_counterB_exact c m ds he :
  0 < bMaxRedeliveries c < maxInt64 -> bCounterBDisabled c = false -> NoDup (bkey c <$> ds) ->
  counts_ok c m ->
  ∃ evs m' he', applyBatchCounterB c (Some m) ds he = (evs, Some m', he')
    ∧ (∀ k, k ∉ bkey c <$> ds -> load m' k = load m k)
    ∧ counts_ok c m'
    ∧ (if errors_is he ErrRequeue then
         if decide (Forall (fun d => load m (bkey c d) < bMaxRedeliveries c) ds)
         then he' = he ∧ ∀ d, d ∈ ds -> load m' (bkey c d) = load m (bkey c d) + 1
         else he' = Some maxRedeliveriesErr ∧ ∀ d, d ∈ ds -> load m' (bkey c d) = 0
       else he' = he ∧ ∀ d, d ∈ ds -> load m' (bkey c d) = 0).
Proof.
  intros Hmax Hen Hnd Hb. destruct (errors_is he ErrRequeue) eqn:Hr.
  - pose proof (requeue_counts c m ds he Hmax Hen Hr Hnd Hb) as H. case_decide as Hd.
    + destruct H as (m' & -> & H1 & H2). do 3 eexists. split; [done|]. split; [done|]. split; [|done].
      intros k. specialize (Hb k). destruct (decide (k ∈ bkey c <$> ds)) as [Hk|Hk]; [|by rewrite H1].
      apply list_elem_of_fmap in Hk as (d & -> & Hin). rewrite Forall_forall in Hd.
      specialize (Hd d Hin). rewrite H2 by done. lia.
    + rewrite H. do 3 eexists. split; [done|]. destruct (forget_counts c m ds Hb) as (H1 & H2 & H3). by auto.
  - unfold applyBatchCounterB. rewrite decide_False by lia. rewrite Hen, Hr. simpl.
    do 3 eexists. split; [done|]. destruct (forget_counts c m ds Hb) as (H1 & H2 & H3). by auto.
Qed.

(** ** Witnesses *)

Lemma settles_plain c err : settles c (mkFEnv [] (HReturn err) BHandler [] [] None).
Proof. split; [constructor|done]. Qed.

(** Four deliveries with batches of two: one batch settled, one delivery pending
    and one not yet read when the context ends. *)
Definition three : bloop :=
  default bloop_start (bsteps pairs_config (deliver 1 succeeds ++ deliver 2 fails ++ deliver 3 succeeds) bloop_start).

Definition shut : bloop :=
  default bloop_start (bsteps pairs_config [LArrive (msg 4); LCtxDone succeeds (fun _ => None)] three).

(** One step of a run, from its label. *)
Ltac take_step l :=
  eapply rtc_l; [apply (bstep_ok_intro _ l); [|vm_compute; reflexivity]|].

Ltac arrival := intros t Ht; vm_compute in Ht; simpl;
  repeat (apply elem_of_cons in Ht as [->|Ht]; [lia|]); by apply not_elem_of_nil in Ht.

Lemma three_reachable : rtc (bstep_ok pairs_config) bloop_start three.
Proof.
  take_step (LArrive (msg 1)); [arrival|]. take_step (LDeliver DOk succeeds); [apply settles_plain|].
  take_step (LArrive (msg 2)); [arrival|]. take_step (LDeliver DOk fails); [apply settles_plain|].
  take_step (LArrive (msg 3)); [arrival|]. take_step (LDeliver DOk succeeds); [apply settles_plain|].
  vm_compute. apply rtc_refl.
Qed.

Lemma shut_reachable : rtc (bstep_ok pairs_config) bloop_start shut.
Proof.
  etransitivity; [exact three_reachable|].
  take_step (LArrive (msg 4)); [arrival|]. take_step (LCtxDone succeeds (fun _ => None)); [apply settles_plain|].
  vm_compute. apply rtc_refl.
Qed.


Definition counted : redeliveryCounter := {[ "mid:m"%string := 2 ]}.

Lemma counted_ok : counts_ok limit_config counted.
Proof.
  intros k. unfold load, counted. destruct (decide (k = "mid:m"%string)) as [->|Hk].
  - rewrite lookup_singleton_eq. simpl. lia.
  - rewrite lookup_singleton_ne by done. simpl. lia.
Qed.

Lemma batch_counterB_witness :
  ∃ evs m' he', applyBatchCounterB limit_config (Some counted) [dup 1] (Some (Sentinel ErrRequeue))
                = (evs, Some m', he') ∧ counts_ok limit_config m'.
Proof.
  destruct (batch_counterB_exact limit_config counted [dup 1] (Some (Sentinel ErrRequeue)))
    as (evs & m' & he' & E & _ & H & _).
  - vm_compute. split; reflexivity.
  - reflexivity.
  - apply NoDup_singleton.
  - apply counted_ok.
  - exists evs, m', he'. by split.
Defined.

(** ** Fixtures *)

(** [DeliveryFixture] (src/fixture.go): the fields the model of a delivery has. *)
Record DeliveryFixture : Type := mkFixture {
  fxQueue : string;
  fxHeaders : args;
  fxMessageID : string;
  fxCorrelationID : string;
  fxRedelivered : bool;
  fxDeliveryTag : Z
}.

(** No acknowledger and no [done] channel: the driver refuses its frames. *)
Definition NewDeliveryFixture (f : DeliveryFixture) : Delivery :=
  newDelivery (fxQueue f)
    (mkRaw (fxDeliveryTag f) (fxMessageID f) (fxCorrelationID f) (fxHeaders f) (fxRedelivered f) 0) false.

Definition NewBatchFixture (fs : list DeliveryFixture) : Batch := mkBatch (NewDeliveryFixture <$> fs) false [].

(** The driver's answer to a frame of a delivery without acknowledger. *)
Definition not_initialised : error := OtherError 2.

(** A fixture shows the death count its headers name for its queue; each of its
    verdicts, in whatever order, returns an error, as documented, the first the
    driver's and the later ones [ErrAlreadyResolved]; a batch fixture holds its
    deliveries in order, unresolved. *)
Lemma fixture_verdicts f fs herr closed herr' closed' :
  let d := NewDeliveryFixture f in
  DeathCount d = Count (ParseXDeath (fxHeaders f) (fxQueue f))
  ∧ (AckIf herr closed (Some not_initialised) d).1 = Some not_initialised
  ∧ (AckIf herr' closed' (Some not_initialised) (AckIf herr closed (Some not_initialised) d).2).1
      = Some (Sentinel ErrAlreadyResolved)
  ∧ (rMessageId ∘ dRaw) <$> deliveries (NewBatchFixture fs) = fxMessageID <$> fs
  ∧ Forall (fun d => resolved d = false) (deliveries (NewBatchFixture fs)).
Proof.
  cbv zeta. split_and!; [done|by destruct herr|by destruct herr, herr'| |].
  - simpl. rewrite <- list_fmap_compose. done.
  - simpl. apply Forall_fmap, Forall_true. done.
Qed.
