(* ===== verification/BatchSubscription.v ===== *)
(** * BatchSubscription: the subscription of a batch consumer

    Models, of [src/batch_consumer.go], [openBatchDeliveryCh] with its pump, the
    reconnect hook of [Consume] and the consume loop as the pump and the hook
    see it: what it receives, which subscription it listens to, and how it
    returns.  What the loop does with a delivery, and [flush], are the subject
    of [BatchConsumer.v].

    The goroutines are the loop, the pump of each subscription and the runs of
    the hook; a step is one channel operation.  The driver, the broker, the
    contexts and the reconnect barrier are the environment.  Every run of the
    hook has its own context, which the barrier cancels when its hooks are done
    ([runBarrier] of [Barrier.v]). *)

From S2P Require Import Prelude Errors Values Limiters Delivery Subscription.

(** ** Data *)

(** The pump: in its select, blocked on [out <- d], gone (which closes [out]). *)
Inductive bpump : Type := BSelect | BSend (d : rawDelivery) | BGone.

(** The context a pump watches: the one of [Consume], or of a run of the hook. *)
Inductive pump_ctx : Type := ConsumeCtx | HookCtx (i : nat).

(** One channel with its subscription.  [shut] tells that [closeCh] and
    [cancelCh] are closed.  [sent] and [got] are history: what the broker
    delivered, what the loop received. *)
Record bsub : Type := mkBSub {
  deliveries : list rawDelivery;
  deliveriesClosed : bool;
  cancelCh : option string;
  shut : bool;
  bOut : list rawDelivery;
  bpumpAt : bpump;
  pctx : pump_ctx;
  channelDone : bool;
  sent : list rawDelivery;
  got : list rawDelivery
}.

Definition new_bsub (x : pump_ctx) : bsub := mkBSub [] false None false [] BSelect x false [] [].

(** The loop: opening, in its select, in the select of a closed delivery
    channel, returned. *)
Inductive bloop : Type := LpOpening | LpSelect (cur : nat) | LpClosed | LpReturned (err : goerror).

(** A run of the hook: in its jitter, opening, sending on [resubCh], returned. *)
Inductive bhook : Type := HkJitter | HkOpen | HkSend (j : nat) | HkReturned (err : goerror).

Record bsystem : Type := mkBSystem {
  bsubs : gmap nat bsub;
  nextSub : nat;
  loop : bloop;
  resubCh : option nat;
  reasonCh : option string;
  bCtxDone : bool;
  bhooks : gmap nat (bhook * bool);     (* where it is, and whether its context is done *)
  nextHook : nat;
  counters : nat;                       (* how often counter B was replaced *)
  shown : list cancel_event
}.

Definition bstart : bsystem := mkBSystem ∅ 0 LpOpening None None false ∅ 0 0 [].

Definition put_sub (j : nat) (x : bsub) (s : bsystem) : bsystem := {| s with bsubs := <[ j := x ]> (bsubs s) |}.
Definition put_hook (i : nat) (h : bhook) (b : bool) (s : bsystem) : bsystem :=
  {| s with bhooks := <[ i := (h, b) ]> (bhooks s) |}.

(** ** openBatchDeliveryCh *)

(** The counter is replaced first; then the calls on the connection, as one
    answer; on success the pump is started under the context given. *)
Definition openBatchDeliveryCh (ctx : pump_ctx) (a : open_answer) (s : bsystem)
  : result error nat * bsystem :=
  let s := {| s with counters := S (counters s) |} in
  match open_error a with
  | Some err => (Err err, s)
  | None =>
      let j := nextSub s in
      (Ok j, {| s with bsubs := <[ j := new_bsub ctx ]> (bsubs s); nextSub := S j |})
  end.

Definition forward (tag : string) (s : bsystem) : bsystem :=
  match reasonCh s with Some _ => s | None => {| s with reasonCh := Some tag |} end.

(** Whether the context of a pump is done. *)
Definition ctx_done (x : pump_ctx) (s : bsystem) : bool :=
  match x with
  | ConsumeCtx => bCtxDone s
  | HookCtx i => match bhooks s !! i with Some (_, b) => b | None => true end
  end.

(** One arm of the pump's selects.  A closed delivery stream drains [cancelCh]
    without blocking, signals [channelDone] and ends; so do the other two ends;
    the end of its context only closes [out]. *)
Definition pump_arm_step (prefetch : nat) (j : nat) (arm : pump_arm) (s : bsystem) : option bsystem :=
  match bsubs s !! j with
  | None => None
  | Some x =>
      let stop x := {| x with bpumpAt := BGone; channelDone := true |} in
      match bpumpAt x, arm with
      | BSelect, ArmDelivery =>
          match deliveries x with
          | d :: r => Some (put_sub j {| x with deliveries := r; bpumpAt := BSend d |} s)
          | [] =>
              if deliveriesClosed x then
                Some (match cancelCh x with
                      | Some tag => forward tag (put_sub j (stop {| x with cancelCh := None |}) s)
                      | None => put_sub j (stop x) s
                      end)
              else None
          end
      | BSelect, ArmCancel =>
          match cancelCh x with
          | Some tag => Some (forward tag (put_sub j (stop {| x with cancelCh := None |}) s))
          | None => if shut x then Some (put_sub j (stop x) s) else None
          end
      | BSelect, ArmClose => if shut x then Some (put_sub j (stop x) s) else None
      | BSelect, ArmCtx =>
          if ctx_done (pctx x) s then Some (put_sub j {| x with bpumpAt := BGone |} s) else None
      | BSend d, ArmSend =>
          if decide (length (bOut x) < prefetch)%nat
          then Some (put_sub j {| x with bOut := bOut x ++ [d]; bpumpAt := BSelect |} s) else None
      | BSend _, ArmCtx =>
          if ctx_done (pctx x) s then Some (put_sub j {| x with bpumpAt := BGone |} s) else None
      | _, _ => None
      end
  end.

(** ** The reconnect hook *)

Inductive bhook_arm : Type := HaTimer | HaCtx | HaOpen (a : open_answer) | HaSend.

(** The hook opens under its own context. *)
Definition hook_arm_step (i : nat) (arm : bhook_arm) (s : bsystem) : option bsystem :=
  match bhooks s !! i with
  | None => None
  | Some (h, done) =>
      match h, arm with
      | HkJitter, HaCtx | HkSend _, HaCtx =>
          if done then Some (put_hook i (HkReturned (Some (Sentinel ContextCanceled))) done s) else None
      | HkJitter, HaTimer => Some (put_hook i HkOpen done s)
      | HkOpen, HaOpen a =>
          match openBatchDeliveryCh (HookCtx i) a s with
          | (Err err, s1) => Some (put_hook i (HkReturned (Some err)) done s1)
          | (Ok j, s1) => Some (put_hook i (HkSend j) done s1)
          end
      | HkSend j, HaSend =>
          match resubCh s with
          | Some _ => None
          | None => Some (put_hook i (HkReturned None) done {| s with resubCh := Some j |})
          end
      | _, _ => None
      end
  end.

(** ** The consume loop *)

Inductive bloop_arm : Type :=
| LaOpen (a : open_answer)
| LaCtx
| LaResub
| LaReason (p : probe)
| LaDelivery.

Definition broker_cancelled (c : config) (p : probe) (tag : string) (s : bsystem) : bsystem :=
  let '(evs, err) := surfaceBrokerCancel c tag (classifyCancel c p) in
  {| s with reasonCh := None; shown := shown s ++ evs; loop := LpReturned (Some err) |}.

(** [LaDelivery] is the receive from [cur.ch]: a delivery, or the channel closed
    once it is drained and its pump is gone. *)
Definition loop_step (c : config) (arm : bloop_arm) (s : bsystem) : option bsystem :=
  match loop s, arm with
  | LpOpening, LaOpen a =>
      match openBatchDeliveryCh ConsumeCtx a s with
      | (Err err, s1) => Some {| s1 with loop := LpReturned (Some err) |}
      | (Ok j, s1) => Some {| s1 with loop := LpSelect j |}
      end
  | LpSelect _, LaCtx | LpClosed, LaCtx =>
      if bCtxDone s then Some {| s with loop := LpReturned None |} else None
  | LpSelect _, LaResub | LpClosed, LaResub =>
      match resubCh s with
      | Some j => Some {| s with loop := LpSelect j; resubCh := None |}
      | None => None
      end
  | LpSelect _, LaReason p | LpClosed, LaReason p =>
      match reasonCh s with Some tag => Some (broker_cancelled c p tag s) | None => None end
  | LpSelect cur, LaDelivery =>
      match bsubs s !! cur with
      | Some x =>
          match bOut x, bpumpAt x with
          | d :: r, _ => Some (put_sub cur {| x with bOut := r; got := got x ++ [d] |} s)
          | [], BGone => Some {| s with loop := LpClosed |}
          | [], _ => None
          end
      | None => None
      end
  | _, _ => None
  end.

(** ** The environment *)

Inductive benv : Type :=
| EvDeliver (j : nat) (d : rawDelivery)
| EvDie (j : nat)                       (* the channel shuts down *)
| EvBasicCancel (j : nat) (tag : string)
| EvCtxDone
| EvReconnect                           (* the barrier starts a run of the hook *)
| EvBarrierDone (i : nat).              (* and cancels the hooks' context *)

Definition benv_step (e : benv) (s : bsystem) : option bsystem :=
  match e with
  | EvDeliver j d =>
      match bsubs s !! j with
      | Some x => if deliveriesClosed x then None
                  else Some (put_sub j {| x with deliveries := deliveries x ++ [d]; sent := sent x ++ [d] |} s)
      | None => None
      end
  | EvDie j =>
      match bsubs s !! j with
      | Some x => Some (put_sub j {| x with deliveriesClosed := true; shut := true |} s)
      | None => None
      end
  | EvBasicCancel j tag =>
      match bsubs s !! j with
      | Some x => if deliveriesClosed x then None
                  else Some (put_sub j {| x with deliveriesClosed := true; cancelCh := Some tag |} s)
      | None => None
      end
  | EvCtxDone => Some {| s with bCtxDone := true |}
  | EvReconnect =>
      Some {| s with bhooks := <[ nextHook s := (HkJitter, false) ]> (bhooks s); nextHook := S (nextHook s) |}
  | EvBarrierDone i =>
      match bhooks s !! i with Some (h, _) => Some (put_hook i h true s) | None => None end
  end.

Inductive blabel : Type :=
| BLoop (arm : bloop_arm)
| BPump (j : nat) (arm : pump_arm)
| BHook (i : nat) (arm : bhook_arm)
| BEnv (e : benv).

Definition bsys_step (c : config) (l : blabel) (s : bsystem) : option bsystem :=
  match l with
  | BLoop arm => loop_step c arm s
  | BPump j arm => pump_arm_step (prefetch c) j arm s
  | BHook i arm => hook_arm_step i arm s
  | BEnv e => benv_step e s
  end.

Inductive breachable (c : config) : bsystem -> Prop :=
| breach_start : breachable c bstart
| breach_step l s s' : breachable c s -> bsys_step c l s = Some s' -> breachable c s'.

Fixpoint bsteps (c : config) (ls : list blabel) (s : bsystem) : option bsystem :=
  match ls with
  | [] => Some s
  | l :: r => match bsys_step c l s with Some s' => bsteps c r s' | None => None end
  end.

Lemma bsteps_reach c ls s s' : breachable c s -> bsteps c ls s = Some s' -> breachable c s'.
Proof.
  revert s. induction ls as [|l ls IH]; intros s Hs; simpl; [by intros [= <-]|].
  destruct (bsys_step c l s) eqn:E; [|done]. apply IH. by eapply breach_step.
Qed.

(** ** Lemmas: the order of deliveries *)

(** What the pump still has to hand over. *)
Definition in_pump (x : bsub) : option (list rawDelivery) :=
  match bpumpAt x with
  | BSelect => Some (deliveries x)
  | BSend d => Some (d :: deliveries x)
  | BGone => None
  end.

Record bsub_ok (c : config) (x : bsub) : Prop := {
  bo_cap : (length (bOut x) <= prefetch c)%nat;
  bo_order : match in_pump x with
             | Some rest => sent x = got x ++ bOut x ++ rest
             | None => ∃ lost, sent x = got x ++ bOut x ++ lost
             end
}.

Ltac bsub_cases H :=
  unfold bsys_step, loop_step, pump_arm_step, hook_arm_step, benv_step, openBatchDeliveryCh, broker_cancelled in H;
  branches H; cbn in H; repeat match goal with Hs : (_, _) = (_, _) |- _ => injection Hs as ? ?; subst end;
  try discriminate H; injection H as <-.

Lemma bsub_ok_pump c j arm s s' :
  (∀ k x, bsubs s !! k = Some x -> bsub_ok c x) -> pump_arm_step (prefetch c) j arm s = Some s' ->
  ∀ k x, bsubs s' !! k = Some x -> bsub_ok c x.
Proof.
  intros Hi H k x Hx. unfold pump_arm_step in H. destruct (bsubs s !! j) as [y|] eqn:Hy; [|done].
  pose proof (Hi _ _ Hy) as [Hc Ho]. unfold in_pump in Ho.
  assert (∀ z, Some (put_sub j z s) = Some s' ∨ (∃ tag, Some (forward tag (put_sub j z s)) = Some s') ->
    bsub_ok c z -> bsub_ok c x) as Hput.
  { intros z Hs Hz. assert (<[ j := z ]> (bsubs s) !! k = Some x) as Hk.
    { destruct Hs as [[= <-]|(tag & [= <-])]; [done|]. unfold forward in Hx. by destruct (reasonCh _). }
    apply lookup_insert_Some in Hk as [[_ <-]|[_ Hk]]; [done|by eapply Hi]. }
  assert (∀ z, bOut z = bOut y -> got z = got y -> sent z = sent y -> bpumpAt z = BGone -> bsub_ok c z) as Hgone.
  { intros z E1 E2 E3 E4. split; unfold in_pump; rewrite ?E1, ?E2, ?E3, ?E4; [done|].
    destruct (bpumpAt y); eauto. }
  destruct (bpumpAt y) as [|d|], arm; try done.
  - destruct (deliveries y) as [|d r] eqn:Ed.
    + destruct (deliveriesClosed y); [|done]. destruct (cancelCh y) as [tag|];
        (eapply Hput; [eauto|by apply Hgone]).
    + eapply Hput; [by left|]. split; [done|]. unfold in_pump. simpl. done.
  - destruct (cancelCh y) as [tag|]; [|destruct (shut y); [|done]];
      (eapply Hput; [eauto|by apply Hgone]).
  - destruct (shut y); [|done]. eapply Hput; [eauto|by apply Hgone].
  - destruct (ctx_done _ _); [|done]. eapply Hput; [eauto|by apply Hgone].
  - case_decide; [|done]. eapply Hput; [by left|]. split; unfold in_pump; simpl.
    + rewrite length_app. simpl. lia.
    + by rewrite Ho, <- app_assoc.
  - destruct (ctx_done _ _); [|done]. eapply Hput; [eauto|by apply Hgone].
Qed.

Lemma bsub_ok_step c l s s' :
  (∀ k x, bsubs s !! k = Some x -> bsub_ok c x) -> bsys_step c l s = Some s' ->
  ∀ k x, bsubs s' !! k = Some x -> bsub_ok c x.
Proof.
  intros Hi H. destruct l as [arm|j arm|i arm|e]; [|by eapply bsub_ok_pump| |]; intros k x Hx.
  all: assert (bsub_ok c (new_bsub ConsumeCtx) ∧ ∀ i, bsub_ok c (new_bsub (HookCtx i))) as [Hn1 Hn2]
    by (split; [|intros ?]; split; simpl; [lia|done|lia|done]).
  all: bsub_cases H; cbn in Hx.
  all: try apply lookup_insert_Some in Hx as [[_ <-]|[_ Hx]]; eauto.
  all: match goal with E : bsubs _ !! _ = Some _ |- _ => destruct (Hi _ _ E) as [Hc Ho] end;
    split; unfold in_pump in *; cbn; rewrite ?Heql in *; try done; try (simpl in *; lia).
  - destruct (bpumpAt b); simpl in Ho |- *; rewrite <- ?app_assoc; try done.
    destruct Ho as (lost & ->). exists lost. by rewrite <- app_assoc.
  - destruct (bpumpAt b); simpl in *.
    + by rewrite Ho, !app_assoc.
    + by rewrite Ho, <- !app_assoc.
    + destruct Ho as (lost & ->). exists (lost ++ [d]). by rewrite !app_assoc.
Qed.

(** Identities are not reused. *)
Definition bfresh (s : bsystem) : Prop :=
  (∀ j, (nextSub s <= j)%nat -> bsubs s !! j = None) ∧ ∀ i, (nextHook s <= i)%nat -> bhooks s !! i = None.

Lemma bfresh_step c l s s' : bfresh s -> bsys_step c l s = Some s' -> bfresh s'.
Proof.
  intros [Hs Hh] H. destruct l as [arm|j arm|i arm|e]; bsub_cases H; unfold bfresh, forward; cbn;
    repeat case_match; cbn; split; intros q Hq; try (apply Hs; lia); try (apply Hh; lia).
  all: apply lookup_insert_None; split; [first [apply Hs; lia|apply Hh; lia]|];
    first [lia|intros ->; first [by rewrite Hs in * by lia|by rewrite Hh in * by lia]].
Qed.

Lemma breach_fresh c s : breachable c s -> bfresh s.
Proof. induction 1; [by split|by eapply bfresh_step]. Qed.

(** ** Properties *)

(** A batch consumer never reorders, invents or duplicates a delivery of a
    subscription, and its buffer never exceeds the prefetch: while the pump
    runs, what the loop received, then its buffer, then what the pump and the
    driver hold are exactly what the broker sent, in order; when the pump is
    gone only a suffix can be missing. *)
Lemma batch_subscription_fifo c s j x :
  breachable c s -> bsubs s !! j = Some x ->
  (length (bOut x) <= prefetch c)%nat
  ∧ match bpumpAt x with
    | BSelect => sent x = got x ++ bOut x ++ deliveries x
    | BSend d => sent x = got x ++ bOut x ++ d :: deliveries x
    | BGone => ∃ lost, sent x = got x ++ bOut x ++ lost
    end.
Proof.
  intros Hs. revert j x. assert (∀ j x, bsubs s !! j = Some x -> bsub_ok c x) as H.
  { induction Hs as [|l s s' _ IH H]; [done|by eapply bsub_ok_step]. }
  intros j x Hx. destruct (H _ _ Hx) as [Hc Ho]. split; [done|]. unfold in_pump in Ho. by destruct (bpumpAt x).
Qed.

(** A [basic.cancel] on the subscription the loop listens to is surfaced: the
    pump forwards it and the loop returns [ErrConsumerCancelled]. *)
Lemma batch_cancel_surfaces c s j x tag p :
  loop s = LpSelect j -> bsubs s !! j = Some x -> bpumpAt x = BSelect -> cancelCh x = Some tag ->
  ∃ s', bsteps c [BPump j ArmCancel; BLoop (LaReason p)] s = Some s'
    ∧ loop s' = LpReturned (Some (Wrap [Sentinel ErrConsumerCancelled])).
Proof.
  intros Hl Hx Hp Hc. cbn [bsteps]. unfold bsys_step at 1. unfold pump_arm_step. rewrite Hx, Hp, Hc.
  unfold bsys_step, forward. cbn [reasonCh put_sub].
  destruct (reasonCh s) eqn:Hr; unfold loop_step; cbn; rewrite ?Hl, ?Hr; eexists; by split.
Qed.

(** ** Two ways to stop for good *)

(** A state in which no goroutine of the consumer can move, although its
    context is alive: only the environment can wake it. *)
Definition stuck (c : config) (s : bsystem) : Prop :=
  bCtxDone s = false ∧ (∀ err, loop s ≠ LpReturned err)
  ∧ (∀ arm, loop_step c arm s = None)
  ∧ (∀ j arm, pump_arm_step (prefetch c) j arm s = None) ∧ (∀ i arm, hook_arm_step i arm s = None).

Definition run_of (c : config) (ls : list blabel) : bsystem := default bstart (bsteps c ls bstart).

Lemma run_of_reach c ls :
  (match bsteps c ls bstart with Some _ => true | None => false end) = true -> breachable c (run_of c ls).
Proof.
  unfold run_of. destruct (bsteps c ls bstart) eqn:E; [|done]. intros _.
  eapply bsteps_reach; [apply breach_start|exact E].
Qed.

Definition small : config := mkConfig 8 1 false 0 false false 100.
Definition msg0 : rawDelivery := mkRaw 1 "m-1" "" None false 10.

(** A reconnect: the hook resubscribes, the barrier ends and cancels the hook's
    context, the new pump takes that arm of its select, the loop finds its
    channel closed. *)
Definition reconnected : list blabel :=
  [BLoop (LaOpen AnsOk); BEnv (EvDie 0); BPump 0 ArmClose; BLoop LaDelivery; BEnv EvReconnect; BHook 0 HaTimer;
   BHook 0 (HaOpen AnsOk); BHook 0 HaSend; BLoop LaResub; BEnv (EvBarrierDone 0); BPump 1 ArmCtx; BLoop LaDelivery;
   BEnv (EvDeliver 1 msg0)].

(** Every run of the hook is cancelled when its barrier is done, and its pump
    can then only end. *)
Lemma hook_pump_can_only_end c j x i h s :
  bsubs s !! j = Some x -> pctx x = HookCtx i -> bhooks s !! i = Some (h, true) -> bpumpAt x ≠ BGone ->
  ∃ s', pump_arm_step (prefetch c) j ArmCtx s = Some s'
    ∧ ∃ x', bsubs s' !! j = Some x' ∧ bpumpAt x' = BGone ∧ channelDone x' = channelDone x.
Proof.
  intros Hx Hc Hh Hp. unfold pump_arm_step. rewrite Hx, Hc. cbn [ctx_done]. rewrite Hh.
  destruct (bpumpAt x) as [|d|]; [| |done]; eexists; (split; [reflexivity|]); eexists;
    (split; [apply lookup_insert_eq|done]).
Qed.

(** After a reconnect the channel is alive and the broker delivers on it, but
    nothing in the consumer moves any more. *)
Lemma batch_stalls_after_reconnect :
  ∃ s x, breachable small s ∧ stuck small s ∧ bsubs s !! 1%nat = Some x
    ∧ deliveriesClosed x = false ∧ shut x = false ∧ deliveries x = [msg0] ∧ got x = [].
Proof.
  assert (breachable small (run_of small reconnected)) as Hr by (apply run_of_reach; by vm_compute).
  destruct (breach_fresh _ _ Hr) as [Hs Hh]. exists (run_of small reconnected). eexists. split; [done|].
  split; [|split_and!; [vm_compute; reflexivity|done..]].
  split; [vm_compute; reflexivity|]. split; [vm_compute; intros err [=]|].
  split; [intros []; vm_compute; reflexivity|]. split.
  - intros [|[|j]] arm; [by destruct arm; vm_compute..|]. unfold pump_arm_step. by rewrite Hs by (vm_compute; lia).
  - intros [|i] arm; [by destruct arm; vm_compute|]. unfold hook_arm_step. by rewrite Hh by (vm_compute; lia).
Qed.

(** A channel that dies while its socket lives: no reconnect follows, so no hook
    runs, and the loop waits for a replacement that nobody sends. *)
Definition channel_died : list blabel :=
  [BLoop (LaOpen AnsOk); BEnv (EvDie 0); BPump 0 ArmClose; BLoop LaDelivery].

Lemma batch_parks_on_channel_death :
  breachable small (run_of small channel_died) ∧ stuck small (run_of small channel_died).
Proof.
  assert (breachable small (run_of small channel_died)) as Hr by (apply run_of_reach; by vm_compute).
  destruct (breach_fresh _ _ Hr) as [Hs Hh]. split; [done|].
  split; [vm_compute; reflexivity|]. split; [vm_compute; intros err [=]|].
  split; [intros []; vm_compute; reflexivity|]. split.
  - intros [|j] arm; [by destruct arm; vm_compute|]. unfold pump_arm_step. by rewrite Hs by (vm_compute; lia).
  - intros i arm. unfold hook_arm_step. by rewrite Hh by (vm_compute; lia).
Qed.

(** ** Witness *)

Definition two_deliveries : list blabel :=
  [BLoop (LaOpen AnsOk); BEnv (EvDeliver 0 msg0); BEnv (EvDeliver 0 (mkRaw 2 "m-2" "" None false 5));
   BPump 0 ArmDelivery; BPump 0 ArmSend; BLoop LaDelivery; BPump 0 ArmDelivery].

Lemma batch_subscription_fifo_witness :
  ∃ x, bsubs (run_of small two_deliveries) !! 0%nat = Some x ∧ got x = [msg0]
    ∧ sent x = got x ++ bOut x ++ mkRaw 2 "m-2" "" None false 5 :: deliveries x.
Proof.
  assert (∃ x, bsubs (run_of small two_deliveries) !! 0%nat = Some x ∧ got x = [msg0]
               ∧ bpumpAt x = BSend (mkRaw 2 "m-2" "" None false 5)) as (x & Hx & Hg & Hp)
    by (eexists; split; [vm_compute; reflexivity|split; reflexivity]).
  exists x. split; [exact Hx|]. split; [exact Hg|].
  destruct (batch_subscription_fifo small (run_of small two_deliveries) 0 x) as [_ H];
    [apply run_of_reach; vm_compute; reflexivity|exact Hx|]. rewrite Hp in H. exact H.
Defined.
