(* ===== verification/Builders.v ===== *)
(** * Builders: options, their defaults and what Build establishes

    Models [src/consumer_builder.go], [src/publisher_builder.go],
    [src/batch_consumer_builder.go], [src/rpc_caller_builder.go],
    [src/rpc_replier_builder.go] and [newConsumer] of [src/consumer.go]: the
    fields of each builder, one definition per option method, the defaults and
    the checks of [Build], and the run-time configuration it hands to the parts
    modelled elsewhere.

    Callbacks, codecs, metrics, tracers and stores are references; [None] is
    nil.  The interface [LastWins] states the documented policy of the option
    methods once for all builders. *)

From S2P Require Import Prelude Errors Values Limiters Topology Consumer Subscription Message Rpc Replier BatchConsumer.

Open Scope go_scope.

(** ** Last wins *)

(** Option calls [O] on a builder [B]: two calls of one option leave the effect
    of the second, calls of different options do not interfere. *)
Class LastWins {B O : Type} (slot : O -> nat) (apply : O -> B -> B) : Prop := {
  absorb : ∀ o1 o2 b, slot o1 = slot o2 -> apply o2 (apply o1 b) = apply o2 b;
  commute : ∀ o1 o2 b, slot o1 ≠ slot o2 -> apply o2 (apply o1 b) = apply o1 (apply o2 b)
}.

Section last_wins.
  Context {B O : Type} {slot : O -> nat} {apply : O -> B -> B} `{!LastWins slot apply}.

Definition apply_all (os : list O) (b : B) : B := foldl (fun b o => apply o b) b os.

(** The last call of option [k]. *)
Fixpoint last_of (k : nat) (os : list O) : option O :=
  match os with
  | [] => None
  | o :: r => match last_of k r with
              | Some x => Some x
              | None => if decide (slot o = k) then Some o else None
              end
  end.

(** The calls that no later call of the same option follows. *)
Fixpoint survivors (os : list O) : list O :=
  match os with
  | [] => []
  | o :: r => match last_of (slot o) r with Some _ => survivors r | None => o :: survivors r end
  end.

Lemma last_of_slot k os o : last_of k os = Some o -> slot o = k.
Proof.
  induction os as [|o' r IH]; simpl; [done|]. destruct (last_of k r); [by intros [= ->]; apply IH|].
  case_decide; by intros [= <-].
Qed.

Lemma apply_all_absorbs o os b : is_Some (last_of (slot o) os) -> apply_all os (apply o b) = apply_all os b.
Proof.
  revert b. induction os as [|o' r IH]; intros b [x Hx]; [done|]. simpl in *.
  destruct (decide (slot o' = slot o)) as [E|E]; [by rewrite (absorb o o')|].
  destruct (last_of (slot o) r); [|done].
  rewrite (commute o o') by done. by apply IH.
Qed.

Lemma survivors_apply os b : apply_all (survivors os) b = apply_all os b.
Proof.
  revert b. induction os as [|o r IH]; intros b; [done|]. simpl.
  destruct (last_of (slot o) r) eqn:E; simpl; rewrite IH; [|done].
  symmetry. apply apply_all_absorbs. by rewrite E.
Qed.

Lemma survivors_elem os o : o ∈ survivors os <-> last_of (slot o) os = Some o.
Proof.
  induction os as [|o' r IH]; simpl; [set_solver|].
  destruct (last_of (slot o') r) as [y|] eqn:E.
  - rewrite IH. destruct (last_of (slot o) r) eqn:E2; [done|].
    case_decide as Hs; [|done]. rewrite Hs in E. congruence.
  - rewrite elem_of_cons, IH. destruct (last_of (slot o) r) as [z|] eqn:E2.
    + split; [intros [->|?]; congruence|by right].
    + case_decide as Hs; split; try naive_solver.
Qed.

Lemma survivors_slots os : NoDup (slot <$> survivors os).
Proof.
  induction os as [|o r IH]; simpl; [constructor|].
  destruct (last_of (slot o) r) eqn:E; [done|]. simpl. constructor; [|done].
  intros (x & Hs & Hx)%list_elem_of_fmap. apply survivors_elem in Hx. rewrite <- Hs in Hx. congruence.
Qed.

Lemma apply_all_permutes os os' b : os ≡ₚ os' -> NoDup (slot <$> os) -> apply_all os b = apply_all os' b.
Proof.
  intros Hp. revert b. induction Hp as [|o os os' Hp IH|o o' os|os1 os2 os3 H12 IH1 H23 IH2]; intros b Hn; simpl in *.
  - done.
  - apply IH. by inversion Hn.
  - f_equal. inversion Hn as [|? ? Hx _]; subst. apply commute. set_solver.
  - rewrite IH1 by done. apply IH2. by rewrite <- H12.
Qed.

(** The builder depends on the last call of each option, and on nothing else. *)
Lemma last_call_wins os os' b :
  (∀ k, last_of k os = last_of k os') -> apply_all os b = apply_all os' b.
Proof.
  intros H. rewrite <- (survivors_apply os), <- (survivors_apply os').
  apply apply_all_permutes; [|apply survivors_slots].
  assert (∀ l, NoDup (slot <$> survivors l) -> NoDup (survivors l)) as Hn by (intros l; apply NoDup_fmap_1).
  apply NoDup_Permutation; [apply Hn, survivors_slots|apply Hn, survivors_slots|].
  intros o. by rewrite !survivors_elem, H.
Qed.
End last_wins.

(** References to user objects, and the codecs the library supplies. *)
Abbreviation ref := nat.
Inductive codec_ref : Type := UserCodec (r : ref) | CodecJSON (strict : bool).

(** [codec.NewJSON]. *)
Definition NewJSON : codec_ref := CodecJSON false.

(** Metrics and tracers: a user's, or the no-op ones. *)
Inductive sink : Type := UserSink (r : ref) | NoOp.

(** [or_default]: a nil field takes its default. *)
Definition or_default {A} (d : A) (o : option A) : option A := match o with Some _ => o | None => Some d end.

(** A guard of [Build]. *)
Definition guard (bad : bool) : result error unit := if bad then Err invalidOptions else Ok tt.

(** ** topologyHasDLX *)

Definition topologyHasDLX (t : Topology) (queue : string) : bool :=
  existsb (fun dl => bool_decide (dSource dl = queue)) (DeadLetters t)
  || existsb (fun q => bool_decide (qName q = queue) && has_arg (qArgs q) "x-dead-letter-exchange") (Queues t).

(** The tag of a consumer: the one set, else generated. *)
Definition consumer_tag (tag : string) (uuid : result error string) : result error string :=
  if decide (tag = ""%string) then
    match uuid with
    | Err err => Err (Wrap [err])
    | Ok id => Ok ("ctag-" +:+ id)%string
    end
  else Ok tag.

(** [TopologyHint]: whether counter B is disabled for the queue. *)
Definition hint_disables (q : Queue) : bool :=
  bool_decide (qType q = QueueTypeQuorum) && bool_decide (0 < qDeliveryLimit q).

(** ** ConsumerBuilder *)

Module ConsumerBuilder.

Record t : Type := mk {
  conn : option Z;               (* the connection, by its number of consumer sockets *)
  queue : string;
  tag : string;
  concurrency : Z;
  prefetch : Z;
  maxInFlightBytes : Z;
  channelQoS : bool;
  priority : Z;
  prioritySet : bool;
  autoAck : bool;
  exclusive : bool;
  consumeArgs : args;
  onCancel : option ref;
  handlerTimeout : Z;
  timeoutVerdict : TimeoutVerdict;
  depthSampleInterval : Z;
  maxRedeliveries : Z;
  counterBDisabled : bool;
  topology : option Topology;
  allowMissingDLX : bool;
  knownHasDLX : bool;
  dedupeStore : option ref;
  dedupeTTL : Z;
  c : option codec_ref;
  cm : option sink;
  tracer : option sink
}.

Definition ConsumerFor (conn : option Z) : t :=
  mk conn "" "" 0 0 0 false 0 false false false None None 0 TimeoutNackNoRequeue 0 0 false None false false
     None 0 None None None.

(** The option methods.  [Concurrency] takes a uint, [Prefetch] a uint16. *)
Inductive call : Type :=
| Queue (name : string)
| Tag (consumerTag : string)
| Concurrency (n : Z)
| Prefetch (count : Z)
| PrefetchBytes (n : Z)
| MaxInFlightBytes (n : Z)
| WithQueueDepthSampler (interval : Z)
| WithDedupe (store : option ref) (ttl : Z)
| ChannelQoS
| Priority (p : Z)
| HandlerTimeout (d : Z)
| HandlerTimeoutVerdict (v : TimeoutVerdict)
| Codec (c : option codec_ref)
| Metrics (cm : option sink)
| WithoutMetrics
| Tracer (tr : option sink)
| Exclusive
| AutoAck
| Args (a : args)
| OnCancel (fn : option ref)
| MaxRedeliveries (n : Z)
| TopologyHint (q : Topology.Queue)
| WithTopology (topo : option Topology)      (* the method Topology *)
| AllowMissingDLX.

Definition apply (o : call) (b : t) : t :=
  match o with
  | Queue name => {| b with queue := name |}
  | Tag consumerTag => {| b with tag := consumerTag |}
  | Concurrency n => {| b with concurrency := n |}
  | Prefetch count => {| b with prefetch := count |}
  | PrefetchBytes _ => b
  | MaxInFlightBytes n => {| b with maxInFlightBytes := n |}
  | WithQueueDepthSampler interval => {| b with depthSampleInterval := interval |}
  | WithDedupe store ttl => {| b with dedupeStore := store; dedupeTTL := ttl |}
  | ChannelQoS => {| b with channelQoS := true |}
  | Priority p => {| b with priority := p; prioritySet := true |}
  | HandlerTimeout d => {| b with handlerTimeout := d |}
  | HandlerTimeoutVerdict v => {| b with timeoutVerdict := v |}
  | Codec c => {| b with c := c |}
  | Metrics cm => {| b with cm := cm |}
  | WithoutMetrics => {| b with cm := Some NoOp |}
  | Tracer tr => {| b with tracer := tr |}
  | Exclusive => {| b with exclusive := true |}
  | AutoAck => {| b with autoAck := true |}
  | Args a => {| b with consumeArgs := a |}
  | OnCancel fn => {| b with onCancel := fn |}
  | MaxRedeliveries n => {| b with maxRedeliveries := n |}
  | TopologyHint q => {| b with counterBDisabled := hint_disables q |}
  | WithTopology topo => {| b with topology := topo |}
  | AllowMissingDLX => {| b with allowMissingDLX := true |}
  end.

(** The option a call sets; [Metrics] and [WithoutMetrics] set the same. *)
Definition slot (o : call) : nat :=
  match o with
  | Queue _ => 0 | Tag _ => 1 | Concurrency _ => 2 | Prefetch _ => 3 | PrefetchBytes _ => 4
  | MaxInFlightBytes _ => 5 | WithQueueDepthSampler _ => 6 | WithDedupe _ _ => 7 | ChannelQoS => 8
  | Priority _ => 9 | HandlerTimeout _ => 10 | HandlerTimeoutVerdict _ => 11 | Codec _ => 12
  | Metrics _ | WithoutMetrics => 13 | Tracer _ => 14 | Exclusive => 15 | AutoAck => 16 | Args _ => 17
  | OnCancel _ => 18 | MaxRedeliveries _ => 19 | TopologyHint _ => 20 | WithTopology _ => 21
  | AllowMissingDLX => 22
  end.

#[global] Instance last_wins : LastWins slot apply.
Proof.
  split; intros o1 o2 b; destruct o1, o2; cbn [slot]; intros H; first [reflexivity|done|by destruct H].
Qed.

Definition applyDefaults (b : t) : t :=
  {| b with concurrency := if decide (concurrency b = 0) then 1 else concurrency b;
            prefetch := if decide (prefetch b = 0) then 64 else prefetch b;
            c := or_default NewJSON (c b);
            cm := or_default NoOp (cm b);
            tracer := or_default NoOp (tracer b) |}.

(** The consumer [newConsumer] builds: what its dispatch and its subscription
    read, and the rest. *)
Record consumer : Type := mkConsumer {
  builder : t;                          (* the resolved options *)
  cnTag : string;
  pinned : Z;                           (* the index of its socket *)
  limiter : option byteLimiter;
  dispatchConfig : Consumer.config;
  counter : Consumer.redeliveryCounter;
  autoAckDropLog : dropSampler;
  dedupeErrLog : dropSampler
}.

(** [maxBody] bounds the bodies of a run. *)
Definition subscription_config (maxBody : Z) (cn : consumer) : Subscription.config :=
  let b := builder cn in
  Subscription.mkConfig (Z.to_nat (prefetch b)) (Z.to_nat (concurrency b)) (autoAck b) (maxInFlightBytes b)
    (match onCancel b with Some _ => true | None => false end)
    (match cm b with Some NoOp => true | _ => false end) maxBody.

Definition defaultAutoAckLogEvery : Z := 100.
Definition defaultDedupeErrLogEvery : Z := 100.

Definition newConsumer (numConns : Z) (b : t) (tag : string) : consumer :=
  mkConsumer b tag (connIndexForTag tag numConns) (newByteLimiter (maxInFlightBytes b))
    (Consumer.mkConfig (queue b) tag (autoAck b) (handlerTimeout b) (timeoutVerdict b) (maxRedeliveries b)
       (counterBDisabled b) (knownHasDLX b))
    ∅ (mkSampler defaultAutoAckLogEvery 0) (mkSampler defaultDedupeErrLogEvery 0).

Inductive warning : Type := WPrefetchBelowConcurrency | WMissingDLX.

(** [uuid] is what [uuid.NewV7] returns.  [uint16(cfg.concurrency)] keeps the
    low 16 bits. *)
Definition Build (b : t) (uuid : result error string) : result error consumer * list warning :=
  match conn b with
  | None => (Err invalidOptions, [])
  | Some numConns =>
      if decide (queue b = ""%string) then (Err invalidOptions, [])
      else
        let cfg := applyDefaults b in
        match consumer_tag (tag b) uuid with
        | Err err => (Err err, [])
        | Ok tag =>
            let w1 := if decide (prefetch cfg < wrap_unsigned 16 (concurrency cfg))
                      then [WPrefetchBelowConcurrency] else [] in
            let known := match topology cfg with
                         | Some topo => topologyHasDLX topo (queue cfg)
                         | None => false
                         end in
            let cfg := {| cfg with knownHasDLX := known |} in
            let w2 := if bool_decide (0 < maxRedeliveries cfg)
                         && match topology cfg with Some _ => true | None => false end
                         && negb known && negb (allowMissingDLX cfg)
                      then [WMissingDLX] else [] in
            (Ok (newConsumer numConns cfg tag), w1 ++ w2)
        end
  end.

End ConsumerBuilder.

(** ** BatchConsumerBuilder *)

Module BatchConsumerBuilder.

Record t : Type := mk {
  conn : option Z;
  queue : string;
  tag : string;
  size : Z;
  flushAfter : Z;
  handlerTimeout : Z;
  timeoutVerdict : TimeoutVerdict;
  prefetch : Z;
  channelQoS : bool;
  priority : Z;
  prioritySet : bool;
  exclusive : bool;
  consumeArgs : args;
  onCancel : option ref;
  maxRedeliveries : Z;
  counterBDisabled : bool;
  c : option codec_ref;
  cm : option sink;
  tracer : option sink
}.

Definition BatchConsumerFor (conn : option Z) : t :=
  mk conn "" "" 0 0 0 TimeoutNackNoRequeue 0 false 0 false false None None 0 false None None None.

Inductive call : Type :=
| Queue (name : string)
| Tag (consumerTag : string)
| Size (n : Z)
| FlushAfter (d : Z)
| HandlerTimeout (d : Z)
| HandlerTimeoutVerdict (v : TimeoutVerdict)
| Prefetch (count : Z)
| PrefetchBytes (n : Z)
| ChannelQoS
| Priority (p : Z)
| Exclusive
| Args (a : args)
| OnCancel (fn : option ref)
| MaxRedeliveries (n : Z)
| TopologyHint (q : Topology.Queue)
| Codec (c : option codec_ref)
| Metrics (cm : option sink)
| WithoutMetrics
| Tracer (tr : option sink).

Definition apply (o : call) (b : t) : t :=
  match o with
  | Queue name => {| b with queue := name |}
  | Tag consumerTag => {| b with tag := consumerTag |}
  | Size n => {| b with size := n |}
  | FlushAfter d => {| b with flushAfter := d |}
  | HandlerTimeout d => {| b with handlerTimeout := d |}
  | HandlerTimeoutVerdict v => {| b with timeoutVerdict := v |}
  | Prefetch count => {| b with prefetch := count |}
  | PrefetchBytes _ => b
  | ChannelQoS => {| b with channelQoS := true |}
  | Priority p => {| b with priority := p; prioritySet := true |}
  | Exclusive => {| b with exclusive := true |}
  | Args a => {| b with consumeArgs := a |}
  | OnCancel fn => {| b with onCancel := fn |}
  | MaxRedeliveries n => {| b with maxRedeliveries := n |}
  | TopologyHint q => {| b with counterBDisabled := hint_disables q |}
  | Codec c => {| b with c := c |}
  | Metrics cm => {| b with cm := cm |}
  | WithoutMetrics => {| b with cm := Some NoOp |}
  | Tracer tr => {| b with tracer := tr |}
  end.

Definition slot (o : call) : nat :=
  match o with
  | Queue _ => 0 | Tag _ => 1 | Size _ => 2 | FlushAfter _ => 3 | HandlerTimeout _ => 4
  | HandlerTimeoutVerdict _ => 5 | Prefetch _ => 6 | PrefetchBytes _ => 7 | ChannelQoS => 8 | Priority _ => 9
  | Exclusive => 10 | Args _ => 11 | OnCancel _ => 12 | MaxRedeliveries _ => 13 | TopologyHint _ => 14
  | Codec _ => 15 | Metrics _ | WithoutMetrics => 16 | Tracer _ => 17
  end.

#[global] Instance last_wins : LastWins slot apply.
Proof.
  split; intros o1 o2 b; destruct o1, o2; cbn [slot]; intros H; first [reflexivity|done|by destruct H].
Qed.

(** [uint16(b.size)] keeps the low 16 bits. *)
Definition applyDefaults (b : t) : t :=
  let sz := if decide (size b = 0) then 100 else size b in
  {| b with size := sz;
            prefetch := if decide (prefetch b = 0)
                        then (if decide (64 < sz) then wrap_unsigned 16 sz else 64) else prefetch b;
            c := or_default NewJSON (c b);
            cm := or_default NoOp (cm b);
            tracer := or_default NoOp (tracer b) |}.

Record consumer : Type := mkConsumer {
  builder : t;
  pinned : Z;
  batchConfig : bconfig;
  counter : Consumer.redeliveryCounter
}.

Definition Build (b : t) (uuid : result error string) : result error consumer :=
  match conn b with
  | None => Err invalidOptions
  | Some numConns =>
      let? _ := guard (bool_decide (queue b = ""%string)) in
      let cfg := applyDefaults b in
      let? _ := guard (bool_decide (65535 < size cfg)) in
      let? _ := guard (bool_decide (prefetch cfg < size cfg)) in
      let? tag := consumer_tag (tag b) uuid in
      Ok (mkConsumer cfg (connIndexForTag tag numConns)
            (mkBConfig (queue cfg) tag (size cfg) (flushAfter cfg) (handlerTimeout cfg) (timeoutVerdict cfg)
               (maxRedeliveries cfg) (counterBDisabled cfg)) ∅)
  end.

End BatchConsumerBuilder.

(** ** PublisherBuilder *)

Module PublisherBuilder.

(** The connection, by its number of publisher sockets, its channel pool size
    and the authenticated user. *)
Record connection : Type := mkConnection { numPub : Z; channelPoolSize : Z; authenticatedUser : string }.

Record t : Type := mk {
  conn : option connection;
  exchange : string;
  routingKey : string;
  c : option codec_ref;
  pm : option sink;
  tracer : option sink;
  mandatory : bool;
  onReturn : option ref;
  confirmTimeout : Z;
  confirmTimeoutSet : bool;
  publishTimeout : Z;
  publishBatchMaxSize : Z;
  maxMessageSizeBytes : Z;
  maxMessageSizeBytesSet : bool;
  retries : option Z;              (* retryPolicy.Retries, once retryPolicySet *)
  stampUserID : bool;
  publishRateLimit : Z
}.

Definition PublisherFor (conn : option connection) : t :=
  mk conn "" "" None None None false None 0 false 0 0 0 false None false 0.

Inductive call : Type :=
| Exchange (name : string)
| RoutingKey (rk : string)
| Codec (c : option codec_ref)
| Metrics (pm : option sink)
| WithoutMetrics
| Tracer (tr : option sink)
| Mandatory
| OnReturn (cb : option ref)
| ConfirmTimeout (d : Z)
| PublishTimeout (d : Z)
| PublishBatchMaxSize (n : Z)
| MaxMessageSizeBytes (n : Z)
| PublishRetry (retries : Z)
| WithPublishRateLimit (perSec : Z)
| StampUserID.

Definition apply (o : call) (b : t) : t :=
  match o with
  | Exchange name => {| b with exchange := name |}
  | RoutingKey rk => {| b with routingKey := rk |}
  | Codec c => {| b with c := c |}
  | Metrics pm => {| b with pm := pm |}
  | WithoutMetrics => {| b with pm := Some NoOp |}
  | Tracer tr => {| b with tracer := tr |}
  | Mandatory => {| b with mandatory := true |}
  | OnReturn cb => {| b with onReturn := cb |}
  | ConfirmTimeout d => {| b with confirmTimeout := d; confirmTimeoutSet := true |}
  | PublishTimeout d => {| b with publishTimeout := d |}
  | PublishBatchMaxSize n => {| b with publishBatchMaxSize := n |}
  | MaxMessageSizeBytes n => {| b with maxMessageSizeBytes := n; maxMessageSizeBytesSet := true |}
  | PublishRetry p => {| b with retries := Some p |}
  | WithPublishRateLimit perSec => {| b with publishRateLimit := perSec |}
  | StampUserID => {| b with stampUserID := true |}
  end.

Definition slot (o : call) : nat :=
  match o with
  | Exchange _ => 0 | RoutingKey _ => 1 | Codec _ => 2 | Metrics _ | WithoutMetrics => 3 | Tracer _ => 4
  | Mandatory => 5 | OnReturn _ => 6 | ConfirmTimeout _ => 7 | PublishTimeout _ => 8
  | PublishBatchMaxSize _ => 9 | MaxMessageSizeBytes _ => 10 | PublishRetry _ => 11
  | WithPublishRateLimit _ => 12 | StampUserID => 13
  end.

#[global] Instance last_wins : LastWins slot apply.
Proof.
  split; intros o1 o2 b; destruct o1, o2; cbn [slot]; intros H; first [reflexivity|done|by destruct H].
Qed.

Definition defaultConfirmTimeout : Z := 30 * second.
Definition defaultMaxMessageSizeBytes : Z := 16 * 1024 * 1024.

Definition applyBuilderDefaults (b : t) : t :=
  {| b with c := or_default NewJSON (c b);
            pm := or_default NoOp (pm b);
            tracer := or_default NoOp (tracer b);
            confirmTimeout := if confirmTimeoutSet b then confirmTimeout b else defaultConfirmTimeout;
            publishBatchMaxSize := if decide (publishBatchMaxSize b <= 0) then 1024 else publishBatchMaxSize b;
            maxMessageSizeBytes := if maxMessageSizeBytesSet b then maxMessageSizeBytes b
                                   else defaultMaxMessageSizeBytes |}.

(** The publisher: the options it reads, its encoder, its rate limiter, and one
    pool of [poolSize] channels per socket. *)
Record publisher : Type := mkPublisher {
  options : t;
  penc : encoder;
  rate : option rateLimiter;
  pools : Z;
  poolSize : Z
}.

(** [Build] works on the builder itself: the second component is the builder
    after the call. *)
Definition Build (b : t) : result error publisher * t :=
  if maxMessageSizeBytesSet b && bool_decide (maxMessageSizeBytes b < 0) then (Err invalidOptions, b)
  else if decide (publishBatchMaxSize b < 0) then (Err invalidOptions, b)
  else
    match conn b with
    | None => (Err invalidOptions, b)
    | Some cn =>
        let b := applyBuilderDefaults b in
        (Ok (mkPublisher b (mkEncoder (stampUserID b) (authenticatedUser cn) (maxMessageSizeBytes b))
               (newRateLimiter (publishRateLimit b)) (numPub cn) (channelPoolSize cn)), b)
    end.

End PublisherBuilder.

(** ** CallerBuilder *)

Module CallerBuilder.

Record t : Type := mk {
  conn : option Z;
  exchange : string;
  routingKey : string;
  c : option codec_ref;
  useExclusiveQueue : bool;
  prefetch : Z;
  prefetchSet : bool
}.

Definition CallerFor (conn : option Z) : t := mk conn "" "" None false 0 false.

Inductive call : Type :=
| Exchange (name : string)
| RoutingKey (rk : string)
| Codec (c : option codec_ref)
| UseExclusiveReplyQueue
| Prefetch (count : Z).

Definition apply (o : call) (b : t) : t :=
  match o with
  | Exchange name => {| b with exchange := name |}
  | RoutingKey rk => {| b with routingKey := rk |}
  | Codec c => {| b with c := c |}
  | UseExclusiveReplyQueue => {| b with useExclusiveQueue := true |}
  | Prefetch count => {| b with prefetch := count; prefetchSet := true |}
  end.

Definition slot (o : call) : nat :=
  match o with
  | Exchange _ => 0 | RoutingKey _ => 1 | Codec _ => 2 | UseExclusiveReplyQueue => 3 | Prefetch _ => 4
  end.

#[global] Instance last_wins : LastWins slot apply.
Proof.
  split; intros o1 o2 b; destruct o1, o2; cbn [slot]; intros H; first [reflexivity|done|by destruct H].
Qed.

(** The codec, the pinned socket and the caller's initial state. *)
Definition Build (b : t) (uuid : result error string) : result error (codec_ref * Z * Rpc.caller) :=
  match conn b with
  | None => Err invalidOptions
  | Some numConns =>
      let? _ := guard (prefetchSet b && negb (useExclusiveQueue b)) in
      let codec := default NewJSON (c b) in
      match uuid with
      | Err err => Err (Wrap [err])
      | Ok id =>
          Ok (codec, connIndexForTag ("caller-" +:+ id)%string numConns,
              new_caller (useExclusiveQueue b) (prefetch b))
      end
  end.

End CallerBuilder.

(** ** ReplierBuilder *)

Module ReplierBuilder.

Record t : Type := mk {
  conn : option (Z * Z);            (* the numbers of consumer and publisher sockets *)
  queue : string;
  c : option codec_ref;
  cm : option sink;
  onError : option ref;
  topology : option Topology;
  allowMissingDLX : bool;
  confirmTimeout : Z;
  confirmTimeoutSet : bool
}.

Definition ReplierFor (conn : option (Z * Z)) : t := mk conn "" None None None None false 0 false.

Inductive call : Type :=
| Queue (name : string)
| Codec (c : option codec_ref)
| Metrics (cm : option sink)
| OnError (fn : option ref)
| WithTopology (topo : option Topology)
| AllowMissingDLX
| ConfirmTimeout (d : Z).

Definition apply (o : call) (b : t) : t :=
  match o with
  | Queue name => {| b with queue := name |}
  | Codec c => {| b with c := c |}
  | Metrics cm => {| b with cm := cm |}
  | OnError fn => {| b with onError := fn |}
  | WithTopology topo => {| b with topology := topo |}
  | AllowMissingDLX => {| b with allowMissingDLX := true |}
  | ConfirmTimeout d => {| b with confirmTimeout := d; confirmTimeoutSet := true |}
  end.

Definition slot (o : call) : nat :=
  match o with
  | Queue _ => 0 | Codec _ => 1 | Metrics _ => 2 | OnError _ => 3 | WithTopology _ => 4
  | AllowMissingDLX => 5 | ConfirmTimeout _ => 6
  end.

#[global] Instance last_wins : LastWins slot apply.
Proof.
  split; intros o1 o2 b; destruct o1, o2; cbn [slot]; intros H; first [reflexivity|done|by destruct H].
Qed.

(** What the raw handler and the reply publisher read. *)
Record replier : Type := mkReplier {
  rQueue : string;
  rHooked : bool;
  rKnownHasDLX : bool;
  rConfirmTimeout : Z;
  rConsumer : ConsumerBuilder.consumer;
  rPubIndex : Z
}.

Definition Build (b : t) (uuid : result error string) : result error replier :=
  match conn b with
  | None => Err invalidOptions
  | Some (numCon, numPub) =>
      let? _ := guard (bool_decide (queue b = ""%string)) in
      let known := match topology b with Some topo => topologyHasDLX topo (queue b) | None => false end in
      let? _ := guard (match topology b with Some _ => negb known && negb (allowMissingDLX b) | None => false end) in
      let codec := or_default NewJSON (c b) in
      let metrics := or_default NoOp (cm b) in
      let timeout := if confirmTimeoutSet b then confirmTimeout b else PublisherBuilder.defaultConfirmTimeout in
      let? cn := fst (ConsumerBuilder.Build
                        (apply_all (apply := ConsumerBuilder.apply)
                           [ConsumerBuilder.Queue (queue b); ConsumerBuilder.Codec codec;
                            ConsumerBuilder.Metrics metrics]
                           (ConsumerBuilder.ConsumerFor (Some numCon))) uuid) in
      Ok (mkReplier (queue b) (match onError b with Some _ => true | None => false end) known timeout cn
            (connIndexForTag (queue b) numPub))
  end.

End ReplierBuilder.

(** ** Lemmas *)

Lemma guard_Ok b x : guard b = Ok x -> b = false.
Proof. by destruct b. Qed.

Lemma consumer_tag_nonempty tag uuid t : consumer_tag tag uuid = Ok t -> t ≠ ""%string.
Proof.
  unfold consumer_tag. case_decide; [|by intros [= <-]]. destruct uuid; [|done]. by intros [= <-].
Qed.

(** Its errors: only the generator's. *)
Lemma consumer_tag_ok tag id : ∃ t, consumer_tag tag (Ok id) = Ok t.
Proof. unfold consumer_tag. case_decide; eauto. Qed.

Lemma hasDLX_merged dls q :
  is_Some (args_get (qArgs (merged dls q)) "x-dead-letter-exchange")
  <-> (∃ dl, dl ∈ dls ∧ dSource dl = qName q) ∨ is_Some (args_get (qArgs q) "x-dead-letter-exchange").
Proof.
  revert q. induction dls as [|d dls IH]; intros q; [set_solver|]. rewrite merged_cons, IH.
  case_decide as Hd.
  - simpl. rewrite source_args_dlx. split; [|right; eauto]. intros _. left. exists d. set_solver.
  - set_solver.
Qed.

Lemma topologyHasDLX_spec t q :
  topologyHasDLX t q = true
  <-> (∃ dl, dl ∈ DeadLetters t ∧ dSource dl = q)
      ∨ ∃ x, x ∈ Queues t ∧ qName x = q ∧ is_Some (args_get (qArgs x) "x-dead-letter-exchange").
Proof.
  unfold topologyHasDLX, has_arg. rewrite orb_true_iff, !existsb_exists. split.
  - intros [(dl & Hin & Hd)|(x & Hin & Hx)].
    + left. exists dl. split; [by apply list_elem_of_In|by apply bool_decide_eq_true in Hd].
    + right. exists x. apply andb_true_iff in Hx as [Hn Hx]. apply bool_decide_eq_true in Hn.
      split; [by apply list_elem_of_In|]. split; [done|]. by destruct (args_get _ _).
  - intros [(dl & Hin & Hd)|(x & Hin & Hn & [v Hx])].
    + left. exists dl. split; [by apply list_elem_of_In|by apply bool_decide_eq_true].
    + right. exists x. rewrite Hx. split; [by apply list_elem_of_In|]. by rewrite bool_decide_true.
Qed.

Lemma expand_names_nodup sprint t : validate sprint t = Ok tt -> NoDup (qName <$> Queues (expand t)).
Proof.
  intros Hv. destruct (expand_dls_consistent sprint t Hv) as ([_ _ _ _ Hnq] & _).
  change (Queues (expand t)) with (inject_queue <$> xQueues (expand_dls t)).
  rewrite <- list_fmap_compose. erewrite list_fmap_ext; [exact Hnq|]. intros. done.
Qed.

Lemma name_unique (qs : list Queue) q1 q2 :
  NoDup (qName <$> qs) -> q1 ∈ qs -> q2 ∈ qs -> qName q1 = qName q2 -> q1 = q2.
Proof.
  intros Hn H1 H2 E. apply list_elem_of_lookup in H1 as [i Hi], H2 as [j Hj].
  assert (i = j) as ->.
  { eapply (NoDup_lookup _ _ _ (qName q1) Hn); rewrite list_lookup_fmap; [by rewrite Hi|by rewrite Hj, E]. }
  congruence.
Qed.

(** ** Properties *)

(** The documented policy of the option methods holds for every builder: two
    sequences of calls with the same last call of each option, whatever the
    order and whatever was overridden, build the same thing, warnings, errors
    and defaults included. *)
Lemma options_last_win :
  (∀ os os' cn uuid, (∀ k, last_of (slot := ConsumerBuilder.slot) k os = last_of (slot := ConsumerBuilder.slot) k os') ->
     ConsumerBuilder.Build (apply_all (apply := ConsumerBuilder.apply) os (ConsumerBuilder.ConsumerFor cn)) uuid
     = ConsumerBuilder.Build (apply_all (apply := ConsumerBuilder.apply) os' (ConsumerBuilder.ConsumerFor cn)) uuid)
  ∧ (∀ os os' cn uuid, (∀ k, last_of (slot := BatchConsumerBuilder.slot) k os = last_of (slot := BatchConsumerBuilder.slot) k os') ->
     BatchConsumerBuilder.Build (apply_all (apply := BatchConsumerBuilder.apply) os (BatchConsumerBuilder.BatchConsumerFor cn)) uuid
     = BatchConsumerBuilder.Build (apply_all (apply := BatchConsumerBuilder.apply) os' (BatchConsumerBuilder.BatchConsumerFor cn)) uuid)
  ∧ (∀ os os' cn, (∀ k, last_of (slot := PublisherBuilder.slot) k os = last_of (slot := PublisherBuilder.slot) k os') ->
     PublisherBuilder.Build (apply_all (apply := PublisherBuilder.apply) os (PublisherBuilder.PublisherFor cn))
     = PublisherBuilder.Build (apply_all (apply := PublisherBuilder.apply) os' (PublisherBuilder.PublisherFor cn)))
  ∧ (∀ os os' cn uuid, (∀ k, last_of (slot := CallerBuilder.slot) k os = last_of (slot := CallerBuilder.slot) k os') ->
     CallerBuilder.Build (apply_all (apply := CallerBuilder.apply) os (CallerBuilder.CallerFor cn)) uuid
     = CallerBuilder.Build (apply_all (apply := CallerBuilder.apply) os' (CallerBuilder.CallerFor cn)) uuid)
  ∧ (∀ os os' cn uuid, (∀ k, last_of (slot := ReplierBuilder.slot) k os = last_of (slot := ReplierBuilder.slot) k os') ->
     ReplierBuilder.Build (apply_all (apply := ReplierBuilder.apply) os (ReplierBuilder.ReplierFor cn)) uuid
     = ReplierBuilder.Build (apply_all (apply := ReplierBuilder.apply) os' (ReplierBuilder.ReplierFor cn)) uuid).
Proof. split_and!; intros os os' *; intros H; by rewrite (last_call_wins os os' _ H). Qed.

(** C27. A consumer that [Build] returns is well configured, whatever was set:
    it has a connection, a queue, the caller's tag or a generated one, the
    caller's concurrency and prefetch or one handler and a prefetch of 64, a
    codec, a metrics recorder and a tracer, the socket it is pinned to exists,
    its byte budget is armed exactly when positive, and a dead-letter exchange
    is known exactly when the wired topology names one.  [Build] fails exactly
    for a missing connection or queue, with [ErrInvalidOptions], or, these being
    there, for a tag it could not generate, with the generator's error. *)
Theorem consumer_build_valid b uuid :
  0 <= ConsumerBuilder.concurrency b < 2 ^ 64 -> 0 <= ConsumerBuilder.prefetch b < 2 ^ 16 ->
  match (ConsumerBuilder.Build b uuid).1 with
  | Err e =>
      (ConsumerBuilder.conn b = None ∨ ConsumerBuilder.queue b = ""%string)
      ∧ errors_is (Some e) ErrInvalidOptions = true
      ∨ is_Some (ConsumerBuilder.conn b) ∧ ConsumerBuilder.queue b ≠ ""%string
        ∧ ConsumerBuilder.tag b = ""%string ∧ ∃ err, uuid = Err err ∧ e = Wrap [err]
  | Ok cn =>
      let o := ConsumerBuilder.builder cn in
      let d := ConsumerBuilder.dispatchConfig cn in
      (∃ n, ConsumerBuilder.conn b = Some n ∧ (0 < n -> 0 <= ConsumerBuilder.pinned cn < n))
      ∧ cQueue d = ConsumerBuilder.queue b ∧ cQueue d ≠ ""%string
      ∧ (ConsumerBuilder.tag b ≠ ""%string ∧ cTag d = ConsumerBuilder.tag b
         ∨ ConsumerBuilder.tag b = ""%string ∧ ∃ id, uuid = Ok id ∧ cTag d = ("ctag-" +:+ id)%string)
      ∧ ConsumerBuilder.concurrency o
        = (if decide (ConsumerBuilder.concurrency b = 0) then 1 else ConsumerBuilder.concurrency b)
      ∧ ConsumerBuilder.prefetch o
        = (if decide (ConsumerBuilder.prefetch b = 0) then 64 else ConsumerBuilder.prefetch b)
      ∧ 1 <= ConsumerBuilder.concurrency o < 2 ^ 64 ∧ 1 <= ConsumerBuilder.prefetch o < 2 ^ 16
      ∧ is_Some (ConsumerBuilder.c o) ∧ is_Some (ConsumerBuilder.cm o) ∧ is_Some (ConsumerBuilder.tracer o)
      ∧ (is_Some (ConsumerBuilder.limiter cn) <-> 0 < ConsumerBuilder.maxInFlightBytes b)
      ∧ (Consumer.knownHasDLX d = true <->
         ∃ t, ConsumerBuilder.topology b = Some t ∧ topologyHasDLX t (ConsumerBuilder.queue b) = true)
  end.
Proof.
  intros Hc Hp. unfold ConsumerBuilder.Build. destruct (ConsumerBuilder.conn b) as [n|]; [|by left; auto].
  case_decide as Hq; [by left; auto|].
  destruct (consumer_tag (ConsumerBuilder.tag b) uuid) as [tag|err] eqn:Et; simpl.
  - split; [eexists; split; [done|]; intros Hm; by apply connIndexForTag_pins|].
    split; [done|]. split; [done|]. split.
    { unfold consumer_tag in Et. case_decide; [right|left; by injection Et].
      destruct uuid; [|done]. injection Et as <-. eauto. }
    split_and!; try done.
    all: try (case_decide; lia).
    1-3: match goal with |- is_Some (or_default _ ?x) => by destruct x; eexists end.
    + unfold newByteLimiter. case_decide as Hl; split; [by intros [? ?]|lia|lia|by eexists].
    + destruct (ConsumerBuilder.topology b) as [t|]; naive_solver.
  - right. unfold consumer_tag in Et. case_decide; [|done]. destruct uuid; [done|]. naive_solver.
Qed.

(** A batch consumer that [Build] returns cannot starve itself: its batch
    size is at least one and at most its prefetch, which fits the sixteen bits
    of the protocol, so a full batch is always deliverable; sizes above 65535
    never pass, although the default prefetch is computed by truncation. *)
Lemma batch_build_fits b uuid cn :
  0 <= BatchConsumerBuilder.size b < 2 ^ 64 -> 0 <= BatchConsumerBuilder.prefetch b < 2 ^ 16 ->
  BatchConsumerBuilder.Build b uuid = Ok cn ->
  let d := BatchConsumerBuilder.batchConfig cn in
  1 <= bSize d <= BatchConsumerBuilder.prefetch (BatchConsumerBuilder.builder cn)
  ∧ BatchConsumerBuilder.prefetch (BatchConsumerBuilder.builder cn) < 2 ^ 16
  ∧ (BatchConsumerBuilder.size b ≠ 0 -> bSize d = BatchConsumerBuilder.size b)
  ∧ BatchConsumer.bQueue d ≠ ""%string ∧ bTag d ≠ ""%string.
Proof.
  intros Hs Hp. unfold BatchConsumerBuilder.Build. destruct (BatchConsumerBuilder.conn b) as [n|]; [|done].
  intros H. apply rbind_Ok in H as (x1 & Hq%guard_Ok & H). apply rbind_Ok in H as (x2 & H1%guard_Ok & H).
  apply rbind_Ok in H as (x3 & H2%guard_Ok & H). apply rbind_Ok in H as (tag & Ht%consumer_tag_nonempty & H).
  injection H as <-. apply bool_decide_eq_false in Hq, H1, H2. simpl in *.
  split_and!; try done; repeat case_decide; try lia; unfold wrap_unsigned; apply Z.mod_pos_bound; lia.
Qed.

(** What [topologyHasDLX] finds for a queue the topology declares is what
    [Declare] sends: after a validated topology is expanded, that queue carries
    [x-dead-letter-exchange] exactly when the check said so. *)
Lemma known_dlx_is_declared sprint t q :
  validate sprint t = Ok tt -> q ∈ Queues t ->
  topologyHasDLX t (qName q) = true
  <-> ∃ q', q' ∈ Queues (expand t) ∧ qName q' = qName q
            ∧ is_Some (args_get (qArgs q') "x-dead-letter-exchange").
Proof.
  intros Hv Hq. destruct (validate_ok sprint t Hv) as (_ & Hn & _).
  destruct (expand_queues t Hn) as (extra & Hqs & _).
  set (q1 := inject_queue (merged (DeadLetters t) (copy_queue q))).
  assert (q1 ∈ Queues (expand t)) as Hq1
    by (rewrite Hqs; apply elem_of_app; left; apply list_elem_of_fmap; eauto).
  assert (topologyHasDLX t (qName q) = true <-> is_Some (args_get (qArgs q1) "x-dead-letter-exchange")) as E.
  { unfold q1, inject_queue. simpl qArgs.
    rewrite couple_args_dlx, typed_args_get by (unfold managed_keys; set_solver).
    rewrite hasDLX_merged, topologyHasDLX_spec. simpl. rewrite copyArgs_get.
    split; (intros [H|H]; [by left|right]); [|by exists q].
    destruct H as (x & Hx & Hxn & Hd). by rewrite <- (name_unique _ _ _ Hn Hx Hq Hxn). }
  rewrite E. split; [by exists q1|]. intros (q' & Hin & Hname & Hd).
  by rewrite <- (name_unique _ _ _ (expand_names_nodup sprint t Hv) Hin Hq1 Hname).
Qed.

(** A replier that [Build] returns serves with the consumer configuration
    its model assumes (regular acks, no timeout, no redelivery cap), on the
    queue asked for; it suppresses the drop metric only for a queue whose
    wired topology names a dead-letter exchange, and a wired topology that
    names none was accepted only with [AllowMissingDLX]. *)
Lemma replier_build_wires b uuid r :
  ReplierBuilder.Build b uuid = Ok r ->
  (∃ tag, tag ≠ ""%string
     ∧ ConsumerBuilder.dispatchConfig (ReplierBuilder.rConsumer r) = request_config (ReplierBuilder.queue b) tag)
  ∧ ReplierBuilder.queue b ≠ ""%string
  ∧ (ReplierBuilder.rKnownHasDLX r = true
     <-> ∃ t, ReplierBuilder.topology b = Some t ∧ topologyHasDLX t (ReplierBuilder.queue b) = true)
  ∧ (∀ t, ReplierBuilder.topology b = Some t -> topologyHasDLX t (ReplierBuilder.queue b) = false ->
       ReplierBuilder.allowMissingDLX b = true)
  ∧ (ReplierBuilder.confirmTimeoutSet b = false -> ReplierBuilder.rConfirmTimeout r = 30 * second).
Proof.
  unfold ReplierBuilder.Build. destruct (ReplierBuilder.conn b) as [[nc np]|]; [|done].
  intros H. apply rbind_Ok in H as (x1 & Hq%guard_Ok & H). apply rbind_Ok in H as (x2 & Hd%guard_Ok & H).
  apply bool_decide_eq_false in Hq. apply rbind_Ok in H as (cn & Hc & H). injection H as <-. simpl.
  unfold ConsumerBuilder.Build in Hc. simpl in Hc. rewrite decide_False in Hc by done.
  destruct (consumer_tag _ _) as [tag|] eqn:Et; [|done]. simpl in Hc. injection Hc as <-.
  split_and!; [|done| | |].
  - exists tag. split; [by eapply consumer_tag_nonempty|done].
  - destruct (ReplierBuilder.topology b) as [t|]; [|naive_solver]. split; [eauto|naive_solver].
  - intros t Ht Hf. rewrite Ht, Hf in Hd. by destruct (ReplierBuilder.allowMissingDLX b).
  - by intros ->.
Qed.

Lemma builder_defaults_idempotent b :
  PublisherBuilder.applyBuilderDefaults (PublisherBuilder.applyBuilderDefaults b)
  = PublisherBuilder.applyBuilderDefaults b.
Proof.
  unfold PublisherBuilder.applyBuilderDefaults. simpl.
  destruct (PublisherBuilder.c b), (PublisherBuilder.pm b), (PublisherBuilder.tracer b),
    (PublisherBuilder.confirmTimeoutSet b), (PublisherBuilder.maxMessageSizeBytesSet b); simpl;
    destruct (decide (PublisherBuilder.publishBatchMaxSize b <= 0)) as [|Hn]; simpl; try done;
    by rewrite decide_False.
Qed.

(** [Build] of a publisher writes its defaults into the builder; building
    again gives the same publisher, and the batch and message limits are
    usable. *)
Lemma publisher_build_repeatable b p b' :
  PublisherBuilder.Build b = (Ok p, b') ->
  PublisherBuilder.Build b' = (Ok p, b')
  ∧ 1 <= PublisherBuilder.publishBatchMaxSize (PublisherBuilder.options p)
  ∧ 0 <= maxMessageSizeBytes (PublisherBuilder.penc p).
Proof.
  intros H. unfold PublisherBuilder.Build in H. destruct (_ && _) eqn:E1; [done|]. case_decide as E2; [done|].
  destruct (PublisherBuilder.conn b) as [cn|] eqn:Ec; [|done]. injection H as <- <-.
  assert (0 <= PublisherBuilder.maxMessageSizeBytes (PublisherBuilder.applyBuilderDefaults b)
          ∧ 1 <= PublisherBuilder.publishBatchMaxSize (PublisherBuilder.applyBuilderDefaults b)) as [Hm Hs].
  { unfold PublisherBuilder.applyBuilderDefaults.
    cbn [PublisherBuilder.maxMessageSizeBytes PublisherBuilder.publishBatchMaxSize]. split;
      [|destruct (decide (PublisherBuilder.publishBatchMaxSize b <= 0)); lia].
    destruct (PublisherBuilder.maxMessageSizeBytesSet b);
      [simpl in E1; apply bool_decide_eq_false in E1; lia|unfold PublisherBuilder.defaultMaxMessageSizeBytes; lia]. }
  split_and!; [|done|done]. unfold PublisherBuilder.Build.
  rewrite (bool_decide_false (_ < 0)), andb_false_r, decide_False by lia.
  change (PublisherBuilder.conn (PublisherBuilder.applyBuilderDefaults b)) with (PublisherBuilder.conn b).
  by rewrite Ec, builder_defaults_idempotent.
Qed.

(** ** What the documentation says otherwise *)

(** [topologyHasDLX] takes a dead letter of the wired topology as proof, but
    [expand] skips a dead letter whose source the topology does not declare:
    the topology validates, the check says yes, and nothing gives the queue a
    dead-letter exchange. *)
Definition undeclared_source : Topology :=
  mkTopology [] [] [] [mkDeadLetter "q" "" "" 0 0 0 "" 0 0 "" false] [].

Lemma hasDLX_undeclared_source sprint :
  validate sprint undeclared_source = Ok tt ∧ topologyHasDLX undeclared_source "q" = true
  ∧ Queues (expand undeclared_source) = [] ∧ Exchanges (expand undeclared_source) = []
  ∧ ∃ r, ReplierBuilder.Build
           (apply_all (apply := ReplierBuilder.apply)
              [ReplierBuilder.Queue "q"; ReplierBuilder.WithTopology (Some undeclared_source)]
              (ReplierBuilder.ReplierFor (Some (2, 2)))) (Ok "u"%string) = Ok r
         ∧ ReplierBuilder.rKnownHasDLX r = true.
Proof.
  split_and!; [vm_compute; reflexivity..|]. eexists. split; vm_compute; reflexivity.
Qed.

(** The warning that the prefetch is below the concurrency compares with the
    concurrency truncated to sixteen bits: 65536 handlers on a prefetch of one
    pass in silence. *)
Lemma prefetch_warning_truncates :
  ∃ cn, ConsumerBuilder.Build
          (apply_all (apply := ConsumerBuilder.apply)
             [ConsumerBuilder.Queue "q"; ConsumerBuilder.Tag "t"; ConsumerBuilder.Concurrency 65536;
              ConsumerBuilder.Prefetch 1] (ConsumerBuilder.ConsumerFor (Some 2))) (Ok "u"%string) = (Ok cn, [])
        ∧ ConsumerBuilder.prefetch (ConsumerBuilder.builder cn)
          < ConsumerBuilder.concurrency (ConsumerBuilder.builder cn).
Proof. eexists. split; [vm_compute; reflexivity|done]. Qed.

(** The default codec of a consumer tolerates unknown fields. *)
Lemma default_codec_is_lax b uuid cn ws :
  ConsumerBuilder.c b = None -> ConsumerBuilder.Build b uuid = (Ok cn, ws) ->
  ConsumerBuilder.c (ConsumerBuilder.builder cn) = Some (CodecJSON false).
Proof.
  intros Hc H. unfold ConsumerBuilder.Build in H. destruct (ConsumerBuilder.conn b); [|done].
  case_decide; [done|]. destruct (consumer_tag _ _); [|done]. injection H as <- _. simpl. by rewrite Hc.
Qed.

(** ** Witnesses *)

Definition sample_builder : ConsumerBuilder.t :=
  apply_all (apply := ConsumerBuilder.apply)
    [ConsumerBuilder.Queue "orders"; ConsumerBuilder.Concurrency 4; ConsumerBuilder.MaxInFlightBytes 1024]
    (ConsumerBuilder.ConsumerFor (Some 2)).

Lemma consumer_build_valid_witness :
  ∃ cn ws, ConsumerBuilder.Build sample_builder (Ok "u"%string) = (Ok cn, ws)
    ∧ ConsumerBuilder.prefetch (ConsumerBuilder.builder cn) = 64.
Proof.
  pose proof (consumer_build_valid sample_builder (Ok "u"%string)) as H.
  destruct (ConsumerBuilder.Build sample_builder (Ok "u"%string)) as [[cn|err] ws] eqn:E; [|by vm_compute in E].
  exists cn, ws. split; [reflexivity|]. apply H; vm_compute; split; congruence.
Defined.

Lemma options_last_win_witness :
  ConsumerBuilder.Build sample_builder (Ok "u"%string)
  = ConsumerBuilder.Build
      (apply_all (apply := ConsumerBuilder.apply)
         [ConsumerBuilder.MaxInFlightBytes 7; ConsumerBuilder.Concurrency 9; ConsumerBuilder.MaxInFlightBytes 1024;
          ConsumerBuilder.Concurrency 4; ConsumerBuilder.Queue "orders"]
         (ConsumerBuilder.ConsumerFor (Some 2))) (Ok "u"%string).
Proof. apply (proj1 options_last_win). intros [|[|[|[|[|[|k]]]]]]; reflexivity. Defined.

Definition sample_batch : BatchConsumerBuilder.t :=
  apply_all (apply := BatchConsumerBuilder.apply)
    [BatchConsumerBuilder.Queue "q"; BatchConsumerBuilder.Size 500]
    (BatchConsumerBuilder.BatchConsumerFor (Some 2)).

Lemma batch_build_fits_witness :
  ∃ cn, BatchConsumerBuilder.Build sample_batch (Ok "u"%string) = Ok cn
        ∧ 1 <= bSize (BatchConsumerBuilder.batchConfig cn)
             <= BatchConsumerBuilder.prefetch (BatchConsumerBuilder.builder cn).
Proof.
  destruct (BatchConsumerBuilder.Build sample_batch (Ok "u"%string)) as [cn|] eqn:E; [|by vm_compute in E].
  exists cn. split; [reflexivity|].
  apply (batch_build_fits sample_batch (Ok "u"%string) cn); [vm_compute; split; congruence..|exact E].
Defined.

Definition sample_topology : Topology :=
  mkTopology [] [mkQueue "q" true false false false "" 0 false 0 None] []
    [mkDeadLetter "q" "" "" 0 0 0 "" 0 0 "" false] [].

Lemma known_dlx_witness :
  ∃ q', q' ∈ Queues (expand sample_topology) ∧ qName q' = "q"%string
        ∧ is_Some (args_get (qArgs q') "x-dead-letter-exchange").
Proof.
  apply (known_dlx_is_declared (fun _ => ""%string) sample_topology
           (mkQueue "q" true false false false "" 0 false 0 None)); [reflexivity|by constructor|reflexivity].
Defined.

Definition sample_replier : ReplierBuilder.t :=
  apply_all (apply := ReplierBuilder.apply)
    [ReplierBuilder.Queue "q"; ReplierBuilder.WithTopology (Some sample_topology)]
    (ReplierBuilder.ReplierFor (Some (2, 2))).

Lemma replier_build_witness :
  ∃ r, ReplierBuilder.Build sample_replier (Ok "u"%string) = Ok r
       ∧ ReplierBuilder.rKnownHasDLX r = true ∧ ReplierBuilder.rConfirmTimeout r = 30 * second.
Proof.
  destruct (ReplierBuilder.Build sample_replier (Ok "u"%string)) as [r|] eqn:E; [|by vm_compute in E].
  destruct (replier_build_wires sample_replier (Ok "u"%string) r E) as (_ & _ & H1 & _ & H2).
  exists r. split; [reflexivity|]. split; [apply H1; exists sample_topology; by vm_compute|by apply H2].
Defined.
