(* ===== verification/Retry.v ===== *)
(** * Retry: the back-off of a retry policy

    Models [src/retry.go].  [NextBackoff] computes in float64.  All the numbers
    it computes with are non-negative, so a float64 is here a dyadic rational
    [m * 2^e] with [m >= 0], an infinity, a NaN, or any negative number (a
    [Factor] that is replaced by its default); the arithmetic operations round
    the exact result to nearest, ties to even, with the precision and the
    exponent range of binary64.  [math.Pow] is a parameter, and so is the
    conversion of a float64 outside the range of int64, which Go leaves to the
    implementation. *)

From S2P Require Import Prelude Limiters.

(** ** binary64 *)

Inductive float64 : Type :=
| FNaN
| FNeg                      (* any negative number *)
| FInf
| FFin (m e : Z).           (* m * 2^e, m >= 0 *)

(** The integer closest to [m / 2^k], ties to even. *)
Definition round_shift (m k : Z) : Z :=
  let q := m / 2 ^ k in
  let r := m mod 2 ^ k in
  let half := 2 ^ (k - 1) in
  if decide (r < half) then q
  else if decide (half < r) then q + 1
  else if Z.even q then q else q + 1.

(** Rounding: 53 bits, no exponent below -1074, infinity from [2^1024] on. *)
Definition round64 (m e : Z) : float64 :=
  let k := Z.max (Z.log2 m + 1 - 53) (-1074 - e) in
  let '(m', e') := if decide (k <= 0) then (m, e) else (round_shift m k, e + k) in
  if decide (m' = 0) then FFin 0 0
  else if decide (1024 <= Z.log2 m' + e') then FInf else FFin m' e'.

Definition of_int (z : Z) : float64 := if decide (z < 0) then FNeg else round64 z 0.

(** The comparison of two finite numbers. *)
Definition fle (m1 e1 m2 e2 : Z) : bool :=
  let e := Z.min e1 e2 in bool_decide (m1 * 2 ^ (e1 - e) <= m2 * 2 ^ (e2 - e)).

Definition fmul (x y : float64) : float64 :=
  match x, y with
  | FFin m1 e1, FFin m2 e2 => round64 (m1 * m2) (e1 + e2)
  | FInf, FFin m _ | FFin m _, FInf => if decide (m = 0) then FNaN else FInf
  | FInf, FInf => FInf
  | _, _ => FNaN
  end.

Definition fadd (x y : float64) : float64 :=
  match x, y with
  | FFin m1 e1, FFin m2 e2 =>
      let e := Z.min e1 e2 in round64 (m1 * 2 ^ (e1 - e) + m2 * 2 ^ (e2 - e)) e
  | FNaN, _ | _, FNaN | FNeg, _ | _, FNeg => FNaN
  | _, _ => FInf
  end.

(** Division by two. *)
Definition fhalf (x : float64) : float64 :=
  match x with FFin m e => round64 m (e - 1) | _ => x end.

(** [math.Min] and [math.Max] on non-negative arguments; a NaN is returned. *)
Definition fmin (x y : float64) : float64 :=
  match x, y with
  | FFin m1 e1, FFin m2 e2 => if fle m1 e1 m2 e2 then x else y
  | FInf, FFin _ _ => y
  | FFin _ _, FInf => x
  | FInf, FInf => FInf
  | _, _ => FNaN
  end.

Definition fmax (x y : float64) : float64 :=
  match x, y with
  | FFin m1 e1, FFin m2 e2 => if fle m1 e1 m2 e2 then y else x
  | FInf, FFin _ _ | FFin _ _, FInf | FInf, FInf => FInf
  | _, _ => FNaN
  end.

(** [factor > 0]. *)
Definition positive (x : float64) : bool :=
  match x with FInf => true | FFin m _ => bool_decide (0 < m) | _ => false end.

(** Towards zero. *)
Definition truncate (m e : Z) : Z := if decide (0 <= e) then m * 2 ^ e else m / 2 ^ (- e).

(** ** RetryPolicy *)

Inductive JitterStrategy : Type := JitterFull | JitterEqual | JitterNone.

Record RetryPolicy : Type := mkPolicy {
  Min : Z;
  Max : Z;
  Factor : float64;
  Retries : Z;
  Jitter : JitterStrategy
}.

Definition lo (p : RetryPolicy) : Z := if decide (Min p <= 0) then second else Min p.

Definition hi (p : RetryPolicy) : Z :=
  let h := if decide (Max p <= 0) then 30 * second else Max p in
  if decide (h < lo p) then lo p else h.

Section backoff.
  (** [math.Pow(x, float64(n)-1)], and the implementation's conversion of a
      float64 that is no int64. *)
  Variable pow : float64 -> Z -> float64.
  Variable convert : float64 -> Z.

(** [time.Duration(d)]. *)
Definition to_duration (d : float64) : Z :=
  match d with
  | FFin m e => if decide (truncate m e < 2 ^ 63) then truncate m e else convert d
  | _ => convert d
  end.

Definition expDelay (p : RetryPolicy) (n : Z) : float64 :=
  let factor := if positive (Factor p) then Factor p else of_int 2 in
  fmin (fmul (of_int (lo p)) (pow factor n)) (of_int (hi p)).

(** [r] is what [rand.Float64] returns. *)
Definition jittered (p : RetryPolicy) (n : Z) (r : float64) : float64 :=
  let exp := expDelay p n in
  match Jitter p with
  | JitterNone => exp
  | JitterEqual => fadd (fhalf exp) (fmul r (fhalf exp))
  | JitterFull => fmul r exp
  end.

Definition NextBackoff (p : RetryPolicy) (n : Z) (r : float64) : Z :=
  to_duration (fmax (of_int (lo p)) (fmin (jittered p n r) (of_int (hi p)))).

End backoff.

(** ** Lemmas *)

(** A non-negative number, infinity included. *)
Definition number (x : float64) : Prop :=
  match x with FInf => True | FFin m _ => 0 <= m | _ => False end.

Lemma round_shift_bounds m k : 0 <= m -> 0 < k -> m / 2 ^ k <= round_shift m k <= m / 2 ^ k + 1.
Proof. intros Hm Hk. unfold round_shift. repeat case_decide; try case_match; lia. Qed.

Lemma round64_number m e : 0 <= m -> number (round64 m e).
Proof.
  intros Hm. unfold round64. set (k := Z.max _ _). case_decide as Hk; (case_decide; [simpl; lia|]); case_decide; simpl; try lia.
  apply Z.le_trans with (m / 2 ^ k); [apply Z.div_pos; lia|apply round_shift_bounds; lia].
Qed.

(** A number well below the overflow threshold rounds to a finite one. *)
Lemma round64_finite m e :
  0 <= m -> (0 < m -> Z.log2 m + e < 1000) -> ∃ m' e', round64 m e = FFin m' e' ∧ 0 <= m'.
Proof.
  intros Hm He. pose proof (round64_number m e Hm) as Hn. unfold round64 in *. set (k := Z.max _ _) in *.
  case_decide as Hk; simpl in *.
  - destruct (decide (m = 0)); [by exists 0, 0|]. rewrite decide_False by (specialize (He ltac:(lia)); lia). eauto.
  - destruct (decide (round_shift m k = 0)); [by exists 0, 0|].
    destruct (round_shift_bounds m k Hm ltac:(lia)) as [H1 H2].
    assert (0 <= round_shift m k) by (etransitivity; [apply Z.div_pos|exact H1]; lia).
    rewrite decide_False; [by eauto|].
    assert (0 < m) as Hp.
    { destruct (decide (m = 0)) as [->|]; [|lia]. exfalso. assert (round_shift 0 k = 0); [|done].
      unfold round_shift. rewrite Z.div_0_l, Z.mod_0_l by (apply Z.pow_nonzero; lia).
      rewrite decide_True; [done|]. apply Z.pow_pos_nonneg; lia. }
    specialize (He Hp). destruct (decide (m / 2 ^ k = 0)) as [E|E].
    + assert (round_shift m k = 1) as -> by lia. change (Z.log2 1) with 0.
      assert (Z.log2 m < k) as Hl.
      { apply Z.log2_lt_pow2; [done|]. apply Z.div_small_iff in E; [lia|apply Z.pow_nonzero; lia]. }
      unfold k in *. lia.
    + assert (Z.log2 (round_shift m k) <= Z.log2 m - k + 1) as Hl; [|lia].
      assert (0 < m / 2 ^ k) by (pose proof (Z.div_pos m (2 ^ k) Hm ltac:(apply Z.pow_pos_nonneg; lia)); lia).
      assert (k <= Z.log2 m) as Hkm.
      { apply Z.log2_le_pow2; [done|]. apply Z.nlt_ge. intros Hlt. apply E, Z.div_small. lia. }
      rewrite <- (Z.shiftr_div_pow2 m k) in * by lia. pose proof (Z.log2_shiftr m k Hp) as Hs.
      etransitivity; [apply Z.log2_le_mono, H2|]. rewrite Z.add_1_r.
      pose proof (Z.log2_succ_le (Z.shiftr m k)). lia.
Qed.

Lemma of_int_exact z : 0 < z < 2 ^ 53 -> of_int z = FFin z 0.
Proof.
  intros Hz. unfold of_int. rewrite decide_False by lia. unfold round64.
  assert (Z.log2 z < 53) by (apply Z.log2_lt_pow2; lia).
  rewrite (decide_True (P := Z.max _ _ <= 0)) by lia. rewrite decide_False, decide_False by lia. done.
Qed.

(** Comparing with an integer. *)
Lemma fle_le m e h : fle m e h 0 = true <-> if decide (0 <= e) then m * 2 ^ e <= h else m <= h * 2 ^ (- e).
Proof.
  unfold fle. rewrite bool_decide_eq_true. case_decide.
  - rewrite Z.min_r by lia. by rewrite !Z.sub_0_r, Z.pow_0_r, Z.mul_1_r.
  - rewrite Z.min_l by lia. rewrite Z.sub_diag, Z.pow_0_r, Z.mul_1_r. by rewrite Z.sub_0_l.
Qed.

Lemma fle_ge m e l : fle l 0 m e = true <-> if decide (0 <= e) then l <= m * 2 ^ e else l * 2 ^ (- e) <= m.
Proof.
  unfold fle. rewrite bool_decide_eq_true. case_decide.
  - rewrite Z.min_l by lia. by rewrite !Z.sub_0_r, Z.pow_0_r, Z.mul_1_r.
  - rewrite Z.min_r by lia. rewrite Z.sub_diag, Z.pow_0_r, Z.mul_1_r. by rewrite Z.sub_0_l.
Qed.

Lemma truncate_between m e l h :
  fle l 0 m e = true -> fle m e h 0 = true -> l <= truncate m e <= h.
Proof.
  rewrite fle_le, fle_ge. unfold truncate. case_decide; [lia|]. intros H1 H2.
  assert (0 < 2 ^ (- e)) by (apply Z.pow_pos_nonneg; lia).
  split; [apply Z.div_le_lower_bound; lia|]. apply Z.div_le_upper_bound; lia.
Qed.

Lemma fle_log2 m e h : 0 < m -> 0 < h < 2 ^ 53 -> fle m e h 0 = true -> Z.log2 m + e < 53.
Proof.
  intros Hm Hh. rewrite fle_le. assert (Z.log2 h < 53) by (apply Z.log2_lt_pow2; lia). case_decide.
  - intros Hf. apply Z.log2_le_mono in Hf. rewrite Z.log2_mul_pow2 in Hf by lia. lia.
  - intros Hf. apply Z.log2_le_mono in Hf. rewrite Z.log2_mul_pow2 in Hf by lia. lia.
Qed.

Lemma window_ok p : 0 < lo p <= hi p.
Proof. unfold hi, lo, second. repeat case_decide; lia. Qed.

(** The minimum with a window's end: finite and below it. *)
Lemma fmin_capped x h : number x -> 0 < h -> ∃ m e, fmin x (FFin h 0) = FFin m e ∧ 0 <= m ∧ fle m e h 0 = true.
Proof.
  intros Hx Hh. assert (fle h 0 h 0 = true) by (apply fle_le; simpl; lia).
  destruct x as [| | |m e]; try done; simpl; [exists h, 0; split_and!; [done|lia|done]|].
  destruct (fle m e h 0) eqn:E; [exists m, e; done|exists h, 0; split_and!; [done|lia|done]].
Qed.

Section backoff_lemmas.
  Context (pow : float64 -> Z -> float64) (convert : float64 -> Z).
  Hypothesis pow_number : ∀ x n, positive x = true -> number (pow x n).

Lemma expDelay_finite p n : hi p < 2 ^ 53 ->
  ∃ m e, expDelay pow p n = FFin m e ∧ 0 <= m ∧ fle m e (hi p) 0 = true.
Proof.
  intros Hh. pose proof (window_ok p) as Hw. unfold expDelay. rewrite !of_int_exact by lia.
  apply fmin_capped; [|lia]. set (f := if positive (Factor p) then _ else _).
  assert (number (pow f n)) as Hn.
  { apply pow_number. unfold f. by destruct (positive (Factor p)) eqn:E. }
  destruct (pow f n) as [| | |m e]; try done; simpl; [by rewrite decide_False by lia|].
  apply round64_number. simpl in Hn. lia.
Qed.

Lemma jittered_number p n mr er : hi p < 2 ^ 53 -> 0 <= mr -> number (jittered pow p n (FFin mr er)).
Proof.
  intros Hh Hr. pose proof (window_ok p) as Hw. unfold jittered.
  destruct (expDelay_finite p n Hh) as (m & e & -> & Hm & Hf).
  destruct (Jitter p); simpl; [apply round64_number; lia| |done].
  destruct (round64_finite m (e - 1) Hm) as (m' & e' & -> & Hm').
  { intros Hp. apply fle_log2 in Hf; lia. }
  simpl. pose proof (round64_number (mr * m') (er + e') ltac:(lia)) as Hn.
  destruct (round64 (mr * m') (er + e')) as [| | |m2 e2]; try done.
  apply round64_number. simpl in Hn.
  assert (∀ z, 0 <= 2 ^ z) by (intros; apply Z.pow_nonneg; lia). pose proof (H (e' - Z.min e' e2)).
  pose proof (H (e2 - Z.min e' e2)). nia.
Qed.
End backoff_lemmas.

(** ** Properties *)

(** C28. Whatever the policy, the attempt and the random number, the back-off
    lies in the effective window [Min, Max] (with the defaults in place of
    non-positive bounds, and Min winning over a smaller Max), for every window
    that ends below 2^53 nanoseconds, about 104 days: the floating-point
    computation never produces a NaN, never overflows and never rounds out of
    the window, as long as [math.Pow] of a positive base is no NaN and not
    negative. *)
Theorem next_backoff_in_window pow convert p n mr er :
  (∀ x n, positive x = true -> number (pow x n)) -> 0 <= mr -> hi p < 2 ^ 53 ->
  lo p <= NextBackoff pow convert p n (FFin mr er) <= hi p.
Proof.
  intros Hpow Hr Hh. pose proof (window_ok p) as Hw. unfold NextBackoff. rewrite !of_int_exact by lia.
  destruct (fmin_capped (jittered pow p n (FFin mr er)) (hi p)) as (m & e & -> & Hm & Hf);
    [by apply jittered_number|lia|]. simpl.
  assert (∃ m' e', (if fle (lo p) 0 m e then FFin m e else FFin (lo p) 0) = FFin m' e'
    ∧ lo p <= truncate m' e' <= hi p) as (m' & e' & -> & Ht).
  { destruct (fle (lo p) 0 m e) eqn:El; eexists _, _; (split; [done|]);
      [by apply truncate_between|unfold truncate; simpl; lia]. }
  simpl. rewrite decide_True; [done|]. assert (2 ^ 53 < 2 ^ 63) by lia. lia.
Qed.

(** ** Outside the window *)

(** A power that saturates, as [math.Pow] does for a large attempt. *)
Definition saturated (_ : float64) (_ : Z) : float64 := FInf.

(** [float64(Max)] rounds to nearest, so a large [Max] can be exceeded: the
    result is documented to be clamped to [Min, Max]. *)
Lemma backoff_exceeds_max convert :
  NextBackoff saturated convert (mkPolicy second (2 ^ 53 + 3) (of_int 2) 0 JitterNone) 100 (FFin 0 0)
  = (2 ^ 53 + 3) + 1.
Proof. by vm_compute. Qed.

(** And [float64(math.MaxInt64)] is 2^63, which is no int64: the result is
    whatever the implementation's conversion gives, documented to be finite and
    non-negative. *)
Lemma backoff_conversion_overflows convert :
  NextBackoff saturated convert (mkPolicy second (2 ^ 63 - 1) (of_int 2) 0 JitterNone) 100 (FFin 0 0)
  = convert (FFin (2 ^ 53) 10).
Proof. by vm_compute. Qed.

(** ** Witness *)

Lemma next_backoff_witness :
  second <= NextBackoff saturated (fun _ => -1) (mkPolicy 0 0 FNaN 0 JitterEqual) 7 (FFin 3 (-2)) <= 30 * second.
Proof.
  apply (next_backoff_in_window saturated (fun _ => -1) (mkPolicy 0 0 FNaN 0 JitterEqual) 7 3 (-2));
    [done|lia|reflexivity].
Defined.
