(* ===== verification/Covercheck.v ===== *)
(** * Covercheck: the coverage gate

    Models [src/internal/cmd/covercheck/main.go]: the parser of a Go coverage
    profile, the aggregation by package and file, the floors and the exit code.
    Texts are lists of bytes, read as ASCII: [strings.TrimSpace] and
    [strings.Fields] also cut at Unicode spaces outside ASCII, which no profile
    has.  The percentages are computed in binary64, with the rounding of [Retry],
    here with a sign. *)

From Stdlib Require Import Ascii.
From stdpp Require Import strings sorting.
From S2P Require Import Prelude Errors Retry.

Abbreviation text := (list ascii).

Definition of_string (s : string) : text := String.list_ascii_of_string s.

(** ** Texts *)

(** [strings.Split(s, "\n")]. *)
Fixpoint split_lines (l : text) (cur : text) : list text :=
  match l with
  | [] => [rev cur]
  | c :: r => if decide (c = "010"%char) then rev cur :: split_lines r [] else split_lines r (c :: cur)
  end.

Definition is_space (c : ascii) : bool :=
  let n := N_of_ascii c in bool_decide (9 <= n <= 13)%N || bool_decide (n = 32%N).

Fixpoint drop_spaces (l : text) : text :=
  match l with
  | c :: r => if is_space c then drop_spaces r else l
  | [] => []
  end.

Definition TrimSpace (l : text) : text := rev (drop_spaces (rev (drop_spaces l))).

(** [strings.Fields]: the maximal runs of other characters. *)
Fixpoint fields_from (l : text) (cur : text) : list text :=
  match l with
  | [] => if decide (cur = []) then [] else [rev cur]
  | c :: r =>
      if is_space c then (if decide (cur = []) then fields_from r [] else rev cur :: fields_from r [])
      else fields_from r (c :: cur)
  end.

Definition Fields (l : text) : list text := fields_from l [].

Fixpoint HasPrefix (p l : text) : bool :=
  match p, l with
  | [], _ => true
  | x :: p, y :: l => bool_decide (x = y) && HasPrefix p l
  | _ :: _, [] => false
  end.

Definition TrimPrefix (p l : text) : text := if HasPrefix p l then drop (length p) l else l.

(** [s[:strings.LastIndex(s, c)]], or nothing when there is no [c]. *)
Fixpoint before_last (c : ascii) (l : text) : option text :=
  match l with
  | [] => None
  | x :: r =>
      match before_last c r with
      | Some p => Some (x :: p)
      | None => if decide (x = c) then Some [] else None
      end
  end.

(** [strconv.Atoi]. *)
Definition digit (c : ascii) : option Z :=
  let n := Z.of_N (N_of_ascii c) in if decide (48 <= n <= 57) then Some (n - 48) else None.

Fixpoint digits (l : text) (acc : Z) : option Z :=
  match l with
  | [] => Some acc
  | c :: r => match digit c with Some d => digits r (acc * 10 + d) | None => None end
  end.

Definition magnitude (l : text) : option Z := if decide (l = []) then None else digits l 0.

Definition in_int (z : Z) : option Z := if decide (- 2 ^ 63 <= z < 2 ^ 63) then Some z else None.

Definition Atoi (l : text) : option Z :=
  match l with
  | "-"%char :: r => magnitude r ≫= (fun n => in_int (- n))
  | "+"%char :: r => magnitude r ≫= in_int
  | _ => magnitude l ≫= in_int
  end.

(** ** Signed binary64 *)

Inductive sfloat : Type :=
| SInf (neg : bool)
| SFin (m e : Z).           (* m * 2^e *)

Definition sround (m e : Z) : sfloat :=
  match round64 (Z.abs m) e with
  | FFin m' e' => SFin (Z.sgn m * m') e'
  | _ => SInf (bool_decide (m < 0))
  end.

(** [float64(z)]. *)
Definition s_of_int (z : Z) : sfloat := sround z 0.

Definition smul (x y : sfloat) : sfloat :=
  match x, y with SFin m1 e1, SFin m2 e2 => sround (m1 * m2) (e1 + e2) | _, _ => SInf false end.

(** The quotient of [n] by [d], to more than 55 bits, with a last bit that tells
    whether it is inexact: rounding it is rounding the quotient. *)
Definition quotient (n d : Z) : Z * Z :=
  let s := Z.max 0 (57 + Z.log2 d - Z.log2 n) in
  let q := n * 2 ^ s / d in
  (2 * q + (if decide (n * 2 ^ s mod d = 0) then 0 else 1), - s - 1).

Definition sdiv (x y : sfloat) : sfloat :=
  match x, y with
  | SFin m1 e1, SFin m2 e2 =>
      let '(q, e) := quotient (Z.abs m1) (Z.abs m2) in
      sround (Z.sgn m1 * Z.sgn m2 * q) (e1 - e2 + e)
  | _, _ => SInf false
  end.

Definition sadd (x y : sfloat) : sfloat :=
  match x, y with
  | SFin m1 e1, SFin m2 e2 =>
      let e := Z.min e1 e2 in sround (m1 * 2 ^ (e1 - e) + m2 * 2 ^ (e2 - e)) e
  | _, _ => SInf false
  end.

Definition slt (x y : sfloat) : bool :=
  match x, y with
  | SFin m1 e1, SFin m2 e2 =>
      let e := Z.min e1 e2 in bool_decide (m1 * 2 ^ (e1 - e) < m2 * 2 ^ (e2 - e))
  | SInf neg, _ => neg
  | SFin _ _, SInf neg => negb neg
  end.

(** The constant [1e-9]. *)
Definition tolerance : sfloat := SFin 4835703278458517 (-82).

(** ** Coverage *)

Definition modulePath : text := of_string "github.com/brunomvsouza/warren".
Definition floorDefault : Z := 80.
Definition floorCritical : Z := 95.

Definition criticalPackages : list text :=
  [modulePath ++ of_string "/internal/reconnect"; modulePath ++ of_string "/internal/confirms";
   modulePath ++ of_string "/internal/amqperror"; modulePath ++ of_string "/internal/redact"].

Definition criticalFiles : list text := [modulePath ++ of_string "/channelpool.go"].

Record stat : Type := mkStat { covered : Z; total : Z }.

Definition pct (s : stat) : sfloat :=
  if decide (total s = 0) then s_of_int 100
  else sdiv (smul (s_of_int 100) (s_of_int (covered s))) (s_of_int (total s)).

(** [s.pct()+1e-9 < floor]. *)
Definition below (p : sfloat) (floor : Z) : bool := slt (sadd p tolerance) (s_of_int floor).

Record analysis : Type := mkAnalysis { packages : gmap text stat; files : gmap text stat }.

Definition int64 (z : Z) : Z := wrap_signed 64 z.

Definition addStat (m : gmap text stat) (key : text) (numStmts count : Z) : gmap text stat :=
  let s := default (mkStat 0 0) (m !! key) in
  <[ key := mkStat (if decide (0 < count) then int64 (covered s + numStmts) else covered s)
                   (int64 (total s + numStmts)) ]> m.

Inductive parse_error : Type :=
| ReadFailed
| BadFields (line : nat)
| BadNumStmts (line : nat)
| BadCount (line : nat)
| NoColon (line : nat)
| NoSlash (line : nat).

(** One line: nothing for a blank or mode line, else what goes to [addStat]. *)
Definition parse_line (i : nat) (line : text) : result parse_error (option (text * text * Z * Z)) :=
  let line := TrimSpace line in
  if decide (line = []) then Ok None
  else if HasPrefix (of_string "mode:") line then Ok None
  else
    match Fields line with
    | [f0; f1; f2] =>
        match Atoi f1 with
        | None => Err (BadNumStmts i)
        | Some numStmts =>
            match Atoi f2 with
            | None => Err (BadCount i)
            | Some count =>
                match before_last ":" f0 with
                | None => Err (NoColon i)
                | Some file =>
                    match before_last "/" file with
                    | None => Err (NoSlash i)
                    | Some pkg => Ok (Some (pkg, file, numStmts, count))
                    end
                end
            end
        end
    | _ => Err (BadFields i)
    end.

Fixpoint analyze_lines (i : nat) (lines : list text) (a : analysis) : result parse_error analysis :=
  match lines with
  | [] => Ok a
  | line :: r =>
      match parse_line i line with
      | Err e => Err e
      | Ok None => analyze_lines (S i) r a
      | Ok (Some (pkg, file, numStmts, count)) =>
          analyze_lines (S i) r
            (mkAnalysis (addStat (packages a) pkg numStmts count) (addStat (files a) file numStmts count))
      end
  end.

(** [data] is what [io.ReadAll] returns. *)
Definition analyze (data : option text) : result parse_error analysis :=
  match data with
  | None => Err ReadFailed
  | Some data => analyze_lines 1 (split_lines data []) (mkAnalysis ∅ ∅)
  end.

Definition trimModule (p : text) : text :=
  if decide (p = modulePath) then of_string "(root)" else TrimPrefix (modulePath ++ of_string "/") p.

Record row : Type := mkRow { rowName : text; rowPct : sfloat; rowFloor : Z }.

Definition floor_of (pkg : text) : Z := if decide (pkg ∈ criticalPackages) then floorCritical else floorDefault.

Definition package_rows (a : analysis) : list row :=
  (fun kv => mkRow (trimModule kv.1) (pct kv.2) (floor_of kv.1)) <$> map_to_list (packages a).

Definition file_rows (a : analysis) : list row :=
  omap (fun f => (fun s => mkRow (trimModule f) (pct s) floorCritical) <$> files a !! f) criticalFiles.

Definition failing (r : row) : bool := below (rowPct r) (rowFloor r).

Definition absent (m : gmap text stat) (keys : list text) : list row :=
  omap (fun k => match m !! k with
                 | None => Some (mkRow (trimModule k) (s_of_int 0) floorCritical)
                 | Some _ => None
                 end) keys.

(** Bytewise order of the names. *)
Fixpoint text_leb (x y : text) : bool :=
  match x, y with
  | [], _ => true
  | _ :: _, [] => false
  | a :: x, b :: y =>
      if decide (a = b) then text_leb x y else bool_decide (N_of_ascii a < N_of_ascii b)%N
  end.

Definition row_le (r1 r2 : row) : Prop := text_leb (rowName r1) (rowName r2) = true.

#[global] Instance row_le_dec : RelDecision row_le.
Proof. intros r1 r2. unfold row_le. apply _. Defined.

(** The violations (the maps in some order), and the rows of the report with
    their marks. *)
Definition check (a : analysis) : list row * list (bool * row) :=
  let rows := package_rows a ++ file_rows a in
  (List.filter failing (package_rows a) ++ absent (packages a) criticalPackages
     ++ absent (files a) criticalFiles ++ List.filter failing (file_rows a),
   (fun r => (failing r, r)) <$> merge_sort row_le rows).

(** [opened] is the result of [os.Open], with what reading the file gives. *)
Definition run (args : list text) (opened : option (option text)) : Z :=
  match args with
  | [_; _] =>
      match opened with
      | None => 2
      | Some data =>
          match analyze data with
          | Err _ => 2
          | Ok a => match (check a).1 with [] => 0 | _ :: _ => 1 end
          end
      end
  | _ => 2
  end.

Example run_samples :
  run [[]; []] (Some (Some (of_string "mode: set"))) = 1
  ∧ Atoi (of_string "-12") = Some (-12) ∧ Atoi (of_string "1x") = None
  ∧ Fields (of_string " a  bc ") = [of_string "a"; of_string "bc"]
  ∧ before_last "/" (of_string "a/b/c") = Some (of_string "a/b")
  ∧ below (pct (mkStat 4 5)) 80 = false ∧ below (pct (mkStat 79 99)) 80 = true
  ∧ below (pct (mkStat 19 20)) 95 = false ∧ below (pct (mkStat 0 0)) 95 = false.
Proof. split_and!; by vm_compute. Qed.

(** ** The comparison with a floor is exact *)

(** Numbers are compared as integers at the scale [2^2000], far below every
    exponent that occurs. *)
Definition at_scale (m e : Z) : Z := m * 2 ^ (e + 2000).

(** The last place of a number below 128. *)
Definition ulp : Z := 2 ^ 1954.

Lemma at_scale_shift m e k : 0 <= e + 2000 -> 0 <= k -> at_scale m (e + k) = m * 2 ^ k * 2 ^ (e + 2000).
Proof.
  intros He Hk. unfold at_scale. replace (e + k + 2000) with (k + (e + 2000)) by lia.
  rewrite Z.pow_add_r by lia. lia.
Qed.

Lemma round_shift_close m k : 0 <= m -> 0 < k -> Z.abs (round_shift m k * 2 ^ k - m) <= 2 ^ k.
Proof.
  intros Hm Hk. destruct (round_shift_bounds m k Hm Hk) as [H1 H2].
  pose proof (Z.div_mod m (2 ^ k)) as Hd. pose proof (Z.mod_pos_bound m (2 ^ k) ltac:(apply Z.pow_pos_nonneg; lia)).
  assert (0 < 2 ^ k) by (apply Z.pow_pos_nonneg; lia). nia.
Qed.

(** Rounding a number below 128 moves it by less than a unit in its last
    place. *)
Lemma round64_close m e :
  0 <= m -> -1000 <= e -> at_scale m e <= 2 ^ 2007 - 1 ->
  ∃ m' e', round64 m e = FFin m' e' ∧ 0 <= m' ∧ -1000 <= e' ∧ Z.abs (at_scale m' e' - at_scale m e) <= ulp.
Proof.
  intros Hm He Hb. destruct (decide (m = 0)) as [->|Hm0].
  { exists 0, 0. unfold round64. simpl. rewrite decide_True by lia. simpl. split_and!; try done; try lia. }
  assert (Z.log2 m + e + 2000 < 2007) as Hl.
  { assert (2 ^ (Z.log2 m + (e + 2000)) < 2 ^ 2007) as Hp.
    { rewrite Z.pow_add_r by (pose proof (Z.log2_nonneg m); lia). pose proof (Z.log2_spec m ltac:(lia)) as [Hlo _].
      unfold at_scale in Hb. assert (0 < 2 ^ (e + 2000)) by (apply Z.pow_pos_nonneg; lia). nia. }
    apply Z.pow_lt_mono_r_iff in Hp; [lia|lia|lia]. }
  destruct (round64_finite m e Hm ltac:(lia)) as (m' & e' & E & Hm'). exists m', e'. split; [done|]. split; [done|].
  unfold round64 in E. replace (Z.max (Z.log2 m + 1 - 53) (-1074 - e)) with (Z.max (Z.log2 m - 52) (-1074 - e)) in E by lia.
  set (k := Z.max _ _) in E. destruct (decide (k <= 0)) as [Hk|Hk].
  - rewrite decide_False in E by done. case_decide; [done|]. injection E as <- <-. split; [done|].
    rewrite Z.sub_diag. unfold ulp. simpl Z.abs. apply Z.pow_nonneg. lia.
  - pose proof (round_shift_close m k Hm ltac:(lia)) as Hc.
    assert (k = Z.log2 m - 52) as Ek by lia.
    assert (2 ^ k * 2 ^ (e + 2000) <= ulp) as Hu.
    { rewrite <- Z.pow_add_r by lia. unfold ulp. apply Z.pow_le_mono_r; lia. }
    assert (0 < 2 ^ (e + 2000)) as Hpos by (apply Z.pow_pos_nonneg; lia).
    assert (Z.abs (round_shift m k * 2 ^ k * 2 ^ (e + 2000) - m * 2 ^ (e + 2000)) <= ulp) as Hfin.
    { rewrite <- Z.mul_sub_distr_r, Z.abs_mul, (Z.abs_eq (2 ^ (e + 2000))) by lia. nia. }
    case_decide as H0.
    + injection E as <- <-. split; [lia|]. rewrite H0 in Hfin. unfold at_scale. simpl. lia.
    + case_decide; [done|]. injection E as <- <-. split; [lia|]. rewrite at_scale_shift by lia. exact Hfin.
Qed.

Lemma sround_close m e :
  0 <= m -> -1000 <= e -> at_scale m e <= 2 ^ 2007 - 1 ->
  ∃ m' e', sround m e = SFin m' e' ∧ 0 <= m' ∧ -1000 <= e' ∧ Z.abs (at_scale m' e' - at_scale m e) <= ulp.
Proof.
  intros Hm He Hb. unfold sround. rewrite Z.abs_eq by done.
  destruct (round64_close m e Hm He Hb) as (m' & e' & -> & Hm' & He' & Hc).
  exists (Z.sgn m * m'), e'. split; [done|]. destruct (decide (m = 0)) as [->|Hne].
  - simpl. split_and!; [done|done|]. unfold at_scale. simpl. unfold ulp. apply Z.pow_nonneg. lia.
  - rewrite Z.sgn_pos, Z.mul_1_l by lia. done.
Qed.

Lemma s_of_int_exact z : 0 <= z < 2 ^ 53 -> s_of_int z = SFin z 0.
Proof.
  intros Hz. unfold s_of_int, sround. rewrite Z.abs_eq by lia. destruct (decide (z = 0)) as [->|Hne]; [done|].
  pose proof (of_int_exact z ltac:(lia)) as E. unfold of_int in E. rewrite decide_False in E by lia. rewrite E.
  by rewrite Z.sgn_pos, Z.mul_1_l by lia.
Qed.

(** The quotient is within its last bit of the fraction. *)
Lemma quotient_close n d :
  0 <= n < 2 ^ 53 -> 0 < d < 2 ^ 53 ->
  let '(q, e) := quotient n d in
  0 <= q ∧ -200 <= e <= -1 ∧ Z.abs (at_scale q e * d - n * 2 ^ 2000) <= d * 2 ^ (e + 2000)
  ∧ (0 < n -> n <= 100 * d -> e <= -50).
Proof.
  intros Hn Hd. unfold quotient. set (s := Z.max 0 (57 + Z.log2 d - Z.log2 n)).
  assert (0 <= s <= 110) as Hs.
  { assert (Z.log2 d < 53) by (apply Z.log2_lt_pow2; lia). pose proof (Z.log2_nonneg n). unfold s. lia. }
  pose proof (Z.div_mod (n * 2 ^ s) d ltac:(lia)) as Hdm. pose proof (Z.mod_pos_bound (n * 2 ^ s) d ltac:(lia)) as Hmb.
  set (q := n * 2 ^ s / d) in *. set (r := (n * 2 ^ s) mod d) in *.
  assert (0 <= q) by (apply Z.div_pos; [apply Z.mul_nonneg_nonneg; [lia|apply Z.pow_nonneg; lia]|lia]).
  set (b := if decide (r = 0) then 0 else 1). assert (b = 0 ∧ r = 0 ∨ b = 1 ∧ 0 < r) as Hb by (unfold b; case_decide; lia).
  split_and!; [lia|lia|lia| |].
  - unfold at_scale. set (w := 2 ^ (- s - 1 + 2000)). assert (0 < w) by (apply Z.pow_pos_nonneg; lia).
    assert (2 ^ 2000 = 2 * 2 ^ s * w) as ->.
    { unfold w. rewrite <- (Z.pow_succ_r 2 s) by lia. rewrite <- Z.pow_add_r by lia. f_equal. lia. }
    replace ((2 * q + b) * w * d - n * (2 * 2 ^ s * w)) with (w * (2 * (q * d - n * 2 ^ s) + b * d)) by lia.
    rewrite Hdm. rewrite Z.abs_mul, (Z.abs_eq w) by lia.
    replace (d * w) with (w * d) by lia. apply Z.mul_le_mono_nonneg_l; [lia|].
    replace (q * d - (d * q + r)) with (- r) by lia. lia.
  - intros Hn0 Hnd. assert (Z.log2 n <= Z.log2 d + 7) as Hl; [|lia].
    assert (Z.log2 n <= Z.log2 (d * 2 ^ 7)) by (apply Z.log2_le_mono; lia).
    rewrite Z.log2_mul_pow2 in H0 by lia. lia.
Qed.

Lemma at_scale_align m e k : 0 <= k -> 0 <= e - k + 2000 -> at_scale (m * 2 ^ k) (e - k) = at_scale m e.
Proof.
  intros Hk He. unfold at_scale. rewrite <- Z.mul_assoc, <- Z.pow_add_r by lia. do 2 f_equal. lia.
Qed.

(** Two numbers brought to their common exponent. *)
Lemma at_scale_common m e e' :
  -1000 <= e -> -1000 <= e' -> at_scale (m * 2 ^ (e - Z.min e e')) (Z.min e e') = at_scale m e.
Proof.
  intros. replace (Z.min e e') with (e - (e - Z.min e e')) at 2 by lia. apply at_scale_align; lia.
Qed.

Lemma at_scale_add m1 e1 m2 e2 :
  -1000 <= e1 -> -1000 <= e2 ->
  at_scale (m1 * 2 ^ (e1 - Z.min e1 e2) + m2 * 2 ^ (e2 - Z.min e1 e2)) (Z.min e1 e2) = at_scale m1 e1 + at_scale m2 e2.
Proof.
  intros. rewrite <- (at_scale_common m1 e1 e2), <- (at_scale_common m2 e2 e1) by done. rewrite (Z.min_comm e2 e1).
  unfold at_scale. lia.
Qed.

Lemma slt_scale m1 e1 m2 e2 :
  -1000 <= e1 -> -1000 <= e2 -> slt (SFin m1 e1) (SFin m2 e2) = bool_decide (at_scale m1 e1 < at_scale m2 e2).
Proof.
  intros. unfold slt. apply bool_decide_ext.
  rewrite <- (at_scale_common m1 e1 e2), <- (at_scale_common m2 e2 e1) by done. rewrite (Z.min_comm e2 e1).
  unfold at_scale. apply Z.mul_lt_mono_pos_r. apply Z.pow_pos_nonneg; lia.
Qed.

(** The percentage, a fraction of [d] within two units in the last place. *)
Lemma pct_close cov d :
  0 <= cov <= d -> 0 < d <= 10 ^ 8 ->
  ∃ m e, pct (mkStat cov d) = SFin m e ∧ 0 <= m ∧ -1000 <= e
    ∧ Z.abs (at_scale m e * d - 100 * cov * 2 ^ 2000) <= d * (2 * ulp) ∧ at_scale m e <= 2 ^ 2007 - 1 - 2 ^ 1990.
Proof.
  intros Hc Hd. assert (10 ^ 8 < 2 ^ 27) as Hp by done. unfold pct. cbn [total covered]. rewrite decide_False by lia.
  rewrite !s_of_int_exact by lia. unfold smul. change (sround (100 * cov) (0 + 0)) with (s_of_int (100 * cov)).
  rewrite s_of_int_exact by lia. unfold sdiv. rewrite !Z.abs_eq by lia.
  pose proof (quotient_close (100 * cov) d ltac:(lia) ltac:(lia)) as Hq.
  destruct (quotient (100 * cov) d) as [q e]. destruct Hq as (Hq0 & He & Hq & Hsmall).
  set (Q := Z.sgn (100 * cov) * Z.sgn d * q).
  assert (0 <= Q ∧ Z.abs (at_scale Q e * d - 100 * cov * 2 ^ 2000) <= d * ulp) as [HQ0 HQ].
  { unfold Q. rewrite (Z.sgn_pos d), Z.mul_1_r by lia. destruct (decide (cov = 0)) as [->|Hne].
    - simpl. split; [done|]. unfold at_scale. simpl. apply Z.mul_nonneg_nonneg; [lia|]. unfold ulp. apply Z.pow_nonneg. lia.
    - rewrite Z.sgn_pos, Z.mul_1_l by lia. split; [done|]. etransitivity; [exact Hq|].
      apply Z.mul_le_mono_nonneg_l; [lia|]. unfold ulp. apply Z.pow_le_mono_r; lia. }
  assert (at_scale Q e <= 100 * 2 ^ 2000 + ulp) as Hbound.
  { apply (Z.mul_le_mono_pos_r _ _ d); [lia|].
    assert (100 * cov * 2 ^ 2000 <= 100 * d * 2 ^ 2000) by (apply Z.mul_le_mono_nonneg_r; [apply Z.pow_nonneg; lia|lia]). lia. }
  assert (100 * 2 ^ 2000 + ulp + ulp <= 2 ^ 2007 - 1 - 2 ^ 1990) as Hroom by (vm_compute; discriminate).
  assert (0 <= ulp) by (unfold ulp; apply Z.pow_nonneg; lia).
  rewrite Z.sub_diag, Z.add_0_l.
  destruct (sround_close Q e HQ0 ltac:(lia)) as (m' & e' & -> & Hm' & He' & Hcl).
  { assert (0 < 2 ^ 1990) by (apply Z.pow_pos_nonneg; lia). lia. }
  exists m', e'. split_and!; [done|done|done| |lia].
  assert (Z.abs ((at_scale m' e' - at_scale Q e) * d) <= d * ulp) as Hr.
  { rewrite Z.abs_mul, (Z.abs_eq d) by lia. rewrite Z.mul_comm. apply Z.mul_le_mono_nonneg_l; lia. }
  lia.
Qed.

(** The tolerance is far above a unit in the last place, and far below the
    hundred-millionth part of one. *)
Lemma tolerance_bounds :
  4 * ulp <= at_scale 4835703278458517 (-82) ∧ at_scale 4835703278458517 (-82) <= 2 ^ 1990
  ∧ 10 ^ 8 * (at_scale 4835703278458517 (-82) + 3 * ulp) < 2 ^ 2000.
Proof. split_and!; vm_compute; [discriminate|discriminate|reflexivity]. Qed.

(** For up to a hundred million statements the floating-point test with its
    tolerance is the exact test. *)
Lemma below_exact cov d f :
  0 <= cov <= d -> 0 < d <= 10 ^ 8 -> 0 <= f <= 100 ->
  below (pct (mkStat cov d)) f = bool_decide (100 * cov < f * d).
Proof.
  intros Hc Hd Hf. assert (100 < 2 ^ 53) as H53 by done. assert (0 <= f < 2 ^ 53) as Hf53 by lia. clear H53.
  pose proof (s_of_int_exact f Hf53) as Ef. destruct (pct_close cov d Hc Hd) as (m & e & -> & Hm & He & Hcl & Hb).
  pose proof tolerance_bounds as (Heps & Hep2 & Hep3). set (eps := at_scale 4835703278458517 (-82)) in *.
  unfold below, tolerance, sadd. rewrite Ef.
  pose proof (at_scale_add m e 4835703278458517 (-82) He ltac:(lia)) as Hadd. fold eps in Hadd.
  destruct (sround_close (m * 2 ^ (e - Z.min e (-82)) + 4835703278458517 * 2 ^ (-82 - Z.min e (-82))) (Z.min e (-82)))
    as (m' & e' & -> & Hm' & He' & Hcl'); [|lia|rewrite Hadd; lia|].
  { apply Z.add_nonneg_nonneg; apply Z.mul_nonneg_nonneg; try lia; apply Z.pow_nonneg; lia. }
  rewrite Hadd in Hcl'. rewrite slt_scale by lia. apply bool_decide_ext.
  replace (at_scale f 0) with (f * 2 ^ 2000) by done.
  set (P := 2 ^ 2000) in *. set (Y := at_scale m' e') in *. set (X := at_scale m e) in *.
  assert (0 <= ulp) by (unfold ulp; apply Z.pow_nonneg; lia).
  assert (0 < P) by (unfold P; apply Z.pow_pos_nonneg; lia).
  assert (Z.abs ((Y - eps) * d - 100 * cov * P) <= d * (3 * ulp)) as HY.
  { assert (Z.abs ((Y - (X + eps)) * d) <= d * ulp).
    { rewrite Z.abs_mul, (Z.abs_eq d) by lia. rewrite Z.mul_comm. apply Z.mul_le_mono_nonneg_l; lia. }
    lia. }
  clearbody P Y eps X. split.
  - intros HYf. apply Z.nle_gt. intros Hge.
    assert (f * d * P <= 100 * cov * P) by (apply Z.mul_le_mono_nonneg_r; lia).
    assert ((f * P) * d <= (Y - eps + 3 * ulp) * d) by lia.
    assert (f * P <= Y - eps + 3 * ulp) by (eapply Z.mul_le_mono_pos_r; [|eassumption]; lia). lia.
  - intros Hlt. apply Z.nle_gt. intros Hge.
    assert (100 * cov * P <= (f * d - 1) * P) by (apply Z.mul_le_mono_nonneg_r; lia).
    assert ((f * P - eps) * d <= (Y - eps) * d) by (apply Z.mul_le_mono_nonneg_r; lia).
    assert (d * (eps + 3 * ulp) <= 10 ^ 8 * (eps + 3 * ulp)) by (apply Z.mul_le_mono_nonneg_r; lia). lia.
Qed.

(** ** What the analysis computes *)

(** A block of the profile: package, file, statements and count. *)
Abbreviation block := (text * text * Z * Z)%type.

Definition bPkg (b : block) : text := b.1.1.1.
Definition bFile (b : block) : text := b.1.1.2.
Definition bStmts (b : block) : Z := b.1.2.
Definition bCount (b : block) : Z := b.2.

(** The blocks of a profile, or its first error. *)
Fixpoint blocks_of (i : nat) (lines : list text) : result parse_error (list block) :=
  match lines with
  | [] => Ok []
  | line :: r =>
      match parse_line i line with
      | Err e => Err e
      | Ok ob => match blocks_of (S i) r with Ok bs => Ok (option_list ob ++ bs) | Err e => Err e end
      end
  end.

Definition add_block (a : analysis) (b : block) : analysis :=
  mkAnalysis (addStat (packages a) (bPkg b) (bStmts b) (bCount b))
             (addStat (files a) (bFile b) (bStmts b) (bCount b)).

Lemma analyze_blocks i lines a :
  analyze_lines i lines a = match blocks_of i lines with Ok bs => Ok (foldl add_block a bs) | Err e => Err e end.
Proof.
  revert i a. induction lines as [|line r IH]; intros i a; [done|]. simpl.
  destruct (parse_line i line) as [[[[[pkg file] n] c]|]|e]; [| |done]; rewrite IH; by destruct (blocks_of (S i) r).
Qed.

(** The statements of a package or file, and those of them that ran. *)
Definition sum_stmts (bs : list block) : Z := foldr Z.add 0 (bStmts <$> bs).
Definition of_key (key : block -> text) (k : text) (bs : list block) : list block := List.filter (fun b => bool_decide (key b = k)) bs.
Definition stmts (key : block -> text) (k : text) (bs : list block) : Z := sum_stmts (of_key key k bs).
Definition hit (key : block -> text) (k : text) (bs : list block) : Z :=
  sum_stmts (List.filter (fun b => bool_decide (0 < bCount b)) (of_key key k bs)).

Definition table (key : block -> text) (bs : list block) (m : gmap text stat) : gmap text stat :=
  foldl (fun m b => addStat m (key b) (bStmts b) (bCount b)) m bs.

Lemma foldl_add_block bs a :
  foldl add_block a bs = mkAnalysis (table bPkg bs (packages a)) (table bFile bs (files a)).
Proof. revert a. induction bs as [|b bs IH]; intros a; [by destruct a|]. simpl. by rewrite IH. Qed.

Lemma sum_stmts_cons b bs : sum_stmts (b :: bs) = bStmts b + sum_stmts bs.
Proof. done. Qed.

Lemma sum_stmts_nonneg bs : Forall (fun b => 0 <= bStmts b) bs -> 0 <= sum_stmts bs.
Proof. induction 1; [done|]. rewrite sum_stmts_cons. lia. Qed.

Lemma sum_stmts_filter (p : block -> bool) bs :
  Forall (fun b => 0 <= bStmts b) bs -> 0 <= sum_stmts (List.filter p bs) <= sum_stmts bs.
Proof.
  induction 1 as [|b bs Hb HF IH]; [done|]. cbn [List.filter]. destruct (p b); rewrite !sum_stmts_cons; lia.
Qed.

Lemma Forall_lfilter {A} (P : A -> Prop) (p : A -> bool) l : Forall P l -> Forall P (List.filter p l).
Proof. induction 1; simpl; [constructor|]. case_match; [by constructor|done]. Qed.

Lemma hit_stmts key k bs :
  Forall (fun b => 0 <= bStmts b) bs -> 0 <= hit key k bs <= stmts key k bs ∧ stmts key k bs <= sum_stmts bs.
Proof.
  intros H. unfold hit, stmts, of_key. pose proof (sum_stmts_filter (fun b => bool_decide (key b = k)) bs H).
  pose proof (sum_stmts_filter (fun b => bool_decide (0 < bCount b)) _ (Forall_lfilter _ (fun b => bool_decide (key b = k)) _ H)). lia.
Qed.

(** The table holds the sums, without overflow while they stay below [2^63]. *)
Lemma table_lookup key bs m k :
  Forall (fun b => 0 <= bStmts b) bs ->
  (∀ s, m !! k = Some s -> 0 <= covered s <= total s ∧ total s + sum_stmts bs < 2 ^ 63) -> sum_stmts bs < 2 ^ 63 ->
  table key bs m !! k =
    if decide (k ∈ key <$> bs) then
      Some (mkStat (covered (default (mkStat 0 0) (m !! k)) + hit key k bs)
                   (total (default (mkStat 0 0) (m !! k)) + stmts key k bs))
    else m !! k.
Proof.
  revert m. induction bs as [|b bs IH]; intros m HF Hm Hs.
  { by rewrite decide_False by (apply not_elem_of_nil). }
  apply Forall_cons in HF as [Hb HF]. pose proof (sum_stmts_nonneg bs HF) as Hpos.
  rewrite sum_stmts_cons in *.
  cbn [table foldl]. fold (table key bs (addStat m (key b) (bStmts b) (bCount b))).
  assert (∀ z, 0 <= z < 2 ^ 63 -> int64 z = z) as Hint by (intros z Hz; apply wrap_signed_id; simpl; lia).
  destruct (decide (key b = k)) as [Ek|Ek].
  - set (s := default (mkStat 0 0) (m !! k)).
    assert (0 <= covered s <= total s ∧ total s + (bStmts b + sum_stmts bs) < 2 ^ 63) as [Hs1 Hs2].
    { unfold s. destruct (m !! k) as [x|] eqn:Ex; [by apply Hm|simpl; lia]. }
    assert (addStat m (key b) (bStmts b) (bCount b) !! k
      = Some (mkStat (covered s + (if decide (0 < bCount b) then bStmts b else 0)) (total s + bStmts b))) as Ea.
    { unfold addStat. rewrite Ek, lookup_insert_eq. fold s. f_equal. rewrite (Hint (total s + _)) by lia.
      destruct (decide (0 < bCount b)); [by rewrite Hint by lia|by rewrite Z.add_0_r]. }
    rewrite IH; [|done| |lia].
    2:{ intros x. rewrite Ea. intros [= <-]. cbn [covered total]. destruct (decide (0 < bCount b)); lia. }
    rewrite Ea. rewrite (decide_True (P := k ∈ key <$> b :: bs)) by (rewrite fmap_cons, Ek; left).
    assert (stmts key k (b :: bs) = bStmts b + stmts key k bs) as -> by (unfold stmts, of_key; simpl; by rewrite bool_decide_eq_true_2).
    assert (hit key k (b :: bs) = (if decide (0 < bCount b) then bStmts b else 0) + hit key k bs) as ->.
    { unfold hit, of_key. simpl. rewrite bool_decide_eq_true_2 by done. cbn [List.filter]. destruct (decide (0 < bCount b)) as [Hc|Hc];
        [rewrite bool_decide_eq_true_2 by done|rewrite bool_decide_eq_false_2 by done]; done. }
    cbn [from_option id covered total]. fold s.
    destruct (decide (k ∈ key <$> bs)) as [Hin|Hin]; [f_equal; f_equal; lia|].
    assert (of_key key k bs = []) as Enil.
    { unfold of_key. clear -Hin. induction bs as [|x bs IH]; [done|]. simpl. rewrite fmap_cons, not_elem_of_cons in Hin.
      destruct Hin as [Hx Hin]. rewrite bool_decide_eq_false_2 by congruence. by apply IH. }
    unfold hit, stmts. rewrite Enil. cbn. f_equal. f_equal; lia.
  - assert (addStat m (key b) (bStmts b) (bCount b) !! k = m !! k) as Ea by (unfold addStat; by rewrite lookup_insert_ne).
    rewrite IH; [|done|intros x; rewrite Ea; intros Hx; specialize (Hm x Hx); lia|lia]. rewrite Ea.
    assert (of_key key k (b :: bs) = of_key key k bs) as Eo by (unfold of_key; simpl; by rewrite bool_decide_eq_false_2).
    unfold hit, stmts. rewrite Eo. rewrite fmap_cons.
    destruct (decide (k ∈ key <$> bs)) as [Hin|Hin];
      [by rewrite decide_True by (by right)|by rewrite decide_False by (rewrite not_elem_of_cons; by split; [intros ->|])].
Qed.

(** ** The gate *)

(** The statements a floor asks for are covered, in exact arithmetic. *)
Definition meets (key : block -> text) (floor : Z) (k : text) (bs : list block) : Prop :=
  floor * stmts key k bs <= 100 * hit key k bs.

(** A profile the comparisons are exact for: no negative statement counts, and at most a
    hundred million statements. *)
Definition plausible (bs : list block) : Prop := Forall (fun b => 0 <= bStmts b) bs ∧ sum_stmts bs <= 10 ^ 8.

(** Nothing to cover is fully covered. *)
Lemma below_nothing floor : 0 <= floor <= 100 -> below (pct (mkStat 0 0)) floor = false.
Proof.
  intros Hf. assert (100 < 2 ^ 53) as H53 by done. unfold below. rewrite (s_of_int_exact floor) by lia.
  assert (sadd (pct (mkStat 0 0)) tolerance = SFin 7036874417836769 (-46)) as -> by by vm_compute.
  unfold slt. apply bool_decide_eq_false. change (Z.min (-46) 0) with (-46). change (2 ^ (-46 - -46)) with 1.
  change (2 ^ (0 - -46)) with 70368744177664. lia.
Qed.

Lemma below_meets key floor k bs :
  plausible bs -> 0 <= floor <= 100 ->
  below (pct (mkStat (hit key k bs) (stmts key k bs))) floor = false <-> meets key floor k bs.
Proof.
  intros [HF Hs] Hf. destruct (hit_stmts key k bs HF) as [H1 H2]. unfold meets.
  destruct (decide (stmts key k bs = 0)) as [E|E].
  - assert (hit key k bs = 0) as Eh by lia. rewrite E, Eh. split; [lia|]. intros _.
    by apply below_nothing.
  - rewrite below_exact by lia. rewrite bool_decide_eq_false. lia.
Qed.

Lemma table_empty key bs k :
  plausible bs ->
  table key bs ∅ !! k = if decide (k ∈ key <$> bs) then Some (mkStat (hit key k bs) (stmts key k bs)) else None.
Proof.
  intros [HF Hs]. assert (10 ^ 8 < 2 ^ 63) as Hb by done. rewrite table_lookup; [|done|by intros s; rewrite lookup_empty|lia].
  by rewrite lookup_empty.
Qed.

Lemma lfilter_nil {A} (p : A -> bool) l : List.filter p l = [] <-> ∀ x, x ∈ l -> p x = false.
Proof.
  induction l as [|x l IH]; simpl; [split; [set_solver|done]|]. destruct (p x) eqn:E.
  - split; [done|]. intros H. specialize (H x (list_elem_of_here x l)). congruence.
  - rewrite IH. split; [intros H y [->|Hy]%elem_of_cons; auto|intros H y Hy; apply H; by right].
Qed.

Lemma omap_nil {A B} (f : A -> option B) l : omap f l = [] <-> ∀ x, x ∈ l -> f x = None.
Proof.
  induction l as [|x l IH]; [split; [set_solver|done]|]. rewrite omap_cons. destruct (f x) eqn:E.
  - split; [done|]. intros H. specialize (H x (list_elem_of_here x l)). congruence.
  - rewrite IH. split; [intros H y [->|Hy]%elem_of_cons; auto|intros H y Hy; apply H; by right].
Qed.

Lemma floor_of_range pkg : 0 <= floor_of pkg <= 100.
Proof. unfold floor_of, floorCritical, floorDefault. case_decide; lia. Qed.

Lemma package_violations bs :
  plausible bs ->
  List.filter failing (package_rows (mkAnalysis (table bPkg bs ∅) (table bFile bs ∅))) = []
  <-> ∀ pkg, pkg ∈ bPkg <$> bs -> meets bPkg (floor_of pkg) pkg bs.
Proof.
  intros Hp. rewrite lfilter_nil. unfold package_rows. cbn [packages]. split.
  - intros H pkg Hin. apply (below_meets bPkg (floor_of pkg) pkg bs Hp (floor_of_range pkg)).
    apply (H (mkRow (trimModule pkg) (pct (mkStat (hit bPkg pkg bs) (stmts bPkg pkg bs))) (floor_of pkg))).
    apply list_elem_of_fmap. exists (pkg, mkStat (hit bPkg pkg bs) (stmts bPkg pkg bs)). split; [done|].
    apply elem_of_map_to_list. by rewrite table_empty, decide_True.
  - intros H r ([pkg s] & -> & Hin%elem_of_map_to_list)%list_elem_of_fmap.
    rewrite table_empty in Hin by done. destruct (decide (pkg ∈ bPkg <$> bs)) as [Hi|]; [|done]. injection Hin as <-.
    unfold failing. cbn [rowPct rowFloor fst snd]. by apply below_meets; [|apply floor_of_range|apply H].
Qed.

Lemma file_violations bs :
  plausible bs ->
  absent (table bFile bs ∅) criticalFiles
    ++ List.filter failing (file_rows (mkAnalysis (table bPkg bs ∅) (table bFile bs ∅))) = []
  <-> ∀ f, f ∈ criticalFiles -> f ∈ bFile <$> bs ∧ meets bFile floorCritical f bs.
Proof.
  intros Hp. rewrite app_nil. unfold absent. rewrite omap_nil, lfilter_nil. unfold file_rows. cbn [files].
  assert (0 <= floorCritical <= 100) as Hfl by (unfold floorCritical; lia). split.
  - intros [Ha Hf] f Hin. specialize (Ha f Hin). cbv beta in Ha. rewrite table_empty in Ha by done.
    destruct (decide (f ∈ bFile <$> bs)) as [Hi|]; [|done]. split; [done|].
    apply (below_meets bFile floorCritical f bs Hp Hfl).
    apply (Hf (mkRow (trimModule f) (pct (mkStat (hit bFile f bs) (stmts bFile f bs))) floorCritical)).
    apply list_elem_of_omap. exists f. split; [done|]. by rewrite table_empty, decide_True.
  - intros H. split.
    + intros f Hin. destruct (H f Hin) as [Hi _]. by rewrite table_empty, decide_True.
    + intros r (f & Hin & Hr)%list_elem_of_omap. destruct (H f Hin) as [Hi Hm].
      rewrite table_empty, decide_True in Hr by done. injection Hr as <-. unfold failing. cbn [rowPct rowFloor].
      by apply below_meets.
Qed.

Lemma absent_packages bs :
  plausible bs -> absent (table bPkg bs ∅) criticalPackages = [] <-> ∀ p, p ∈ criticalPackages -> p ∈ bPkg <$> bs.
Proof.
  intros Hp. unfold absent. rewrite omap_nil. split; intros H p Hin; specialize (H p Hin); cbv beta in *;
    rewrite table_empty in * by done; by destruct (decide (p ∈ bPkg <$> bs)).
Qed.

(** What the documentation of the gate asks of a profile: the packages and the
    file held to 95 percent, which have to be there; 80 percent elsewhere. *)
Definition must_have : list text :=
  of_string <$> ["github.com/brunomvsouza/warren/internal/reconnect";
                 "github.com/brunomvsouza/warren/internal/confirms";
                 "github.com/brunomvsouza/warren/internal/amqperror";
                 "github.com/brunomvsouza/warren/internal/redact"]%string.

Definition must_have_file : text := of_string "github.com/brunomvsouza/warren/channelpool.go".

Definition passes (bs : list block) : Prop :=
  (∀ pkg, pkg ∈ bPkg <$> bs -> meets bPkg (if decide (pkg ∈ must_have) then 95 else 80) pkg bs)
  ∧ (∀ p, p ∈ must_have -> p ∈ bPkg <$> bs)
  ∧ must_have_file ∈ bFile <$> bs ∧ meets bFile 95 must_have_file bs.

Lemma passes_floors bs :
  passes bs <->
  (∀ pkg, pkg ∈ bPkg <$> bs -> meets bPkg (floor_of pkg) pkg bs)
  ∧ (∀ p, p ∈ criticalPackages -> p ∈ bPkg <$> bs)
  ∧ (∀ f, f ∈ criticalFiles -> f ∈ bFile <$> bs ∧ meets bFile floorCritical f bs).
Proof.
  unfold passes, floor_of, floorCritical, floorDefault.
  assert (criticalPackages = must_have) as -> by (vm_compute; reflexivity).
  assert (criticalFiles = [must_have_file]) as -> by (vm_compute; reflexivity).
  assert (∀ P : text -> Prop, (∀ f, f ∈ [must_have_file] -> P f) <-> P must_have_file) as Hone.
  { intros P. split; [intros H; apply H; by left|]. intros H f Hf. apply list_elem_of_singleton in Hf. by subst. }
  by rewrite Hone.
Qed.

(** ** Properties *)

(** C37. The gate: on a profile that parses, without a negative statement count and
    with at most a hundred million statements in all, the exit code is 0 when
    every package of the profile meets its floor (95 percent for [reconnect],
    [confirms], [amqperror] and [redact], 80 for the others), these four are in
    the profile, and so is [channelpool.go] with 95 percent covered; otherwise it
    is 1.  Within these bounds the floors are met in exact arithmetic: neither
    the rounding of the percentages nor the tolerance lets a package through.
    On a profile that does not parse it is 2. *)
Theorem covercheck_gate a0 a1 data :
  match blocks_of 1 (split_lines data []) with
  | Err _ => run [a0; a1] (Some (Some data)) = 2
  | Ok bs =>
      Forall (fun b => 0 <= bStmts b) bs -> sum_stmts bs <= 10 ^ 8 ->
      (passes bs <-> run [a0; a1] (Some (Some data)) = 0) ∧ (¬ passes bs <-> run [a0; a1] (Some (Some data)) = 1)
  end.
Proof.
  unfold run, analyze. rewrite analyze_blocks. destruct (blocks_of 1 (split_lines data [])) as [bs|e]; [|done].
  intros Hp1 Hp2. assert (plausible bs) as Hp by done. rewrite foldl_add_block. cbn [packages files].
  assert (passes bs <-> (check (mkAnalysis (table bPkg bs ∅) (table bFile bs ∅))).1 = []) as Hc.
  { rewrite passes_floors. unfold check. cbn [fst packages files]. rewrite app_nil, app_nil.
    by rewrite package_violations, absent_packages, file_violations. }
  destruct (check _).1 as [|v vs]; [split; split; try done; tauto|].
  assert (¬ passes bs) by (rewrite Hc; done). by split; split.
Qed.

(** Beyond that size the tolerance lets a package through that is one statement
    short of its floor. *)
Lemma tolerance_passes_huge :
  below (pct (mkStat 799999999999 1000000000000)) 80 = false ∧ 100 * 799999999999 < 80 * 1000000000000.
Proof. split; [by vm_compute|lia]. Qed.

(** A profile with every critical package and file, at its floor. *)
Definition profile0 : text :=
  of_string "mode: set" ++ "010"%char
  :: flat_map (fun p => p ++ of_string "/a.go:1.1,2.2 95 1" ++ "010"%char :: p ++ of_string "/b.go:1.1,2.2 5 0" ++ ["010"%char])
       criticalPackages
  ++ modulePath ++ of_string "/channelpool.go:1.1,9.2 20 3".

Definition blocks0 : list block :=
  match blocks_of 1 (split_lines profile0 []) with Ok bs => bs | Err _ => [] end.

Lemma profile0_blocks : blocks_of 1 (split_lines profile0 []) = Ok blocks0.
Proof. vm_compute. reflexivity. Qed.

Lemma blocks0_plausible : plausible blocks0.
Proof.
  split; [|vm_compute; discriminate]. apply Forall_forall. intros b Hb%list_elem_of_In. apply Z.leb_le.
  revert b Hb. apply forallb_forall. vm_compute. reflexivity.
Qed.

Lemma covercheck_gate_witness :
  (passes blocks0 <-> run [[]; []] (Some (Some profile0)) = 0) ∧ run [[]; []] (Some (Some profile0)) = 0.
Proof.
  pose proof (covercheck_gate [] [] profile0) as H. rewrite profile0_blocks in H.
  split; [exact (proj1 (H (proj1 blocks0_plausible) (proj2 blocks0_plausible)))|]. vm_compute. reflexivity.
Defined.
