(* ===== verification/ClusterKit.v ===== *)
(** * ClusterKit: the test support that reads a cluster's state

    Models the pure part of [src/internal/amqptest]: the requests to the
    management API and what is made of the answers (cluster_control.go), the
    list of nodes (cluster_parse.go), the choice of a broker image (plugins.go),
    the rendering of a configuration (rabbitmq.go), the helpers of the
    campaigns with their polling loops and docker commands (cluster.go) and the
    proxy control.  The URL parser, the HTTP client, the JSON decoder and the
    docker command are parameters; an error is modelled by the texts it is
    built from. *)

From Stdlib Require Import Ascii.
From stdpp Require Import strings sorting.
From S2P Require Import Prelude Errors Retry Covercheck.

(** ** Nodes *)

Fixpoint split_on (c : ascii) (l : text) (cur : text) : list text :=
  match l with
  | [] => [rev cur]
  | x :: r => if decide (x = c) then rev cur :: split_on c r [] else split_on c r (x :: cur)
  end.

(** An empty list stands for nil: callers test the length. *)
Definition parseClusterNodes (raw : text) : list text :=
  omap (fun p => let s := TrimSpace p in if decide (s = []) then None else Some s) (split_on "," raw []).

Record QuorumQueueState : Type := mkQuorum {
  qName : text;
  qType : text;
  Leader : text;
  Members : list text;
  Online : list text;
  MessagesReady : Z;
  MessagesUnacknowledged : Z
}.

Definition FullyOnline (want : Z) (s : QuorumQueueState) : bool :=
  bool_decide (Z.of_nat (length (Members s)) = want) && bool_decide (Z.of_nat (length (Online s)) = want).

Record clusterNodeState : Type := mkNode {
  nName : text;
  nRunning : bool;
  nApplications : list (text * text)
}.

(** The loop of [parseRunningNodes]. *)
Fixpoint count_running (nodes : list clusterNodeState) : Z :=
  match nodes with
  | [] => 0
  | n :: r => (if nRunning n then 1 else 0) + count_running r
  end.

Definition rabbitVersion (apps : list (text * text)) : text :=
  match list_find (fun app => app.1 = of_string "rabbit") apps with
  | Some (_, app) => app.2
  | None => []
  end.

(** The loop of [parseNodeVersions]. *)
Definition node_versions (nodes : list clusterNodeState) : gmap text text :=
  foldl (fun out n => <[ nName n := rabbitVersion (nApplications n) ]> out) ∅ nodes.

Record connectionEntry : Type := mkConnEntry { cName : text; cNode : text; cConnectionName : text }.

Record ConnNode : Type := mkConnNode { cnName : text; cnNode : text; cnBrokerName : text }.

(** The loop of [parseConnectionNodes]. *)
Definition connection_nodes (namePrefix : text) (conns : list connectionEntry) : list ConnNode :=
  omap (fun c =>
    if bool_decide (cConnectionName c = []) || negb (HasPrefix namePrefix (cConnectionName c)) then None
    else Some (mkConnNode (cConnectionName c) (cNode c) (cName c))) conns.

Definition NodeService (node : text) : text :=
  match list_find (fun c => c = "@"%char) node with
  | Some (i, _) => drop (S i) node
  | None => node
  end.

Definition nodeContainer (service : text) : text := of_string "warren-" ++ service.

Definition dockerNodeArgs (action container : text) : list text := [action; container].

Definition dockerNetworkArgs (action network container alias : text) : list text :=
  if decide (action = of_string "connect")
  then [of_string "network"; of_string "connect"; of_string "--alias"; alias; network; container]
  else [of_string "network"; action; network; container].

(** ** Broker image and configuration *)

Inductive pluginMode : Type := modePrebakedImage | modeMountedPlugin | modeNoDelayed.

Record resolution : Type := mkResolution {
  mode : pluginMode;
  image : text;
  delayedPluginFile : text;
  delayedAvailable : bool
}.

(** [envImage] and [envFile] are the two variables, empty when unset. *)
Definition resolve (version envImage envFile : text) : resolution :=
  if decide (envImage ≠ []) then mkResolution modePrebakedImage envImage [] true
  else
    let base := of_string "rabbitmq:" ++ version ++ of_string "-management" in
    if decide (envFile ≠ []) then mkResolution modeMountedPlugin base envFile true
    else mkResolution modeNoDelayed base [] false.

Definition delayedConfigured (envImage envFile : text) : bool :=
  bool_decide (envImage ≠ []) || bool_decide (envFile ≠ []).

Definition text_le (x y : text) : Prop := text_leb x y = true.

#[global] Instance text_le_dec : RelDecision text_le.
Proof. intros x y. unfold text_le. apply _. Defined.

(** The keys in sorted order, a line each. *)
Definition renderConf (kv : gmap text text) : text :=
  concat ((fun k => k ++ of_string " = " ++ default [] (kv !! k) ++ ["010"%char])
            <$> merge_sort text_le (map_to_list kv).*1).

(** ** Requests to the management API *)

(** [url.Parse]: scheme, host and user information. *)
Record baseURL : Type := mkBase { uScheme : text; uHost : text; uUser : option (text * text) }.

Record request : Type := mkRequest { rqURL : text; rqAuth : option (text * text) }.

Record response : Type := mkResponse { rsStatus : Z; rsBody : option text }.

(** The errors, by what their texts are built from; [DoFailed] and the others
    that wrap name the wrapped error. *)
Inductive fetch_error : Type :=
| MalformedURL
| NoHost
| BadRequest (err : nat)
| DoFailed (shown : text) (err : nat)
| ReadBody
| BadStatus (url : text) (code : Z) (body : text)
| DecodeFailed (err : nat).

Section management.
  Context (parse : text -> option baseURL) (PathEscape : text -> text).
  Context (newRequest : text -> option nat) (Do : request -> result nat response).

(** The common body of the three fetch functions: [apiURL] and what the error of
    a failed call shows are built from the scheme and the host.  The first
    component is the request sent, if one was. *)
Definition management_get (mgmtBase : text) (path shown : text) : option request * result fetch_error text :=
  match parse mgmtBase with
  | None => (None, Err MalformedURL)
  | Some base =>
      if decide (uHost base = []) then (None, Err NoHost)
      else
        let root := uScheme base ++ of_string "://" ++ uHost base in
        let apiURL := root ++ path in
        match newRequest apiURL with
        | Some e => (None, Err (BadRequest e))
        | None =>
            let req := mkRequest apiURL (uUser base) in
            (Some req,
             match Do req with
             | Err e => Err (DoFailed (root ++ shown) e)
             | Ok resp =>
                 match rsBody resp with
                 | None => Err ReadBody
                 | Some body =>
                     if decide (rsStatus resp ≠ 200) then Err (BadStatus apiURL (rsStatus resp) (TrimSpace body))
                     else Ok body
                 end
             end)
        end
  end.

Definition slash : text := of_string "/".

Definition queuePath (vhost queue : text) : text :=
  let vhost := if decide (vhost = []) then slash else vhost in
  of_string "/api/queues/" ++ PathEscape vhost ++ slash ++ PathEscape queue.

Definition fetchNodesBody (mgmtBase : text) : result fetch_error text :=
  (management_get mgmtBase (of_string "/api/nodes") (of_string "/api/nodes")).2.

Section decode.
  Context (decodeQueue : text -> result nat QuorumQueueState).
  Context (decodeNodes : text -> result nat (list clusterNodeState)).
  Context (decodeConns : text -> result nat (list connectionEntry)).

Definition parseQuorumQueueState (body : text) : result fetch_error QuorumQueueState :=
  match decodeQueue body with Ok s => Ok s | Err e => Err (DecodeFailed e) end.

Definition fetchQuorumQueueState (mgmtBase vhost queue : text) : result fetch_error QuorumQueueState :=
  rbind (management_get mgmtBase (queuePath vhost queue) []).2 parseQuorumQueueState.

Definition parseRunningNodes (body : text) : result fetch_error (Z * Z) :=
  match decodeNodes body with
  | Ok nodes => Ok (count_running nodes, Z.of_nat (length nodes))
  | Err e => Err (DecodeFailed e)
  end.

Definition parseNodeVersions (body : text) : result fetch_error (gmap text text) :=
  match decodeNodes body with Ok nodes => Ok (node_versions nodes) | Err e => Err (DecodeFailed e) end.

Definition fetchRunningNodes (mgmtBase : text) : result fetch_error (Z * Z) :=
  rbind (fetchNodesBody mgmtBase) parseRunningNodes.

Definition fetchNodeVersions (mgmtBase : text) : result fetch_error (gmap text text) :=
  rbind (fetchNodesBody mgmtBase) parseNodeVersions.

Definition parseConnectionNodes (body namePrefix : text) : result fetch_error (list ConnNode) :=
  match decodeConns body with Ok conns => Ok (connection_nodes namePrefix conns) | Err e => Err (DecodeFailed e) end.

Definition fetchConnectionNodes (mgmtBase namePrefix : text) : result fetch_error (list ConnNode) :=
  rbind (management_get mgmtBase (of_string "/api/connections") (of_string "/api/connections")).2
    (fun body => parseConnectionNodes body namePrefix).
End decode.
End management.

(** ** The polling loops *)

(** One poll: the answer of [fetchRunningNodes], and whether the deadline has
    passed when the loop looks at the clock after it. *)
Record poll : Type := mkPoll { plAnswer : option (Z * Z); plExpired : bool }.

(** The loop of [TryWaitRunningNodes]: the result and the polls made; [None] when the polls
    given run out. *)
Fixpoint wait_exact (want : Z) (polls : list poll) : option (bool * nat) :=
  match polls with
  | [] => None
  | p :: r =>
      if match plAnswer p with Some (running, _) => bool_decide (running = want) | None => false end
      then Some (true, 1%nat)
      else if plExpired p then Some (false, 1%nat)
      else match wait_exact want r with
           | Some (b, n) => Some (b, S n)
           | None => None
           end
  end.

(** ** The toolkit of the campaigns (cluster.go) *)

(** A helper that fails its test, by what its message is built from; [running]
    and [total] of a cluster that is not ready are those of the last poll. *)
Inductive fatal : Type :=
| EnvUnset
| EnvNoEntries
| ReadFailed (err : fetch_error)
| NotReady (last : result fetch_error (Z * Z))
| DockerFailed (out : text) (err : nat).

Definition ClusterNodes (raw : text) : result fatal (list text) :=
  let nodes := parseClusterNodes raw in
  if decide (nodes = []) then Err (if decide (raw = []) then EnvUnset else EnvNoEntries) else Ok nodes.

Definition ClusterMgmt (mgmt : text) : result fatal text := if decide (mgmt = []) then Err EnvUnset else Ok mgmt.

Definition ToxiproxyURL (u : text) : result fatal text := if decide (u = []) then Err EnvUnset else Ok u.

(** What the helpers make of a call that reads the cluster's state. *)
Definition must_read {A} (fetch : text -> result fetch_error A) (mgmtEnv : text) : result fatal A :=
  rbind (ClusterMgmt mgmtEnv) (fun mgmt =>
    match fetch mgmt with Ok a => Ok a | Err e => Err (ReadFailed e) end).

Section toolkit.
  Context (parse : text -> option baseURL) (PathEscape : text -> text).
  Context (newRequest : text -> option nat) (Do : request -> result nat response).
  Context (decodeQueue : text -> result nat QuorumQueueState).
  Context (decodeNodes : text -> result nat (list clusterNodeState)).
  Context (decodeConns : text -> result nat (list connectionEntry)).

Definition QuorumLeader (mgmtEnv queue : text) : result fatal QuorumQueueState :=
  must_read (fun mgmt => fetchQuorumQueueState parse PathEscape newRequest Do decodeQueue mgmt slash queue) mgmtEnv.

Definition ConnectionNodes (mgmtEnv namePrefix : text) : result fatal (list ConnNode) :=
  must_read (fun mgmt => fetchConnectionNodes parse newRequest Do decodeConns mgmt namePrefix) mgmtEnv.

Definition RunningNodes (mgmtEnv : text) : result fatal (Z * Z) :=
  must_read (fetchRunningNodes parse newRequest Do decodeNodes) mgmtEnv.

Definition NodeVersions (mgmtEnv : text) : result fatal (gmap text text) :=
  must_read (fetchNodeVersions parse newRequest Do decodeNodes) mgmtEnv.
End toolkit.

Definition enough (want : Z) (answered : result fetch_error (Z * Z)) : bool :=
  match answered with Ok (running, _) => bool_decide (want <= running) | Err _ => false end.

(** The loop of [WaitClusterReady]: each round tells whether the deadline has passed when the
    loop looks at the clock, and then what [fetchRunningNodes] answers.
    [None] when the rounds given run out. *)
Fixpoint wait_ready (want : Z) (last : result fetch_error (Z * Z))
    (rounds : list (bool * result fetch_error (Z * Z))) : option (result fatal unit) :=
  match rounds with
  | [] => None
  | (expired, answered) :: r =>
      if expired : bool then Some (Err (NotReady last))
      else if enough want answered then Some (Ok tt)
      else wait_ready want answered r
  end.

(** The rounds are those of a cluster read at the management URL. *)
Definition WaitClusterReady (mgmtEnv : text) (want : Z) (rounds : text -> list (bool * result fetch_error (Z * Z)))
    : option (result fatal unit) :=
  match ClusterMgmt mgmtEnv with
  | Ok mgmt => wait_ready want (Ok (0, 0)) (rounds mgmt)
  | Err e => Some (Err e)
  end.

Definition TryWaitRunningNodes (mgmtEnv : text) (want : Z) (polls : text -> list poll)
    : option (result fatal bool) :=
  match ClusterMgmt mgmtEnv with
  | Ok mgmt => (fun r => Ok r.1) <$> wait_exact want (polls mgmt)
  | Err e => Some (Err e)
  end.

(** ** Docker *)

(** [strings.Contains]. *)
Fixpoint Contains (s sub : text) : bool :=
  HasPrefix sub s || match s with [] => false | _ :: r => Contains r sub end.

Definition isBenignNetworkErr (out : text) : bool :=
  Contains out (of_string "already exists in network") || Contains out (of_string "is not connected to network").

Definition partitionNetwork : text := of_string "warren-cluster_default".

Section docker.
(** [exec.Command("docker", args...).CombinedOutput()]. *)
  Context (docker : list text -> text * option nat).

Definition dockerNode (action service : text) : result fatal unit :=
  let '(out, err) := docker (dockerNodeArgs action (nodeContainer service)) in
  match err with Some e => Err (DockerFailed (TrimSpace out) e) | None => Ok tt end.

Definition StopNode : text -> result fatal unit := dockerNode (of_string "stop").
Definition StartNode : text -> result fatal unit := dockerNode (of_string "start").
Definition KillNode : text -> result fatal unit := dockerNode (of_string "kill").
Definition RestartNode : text -> result fatal unit := dockerNode (of_string "restart").

Definition runDockerNetwork (action service : text) : text * option nat :=
  let '(out, err) := docker (dockerNetworkArgs action partitionNetwork (nodeContainer service) service) in
  (TrimSpace out, err).

Definition dockerNetwork (action service : text) : result fatal unit :=
  let '(out, err) := runDockerNetwork action service in
  match err with Some e => Err (DockerFailed out e) | None => Ok tt end.

Definition dockerNetworkTolerant (action service : text) : result fatal unit :=
  let '(out, err) := runDockerNetwork action service in
  match err with
  | Some e => if negb (isBenignNetworkErr out) then Err (DockerFailed out e) else Ok tt
  | None => Ok tt
  end.

Definition PartitionNode : text -> result fatal unit := dockerNetwork (of_string "disconnect").
Definition HealPartition : text -> result fatal unit := dockerNetworkTolerant (of_string "connect").
End docker.

(** ** Toxiproxy *)

(** [strings.TrimRight(s, "/")]. *)
Fixpoint drop_slashes (s : text) : text :=
  match s with
  | c :: r => if decide (c = "/"%char) then drop_slashes r else s
  | [] => []
  end.
Definition TrimRightSlash (s : text) : text := rev (drop_slashes (rev s)).

(** The base URL of the client [NewToxiproxyClient] returns. *)
Definition NewToxiproxyClient (base : text) : text := TrimRightSlash base.

Definition NewToxiproxy (u : text) : result fatal text :=
  rbind (ToxiproxyURL u) (fun u => Ok (NewToxiproxyClient u)).

(** A POST with its content type and its body. *)
Record post : Type := mkPost { psURL : text; psContentType : text; psBody : text }.

(** [json.Marshal] of an object with one flag, which cannot fail. *)
Definition enabled_body (enabled : bool) : text :=
  of_string "{" ++ ["034"%char] ++ of_string "enabled" ++ ["034"%char]
    ++ of_string (if enabled then ":true}" else ":false}").

Inductive proxy_error : Type :=
| ProxyRequest (err : nat)
| ProxyDo (url : text) (err : nat)
| ProxyStatus (url : text) (code : Z) (body : text).

Section toxiproxy.
  Context (PathEscape : text -> text) (newRequest : text -> option nat) (Do : post -> result nat response).

(** A body that cannot be read counts as far as it was read. *)
Definition setProxyEnabled (base name : text) (enabled : bool) : option post * option proxy_error :=
  let apiURL := base ++ of_string "/proxies/" ++ PathEscape name in
  match newRequest apiURL with
  | Some e => (None, Some (ProxyRequest e))
  | None =>
      let req := mkPost apiURL (of_string "application/json") (enabled_body enabled) in
      (Some req,
       match Do req with
       | Err e => Some (ProxyDo apiURL e)
       | Ok resp =>
           if decide (rsStatus resp ≠ 200)
           then Some (ProxyStatus apiURL (rsStatus resp) (TrimSpace (default [] (rsBody resp)))) else None
       end)
  end.

Definition DisableProxy (base name : text) := setProxyEnabled base name false.
Definition EnableProxy (base name : text) := setProxyEnabled base name true.
End toxiproxy.

(** ** Properties *)

Section noninterference.
  Context (parse : text -> option baseURL) (newRequest : text -> option nat) (Do : request -> result nat response).

(** Credentials ride the header only: two management URLs that differ in their
    user information send requests with the same URL, each with its own
    credentials in the header, and, when the server answers both alike, end in
    the same result: no error text depends on them.  A URL that does not parse
    ends in an error that shows nothing of it. *)
Lemma management_hides_credentials m1 m2 m3 s h u1 u2 path shown :
  parse m1 = Some (mkBase s h u1) -> parse m2 = Some (mkBase s h u2) ->
  (∀ url, Do (mkRequest url u1) = Do (mkRequest url u2)) -> parse m3 = None ->
  (management_get parse newRequest Do m1 path shown).2 = (management_get parse newRequest Do m2 path shown).2
  ∧ rqURL <$> (management_get parse newRequest Do m1 path shown).1
    = rqURL <$> (management_get parse newRequest Do m2 path shown).1
  ∧ (∀ r, (management_get parse newRequest Do m1 path shown).1 = Some r -> rqAuth r = u1)
  ∧ management_get parse newRequest Do m3 path shown = (None, Err MalformedURL).
Proof.
  intros E1 E2 HD E3. unfold management_get. rewrite E1, E2, E3. cbn [uHost uScheme uUser].
  destruct (decide (h = [])); [done|]. destruct (newRequest _); [done|]. rewrite HD. split_and!; try done.
  by intros r [= <-].
Qed.
End noninterference.

(** The server of the witness answers by URL. *)
Lemma management_hides_credentials_witness :
  let parse m := if decide (m = of_string "bad") then None
                 else Some (mkBase (of_string "http") (of_string "h:15672") (Some (m, of_string "secret"))) in
  (management_get parse (fun _ => None) (fun _ => Ok (mkResponse 401 (Some (of_string "no ")))) (of_string "u1")
     (of_string "/api/nodes") []).2
  = (management_get parse (fun _ => None) (fun _ => Ok (mkResponse 401 (Some (of_string "no ")))) (of_string "u2")
     (of_string "/api/nodes") []).2.
Proof.
  intros parse. refine (proj1 (management_hides_credentials parse _ _ (of_string "u1") (of_string "u2") (of_string "bad")
    (of_string "http") (of_string "h:15672") (Some (of_string "u1", of_string "secret"))
    (Some (of_string "u2", of_string "secret")) _ _ _ _ _ _)); reflexivity.
Defined.

(** The list of nodes has no empty entry, and is empty only when nothing but
    spaces stands between the commas. *)
Lemma parseClusterNodes_spec raw :
  Forall (fun s => s ≠ []) (parseClusterNodes raw)
  ∧ (parseClusterNodes raw = [] <-> Forall (fun p => TrimSpace p = []) (split_on "," raw [])).
Proof.
  unfold parseClusterNodes. split.
  - apply Forall_forall. intros s (p & _ & Hp)%list_elem_of_omap. cbv zeta in Hp. case_decide; congruence.
  - rewrite omap_nil, Forall_forall. split; intros H p Hp; specialize (H p Hp); cbv zeta in *; case_decide; congruence.
Qed.

(** A connection is kept exactly when it is named and its name has the prefix. *)
Lemma connection_nodes_spec p conns x :
  x ∈ connection_nodes p conns <->
  ∃ c, c ∈ conns ∧ cConnectionName c ≠ [] ∧ HasPrefix p (cConnectionName c) = true
    ∧ x = mkConnNode (cConnectionName c) (cNode c) (cName c).
Proof.
  unfold connection_nodes. rewrite list_elem_of_omap. split; intros (c & Hc & H); exists c.
  - destruct (bool_decide _ || _) eqn:E; [done|]. apply orb_false_iff in E as [E1 E2].
    apply bool_decide_eq_false in E1. apply negb_false_iff in E2. naive_solver.
  - destruct H as (H1 & H2 & ->). rewrite bool_decide_eq_false_2, H2 by done. done.
Qed.

(** At most all nodes run, and all do exactly when every one says so. *)
Lemma count_running_spec nodes :
  0 <= count_running nodes <= Z.of_nat (length nodes)
  ∧ (count_running nodes = Z.of_nat (length nodes) <-> Forall (fun n => nRunning n = true) nodes).
Proof.
  induction nodes as [|n r [IH1 IH2]]; [done|]. cbn [count_running length]. rewrite Forall_cons, <- IH2.
  destruct (nRunning n); split; try lia; split; naive_solver lia.
Qed.

(** A plugin source is configured exactly when the chosen image has the plugin. *)
Lemma resolve_delayed version envImage envFile :
  delayedAvailable (resolve version envImage envFile) = delayedConfigured envImage envFile.
Proof. unfold resolve, delayedConfigured. repeat case_decide; repeat case_bool_decide; naive_solver. Qed.

(** The poll answers true only on an exact count, and at the first one. *)
Lemma TryWait_spec want polls b n :
  wait_exact want polls = Some (b, n) ->
  ∃ p, polls !! (n - 1)%nat = Some p ∧ (1 <= n)%nat
    ∧ (b = true <-> ∃ total, plAnswer p = Some (want, total)) ∧ (b = false -> plExpired p = true).
Proof.
  revert n. induction polls as [|p r IH]; intros n; [done|]. cbn [wait_exact].
  destruct (match plAnswer p with Some (running, _) => bool_decide (running = want) | None => false end) eqn:E.
  - intros [= <- <-]. exists p. split_and!; [done|lia| |done]. split; [|done]. intros _.
    destruct (plAnswer p) as [[run tot]|]; [|done]. apply bool_decide_eq_true in E as ->. eauto.
  - destruct (plExpired p) eqn:Ex.
    + intros [= <- <-]. exists p. split_and!; [done|lia| |done]. split; [done|]. intros [tot Ep]. rewrite Ep in E.
      by rewrite bool_decide_eq_true_2 in E.
    + destruct (wait_exact want r) as [[b' m]|]; [|done]. intros [= -> <-].
      destruct (IH m eq_refl) as (q & Hq & Hm & H). exists q. split_and!; [|lia|tauto|tauto].
      replace (S m - 1)%nat with (S (m - 1)) by lia. exact Hq.
Qed.

(** A cluster is taken to be ready at the first answer with enough running nodes, in
    a round entered before the deadline; the failure at the deadline reports the
    last answer before it. *)
Lemma wait_ready_spec want prev rounds res :
  wait_ready want prev rounds = Some res <->
  ∃ pre expired a post, rounds = pre ++ (expired, a) :: post
    ∧ Forall (fun r => r.1 = false ∧ enough want r.2 = false) pre
    ∧ if expired : bool then res = Err (NotReady (default prev (last pre.*2)))
      else enough want a = true ∧ res = Ok tt.
Proof.
  revert prev. induction rounds as [|[x b] r IH]; intros prev; cbn [wait_ready].
  - split; [done|]. intros (pre & ? & ? & ? & E & _). by destruct pre.
  - split.
    + destruct x; [|destruct (enough want b) eqn:Eb].
      * intros [= <-]. exists [], true, b, r. by repeat constructor.
      * intros [= <-]. exists [], false, b, r. by repeat constructor.
      * intros (pre & x & a & post & -> & Hp & Hr)%IH. exists ((false, b) :: pre), x, a, post.
        split_and!; [done|by constructor|]. destruct x; [|done]. rewrite fmap_cons, last_cons, Hr. by destruct (last _).
    + intros ([|[y c] pre] & x' & a & post & E & Hp & Hr); simplify_eq/=.
      * destruct x'; [by rewrite Hr|]. by destruct Hr as [-> ->].
      * apply Forall_cons in Hp as [[Hy Hc] Hp]. simplify_eq/=. rewrite Hc.
        apply IH. exists pre, x', a, post. split_and!; [done..|]. destruct x'; [|done].
        rewrite Hr, last_cons. by destruct (last pre.*2).
Qed.

Lemma HasPrefix_app p s : HasPrefix p s = true <-> ∃ q, s = p ++ q.
Proof.
  revert s. induction p as [|x p IH]; intros s; [split; [by exists s|done]|].
  destruct s as [|y s]; cbn [HasPrefix]; [split; [done|by intros []]|]. rewrite andb_true_iff, bool_decide_eq_true, IH.
  split; [intros [-> [q ->]]; by exists q|]. intros [q [= -> ->]]. eauto.
Qed.

(** [Contains] finds a text exactly where it stands. *)
Lemma Contains_spec s sub : Contains s sub = true <-> ∃ p q, s = p ++ sub ++ q.
Proof.
  induction s as [|c r IH]; cbn [Contains]; rewrite orb_true_iff, HasPrefix_app.
  - split; [intros [[q E]|?]; [|done]; by exists [], q|]. intros (p & q & E). left. exists q. by destruct p.
  - rewrite IH. split.
    + intros [[q E]|(p & q & ->)]; [by exists [], q|by exists (c :: p), q].
    + intros ([|x p] & q & E); [left; by exists q|]. injection E as -> ->. right. by exists p, q.
Qed.

(** Both docker commands name the container and the cluster's network, and the
    healing one restores the alias.  Cutting a node off fails on any error of
    docker; healing accepts one that says there is nothing to heal, as the cleanup
    of a test needs. *)
Lemma partition_heal docker service :
  (∀ out err, docker [of_string "network"; of_string "disconnect"; partitionNetwork; nodeContainer service] = (out, err) ->
     PartitionNode docker service = Ok tt <-> err = None)
  ∧ (∀ out err, docker [of_string "network"; of_string "connect"; of_string "--alias"; service; partitionNetwork;
                        nodeContainer service] = (out, err) ->
       HealPartition docker service = Ok tt <->
       err = None ∨ ∃ p q, TrimSpace out = p ++ of_string "already exists in network" ++ q
                         ∨ TrimSpace out = p ++ of_string "is not connected to network" ++ q).
Proof.
  unfold PartitionNode, HealPartition, dockerNetwork, dockerNetworkTolerant, runDockerNetwork, dockerNetworkArgs.
  split; intros out err E.
  - rewrite decide_False by done. rewrite E. by destruct err.
  - rewrite decide_True by done. rewrite E. destruct err as [e|]; [|naive_solver].
    destruct (isBenignNetworkErr _) eqn:B; unfold isBenignNetworkErr in B; cbn [negb].
    + split; [|done]. intros _. right. apply orb_true_iff in B as [(p & q & B)%Contains_spec|(p & q & B)%Contains_spec]; eauto.
    + apply orb_false_iff in B as [B1 B2]. split; [done|]. intros [?|(p & q & [B|B])]; [done| |].
      all: [> rewrite (proj2 (Contains_spec _ _)) in B1 by eauto | rewrite (proj2 (Contains_spec _ _)) in B2 by eauto ]; done.
Qed.

(** The proxy's URL has one slash where the base ends. *)
Lemma drop_slashes_spec l :
  ∃ n, rev l = rev (drop_slashes l) ++ repeat "/"%char n ∧ last (rev (drop_slashes l)) ≠ Some "/"%char.
Proof.
  induction l as [|c r [n [IH1 IH2]]]; [by exists 0%nat|]. cbn [drop_slashes]. case_decide as Hc.
  - subst c. exists (S n). split; [|done]. cbn [rev]. rewrite IH1, <- app_assoc. f_equal. cbn [repeat]. symmetry. apply repeat_cons.
  - exists 0%nat. rewrite app_nil_r. split; [done|]. cbn [rev]. rewrite last_snoc. congruence.
Qed.

Lemma TrimRightSlash_spec s :
  ∃ n, s = TrimRightSlash s ++ repeat "/"%char n ∧ last (TrimRightSlash s) ≠ Some "/"%char.
Proof. destruct (drop_slashes_spec (rev s)) as (n & E & H). rewrite rev_involutive in E. by exists n. Qed.
