(* ===== verification/Redact.v ===== *)
(** * Redact: credentials never reach a log line

    Models [src/internal/redact/redact.go].  Its regular expression is the scheme
    (amqp or amqps, then a colon and two slashes), a run of characters other
    than at sign, slash, question mark and hash, and an at sign.  It is matched
    the way [ReplaceAllString] does it: leftmost and non-overlapping; the
    optional [s] and the greedy run leave at most one match per start. *)

From S2P Require Import Prelude Errors.
From Stdlib Require Import Ascii.

Abbreviation text := (list ascii).

Definition of_string (s : string) : text := String.list_ascii_of_string s.

(** ** The pattern *)

Definition amqp_scheme : text := of_string "amqp://".
Definition amqps_scheme : text := of_string "amqps://".
Definition mask : text := of_string "***".
Definition at_sign : ascii := "@".

(** The characters of the run. *)
Definition user_char (c : ascii) : bool :=
  negb (bool_decide (c ∈ of_string "@/?#")).

Fixpoint strip (p l : text) : option text :=
  match p, l with
  | [], _ => Some l
  | x :: p, y :: l => if decide (x = y) then strip p l else None
  | _ :: _, [] => None
  end.

(** The text after [userinfo@], if the text starts with one. *)
Fixpoint skip_user (l : text) : option text :=
  match l with
  | [] => None
  | c :: r => if decide (c = at_sign) then Some r else if user_char c then skip_user r else None
  end.

(** A match at the start of the text: its first group, and what follows it. *)
Definition match_at (l : text) : option (text * text) :=
  match strip amqp_scheme l with
  | Some r => (fun post => (amqp_scheme, post)) <$> skip_user r
  | None =>
      match strip amqps_scheme l with
      | Some r => (fun post => (amqps_scheme, post)) <$> skip_user r
      | None => None
      end
  end.

(** [URI].  Each round consumes a character, so [length] rounds suffice. *)
Fixpoint uri (fuel : nat) (l : text) : text :=
  match fuel with
  | O => l
  | S fuel =>
      match l with
      | [] => []
      | c :: r =>
          match match_at l with
          | Some (scheme, post) => scheme ++ mask ++ at_sign :: uri fuel post
          | None => c :: uri fuel r
          end
      end
  end.

Definition URI (l : text) : text := uri (length l) l.

Definition URIs (ls : list text) : list text := URI <$> ls.

(** [Error] keeps the chain: only the message is replaced. *)
Definition redact_Error (err : goerror) : goerror := RedactedError <$> err.

(** ** What must not be in the output *)

(** The characters of a URI's authority: a slash, a question mark or a number
    sign ends it (RFC 3986, section 3.2). *)
Definition authority_char (c : ascii) : bool :=
  negb (bool_decide (c = "/"%char)) && negb (bool_decide (c = "?"%char)) && negb (bool_decide (c = "#"%char)).

(** Those [net/url] takes in a user information: letters, digits, and the marks;
    the at sign is one of them, since [url.Parse] cuts at the last one. *)
Definition userinfo_char (c : ascii) : bool :=
  let n := N_of_ascii c in
  bool_decide (48 <= n <= 57)%N || bool_decide (65 <= n <= 90)%N || bool_decide (97 <= n <= 122)%N
  || bool_decide (c ∈ of_string "-._:~!$&'()*+,;=%@").

Definition uri_scheme (l : text) : Prop := l = of_string "amqp://" ∨ l = of_string "amqps://".

(** Somewhere in the text stands an AMQP URI, with [user] before an at sign. *)
Definition shows (l user : text) : Prop :=
  ∃ pre scheme post, l = pre ++ scheme ++ user ++ at_sign :: post ∧ uri_scheme scheme.

(** The part of the authority before its first at sign is not three stars. *)
Definition leaks (l : text) : Prop :=
  ∃ user, shows l user ∧ Forall (fun c => authority_char c = true) user ∧ at_sign ∉ user
    ∧ user ≠ of_string "***".

(** A URI whose user information has an at sign that is not percent-encoded. *)
Definition raw_at (l : text) : Prop :=
  ∃ u v, shows l (u ++ at_sign :: v) ∧ Forall (fun c => authority_char c = true) u
    ∧ Forall (fun c => userinfo_char c = true) v.

(** ** Lemmas *)

Lemma user_char_spec c : user_char c = true <-> authority_char c = true ∧ c ≠ at_sign.
Proof.
  destruct c as [b0 b1 b2 b3 b4 b5 b6 b7].
  destruct b0, b1, b2, b3, b4, b5, b6, b7; vm_compute; intuition congruence.
Qed.

Lemma user_chars user :
  Forall (fun c => user_char c = true) user
  <-> Forall (fun c => authority_char c = true) user ∧ at_sign ∉ user.
Proof.
  rewrite !Forall_forall. split.
  - intros H. split; [intros c Hc; by apply user_char_spec, H|]. intros Ha. by apply H, user_char_spec in Ha as [_ ?].
  - intros [H Ha] c Hc. apply user_char_spec. split; [by apply H|]. by intros ->.
Qed.

Lemma userinfo_authority c : userinfo_char c = true -> authority_char c = true.
Proof.
  destruct c as [b0 b1 b2 b3 b4 b5 b6 b7].
  destruct b0, b1, b2, b3, b4, b5, b6, b7; vm_compute; congruence.
Qed.

Lemma strip_Some p l r : strip p l = Some r <-> l = p ++ r.
Proof.
  revert l. induction p as [|x p IH]; intros l; simpl; [naive_solver|].
  destruct l as [|y l]; [naive_solver|]. case_decide; [rewrite IH|]; naive_solver.
Qed.

Lemma skip_user_Some l r :
  skip_user l = Some r <-> ∃ user, l = user ++ at_sign :: r ∧ Forall (fun c => user_char c = true) user.
Proof.
  revert r. induction l as [|c l IH]; intros r; simpl.
  { split; [done|]. intros ([|x u] & E & _); done. }
  case_decide as Hc.
  - subst c. split.
    + intros [= ->]. by exists [].
    + intros ([|x u] & E & Hu); [by injection E as ->|]. injection E as <- _.
      apply Forall_cons in Hu as [Hu _]. by vm_compute in Hu.
  - destruct (user_char c) eqn:Hu.
    + rewrite IH. split.
      * intros (u & -> & HF). exists (c :: u). split; [done|]. by constructor.
      * intros ([|x u] & E & HF); [by injection E as -> _|]. injection E as -> ->.
        apply Forall_cons in HF as [_ HF]. eauto.
    + split; [done|]. intros ([|x u] & E & HF); [by injection E as -> _|]. injection E as -> _.
      apply Forall_cons in HF as [HF _]. congruence.
Qed.

Lemma match_at_Some l scheme post :
  match_at l = Some (scheme, post) ->
  (scheme = amqp_scheme ∨ scheme = amqps_scheme)
  ∧ ∃ user, l = scheme ++ user ++ at_sign :: post ∧ Forall (fun c => user_char c = true) user.
Proof.
  unfold match_at. intros H. destruct (strip amqp_scheme l) as [r|] eqn:E1.
  - apply strip_Some in E1 as ->. destruct (skip_user r) as [p|] eqn:E2; simplify_eq/=.
    apply skip_user_Some in E2 as (u & -> & Hu). eauto.
  - destruct (strip amqps_scheme l) as [r|] eqn:E2; [|done]. apply strip_Some in E2 as ->.
    destruct (skip_user r) as [p|] eqn:E3; simplify_eq/=.
    apply skip_user_Some in E3 as (u & -> & Hu). eauto.
Qed.

Lemma match_at_intro scheme user post :
  scheme = amqp_scheme ∨ scheme = amqps_scheme -> Forall (fun c => user_char c = true) user ->
  match_at (scheme ++ user ++ at_sign :: post) = Some (scheme, post).
Proof.
  intros Hs Hu. assert (skip_user (user ++ at_sign :: post) = Some post) as Hk
    by (apply skip_user_Some; eauto).
  unfold match_at. destruct Hs as [-> | ->].
  - assert (strip amqp_scheme (amqp_scheme ++ user ++ at_sign :: post) = Some (user ++ at_sign :: post)) as ->
      by by apply strip_Some.
    by rewrite Hk.
  - assert (strip amqp_scheme (amqps_scheme ++ user ++ at_sign :: post) = None) as -> by done.
    assert (strip amqps_scheme (amqps_scheme ++ user ++ at_sign :: post) = Some (user ++ at_sign :: post)) as ->
      by by apply strip_Some.
    by rewrite Hk.
Qed.

Lemma scheme_head scheme : scheme = amqp_scheme ∨ scheme = amqps_scheme -> ∃ t, scheme = "a"%char :: t.
Proof. intros [-> | ->]; eexists; reflexivity. Qed.

Lemma uri_fuel n m l : (length l <= n)%nat -> (length l <= m)%nat -> uri n l = uri m l.
Proof.
  revert m l. induction n as [|n IH]; intros [|m] [|c l] Hn Hm; simpl in *; try lia; try done.
  destruct (match_at (c :: l)) as [[scheme post]|] eqn:E.
  - assert (length post <= length l)%nat as Hp.
    { apply match_at_Some in E as (Hs & u & E & _). apply scheme_head in Hs as (t & ->).
      injection E as -> ->. rewrite !length_app. simpl. lia. }
    by rewrite (IH m post) by lia.
  - f_equal. apply IH; lia.
Qed.

(** The equations of [URI]. *)
Lemma URI_nil : URI [] = [].
Proof. done. Qed.

Lemma URI_match l scheme post :
  match_at l = Some (scheme, post) -> URI l = scheme ++ mask ++ at_sign :: URI post.
Proof.
  intros E. unfold URI at 1. destruct l as [|c l]; [done|]. cbn [uri length]. rewrite E.
  rewrite (uri_fuel (length l) (length post) post); [done| |done].
  apply match_at_Some in E as (Hs & u & E & _).
  apply scheme_head in Hs as (t & ->). injection E as -> ->. rewrite !length_app. simpl. lia.
Qed.

Lemma URI_skip c l : match_at (c :: l) = None -> URI (c :: l) = c :: URI l.
Proof. intros E. unfold URI at 1. cbn [uri length]. by rewrite E. Qed.

(** A character other than [a] in the output was copied from the input. *)
Lemma URI_copied l c r : URI l = c :: r -> c ≠ "a"%char -> ∃ l', l = c :: l' ∧ r = URI l'.
Proof.
  intros H Hc. destruct l as [|x l]; [done|]. destruct (match_at (x :: l)) as [[scheme post]|] eqn:E.
  - rewrite (URI_match _ _ _ E) in H. apply match_at_Some in E as [Hs _].
    apply scheme_head in Hs as (t & ->). injection H as <- _. done.
  - rewrite (URI_skip _ _ E) in H. injection H as <- <-. eauto.
Qed.

(** No slash comes before the at sign that ends a run of authority characters. *)
Lemma slash_before_at l x user post :
  at_sign ∉ l -> Forall (fun c => authority_char c = true) user ->
  l ++ "/"%char :: x = user ++ at_sign :: post -> False.
Proof.
  intros Hl Hu. revert l Hl. induction Hu as [|c user Hc Hu IH]; intros l Hl H.
  - destruct l as [|d l]; [done|]. injection H as -> _. set_solver.
  - destruct l as [|d l]; injection H as <- H; [by vm_compute in Hc|]. eapply IH; [|exact H]. set_solver.
Qed.

(** So was a run of authority characters that ends in an at sign. *)
Lemma URI_user_copied l user post :
  Forall (fun c => authority_char c = true) user -> URI l = user ++ at_sign :: post ->
  ∃ post', l = user ++ at_sign :: post'.
Proof.
  intros Hu. revert l. induction Hu as [|c user Hc Hu IH]; intros l H.
  - apply URI_copied in H as (l' & -> & _); [by eexists|done].
  - destruct l as [|x l]; [done|]. destruct (match_at (x :: l)) as [[scheme p]|] eqn:E.
    + rewrite (URI_match _ _ _ E) in H. apply match_at_Some in E as [Hs _]. exfalso.
      assert (Forall (fun c => authority_char c = true) (c :: user)) as HF by by constructor.
      destruct Hs as [-> | ->];
        [eapply (slash_before_at (of_string "amqp:"))|eapply (slash_before_at (of_string "amqps:"))];
        try exact HF; try exact H; vm_compute; set_solver.
    + rewrite (URI_skip _ _ E) in H. injection H as <- H. apply IH in H as (p' & ->). by exists p'.
Qed.

Lemma mask_user : Forall (fun c => user_char c = true) mask.
Proof. repeat constructor. Qed.

(** The user information before an at sign is determined by the text. *)
Lemma user_unique u1 u2 p1 p2 :
  Forall (fun c => user_char c = true) u1 -> Forall (fun c => user_char c = true) u2 ->
  u1 ++ at_sign :: p1 = u2 ++ at_sign :: p2 -> u1 = u2.
Proof.
  intros H1. revert u2. induction H1 as [|c u1 Hc H1 IH]; intros u2 H2 E.
  - destruct u2 as [|d u2]; [done|]. injection E as <- _. apply Forall_cons in H2 as [H2 _].
    by vm_compute in H2.
  - destruct H2 as [|d u2 Hd H2]; injection E as -> E; [by vm_compute in Hc|]. f_equal. by apply IH.
Qed.

(** A URI at the very start of the output was at the start of the input. *)
Lemma URI_scheme_copied c l scheme user post :
  match_at (c :: l) = None -> scheme = amqp_scheme ∨ scheme = amqps_scheme ->
  Forall (fun c => user_char c = true) user -> c :: URI l = scheme ++ user ++ at_sign :: post -> False.
Proof.
  intros Hm Hs Hu E.
  assert (∀ t, at_sign ∉ t -> "a"%char ∉ t -> ∀ l, URI l = t ++ user ++ at_sign :: post ->
    ∃ post', l = t ++ user ++ at_sign :: post') as Hcopy.
  { clear -Hu. intros t. induction t as [|x t IH]; intros Ht Ha l E.
    - simpl in E. apply URI_user_copied in E; [done|]. by apply user_chars.
    - simpl in E. apply URI_copied in E as (l' & -> & E); [|set_solver]. symmetry in E.
      apply IH in E as (p & ->); [by exists p|set_solver|set_solver]. }
  assert (match_at (c :: l) ≠ None); [|done].
  destruct Hs as [-> | ->]; injection E as -> E.
  - apply (Hcopy (of_string "mqp://")) in E as (p & ->); [|vm_compute; set_solver|vm_compute; set_solver].
    change ("a"%char :: of_string "mqp://" ++ user ++ at_sign :: p) with (amqp_scheme ++ user ++ at_sign :: p).
    by rewrite match_at_intro by auto.
  - apply (Hcopy (of_string "mqps://")) in E as (p & ->); [|vm_compute; set_solver|vm_compute; set_solver].
    change ("a"%char :: of_string "mqps://" ++ user ++ at_sign :: p) with (amqps_scheme ++ user ++ at_sign :: p).
    by rewrite match_at_intro by auto.
Qed.

(** A scheme starts with an [a]: no URI starts in a text without one. *)
Lemma shows_skip t rest user : "a"%char ∉ t -> shows (t ++ rest) user -> shows rest user.
Proof.
  intros Ha (pre & scheme & post & E & Hs). revert pre E.
  induction t as [|x t IH]; intros pre E; [by exists pre, scheme, post|].
  destruct pre as [|y pre]; simpl in E.
  - apply scheme_head in Hs as (s & ->). injection E as -> _. set_solver.
  - injection E as _ E. eapply IH; [set_solver|exact E].
Qed.

Lemma shows_app pre l user : shows l user -> shows (pre ++ l) user.
Proof.
  intros (p & scheme & post & -> & Hs). exists (pre ++ p), scheme, post. by rewrite <- app_assoc.
Qed.

(** A scheme does not start inside the text a replacement emits. *)
Lemma shows_after_mask scheme0 rest user :
  uri_scheme scheme0 -> shows (scheme0 ++ mask ++ at_sign :: rest) user ->
  shows rest user ∨ ∃ post, mask ++ at_sign :: rest = user ++ at_sign :: post.
Proof.
  intros Hs0 (pre & scheme & post & E & Hs). destruct pre as [|y pre].
  - right. exists post. destruct Hs0 as [-> | ->], Hs as [-> | ->]; simpl in E; (done || by injection E as E).
  - left. apply scheme_head in Hs0 as Hh. destruct Hh as (s & Es).
    assert ("a"%char ∉ s ++ mask ++ [at_sign]) as Ha.
    { destruct Hs0 as [-> | ->]; injection Es as <-; vm_compute; set_solver. }
    rewrite Es in E. injection E as _ E.
    apply (shows_skip (s ++ mask ++ [at_sign])); [exact Ha|]. rewrite <- !app_assoc. simpl. rewrite E.
    by exists pre, scheme, post.
Qed.

(** What an output shows up to a first at sign is the mask, and what follows it
    up to another was in the input, after some user information. *)
Lemma URI_shows l u rest :
  Forall (fun c => user_char c = true) u -> shows (URI l) (u ++ rest) ->
  (rest = [] ∨ ∃ v, rest = at_sign :: v ∧ Forall (fun c => authority_char c = true) v) ->
  u = mask ∧ (∀ v, rest = at_sign :: v ->
                ∃ u', Forall (fun c => user_char c = true) u' ∧ shows l (u' ++ at_sign :: v)).
Proof.
  intros Hu. remember (length l) as n eqn:Hn. revert l Hn. induction n as [n IH] using lt_wf_ind.
  intros l -> H Hr. assert (∃ more, ∀ post, (u ++ rest) ++ at_sign :: post = u ++ at_sign :: (more ++ post)) as [more Hmore].
  { destruct Hr as [->|(v & -> & _)]; [exists []; intros post; by rewrite app_nil_r|].
    exists (v ++ [at_sign]). intros post. by rewrite <- !app_assoc. }
  destruct l as [|c l].
  { exfalso. destruct H as (pre & scheme & post & E & [-> | ->]); by destruct pre. }
  destruct (match_at (c :: l)) as [[scheme post]|] eqn:E.
  - rewrite (URI_match _ _ _ E) in H. apply match_at_Some in E as (Hs & user & E & Hus).
    apply shows_after_mask in H as [H|[p Ep]]; [| |done].
    + destruct (IH (length post)) with (l := post) as [H1 H2]; [|done|exact H|exact Hr|].
      { apply scheme_head in Hs as (t & ->). injection E as -> ->. simpl. rewrite !length_app. simpl. lia. }
      split; [done|]. intros v Ev. destruct (H2 v Ev) as (u' & Hu' & Hl). exists u'. split; [done|].
      rewrite E. replace (scheme ++ user ++ at_sign :: post) with ((scheme ++ user ++ [at_sign]) ++ post)
        by by rewrite <- !app_assoc.
      by apply shows_app.
    + rewrite Hmore in Ep.
      assert (u = mask) as -> by (symmetry; by eapply user_unique; [apply mask_user|exact Hu|exact Ep]).
      split; [done|]. intros v Ev. exists user. split; [done|]. destruct Hr as [->|(v' & -> & Hv)]; [done|].
      injection Ev as ->. specialize (Hmore p). rewrite <- Ep in Hmore. rewrite <- app_assoc in Hmore.
      apply app_inv_head in Hmore. injection Hmore as Ev. symmetry in Ev. simpl in Ev.
      apply URI_user_copied in Ev as (post' & ->); [|done].
      exists [], scheme, post'. split; [|done]. rewrite E. simpl. by rewrite <- app_assoc.
  - rewrite (URI_skip _ _ E) in H. destruct H as ([|y pre] & scheme & post & El & Hs).
    + exfalso. rewrite Hmore in El. eapply URI_scheme_copied; [exact E|exact Hs|exact Hu|exact El].
    + injection El as <- El. destruct (IH (length l)) with (l := l) as [H1 H2]; [simpl; lia|done|by exists pre, scheme, post|exact Hr|].
      split; [done|]. intros v Ev. destruct (H2 v Ev) as (u' & Hu' & Hl). exists u'. split; [done|].
      by apply (shows_app [c]).
Qed.

Lemma URI_no_leak l : ¬ leaks (URI l).
Proof.
  intros (user & Hs & Ha & Hat & Hne). apply Hne. rewrite <- (app_nil_r user) in Hs.
  apply URI_shows in Hs as [H _]; [exact H|by apply user_chars|by left].
Qed.

(** The first at sign of a text that has one. *)
Lemma first_at (l : text) : at_sign ∈ l -> ∃ u v, l = u ++ at_sign :: v ∧ at_sign ∉ u.
Proof.
  induction l as [|c l IH]; [by intros ?%not_elem_of_nil|]. intros H.
  destruct (decide (c = at_sign)) as [->|Hc]; [exists [], l; split; [done|apply not_elem_of_nil]|].
  apply elem_of_cons in H as [?|H]; [congruence|]. destruct (IH H) as (u & v & -> & Hu).
  exists (c :: u), v. split; [done|]. set_solver.
Qed.

(** Unless the input has a raw at sign in a user information, the output shows
    no user information at all. *)
Lemma URI_no_userinfo l user :
  ¬ raw_at l -> shows (URI l) user -> Forall (fun c => userinfo_char c = true) user -> user = mask.
Proof.
  intros Hraw Hs Hu.
  assert (Forall (fun c => authority_char c = true) user) as Ha
    by (eapply Forall_impl; [exact Hu|apply userinfo_authority]).
  destruct (decide (at_sign ∈ user)) as [Hin|Hin].
  - destruct (first_at user Hin) as (u & v & -> & Hau). exfalso. apply Hraw.
    apply Forall_app in Ha as [Ha1 [_ Ha2]%Forall_cons]. apply Forall_app in Hu as [_ [_ Hu2]%Forall_cons].
    apply URI_shows in Hs as [_ H]; [|by apply user_chars|right; eauto].
    destruct (H v eq_refl) as (u' & Hu' & Hl). exists u', v. split; [done|]. split; [|done]. by apply user_chars.
  - rewrite <- (app_nil_r user) in Hs. apply URI_shows in Hs as [H _]; [exact H|by apply user_chars|by left].
Qed.

Lemma one_at l : (length (List.filter (fun c => bool_decide (c = at_sign)) l) <= 1)%nat -> ¬ raw_at l.
Proof.
  intros Hl (u & v & (pre & scheme & post & -> & _) & _).
  rewrite !List.filter_app, !length_app in Hl. simpl in Hl.
  lia.
Qed.

(** A password with a raw at sign, which [url.Parse] accepts, is masked up to
    that sign only. *)
Lemma raw_at_shown : URI (of_string "amqp://u:p@ss@h") = of_string "amqp://***@ss@h".
Proof. vm_compute. reflexivity. Qed.

(** ** Properties *)

(** No credential survives redaction: in the output of [URI], every AMQP URI
    with user information has the mask for it, wherever it stands in the text
    and however many there are; and redacting a nil-free error keeps its chain,
    so [errors.Is] sees what it saw. *)
Lemma redact_no_credentials l err s :
  ¬ leaks (URI l) ∧ errors_is (redact_Error err) s = errors_is err s.
Proof. split; [apply URI_no_leak|destruct err; [apply err_is_redacted|done]]. Qed.

(** Both URIs of a message are masked, the rest is kept. *)
Lemma redact_example :
  URI (of_string "dial amqp://u:p%40@h1/v, amqps://x@h2: refused")
  = of_string "dial amqp://***@h1/v, amqps://***@h2: refused".
Proof. vm_compute. reflexivity. Qed.
