(* ===== verification/Log.v ===== *)
(** * Log: the logger adapters

    Models [src/log]: the interface [Logger] and its adapters over the standard
    library's [log] and [log/slog] and over nothing.  A call is modelled by the
    lines it hands to the underlying logger; [fmt.Sprintf] is any function from
    a format and its arguments to a text. *)

From S2P Require Import Prelude Errors Redact.
From Stdlib Require Import Ascii.

Inductive level : Type := LevelDebug | LevelInfo | LevelWarn | LevelError.

(** What reaches the underlying logger: slog takes the level apart from the
    text, log has none. *)
Record line : Type := mkLine { lLevel : option level; lText : text }.

(** The interface; [A] is the type of the arguments of a format. *)
Class Logger (A L : Type) : Type := {
  Debug : L -> text -> list line;
  Info : L -> text -> list line;
  Warning : L -> text -> list line;
  Error : L -> text -> list line;
  Debugf : L -> text -> list A -> list line;
  Infof : L -> text -> list A -> list line;
  Warningf : L -> text -> list A -> list line;
  Errorf : L -> text -> list A -> list line
}.

(** A call of the library on its logger. *)
Inductive log_call (A : Type) : Type :=
| Plain (lv : level) (msg : text)
| Formatted (lv : level) (format : text) (args : list A).
Arguments Plain {A}.
Arguments Formatted {A}.

Definition callLevel {A} (c : log_call A) : level :=
  match c with Plain lv _ | Formatted lv _ _ => lv end.

Definition emit {A L} {lg : Logger A L} (l : L) (c : log_call A) : list line :=
  match c with
  | Plain LevelDebug msg => Debug l msg
  | Plain LevelInfo msg => Info l msg
  | Plain LevelWarn msg => Warning l msg
  | Plain LevelError msg => Error l msg
  | Formatted LevelDebug f args => Debugf l f args
  | Formatted LevelInfo f args => Infof l f args
  | Formatted LevelWarn f args => Warningf l f args
  | Formatted LevelError f args => Errorf l f args
  end.

(** ** The adapters *)

Inductive noopLogger : Type := NewNoOp.
Inductive slogLogger : Type := NewSlog.
Inductive stdLogger : Type := NewStd.

(** [s.l.Log(ctx, level, msg)] and [s.l.Print(msg)]. *)
Definition slog_Log (lv : level) (msg : text) : list line := [mkLine (Some lv) msg].
Definition std_Print (msg : text) : list line := [mkLine None msg].

Section adapters.
  Context {A : Type} (Sprintf : text -> list A -> text).

Definition noop_logger : Logger A noopLogger := {|
  Debug _ _ := []; Info _ _ := []; Warning _ _ := []; Error _ _ := [];
  Debugf _ _ _ := []; Infof _ _ _ := []; Warningf _ _ _ := []; Errorf _ _ _ := []
|}.

Definition slog_logger : Logger A slogLogger := {|
  Debug _ msg := slog_Log LevelDebug (URI msg);
  Info _ msg := slog_Log LevelInfo (URI msg);
  Warning _ msg := slog_Log LevelWarn (URI msg);
  Error _ msg := slog_Log LevelError (URI msg);
  Debugf _ format args := slog_Log LevelDebug (URI (Sprintf format args));
  Infof _ format args := slog_Log LevelInfo (URI (Sprintf format args));
  Warningf _ format args := slog_Log LevelWarn (URI (Sprintf format args));
  Errorf _ format args := slog_Log LevelError (URI (Sprintf format args))
|}.

Definition std_logger : Logger A stdLogger := {|
  Debug _ msg := std_Print (of_string "DEBUG " ++ URI msg);
  Info _ msg := std_Print (of_string "INFO " ++ URI msg);
  Warning _ msg := std_Print (of_string "WARN " ++ URI msg);
  Error _ msg := std_Print (of_string "ERROR " ++ URI msg);
  Debugf _ format args := std_Print (of_string "DEBUG " ++ URI (Sprintf format args));
  Infof _ format args := std_Print (of_string "INFO " ++ URI (Sprintf format args));
  Warningf _ format args := std_Print (of_string "WARN " ++ URI (Sprintf format args));
  Errorf _ format args := std_Print (of_string "ERROR " ++ URI (Sprintf format args))
|}.
End adapters.

(** ** What a logger promises the library *)

Definition levelPrefix (lv : level) : text :=
  match lv with
  | LevelDebug => of_string "DEBUG "
  | LevelInfo => of_string "INFO "
  | LevelWarn => of_string "WARN "
  | LevelError => of_string "ERROR "
  end.

(** The text of a call before redaction. *)
Definition callText {A} (Sprintf : text -> list A -> text) (c : log_call A) : text :=
  match c with Plain _ msg => msg | Formatted _ f args => Sprintf f args end.

Lemma slog_emit {A} (Sprintf : text -> list A -> text) l c :
  emit (lg := slog_logger Sprintf) l c = [mkLine (Some (callLevel c)) (URI (callText Sprintf c))].
Proof. by destruct c as [[] ?|[] ? ?]. Qed.

Lemma std_emit {A} (Sprintf : text -> list A -> text) l c :
  emit (lg := std_logger Sprintf) l c
  = [mkLine None (levelPrefix (callLevel c) ++ URI (callText Sprintf c))].
Proof. by destruct c as [[] ?|[] ? ?]. Qed.

(** A line for the text [t]: what it shows of a user information is the mask, up
    to the first at sign, and altogether if [t] has no raw at sign in one. *)
Definition safe_line (t : text) (ln : line) : Prop :=
  ¬ leaks (lText ln)
  ∧ (¬ raw_at t -> ∀ user, shows (lText ln) user -> Forall (fun c => userinfo_char c = true) user ->
       user = of_string "***").

(** No line of a call shows the user information of an AMQP URI. *)
Class Redacting {A L} (Sprintf : text -> list A -> text) (lg : Logger A L) : Prop :=
  emit_safe : ∀ (l : L) (c : log_call A), Forall (safe_line (callText Sprintf c)) (emit l c).

Lemma prefixed_safe t p lv : "a"%char ∉ p -> safe_line t (mkLine lv (p ++ URI t)).
Proof.
  intros Hp. split; simpl.
  - intros (user & Hs & H). apply (URI_no_leak t). exists user. split; [|done]. by eapply shows_skip.
  - intros Hr user Hs Hu. apply (URI_no_userinfo t); [done| |done]. by eapply shows_skip.
Qed.

#[global] Instance noop_redacting {A} (Sprintf : text -> list A -> text) : Redacting Sprintf noop_logger.
Proof. intros l [[] ?|[] ? ?]; constructor. Qed.

#[global] Instance slog_redacting {A} (Sprintf : text -> list A -> text) : Redacting Sprintf (slog_logger Sprintf).
Proof. intros l c. rewrite slog_emit. repeat constructor; apply (prefixed_safe _ []); apply not_elem_of_nil. Qed.

#[global] Instance std_redacting {A} (Sprintf : text -> list A -> text) : Redacting Sprintf (std_logger Sprintf).
Proof.
  intros l c. rewrite std_emit. constructor; [|constructor]. apply prefixed_safe.
  destruct (callLevel c); vm_compute; set_solver.
Qed.

(** ** Properties *)

Lemma redacting_lines {A L} (Sprintf : text -> list A -> text) (lg : Logger A L) `{!Redacting Sprintf lg}
    (l : L) (cs : list (log_call A)) ln :
  ln ∈ cs ≫= emit l -> ∃ c, c ∈ cs ∧ safe_line (callText Sprintf c) ln.
Proof.
  intros (c & Hl & Hc)%list_elem_of_bind. exists c. split; [done|].
  pose proof (emit_safe l c) as H. rewrite Forall_forall in H. by apply H.
Qed.

(** C35. Whatever the library logs, through any of the adapters, with whatever
    arguments and however they are formatted, no line shows the credentials of
    an AMQP URI: what stands between the scheme and the first at sign of its
    authority is three stars; and unless the logged text has a user information
    with an at sign that is not percent-encoded, nothing in a line can be read
    as a user information but three stars.  The standard adapters emit one line
    per call, under the level of the call. *)
Theorem logs_show_no_credentials {A} (Sprintf : text -> list A -> text) (cs : list (log_call A)) ln :
  ln ∈ (cs ≫= emit (lg := std_logger Sprintf) NewStd) ++ (cs ≫= emit (lg := slog_logger Sprintf) NewSlog)
       ++ (cs ≫= emit (lg := noop_logger) NewNoOp) ->
  ¬ leaks (lText ln)
  ∧ (Forall (fun c => ¬ raw_at (callText Sprintf c)) cs ->
     ∀ user, shows (lText ln) user -> Forall (fun c => userinfo_char c = true) user -> user = of_string "***")
  ∧ (cs ≫= emit (lg := slog_logger Sprintf) NewSlog)
    = (fun c => mkLine (Some (callLevel c)) (URI (callText Sprintf c))) <$> cs
  ∧ (cs ≫= emit (lg := std_logger Sprintf) NewStd)
    = (fun c => mkLine None (levelPrefix (callLevel c) ++ URI (callText Sprintf c))) <$> cs.
Proof.
  intros Hin. assert (∃ c, c ∈ cs ∧ safe_line (callText Sprintf c) ln) as (c & Hc & [H1 H2]).
  { rewrite !elem_of_app in Hin. destruct Hin as [H|[H|H]]; by eapply redacting_lines in H; [|apply _]. }
  split; [done|]. split; [intros Hr; rewrite Forall_forall in Hr; by apply H2, Hr|].
  clear. split; induction cs as [|c cs IH]; try done;
    [by rewrite bind_cons, fmap_cons, slog_emit, IH|by rewrite bind_cons, fmap_cons, std_emit, IH].
Qed.

Example std_warning :
  emit (A := text) (lg := std_logger (fun f args => f ++ concat args)) NewStd
    (Formatted LevelWarn (of_string "dial ") [of_string "amqp://u:p@h"])
  = [mkLine None (of_string "WARN dial amqp://***@h")].
Proof. vm_compute. reflexivity. Qed.

(** A formatter that appends its arguments. *)
Definition append_args (f : text) (args : list text) : text := f ++ concat args.

Definition sample_calls : list (log_call text) :=
  [Formatted LevelWarn (of_string "dial ") [of_string "amqp://u:p%40@h:5672/v"]; Plain LevelInfo (of_string "up")].

Definition sample_line : line := mkLine None (of_string "WARN dial amqp://***@h:5672/v").

Lemma logs_show_no_credentials_witness :
  sample_line ∈ (sample_calls ≫= emit (lg := std_logger append_args) NewStd)
                ++ (sample_calls ≫= emit (lg := slog_logger append_args) NewSlog)
                ++ (sample_calls ≫= emit (lg := noop_logger) NewNoOp)
  ∧ ¬ leaks (lText sample_line)
  ∧ ∀ user, shows (lText sample_line) user -> Forall (fun c => userinfo_char c = true) user -> user = of_string "***".
Proof.
  assert (sample_line ∈ (sample_calls ≫= emit (lg := std_logger append_args) NewStd)
                ++ (sample_calls ≫= emit (lg := slog_logger append_args) NewSlog)
                ++ (sample_calls ≫= emit (lg := noop_logger) NewNoOp)) as H by (vm_compute; left).
  destruct (logs_show_no_credentials append_args sample_calls sample_line H) as (H1 & H2 & _).
  split; [exact H|]. split; [exact H1|]. apply H2. repeat constructor; apply one_at; vm_compute; lia.
Defined.

(** The leak is a leak: an address that was not redacted shows its password. *)
Lemma unredacted_leaks : leaks (of_string "dial amqp://u:p@h:5672/v").
Proof.
  exists (of_string "u:p"). split; [|split; [repeat constructor|split; [vm_compute; set_solver|done]]].
  exists (of_string "dial "), (of_string "amqp://"), (of_string "h:5672/v"). split; [reflexivity|by left].
Qed.
