(* ===== verification/Reconnect.v ===== *)
(** * Reconnect: connection options, addresses, the retry loop and the boot policy

    Models [src/internal/reconnect/loop.go] (the retry loop, and the loop object
    with its callbacks and [Stop]) and, of [src/connection.go],
    the choice of the address to dial, [connectOnce]/[reconnectRaw],
    [openPool], [Dial], [validateConnOptions] and the health check, and
    [ConnName] of [src/internal/connpool/pool.go].  Dialling is the
    environment; the pseudo-random shuffle of the addresses and the URI parser
    are parameters. *)

From S2P Require Import Prelude Errors Values Redact.

(** ** The loop of internal/reconnect *)

(** One attempt: what [connect] returns, whether the context is done right after
    it, and whether it ends during the back-off. *)
Record attempt : Type := mkAttempt {
  aErr : goerror;
  aCtxDone : bool;
  aBackoffCancelled : bool
}.

(** How [run] exits. *)
Inductive loop_end : Type := LoopConnected | LoopExhausted | LoopCancelled.

#[global] Instance loop_end_eq_dec : EqDecision loop_end.
Proof. solve_decision. Defined.

(** The end and the number of calls of [connect]; [None] when the attempts given
    run out first. *)
Fixpoint run_from (maxRetries k : Z) (attempts : list attempt) : option (loop_end * nat) :=
  match attempts with
  | [] => None
  | a :: rest =>
      if aCtxDone a then Some (LoopCancelled, 1%nat)
      else
        match aErr a with
        | None => Some (LoopConnected, 1%nat)
        | Some _ =>
            let k := k + 1 in
            if decide (0 < maxRetries ∧ maxRetries <= k) then Some (LoopExhausted, 1%nat)
            else if aBackoffCancelled a then Some (LoopCancelled, 1%nat)
            else match run_from maxRetries k rest with
                 | Some (e, n) => Some (e, S n)
                 | None => None
                 end
        end
  end.

Definition run (maxRetries : Z) (attempts : list attempt) : option (loop_end * nat) :=
  run_from maxRetries 0 attempts.

(** [reconnectRaw]: [connected] is set by the closure, whatever the loop does
    with the result, and [lastErr] by every failed dial. *)
Definition reconnectRaw (maxRetries : Z) (attempts : list attempt) : option (bool * goerror * nat) :=
  match run maxRetries attempts with
  | None => None
  | Some (_, n) =>
      let made := take n attempts in
      Some (bool_decide (Exists (fun a => aErr a = None) made),
            last (omap aErr made), n)
  end.

(** [connectOnce]; [ctxErr] is the context's error when the loop has ended. *)
Definition connectOnce (maxRetries : Z) (ctxErr : goerror) (attempts : list attempt) : option goerror :=
  match reconnectRaw maxRetries attempts with
  | None => None
  | Some (connected, lastErr, _) =>
      Some (if connected then None
            else match ctxErr with Some e => Some e | None => redact_Error lastErr end)
  end.

(** ** Addresses *)

Definition dialAddrs (addr : string) (addrs : list string) : list string :=
  match addrs with
  | [] => [addr]
  | _ => addrs
  end.

Section addresses.
  (** The shuffle of [math/rand/v2] with the socket's seed. *)
  Variable shuffle : list string -> list string.

Definition shuffledAddrs (addrs : list string) : list string :=
  if decide (length addrs < 2)%nat then addrs else shuffle addrs.

(** [nextDialAddr]: the address and the next cursor; [None] is the
    out-of-range panic. *)
Definition nextDialAddr (addr : string) (addrs : list string) (cursor : nat) : option (string * nat) :=
  let order := shuffledAddrs (dialAddrs addr addrs) in
  match order !! cursor with
  | Some a => Some (a, ((cursor + 1) mod length order)%nat)
  | None => None
  end.

(** [n] dials in a row. *)
Fixpoint dials (addr : string) (addrs : list string) (n : nat) (cursor : nat) : option (list string * nat) :=
  match n with
  | O => Some ([], cursor)
  | S n =>
      match nextDialAddr addr addrs cursor with
      | Some (a, cursor') =>
          match dials addr addrs n cursor' with
          | Some (l, c) => Some (a :: l, c)
          | None => None
          end
      | None => None
      end
  end.

(** Every window of as many dials as there are addresses tries each of them
    once, from any cursor position. *)
Lemma dials_rotate addr addrs n c :
  let order := shuffledAddrs (dialAddrs addr addrs) in
  (c < length order)%nat -> (n <= length order)%nat ->
  dials addr addrs n c
  = Some (take n (drop c order ++ take c order), ((c + n) mod length order)%nat).
Proof.
  intros order. revert c. induction n as [|n IH]; intros c Hc Hn.
  { simpl. by rewrite Nat.add_0_r, Nat.mod_small. }
  cbn [dials]. unfold nextDialAddr. fold order.
  destruct (lookup_lt_is_Some_2 order c Hc) as [a Ha]. rewrite Ha.
  assert (drop c order = a :: drop (S c) order) as Hd by by apply drop_S.
  destruct (decide (S c = length order)) as [Hw|Hw].
  - replace (c + 1)%nat with (length order) by lia. rewrite Nat.Div0.mod_same.
    rewrite (IH 0%nat) by lia. rewrite Hd, (drop_ge order (S c)) by lia. simpl.
    rewrite take_0, app_nil_r. f_equal. f_equal.
    + f_equal. rewrite take_take. f_equal. lia.
    + replace (c + S n)%nat with (n + 1 * length order)%nat by lia. by rewrite Nat.Div0.mod_add.
  - rewrite Nat.mod_small by lia. rewrite (IH (c + 1)%nat) by lia. rewrite Hd. simpl.
    f_equal. f_equal; [|f_equal; lia]. f_equal. replace (c + 1)%nat with (S c) by lia.
    rewrite (take_S_r order c a Ha), app_assoc.
    rewrite (take_app_le (drop (S c) order ++ take c order)); [done|].
    rewrite length_app, length_drop, length_take. lia.
Qed.
End addresses.

(** ** Options *)

(** The fields [validateConnOptions] and [Dial] read. *)
Record connOptions : Type := mkOptions {
  oAddr : string;
  oAddrs : list string;
  oExternal : bool;            (* saslMechanism == SASLExternal *)
  oTLS : bool;                 (* tlsConfig != nil *)
  oHasCert : bool;             (* a client certificate, or a callback for one *)
  oChannelMax : Z;
  oFrameMax : Z;
  oChannelPoolSize : Z;
  oPubConns : Z;
  oConConns : Z;
  oRetries : Z                 (* reconnectBackoff.Retries *)
}.

Definition frameMaxHardCeiling : Z := 104857600.
Definition channelPoolSizeMax : Z := 4096.
Definition invalidOptions : error := Wrap [Sentinel ErrInvalidOptions].

Section options.
  (** The scheme [url.Parse] finds: [None] for an unparsable address. *)
  Variable parse_scheme : string -> option string.

Fixpoint schemes_agree (scheme : string) (addrs : list string) : bool :=
  match addrs with
  | [] => true
  | a :: r =>
      match parse_scheme a with
      | None => schemes_agree scheme r
      | Some s =>
          if decide (s = ""%string) then schemes_agree scheme r
          else if decide (scheme = ""%string) then schemes_agree s r
          else if decide (s = scheme) then schemes_agree scheme r else false
      end
  end.

Definition validateAddrsScheme (addrs : list string) : bool := schemes_agree "" addrs.

(** The guards in order; the warnings are not modelled. *)
Definition validateConnOptions (o : connOptions) : goerror :=
  if decide (0 < oFrameMax o < 4096) then Some invalidOptions
  else if decide (frameMaxHardCeiling < oFrameMax o) then Some invalidOptions
  else if decide (oPubConns o <= 0) then Some invalidOptions
  else if decide (oConConns o <= 0) then Some invalidOptions
  else if decide (oChannelPoolSize o <= 0) then Some invalidOptions
  else if decide (channelPoolSizeMax < oChannelPoolSize o) then Some invalidOptions
  else if decide (0 < oChannelMax o ∧ oChannelMax o < oChannelPoolSize o) then Some invalidOptions
  else if negb (validateAddrsScheme (oAddrs o)) then Some invalidOptions
  else if oExternal o then
    if negb (oTLS o) then Some invalidOptions
    else if negb (oHasCert o) then Some invalidOptions
    else if forallb (fun a => bool_decide (String.prefix "amqps://" a = true)) (dialAddrs (oAddr o) (oAddrs o))
    then None else Some invalidOptions
  else None.

(** ** openPool *)

(** [ConnName]. *)
Definition ConnName (baseName role : string) (idx : nat) : string :=
  (baseName +:+ "-" +:+ (if decide (role = "consumer"%string) then "con" else "pub") +:+ "-"
     +:+ pretty (Z.of_nat idx))%string.

(** A socket as [openPool] leaves it. *)
Record socket : Type := mkSocket {
  sName : string;
  sLive : bool;               (* raw != nil *)
  sBootDegraded : bool;
  sReconnecting : bool
}.

(** The body of its loop: [err] is the result of [connectOnce]. *)
Definition open_socket (baseName role : string) (i : nat) (err : goerror) : socket :=
  match err with
  | Some _ => mkSocket (ConnName baseName role i) false true true
  | None => mkSocket (ConnName baseName role i) true false false
  end.

Definition noConnection (lastErr : goerror) : error :=
  Wrap (match lastErr with Some e => [e] | None => [] end).

(** [ctxErr] is the context's error after the loop.  The second component tells
    whether the reduced capacity was reported. *)
Definition openPool (baseName role : string) (outcomes : list goerror) (ctxErr : goerror)
  : result error (list socket * bool) :=
  let pool := imap (open_socket baseName role) outcomes in
  let connected := length (filter (fun s => sLive s = true) pool) in
  match ctxErr with
  | Some e => Err e
  | None =>
      if decide (connected = 0)%nat then Err (noConnection (last (omap (fun e => e) outcomes)))
      else Ok (pool, bool_decide (connected < length outcomes)%nat)
  end.

(** ** Dial *)

(** [negMax] is the channel-max negotiated by the first publisher socket. *)
Definition Dial (baseName : string) (o : connOptions) (delayErr : goerror)
    (pubOutcomes conOutcomes : list goerror) (pubCtx conCtx : goerror) (negMax : Z)
  : result error (list socket * list socket) :=
  match validateConnOptions o with
  | Some e => Err e
  | None =>
      match delayErr with
      | Some e => Err e
      | None =>
          match openPool baseName "publisher" pubOutcomes pubCtx with
          | Err e => Err e
          | Ok (pub, _) =>
              let neg := match head pub with Some s => if sLive s then negMax else 0 | None => 0 end in
              if decide (0 < neg ∧ neg < oChannelPoolSize o) then Err invalidOptions
              else
                match openPool baseName "consumer" conOutcomes conCtx with
                | Err e => Err e
                | Ok (con, _) => Ok (pub, con)
                end
          end
      end
  end.
End options.

(** ** Health *)

Definition health (ctxErr : goerror) (reconnecting : bool) (degradedErr : goerror) (live : bool)
    (openErr closeErr : goerror) : goerror :=
  match ctxErr with
  | Some e => Some e
  | None =>
      if reconnecting then Some (Sentinel ErrReconnecting)
      else match degradedErr with
           | Some e => Some e
           | None =>
               if negb live then Some (Sentinel ErrNotConnected)
               else match wrapAMQPError openErr with
                    | Some e => Some (Wrap [e])
                    | None => (fun e => Wrap [e]) <$> wrapAMQPError closeErr
                    end
           end
  end.

(** [Connection.Health]. *)
Definition Health (closed : bool) (pub : list socket) (probe : goerror) : goerror :=
  if closed then Some (Sentinel ErrAlreadyClosed)
  else match pub with
       | [] => Some (Sentinel ErrNotConnected)
       | _ => probe
       end.

(** ** Lemmas *)

(** A call of [connect] that failed, with the context alive until the end of
    the back-off after it. *)
Definition failed (a : attempt) : Prop := is_Some (aErr a) ∧ aCtxDone a = false ∧ aBackoffCancelled a = false.

(** Why the loop ends at a call, when [n] calls were made in all. *)
Definition ends_at (maxRetries n : Z) (a : attempt) (e : loop_end) : Prop :=
  match e with
  | LoopConnected => aErr a = None ∧ aCtxDone a = false
  | LoopExhausted => is_Some (aErr a) ∧ aCtxDone a = false ∧ 0 < maxRetries ∧ n = maxRetries
  | LoopCancelled =>
      aCtxDone a = true
      ∨ is_Some (aErr a) ∧ aBackoffCancelled a = true ∧ (0 < maxRetries -> n < maxRetries)
  end.

(** The loop from its [k]-th failure on. *)
Definition loop_said (maxRetries k : Z) (attempts : list attempt) (r : option (loop_end * nat)) : Prop :=
  match r with
  | None => Forall failed attempts ∧ (0 < maxRetries -> k + Z.of_nat (length attempts) < maxRetries)
  | Some (e, n) =>
      ∃ before a after, attempts = before ++ a :: after ∧ n = S (length before) ∧ Forall failed before
        ∧ (0 < maxRetries -> k + Z.of_nat n <= maxRetries) ∧ ends_at maxRetries (k + Z.of_nat n) a e
  end.

Lemma loop_said_stop maxRetries k a rest e :
  (0 < maxRetries -> k < maxRetries) -> ends_at maxRetries (k + 1) a e ->
  loop_said maxRetries k (a :: rest) (Some (e, 1%nat)).
Proof. intros Hk He. exists [], a, rest. split_and!; try done. intros. simpl. specialize (Hk ltac:(done)). lia. Qed.

Lemma loop_said_next maxRetries k a rest r :
  failed a -> loop_said maxRetries (k + 1) rest r ->
  loop_said maxRetries k (a :: rest) ((fun '(e, n) => (e, S n)) <$> r).
Proof.
  intros Ha. destruct r as [[e n]|]; simpl.
  - intros (before & x & after & -> & -> & Hf & Hb & He). exists (a :: before), x, after.
    replace (k + 1 + Z.of_nat (S (length before))) with (k + Z.of_nat (S (S (length before)))) in * by lia.
    split_and!; try done. by constructor.
  - intros [Hf Hb]. split; [by constructor|]. intros. specialize (Hb ltac:(done)). lia.
Qed.

Lemma run_from_said maxRetries k attempts :
  (0 < maxRetries -> k < maxRetries) -> loop_said maxRetries k attempts (run_from maxRetries k attempts).
Proof.
  revert k. induction attempts as [|a rest IH]; intros k Hk; cbn [run_from].
  { split; [constructor|]. simpl. rewrite Z.add_0_r. exact Hk. }
  destruct (aCtxDone a) eqn:Hc; [apply loop_said_stop; [done|by left]|].
  destruct (aErr a) as [err|] eqn:Ha; [|by apply loop_said_stop].
  assert (is_Some (aErr a)) as Hs by by rewrite Ha.
  case_decide as Hd; [apply loop_said_stop; [done|]; specialize (Hk (proj1 Hd)); repeat split; try done; lia|].
  destruct (aBackoffCancelled a) eqn:Hb.
  { apply loop_said_stop; [done|]. right. split_and!; [done..|]. lia. }
  pose proof (loop_said_next maxRetries k a rest _ ltac:(done) (IH (k + 1) ltac:(lia))) as H.
  by destruct (run_from maxRetries (k + 1) rest) as [[e n]|].
Qed.

Lemma ConnName_inj base role i j : ConnName base role i = ConnName base role j -> i = j.
Proof.
  unfold ConnName. intros H. apply (inj (String.append base)) in H.
  apply (inj (String.append "-")) in H.
  apply (inj (String.append (if decide (role = "consumer"%string) then "con" else "pub"))) in H.
  apply (inj (String.append "-")) in H. apply (inj pretty) in H. lia.
Qed.

(** What a pool that boots looks like. *)
Record pool_ok (outcomes : list goerror) (pool : list socket) : Prop := {
  po_length : length pool = length outcomes;
  po_live : Exists (fun s => sLive s = true) pool;
  po_supervised : Forall (fun s => sLive s = false -> sBootDegraded s = true ∧ sReconnecting s = true) pool;
  po_names : NoDup (sName <$> pool)
}.

Lemma openPool_Ok base role outcomes ctxErr pool b :
  openPool base role outcomes ctxErr = Ok (pool, b) -> ctxErr = None ∧ pool_ok outcomes pool.
Proof.
  unfold openPool. intros H. destruct ctxErr; [done|]. case_decide as Hc; [done|]. injection H as <- _.
  split; [done|]. constructor.
  - by rewrite length_imap.
  - set (p := imap _ _) in *. destruct (filter (fun s => sLive s = true) p) as [|s l] eqn:Hf; [done|].
    assert (s ∈ filter (fun s => sLive s = true) p) as Hin by (rewrite Hf; set_solver).
    apply list_elem_of_filter in Hin as [Hs Hin]. apply Exists_exists. eauto.
  - apply Forall_lookup_2. intros i s Hs. rewrite list_lookup_imap in Hs.
    destruct (outcomes !! i) as [[e|]|]; simplify_eq/=; done.
  - apply NoDup_alt. intros i j x Hi Hj. rewrite !list_lookup_fmap, !list_lookup_imap in *.
    assert (∀ i o, sName (open_socket base role i o) = ConnName base role i) as Hn by (by intros ? []).
    destruct (outcomes !! i) as [o1|]; [|done]. destruct (outcomes !! j) as [o2|]; [|done].
    simpl in Hi, Hj. rewrite Hn in Hi. rewrite Hn in Hj. apply (ConnName_inj base role). congruence.
Qed.

(** The negotiated channel-max is not checked when the first publisher socket
    failed to connect at boot, although others know it. *)
Definition plain_options : connOptions := mkOptions "amqp://h" [] false false false 0 0 100 2 2 3.
Definition no_parse (s : string) : option string := None.

Lemma channel_max_unchecked_at_boot :
  (∃ e, Dial no_parse "app" plain_options None [None; None] [None; None] None None 10 = Err e)
  ∧ ∃ pub con, Dial no_parse "app" plain_options None [Some (OtherError 1); None] [None; None] None None 10
               = Ok (pub, con).
Proof. split; [eexists|do 2 eexists]; vm_compute; reflexivity. Qed.

(** ** Properties *)

(** C39. The reconnect loop is bounded and ends for a reason.  It is still running
    only while every call of [connect] so far has failed with the context alive
    and, with [Retries > 0], fewer than that many were made: so it returns by
    the call number [Retries] at the latest.  When it returns, every call but
    the last failed with the context alive; it reports success exactly when the
    last call returned nil with the context alive, gives up exactly when the
    last call failed and was number [Retries], and is cancelled exactly when the
    context had ended by the last call, or ended in the back-off after it. *)
Theorem reconnect_loop_bounded maxRetries attempts :
  match run maxRetries attempts with
  | None => Forall failed attempts ∧ (0 < maxRetries -> Z.of_nat (length attempts) < maxRetries)
  | Some (e, n) =>
      ∃ before a after, attempts = before ++ a :: after ∧ n = S (length before) ∧ Forall failed before
        ∧ (0 < maxRetries -> Z.of_nat n <= maxRetries)
        ∧ match e with
          | LoopConnected => aErr a = None ∧ aCtxDone a = false
          | LoopExhausted => is_Some (aErr a) ∧ aCtxDone a = false ∧ 0 < maxRetries ∧ Z.of_nat n = maxRetries
          | LoopCancelled =>
              aCtxDone a = true
              ∨ is_Some (aErr a) ∧ aBackoffCancelled a = true ∧ (0 < maxRetries -> Z.of_nat n < maxRetries)
          end
  end.
Proof. exact (run_from_said maxRetries 0 attempts (fun H => H)). Qed.

(** Fail-over is fair: whatever the shuffle, from any cursor position the
    next dials, as many as there are addresses, try every configured address
    exactly once, and never index out of range. *)
Lemma dial_rotation_fair shuffle addr addrs c :
  (∀ l, Permutation (shuffle l) l) ->
  (c < length (dialAddrs addr addrs))%nat ->
  ∃ l c', dials shuffle addr addrs (length (dialAddrs addr addrs)) c = Some (l, c')
    ∧ Permutation l (dialAddrs addr addrs) ∧ c' = c.
Proof.
  intros Hsh Hc. set (A := dialAddrs addr addrs) in *.
  assert (Permutation (shuffledAddrs shuffle A) A) as HP by (unfold shuffledAddrs; case_decide; [done|apply Hsh]).
  pose proof (Permutation_length HP) as Hl.
  exists (take (length A) (drop c (shuffledAddrs shuffle A) ++ take c (shuffledAddrs shuffle A))), c.
  split; [|split; [|done]].
  - rewrite dials_rotate; fold A; rewrite ?Hl; [|done|lia]. do 2 f_equal.
    replace (c + length A)%nat with (c + 1 * length A)%nat by lia.
    rewrite Nat.Div0.mod_add. by apply Nat.mod_small.
  - rewrite take_ge by (rewrite length_app, length_drop, length_take, Hl; lia).
    rewrite Permutation_app_comm, take_drop. exact HP.
Qed.

(** A connection that boots can serve both roles: when [Dial] succeeds, each
    pool has the sockets asked for, at least one of them live, and every other
    one is marked so that its supervisor brings it up and callers wait for it;
    socket names are distinct; and the channel pool fits in the channel-max the
    first publisher socket negotiated, if that socket is live. *)
Lemma dial_boot_policy parse base o delayErr pubOut conOut pubCtx conCtx negMax pub con :
  Dial parse base o delayErr pubOut conOut pubCtx conCtx negMax = Ok (pub, con) ->
  pool_ok pubOut pub ∧ pool_ok conOut con ∧ pubCtx = None ∧ conCtx = None
  ∧ (∀ s, head pub = Some s -> sLive s = true -> 0 < negMax -> oChannelPoolSize o <= negMax).
Proof.
  unfold Dial. intros H. destruct (validateConnOptions parse o); [done|]. destruct delayErr; [done|].
  destruct (openPool base "publisher" pubOut pubCtx) as [[p b]|] eqn:Hp; [|done].
  destruct (decide _) as [|Hn] in H; [done|].
  destruct (openPool base "consumer" conOut conCtx) as [[q b']|] eqn:Hq; [|done]. injection H as <- <-.
  apply openPool_Ok in Hp as [Hp1 Hp2]. apply openPool_Ok in Hq as [Hq1 Hq2].
  do 4 (split; [done|]). intros s Hs Hlv Hneg. rewrite Hs, Hlv in Hn. lia.
Qed.

(** ** The Loop object *)

(** Where the goroutine of a [Loop] is: in [connect], after it, in the back-off,
    in [fireCallbacks] with the copy of the list still to call, or gone. *)
Inductive lphase : Type :=
| LConnecting
| LReturned (err : goerror)
| LWaiting
| LFiring (cbs : list nat)
| LExited.

(** [lCalls] and [lFired] are the history of calls of [connect] and of the
    callbacks; [lSnapshot] is the copy [fireCallbacks] took, if it did. *)
Record Loop : Type := mkLoop {
  lMaxRetries : Z;
  lAttempt : Z;
  lCallbacks : list nat;
  lCancelled : bool;
  lPhase : lphase;
  lCalls : list goerror;
  lFired : list nat;
  lSnapshot : option (list nat)
}.

Definition NewLoop (maxRetries : Z) : Loop := mkLoop maxRetries 0 [] false LConnecting [] [] None.

(** What happens next: a caller registers a callback or stops the loop (or the
    parent context ends), [connect] returns, the goroutine moves on, the timer
    fires, the context ends during the back-off. *)
Inductive llabel : Type :=
| LOnReconnect (fn : nat)
| LCancelLoop
| LConnectReturns (err : goerror)
| LMoveOn
| LTimer
| LCtx.

Definition set_lphase (p : lphase) (l : Loop) : Loop :=
  mkLoop (lMaxRetries l) (lAttempt l) (lCallbacks l) (lCancelled l) p (lCalls l) (lFired l) (lSnapshot l).

Definition OnReconnect (fn : nat) (l : Loop) : Loop :=
  mkLoop (lMaxRetries l) (lAttempt l) (lCallbacks l ++ [fn]) (lCancelled l) (lPhase l) (lCalls l) (lFired l) (lSnapshot l).

(** The first half of [Stop]; the second waits for [LExited]. *)
Definition StopLoop (l : Loop) : Loop :=
  mkLoop (lMaxRetries l) (lAttempt l) (lCallbacks l) true (lPhase l) (lCalls l) (lFired l) (lSnapshot l).

(** [Stop]'s select: nil when [done] is closed, the caller's context error when
    that ends first; [None] while neither has happened. *)
Definition stop_result (ctxErr : goerror) (l : Loop) : option goerror :=
  match lPhase l with
  | LExited => Some None
  | _ => match ctxErr with Some e => Some (Some e) | None => None end
  end.

Definition loop_step (x : llabel) (l : Loop) : option Loop :=
  match x, lPhase l with
  | LOnReconnect fn, _ => Some (OnReconnect fn l)
  | LCancelLoop, _ => Some (StopLoop l)
  | LConnectReturns err, LConnecting =>
      Some (mkLoop (lMaxRetries l) (lAttempt l) (lCallbacks l) (lCancelled l) (LReturned err) (lCalls l ++ [err])
              (lFired l) (lSnapshot l))
  | LMoveOn, LReturned err =>
      if lCancelled l then Some (set_lphase LExited l)
      else
        match err with
        | None =>
            Some (mkLoop (lMaxRetries l) (lAttempt l) (lCallbacks l) (lCancelled l) (LFiring (lCallbacks l)) (lCalls l)
                    (lFired l) (Some (lCallbacks l)))
        | Some _ =>
            let k := lAttempt l + 1 in
            Some (mkLoop (lMaxRetries l) k (lCallbacks l) (lCancelled l)
                    (if decide (0 < lMaxRetries l ∧ lMaxRetries l <= k) then LExited else LWaiting) (lCalls l)
                    (lFired l) (lSnapshot l))
        end
  | LMoveOn, LFiring [] => Some (set_lphase LExited l)
  | LMoveOn, LFiring (fn :: r) =>
      Some (mkLoop (lMaxRetries l) (lAttempt l) (lCallbacks l) (lCancelled l) (LFiring r) (lCalls l) (lFired l ++ [fn])
              (lSnapshot l))
  | LTimer, LWaiting => Some (set_lphase LConnecting l)
  | LCtx, LWaiting => if lCancelled l then Some (set_lphase LExited l) else None
  | _, _ => None
  end.

Inductive loop_reach (maxRetries : Z) : Loop -> Prop :=
| LRStart : loop_reach maxRetries (NewLoop maxRetries)
| LRStep l x l' : loop_reach maxRetries l -> loop_step x l = Some l' -> loop_reach maxRetries l'.

(** What holds in every state. *)
Record loop_inv (maxRetries : Z) (l : Loop) : Prop := {
  li_max : lMaxRetries l = maxRetries;
  li_attempt : match lPhase l with
               | LConnecting | LWaiting => lAttempt l = Z.of_nat (length (lCalls l))
               | LReturned _ => lAttempt l = Z.of_nat (length (lCalls l)) - 1
               | LFiring _ | LExited => True
               end;
  li_calls : 0 < maxRetries -> Z.of_nat (length (lCalls l)) <= maxRetries;
  li_budget : 0 < maxRetries -> match lPhase l with LConnecting | LWaiting => Z.of_nat (length (lCalls l)) < maxRetries | _ => True end;
  li_failed : match lPhase l with
              | LConnecting | LWaiting => Forall is_Some (lCalls l)
              | LReturned _ => ∃ cs e, lCalls l = cs ++ [e] ∧ Forall is_Some cs ∧ lPhase l = LReturned e
              | LFiring _ => ∃ cs, lCalls l = cs ++ [None] ∧ Forall is_Some cs
              | LExited => True
              end;
  li_snapshot : match lSnapshot l with
                | Some s => s `prefix_of` lCallbacks l ∧ last (lCalls l) = Some None
                    ∧ (lPhase l = LExited ∧ lFired l = s ∨ ∃ r, lPhase l = LFiring r ∧ s = lFired l ++ r)
                | None => lFired l = [] ∧ ∀ r, lPhase l ≠ LFiring r
                end
}.

Lemma loop_inv_new maxRetries : loop_inv maxRetries (NewLoop maxRetries).
Proof. split; simpl; try done; try lia. Qed.

Lemma loop_inv_step maxRetries x l l' : loop_inv maxRetries l -> loop_step x l = Some l' -> loop_inv maxRetries l'.
Proof.
  intros [H1 H2 H3 H4 H5 H6] Hs. destruct l as [mx k cbs can ph calls fired snap]. simpl in *. subst mx.
  destruct x as [fn| |err| | |]; simpl in Hs.
  - injection Hs as <-. split; simpl; try done. destruct snap as [s|]; [|done].
    destruct H6 as (Hp & Hl & Hf). split_and!; [by apply prefix_app_r|done|done].
  - injection Hs as <-. by split.
  - destruct ph; try done. injection Hs as <-. split; simpl; try done.
    + rewrite length_app. simpl. lia.
    + intros Hm. specialize (H4 Hm). rewrite length_app. simpl. lia.
    + eauto.
    + destruct snap; [|split; [apply H6|done]]. destruct H6 as (_ & _ & [[? _]|(? & ? & _)]); done.
  - destruct ph as [|err| |cbs'|]; try done.
    + destruct H5 as (cs & e & -> & HF & [= ->]).
      assert (snap = None ∧ fired = []) as [-> ->].
      { destruct snap; [destruct H6 as (_ & _ & [[? _]|(? & ? & _)]); done|]. by destruct H6. }
      destruct can; [injection Hs as <-; by split|]. destruct e as [e|]; injection Hs as <-.
      * rewrite length_app in *. simpl length in *.
        destruct (decide (0 < maxRetries ∧ maxRetries <= k + 1)) as [Hd|Hd];
          split; simpl; rewrite ?length_app; simpl; try done; try lia.
        apply Forall_app. split; [done|]. constructor; [by eexists|constructor].
      * split; simpl; try done; [eauto|]. split_and!; [done|by rewrite last_snoc|right; eauto].
    + destruct snap as [s|]; [|by destruct H6 as [_ H6]; destruct (H6 cbs')].
      destruct H6 as (Hp & Hl & [[? _]|(r & [= <-] & Es)]); [done|]. destruct cbs' as [|fn r]; injection Hs as <-.
      * split; simpl; try done. split_and!; [done|done|]. left. by rewrite Es, app_nil_r.
      * split; simpl; try done. split_and!; [done|done|]. right. exists r. by rewrite <- app_assoc.
  - destruct ph; try done. injection Hs as <-. split; simpl; try done. destruct snap; [|split; [apply H6|done]].
    destruct H6 as (_ & _ & [[? _]|(? & ? & _)]); done.
  - destruct ph; try done. destruct can; [|done]. injection Hs as <-. split; simpl; try done.
    destruct snap; [|split; [apply H6|done]]. destruct H6 as (_ & _ & [[? _]|(? & ? & _)]); done.
Qed.

Lemma loop_reach_inv maxRetries l : loop_reach maxRetries l -> loop_inv maxRetries l.
Proof. induction 1; [apply loop_inv_new|by eapply loop_inv_step]. Qed.

(** The callbacks of a loop: whatever callers register and when, and whenever the
    loop is stopped, a callback fires only after a call of [connect] that
    returned nil, which is the last; those that fire are the ones registered
    before it, in the order of registration, each once; and with a positive
    limit [connect] is called at most that often. *)
Lemma loop_callbacks maxRetries l :
  loop_reach maxRetries l ->
  lFired l `prefix_of` lCallbacks l
  ∧ (lFired l ≠ [] -> last (lCalls l) = Some None)
  ∧ (∀ s, lSnapshot l = Some s -> lPhase l = LExited -> lFired l = s)
  ∧ (0 < maxRetries -> Z.of_nat (length (lCalls l)) <= maxRetries)
  ∧ (∀ ctxErr, stop_result ctxErr l = Some None -> lPhase l = LExited).
Proof.
  intros [_ _ H3 _ _ H6]%loop_reach_inv. split_and!; [| | |done|].
  - destruct (lSnapshot l) as [s|]; [|destruct H6 as [-> _]; apply prefix_nil].
    destruct H6 as (Hp & _ & [[_ ->]|(r & _ & Es)]); [done|]. etransitivity; [|exact Hp]. rewrite Es. by apply prefix_app_r.
  - destruct (lSnapshot l) as [s|]; [by intros _; destruct H6 as (_ & Hl & _)|by destruct H6 as [-> _]].
  - intros s Es Hx. rewrite Es in H6. destruct H6 as (_ & _ & [[_ Hf]|(r & Hr & _)]); [done|congruence].
  - intros ctxErr. unfold stop_result. destruct (lPhase l); try done; by destruct ctxErr.
Qed.

(** A callback registered after the loop has connected never fires, although
    registering after [New] is documented as safe. *)
Lemma late_callback_lost :
  ∃ l l', loop_reach 0 l ∧ loop_step (LOnReconnect 1) l = Some l' ∧ lPhase l' = LExited
    ∧ lCallbacks l' = [1%nat] ∧ lFired l' = [] ∧ last (lCalls l') = Some None.
Proof.
  eexists _, _. split; [|split; [reflexivity|]].
  - eapply (LRStep _ _ LMoveOn); [eapply (LRStep _ _ LMoveOn); [eapply (LRStep _ _ (LConnectReturns None));
      [apply LRStart|reflexivity]|reflexivity]|reflexivity].
  - done.
Qed.

(** ** Witnesses *)

(** Three refused dials with a limit of three. *)
Definition refused : list attempt := replicate 3 (mkAttempt (Some (OtherError 1)) false false).

Lemma reconnect_loop_witness :
  run 3 refused = Some (LoopExhausted, 3%nat) ∧ 0 < 3 ∧ Z.of_nat 3 = 3
  ∧ run 3 (take 2 refused) = None ∧ Forall failed (take 2 refused).
Proof.
  destruct (reconnect_loop_bounded 3 refused) as (before & a & after & _ & _ & _ & _ & _ & _ & H).
  pose proof (reconnect_loop_bounded 3 (take 2 refused)) as [H' _].
  split_and!; [reflexivity|exact (proj1 H)|exact (proj2 H)|reflexivity|exact H'].
Defined.

Lemma dial_rotation_witness :
  ∃ l c', dials (@rev string) "" ["a"; "b"; "c"]%string 3 1 = Some (l, c')
    ∧ Permutation l ["a"; "b"; "c"]%string ∧ c' = 1%nat.
Proof.
  apply (dial_rotation_fair (@rev string) "" ["a"; "b"; "c"]%string 1).
  - intros l. symmetry. apply Permutation_rev.
  - simpl. lia.
Defined.

Lemma dial_boot_witness :
  ∃ pub con, Dial no_parse "app" plain_options None [Some (OtherError 1); None] [None; None] None None 200
             = Ok (pub, con) ∧ pool_ok [Some (OtherError 1); None] pub.
Proof.
  destruct (Dial no_parse "app" plain_options None [Some (OtherError 1); None] [None; None] None None 200)
    as [[pub con]|] eqn:E; [|by vm_compute in E].
  exists pub, con. split; [reflexivity|].
  exact (proj1 (dial_boot_policy no_parse "app" plain_options None [Some (OtherError 1); None] [None; None]
    None None 200 pub con E)).
Defined.
