(* ===== verification/Sockets.v ===== *)
(** * Sockets: channels, versions, hooks and callbacks of the managed connections

    Models the operations of [managedConn] and [Connection] (src/connection.go)
    that the supervisor of [Barrier] and the boot policy of [Reconnect] leave
    out: opening channels, the broker's version and channel-max, the
    registration of reconnect hooks, closing the sockets of a failed boot, and
    the guarded user callbacks; and the health checks that build on them
    (consumer.go, rpc.go, rpc_replier.go). *)

From S2P Require Import Prelude Errors Values Reconnect.

(** ** Data *)

(** What the library reads of a driver connection: its server properties, the
    negotiated channel-max, and what [Channel()] answers. *)
Record rawConn : Type := mkRawConn {
  rProperties : gmap string value;
  rChannelMax : Z;
  rChannel : result error nat
}.

(** [chanFactory] is the test seam; [hooks] are references to functions;
    [hasCancel] and [hasDone] tell whether [cancel] and [done] are set. *)
Record managedConn : Type := mkManaged {
  raw : option rawConn;
  chanFactory : option (result error nat);
  hooks : list nat;
  hasCancel : bool;
  hasDone : bool
}.

(** ** Channels and versions *)

Definition openChannel (mc : managedConn) : result error nat :=
  match chanFactory mc with
  | Some r => r
  | None =>
      match raw mc with
      | None => Err (Sentinel ErrNotConnected)
      | Some r => rChannel r
      end
  end.

Definition openDeclareChannel (pubConns : list managedConn) : result error nat :=
  match pubConns with
  | [] => Err (Sentinel ErrNotConnected)
  | mc :: _ => openChannel mc
  end.

Definition serverVersion (mc : managedConn) : string :=
  match raw mc with
  | None => ""
  | Some r => as_string (rProperties r !! "version"%string)
  end.

(** The loop over both pools. *)
Fixpoint first_version (mcs : list managedConn) : string :=
  match mcs with
  | [] => ""
  | mc :: r => if decide (serverVersion mc ≠ ""%string) then serverVersion mc else first_version r
  end.

Definition brokerVersion (pubConns conConns : list managedConn) : string := first_version (pubConns ++ conConns).

Definition negotiatedChannelMax (mc : managedConn) : Z :=
  match raw mc with None => 0 | Some r => rChannelMax r end.

(** ** Hooks *)

Definition registerHook (fn : nat) (mc : managedConn) : managedConn :=
  mkManaged (raw mc) (chanFactory mc) (hooks mc ++ [fn]) (hasCancel mc) (hasDone mc).

Definition registerReconnectHook (fn : nat) (pubConns conConns : list managedConn)
  : list managedConn * list managedConn :=
  (registerHook fn <$> pubConns, registerHook fn <$> conConns).

(** ** Closing a pool *)

Inductive close_event : Type :=
| ECloseRaw (i : nat)
| ECancel (i : nat)
| EAwaitDone (i : nat)
| EAwaitCallbacks (i : nat).

(** A nil entry is a socket the boot loop has not built. *)
Fixpoint closeRawConns (i : nat) (conns : list (option managedConn)) : list close_event :=
  match conns with
  | [] => []
  | Some mc :: r => (if raw mc then [ECloseRaw i] else []) ++ closeRawConns (S i) r
  | None :: r => closeRawConns (S i) r
  end.

Fixpoint cancel_all (i : nat) (conns : list managedConn) : list close_event :=
  match conns with
  | [] => []
  | mc :: r => (if hasCancel mc then [ECancel i] else []) ++ cancel_all (S i) r
  end.

Fixpoint await_all (i : nat) (conns : list managedConn) : list close_event :=
  match conns with
  | [] => []
  | mc :: r => (if hasDone mc then [EAwaitDone i] else []) ++ EAwaitCallbacks i :: await_all (S i) r
  end.

Definition closeManagedConns (conns : list managedConn) : list close_event :=
  cancel_all 0 conns ++ await_all 0 conns.

(** ** User callbacks *)

(** What a callback does. *)
Inductive callback : Type := CReturns | CPanics.

Inductive cb_event : Type :=
| ECalled (name : string) (arg : string)
| ELogPanic (name : string)
| EResubscribed (queue : string).

(** [defer mc.recoverCallback(name)] around a call. *)
Definition guarded (name arg : string) (c : callback) : list cb_event :=
  ECalled name arg :: match c with CReturns => [] | CPanics => [ELogPanic name] end.

(** The goroutine of [safeOnBlocked]; [None] is a nil callback. *)
Definition safeOnBlocked (fn : option callback) (reason : string) : list cb_event :=
  match fn with None => [] | Some c => guarded "WithOnBlocked" reason c end.

Definition notifyResubscribed (fn : option callback) (queue : string) : list cb_event :=
  EResubscribed queue :: match fn with None => [] | Some c => guarded "WithOnResubscribe" queue c end.

(** ** Health *)

(** [managedConn.health] with its probe through [openChannel]. *)
Definition mc_health (ctxErr : goerror) (reconnecting : bool) (degradedErr closeErr : goerror) (mc : managedConn)
  : goerror :=
  health ctxErr reconnecting degradedErr (bool_decide (is_Some (raw mc)))
    (match openChannel mc with Ok _ => None | Err e => Some e end) closeErr.

(** [Consumer.Health]: [override] is the test seam, [snap] the snapshot. *)
Definition Consumer_Health {A} (override : option goerror) (probe : goerror) (snap : A) : result error A :=
  match default probe override with Some e => Err e | None => Ok snap end.

(** [Caller.Health]; [None] is a nil connection. *)
Definition Caller_Health (probe : option goerror) : goerror :=
  match probe with None => Some (Sentinel ErrNotConnected) | Some p => p end.

Definition Replier_Health {A} (consumerHealth : result error A) : goerror :=
  match consumerHealth with Ok _ => None | Err e => Some e end.

(** [Caller.openChannel]: [newChannel] is the test seam, [isAMQP] tells whether
    the channel is a driver channel. *)
Definition Caller_openChannel (newChannel : option (result error nat)) (mc : managedConn) (isAMQP : bool)
  : result error nat :=
  match newChannel with
  | Some r => r
  | None =>
      match openChannel mc with
      | Err e => Err (Wrap [e])
      | Ok ch => if isAMQP then Ok ch else Err (OtherError 0)
      end
  end.

(** ** Properties *)

(** The broker's version is the first one a live socket reports, publishers
    first; it is empty only when none reports one. *)
Lemma brokerVersion_first pub con :
  (brokerVersion pub con = ""%string <-> Forall (fun mc => serverVersion mc = ""%string) (pub ++ con))
  ∧ (brokerVersion pub con ≠ ""%string -> ∃ l1 mc l2, pub ++ con = l1 ++ mc :: l2
       ∧ brokerVersion pub con = serverVersion mc ∧ Forall (fun m => serverVersion m = ""%string) l1).
Proof.
  unfold brokerVersion. induction (pub ++ con) as [|mc l [IH1 IH2]]; simpl; [done|].
  destruct (decide (serverVersion mc = ""%string)) as [E|E].
  - rewrite decide_False by tauto. split.
    + rewrite IH1, Forall_cons. tauto.
    + intros H. destruct (IH2 H) as (l1 & m & l2 & -> & Hm & HF). exists (mc :: l1), m, l2.
      split_and!; [done|done|by constructor].
  - rewrite decide_True by done. split; [split; [done|by intros [? _]%Forall_cons]|].
    intros _. by exists [], mc, l.
Qed.

(** A hook reaches every socket of both pools, once, after the hooks that were
    there; nothing else changes. *)
Lemma hook_reaches_all fn pub con i mc :
  let '(pub', con') := registerReconnectHook fn pub con in
  (pub ++ con) !! i = Some mc ->
  ∃ mc', (pub' ++ con') !! i = Some mc' ∧ hooks mc' = hooks mc ++ [fn] ∧ raw mc' = raw mc.
Proof.
  simpl. rewrite <- fmap_app, list_lookup_fmap. intros ->. by eexists.
Qed.

Lemma cancel_all_only i conns e : e ∈ cancel_all i conns -> ∃ j, e = ECancel j.
Proof.
  revert i. induction conns as [|mc r IH]; intros i; simpl; [set_solver|].
  intros [H|H]%elem_of_app; [|by eapply IH]. destruct (hasCancel mc); [|set_solver].
  apply list_elem_of_singleton in H as ->. by eexists.
Qed.

Lemma cancel_all_each i conns j mc :
  conns !! j = Some mc -> hasCancel mc = true -> ECancel (i + j) ∈ cancel_all i conns.
Proof.
  revert i j. induction conns as [|m r IH]; intros i j Hj Hc; [done|]. simpl. destruct j as [|j].
  - injection Hj as ->. rewrite Hc, Nat.add_0_r. set_solver.
  - apply elem_of_app. right. replace (i + S j)%nat with (S i + j)%nat by lia. by apply IH.
Qed.

Lemma await_all_never_cancels i conns j : ECancel j ∉ await_all i conns.
Proof.
  revert i. induction conns as [|mc r IH]; intros i; simpl; [set_solver|].
  rewrite not_elem_of_app, not_elem_of_cons. split_and!; [by case_match; set_solver|done|apply IH].
Qed.

(** Closing a pool cancels every supervisor before it waits for any, so that no
    wait depends on a socket that has not been told to stop. *)
Lemma close_cancels_first conns k e pre post :
  closeManagedConns conns = pre ++ e :: post -> (e = EAwaitDone k ∨ e = EAwaitCallbacks k) ->
  ∀ j mc, conns !! j = Some mc -> hasCancel mc = true -> ECancel j ∈ pre.
Proof.
  unfold closeManagedConns. intros E He j mc Hj Hc.
  pose proof (cancel_all_each 0 conns j mc Hj Hc) as Hin. simpl in Hin.
  assert (cancel_all 0 conns `prefix_of` pre) as [t ->]; [|set_solver].
  destruct (decide (length (cancel_all 0 conns) <= length pre)%nat) as [Hl|Hl].
  - exists (drop (length (cancel_all 0 conns)) pre).
    apply (f_equal (take (length (cancel_all 0 conns)))) in E. rewrite take_app_length, take_app_le in E by done.
    rewrite E at 1. by rewrite take_drop.
  - exfalso. assert (e ∈ cancel_all 0 conns) as Hec.
    { apply (f_equal (fun l => l !! length pre)) in E. rewrite list_lookup_middle in E by done.
      rewrite lookup_app_l in E by lia. by eapply list_elem_of_lookup_2. }
    apply cancel_all_only in Hec as [i ->]. by destruct He.
Qed.

(** A panicking callback is logged and stops there: what the library records
    besides does not depend on it. *)
Lemma callbacks_contained fn queue reason :
  EResubscribed queue ∈ notifyResubscribed fn queue
  ∧ (ELogPanic "WithOnResubscribe" ∈ notifyResubscribed fn queue <-> fn = Some CPanics)
  ∧ (ELogPanic "WithOnBlocked" ∈ safeOnBlocked fn reason <-> fn = Some CPanics).
Proof. destruct fn as [[]|]; simpl; split_and!; set_solver. Qed.

(** Health is nil only for a live socket on which a channel opened and closed,
    with the barrier down and no degraded error. *)
Lemma health_nil ctxErr rec deg cerr mc :
  mc_health ctxErr rec deg cerr mc = None ->
  ctxErr = None ∧ rec = false ∧ deg = None ∧ is_Some (raw mc) ∧ (∃ ch, openChannel mc = Ok ch) ∧ cerr = None.
Proof.
  unfold mc_health, health. destruct ctxErr; [done|]. destruct rec; [done|]. destruct deg; [done|].
  case_bool_decide as Hr; [|done]. simpl. destruct (openChannel mc) as [ch|e]; simpl.
  - destruct cerr; [|by eauto 10]. unfold wrapAMQPError. repeat case_match; done.
  - unfold wrapAMQPError. repeat case_match; done.
Qed.
