(* ===== verification/PublisherLife.v ===== *)
(** * PublisherLife: opening channels, returned messages and closing

    The rest of [src/publisher.go]: [openPublisherEntry], the [OnReturn]
    callback ([callOnReturn]) and [Close] against concurrent calls of [Publish]
    and [PublishBatch].  A message the broker returns is read back as it was
    sent; a publisher that closes drains its calls first. *)

From S2P Require Import Prelude Errors Confirms Values Message Publisher Reconnect.

(** ** openPublisherEntry *)

(** What opening a channel meets: no socket, a refused channel, a refused
    confirm.select, or success. *)
Inductive open_outcome : Type :=
| NoSocket
| ChannelErr (e : error)
| ConfirmErr (e : error)
| Opened.

(** The entry with the buffer size of its notification channels, or the error;
    and whether a channel was opened and closed again. *)
Definition openPublisherEntry (poolSize : Z) (o : open_outcome) : result goerror (entry * Z) * bool :=
  match o with
  | NoSocket => (Err (Some (Sentinel ErrNotConnected)), false)
  | ChannelErr e => (Err (wrapAMQPError (Some e)), false)
  | ConfirmErr e => (Err (wrapAMQPError (Some e)), true)
  | Opened => (Ok (mkEntry Confirms.New ∅ [], Z.min (Z.max poolSize 8) channelPoolSizeMax), false)
  end.

(** ** Returned messages *)

(** [strconv.ParseInt(s, 10, 64)]: [None] for a syntax error or a number out of
    range. *)
Definition digit (a : Ascii.ascii) : option Z :=
  let n := Z.of_N (Ascii.N_of_ascii a) in
  if decide (48 <= n <= 57) then Some (n - 48) else None.

Fixpoint parse_digits (acc : Z) (s : string) : option Z :=
  match s with
  | EmptyString => Some acc
  | String a r => d ← digit a; parse_digits (10 * acc + d) r
  end.

Definition ParseInt (s : string) : option Z :=
  let '(neg, body) :=
    match s with
    | String a r =>
        if decide (a = Ascii.ascii_of_nat 45) then (true, r)
        else if decide (a = Ascii.ascii_of_nat 43) then (false, r) else (false, s)
    | EmptyString => (false, s)
    end in
  if decide (body = ""%string) then None
  else
    n ← parse_digits 0 body;
    let n := if neg then - n else n in
    if decide (minInt64 <= n <= maxInt64) then Some n else None.

(** [ReturnedProperties]; [rTimestamp] is [None] for the zero time. *)
Record ReturnedProperties : Type := mkReturned {
  rContentType : string;
  rContentEncoding : string;
  rHeaders : Headers;
  rDeliveryMode : Z;
  rPriority : Z;
  rCorrelationID : string;
  rReplyTo : string;
  rExpiration : Z;
  rMessageID : string;
  rTimestamp : option Z;
  rType : string;
  rUserID : string;
  rAppID : string
}.

Record Return : Type := mkReturn {
  ReplyCode : Z;
  ReplyText : string;
  RetExchange : string;
  RetRoutingKey : string;
  Properties : ReturnedProperties
}.

(** An [amqp091.Return]: the reply and the frame the broker gives back. *)
Record raw_return : Type := mkRaw {
  rawCode : Z;
  rawText : string;
  rawExchange : string;
  rawKey : string;
  rawFrame : Publishing
}.

(** What the user's callback is called with; [hasCallback] tells whether there
    is one. *)
Definition callOnReturn (hasCallback : bool) (r : raw_return) : option Return :=
  if negb hasCallback then None
  else
    let f := rawFrame r in
    let exp :=
      if decide (pExpiration f = ""%string) then 0
      else match ParseInt (pExpiration f) with
           | Some ms => wrap_signed 64 (ms * millisecond)
           | None => 0
           end in
    Some (mkReturn (rawCode r) (rawText r) (rawExchange r) (rawKey r)
            (mkReturned (pContentType f) (pContentEncoding f) (pHeaders f)
               (deliveryModeFromWire (pDeliveryMode f)) (pPriority f) (pCorrelationId f)
               (pReplyTo f) exp (pMessageId f) (pTimestamp f) (pType f) (pUserId f) (pAppId f))).

(** ** Publish and Close *)

(** A call of [Publish] or [PublishBatch]. *)
Inductive call_state : Type := CallStart | CallInFlight | CallRefused | CallReturned.

(** A call of [Close]: waiting for the calls in flight, closing pool [k],
    refused, or done. *)
Inductive close_state : Type := CloseStart | CloseWait | CloseDrain (k : nat) | CloseRefused | CloseDone.

(** [lClosed] and the wait group are guarded by [p.mu]; [lPools] tells which
    pools have been drained. *)
Record life : Type := mkLife {
  lClosed : bool;
  lWg : Z;
  lCalls : gmap nat call_state;
  lCloses : gmap nat close_state;
  lPools : list bool
}.

Definition boot (pools : nat) : life := mkLife false 0 ∅ ∅ (replicate pools false).

Inductive action : Type :=
| NewCall (i : nat)                   (* a goroutine calls Publish or PublishBatch *)
| Enter (i : nat)                     (* its critical section *)
| Leave (i : nat)                     (* the deferred wg.Done *)
| NewClose (j : nat)
| Mark (j : nat)                      (* the critical section of Close *)
| Waited (j : nat)                    (* wg.Wait returns *)
| ClosePool (j : nat).                (* closeAll of the next pool, or the end *)

Definition lstep (s : life) (a : action) : option life :=
  let '(mkLife cl wg calls closes pools) := s in
  match a with
  | NewCall i =>
      match calls !! i with
      | None => Some (mkLife cl wg (<[ i := CallStart ]> calls) closes pools)
      | Some _ => None
      end
  | Enter i =>
      match calls !! i with
      | Some CallStart =>
          if cl then Some (mkLife cl wg (<[ i := CallRefused ]> calls) closes pools)
          else Some (mkLife cl (wg + 1) (<[ i := CallInFlight ]> calls) closes pools)
      | _ => None
      end
  | Leave i =>
      match calls !! i with
      | Some CallInFlight => Some (mkLife cl (wg - 1) (<[ i := CallReturned ]> calls) closes pools)
      | _ => None
      end
  | NewClose j =>
      match closes !! j with
      | None => Some (mkLife cl wg calls (<[ j := CloseStart ]> closes) pools)
      | Some _ => None
      end
  | Mark j =>
      match closes !! j with
      | Some CloseStart =>
          if cl then Some (mkLife cl wg calls (<[ j := CloseRefused ]> closes) pools)
          else Some (mkLife true wg calls (<[ j := CloseWait ]> closes) pools)
      | _ => None
      end
  | Waited j =>
      match closes !! j with
      | Some CloseWait =>
          if decide (wg = 0) then Some (mkLife cl wg calls (<[ j := CloseDrain 0 ]> closes) pools) else None
      | _ => None
      end
  | ClosePool j =>
      match closes !! j with
      | Some (CloseDrain k) =>
          if decide (k < length pools)%nat
          then Some (mkLife cl wg calls (<[ j := CloseDrain (S k) ]> closes) (<[ k := true ]> pools))
          else Some (mkLife cl wg calls (<[ j := CloseDone ]> closes) pools)
      | _ => None
      end
  end.

Fixpoint lrun (s : life) (acts : list action) : option life :=
  match acts with
  | [] => Some s
  | a :: r => s' ← lstep s a; lrun s' r
  end.

(** ** Lemmas on returned messages *)

Lemma digit_pretty x : (x < 10)%N -> digit (pretty_N_char x) = Some (Z.of_N x).
Proof.
  intros Hx. assert (∃ k, (k < 10)%nat ∧ x = N.of_nat k) as (k & Hk & ->).
  { exists (N.to_nat x). lia. }
  do 10 (destruct k as [|k]; [reflexivity|]). lia.
Qed.

Lemma parse_pretty_go x s : parse_digits 0 (pretty_N_go x s) = parse_digits (Z.of_N x) s.
Proof.
  revert s. induction (N.lt_wf_0 x) as [x _ IH]. intros s.
  destruct (decide (x = 0)%N) as [->|Hx]; [done|].
  rewrite pretty_N_go_step by lia. rewrite IH by (apply N.div_lt; lia). simpl.
  rewrite digit_pretty by (apply N.mod_lt; lia). simpl. f_equal.
  rewrite (N.div_mod x 10) at 3 by done. lia.
Qed.

Lemma ParseInt_pretty z : 0 < z <= maxInt64 -> ParseInt (pretty z) = Some z.
Proof.
  intros Hz. destruct z as [|p|p]; [lia| |lia].
  change (pretty (Z.pos p)) with (pretty (N.pos p)). unfold pretty, pretty_N.
  rewrite decide_False by done.
  assert (parse_digits 0 (pretty_N_go (N.pos p) "") = Some (Z.pos p)) as Hp by (by rewrite parse_pretty_go).
  unfold ParseInt. destruct (pretty_N_go (N.pos p) "") as [|a r] eqn:E.
  { exfalso. by simpl in Hp. }
  destruct (decide (a = Ascii.ascii_of_nat 45)) as [->|_]; [done|].
  destruct (decide (a = Ascii.ascii_of_nat 43)) as [->|_]; [done|].
  rewrite decide_False by done. rewrite Hp. simpl. rewrite decide_True; [done|]. unfold minInt64. lia.
Qed.

(** What is left of an expiration on the wire: whole milliseconds. *)
Lemma wire_expiration e :
  in_int64 e -> 1 <= milliseconds e ->
  ParseInt (pretty (milliseconds e)) = Some (milliseconds e)
  ∧ wrap_signed 64 (milliseconds e * millisecond) = milliseconds e * millisecond
  ∧ 0 <= e - milliseconds e * millisecond < millisecond.
Proof.
  unfold in_int64. intros Hi Hm. assert (0 < e) by (pose proof (milliseconds_pos_iff e); unfold millisecond in *; lia).
  assert (0 <= e - milliseconds e * millisecond < millisecond) as Hr.
  { unfold milliseconds, millisecond in *. pose proof (Z.quot_rem' e 1000000).
    pose proof (Z.rem_bound_pos e 1000000). lia. }
  split_and!; [|apply wrap_signed_id; unfold millisecond, maxInt64, minInt64 in *; lia|lia|lia].
  apply ParseInt_pretty. unfold millisecond in *. lia.
Qed.

(** A message the broker returns is the message that was sent: for a frame of
    an accepted message the callback sees its properties, with the delivery
    mode as the publisher set it, and the expiration short of less than a
    millisecond, never overflowed. *)
Lemma returned_as_sent p env msg m len code text ex key :
  encodeMsg p env msg = Ok (m, len) -> (∀ id, uuidOutcome env = Ok id -> id ≠ ""%string) ->
  in_int64 (mExpiration m) ->
  mDeliveryMode m = DeliveryModePersistent ∨ mDeliveryMode m = DeliveryModeTransient ->
  ∃ exp, callOnReturn true (mkRaw code text ex key (buildPublishing m len)) =
      Some (mkReturn code text ex key
        (mkReturned (mContentType m) (mContentEncoding m) (pHeaders (buildPublishing m len))
          (mDeliveryMode m) (mPriority m) (mCorrelationID m) (mReplyTo m)
          exp (mMessageID m) (mTimestamp m) (mType m) (mUserID m) (mAppID m)))
    ∧ 0 <= mExpiration m - exp < millisecond.
Proof.
  intros He Hid Hi Hd. destruct (encodeMsg_Ok _ _ _ _ _ He Hid) as [_ _ _ _ Hx _].
  unfold callOnReturn. simpl. rewrite wire_roundtrip by done.
  destruct Hx as [Hx|Hx].
  - rewrite Hx. simpl. exists 0. split; [done|]. unfold millisecond. lia.
  - destruct (wire_expiration _ Hi Hx) as (Hp & Hw & Hr).
    assert (0 < mExpiration m) by (pose proof (milliseconds_pos_iff (mExpiration m)); unfold millisecond in *; lia).
    rewrite (decide_True (P := 0 < mExpiration m)) by done.
    rewrite (decide_False (P := pretty _ = ""%string)) by (intros E; by rewrite E in Hp).
    rewrite Hp, Hw. eexists. split; [done|]. exact Hr.
Qed.

(** ** Opening *)

(** A publisher channel exists only in confirm mode, with a fresh tracker; a
    channel that cannot enter it is closed; notification buffers hold at least
    8 and at most 4096 frames, and a whole pool within that. *)
Lemma open_entry_ok n o en buf leaked :
  openPublisherEntry n o = (Ok (en, buf), leaked) ->
  o = Opened ∧ tracker en = Confirms.New ∧ returnTagMap en = ∅ ∧ 8 <= buf <= channelPoolSizeMax
  ∧ (n <= channelPoolSizeMax -> n <= buf).
Proof.
  unfold channelPoolSizeMax. destruct o; [done..|]. intros [= <- <- _]. unfold channelPoolSizeMax.
  split_and!; [done..| | |]; lia.
Qed.

(** ** Publish against Close *)

#[global] Instance call_state_eq_dec : EqDecision call_state.
Proof. solve_decision. Defined.

Definition in_flight (calls : gmap nat call_state) : gmap nat call_state :=
  filter (fun ic => ic.2 = CallInFlight) calls.

Lemma in_flight_enter calls i c :
  calls !! i = Some c -> c ≠ CallInFlight ->
  size (in_flight (<[ i := CallInFlight ]> calls)) = S (size (in_flight calls)).
Proof.
  intros Hi Hc. unfold in_flight. rewrite map_filter_insert_True by done. apply map_size_insert_None.
  apply map_lookup_filter_None_2. right. intros x Hx. simpl. congruence.
Qed.

Lemma in_flight_leave calls i c :
  calls !! i = Some CallInFlight -> c ≠ CallInFlight ->
  size (in_flight calls) = S (size (in_flight (<[ i := c ]> calls))).
Proof.
  intros Hi Hc. unfold in_flight. rewrite map_filter_insert_False by done.
  rewrite map_filter_delete, map_size_delete.
  assert (filter (fun ic => ic.2 = CallInFlight) calls !! i = Some CallInFlight) as E
    by (by apply map_lookup_filter_Some_2).
  rewrite E. assert (size (filter (fun ic : nat * call_state => ic.2 = CallInFlight) calls) ≠ 0)%nat; [|lia].
  intros Hz. apply map_size_empty_inv in Hz. by rewrite Hz in E.
Qed.

Lemma in_flight_same calls i c c' :
  calls !! i = c -> c ≠ Some CallInFlight -> c' ≠ CallInFlight ->
  size (in_flight (<[ i := c' ]> calls)) = size (in_flight calls).
Proof.
  intros Hi Hc Hc'. unfold in_flight. rewrite map_filter_insert_False by done.
  rewrite map_filter_delete, delete_id; [done|].
  apply map_lookup_filter_None_2. right. intros x Hx. simpl. congruence.
Qed.

(** A [Close] that got past its critical section. *)
Definition past (st : close_state) : bool :=
  match st with CloseStart | CloseRefused => false | _ => true end.

Record linv (n : nat) (s : life) : Prop := {
  l_wg : lWg s = Z.of_nat (size (in_flight (lCalls s)));
  l_pools : length (lPools s) = n;
  l_open : lClosed s = false ->
    (∀ j st, lCloses s !! j = Some st -> past st = false) ∧ Forall (fun b => b = false) (lPools s);
  l_one : ∀ i j x y, lCloses s !! i = Some x -> lCloses s !! j = Some y ->
    past x = true -> past y = true -> i = j;
  l_drain : ∀ j k, lCloses s !! j = Some (CloseDrain k) ->
    lWg s = 0 ∧ ∀ i b, lPools s !! i = Some b -> b = true <-> (i < k)%nat;
  l_wait : ∀ j, lCloses s !! j = Some CloseWait -> Forall (fun b => b = false) (lPools s);
  l_done : ∀ j, lCloses s !! j = Some CloseDone -> lWg s = 0 ∧ Forall (fun b => b = true) (lPools s);
  l_marked : lClosed s = true -> ∃ j st, lCloses s !! j = Some st ∧ past st = true
}.

Lemma linv_boot n : linv n (boot n).
Proof.
  constructor; simpl; try (intros; simplify_map_eq; done).
  - by rewrite length_replicate.
  - intros _. split; [intros; simplify_map_eq|]. by apply Forall_replicate.
Qed.

(** The calls may change as long as the wait group follows. *)
Lemma linv_calls n cl wg calls closes pools wg' calls' :
  linv n (mkLife cl wg calls closes pools) ->
  wg' = Z.of_nat (size (in_flight calls')) -> (wg = 0 -> cl = true -> wg' = 0) ->
  linv n (mkLife cl wg' calls' closes pools).
Proof.
  intros [H1 H2 H3 H4 H5 H6 H7 H8] Hw Hz. simpl in *. constructor; simpl; try done.
  - intros j k Hj. destruct (H5 j k Hj) as [Hw0 Hp]. split; [|done].
    apply Hz; [done|]. destruct cl; [done|]. by destruct (H3 eq_refl) as [Hf _]; specialize (Hf _ _ Hj).
  - intros j Hj. destruct (H7 j Hj) as [Hw0 Hp]. split; [|done].
    apply Hz; [done|]. destruct cl; [done|]. by destruct (H3 eq_refl) as [Hf _]; specialize (Hf _ _ Hj).
Qed.

(** A call of [Close] that does not get past its critical section. *)
Lemma linv_close_out n cl wg calls closes pools j st :
  linv n (mkLife cl wg calls closes pools) ->
  (∀ x, closes !! j = Some x -> past x = false) -> past st = false ->
  linv n (mkLife cl wg calls (<[ j := st ]> closes) pools).
Proof.
  intros [H1 H2 H3 H4 H5 H6 H7 H8] Hj Hst. simpl in *.
  assert (∀ i x, <[ j := st ]> closes !! i = Some x -> past x = true -> closes !! i = Some x) as Hold.
  { intros i x [[<- <-]|[_ ?]]%lookup_insert_Some Hx; [congruence|done]. }
  constructor; simpl; try done.
  - intros Hc. destruct (H3 Hc) as [Hf Hp]. split; [|done].
    intros i x [[<- <-]|[_ Hi]]%lookup_insert_Some; [done|by eapply Hf].
  - intros i i' x y Hi Hi' Hx Hy. eapply H4; eauto.
  - intros i k Hi. by apply (H5 i), Hold.
  - intros i Hi. by apply (H6 i), Hold.
  - intros i Hi. by apply (H7 i), Hold.
  - intros Hc. destruct (H8 Hc) as (i & x & Hi & Hx). exists i, x. split; [|done].
    rewrite lookup_insert_ne; [done|]. intros ->. specialize (Hj _ Hi). congruence.
Qed.

(** The one call that is past it advances. *)
Lemma linv_advance n cl wg calls closes pools pools' j x st :
  linv n (mkLife cl wg calls closes pools) ->
  closes !! j = Some x -> past x = true -> past st = true -> length pools' = length pools ->
  (∀ k, st = CloseDrain k -> wg = 0 ∧ ∀ i b, pools' !! i = Some b -> b = true <-> (i < k)%nat) ->
  (st = CloseWait -> Forall (fun b => b = false) pools') ->
  (st = CloseDone -> wg = 0 ∧ Forall (fun b => b = true) pools') ->
  linv n (mkLife cl wg calls (<[ j := st ]> closes) pools').
Proof.
  intros [H1 H2 H3 H4 H5 H6 H7 H8] Hj Hx Hst Hl Hd Hw He. simpl in *.
  assert (cl = true) as ->.
  { destruct cl; [done|]. destruct (H3 eq_refl) as [Hf _]. specialize (Hf _ _ Hj). congruence. }
  assert (∀ i y, <[ j := st ]> closes !! i = Some y -> past y = true -> i = j ∧ y = st) as Hone.
  { intros i y [[<- <-]|[Hne Hi]]%lookup_insert_Some Hy; [done|]. destruct Hne. by eapply (H4 j i). }
  constructor; simpl; try done.
  - lia.
  - intros i i' y y' Hi Hi' Hy Hy'. destruct (Hone _ _ Hi Hy), (Hone _ _ Hi' Hy'). congruence.
  - intros i k Hi. destruct (Hone _ _ Hi eq_refl) as [_ E]. by apply Hd.
  - intros i Hi. destruct (Hone _ _ Hi eq_refl) as [_ E]. by apply Hw.
  - intros i Hi. destruct (Hone _ _ Hi eq_refl) as [_ E]. by apply He.
  - intros _. exists j, st. split; [by rewrite lookup_insert_eq|done].
Qed.

Lemma linv_step n s a s' : linv n s -> lstep s a = Some s' -> linv n s'.
Proof.
  destruct s as [cl wg calls closes pools]. intros Hi H.
  pose proof Hi as [H1 H2 H3 H4 H5 H6 H7 H8]. simpl in *. destruct a as [i|i|i|j|j|j|j].
  - destruct (calls !! i) eqn:E; [done|]. injection H as <-.
    eapply linv_calls; [done| |done]. rewrite H1. f_equal. symmetry. by eapply in_flight_same.
  - destruct (calls !! i) as [[]|] eqn:E; try done. destruct cl; injection H as <-.
    + eapply linv_calls; [done| |done]. rewrite H1. f_equal. symmetry. by eapply in_flight_same.
    + eapply linv_calls; [done| |done]. rewrite (in_flight_enter _ _ _ E) by done. lia.
  - destruct (calls !! i) as [[]|] eqn:E; try done. injection H as <-.
    pose proof (in_flight_leave calls i CallReturned E ltac:(done)).
    eapply linv_calls; [done|lia|lia].
  - destruct (closes !! j) eqn:E; [done|]. injection H as <-. apply linv_close_out; [done|congruence|done].
  - destruct (closes !! j) as [[]|] eqn:E; try done. destruct cl; injection H as <-.
    + apply linv_close_out; [done| |done]. intros x Hx. rewrite E in Hx. by injection Hx as <-.
    + destruct (H3 eq_refl) as [Hf Hp].
      assert (∀ i x, <[ j := CloseWait ]> closes !! i = Some x -> past x = true -> i = j ∧ x = CloseWait) as Hone.
      { intros i x [[<- <-]|[_ Hc]]%lookup_insert_Some Hx; [done|]. specialize (Hf _ _ Hc). congruence. }
      constructor; simpl; try done.
      * intros i i' x y Hx Hy Hpx Hpy. destruct (Hone _ _ Hx Hpx), (Hone _ _ Hy Hpy). congruence.
      * intros i k Hx. by destruct (Hone _ _ Hx eq_refl).
      * intros i Hx. by destruct (Hone _ _ Hx eq_refl).
      * intros _. exists j, CloseWait. by rewrite lookup_insert_eq.
  - destruct (closes !! j) as [[]|] eqn:E; try done. case_decide; [|done]. injection H as <-.
    eapply linv_advance; [done|done|done|done|done| |done|done].
    intros k [= <-]. split; [done|]. intros i b Hb. pose proof (Forall_lookup_1 _ _ _ _ (H6 j E) Hb).
    simpl in *. subst. split; [done|lia].
  - destruct (closes !! j) as [[| |k| |]|] eqn:E; try done. destruct (H5 j k E) as [Hw Hk].
    case_decide as Hlt; injection H as <-.
    + eapply linv_advance; [done|done|done|done|by rewrite length_insert| |done|done].
      intros k' [= <-]. split; [done|]. intros i b Hb.
      destruct (decide (i = k)) as [->|Hne].
      * rewrite list_lookup_insert_eq in Hb by done. simplify_eq. split; [lia|done].
      * rewrite list_lookup_insert_ne in Hb by done. rewrite (Hk i b Hb). lia.
    + eapply linv_advance; [done|done|done|done|done|done|done|].
      intros _. split; [done|]. apply Forall_lookup. intros i b Hb. apply (Hk i b Hb).
      apply lookup_lt_Some in Hb. lia.
Qed.

Lemma linv_run n s acts s' : linv n s -> lrun s acts = Some s' -> linv n s'.
Proof.
  revert s. induction acts as [|a r IH]; intros s Hi H; simpl in H; [by simplify_eq|].
  destruct (lstep s a) as [s1|] eqn:E; [|done]. simpl in H. eapply IH; [by eapply linv_step|done].
Qed.

Lemma idle_no_call s i : lWg s = Z.of_nat (size (in_flight (lCalls s))) -> lWg s = 0 ->
  lCalls s !! i ≠ Some CallInFlight.
Proof.
  intros Hw H0 Hi. assert (in_flight (lCalls s) = ∅) as He by (apply map_size_empty_inv; lia).
  assert (in_flight (lCalls s) !! i = Some CallInFlight) as E by (by apply map_lookup_filter_Some_2).
  by rewrite He in E.
Qed.

(** C25. Closing a publisher drains it first, however calls of [Publish],
    [PublishBatch] and [Close] interleave: no pool is closed while a call is in
    flight, a call that starts after the mark is refused, exactly one [Close]
    does the work and the others return [ErrAlreadyClosed], and a [Close] that
    has returned nil has closed every pool. *)
Theorem publisher_close_drains n acts s :
  lrun (boot n) acts = Some s ->
  (∀ k i, lPools s !! k = Some true -> lCalls s !! i ≠ Some CallInFlight)
  ∧ (∀ j, lCloses s !! j = Some CloseDone ->
       length (lPools s) = n ∧ Forall (fun b => b = true) (lPools s) ∧ ∀ i, lCalls s !! i ≠ Some CallInFlight)
  ∧ (∀ i j x y, lCloses s !! i = Some x -> lCloses s !! j = Some y -> past x = true -> past y = true -> i = j)
  ∧ (lClosed s = true -> ∀ i s', lstep s (Enter i) = Some s' -> lCalls s' !! i = Some CallRefused)
  ∧ (lClosed s = true -> ∀ j s', lstep s (Mark j) = Some s' -> lCloses s' !! j = Some CloseRefused).
Proof.
  intros H. apply (linv_run n) in H as [H1 H2 H3 H4 H5 H6 H7 H8]; [|apply linv_boot].
  split_and!; [..|done| |].
  - intros k i Hk. apply idle_no_call; [done|]. destruct (lClosed s) eqn:Ec.
    + destruct (H8 eq_refl) as (j & st & Hj & Hst). destruct st as [| |k'| |]; try done.
      * pose proof (Forall_lookup_1 _ _ _ _ (H6 j Hj) Hk). done.
      * by apply (H5 j k').
      * by apply (H7 j).
    + pose proof (Forall_lookup_1 _ _ _ _ (proj2 (H3 eq_refl)) Hk). done.
  - intros j Hj. destruct (H7 j Hj) as [Hw Hp]. split_and!; [done..|]. intros i. by apply idle_no_call.
  - intros Hc i s' Hs. destruct s as [cl wg calls closes pools]. simpl in *. subst cl.
    destruct (calls !! i) as [[]|]; try done. injection Hs as <-. simpl. by rewrite lookup_insert_eq.
  - intros Hc j s' Hs. destruct s as [cl wg calls closes pools]. simpl in *. subst cl.
    destruct (closes !! j) as [[]|]; try done. injection Hs as <-. simpl. by rewrite lookup_insert_eq.
Qed.

Lemma drain_finishes s j k :
  lCloses s !! j = Some (CloseDrain k) -> (k <= length (lPools s))%nat ->
  ∃ s', lrun s (replicate (S (length (lPools s) - k)) (ClosePool j)) = Some s'
    ∧ lCloses s' !! j = Some CloseDone.
Proof.
  remember (length (lPools s) - k)%nat as d eqn:Ed. revert s k Ed.
  induction d as [|d IH]; intros [cl wg calls closes pools] k Ed Hj Hk; simpl in *; rewrite Hj.
  - rewrite decide_False by lia. simpl. eexists. split; [done|]. simpl. by rewrite lookup_insert_eq.
  - rewrite decide_True by lia. simpl.
    apply (IH (mkLife cl wg calls (<[ j := CloseDrain (S k) ]> closes) (<[ k := true ]> pools)) (S k)); simpl.
    + rewrite length_insert. lia.
    + by rewrite lookup_insert_eq.
    + rewrite length_insert. lia.
Qed.

(** Once no call is in flight nothing holds a waiting [Close]: it ends after one
    step per pool. *)
Lemma publisher_close_ends s j :
  lCloses s !! j = Some CloseWait -> lWg s = 0 ->
  ∃ s', lrun s (Waited j :: replicate (S (length (lPools s))) (ClosePool j)) = Some s'
    ∧ lCloses s' !! j = Some CloseDone.
Proof.
  intros Hj Hw. destruct s as [cl wg calls closes pools]. cbn [lrun lstep lCloses lWg lPools] in *.
  rewrite Hj, decide_True by done. cbn [mbind option_bind].
  destruct (drain_finishes (mkLife cl wg calls (<[ j := CloseDrain 0 ]> closes) pools) j 0) as (s' & Hs & Hd).
  - simpl. by rewrite lookup_insert_eq.
  - lia.
  - exists s'. split; [|done]. simpl in Hs. by rewrite Nat.sub_0_r in Hs.
Qed.

(** ** Witnesses *)

Definition close_race : list action :=
  [NewCall 1; NewCall 2; Enter 1; NewClose 1; NewClose 2; Mark 1; Enter 2; Mark 2; Leave 1;
   Waited 1; ClosePool 1; ClosePool 1; ClosePool 1].

Definition after_race : life := default (boot 0) (lrun (boot 2) close_race).

Lemma publisher_close_drains_witness :
  lrun (boot 2) close_race = Some after_race
  ∧ (lCalls after_race !! 2%nat, lCloses after_race !! 1%nat, lCloses after_race !! 2%nat)
    = (Some CallRefused, Some CloseDone, Some CloseRefused)
  ∧ Forall (fun b => b = true) (lPools after_race).
Proof.
  assert (lrun (boot 2) close_race = Some after_race) as E by (vm_compute; reflexivity).
  split; [exact E|]. split; [vm_compute; reflexivity|].
  destruct (publisher_close_drains 2 close_race after_race E) as (_ & H & _).
  destruct (H 1%nat) as (_ & Hp & _); [vm_compute; reflexivity|exact Hp].
Defined.

Definition expiring : Message :=
  mkMessage true "m-1" "" "" "" "" "" "text/plain" "" None 3 None 1500999 DeliveryModeTransient 0.

Definition expiring_env : encode_env := mkEncodeEnv (Ok "u"%string) 5 "text/plain" (EncOk 2 ∅ "").

Lemma returned_as_sent_witness :
  let m := set_defaults "m-1" (Some 5) "text/plain" expiring in
  encodeMsg (mkEncoder false "" 0) expiring_env expiring = Ok (m, 2)
  ∧ ∃ exp r, callOnReturn true (mkRaw 312 "NO_ROUTE" "ex" "rk" (buildPublishing m 2)) = Some r
      ∧ rExpiration (Properties r) = exp ∧ 0 <= mExpiration m - exp < millisecond ∧ exp = 1000000.
Proof.
  split; [vm_compute; reflexivity|].
  destruct (returned_as_sent (mkEncoder false "" 0) expiring_env expiring
    (set_defaults "m-1" (Some 5) "text/plain" expiring) 2 312 "NO_ROUTE" "ex" "rk") as (exp & H & He).
  - vm_compute. reflexivity.
  - by intros id [= <-].
  - unfold in_int64, minInt64, maxInt64. simpl. lia.
  - by right.
  - exists exp. eexists. split; [exact H|]. split; [reflexivity|]. split; [exact He|].
    vm_compute in H. injection H as H. symmetry. exact H.
Defined.
