(* ===== verification/Barrier.v ===== *)
(** * Barrier: the per-socket supervisor and the reconnect barrier

    Models, of [src/connection.go], [supervisor], [runBarrier] and
    [waitBarrier].  The supervisor is one goroutine, modelled as a state machine
    at the granularity of its critical sections; the broker, the dialer, the
    hooks and [Close] are the environment.  A publisher in [waitBarrier] is a
    second goroutine with a helper goroutine of its own; the two sides share the
    flags and the condition variable. *)

From S2P Require Import Prelude Errors Redact.

(** ** The supervisor *)

(** Where the supervisor is: at the top of its loop, in the select on socket
    [s], at the label [reconnect], dialling, in [runBarrier] waiting for the
    hooks, at the end of [runBarrier], or gone. *)
Inductive phase : Type :=
| PTop
| PWatch (s : nat) (blockedStart : bool)
| PReconnect
| PDial
| PBarrier
| PSettle
| PExit.

#[global] Instance phase_eq_dec : EqDecision phase.
Proof. solve_decision. Defined.

(** [raw] is the current socket; sockets are numbered in the order of dialling.
    [cancelled] is the supervisor's context; [restored] is a history variable:
    the sockets on which every hook has returned nil. *)
Record conn : Type := mkConn {
  raw : option nat;
  nextSock : nat;
  reconnecting : bool;
  blocked : bool;
  degraded : bool;
  degradedErr : goerror;
  bootDegraded : bool;
  cancelled : bool;
  restored : list nat;
  at_phase : phase
}.

(** The state in which [openPool] starts the supervisor. *)
Definition boot_live : conn := mkConn (Some 0%nat) 1 false false false None false false [0%nat] PTop.
Definition boot_degraded : conn := mkConn None 0 true false false None true false [] PTop.

Definition set_phase (p : phase) (c : conn) : conn :=
  mkConn (raw c) (nextSock c) (reconnecting c) (blocked c) (degraded c) (degradedErr c)
         (bootDegraded c) (cancelled c) (restored c) p.

Definition set_flags (rec blk : bool) (c : conn) : conn :=
  mkConn (raw c) (nextSock c) rec blk (degraded c) (degradedErr c)
         (bootDegraded c) (cancelled c) (restored c) (at_phase c).

Definition set_raw (r : option nat) (next : nat) (c : conn) : conn :=
  mkConn r next (reconnecting c) (blocked c) (degraded c) (degradedErr c)
         (bootDegraded c) (cancelled c) (restored c) (at_phase c).

Definition set_degraded (err : goerror) (done : list nat) (c : conn) : conn :=
  mkConn (raw c) (nextSock c) (reconnecting c) (blocked c) (bool_decide (is_Some err)) err
         (bootDegraded c) (cancelled c) done (at_phase c).

Definition cancel (c : conn) : conn :=
  mkConn (raw c) (nextSock c) (reconnecting c) (blocked c) (degraded c) (degradedErr c)
         (bootDegraded c) true (restored c) (at_phase c).

(** What the supervisor does next, with the answer of its environment. *)
Inductive label : Type :=
| LCancel                      (* Close cancels the context *)
| LTop
| LCtxDone
| LBlocked (active : bool)
| LBlockedClosed
| LClosed (ok : bool)
| LForce                       (* <-forceReconnectCh *)
| LEnter
| LDialled (connected : bool)  (* the result of reconnectRaw *)
| LHooks (hookErr : goerror)
| LBarrierCtx
| LBarrierCap
| LBroadcast.                  (* the last critical section of runBarrier *)

(** [runBarrier]: the select on the hooks, the context and the cap, and the
    final critical section. *)
Definition runBarrier_step (l : label) (c : conn) : option conn :=
  match at_phase c, l with
  | PBarrier, LHooks None =>
      Some (set_phase PSettle
        (set_degraded None (match raw c with Some s => s :: restored c | None => restored c end) c))
  | PBarrier, LHooks (Some err) =>
      Some (set_phase PSettle
        (set_degraded (Some (Wrap [Sentinel ErrTopologyRedeclareFailed; RedactedError err])) (restored c) c))
  | PBarrier, LBarrierCtx =>
      if cancelled c then Some (set_phase PTop (set_flags false (blocked c) c)) else None
  | PBarrier, LBarrierCap => Some (set_phase PTop (set_raw None (nextSock c) c))
  | PSettle, LBroadcast => Some (set_phase PTop (set_flags false (blocked c) c))
  | _, _ => None
  end.

(** [supervisor]. *)
Definition step (l : label) (c : conn) : option conn :=
  match l with
  | LCancel => Some (cancel c)
  | _ =>
      match at_phase c, l with
      | PTop, LTop =>
          match raw c with
          | None => if (bootDegraded c || reconnecting c) && negb (cancelled c)
                    then Some (set_phase PReconnect c) else Some (set_phase PExit c)
          | Some s => Some (set_phase (PWatch s false) c)
          end
      | PWatch _ _, LCtxDone => if cancelled c then Some (set_phase PExit c) else None
      | PWatch s _, LBlocked true => Some (set_phase (PWatch s true) (set_flags (reconnecting c) true c))
      | PWatch s b, LBlocked false =>
          if b then Some (set_phase (PWatch s false) (set_flags (reconnecting c) false c)) else Some c
      | PWatch _ _, LBlockedClosed => Some (set_phase PReconnect c)
      | PWatch _ _, LClosed ok =>
          if negb ok || cancelled c then Some (set_phase PExit c) else Some (set_phase PReconnect c)
      | PWatch _ _, LForce => Some (set_phase PReconnect c)
      | PReconnect, LEnter =>
          if cancelled c then Some (set_phase PExit c)
          else Some (set_phase PDial (set_flags true false c))
      | PDial, LDialled true =>
          Some (set_phase PBarrier (set_raw (Some (nextSock c)) (S (nextSock c)) c))
      | PDial, LDialled false => Some (set_phase PExit (set_flags false (blocked c) c))
      | PBarrier, _ | PSettle, _ => runBarrier_step l c
      | _, _ => None
      end
  end.

(** The transitions that broadcast on the condition variable. *)
Definition broadcasts (l : label) (c : conn) : bool :=
  match at_phase c, l with
  | PWatch _ true, LBlocked false => true
  | PDial, LDialled false => true
  | PBarrier, LBarrierCtx => true
  | PBarrier, LBarrierCap => true
  | PSettle, LBroadcast => true
  | _, _ => false
  end.

(** The transitions with a critical section of [barrierMu]. *)
Definition takes_lock (l : label) : bool :=
  match l with
  | LTop | LBlocked _ | LEnter | LDialled false | LBarrierCtx | LBarrierCap | LBroadcast => true
  | LCancel | LCtxDone | LBlockedClosed | LClosed _ | LForce | LDialled true | LHooks _ => false
  end.

Inductive reachable : conn -> Prop :=
| reach_live : reachable boot_live
| reach_degraded : reachable boot_degraded
| reach_step l c c' : reachable c -> step l c = Some c' -> reachable c'.

Fixpoint steps (ls : list label) (c : conn) : option conn :=
  match ls with
  | [] => Some c
  | l :: r => match step l c with Some c' => steps r c' | None => None end
  end.

(** ** waitBarrier *)

(** The waiter: at the test of the loop with the mutex held; past the creation
    of the helper goroutine but not yet in the condition's queue; in the queue;
    woken; past the loop; returned.  [timer] is the deadline of the helper's
    timer, [fired] tells that the helper has broadcast and exited. *)
Inductive wphase : Type :=
| WCheck
| WSpawned (timer : option Z) (fired : bool)
| WWaiting (timer : option Z) (fired : bool)
| WWoken
| WPassed
| WDone (err : goerror).

Record wait_state : Type := mkWait {
  wConn : conn;
  wPhase : wphase;
  capDeadline : option Z;       (* None: the zero time *)
  wCtxErr : goerror;
  wNow : Z
}.

Definition with_phase (p : wphase) (w : wait_state) : wait_state :=
  mkWait (wConn w) p (capDeadline w) (wCtxErr w) (wNow w).

Definition barrier_up (c : conn) : bool := reconnecting c || blocked c.

(** The head of the loop. *)
Definition wait_check (timeout : Z) (w : wait_state) : wait_state :=
  let c := wConn w in
  if barrier_up c then
    let cap := if reconnecting c
               then Some (default (wNow w + timeout) (capDeadline w)) else None in
    mkWait c (WSpawned (if reconnecting c then cap else None) false) cap (wCtxErr w) (wNow w)
  else with_phase WPassed w.

(** After [Wait] has returned. *)
Definition wait_woken (w : wait_state) : wait_state :=
  let c := wConn w in
  match wCtxErr w with
  | Some e =>
      with_phase (WDone (Some (Wrap [Sentinel (if reconnecting c then ErrReconnecting else ErrConnectionBlocked); e]))) w
  | None =>
      if reconnecting c && bool_decide (default 0 (capDeadline w) <= wNow w)
      then with_phase (WDone (Some (Wrap [Sentinel ErrReconnecting]))) w
      else with_phase WCheck w
  end.

Definition wake (p : wphase) : wphase :=
  match p with WWaiting _ _ => WWoken | _ => p end.

(** The helper goroutine can run: the context is done or its timer has fired. *)
Definition helper_ready (timer : option Z) (w : wait_state) : bool :=
  bool_decide (is_Some (wCtxErr w)) || match timer with Some d => bool_decide (d <= wNow w) | None => false end.

Inductive wstep (timeout : Z) : wait_state -> wait_state -> Prop :=
| ws_check w : wPhase w = WCheck -> wstep timeout w (wait_check timeout w)
| ws_enqueue w t f : wPhase w = WSpawned t f -> wstep timeout w (with_phase (WWaiting t f) w)
| ws_helper_early w t :
    (* the broadcast finds the queue empty *)
    wPhase w = WSpawned t false -> helper_ready t w = true ->
    wstep timeout w (with_phase (WSpawned t true) w)
| ws_helper w t :
    wPhase w = WWaiting t false -> helper_ready t w = true -> wstep timeout w (with_phase WWoken w)
| ws_woken w : wPhase w = WWoken -> wstep timeout w (wait_woken w)
| ws_passed w : wPhase w = WPassed -> wstep timeout w (with_phase (WDone (degradedErr (wConn w))) w)
| ws_conn w l c' :
    (* the supervisor's critical sections need the mutex *)
    (takes_lock l = true -> ∀ t f, wPhase w ≠ WSpawned t f) -> step l (wConn w) = Some c' ->
    wstep timeout w (mkWait c' (if broadcasts l (wConn w) then wake (wPhase w) else wPhase w)
                            (capDeadline w) (wCtxErr w) (wNow w))
| ws_ctx w e : wCtxErr w = None ->
    wstep timeout w (mkWait (wConn w) (wPhase w) (capDeadline w) (Some e) (wNow w))
| ws_tick w d : 0 <= d ->
    wstep timeout w (mkWait (wConn w) (wPhase w) (capDeadline w) (wCtxErr w) (wNow w + d)).

Definition wait_start (c : conn) (now : Z) : wait_state := mkWait c WCheck None None now.

(** ** Lemmas *)

(** The supervisor's invariant. *)
Record conn_inv (c : conn) : Prop := {
  ci_watch : ∀ s b, at_phase c = PWatch s b -> raw c = Some s ∧ reconnecting c = false ∧ blocked c = b;
  ci_busy : at_phase c = PDial ∨ at_phase c = PBarrier ∨ at_phase c = PSettle -> reconnecting c = true ∧ blocked c = false;
  ci_top : at_phase c = PTop -> blocked c = false ∧ (raw c = None -> reconnecting c = true)
             ∧ (is_Some (raw c) -> reconnecting c = false);
  ci_exit : at_phase c = PExit -> reconnecting c = true -> cancelled c = true;
  ci_degraded : degraded c = bool_decide (is_Some (degradedErr c));
  ci_restored : ∀ s, raw c = Some s -> degradedErr c = None -> cancelled c = false ->
                  at_phase c ≠ PBarrier -> s ∈ restored c;
  ci_barrier : at_phase c = PBarrier ∨ at_phase c = PSettle -> is_Some (raw c)
}.

(** Closes the clauses of [conn_inv] that speak of another phase. *)
Ltac phases :=
  simpl in *; intros;
  repeat match goal with
         | H : _ ∨ _ |- _ => destruct H
         end;
  simplify_eq/=; auto.

Lemma boot_live_inv : conn_inv boot_live.
Proof.
  constructor; phases.
  - split; [done|]. split; [done|done].
  - set_solver.
Qed.

Lemma boot_degraded_inv : conn_inv boot_degraded.
Proof. constructor; phases. split; [done|]. split; [done|]. by intros [? ?]. Qed.

Lemma conn_step_inv l c c' : conn_inv c -> step l c = Some c' -> conn_inv c'.
Proof.
  intros [Hw Hb Ht He Hd Hr Hbar] H.
  destruct c as [r nx rec blk deg derr boot can res ph]. simpl in *.
  destruct l as [| | |a| |ok| | |ok|herr| | |]; simpl in H;
    [injection H as <-; constructor; phases|destruct ph as [|s b| | | | |]; unfold runBarrier_step in H; simpl in H; try discriminate H..].
  all: repeat match type of H with
       | context [match ?x with _ => _ end] => destruct x eqn:?
       end; try discriminate H; injection H as <-; constructor; phases.
  all: try (destruct (Ht eq_refl) as (B & N & S)); try (destruct (Hb ltac:(tauto)) as [R B]);
    try (destruct (Hw _ _ eq_refl) as (W1 & W2 & W3)); simplify_eq/=; auto.
  - by destruct boot, can.
  - set_solver.
  - destruct (Hbar ltac:(tauto)) as [s ->]. by repeat split.
  - split; [done|]. split; [done|]. by intros [? ?].
  - destruct (Hbar ltac:(tauto)) as [s ->]. by repeat split.
Qed.

Lemma reachable_inv c : reachable c -> conn_inv c.
Proof.
  induction 1; [apply boot_live_inv|apply boot_degraded_inv|by eapply conn_step_inv].
Qed.

Lemma reachable_steps ls c c' : reachable c -> steps ls c = Some c' -> reachable c'.
Proof.
  revert c. induction ls as [|l ls IH]; intros c Hr H; simpl in H; [by injection H as <-|].
  destruct (step l c) as [c1|] eqn:E; [|done]. eapply IH; [|exact H]. by eapply reach_step.
Qed.

(** Only a transition that broadcasts lowers the barrier. *)
Lemma step_keeps_barrier l c c' :
  conn_inv c -> step l c = Some c' -> broadcasts l c = false -> barrier_up c = true -> barrier_up c' = true.
Proof.
  intros [Hw Hb Ht _ _ _ _] H Hbr Hup. unfold barrier_up in *.
  destruct c as [r nx rec blk deg derr boot can res ph]. simpl in *.
  destruct l as [| | |a| |ok| | |ok|herr| | |]; simpl in H;
    [by injection H as <-|destruct ph as [|s b| | | | |]; unfold runBarrier_step in H; simpl in H; try discriminate H..].
  all: repeat match type of H with
       | context [match ?x with _ => _ end] => destruct x eqn:?
       end; try discriminate H; try discriminate Hbr; injection H as <-; simpl; auto using orb_true_r.
Qed.

(** A transition outside the mutex leaves the flags alone. *)
Lemma step_unlocked l c c' :
  step l c = Some c' -> takes_lock l = false -> barrier_up c' = barrier_up c.
Proof.
  intros H Hl. unfold barrier_up. destruct c as [r nx rec blk deg derr boot can res ph]. simpl in *.
  destruct l as [| | |a| |ok| | |ok|herr| | |]; simpl in H, Hl; try discriminate Hl;
    [by injection H as <-|destruct ph as [|s b| | | | |]; unfold runBarrier_step in H; simpl in H; try discriminate H..].
  all: repeat match type of H with
       | context [match ?x with _ => _ end] => destruct x eqn:?
       end; try discriminate H; try discriminate Hl; by injection H as <-.
Qed.

(** The waiter's invariant: it goes to sleep only behind the barrier. *)
Definition asleep_behind (w : wait_state) : Prop :=
  match wPhase w with
  | WSpawned _ _ | WWaiting _ _ => barrier_up (wConn w) = true
  | _ => True
  end.

Lemma wstep_inv timeout w w' :
  wstep timeout w w' -> reachable (wConn w) -> asleep_behind w -> reachable (wConn w') ∧ asleep_behind w'.
Proof.
  unfold asleep_behind. intros H Hr Hi. destruct H as [w Hp|w t f Hp|w t Hp _|w t Hp _|w Hp|w Hp|w l c' Hlock Hs|w e|w d];
    try rewrite Hp in Hi; simpl in *; try done.
  - unfold wait_check. destruct (barrier_up (wConn w)) eqn:E; simpl; done.
  - unfold wait_woken. destruct (wCtxErr w); [done|]. by destruct (_ && _).
  - split; [by eapply reach_step|]. pose proof (reachable_inv _ Hr) as Hc.
    destruct (broadcasts l (wConn w)) eqn:Hb.
    + destruct (wPhase w) as [|t f|t f| | |] eqn:Hp; simpl; try done.
      destruct (takes_lock l) eqn:Hl; [by destruct (Hlock eq_refl t f)|].
      by rewrite (step_unlocked _ _ _ Hs Hl).
    + destruct (wPhase w) eqn:Hp; try done; by eapply step_keeps_barrier.
Qed.

Lemma wsteps_inv timeout w w' :
  rtc (wstep timeout) w w' -> reachable (wConn w) -> asleep_behind w ->
  reachable (wConn w') ∧ asleep_behind w'.
Proof.
  induction 1 as [|w1 w2 w3 Hst _ IH]; intros Hr Hi; [done|].
  destruct (wstep_inv _ _ _ Hst Hr Hi). auto.
Qed.

(** ** Counterexamples: waiters nobody wakes *)

(** The helper may broadcast before the waiter is in the condition's queue: the
    waiter then sleeps with its context done, and only a broadcast of the
    supervisor can wake it. *)
Definition lost : wait_state :=
  mkWait boot_degraded (WWaiting (Some 30) true) (Some 30) (Some (Sentinel ContextCanceled)) 0.

Lemma helper_wakeup_lost :
  rtc (wstep 30) (wait_start boot_degraded 0) lost
  ∧ ∀ w w' t, wPhase w = WWaiting t true -> wstep 30 w w' ->
      wPhase w' = wPhase w ∨ ∃ l, is_Some (step l (wConn w)) ∧ broadcasts l (wConn w) = true.
Proof.
  split.
  - set (e := Sentinel ContextCanceled).
    eapply rtc_l; [by apply ws_check|]. simpl.
    eapply rtc_l; [by apply (ws_ctx _ _ e)|]. simpl.
    eapply rtc_l; [by eapply ws_helper_early|]. simpl.
    eapply rtc_l; [by eapply ws_enqueue|]. apply rtc_refl.
  - intros w w' t Hp H. destruct H as [w Hw|w t' f Hw|w t' Hw _|w t' Hw _|w Hw|w Hw|w l c' Hlock Hs|w e|w d];
      simpl in *; try congruence; try by left.
    destruct (broadcasts l (wConn w)) eqn:Hb; [|by left]. right. eauto.
Qed.

(** Closing a connection the broker has blocked ends the supervisor with
    [blocked] still set: nothing wakes the publishers that wait behind it. *)
Definition closed_while_blocked : conn :=
  set_phase PExit (cancel (set_phase (PWatch 0 true) (set_flags false true boot_live))).

Lemma close_strands_blocked_publishers :
  reachable closed_while_blocked
  ∧ ∀ l c', step l closed_while_blocked = Some c' ->
            barrier_up c' = true ∧ at_phase c' = PExit ∧ broadcasts l closed_while_blocked = false.
Proof.
  split.
  - apply (reachable_steps [LTop; LBlocked true; LCancel; LCtxDone] boot_live); [apply reach_live|reflexivity].
  - intros l c' H. destruct l as [| | |[]| |[]| | |[]|[]| | |]; try discriminate H. by injection H as <-.
Qed.

(** ** Properties *)

(** C8. Traffic resumes only on a restored socket: in every reachable state of a
    connection that is not being closed, if the barrier is down and no degraded
    error is set, the current socket is one on which every reconnect hook
    (topology and re-subscription) has returned nil, or the one opened at
    [Dial]. *)
Theorem barrier_admits_restored c s :
  reachable c -> barrier_up c = false -> degradedErr c = None -> cancelled c = false ->
  raw c = Some s -> s ∈ restored c.
Proof.
  intros Hr Hb Hd Hc Hs. destruct (reachable_inv c Hr) as [_ Hbusy _ _ _ Hrest _].
  apply Hrest; auto. intros Hp. destruct (Hbusy ltac:(auto)) as [Hrec _].
  unfold barrier_up in Hb. by rewrite Hrec in Hb.
Qed.

(** The barrier is never abandoned: while it is up for a reconnect, the
    supervisor is still at work on it or the connection is being closed; the
    degraded flag always agrees with the error it stands for; and while a
    socket is being watched the barrier is up exactly when the broker has
    blocked it. *)
Lemma barrier_not_abandoned c :
  reachable c ->
  (reconnecting c = true -> cancelled c = true ∨ at_phase c ≠ PExit)
  ∧ (degraded c = true <-> degradedErr c ≠ None)
  ∧ (∀ s b, at_phase c = PWatch s b -> raw c = Some s ∧ barrier_up c = b).
Proof.
  intros Hr. destruct (reachable_inv c Hr) as [Hw _ _ He Hd _ _]. split; [|split].
  - intros Hrec. destruct (decide (at_phase c = PExit)) as [Hp|Hp]; [left; auto|by right].
  - rewrite Hd, bool_decide_eq_true. destruct (degradedErr c); [|by split; intros []].
    split; [done|]. eauto.
  - intros s b Hp. destruct (Hw s b Hp) as (H1 & H2 & H3). split; [done|]. unfold barrier_up. by rewrite H2, H3.
Qed.

(** C31. [waitBarrier] holds callers exactly behind the barrier: in every
    interleaving a caller sleeps only while the barrier is up, gets past the
    loop only at a moment when it is down, and then returns nil only if no
    degraded error is set when it looks. *)
Theorem waitBarrier_sound timeout c now w w' :
  reachable c -> rtc (wstep timeout) (wait_start c now) w -> wstep timeout w w' ->
  (∀ t f, wPhase w = WWaiting t f -> barrier_up (wConn w) = true)
  ∧ (wPhase w ≠ WPassed -> wPhase w' = WPassed -> barrier_up (wConn w) = false)
  ∧ (wPhase w ≠ WDone None -> wPhase w' = WDone None -> degradedErr (wConn w) = None).
Proof.
  intros Hr Hrun Hst. destruct (wsteps_inv _ _ _ Hrun Hr I) as [_ Ha]. split; [|split].
  - intros t f Hp. unfold asleep_behind in Ha. by rewrite Hp in Ha.
  - intros Hne Hp. destruct Hst as [w Hw|w t f Hw|w t Hw _|w t Hw _|w Hw|w Hw|w l c' Hlock Hs|w e|w d];
      simpl in *; try done.
    + unfold wait_check in Hp. by destruct (barrier_up (wConn w)).
    + unfold wait_woken in Hp. destruct (wCtxErr w); [done|]. by destruct (_ && _).
    + destruct (broadcasts _ _); [|done]. by destruct (wPhase w).
  - intros Hne Hp. destruct Hst as [w Hw|w t f Hw|w t Hw _|w t Hw _|w Hw|w Hw|w l c' Hlock Hs|w e|w d];
      simpl in *; try done.
    + unfold wait_check in Hp. by destruct (barrier_up (wConn w)).
    + unfold wait_woken in Hp. destruct (wCtxErr w); [done|]. by destruct (_ && _).
    + by injection Hp as ->.
    + destruct (broadcasts _ _); [|done]. by destruct (wPhase w).
Qed.

(** ** Witnesses *)

(** A socket that failed at boot, was dialled and whose hooks succeeded. *)
Definition brought_up : conn :=
  set_phase PTop (set_flags false false (set_phase PSettle (set_degraded None [0%nat]
    (set_phase PBarrier (set_raw (Some 0%nat) 1 (set_phase PDial (set_flags true false boot_degraded))))))).

Lemma brought_up_reachable : reachable brought_up.
Proof.
  apply (reachable_steps [LTop; LEnter; LDialled true; LHooks None; LBroadcast] boot_degraded);
    [apply reach_degraded|reflexivity].
Qed.

Lemma barrier_restored_witness : 0%nat ∈ restored brought_up.
Proof.
  exact (barrier_admits_restored brought_up 0 brought_up_reachable eq_refl eq_refl eq_refl eq_refl).
Defined.

Lemma barrier_not_abandoned_witness : reconnecting boot_degraded = true ∧ at_phase boot_degraded ≠ PExit.
Proof.
  split; [reflexivity|].
  destruct (barrier_not_abandoned boot_degraded reach_degraded) as [H _].
  destruct (H eq_refl) as [E|E]; [discriminate E|exact E].
Defined.

Lemma waitBarrier_witness :
  ∃ w, rtc (wstep 30) (wait_start boot_degraded 0) w ∧ barrier_up (wConn w) = true
       ∧ ∃ t f, wPhase w = WWaiting t f.
Proof.
  exists (mkWait boot_degraded (WWaiting (Some 30) false) (Some 30) None 0).
  assert (rtc (wstep 30) (wait_start boot_degraded 0)
            (mkWait boot_degraded (WWaiting (Some 30) false) (Some 30) None 0)) as Hr.
  { eapply rtc_l; [by apply ws_check|]. simpl. eapply rtc_l; [by eapply ws_enqueue|]. apply rtc_refl. }
  split; [exact Hr|]. split; [|by do 2 eexists].
  destruct (waitBarrier_sound 30 boot_degraded 0 _ _ reach_degraded Hr (ws_tick _ _ 0 (Z.le_refl 0))) as [H _].
  exact (H (Some 30) false eq_refl).
Defined.
