(* ===== verification/Recovery.v ===== *)
(** * Recovery: consumers behind the reconnect barrier

    Composes the supervisor of [Barrier] with the subscriptions of any number of
    consumers ([Subscription]) that share its socket, through the list of
    reconnect hooks: [registerHook], the goroutine of [runBarrier] that calls
    the hooks in order under [hookCtx], and the hook each consumer registers in
    [runConsume] ([src/connection.go], [src/consumer.go]).

    Every step of the system is a step of one part, or of the supervisor with
    the goroutine it starts, so what is proved of the parts holds here.  Hooks
    of other clients of the connection (topologies, batch consumers) are
    answered by the environment. *)

From S2P Require Import Prelude Errors Redact Subscription SubscriptionInv Barrier.

(** ** Data *)

(** An entry of [mc.hooks]. *)
Inductive hook : Type := HConsume (q : nat) | HOther (n : nat).

(** A goroutine of [runBarrier]: the copy of [mc.hooks] it ranges over, the
    number of hooks that have returned nil, the call in progress, [hookErrCh],
    and whether [hookCancel] was called.  [rSock] is history: the socket whose
    barrier it is. *)
Record hookRun : Type := mkRun {
  rSock : nat;
  rHooks : list hook;
  rDone : nat;
  rCall : option nat;
  rResult : option goerror;
  rCancelled : bool
}.

(** A consumer of the connection.  History: the socket each of its channels was
    opened on, the subscriptions its loop has received from [resubCh], and the
    number of sockets dialled when it registered its hook. *)
Record consumer : Type := mkConsumer {
  cState : Subscription.state;
  cSock : gmap nat nat;
  cTaken : list nat;
  cSince : option nat
}.

(** [current] is the goroutine [runBarrier] is waiting for. *)
Record sys : Type := mkSys {
  link : conn;
  hooksList : list hook;
  runs : list hookRun;
  current : option nat;
  consumers : gmap nat consumer
}.

(** ** Operations *)

Definition with_consumer (q : nat) (x : consumer) (s : sys) : sys :=
  {| s with consumers := <[ q := x ]> (consumers s) |}.
Definition with_run (i : nat) (r : hookRun) (s : sys) : sys :=
  {| s with runs := <[ i := r ]> (runs s) |}.
Definition with_link (c : conn) (s : sys) : sys := {| s with link := c |}.

(** [hookCtx.Done()]: it is derived from the supervisor's context. *)
Definition hookCtx_done (r : hookRun) (s : sys) : bool := rCancelled r || Barrier.cancelled (link s).

Definition arm_ready (arm : hook_arm) (r : hookRun) (s : sys) : bool :=
  match arm with KCtx => hookCtx_done r s | _ => true end.

(** [registerHook]. *)
Definition registerHook (h : hook) (s : sys) : sys := {| s with hooksList := hooksList s ++ [h] |}.

(** The head of [runBarrier]: the hooks are copied and the goroutine started. *)
Definition runBarrier_start (s : sys) : option sys :=
  match at_phase (link s), current s, raw (link s) with
  | PBarrier, None, Some sock =>
      Some {| s with runs := runs s ++ [mkRun sock (hooksList s) 0 None None false];
                     current := Some (length (runs s)) |}
  | _, _, _ => None
  end.

(** [hookCancel] and the return of [runBarrier]. *)
Definition hookCancel (s : sys) : sys :=
  match current s with
  | Some i => {| s with runs := alter (fun r => {| r with rCancelled := true |}) i (runs s); current := None |}
  | None => s
  end.

(** A step of the supervisor; [runBarrier] waits in its select and settles only
    with the goroutine started. *)
Definition link_step (l : Barrier.label) (s : sys) : option sys :=
  match Barrier.step l (link s) with
  | None => None
  | Some c =>
      match l, current s with
      | LHooks _, _ => None
      | LBarrierCtx, Some _ | LBarrierCap, Some _ | LBroadcast, Some _ => Some (hookCancel (with_link c s))
      | LBarrierCtx, None | LBarrierCap, None | LBroadcast, None => None
      | _, _ => Some (with_link c s)
      end
  end.

(** [hookErr = <-hookErrCh]. *)
Definition receive_hookErr (s : sys) : option sys :=
  match current s with
  | Some i =>
      match runs s !! i with
      | Some r =>
          match rResult r with
          | Some err => flip with_link s <$> Barrier.step (LHooks err) (link s)
          | None => None
          end
      | None => None
      end
  | None => None
  end.

(** The goroutine after a hook has returned [err]. *)
Definition hook_returned (err : goerror) (r : hookRun) : hookRun :=
  match err with
  | None => {| r with rDone := S (rDone r); rCall := None |}
  | Some _ => {| r with rCall := None; rResult := Some err |}
  end.

(** What the hook of a consumer returns when [arm] ended it. *)
Definition hook_error (arm : hook_arm) : goerror :=
  match arm with
  | KCtx => Some (Sentinel ContextCanceled)
  | KOpenCall a => open_error a
  | KTimer | KHandoff => None
  end.

(** A step of consumer [x] that opens a channel opens it on the current socket;
    without one [openChannel] fails. *)
Definition consumer_moves (sock : option nat) (x : consumer) (st : Subscription.state) : option consumer :=
  let n := nextId (cState x) in
  if decide (is_Some (chans st !! n))
  then (fun k => {| x with cState := st; cSock := <[ n := k ]> (cSock x) |}) <$> sock
  else Some {| x with cState := st |}.

(** [isReconnecting] reads the supervisor's flag. *)
Definition observe (s : sys) (x : consumer) : consumer :=
  let st := cState x in
  {| x with cState := {| st with Subscription.reconnecting := Barrier.reconnecting (link s) |} |}.

(** The loop registers its hook as it starts, and takes what is in [resubCh]. *)
Definition registers (l : Subscription.label) (st : Subscription.state) : bool :=
  match l, main st with LMain MNext, MIdle => true | _, _ => false end.

Definition takes (l : Subscription.label) (st : Subscription.state) : option nat :=
  match l with LMain MResub => resubCh st | _ => None end.

(** History: what the step took, and that it registered the hook. *)
Definition note (l : Subscription.label) (st : Subscription.state) (dialled : nat) (x : consumer) : consumer :=
  {| x with cTaken := match takes l st with Some j => j :: cTaken x | None => cTaken x end;
            cSince := if registers l st then Some dialled else cSince x |}.

(** Steps of a consumer that are not the run of its hook. *)
Definition own_label (l : Subscription.label) : bool :=
  match l with LHook _ _ | LEnv EHook | LEnv (EReconnecting _) => false | _ => true end.

Section system.
Context (cfgs : nat -> config).

Definition consumer_step (q : nat) (l : Subscription.label) (s : sys) : option sys :=
  match observe s <$> consumers s !! q with
  | Some x =>
      match own_label l, Subscription.step (cfgs q) l (cState x) with
      | true, Some st =>
          match consumer_moves (raw (link s)) x st with
          | Some y =>
              let s' := with_consumer q (note l (cState x) (nextSock (link s)) y) s in
              Some (if registers l (cState x) then registerHook (HConsume q) s' else s')
          | None => None
          end
      | _, _ => None
      end
  | None => None
  end.

(** The goroutine of [runBarrier] calls its next hook, or sends the result. *)
Definition call_hook (i : nat) (s : sys) : option sys :=
  match runs s !! i with
  | Some r =>
      match rCall r, rResult r, rHooks r !! rDone r with
      | None, None, None => Some (with_run i {| r with rResult := Some None |} s)
      | None, None, Some (HConsume q) =>
          match consumers s !! q with
          | Some x =>
              match Subscription.step (cfgs q) (LEnv EHook) (cState x) with
              | Some st => Some (with_run i {| r with rCall := Some (length (hooks (cState x))) |}
                                   (with_consumer q {| x with cState := st |} s))
              | None => None
              end
          | None => None
          end
      | _, _, _ => None
      end
  | None => None
  end.

(** The hook of another client returns. *)
Definition other_hook (i : nat) (err : goerror) (s : sys) : option sys :=
  match runs s !! i with
  | Some r =>
      match rCall r, rResult r, rHooks r !! rDone r with
      | None, None, Some (HOther _) => Some (with_run i (hook_returned err r) s)
      | _, _, _ => None
      end
  | None => None
  end.

(** A step of the consumer's hook. *)
Definition consumer_hook (i : nat) (arm : hook_arm) (s : sys) : option sys :=
  match runs s !! i with
  | Some r =>
      match rCall r, rHooks r !! rDone r with
      | Some h, Some (HConsume q) =>
          match consumers s !! q, arm_ready arm r s with
          | Some x, true =>
              match Subscription.step (cfgs q) (LHook h arm) (cState x) with
              | Some st =>
                  match consumer_moves (raw (link s)) x st with
                  | Some y =>
                      let s' := with_consumer q y s in
                      Some (match hooks st !! h with
                            | Some KDone => with_run i (hook_returned (hook_error arm) r) s'
                            | _ => s'
                            end)
                  | None => None
                  end
              | None => None
              end
          | _, _ => None
          end
      | _, _ => None
      end
  | None => None
  end.

Inductive rlabel : Type :=
| RLink (l : Barrier.label)
| RStart
| RReceive
| RCall (i : nat)
| ROther (i : nat) (err : goerror)
| RHook (i : nat) (arm : hook_arm)
| RConsumer (q : nat) (l : Subscription.label)
| RRegister (n : nat).

Definition rstep (l : rlabel) (s : sys) : option sys :=
  match l with
  | RLink l => link_step l s
  | RStart => runBarrier_start s
  | RReceive => receive_hookErr s
  | RCall i => call_hook i s
  | ROther i err => other_hook i err s
  | RHook i arm => consumer_hook i arm s
  | RConsumer q l => consumer_step q l s
  | RRegister n => Some (registerHook (HOther n) s)
  end.

(** Consumers [qs] on a connection that booted live or degraded. *)
Definition connected (c : conn) (qs : list nat) : sys :=
  mkSys c [] [] None (list_to_map ((fun q => (q, mkConsumer (initial (cfgs q)) ∅ [] None)) <$> qs)).

Inductive recovers : sys -> Prop :=
| rec_live qs : recovers (connected boot_live qs)
| rec_degraded qs : recovers (connected boot_degraded qs)
| rec_step l s s' : recovers s -> rstep l s = Some s' -> recovers s'.

Fixpoint rsteps (ls : list rlabel) (s : sys) : option sys :=
  match ls with
  | [] => Some s
  | l :: r => match rstep l s with Some s' => rsteps r s' | None => None end
  end.

(** ** Lemmas: what no step takes back *)

(** Subscription [j] of the consumer waits in [resubCh] or was received. *)
Definition handed (x : consumer) (j : nat) : Prop :=
  resubCh (cState x) = Some j ∨ j ∈ cTaken x.

Record grows (x y : consumer) : Prop := {
  gr_subs : keeps (fun z z' => onChan z' = onChan z) (subs (cState x)) (subs (cState y));
  gr_sock : cSock x ⊆ cSock y;
  gr_handed : ∀ j, handed x j -> handed y j;
  gr_since : is_Some (cSince x) -> cSince y = cSince x
}.

#[local] Instance grows_preorder : PreOrder grows.
Proof.
  split.
  - intros x. split; [apply keeps_refl; intros ?; done|done|done|done].
  - intros x y z [H1 H2 H3 H4] [K1 K2 K3 K4]. split; [|by etrans|by auto|].
    + intros j a Ha. destruct (H1 _ _ Ha) as (b & Hb & E1). destruct (K1 _ _ Hb) as (d & Hd & E2).
      exists d. split; [done|congruence].
    + intros H. rewrite K4; [by apply H4|by rewrite H4].
Qed.

(** Consumer [q] has a subscription on socket [sock], which its loop has
    received or finds in [resubCh]. *)
Definition resubscribed (x : consumer) (sock : nat) : Prop :=
  ∃ j z, subs (cState x) !! j = Some z ∧ cSock x !! onChan z = Some sock ∧ handed x j.

Lemma resubscribed_grows x y sock : grows x y -> resubscribed x sock -> resubscribed y sock.
Proof.
  intros [H1 H2 H3 _] (j & z & Hz & Hk & Hh). destruct (H1 _ _ Hz) as (z' & Hz' & E).
  exists j, z'. split_and!; [done|rewrite E; by eapply lookup_weaken|by apply H3].
Qed.

(** The subscriptions, as [Subscription] sees them. *)
Record consumer_ok (q : nat) (x : consumer) : Prop := {
  co_reachable : Subscription.reachable (cfgs q) (cState x);
  co_sock : ∀ k n, cSock x !! k = Some n -> (k < nextId (cState x))%nat;
  co_since : is_Some (cSince x) -> started (cState x) = true
}.

Lemma observe_ok q s x : consumer_ok q x -> consumer_ok q (observe s x).
Proof.
  intros [H1 H2 H3]. split; [|done|done].
  by apply (Subscription.reach_step _ _ (LEnv (EReconnecting (Barrier.reconnecting (link s)))) _ H1).
Qed.

Lemma observe_grows s x : grows x (observe s x).
Proof. by split; [apply keeps_refl; intros ?|..]. Qed.

(** A full [resubCh] is emptied by the loop alone. *)
Lemma resubCh_step c l st st' j :
  Subscription.step c l st = Some st' -> resubCh st = Some j ->
  resubCh st' = Some j ∨ takes l st = Some j.
Proof. intros H Hr. step_cases H; simpl; try (by left); try congruence; right; congruence. Qed.

Lemma started_step c l st st' :
  Subscription.step c l st = Some st' ->
  (started st = true -> started st' = true ∧ registers l st = false)
  ∧ (registers l st = true -> started st' = true) ∧ (nextId st <= nextId st')%nat.
Proof.
  intros H. unfold registers. step_cases H; simpl; try (split_and!; [done..|lia]).
  all: try match goal with E : main _ = _ |- _ => rewrite ?E end; try (split_and!; [by try (split; [done|]; destruct (main st))|done|lia]).
Qed.

(** ** Lemmas: a step of a consumer *)

(** The channel a hook has opened, and the subscription on it, are on [sock]. *)
Definition phase_ok (sock : nat) (x : consumer) (p : hook_phase) : Prop :=
  match p with
  | KOpen (OPublish k) => cSock x !! k = Some sock
  | KSend j => ∃ z, subs (cState x) !! j = Some z ∧ cSock x !! onChan z = Some sock
  | _ => True
  end.

Lemma moves_state sock x st y : consumer_moves sock x st = Some y ->
  cState y = st ∧ cTaken y = cTaken x ∧ cSince y = cSince x
  ∧ (cSock y = cSock x ∧ chans st !! nextId (cState x) = None
     ∨ ∃ k, sock = Some k ∧ cSock y = <[ nextId (cState x) := k ]> (cSock x)
            ∧ is_Some (chans st !! nextId (cState x))).
Proof.
  unfold consumer_moves. case_decide as Hd.
  - destruct sock as [k|]; [|done]. intros [= <-]. naive_solver.
  - intros [= <-]. apply eq_None_not_Some in Hd. naive_solver.
Qed.

Lemma moves_sock q sock x st y :
  consumer_ok q x -> consumer_moves sock x st = Some y -> cSock x ⊆ cSock y.
Proof.
  intros Hx (_ & _ & _ & [[-> _]|(k & _ & -> & _)])%moves_state; [done|].
  apply insert_subseteq, eq_None_not_Some. intros [n Hn]. apply (co_sock _ _ Hx) in Hn. lia.
Qed.

Lemma step_new_chan c l st st' k :
  Subscription.step c l st = Some st' -> is_Some (chans st' !! k) -> is_Some (chans st !! k) ∨ k = nextId st ∧ (nextId st < nextId st')%nat.
Proof.
  intros H [h Hh]. step_cases H; simpl in *; try (left; by eexists).
  all: apply lookup_insert_Some in Hh as [[<- _]|[_ Hh]]; try (left; by eexists).
  all: right; lia.
Qed.

(** The history apart, a step of the consumer and its bookkeeping. *)
Lemma moves_grows q l sock dialled x st y :
  consumer_ok q x -> Subscription.step (cfgs q) l (cState x) = Some st ->
  consumer_moves sock x st = Some y ->
  grows x (note l (cState x) dialled y) ∧ consumer_ok q (note l (cState x) dialled y).
Proof.
  intros Hx Hs Hm. pose proof (moves_sock _ _ _ _ _ Hx Hm) as Hk.
  apply moves_state in Hm as (Est & Etk & Esn & Hsock).
  destruct (started_step _ _ _ _ Hs) as (H1 & H2 & H3). pose proof Hx as [Hr Ho Hc].
  pose proof (inv_fresh _ _ (reachable_subscription _ _ Hr)) as Hf.
  destruct (step_evolves _ _ _ _ Hf Hs) as [_ Hsub _ _].
  split; split; simpl; rewrite ?Est, ?Esn.
  - intros j z Hz. destruct (Hsub _ _ Hz) as (z' & Hz' & [E _ _ _]). eauto.
  - done.
  - intros j [Hj|Hj]; unfold handed; simpl; rewrite ?Est, ?Etk.
    + destruct (resubCh_step _ _ _ _ _ Hs Hj) as [|Ht]; [by left|]. rewrite Ht. set_solver.
    + right. destruct (takes l (cState x)); set_solver.
  - intros Hi. destruct (H1 (Hc Hi)) as [_ ->]. done.
  - by eapply Subscription.reach_step.
  - destruct Hsock as [[-> _]|(k & _ & -> & Hn)]; intros k' n Hk'.
    + apply Ho in Hk'. lia.
    + apply lookup_insert_Some in Hk' as [[<- _]|[_ Hk']]; [|apply Ho in Hk'; lia].
      destruct (step_new_chan _ _ _ _ _ Hs Hn) as [[h Hh]|[_ ?]]; [|lia].
      destruct (Hf (nextId (cState x)) (le_n _)) as [_ E]. congruence.
  - destruct (registers l (cState x)) eqn:E; [by intros _; apply H2|]. intros Hi. by apply H1, Hc.
Qed.

Lemma hook_change c l st st' h p :
  Subscription.step c l st = Some st' -> hooks st' !! h = Some p ->
  hooks st !! h = Some p ∨ p = KJitter ∨ p = KOpen ORotate ∨ p = KOpen OCall ∨ p = KDone
  ∨ (p = KOpen (OPublish (nextId st)) ∧ is_Some (chans st' !! nextId st))
  ∨ ∃ k, hooks st !! h = Some (KOpen (OPublish k)) ∧ p = KSend (nextId st)
         ∧ subs st' !! nextId st = Some (new_sub k).
Proof.
  intros H Hh. step_cases H; simpl in *; try (by left).
  all: try (apply list_lookup_insert_Some in Hh as [(<- & <- & _)|[_ Hh]]; [|by left]).
  all: rewrite ?lookup_insert_eq; try (by naive_solver).
  apply lookup_app_Some in Hh as [Hh|[_ Hh]]; [by left|].
  apply list_lookup_singleton_Some in Hh as [_ <-]. naive_solver.
Qed.

(** Whoever runs the hook, on [sock] its channel and subscription are on [sock]. *)
Lemma moves_phase q l sock dialled x st y h :
  consumer_ok q x -> Subscription.step (cfgs q) l (cState x) = Some st ->
  consumer_moves (Some sock) x st = Some y ->
  (∀ p, hooks (cState x) !! h = Some p -> phase_ok sock x p) ->
  ∀ p, hooks st !! h = Some p -> phase_ok sock (note l (cState x) dialled y) p.
Proof.
  intros Hx Hs Hm Hp p Hh.
  destruct (moves_grows _ _ _ dialled _ _ _ Hx Hs Hm) as [[Gs Gk _ _] _].
  apply moves_state in Hm as (Est & _ & _ & Hsock).
  assert (phase_ok sock x p -> phase_ok sock (note l (cState x) dialled y) p) as Hkeep.
  { destruct p as [|[]|j|]; simpl; try done.
    - intros Ek. by eapply lookup_weaken.
    - intros (z & Hz & Ek). destruct (Gs _ _ Hz) as (z' & Hz' & E). exists z'.
      split; [done|]. rewrite E. by eapply lookup_weaken. }
  destruct (hook_change _ _ _ _ _ _ Hs Hh) as [Ho|[->|[->|[->|[->|[[-> Hn]|(k & Ho & -> & Hz)]]]]]];
    [by apply Hkeep, Hp|done..| |].
  - destruct Hsock as [[_ E]|(k & [= <-] & E & _)]; [destruct Hn; congruence|].
    simpl. by rewrite E, lookup_insert_eq.
  - exists (new_sub k). simpl. rewrite Est. split; [done|]. apply Hp in Ho. by eapply lookup_weaken.
Qed.

(** The hook of a consumer returns nil only after its hand-off. *)
Lemma hook_nil c h arm st st' :
  Subscription.step c (LHook h arm) st = Some st' -> hooks st' !! h = Some KDone -> hook_error arm = None ->
  ∃ j, hooks st !! h = Some (KSend j) ∧ resubCh st = None ∧ resubCh st' = Some j.
Proof.
  simpl. unfold hook_step. intros H Hh He.
  destruct (hooks st !! h) as [p|] eqn:E; [|by destruct arm].
  assert (∀ p' st1, hooks (hook_goto h p' st1) = <[ h := p' ]> (hooks st1)) as Hg by done.
  pose proof (lookup_lt_Some _ _ _ E) as Hl.
  destruct p as [|o|j|], arm as [| |a|]; try discriminate H; try discriminate He.
  - injection H as <-. rewrite Hg, list_lookup_insert_eq in Hh by done. done.
  - simpl in He. unfold openDeliveryCh in H. destruct o; rewrite ?He in H; [..|destruct (mu st); [done|]];
      injection H as <-; rewrite Hg, list_lookup_insert_eq in Hh by done; done.
  - destruct (resubCh st); [done|]. injection H as <-. by exists j.
Qed.

(** ** Lemmas: the invariant of the system *)

Definition resub (s : sys) (q sock : nat) : Prop :=
  ∃ x, consumers s !! q = Some x ∧ resubscribed x sock.

(** The goroutine the barrier waits for: the hooks it has passed have
    resubscribed their consumers on its socket. *)
Record run_safe (s : sys) (r : hookRun) : Prop := {
  rs_done : ∀ p q, (p < rDone r)%nat -> rHooks r !! p = Some (HConsume q) -> resub s q (rSock r);
  rs_call : ∀ h q x p, rCall r = Some h -> rHooks r !! rDone r = Some (HConsume q) ->
    consumers s !! q = Some x -> hooks (cState x) !! h = Some p -> phase_ok (rSock r) x p;
  rs_result : rResult r = Some None -> (length (rHooks r) <= rDone r)%nat
}.

(** Consumer [q] registered its hook before [sock] was dialled. *)
Definition since (s : sys) (q sock : nat) : Prop :=
  ∃ x n, consumers s !! q = Some x ∧ cSince x = Some n ∧ (n <= sock)%nat.

Record rinv (s : sys) : Prop := {
  ri_link : Barrier.reachable (link s);
  ri_raw : ∀ k, raw (link s) = Some k ∨ k ∈ restored (link s) -> (k < nextSock (link s))%nat;
  ri_phase : is_Some (current s) -> at_phase (link s) = PBarrier ∨ at_phase (link s) = PSettle;
  ri_current : ∀ i, current s = Some i ->
    ∃ r, runs s !! i = Some r ∧ raw (link s) = Some (rSock r) ∧ run_safe s r;
  ri_runs : ∀ i r, runs s !! i = Some r -> (rSock r < nextSock (link s))%nat
    ∧ ∀ q, since s q (rSock r) -> HConsume q ∈ rHooks r;
  ri_hooks : ∀ q sock, since s q sock -> HConsume q ∈ hooksList s;
  ri_consumers : ∀ q x, consumers s !! q = Some x -> consumer_ok q x;
  ri_restored : ∀ q k, k ∈ restored (link s) -> since s q k -> resub s q k
}.

Lemma resub_keeps s s' q k : keeps grows (consumers s) (consumers s') -> resub s q k -> resub s' q k.
Proof.
  intros Hk (x & Hx & Hr). destruct (Hk _ _ Hx) as (y & Hy & Hg). exists y.
  split; [done|]. by eapply resubscribed_grows.
Qed.

(** A step that leaves the supervisor alone: the consumers grow, a run keeps its
    socket and its hooks, and a new hook is registered at the end. *)
Record quiet (s s' : sys) : Prop := {
  qu_link : link s' = link s;
  qu_current : current s' = current s;
  qu_hooks : hooksList s ⊆ hooksList s';
  qu_runs : ∀ i r', runs s' !! i = Some r' ->
    ∃ r, runs s !! i = Some r ∧ rSock r' = rSock r ∧ rHooks r' = rHooks r;
  qu_grows : keeps grows (consumers s) (consumers s');
  qu_consumers : ∀ q y, consumers s' !! q = Some y -> consumer_ok q y
    ∧ ((∃ x, consumers s !! q = Some x ∧ cSince y = cSince x)
       ∨ cSince y = Some (nextSock (link s)) ∧ HConsume q ∈ hooksList s')
}.

Lemma rinv_quiet s s' :
  rinv s -> quiet s s' -> (∀ i r, current s' = Some i -> runs s' !! i = Some r -> run_safe s' r) ->
  (∀ i, is_Some (runs s !! i) -> is_Some (runs s' !! i)) -> rinv s'.
Proof.
  intros [Hl Hr Hp Hc Hu Hh Hk Hs] [El Ec Eh Er Eg Ek] Hsafe Hruns.
  assert (∀ q k, (k < nextSock (link s))%nat -> since s' q k -> since s q k) as Hsince.
  { intros q k Hlt (y & n & Hy & Hn & Hle). destruct (Ek _ _ Hy) as [_ [(x & Hx & E)|[E _]]].
    - exists x, n. split_and!; [done|congruence|done].
    - rewrite E in Hn. simplify_eq. lia. }
  split; rewrite ?El, ?Ec; try done.
  - intros i Hi. destruct (Hc _ Hi) as (r & Hr0 & Hraw & _).
    destruct (Hruns i) as [r' Hr']; [by eexists|]. destruct (Er _ _ Hr') as (r1 & Hr1 & E1 & _).
    exists r'. split_and!; [done|rewrite E1; congruence|]. eapply Hsafe; [by rewrite Ec|done].
  - intros i r' Hr'. destruct (Er _ _ Hr') as (r & Hr0 & -> & ->). destruct (Hu _ _ Hr0) as [Hlt Hq].
    split; [done|]. intros q Hq'. apply Hq, Hsince; done.
  - intros q sock (y & n & Hy & Hn & Hle). destruct (Ek _ _ Hy) as [_ [(x & Hx & E)|[_ E]]]; [|done].
    apply Eh, (Hh _ sock). exists x, n. split_and!; [done|congruence|done].
  - intros q y Hy. by apply Ek.
  - intros q k Hk' Hq. apply (resub_keeps s); [done|]. apply Hs; [done|]. apply Hsince; [|done]. by apply Hr; right.
Qed.

Lemma note_id l st n y : takes l st = None -> registers l st = false -> note l st n y = y.
Proof. unfold note. intros -> ->. by destruct y. Qed.

(** A consumer that moves keeps the goroutine of the barrier safe. *)
Lemma run_safe_moves s s' q x y r :
  run_safe s r -> consumers s !! q = Some x -> consumers s' = <[ q := y ]> (consumers s) -> grows x y ->
  (∀ h, (∀ p, hooks (cState x) !! h = Some p -> phase_ok (rSock r) x p) ->
        ∀ p, hooks (cState y) !! h = Some p -> phase_ok (rSock r) y p) ->
  run_safe s' r.
Proof.
  intros [Hd Hc Hr] Hx Ec Hg Hp. split; [| |done].
  - intros p q' Hlt Hq. eapply resub_keeps; [|by eapply Hd]. rewrite Ec. by eapply (keeps_insert grows).
  - intros h q' x' p Hh Hq. rewrite Ec. intros [[<- <-]|[_ Hx']]%lookup_insert_Some; [|by eauto].
    apply Hp. intros p' Hp'. by eapply Hc.
Qed.

(** The goroutine after a hook: a nil result is one that resubscribed. *)
Lemma run_safe_returned s r err :
  run_safe s r -> (err = None -> ∀ q, rHooks r !! rDone r = Some (HConsume q) -> resub s q (rSock r)) ->
  run_safe s (hook_returned err r).
Proof.
  intros [Hd Hc Hr] He. destruct err as [e|]; split; simpl; try done.
  - intros p q Hlt Hq. destruct (decide (p = rDone r)) as [->|]; [by apply He|]. apply (Hd p); [lia|done].
  - intros H. specialize (Hr H). lia.
Qed.

(** A consumer that moves leaves the rest alone. *)
Lemma quiet_consumer s s' q x y :
  rinv s -> consumers s !! q = Some x -> grows x y -> consumer_ok q y ->
  cSince y = cSince x ∨ cSince y = Some (nextSock (link s)) ∧ HConsume q ∈ hooksList s' ->
  link s' = link s -> current s' = current s -> hooksList s ⊆ hooksList s' ->
  consumers s' = <[ q := y ]> (consumers s) ->
  (∀ i r', runs s' !! i = Some r' -> ∃ r, runs s !! i = Some r ∧ rSock r' = rSock r ∧ rHooks r' = rHooks r) ->
  quiet s s'.
Proof.
  intros Hi Hx Hg Hy Hs El Ec Eh Ek Er. split; try done.
  - rewrite Ek. by eapply (keeps_insert grows).
  - intros q' y'. rewrite Ek. intros [[<- <-]|[_ Hy']]%lookup_insert_Some; [split; [done|]|split].
    + destruct Hs as [Hs|Hs]; [left; by exists x|by right].
    + by eapply ri_consumers.
    + left. by exists y'.
Qed.

Lemma quiet_run s i r r' : runs s !! i = Some r -> rSock r' = rSock r -> rHooks r' = rHooks r ->
  ∀ k t', <[ i := r' ]> (runs s) !! k = Some t' -> ∃ t, runs s !! k = Some t ∧ rSock t' = rSock t ∧ rHooks t' = rHooks t.
Proof.
  intros Hr E1 E2 k t' [(<- & <- & _)|[_ Hk]]%list_lookup_insert_Some; [by exists r|by exists t'].
Qed.

Lemma consumer_step_inv q l s s' : rinv s -> consumer_step q l s = Some s' -> rinv s'.
Proof.
  intros Hi H. unfold consumer_step in H.
  destruct (consumers s !! q) as [x0|] eqn:Hx0; [|done]. change (observe s <$> Some x0) with (Some (observe s x0)) in H.
  pose proof (observe_ok _ s _ (ri_consumers _ Hi _ _ Hx0)) as Hx.
  pose proof (observe_grows s x0) as Hg0.
  assert (hooks (cState (observe s x0)) = hooks (cState x0)) as Hho by done.
  assert (∀ k p, phase_ok k x0 p -> phase_ok k (observe s x0) p) as Hpo by (by intros ? [|[]| |]).
  assert (cSince (observe s x0) = cSince x0) as Hc0 by done.
  set (x := observe s x0) in *. clearbody x.
  destruct (own_label l); [|done]. destruct (Subscription.step (cfgs q) l (cState x)) as [st|] eqn:Hs; [|done].
  destruct (consumer_moves (raw (link s)) x st) as [y|] eqn:Hm; [|done].
  destruct (moves_grows _ _ _ (nextSock (link s)) _ _ _ Hx Hs Hm) as [Hg Hy].
  assert (∀ s1, link s1 = link s -> current s1 = current s -> runs s1 = runs s ->
    hooksList s ⊆ hooksList s1 ->
    consumers s1 = <[ q := note l (cState x) (nextSock (link s)) y ]> (consumers s) ->
    (registers l (cState x) = true -> HConsume q ∈ hooksList s1) -> rinv s1) as Hmain.
  { intros s1 E1 E2 E3 E4 E5 E6. apply (rinv_quiet s); [done| | |by rewrite E3].
    - apply (quiet_consumer s s1 q x0 (note l (cState x) (nextSock (link s)) y) Hi Hx0); try done; [by etrans| |by rewrite E3; eauto].
      apply moves_state in Hm as (_ & _ & Esn & _). simpl. rewrite Esn, Hc0.
      destruct (registers l (cState x)); [right; auto|by left].
    - rewrite E2, E3. intros i r Hi' Hr. destruct (ri_current _ Hi _ Hi') as (r' & Hr' & Hraw & Hsafe).
      simplify_eq. eapply (run_safe_moves s s1 q x0); [done|done|exact E5|by etrans|].
      rewrite Hraw in Hm. intros h Hp p Hh. eapply moves_phase; [done|done|done| |].
      + intros p' Hp'. rewrite Hho in Hp'. by apply Hpo, Hp.
      + by apply moves_state in Hm as [<- _]. }
  injection H as <-. destruct (registers l (cState x)) eqn:Er; apply Hmain; simpl; try done; set_solver.
Qed.

(** The goroutines the barrier no longer waits for are not concerned. *)
Lemma rinv_run s s' i r r' :
  rinv s -> runs s !! i = Some r -> rSock r' = rSock r -> rHooks r' = rHooks r ->
  link s' = link s -> current s' = current s -> hooksList s' = hooksList s -> runs s' = <[ i := r' ]> (runs s) ->
  keeps grows (consumers s) (consumers s') ->
  (∀ q y, consumers s' !! q = Some y -> consumer_ok q y ∧ ∃ x, consumers s !! q = Some x ∧ cSince y = cSince x) ->
  (current s = Some i -> run_safe s r -> run_safe s' r') ->
  (∀ j t, current s = Some j -> j ≠ i -> run_safe s t -> raw (link s) = Some (rSock t) -> run_safe s' t) ->
  rinv s'.
Proof.
  intros Hi Hr E1 E2 El Ec Eh Er Eg Ek Hs Ho. apply (rinv_quiet s); [done| | |].
  - split; try done; [by rewrite Eh| |].
    + rewrite Er. by eapply quiet_run.
    + intros q y Hy. destruct (Ek _ _ Hy) as [? ?]. auto.
  - rewrite Ec, Er. intros j t Hj Ht. destruct (ri_current _ Hi _ Hj) as (t0 & Ht0 & Hraw & Hsafe).
    apply list_lookup_insert_Some in Ht as [(-> & -> & _)|[Hne Ht]].
    + apply Hs; [done|]. by simplify_eq.
    + simplify_eq. by apply (Ho j).
  - intros j. rewrite Er. intros [t Ht]. apply lookup_lt_is_Some. rewrite length_insert. by apply lookup_lt_Some in Ht.
Qed.

Lemma run_safe_same s s' r : consumers s' = consumers s -> run_safe s r -> run_safe s' r.
Proof. intros E [H1 H2 H3]. split; unfold resub in *; rewrite ?E; done. Qed.

Lemma keeps_consumers s : keeps grows (consumers s) (consumers s).
Proof. apply (keeps_refl grows). Qed.

Lemma same_consumers s : rinv s ->
  ∀ q y, consumers s !! q = Some y -> consumer_ok q y ∧ ∃ x, consumers s !! q = Some x ∧ cSince y = cSince x.
Proof. intros Hi q y Hy. split; [by eapply ri_consumers|by exists y]. Qed.

Lemma moved_consumers s q x y : rinv s -> consumers s !! q = Some x -> consumer_ok q y -> cSince y = cSince x ->
  ∀ q' y', <[ q := y ]> (consumers s) !! q' = Some y' ->
    consumer_ok q' y' ∧ ∃ x', consumers s !! q' = Some x' ∧ cSince y' = cSince x'.
Proof.
  intros Hi Hx Hy E q' y' [[<- <-]|[_ Hy']]%lookup_insert_Some; [by eauto|].
  by apply same_consumers.
Qed.

Lemma other_hook_inv i err s s' : rinv s -> other_hook i err s = Some s' -> rinv s'.
Proof.
  intros Hi H. unfold other_hook in H. branches H. injection H as <-.
  match goal with E : runs s !! i = Some ?r |- _ =>
    apply (rinv_run s _ i r (hook_returned err r) Hi E) end; try done; try by destruct err.
  - exact (keeps_consumers s).
  - exact (same_consumers s Hi).
  - intros _ Hs. apply run_safe_returned; [by apply (run_safe_same s)|]. intros _ q Hq. simplify_eq.
  - intros. by apply (run_safe_same s).
Qed.

Lemma EHook_moves q sock x st :
  consumer_ok q x -> Subscription.step (cfgs q) (LEnv EHook) (cState x) = Some st ->
  hooks st = hooks (cState x) ++ [KJitter] ∧ consumer_moves sock x st = Some {| x with cState := st |}.
Proof.
  intros [Hr _ _] H. destruct (inv_fresh _ _ (reachable_subscription _ _ Hr) _ (le_n _)) as [_ Hn].
  simpl in H. destruct (started (cState x)); [|done]. injection H as <-. split; [done|].
  unfold consumer_moves. rewrite decide_False; [done|]. simpl. rewrite Hn. by intros [? ?].
Qed.

Lemma call_hook_inv i s s' : rinv s -> call_hook i s = Some s' -> rinv s'.
Proof.
  intros Hi H. unfold call_hook in H. destruct (runs s !! i) as [r|] eqn:Hr; [|done].
  destruct (rCall r) eqn:Hc; [done|]. destruct (rResult r) eqn:Hres; [done|].
  destruct (rHooks r !! rDone r) as [[q|]|] eqn:Hh; [|done|].
  - destruct (consumers s !! q) as [x|] eqn:Hx; [|done].
    destruct (Subscription.step _ _ _) as [st|] eqn:Hs; [|done]. injection H as <-.
    pose proof (ri_consumers _ Hi _ _ Hx) as Hok.
    destruct (EHook_moves _ (Some (rSock r)) _ _ Hok Hs) as [Hk Hm].
    destruct (moves_grows _ _ _ 0 _ _ _ Hok Hs Hm) as [Hg Hy]. rewrite note_id in Hg, Hy by done.
    assert (∀ t, run_safe s t -> run_safe (with_consumer q {| x with cState := st |} s) t) as Hsafe.
    { intros t Ht. eapply (run_safe_moves s _ q x); [done|done|done|done|]. intros h Hp p Hh'.
      destruct (EHook_moves _ (Some (rSock t)) _ _ Hok Hs) as [_ Hm'].
      pose proof (moves_phase _ _ _ 0 _ _ _ h Hok Hs Hm' Hp p Hh') as H. by rewrite note_id in H by done. }
    apply (rinv_run s _ i r {| r with rCall := Some (length (hooks (cState x))) |} Hi Hr); simpl; rewrite ?Hres; try done.
    + by eapply (keeps_insert grows).
    + by eapply moved_consumers.
    + intros _ Ht. apply Hsafe in Ht as [H1 H2 H3]. split; [done| |done].
      simpl. intros h q' x' p [= <-] Hq Hx' Hp. rewrite Hh in Hq. simplify_eq.
      rewrite lookup_insert_eq in Hx'. simplify_eq. simpl in Hp.
      rewrite Hk, lookup_app_r, Nat.sub_diag in Hp by lia. injection Hp as <-. done.
    + intros j t _ _ Ht _. eapply run_safe_same; [|by apply Hsafe]. done.
  - injection H as <-. apply (rinv_run s _ i r {| r with rResult := Some None |} Hi Hr); simpl; rewrite ?Hc; try done.
    + exact (keeps_consumers s).
    + exact (same_consumers s Hi).
    + intros _ [H1 H2 H3]. split; [done| |intros _; by apply lookup_ge_None]. simpl. congruence.
    + intros. by apply (run_safe_same s).
Qed.

Lemma consumer_hook_inv i arm s s' : rinv s -> consumer_hook i arm s = Some s' -> rinv s'.
Proof.
  intros Hi H. unfold consumer_hook in H. destruct (runs s !! i) as [r|] eqn:Hr; [|done].
  destruct (rCall r) as [h|] eqn:Hc; [|done]. destruct (rHooks r !! rDone r) as [[q|]|] eqn:Hh; [|done|done].
  destruct (consumers s !! q) as [x|] eqn:Hx; [|done]. destruct (arm_ready arm r s); [|done].
  destruct (Subscription.step _ _ _) as [st|] eqn:Hs; [|done].
  destruct (consumer_moves _ _ _) as [y|] eqn:Hm; [|done].
  pose proof (ri_consumers _ Hi _ _ Hx) as Hok.
  destruct (moves_grows _ _ _ 0 _ _ _ Hok Hs Hm) as [Hg Hy]. rewrite note_id in Hg, Hy by done.
  destruct (moves_state _ _ _ _ Hm) as (Est & _ & Esn & _).
  assert (∀ t, raw (link s) = Some (rSock t) -> run_safe s t -> run_safe (with_consumer q y s) t) as Hsafe.
  { intros t Hraw Ht. eapply (run_safe_moves s _ q x); [done|done|done|done|]. intros h' Hp p Hh'.
    rewrite Hraw in Hm. rewrite Est in Hh'.
    pose proof (moves_phase _ _ _ 0 _ _ _ h' Hok Hs Hm Hp p Hh') as H'. by rewrite note_id in H' by done. }
  assert (∀ r', rSock r' = rSock r -> rHooks r' = rHooks r ->
    (raw (link s) = Some (rSock r) -> run_safe s r -> run_safe (with_consumer q y s) r') ->
    rinv (with_run i r' (with_consumer q y s))) as Hmain.
  { intros r' E1 E2 Hr'. eapply (rinv_run s _ i r r' Hi Hr E1 E2); simpl; try done.
    - by eapply (keeps_insert grows).
    - by eapply moved_consumers.
    - intros Hcur Hsf. destruct (ri_current _ Hi _ Hcur) as (r0 & Hr0 & Hraw & _). simplify_eq.
      by apply (run_safe_same (with_consumer q y s)); [|apply Hr'].
    - intros j t _ _ Ht Hraw. by eapply (run_safe_same (with_consumer q y s)); [|apply Hsafe]. }
  assert (rinv (with_consumer q y s)) as Hplain.
  { replace (with_consumer q y s) with (with_run i r (with_consumer q y s)).
    - by apply Hmain; [| |apply Hsafe].
    - unfold with_run, with_consumer. simpl. by rewrite list_insert_id. }
  destruct (hooks st !! h) as [[]|] eqn:Hd; injection H as <-; try done.
  apply Hmain; [by destruct (hook_error arm)..|]. intros Hraw Hsf. apply run_safe_returned; [by apply Hsafe|].
  intros He q' Hq'. simplify_eq. destruct (hook_nil _ _ _ _ _ Hs Hd He) as (j & Hj & _ & Hch).
  destruct (rs_call _ _ Hsf _ _ _ _ Hc Hh Hx Hj) as (z & Hz & Hk).
  exists y. simpl. rewrite lookup_insert_eq. split; [done|].
  destruct (gr_subs _ _ Hg _ _ Hz) as (z' & Hz' & Ez). exists j, z'. split_and!; [done| |by left].
  rewrite Ez. eapply lookup_weaken; [done|apply Hg].
Qed.

(** The supervisor's part: only the return of [runBarrier] leaves the barrier. *)
Definition leaves_barrier (l : Barrier.label) : bool :=
  match l with LBarrierCtx | LBarrierCap | LBroadcast => true | _ => false end.

Lemma link_effect l c c' :
  Barrier.step l c = Some c' ->
  (nextSock c <= nextSock c')%nat
  ∧ (∀ k, raw c' = Some k -> raw c = Some k ∨ (k < nextSock c')%nat)
  ∧ (restored c' = restored c ∨ l = LHooks None ∧ ∃ k, raw c = Some k ∧ restored c' = k :: restored c)
  ∧ (at_phase c = PBarrier ∨ at_phase c = PSettle -> leaves_barrier l = false ->
     raw c' = raw c ∧ (at_phase c' = PBarrier ∨ at_phase c' = PSettle)).
Proof.
  destruct c as [rw nx rec blk deg derr bt can res ph]. unfold Barrier.step, runBarrier_step. simpl.
  destruct l as [| | |a| |ok| | |ok|herr| | |];
    [intros [= <-]; simpl; split_and!; [lia|auto..]|destruct ph as [|sk b| | | | |]; simpl; try discriminate..].
  all: repeat match goal with
         | |- context [match ?b with _ => _ end] => destruct b eqn:?; try discriminate
         end.
  all: intros [= <-]; simpl; split_and!; try lia; auto.
  all: try (intros [?|?]; discriminate).
  all: try (intros k [= <-]; right; lia).
  all: try (right; split; [done|]; by eexists).
  all: naive_solver.
Qed.

Lemma rinv_link l s s' :
  rinv s -> Barrier.step l (link s) = Some (link s') -> consumers s' = consumers s -> hooksList s' = hooksList s ->
  (∀ i r', runs s' !! i = Some r' -> ∃ r, runs s !! i = Some r ∧ rSock r' = rSock r ∧ rHooks r' = rHooks r) ->
  current s' = None ∨ current s' = current s ∧ runs s' = runs s ∧ leaves_barrier l = false ->
  (l = LHooks None -> ∀ q k, raw (link s) = Some k -> since s q k -> resub s q k) -> rinv s'.
Proof.
  intros [Hl Hr Hp Hc Hu Hh Hk Hs] Hstep Ek Eh Er Ec Hnew.
  destruct (link_effect _ _ _ Hstep) as (Hn & Hraw & Hrest & Hbar).
  assert (∀ q k, since s' q k -> since s q k) as Hsince by (unfold since; by rewrite Ek).
  assert (∀ q k, resub s q k -> resub s' q k) as Hresub by (unfold resub; by rewrite Ek).
  split.
  - by eapply Barrier.reach_step.
  - intros k [Hk'|Hk'].
    + destruct (Hraw _ Hk') as [H|H]; [|done]. specialize (Hr k (or_introl H)). lia.
    + destruct Hrest as [E|(_ & k0 & E0 & E)]; rewrite E in Hk'; [specialize (Hr k (or_intror Hk')); lia|].
      apply elem_of_cons in Hk' as [->|Hk']; [specialize (Hr _ (or_introl E0))|specialize (Hr _ (or_intror Hk'))]; lia.
  - intros Hi. destruct Ec as [E|(E & _ & Hlb)]; rewrite E in Hi; [by destruct Hi|].
    by apply Hbar; [apply Hp|].
  - intros i Hi. destruct Ec as [E|(E & E' & Hlb)]; rewrite E in Hi; [done|].
    destruct (Hc _ Hi) as (r & Hr0 & Hraw0 & Hsf). exists r. rewrite E'.
    destruct Hbar as [-> _]; [by apply Hp|done|]. split_and!; [done|done|by apply (run_safe_same s)].
  - intros i r' Hr'. destruct (Er _ _ Hr') as (r & Hr0 & -> & ->). destruct (Hu _ _ Hr0) as [H1 H2].
    split; [lia|auto].
  - intros q sock Hq. rewrite Eh. eauto.
  - rewrite Ek. done.
  - intros q k Hk' Hq. apply Hsince in Hq. apply Hresub.
    destruct Hrest as [E|(-> & k0 & E0 & E)]; rewrite E in Hk'; [by apply Hs|].
    apply elem_of_cons in Hk' as [->|Hk']; [by apply Hnew|by apply Hs].
Qed.

Lemma same_runs (rs : list hookRun) :
  ∀ i r', rs !! i = Some r' -> ∃ r, rs !! i = Some r ∧ rSock r' = rSock r ∧ rHooks r' = rHooks r.
Proof. intros i r Hr. by exists r. Qed.

Lemma cancelled_runs (rs : list hookRun) n :
  ∀ i r', alter (fun r => {| r with rCancelled := true |}) n rs !! i = Some r' ->
  ∃ r, rs !! i = Some r ∧ rSock r' = rSock r ∧ rHooks r' = rHooks r ∧ rDone r' = rDone r ∧ rResult r' = rResult r.
Proof.
  intros i r' Hr. destruct (decide (n = i)) as [->|].
  - rewrite list_lookup_alter, decide_True in Hr by done. apply fmap_Some in Hr as (r & Hr & ->). by exists r.
  - rewrite list_lookup_alter_ne in Hr by done. by exists r'.
Qed.

Lemma link_step_inv l s s' : rinv s -> link_step l s = Some s' -> rinv s'.
Proof.
  intros Hi H. unfold link_step in H. destruct (Barrier.step l (link s)) as [c|] eqn:Hs; [|done].
  assert (l ≠ LHooks None) as Hl by (intros ->; done).
  destruct (leaves_barrier l) eqn:Hlb.
  - destruct (current s) as [i|] eqn:Hc; [|by destruct l].
    assert (s' = hookCancel (with_link c s)) as -> by (by destruct l; simplify_eq/=).
    unfold hookCancel. simpl. rewrite Hc.
    eapply (rinv_link l s); simpl; try done; [|by left].
    intros k r' (r & ? & ? & ? & _)%cancelled_runs. by exists r.
  - assert (s' = with_link c s) as -> by (by destruct l; simplify_eq/=).
    eapply (rinv_link l s); simpl; try done; [apply same_runs|by right].
Qed.

Lemma receive_hookErr_inv s s' : rinv s -> receive_hookErr s = Some s' -> rinv s'.
Proof.
  intros Hi H. unfold receive_hookErr in H. destruct (current s) as [i|] eqn:Hc; [|done].
  destruct (ri_current _ Hi _ Hc) as (r & Hr & Hraw & [Hd _ Hres]). rewrite Hr in H.
  destruct (rResult r) as [err|] eqn:He; [|done].
  destruct (Barrier.step (LHooks err) (link s)) as [c|] eqn:Hs; [|done]. injection H as <-.
  eapply (rinv_link (LHooks err) s); simpl; try done; [apply same_runs|by right|].
  intros [= ->] q k Hk Hq. simplify_eq.
  destruct (ri_runs _ Hi _ _ Hr) as [_ Hcov]. apply Hcov in Hq.
  apply list_elem_of_lookup in Hq as [p Hp]. eapply Hd; [|done].
  apply lookup_lt_Some in Hp. specialize (Hres eq_refl). lia.
Qed.

Lemma start_inv s s' : rinv s -> runBarrier_start s = Some s' -> rinv s'.
Proof.
  intros [Hl Hr Hp Hc Hu Hh Hk Hs] H. unfold runBarrier_start in H.
  destruct (at_phase (link s)) eqn:Hph; try done. destruct (current s) eqn:Hcur; [done|].
  destruct (raw (link s)) as [sock|] eqn:Hraw; [|done]. injection H as <-.
  split; simpl; try done.
  - rewrite Hraw. intros k Hk'. by apply Hr.
  - intros _. by left.
  - intros i [= <-]. eexists. rewrite lookup_app_r, Nat.sub_diag by lia. split_and!; [done|done|].
    split; simpl; [lia|done|done].
  - intros i r Hr'. apply lookup_app_Some in Hr' as [Hr'|[_ Hr']]; [by eapply Hu|].
    apply list_lookup_singleton_Some in Hr' as [_ <-]. simpl. split; [by apply Hr; left|].
    intros q Hq. by eapply Hh.
Qed.

Lemma register_inv n s : rinv s -> rinv (registerHook (HOther n) s).
Proof.
  intros [Hl Hr Hp Hc Hu Hh Hk Hs]. split; simpl; try done.
  - intros i Hi. destruct (Hc _ Hi) as (r & ? & ? & ?). exists r. split_and!; [done|done|by apply (run_safe_same s)].
  - intros q sock Hq. apply elem_of_app. left. by eapply Hh.
Qed.

Lemma rstep_inv l s s' : rinv s -> rstep l s = Some s' -> rinv s'.
Proof.
  destruct l; simpl; intros Hi H; [by eapply link_step_inv|by eapply start_inv|by eapply receive_hookErr_inv
    |by eapply call_hook_inv|by eapply other_hook_inv|by eapply consumer_hook_inv|by eapply consumer_step_inv|].
  injection H as <-. by apply register_inv.
Qed.

Lemma connected_inv c qs :
  Barrier.reachable c -> at_phase c = PTop -> (∀ k, raw c = Some k ∨ k ∈ restored c -> (k < nextSock c)%nat) ->
  rinv (connected c qs).
Proof.
  intros Hl Hp Hr.
  assert (∀ q x, consumers (connected c qs) !! q = Some x -> x = mkConsumer (initial (cfgs q)) ∅ [] None) as Hx.
  { intros q x Hq%elem_of_list_to_map_2. apply list_elem_of_fmap in Hq as (q' & [= -> ->] & _). done. }
  assert (∀ q k, since (connected c qs) q k -> False) as Hn.
  { intros q k (x & n & Hq & Hn & _). apply Hx in Hq as ->. done. }
  split; try done; try (by intros ? ? ?; exfalso; eauto).
  - by intros [? ?].
  - intros q x ->%Hx. split; simpl; [apply Subscription.reach_initial|by intros k n; rewrite lookup_empty|by intros [? ?]].
  - intros q k _ Hq. by apply Hn in Hq.
Qed.

Lemma recovers_inv s : recovers s -> rinv s.
Proof.
  induction 1 as [qs|qs|l s s' _ IH Hs]; [apply connected_inv..|by eapply rstep_inv].
  all: try apply Barrier.reach_live; try apply Barrier.reach_degraded; try done.
  all: simpl; intros k [Hk|Hk]; try (injection Hk as <-); set_solver by lia.
Qed.

(** ** Lemmas: a consumer that has returned *)

(** Consumer [q] has returned with a subscription left in [resubCh]. *)
Definition gone (s : sys) (q : nat) : Prop :=
  ∃ x e j, consumers s !! q = Some x ∧ main (cState x) = MReturned e ∧ resubCh (cState x) = Some j.

(** No goroutine of a socket from [n] on passes the hook of [q]. *)
Record stuck (q n : nat) (s : sys) : Prop := {
  st_gone : gone s q;
  st_hooks : HConsume q ∈ hooksList s;
  st_next : (n <= nextSock (link s))%nat;
  st_runs : ∀ i r, runs s !! i = Some r -> (n <= rSock r)%nat ->
    rResult r ≠ Some None ∧ ∃ p, rHooks r !! p = Some (HConsume q) ∧ (rDone r <= p)%nat;
  st_restored : ∀ k, k ∈ restored (link s) -> (k < n)%nat
}.

Lemma gone_moves s s' q q' x y st l :
  gone s q -> consumers s !! q' = Some x -> Subscription.step (cfgs q') l (cState x) = Some st ->
  cState y = st -> consumers s' = <[ q' := y ]> (consumers s) -> gone s' q.
Proof.
  intros (x0 & e & j & Hx0 & Hm & Hj) Hx Hs Hy E. destruct (decide (q = q')) as [->|Hne].
  - simplify_eq. destruct (returned_keeps_resub _ _ _ _ _ _ Hm Hj Hs) as [Hm' Hj'].
    exists y, e, j. by rewrite E, lookup_insert_eq.
  - exists x0, e, j. rewrite E, lookup_insert_ne by done. done.
Qed.

Lemma gone_same s s' q : consumers s' = consumers s -> gone s q -> gone s' q.
Proof. unfold gone. by intros ->. Qed.

(** A hook other than that of [q] returns: the goroutine comes no further than [q]. *)
Lemma stuck_returned r err q p h :
  rHooks r !! rDone r = Some h -> h ≠ HConsume q ∨ err ≠ None -> rResult r ≠ Some None ->
  rHooks r !! p = Some (HConsume q) -> (rDone r <= p)%nat ->
  rResult (hook_returned err r) ≠ Some None ∧ ∃ p', rHooks (hook_returned err r) !! p' = Some (HConsume q) ∧ (rDone (hook_returned err r) <= p')%nat.
Proof.
  intros Hh Hne Hr Hp Hle. destruct err; (split; [done|]); exists p; (split; [done|]); simpl; [lia|].
  destruct (decide (rDone r = p)) as [E|]; [|lia]. rewrite E in Hh. destruct Hne as [Hne|Hne]; congruence.
Qed.

Lemma stuck_run q n s s' i r r' :
  stuck q n s -> runs s !! i = Some r -> rSock r' = rSock r -> link s' = link s -> hooksList s' = hooksList s ->
  runs s' = <[ i := r' ]> (runs s) -> gone s' q ->
  (rResult r ≠ Some None -> ∀ p, rHooks r !! p = Some (HConsume q) -> (rDone r <= p)%nat ->
   rResult r' ≠ Some None ∧ ∃ p', rHooks r' !! p' = Some (HConsume q) ∧ (rDone r' <= p')%nat) -> stuck q n s'.
Proof.
  intros [_ Hh Hn Hr Hs] Hi E El Eh Er Hg Hstep. split; rewrite ?El, ?Eh; try done.
  rewrite Er. intros k t [(<- & <- & _)|[_ Hk]]%list_lookup_insert_Some Hle; [|by eapply Hr].
  rewrite E in Hle. destruct (Hr _ _ Hi Hle) as (H1 & p & H2 & H3). by eapply Hstep.
Qed.

Lemma stuck_link q n l s s' :
  stuck q n s -> Barrier.step l (link s) = Some (link s') -> consumers s' = consumers s -> hooksList s' = hooksList s ->
  (∀ i r', runs s' !! i = Some r' -> ∃ r, runs s !! i = Some r ∧ rSock r' = rSock r ∧ rHooks r' = rHooks r
     ∧ rDone r' = rDone r ∧ rResult r' = rResult r) ->
  (l = LHooks None -> ∀ k, raw (link s) = Some k -> (k < n)%nat) -> stuck q n s'.
Proof.
  intros [Hg Hh Hn Hr Hs] Hstep Ek Eh Er Hnew. destruct (link_effect _ _ _ Hstep) as (Hle & _ & Hrest & _). split.
  - by eapply gone_same.
  - by rewrite Eh.
  - lia.
  - intros i r' Hr' Hge. destruct (Er _ _ Hr') as (r & Hr0 & E1 & E2 & E3 & E4).
    rewrite E1 in Hge. rewrite E2, E3, E4. by eapply Hr.
  - intros k Hk. destruct Hrest as [E|(-> & k0 & E0 & E)]; rewrite E in Hk; [by apply Hs|].
    apply elem_of_cons in Hk as [->|Hk]; [by apply Hnew|by apply Hs].
Qed.

Lemma stuck_link_step q n l s s' : stuck q n s -> link_step l s = Some s' -> stuck q n s'.
Proof.
  intros Hst H. unfold link_step in H. destruct (Barrier.step l (link s)) as [c|] eqn:Hb; [|done].
  assert (l ≠ LHooks None) as Hl by (intros ->; done).
  assert (s' = with_link c s ∨ s' = hookCancel (with_link c s)) as Hs'
    by (destruct l, (current s); simplify_eq; auto).
  apply (stuck_link q n l s); [done|..|done]; destruct Hs' as [->| ->]; unfold hookCancel; simpl;
    try (destruct (current s); done).
  - intros k r' Hk. by exists r'.
  - destruct (current s); simpl; [|by intros k r' Hk; exists r'].
    intros k r' Hk. exact (cancelled_runs _ _ _ _ Hk).
Qed.

Lemma stuck_start q n s s' : stuck q n s -> runBarrier_start s = Some s' -> stuck q n s'.
Proof.
  intros [Hg Hh Hn Hr Hs] H. unfold runBarrier_start in H.
  destruct (at_phase (link s)); try done. destruct (current s); [done|].
  destruct (raw (link s)) as [sock|]; [|done]. injection H as <-. split; simpl; try done.
  intros i r [Hk|[_ Hk]]%lookup_app_Some Hle; [by eapply Hr|].
  apply list_lookup_singleton_Some in Hk as [_ <-]. simpl. split; [done|].
  apply list_elem_of_lookup in Hh as [p Hp]. exists p. split; [done|lia].
Qed.

Lemma stuck_receive q n s s' : rinv s -> stuck q n s -> receive_hookErr s = Some s' -> stuck q n s'.
Proof.
  intros Hi Hst H. unfold receive_hookErr in H. destruct (current s) as [i|] eqn:Hc; [|done].
  destruct (ri_current _ Hi _ Hc) as (r & Hri & Hraw & _). rewrite Hri in H.
  destruct (rResult r) as [err|] eqn:He; [|done].
  destruct (Barrier.step (LHooks err) (link s)) as [c|] eqn:Hb; [|done]. injection H as <-.
  eapply (stuck_link q n (LHooks err) s); simpl; try done; [intros k r' Hk; by exists r'|].
  intros [= ->] k Hk. simplify_eq. destruct (decide (n <= rSock r)%nat) as [Hle|]; [|lia].
  by destruct (st_runs _ _ _ Hst _ _ Hri Hle) as [? _].
Qed.

Lemma stuck_call q n i s s' : stuck q n s -> call_hook i s = Some s' -> stuck q n s'.
Proof.
  intros Hst H. unfold call_hook in H. destruct (runs s !! i) as [r|] eqn:Hri; [|done].
  destruct (rCall r); [done|]. destruct (rResult r) eqn:He; [done|].
  destruct (rHooks r !! rDone r) as [[q'|]|] eqn:Hd; [|done|].
  - destruct (consumers s !! q') as [x|] eqn:Hx; [|done].
    destruct (Subscription.step _ _ _) as [st|] eqn:Hss; [|done]. injection H as <-.
    apply (stuck_run q n s _ i r {| r with rCall := Some (length (hooks (cState x))); rResult := None |}); simpl; try done.
    { by apply (gone_moves s _ q q' x {| x with cState := st |} st (LEnv EHook)); [apply Hst|..]. }
    intros _ p H1 H2. eauto.
  - injection H as <-. apply (stuck_run q n s _ i r {| r with rCall := None; rResult := Some None |}); simpl; try done;
      [apply (gone_same s); [done|apply Hst]|].
    intros _ p H1 H2. apply lookup_ge_None in Hd. apply lookup_lt_Some in H1. lia.
Qed.

Lemma stuck_other q n i err s s' : stuck q n s -> other_hook i err s = Some s' -> stuck q n s'.
Proof.
  intros Hst H. unfold other_hook in H. destruct (runs s !! i) as [r|] eqn:Hri; [|done].
  destruct (rCall r); [done|]. destruct (rResult r) eqn:He; [done|].
  destruct (rHooks r !! rDone r) as [[q'|]|] eqn:Hd; [done| |done]. injection H as <-.
  eapply (stuck_run q n s _ i r (hook_returned err r)); simpl; try done;
    [by destruct err|apply (gone_same s); [done|apply Hst]|].
  intros _ p H1 H2. eapply stuck_returned; [done|by left|by rewrite He|done|done].
Qed.

Lemma stuck_hook q n i arm s s' : stuck q n s -> consumer_hook i arm s = Some s' -> stuck q n s'.
Proof.
  intros Hst H. pose proof Hst as [Hg _ _ _ _]. unfold consumer_hook in H.
  destruct (runs s !! i) as [r|] eqn:Hri; [|done].
  destruct (rCall r) as [h|]; [|done]. destruct (rHooks r !! rDone r) as [[q'|]|] eqn:Hd; [|done|done].
  destruct (consumers s !! q') as [x|] eqn:Hx; [|done]. destruct (arm_ready arm r s); [|done].
  destruct (Subscription.step _ _ _) as [st|] eqn:Hss; [|done].
  destruct (consumer_moves _ _ _) as [y|] eqn:Hm; [|done]. apply moves_state in Hm as (Est & _ & _ & _).
  assert (gone (with_consumer q' y s) q) as Hg' by by eapply gone_moves.
  destruct (hooks st !! h) as [[]|] eqn:Hk; injection H as <-; try (by destruct Hst; split).
  eapply (stuck_run q n s _ i r (hook_returned (hook_error arm) r)); simpl; try done; [by destruct (hook_error arm)|].
  intros Hres p H1 H2. eapply stuck_returned; [done| |done|done|done].
  destruct (decide (q = q')) as [<-|]; [right|left; congruence].
  intros E. destruct (hook_nil _ _ _ _ _ Hss Hk E) as (j & _ & Hnone & _).
  destruct Hg as (x0 & e & j0 & Hx0 & _ & Hj0). congruence.
Qed.

Lemma stuck_consumer q n q' l s s' : stuck q n s -> consumer_step q' l s = Some s' -> stuck q n s'.
Proof.
  intros [Hg Hh Hn Hr Hs] H. unfold consumer_step in H. destruct (consumers s !! q') as [x|] eqn:Hx; [|done].
  change (observe s <$> Some x) with (Some (observe s x)) in H.
  destruct (own_label l); [|done]. destruct (Subscription.step _ _ _) as [st|] eqn:Hss; [|done].
  destruct (consumer_moves _ _ _) as [y|] eqn:Hm; [|done]. apply moves_state in Hm as (Est & _ & _ & _).
  assert (gone (with_consumer q' (observe s x) s) q) as Hgo
    by by apply (gone_moves s _ q q' x (observe s x) (cState (observe s x)) (LEnv (EReconnecting (Barrier.reconnecting (link s))))).
  assert (∀ s1, consumers s1 = <[ q' := note l (cState (observe s x)) (nextSock (link s)) y ]> (consumers s) -> gone s1 q) as Hg'.
  { intros s1 E1. apply (gone_moves _ s1 q q' (observe s x) (note l (cState (observe s x)) (nextSock (link s)) y) st l Hgo); [apply lookup_insert_eq|done| |].
    - exact Est.
    - rewrite E1. simpl. by rewrite insert_insert_eq. }
  injection H as <-. destruct (registers _ _); split; simpl; try done; try (by apply Hg'). set_solver.
Qed.

Lemma stuck_step q n l s s' : rinv s -> stuck q n s -> rstep l s = Some s' -> stuck q n s'.
Proof.
  intros Hi Hst H. destruct l; simpl in H; [by eapply stuck_link_step|by eapply stuck_start|by eapply stuck_receive
    |by eapply stuck_call|by eapply stuck_other|by eapply stuck_hook|by eapply stuck_consumer|].
  injection H as <-. destruct Hst. split; simpl; try done. set_solver.
Qed.

Lemma recovers_steps ls s s' : recovers s -> rsteps ls s = Some s' -> recovers s'.
Proof.
  revert s. induction ls as [|l ls IH]; intros s Hs; simpl; [by intros [= <-]|].
  destruct (rstep l s) eqn:E; [|done]. apply IH. by eapply rec_step.
Qed.

(** ** Theorems *)

(** The parts of the system run as they do alone: what holds of every reachable
    supervisor and of every reachable subscription holds here. *)
Lemma recovery_projects s q x :
  recovers s -> consumers s !! q = Some x ->
  Barrier.reachable (link s) ∧ Subscription.reachable (cfgs q) (cState x).
Proof.
  intros Hs%recovers_inv Hx. split; [by apply ri_link|]. by eapply co_reachable, ri_consumers.
Qed.

(** C9. Traffic resumes only with its consumers: with any number of consumers and
    other hooks on a connection, in any interleaving with reconnects, caps,
    stalled hooks, pauses and recoveries, when the barrier is down on a socket
    with no degraded error and the connection is not being closed, every
    consumer that started before that socket was dialled has a subscription on
    a channel of that very socket, which its loop has received or finds
    waiting in [resubCh]. *)
Theorem traffic_resumes_resubscribed s k q x n :
  recovers s -> raw (link s) = Some k -> Barrier.reconnecting (link s) = false ->
  degradedErr (link s) = None -> Barrier.cancelled (link s) = false ->
  consumers s !! q = Some x -> cSince x = Some n -> (n <= k)%nat ->
  ∃ j z, subs (cState x) !! j = Some z ∧ cSock x !! onChan z = Some k
         ∧ (resubCh (cState x) = Some j ∨ j ∈ cTaken x).
Proof.
  intros Hs%recovers_inv Hraw Hrec Hdeg Hcan Hx Hn Hle.
  destruct (reachable_inv _ (ri_link _ Hs)) as [_ Hbusy _ _ _ Hrest _].
  assert (k ∈ restored (link s)) as Hk.
  { apply Hrest; try done. intros Hp. destruct (Hbusy ltac:(auto)) as [E _]. congruence. }
  destruct (ri_restored _ Hs q k Hk) as (y & Hy & Hr); [by exists x, n|]. by simplify_eq.
Qed.

(** A consumer that has returned ends recovery: once one reconnect has left a
    subscription in its [resubCh], no socket dialled later is ever restored,
    whatever happens: the barrier of each is ended by its cap, by a failing hook
    or by [Close]. *)
Lemma returned_consumer_ends_recovery s s' ls q x e j k :
  recovers s -> consumers s !! q = Some x -> is_Some (cSince x) ->
  main (cState x) = MReturned e -> resubCh (cState x) = Some j ->
  rsteps ls s = Some s' -> (nextSock (link s) <= k)%nat ->
  k ∉ restored (link s')
  ∧ (raw (link s') = Some k -> Barrier.reconnecting (link s') = false ->
     degradedErr (link s') = None -> Barrier.cancelled (link s') = true).
Proof.
  intros Hs%recovers_inv Hx [m Hm] He Hj Hls Hk.
  assert (stuck q (nextSock (link s)) s) as Hst.
  { split; [by exists x, e, j|by apply (ri_hooks _ Hs q m); exists x, m|done| |].
    - intros i r Hr Hle. destruct (ri_runs _ Hs _ _ Hr) as [? _]. lia.
    - intros k' Hk'. by apply (ri_raw _ Hs); right. }
  assert (rinv s' ∧ stuck q (nextSock (link s)) s') as [Hs' [_ _ _ _ Hr]].
  { clear Hk Hx Hm He Hj. generalize dependent (nextSock (link s)). intros n Hst. revert s Hs Hst Hls.
    induction ls as [|l ls IH]; intros s Hs Hst; simpl; [by intros [= <-]|].
    destruct (rstep l s) as [s1|] eqn:E; [|done]. apply IH; [by eapply rstep_inv|by eapply stuck_step]. }
  assert (k ∉ restored (link s')) as Hn by (intros Hin; specialize (Hr k Hin); lia).
  split; [done|]. intros Hraw Hrec Hdeg. destruct (reachable_inv _ (ri_link _ Hs')) as [_ Hbusy _ _ _ Hrest _].
  destruct (Barrier.cancelled (link s')) eqn:Hcan; [done|]. destruct Hn. apply Hrest; try done.
  intros Hp. destruct (Hbusy ltac:(auto)) as [E _]. congruence.
Qed.
End system.

(** ** Witnesses *)

(** Consumers 0 and 1 start, the socket is lost and the next one restored: the
    hooks of both consumers run in order, and the loop of consumer 0 takes its
    new subscription. *)
Definition starts (q : nat) : list rlabel := RConsumer q <$> SubscriptionInv.boot.
Definition redialled : list rlabel := RLink <$> [LTop; LForce; LEnter; LDialled true].
Definition hook_runs (i : nat) : list rlabel :=
  RCall i :: (RHook i <$> [KTimer; KOpenCall AnsOk; KOpenCall AnsOk; KOpenCall AnsOk; KHandoff]).

Definition recovered : list rlabel :=
  starts 0 ++ starts 1 ++ redialled ++ [RStart] ++ hook_runs 0 ++ hook_runs 0
  ++ [RCall 0; RReceive; RLink LBroadcast; RConsumer 0 (LMain MResub)].

Definition two_consumers : sys := connected (fun _ => small) boot_live [0%nat; 1%nat].

Definition after_recovery : sys :=
  match rsteps (fun _ => small) recovered two_consumers with Some s => s | None => two_consumers end.

Lemma recovered_runs : recovers (fun _ => small) after_recovery.
Proof.
  apply (recovers_steps _ recovered two_consumers); [apply rec_live|by vm_compute].
Qed.

Lemma traffic_resumes_resubscribed_witness :
  raw (link after_recovery) = Some 1%nat
  ∧ ∃ x j z, consumers after_recovery !! 1%nat = Some x ∧ subs (cState x) !! j = Some z
      ∧ cSock x !! onChan z = Some 1%nat ∧ (resubCh (cState x) = Some j ∨ j ∈ cTaken x).
Proof.
  split; [reflexivity|].
  destruct (consumers after_recovery !! 1%nat) as [x|] eqn:Hx; [|exfalso; vm_compute in Hx; discriminate Hx].
  exists x.
  destruct (traffic_resumes_resubscribed (fun _ => small) after_recovery 1 1 x 1 recovered_runs
              eq_refl eq_refl eq_refl eq_refl Hx) as (j & z & H).
  - vm_compute in Hx. injection Hx as <-. reflexivity.
  - lia.
  - exists j, z. split; [reflexivity|exact H].
Defined.

(** Consumer 0 stops, and one reconnect later the rest of the connection's life
    passes without a restored socket. *)
Definition stopped_then_redialled : list rlabel :=
  starts 0 ++ (RConsumer 0 <$> stops) ++ starts 1 ++ redialled ++ [RStart] ++ hook_runs 0 ++ hook_runs 0
  ++ [RCall 0; RReceive; RLink LBroadcast].

Lemma stopped_consumer_ends_recovery :
  ∃ s, rsteps (fun _ => small) stopped_then_redialled two_consumers = Some s
    ∧ 1%nat ∈ restored (link s)
    ∧ ∀ ls s' k, rsteps (fun _ => small) ls s = Some s' -> (2 <= k)%nat -> k ∉ restored (link s').
Proof.
  destruct (rsteps (fun _ => small) stopped_then_redialled two_consumers) as [s|] eqn:Hs;
    [|exfalso; vm_compute in Hs; discriminate Hs].
  exists s. split; [reflexivity|].
  assert (recovers (fun _ => small) s) as Hr by (by eapply recovers_steps, Hs; apply rec_live).
  vm_compute in Hs. injection Hs as <-. split; [vm_compute; left|]. intros ls s' k Hls Hk.
  by eapply (returned_consumer_ends_recovery _ _ _ _ 0 _ _ _ k Hr); [reflexivity|eexists; reflexivity|reflexivity|reflexivity|exact Hls|].
Qed.
