(* ===== verification/Tracing.v ===== *)
(** * Tracing: spans and trace context

    Models [src/otel/propagation.go] and the tracing of the publish and consume
    paths: [publishSpanAttrs], [finishPublishSpan] and the span of [Publish]
    (publisher.go), [finishConsumeSpan], [redactedSpanError] and
    [processSpanAttrs] (consumer.go), [startBatchSpan] (batch_consumer.go).  The
    W3C propagator is a parameter ([TextMapPropagator]); a context is reduced to
    the span context it carries, [None] when it has no valid one. *)

From S2P Require Import Prelude Errors Values XDeath Limiters Delivery Consumer Message Publisher BatchConsumer ConnOptions.

(** ** The header carrier *)

Abbreviation headerCarrier := (gmap string value).

Definition carrier_Get (c : headerCarrier) (key : string) : string := as_string (c !! key).

Definition carrier_Set (key v : string) (c : headerCarrier) : headerCarrier := <[ key := VString v ]> c.

Definition carrier_Keys (c : headerCarrier) : list string := (map_to_list c).*1.

(** ** The propagator *)

Class TextMapPropagator (SC : Type) : Type := {
  tmInject : option SC -> headerCarrier -> headerCarrier;
  tmExtract : option SC -> headerCarrier -> option SC
}.

(** What the W3C propagator documents: it writes and reads its two fields only,
    leaves a carrier alone when there is nothing to inject, keeps the context
    when there is no traceparent, and extracts what it injected. *)
Class PropagatorLaws (SC : Type) `{TextMapPropagator SC} : Prop := {
  inject_fields x c k : k ≠ HeaderTraceParent -> k ≠ HeaderTraceState -> tmInject x c !! k = c !! k;
  inject_nothing c : tmInject None c = c;
  extract_fields x c c' :
    carrier_Get c HeaderTraceParent = carrier_Get c' HeaderTraceParent ->
    carrier_Get c HeaderTraceState = carrier_Get c' HeaderTraceState -> tmExtract x c = tmExtract x c';
  extract_none x c : carrier_Get c HeaderTraceParent = ""%string -> tmExtract x c = x;
  extract_injected x sc c :
    c !! HeaderTraceParent = None -> c !! HeaderTraceState = None -> tmExtract x (tmInject (Some sc) c) = Some sc
}.

Section propagator.
  Context {SC : Type} `{TextMapPropagator SC}.

Definition Inject (ctx : option SC) (h : headerCarrier) : headerCarrier := tmInject ctx h.

(** A nil map reads as an empty one. *)
Definition ExtractTo (ctx : option SC) (h : args) : option SC := tmExtract ctx (default ∅ h).

Definition Extract (h : args) : option SC := ExtractTo None h.

Definition ActiveContext (ctx : option SC) : bool := bool_decide (is_Some ctx).
End propagator.

(** ** Spans *)

Inductive attr : Type := AString (k v : string) | AInt (k : string) (z : Z).

Inductive statusCode : Type := StatusOk | StatusError.

(** A text a span shows: a constant of the library, or what [err.Error()]
    renders. *)
Inductive shown : Type := Label (s : string) | ErrText (e : error).

(** [RecordError]: the text of the event, and the error a backend can unwrap. *)
Inductive span_op : Type :=
| OpStart (name : string) (attrs : list attr)
| OpSetAttributes (attrs : list attr)
| OpSetStatus (code : statusCode) (description : shown)
| OpRecordError (text : shown) (err : error)
| OpEnd.

(** [redactedSpanError]: its text is the label, it unwraps to the error. *)
Definition record_redacted (label : string) (err : error) : span_op := OpRecordError (Label label) err.

Definition outcomeAttr (outcome : string) : attr := AString "messaging.rabbitmq.outcome" outcome.
Definition errorTypeAttr (errType : string) : attr := AString "error.type" errType.

(** [finishConsumeSpan]: the calls behind the event of [Consumer]. *)
Definition consume_span_ops (outcome : string) (err : goerror) : list span_op :=
  OpSetAttributes [outcomeAttr outcome]
  :: match err with
     | None => [OpSetStatus StatusOk (Label "")]
     | Some e =>
         let errType := consumeErrorType e in
         [OpSetAttributes [errorTypeAttr errType]; OpSetStatus StatusError (Label errType);
          record_redacted errType e]
     end.

Definition finishPublishSpan (err : goerror) : list span_op :=
  let '(outcome, errType) := publishOutcome err in
  OpSetAttributes [outcomeAttr outcome]
  :: match err with
     | None => [OpSetStatus StatusOk (Label "")]
     | Some e =>
         OpSetAttributes [errorTypeAttr errType]
         :: (if err_is e ErrInvalidMessage
             then [OpSetStatus StatusError (Label errType); record_redacted errType e]
             else [OpSetStatus StatusError (ErrText e); OpRecordError (ErrText e) e])
     end.

(** [peer] is [p.conn.peerAddress()]; [None] also when there is no connection. *)
Definition publishSpanAttrs (exchange : string) (peer : option (string * Z)) : list attr :=
  [AString "messaging.system" "rabbitmq"; AString "messaging.destination.name" exchange;
   AString "messaging.operation.type" "publish"]
  ++ match peer with
     | Some (host, port) =>
         AString "network.peer.address" host
         :: (if decide (0 < port) then [AInt "network.peer.port" port] else [])
     | None => []
     end.

Definition processSpanAttrs (queue : string) (raw : rawDelivery) : list attr :=
  [AString "messaging.system" "rabbitmq"; AString "messaging.destination.name" queue;
   AString "messaging.operation.type" "process"]
  ++ (if decide (rMessageId raw = ""%string) then [] else [AString "messaging.message.id" (rMessageId raw)])
  ++ (if decide (rCorrelationId raw = ""%string) then []
      else [AString "messaging.message.conversation_id" (rCorrelationId raw)]).

(** The span of [Publish], with the run of [Publisher.Publish] it reports. *)
Definition publish_span (exchange : string) (peer : option (string * Z)) (closed mandatory : bool)
    (confirmTimeout : Z) (policy : option Z) (p : encoder) (e : encode_env) (active : bool)
    (inject : gmap string value -> gmap string value) (msg : Message) (tries : list try)
  : option (list span_op) :=
  if closed then Some []
  else
    let start := OpStart (exchange ++ " publish") (publishSpanAttrs exchange peer) in
    match encodeMsg p e msg with
    | Err err => Some (start :: finishPublishSpan (Some err) ++ [OpEnd])
    | Ok (m, len) =>
        let described :=
          OpSetAttributes [AString "messaging.message.id" (mMessageID m); AInt "messaging.message.body.size" len]
          :: (if decide (mCorrelationID m = ""%string) then []
              else [OpSetAttributes [AString "messaging.message.conversation_id" (mCorrelationID m)]]) in
        match Publish closed mandatory confirmTimeout policy p e active inject msg tries with
        | Some out => Some (start :: described ++ finishPublishSpan (oErr out) ++ [OpEnd])
        | None => None
        end
    end.

(** [startBatchSpan]: name, attributes and links.  [linking] tells whether the
    tracer is a [LinkingTracer]. *)
Record batch_span (SC : Type) : Type := mkBatchSpan {
  bsName : string;
  bsAttrs : list attr;
  bsLinks : list SC
}.
Arguments mkBatchSpan {SC}.
Arguments bsName {SC}.
Arguments bsAttrs {SC}.
Arguments bsLinks {SC}.

(** The loop over the deliveries. *)
Fixpoint batch_links {SC} `{TextMapPropagator SC} (ds : list Delivery) : list SC :=
  match ds with
  | [] => []
  | d :: r =>
      match Extract (rHeaders (dRaw d)) with
      | None => batch_links r
      | Some linkCtx => linkCtx :: batch_links r
      end
  end.

Definition startBatchSpan {SC} `{TextMapPropagator SC} (queue : string) (linking : bool) (ds : list Delivery)
  : batch_span SC :=
  mkBatchSpan (queue ++ " process_batch")
    [AString "messaging.system" "rabbitmq"; AString "messaging.destination.name" queue;
     AString "messaging.operation.type" "process"; AInt "messaging.batch.message_count" (Z.of_nat (length ds))]
    (if linking then batch_links ds else []).

(** ** What a span shows *)

(** The errors of other code (a codec, a handler) whose text is part of
    [err.Error()]: wrapping renders what it wraps. *)
Fixpoint foreign (e : error) : list nat :=
  match e with
  | OtherError id => [id]
  | Wrap es => flat_map foreign es
  | CodeError _ x | RedactedError x => foreign x
  | Sentinel _ | UnroutableError _ | AmqpError _ _ => []
  end.

Definition shown_foreign (s : shown) : list nat :=
  match s with Label _ => [] | ErrText e => foreign e end.

Definition op_foreign (o : span_op) : list nat :=
  match o with
  | OpSetStatus _ s | OpRecordError s _ => shown_foreign s
  | OpStart _ _ | OpSetAttributes _ | OpEnd => []
  end.

Definition span_foreign (ops : list span_op) : list nat := flat_map op_foreign ops.

Definition is_status (c : statusCode) (o : span_op) : Prop :=
  match o with OpSetStatus c' _ => c' = c | _ => False end.

(** ** Lemmas *)

Lemma consume_span_shows_nothing outcome err : span_foreign (consume_span_ops outcome err) = [].
Proof. by destruct err. Qed.

(** The event of [Consumer] is what these calls say. *)
Lemma consume_span_event outcome err :
  finishConsumeSpan outcome err = ESpan outcome (consumeErrorType <$> err)
  ∧ (consume_span_ops outcome err !! 1%nat = Some (OpSetStatus StatusOk (Label "")) <-> err = None).
Proof. split; [done|]. by destruct err. Qed.

Lemma finish_publish_foreign e :
  span_foreign (finishPublishSpan (Some e)) ≠ [] -> err_is e ErrInvalidMessage = false.
Proof.
  unfold finishPublishSpan. destruct (publishOutcome _). by destruct (err_is e ErrInvalidMessage).
Qed.

(** Every error of [encodeMsg] is [ErrInvalidMessage], or wraps nothing but
    [ErrMessageTooLarge]. *)
Lemma encodeMsg_Err p e msg err :
  encodeMsg p e msg = Err err ->
  err_is err ErrInvalidMessage = true ∨ err = Wrap [Sentinel ErrMessageTooLarge].
Proof.
  assert (∀ h e', validateHeadersMap h = Err e' -> e' = Wrap [Sentinel ErrInvalidMessage]) as Hv.
  { intros h e'. unfold validateHeadersMap. case_match; naive_solver. }
  assert (∀ es, err_is (Wrap (Sentinel ErrInvalidMessage :: es)) ErrInvalidMessage = true) as Hw.
  { intros es. by rewrite err_is_wrap. }
  unfold encodeMsg, invalidMessage. intros E.
  apply rbind_Err in E as [E|(m1 & _ & E)].
  { left. unfold applyDefaults in E. apply rbind_Err in E as [E|(? & _ & E)]; [|done].
    case_decide; [|done]. destruct (uuidOutcome e); [done|]. injection E as <-. apply Hw. }
  apply rbind_Err in E as [E|(h & _ & E)].
  { left. destruct (mHeaders m1); [|done]. apply rbind_Err in E as [E|(? & _ & E)]; [|done].
    apply Hv in E as ->. apply Hw. }
  cbv zeta in E. do 4 (case_match; [injection E as <-; left; apply Hw|]).
  destruct (safeEncodeBody (codecOutcome e)) as [[[len ce] ct]|e'];
    [|injection E as <-; left; apply Hw].
  apply rbind_Err in E as [E|(m2 & _ & E)].
  { left. case_match; [done|]. apply rbind_Err in E as [E|(? & _ & E)]; [|done].
    apply Hv in E as ->. apply Hw. }
  case_match; [|done]. injection E as <-. by right.
Qed.

(** The publish span is started once and ended last, whatever happens. *)
Definition span_shape (ops : list span_op) (err : goerror) : Prop :=
  ∃ name attrs mid, ops = OpStart name attrs :: mid ++ finishPublishSpan err ++ [OpEnd]
    ∧ Forall (fun o => ∃ l, o = OpSetAttributes l) mid.

Lemma span_foreign_shape ops err : span_shape ops err -> span_foreign ops = span_foreign (finishPublishSpan err).
Proof.
  intros (name & attrs & mid & -> & Hm). unfold span_foreign. simpl. rewrite !flat_map_app. simpl.
  rewrite app_nil_r. induction Hm as [|o mid [l ->] _ IH]; [done|]. exact IH.
Qed.

Lemma publish_span_shape ex peer mandatory ct policy p e active inject msg tries ops out :
  publish_span ex peer false mandatory ct policy p e active inject msg tries = Some ops ->
  Publish false mandatory ct policy p e active inject msg tries = Some out ->
  span_shape ops (oErr out).
Proof.
  unfold publish_span. intros Hs Hp. destruct (encodeMsg p e msg) as [[m len]|err] eqn:E.
  - rewrite Hp in Hs. apply (inj Some) in Hs as <-.
    match goal with |- span_shape (_ :: ?mid ++ _) _ => exists (ex ++ " publish")%string, (publishSpanAttrs ex peer), mid end.
    split; [done|]. constructor; [by eexists|]. case_decide; repeat econstructor.
  - unfold Publish in Hp. rewrite E in Hp. injection Hs as <-. injection Hp as <-.
    eexists _, _, []. by split.
Qed.

(** ** Trace context *)

Lemma encodeMsg_keeps_absent p e msg m len k n h ct :
  encodeMsg p e msg = Ok (m, len) -> codecOutcome e = EncOk n h ct ->
  args_get (mHeaders msg) k = None -> h !! k = None -> args_get (mHeaders m) k = None.
Proof.
  intros E Hc Hk Hh. unfold encodeMsg in E. rewrite Hc in E. simpl in E.
  apply rbind_Ok in E as (m1 & E1 & E). apply rbind_Ok in E as (h1 & E2 & E). cbv zeta in E.
  assert (args_get (mHeaders m1) k = None) as Hk1.
  { unfold applyDefaults in E1. apply rbind_Ok in E1 as (id & _ & E1). by injection E1 as <-. }
  assert (args_get h1 k = None) as Hk2.
  { destruct (mHeaders m1) as [g|]; simpl in E2; [|by simplify_eq].
    apply rbind_Ok in E2 as (g' & E2 & [= <-]). apply validateHeadersMap_Ok in E2 as [-> _].
    simpl in *. by rewrite lookup_fmap, Hk1. }
  do 4 (case_match; [done|]).
  apply rbind_Ok in E as (m2 & E3 & E). case_match; [done|]. injection E as <- _.
  assert (args_get (mHeaders m2) k = None) as Hk3; [|by destruct (decide (ct = ""%string))].
  destruct (decide (h = ∅)); [injection E3 as <-; by destruct (stampUserID p && _)|].
  apply rbind_Ok in E3 as (ce & E3 & [= <-]). apply validateHeadersMap_Ok in E3 as [-> _].
  simpl. apply lookup_union_None. rewrite lookup_fmap, Hh. split; [done|].
  destruct (stampUserID p && _); simpl; by destruct h1.
Qed.

Section continuity.
  Context {SC : Type} `{PropagatorLaws SC}.

(** What the consumer extracts from a frame the publisher built: nothing of the
    message but its headers matters, and of those only the two fields. *)
Lemma extract_frame (ctx : option SC) sc m len h :
  args_get (mHeaders m) HeaderTraceParent = None -> args_get (mHeaders m) HeaderTraceState = None ->
  (∀ k, k = HeaderTraceParent ∨ k = HeaderTraceState ->
     args_get h k = args_get (pHeaders (buildPublishing (set_headers
       (injectTrace true (Inject (Some sc)) (mHeaders m)) m) len)) k) ->
  ExtractTo ctx h = Some sc.
Proof.
  intros Hp Hs Hk. set (g := default ∅ (mHeaders m)).
  assert (g !! HeaderTraceParent = None ∧ g !! HeaderTraceState = None) as [Gp Gs].
  { unfold g. destruct (mHeaders m); simpl in *; by rewrite ?lookup_empty. }
  assert (∀ k, k = HeaderTraceParent ∨ k = HeaderTraceState -> args_get h k = tmInject (Some sc) g !! k) as Hk'.
  { intros k Hf. rewrite (Hk k Hf). unfold injectTrace. fold g. rewrite Gp, Gs. simpl.
    case_decide; simpl; [|done]. by rewrite lookup_insert_ne by (destruct Hf as [->| ->]; done). }
  rewrite <- (extract_injected ctx sc g Gp Gs). unfold ExtractTo. apply extract_fields; unfold carrier_Get.
  - rewrite <- (Hk' HeaderTraceParent) by auto. by destruct h; simpl; rewrite ?lookup_empty.
  - rewrite <- (Hk' HeaderTraceState) by auto. by destruct h; simpl; rewrite ?lookup_empty.
Qed.
End continuity.

(** ** Properties *)

(** C34. Payload text never reaches a trace.  The span of a publish is started once,
    ends last, carries the outcome of the error [Publish] returns, has an Error
    status exactly when there is one, and records an error that unwraps to it;
    when it shows text of other code's errors, the codec had encoded the
    message, so there was no codec error to show.  A consume span shows no text
    of the handler's error at all. *)
Theorem spans_show_no_payload ex peer mandatory ct policy p e active inject msg tries ops out outcome herr :
  publish_span ex peer false mandatory ct policy p e active inject msg tries = Some ops ->
  Publish false mandatory ct policy p e active inject msg tries = Some out ->
  span_shape ops (oErr out)
  ∧ (Exists (is_status StatusError) ops <-> is_Some (oErr out))
  ∧ (∀ err, oErr out = Some err -> ∃ txt, OpRecordError txt err ∈ ops)
  ∧ (span_foreign ops ≠ [] -> ∃ n h c, codecOutcome e = EncOk n h c ∧ ∃ m len, encodeMsg p e msg = Ok (m, len))
  ∧ span_foreign (consume_span_ops outcome herr) = [].
Proof.
  intros Hs Hp. pose proof (publish_span_shape _ _ _ _ _ _ _ _ _ _ _ _ _ Hs Hp) as Hshape.
  split; [done|]. pose proof (span_foreign_shape _ _ Hshape) as Hf.
  destruct Hshape as (name & attrs & mid & -> & Hm).
  assert (∀ P, (∀ l, ¬ P (OpSetAttributes l)) -> ¬ Exists P mid) as Hmid.
  { intros P HP HE. apply Exists_exists in HE as (o & Ho & HPo). rewrite Forall_forall in Hm.
    destruct (Hm o Ho) as [l ->]. by apply (HP l). }
  split_and!.
  - rewrite Exists_cons, !Exists_app. unfold finishPublishSpan. destruct (publishOutcome (oErr out)).
    destruct (oErr out) as [err|].
    + split; [by eexists|]. intros _. right. right. left. do 2 right. destruct (err_is err ErrInvalidMessage); by left.
    + split; [|by intros []]. intros [[]|[HE|[HE|HE]]]; [by destruct (Hmid (is_status StatusError) (fun l HF => HF))|..];
        repeat (apply Exists_cons in HE as [HE|HE]); try done; by apply Exists_nil in HE.
  - intros err ->. unfold finishPublishSpan. destruct (publishOutcome (Some err)).
    eexists (if err_is err ErrInvalidMessage then Label _ else ErrText err).
    destruct (err_is err ErrInvalidMessage); rewrite elem_of_cons, !elem_of_app; do 2 right; left;
      by do 3 apply list_elem_of_further; apply list_elem_of_here.
  - rewrite Hf. intros Hne. unfold Publish in Hp.
    destruct (encodeMsg p e msg) as [[m len]|err] eqn:E.
    + assert (∃ n h c, codecOutcome e = EncOk n h c) as (n & h & c & Hc).
      { destruct (codecOutcome e) as [n h c|ec|] eqn:Ec; [by eauto| |]; exfalso;
          unfold encodeMsg in E; rewrite Ec in E; simpl in E;
          apply rbind_Ok in E as (? & _ & E); apply rbind_Ok in E as (? & _ & E);
          cbv zeta in E; by repeat case_match. }
      eauto 10.
    + injection Hp as <-. simpl in Hne. exfalso.
      destruct (encodeMsg_Err _ _ _ _ E) as [Hi| ->]; [|by apply Hne].
      apply finish_publish_foreign in Hne. congruence.
  - apply consume_span_shows_nothing.
Qed.

Section end_to_end.
  Context {SC : Type} `{PropagatorLaws SC}.

(** The two headers of a trace context. *)
Definition trace_field (k : string) : Prop := k = HeaderTraceParent ∨ k = HeaderTraceState.

(** C33. The trace of a producer reaches its consumer: a message published under a
    live span, whose headers (the caller's and the codec's) name no trace
    context of their own, is delivered with headers from which the consumer
    extracts that span, whatever headers the broker adds or changes besides the
    two fields, as dead-lettering does.  The other headers of the message are
    the ones it would have been published with untraced. *)
Theorem trace_survives_publish sc ctx mandatory ct policy p e msg tries out pub n ch c h :
  Publish false mandatory ct policy p e (ActiveContext (Some sc)) (Inject (Some sc)) msg tries = Some out ->
  oFrame out = Some pub -> codecOutcome e = EncOk n ch c ->
  (∀ k, trace_field k -> args_get (mHeaders msg) k = None ∧ ch !! k = None) ->
  (∀ k, trace_field k -> args_get h k = args_get (pHeaders pub) k) ->
  ExtractTo ctx h = Some sc
  ∧ ∃ out' pub', Publish false mandatory ct policy p e (ActiveContext (SC := SC) None) (Inject (SC := SC) None) msg tries = Some out'
      ∧ oFrame out' = Some pub' ∧ oErr out' = oErr out
      ∧ ∀ k, ¬ trace_field k -> args_get (pHeaders pub) k = args_get (pHeaders pub') k.
Proof.
  unfold Publish. intros Hp Hf Hc Hmsg Hh. unfold ActiveContext in *. rewrite bool_decide_eq_true_2 in Hp by done.
  rewrite bool_decide_eq_false_2 by by intros [].
  destruct (encodeMsg p e msg) as [[m len]|] eqn:E; [|by simplify_eq].
  cbn [mMessageID set_headers] in *.
  destruct (publish_loop _ _ _) as [[[err retries] k]|]; [|done]. injection Hp as <-. simpl in Hf. injection Hf as <-.
  assert (∀ k, trace_field k -> args_get (mHeaders m) k = None) as Hm.
  { intros k' Hk. destruct (Hmsg k' Hk) as [Hk1 Hk2]. by eapply encodeMsg_keeps_absent. }
  split; [eapply extract_frame; [apply Hm; by left|apply Hm; by right|exact Hh]|].
  eexists _, _. split; [done|]. split; [done|]. split; [done|].
  assert (∀ k, ¬ trace_field k -> args_get (injectTrace true (Inject (Some sc)) (mHeaders m)) k = args_get (mHeaders m) k) as Hi.
  { intros k' Hk. unfold injectTrace, Inject. simpl.
    assert (default ∅ (mHeaders m) !! HeaderTraceParent = None ∧ default ∅ (mHeaders m) !! HeaderTraceState = None) as [-> ->].
    { split; destruct (mHeaders m) as [g|] eqn:Eg; try done;
        [apply (Hm HeaderTraceParent); by left|apply (Hm HeaderTraceState); by right]. }
    rewrite inject_fields by (unfold trace_field in Hk; tauto). by destruct (mHeaders m); simpl; rewrite ?lookup_empty. }
  intros k' Hk. unfold buildPublishing. simpl. destruct (decide (0 < mDelay m)); [|by apply Hi].
  simpl. destruct (decide (k' = "x-delay"%string)) as [->|Hne]; [by rewrite !lookup_insert|].
  rewrite !lookup_insert_ne by done. specialize (Hi k' Hk). simpl in Hi. rewrite Hi.
  by destruct (mHeaders m).
Qed.

(** A batch span links the span of every message that was published under one,
    in the order of the batch, and nothing else. *)
Lemma batch_span_links queue ds (scs : list (option SC)) :
  Forall2 (fun d sc => Extract (rHeaders (dRaw d)) = sc) ds scs ->
  bsLinks (startBatchSpan queue true ds) = omap id scs
  ∧ bsLinks (startBatchSpan (SC := SC) queue false ds) = [].
Proof.
  intros HF. split; [|done]. cbn [startBatchSpan bsLinks].
  induction HF as [|d sc ds scs Hd HF IH]; [done|]. cbn [batch_links]. rewrite Hd, IH. by destruct sc.
Qed.
End end_to_end.

(** ** A propagator *)

(** Two span contexts, written as traceparent strings. *)
Definition render (b : bool) : string := if b then "00-01-01-01" else "00-02-02-01".

#[global] Instance bool_propagator : TextMapPropagator bool := {|
  tmInject x c := match x with None => c | Some b => carrier_Set HeaderTraceParent (render b) c end;
  tmExtract x c :=
    let tp := carrier_Get c HeaderTraceParent in
    if decide (tp = render true) then Some true
    else if decide (tp = render false) then Some false else x
|}.

#[global] Instance bool_propagator_laws : PropagatorLaws bool.
Proof.
  split; simpl.
  - intros [b|] c k H1 H2; [|done]. unfold carrier_Set. by rewrite lookup_insert_ne.
  - done.
  - intros x c c' -> _. done.
  - intros x c ->. done.
  - intros x [] c _ _; unfold carrier_Get, carrier_Set; rewrite lookup_insert; by vm_compute.
Qed.

Definition traced0 : option publish_out :=
  Publish false true 0 (Some 5) sample_encoder sample_encode_env (ActiveContext (Some true)) (Inject (Some true))
    sample_msg tries0.

(** The DLX adds an x-death header. *)
Definition dead_lettered (h : Headers) : args :=
  Some (<[ "x-death"%string := VSlice [] ]> (default ∅ h)).

Lemma trace_survives_publish_witness :
  ∃ out pub, traced0 = Some out ∧ oFrame out = Some pub
    ∧ ExtractTo (Some false) (dead_lettered (pHeaders pub)) = Some true.
Proof.
  destruct traced0 as [out|] eqn:E; [|by vm_compute in E].
  destruct (oFrame out) as [pub|] eqn:Ef; [|vm_compute in E; by injection E as <-].
  exists out, pub. split; [done|]. split; [done|].
  refine (proj1 (trace_survives_publish true (Some false) _ _ _ _ _ _ _ out pub _ _ _ _ E Ef _ _ _)).
  - reflexivity.
  - intros k [->| ->]; by vm_compute.
  - intros k Hk. simpl. rewrite lookup_insert_ne by (by destruct Hk as [->| ->]).
    destruct (pHeaders pub); simpl; by rewrite ?lookup_empty.
Defined.

Definition refused0 : list span_op :=
  default [] (publish_span "ex" (Some ("h"%string, 5672)) false true 0 None sample_encoder
    (mkEncodeEnv (Ok "id"%string) 0 "ct" (EncErr (OtherError 7))) false (fun h => h) sample_msg tries0).

Lemma spans_show_no_payload_witness :
  span_foreign refused0 = [] ∧ Exists (is_status StatusError) refused0.
Proof.
  assert (∃ ops out, publish_span "ex" (Some ("h"%string, 5672)) false true 0 None sample_encoder
    (mkEncodeEnv (Ok "id"%string) 0 "ct" (EncErr (OtherError 7))) false (fun h => h) sample_msg tries0 = Some ops
    ∧ Publish false true 0 None sample_encoder
    (mkEncodeEnv (Ok "id"%string) 0 "ct" (EncErr (OtherError 7))) false (fun h => h) sample_msg tries0 = Some out
    ∧ is_Some (oErr out) ∧ ops = refused0) as (ops & out & Hs & Hp & Ho & Eo).
  { eexists _, _. split; [reflexivity|]. split; [reflexivity|]. split; [by eexists|reflexivity]. }
  destruct (spans_show_no_payload _ _ _ _ _ _ _ _ _ _ _ _ _ ""%string None Hs Hp) as (_ & Hst & _ & Hf & _).
  rewrite <- Eo. split; [|by apply Hst].
  destruct (span_foreign ops) eqn:En; [done|]. destruct Hf as (? & ? & ? & Hc & _); done.
Defined.

(** ** The consume span *)

(** The outcomes stamped on the span of a dispatch. *)
Definition stamps (evs : list event) : list (string * option string) :=
  omap (fun ev => match ev with ESpan o et => Some (o, et) | _ => None end) evs.

Lemma stamps_app a b : stamps (a ++ b) = stamps a ++ stamps b.
Proof. apply omap_app. Qed.

Lemma stamps_drop c : stamps (recordPoisonDropNoDLX c) = [].
Proof. unfold recordPoisonDropNoDLX. by case_match. Qed.

Lemma stamps_counterB c cs key err : stamps (applyCounterB c cs key err).1.1 = [].
Proof.
  unfold applyCounterB. destruct cs as [m|]; [|done]. repeat case_match; try done.
  simpl. by rewrite !stamps_app, stamps_drop.
Qed.

(** Counter B never makes an error of a success, nor a success of an error. *)
Lemma counterB_none c cs key err : (applyCounterB c cs key err).2 = None <-> err = None.
Proof. unfold applyCounterB. destruct cs as [m|]; [|done]. repeat case_match; simpl; try done. by destruct err. Qed.

Lemma stamps_settle c autoAck e cs key err s d :
  ∃ o et, stamps (settleVerdict c autoAck e cs key err s d).1.1.1 = [(o, et)] ∧ (et = None <-> err = None).
Proof.
  unfold settleVerdict. destruct (brokerAutoAck c).
  - destruct err as [er|]; [|by eexists _, _].
    unfold logAutoAckDrop. destruct (sample s) as [[[] t] s']; simpl; by eexists _, _.
  - destruct autoAck; [|by exists (consumeVerdictOutcome err), (consumeErrorType <$> err); destruct err].
    pose proof (stamps_counterB c cs key err) as H1. pose proof (counterB_none c cs key err) as H2.
    destruct (applyCounterB c cs key err) as [[evs cs'] perr]. simpl in *. rewrite stamps_app, H1.
    eexists _, _. split; [done|]. rewrite <- H2. by destruct perr.
Qed.

Lemma stamps_returned c autoAck e cs key s d :
  ∃ o et, stamps (handler_returned c autoAck e cs key s d).1.1.1 = [(o, et)]
    ∧ (et = None <-> safeCallHandler (eHandler e) = None).
Proof.
  unfold handler_returned. destruct (eChanClosed e), (safeCallHandler (eHandler e)) eqn:E;
    try (by eexists _, _); apply stamps_settle.
Qed.

(** A dispatch whose body decodes stamps one outcome on its span, and a failure
    is never stamped as a success: it is stamped without an error exactly when
    the handler ran, returned nil and its return was the one the select took.
    Only a dispatch that ends because the consumer's context was cancelled
    stamps nothing. *)
Lemma dispatch_stamps_once c autoAck e raw st s :
  eDecode e = DOk ->
  let evs := (dispatch c autoAck e raw st s).1.1.1 in
  (∃ o et, stamps evs = [(o, et)]
     ∧ (et = None -> EInvoke ∈ evs ∧ safeCallHandler (eHandler e) = None))
  ∨ (stamps evs = [] ∧ handlerTimeout c ≠ 0 ∧ eRace e = RCtxDone OuterCancelled).
Proof.
  intros Hd. unfold dispatch. rewrite Hd. cbn [safeDecodeConsumer].
  destruct (negb (brokerAutoAck c) && _ && _).
  { left. eexists _, _. simpl. rewrite stamps_app, stamps_drop. by split. }
  destruct (counterB_start c autoAck raw st) as [cs key].
  assert (∀ dd, let r := handler_returned c autoAck e cs key s dd in
    ∃ o et, stamps r.1.1.1 = [(o, et)]
     ∧ (et = None -> EInvoke ∈ EInvoke :: r.1.1.1 ∧ safeCallHandler (eHandler e) = None)) as Hret.
  { intros dd r. destruct (stamps_returned c autoAck e cs key s dd) as (o & et & H1 & H2).
    exists o, et. split; [done|]. intros Het. split; [left|by apply H2]. }
  set (d1 := run_calls (eCalls e) (newDelivery (cQueue c) raw true)). specialize (Hret d1).
  destruct (handler_returned c autoAck e cs key s d1) as [[[evs d2] cs'] s']. simpl in Hret.
  destruct (decide (handlerTimeout c = 0)) as [Ht|Ht]; [by left|].
  destruct (eRace e) as [| |cause]; [by left|left; by eexists _, _|].
  unfold context_done. destruct cause; simpl; [left|right|left].
  - repeat case_match; simplify_eq/=; by eexists _, _.
  - by split.
  - repeat case_match; simplify_eq/=; by eexists _, _.
Qed.
