(* ===== verification/EndToEnd.v ===== *)
(** * EndToEnd: no confirmed message is lost

    Composes the publisher's [Publish] ([Publisher], [Message], [Confirms]) with
    the consumer's [dispatch] ([Consumer], [Delivery]) through a broker.  The
    broker is a parameter: [Broker] names what it does with the frames of the
    two sides, [BrokerLaws] what the AMQP confirm and acknowledgement
    documentation promises of it. *)

From S2P Require Import Prelude Errors Confirms Values XDeath Limiters Delivery Consumer Message Publisher.

(** ** The broker *)

(** - [accept mid frames b]: the attempt to publish the message [mid] on one
      channel, during which the broker sent these frames;
    - [settle mid fs b]: the frames the consumer sent for a delivery of [mid];
    - [channel_down b]: a consumer's channel closes. *)
Class Broker (B : Type) : Type := {
  held : B -> gset string;
  accept : string -> Z -> list demux -> B -> B;
  settle : string -> list frame -> B -> B;
  channel_down : B -> B
}.

(** The ack of a mandatory publish: no return of the message came before it. *)
Definition accepted (mid : string) (tag : Z) (fs : list demux) : Prop :=
  ∃ pre post, fs = pre ++ DConfirm tag true :: post ∧ ∀ code, DReturn mid code ∉ pre.

(** What the documentation promises.  A mandatory message whose publish is acked
    without a return is in a queue.  A message leaves the queues only when a
    consumer acks it or rejects it without requeue; an unsettled one goes back
    when the channel closes. *)
Class BrokerLaws (B : Type) `{Broker B} : Prop := {
  accept_held mid tag fs b : accepted mid tag fs -> mid ∈ held (accept mid tag fs b);
  accept_keeps mid tag fs b : held b ⊆ held (accept mid tag fs b);
  settle_others mid fs b : held b ∖ {[ mid ]} ⊆ held (settle mid fs b);
  settle_kept mid fs b :
    (∀ f, f ∈ fs -> ∃ m, f = FNack m true) -> held b ⊆ held (settle mid fs b);
  channel_down_keeps b : held b ⊆ held (channel_down b)
}.

(** ** The system *)

(** One call of [Publish] of a mandatory publisher. *)
Record pub_call : Type := mkPubCall {
  pcTimeout : Z;
  pcPolicy : option Z;
  pcEncoder : encoder;
  pcEnv : encode_env;
  pcActive : bool;
  pcInject : gmap string value -> gmap string value;
  pcMsg : Message;
  pcTries : list try;
  pcOut : publish_out
}.

(** The channels are handed out clean, and the UUID generator returns no empty
    string. *)
Definition publishes (c : pub_call) : Prop :=
  (∀ t, t ∈ pcTries c -> idle (aTag (tryAttempt t)) (tryEntry t))
  ∧ (∀ id, uuidOutcome (pcEnv c) = Ok id -> id ≠ ""%string)
  ∧ Publish false true (pcTimeout c) (pcPolicy c) (pcEncoder c) (pcEnv c) (pcActive c) (pcInject c)
      (pcMsg c) (pcTries c) = Some (pcOut c).

(** The broker sees the attempts made, one after the other. *)
Definition attempts_of (c : pub_call) : list attempt :=
  tryAttempt <$> take (oAttempts (pcOut c)) (pcTries c).

(** One dispatch of a [Consume] loop with manual acknowledgement. *)
Record disp_call : Type := mkDispCall {
  dcConfig : config;
  dcEnv : env;
  dcRaw : rawDelivery;
  dcCounter : redeliveryCounter;
  dcSampler : dropSampler
}.

Definition dispatches (c : disp_call) : Prop :=
  brokerAutoAck (dcConfig c) = false ∧ eCalls (dcEnv c) = [] ∧ eLateCalls (dcEnv c) = [].

Definition disp_frames (c : disp_call) : list frame :=
  frames (dispatch (dcConfig c) true (dcEnv c) (dcRaw c) (dcCounter c) (dcSampler c)).1.1.2.

Definition disp_events (c : disp_call) : list event :=
  (dispatch (dcConfig c) true (dcEnv c) (dcRaw c) (dcCounter c) (dcSampler c)).1.1.1.

(** The handler ran on the decoded message, its result came before the timeout and
    decided the verdict. *)
Definition handler_decided (c : disp_call) : Prop :=
  EInvoke ∈ disp_events c ∧ eDecode (dcEnv c) = DOk ∧ handler_won (dcConfig c) (dcEnv c) = true.

(** The message was acked, after its handler returned nil. *)
Definition processed_by (c : disp_call) : Prop :=
  disp_frames c = [FAck false] ∧ handler_decided c ∧ eHandler (dcEnv c) = HReturn None.

(** The requeues of the message that counter B allows are used up. *)
Definition requeues_exhausted (c : disp_call) : Prop :=
  ∃ cs key, counterB_start (dcConfig c) true (dcRaw c) (dcCounter c) = (Some cs, key)
    ∧ maxRedeliveries (dcConfig c) < wrap_signed 64 (load cs key + 1).

(** The reasons the library has to reject a message for good. *)
Inductive rejection (c : disp_call) : Prop :=
| Undecodable :
    eDecode (dcEnv c) ≠ DOk -> EInvoke ∉ disp_events c -> rejection c
| DeathLimit :
    limit_reached (dcConfig c) (dcRaw c) -> EInvoke ∉ disp_events c -> rejection c
| HandlerFailed err :
    handler_decided c -> safeCallHandler (eHandler (dcEnv c)) = Some err -> err_is err ErrRequeue = false -> rejection c
| RequeueLimit err :
    handler_decided c -> eHandler (dcEnv c) = HReturn (Some err) -> err_is err ErrRequeue = true ->
    requeues_exhausted c -> rejection c
| Overran cause :
    handlerTimeout (dcConfig c) ≠ 0 -> eRace (dcEnv c) = RCtxDone cause ->
    hctx_err cause = Sentinel ContextDeadlineExceeded ->
    timeoutVerdict (dcConfig c) ≠ TimeoutNackRequeue -> rejection c.

(** The message was rejected without requeue, for one of these reasons. *)
Definition rejected_by (c : disp_call) : Prop := disp_frames c = [FNack false false] ∧ rejection c.

Section system.
  Context {B : Type} `{Broker B}.

(** The broker, the ids [Publish] returned nil for, and the dispatches so far. *)
Record sys : Type := mkSys {
  sBroker : B;
  sConfirmed : gset string;
  sDispatched : list disp_call
}.

Definition after_attempts (mid : string) (ats : list attempt) (b : B) : B :=
  foldl (fun b a => accept mid (aTag a) (aEarly a ++ aFrames a) b) b ats.

Inductive step : sys -> sys -> Prop :=
| SPublish c pub b cf ds :
    publishes c -> oFrame (pcOut c) = Some pub ->
    step (mkSys b cf ds)
         (mkSys (after_attempts (pMessageId pub) (attempts_of c) b)
                (if oErr (pcOut c) then cf else {[ pMessageId pub ]} ∪ cf) ds)
| SDispatch c b cf ds :
    dispatches c ->
    step (mkSys b cf ds) (mkSys (settle (rMessageId (dcRaw c)) (disp_frames c) b) cf (ds ++ [c]))
| SChannelDown b cf ds : step (mkSys b cf ds) (mkSys (channel_down b) cf ds).

Definition reachable (b0 : B) (s : sys) : Prop := rtc step (mkSys b0 ∅ []) s.

(** A dispatch of the message that settled it. *)
Definition settled_by (mid : string) (P : disp_call -> Prop) (ds : list disp_call) : Prop :=
  ∃ c, c ∈ ds ∧ rMessageId (dcRaw c) = mid ∧ P c.
End system.
Arguments sys : clear implicits.

(** ** Lemmas *)

Section lemmas.
  Context {B : Type} `{BrokerLaws B}.

Lemma after_attempts_keeps mid ats (b : B) : held b ⊆ held (after_attempts mid ats b).
Proof.
  revert b. induction ats as [|a ats IH]; intros b; [done|]. simpl.
  etransitivity; [apply accept_keeps|apply IH].
Qed.

Lemma after_attempts_held mid ats a (b : B) :
  a ∈ ats -> accepted mid (aTag a) (aEarly a ++ aFrames a) -> mid ∈ held (after_attempts mid ats b).
Proof.
  intros Ha Hacc. revert b. induction ats as [|x ats IH]; intros b; [set_solver|].
  apply elem_of_cons in Ha as [->|Ha]; [|by apply IH].
  simpl. apply after_attempts_keeps, accept_held, Hacc.
Qed.

(** A nil result means that one of the attempts made was accepted. *)
Lemma publish_nil_accepted c pub :
  publishes c -> oErr (pcOut c) = None -> oFrame (pcOut c) = Some pub ->
  ∃ a, a ∈ attempts_of c ∧ accepted (pMessageId pub) (aTag a) (aEarly a ++ aFrames a).
Proof.
  intros (Hidle & Huuid & Hp) Hn Hf.
  destruct (Publish_nil _ _ _ _ _ _ _ _ _ _ _ Hp Hn) as (m0 & m & len & t & en' & Henc & Hid & Hf' & Ht & Hpos & Honce).
  rewrite Hf in Hf'. injection Hf' as ->.
  assert (pMessageId (buildPublishing m len) ≠ ""%string) as Hne.
  { simpl. rewrite Hid. by apply (encodeMsg_Ok _ _ _ _ _ Henc). }
  apply publishOnce_nil in Honce as (pre & post & E & _ & _ & H3); [|by eapply Hidle, list_elem_of_lookup_2].
  exists (tryAttempt t). split.
  - unfold attempts_of. apply list_elem_of_fmap_2. eapply list_elem_of_lookup_2. rewrite lookup_take_lt; [exact Ht|lia].
  - exists pre, post. split; [exact E|]. intros code. by apply H3.
Qed.
End lemmas.

(** Counter B leaves the handler's error alone, or turns a requeue into a
    rejection when the limit is passed. *)
Lemma counterB_result c cs key err :
  (applyCounterB c cs key err).2 = err
  ∨ ∃ m, cs = Some m ∧ errors_is err ErrRequeue = true ∧ maxRedeliveries c < wrap_signed 64 (load m key + 1)
      ∧ (applyCounterB c cs key err).2 = Some (Wrap [Sentinel ErrMaxRedeliveries]).
Proof.
  unfold applyCounterB. destruct cs as [m|]; [|by left]. case_decide; [by left|].
  destruct (errors_is err ErrRequeue) eqn:E; [|by left]. cbn [negb]. case_decide; [right; eauto|by left].
Qed.

(** The verdict on a handler that has returned. *)
Lemma returned_reason c err :
  handler_decided c -> safeCallHandler (eHandler (dcEnv c)) = err ->
  let '(cs, key) := counterB_start (dcConfig c) true (dcRaw c) (dcCounter c) in
  disp_frames c = returned_frames (dcEnv c) err (applyCounterB (dcConfig c) cs key err).2 ->
  Forall (fun f => ∃ m, f = FNack m true) (disp_frames c) ∨ processed_by c ∨ rejected_by c.
Proof.
  intros Hd He. destruct (counterB_start _ _ _ _) as [cs key] eqn:Es. intros Hf.
  pose proof (counterB_result (dcConfig c) cs key err) as Hr. unfold returned_frames in Hf.
  assert (disp_frames c = [] -> Forall (fun f => ∃ m, f = FNack m true) (disp_frames c)) as Hnil by by intros ->.
  destruct (match eChanClosed (dcEnv c), err with true, Some _ => true | _, _ => false end) eqn:Ea.
  { left. apply Hnil. rewrite Hf. by destruct (eChanClosed (dcEnv c)), err. }
  assert (disp_frames c = if eClosed (dcEnv c) then [] else [verdict_frame (applyCounterB (dcConfig c) cs key err).2]) as Hf'.
  { rewrite Hf. by destruct (eChanClosed (dcEnv c)), err. }
  clear Hf Ea. destruct (eClosed (dcEnv c)); [left; by apply Hnil|].
  destruct Hr as [Hr|(m & -> & Hq & Hl & Hr)]; rewrite Hr in Hf'; cbn [verdict_frame] in Hf'.
  - destruct err as [x|].
    + cbn [verdict_frame errors_is] in Hf'. destruct (err_is x ErrRequeue) eqn:Ex.
      * left. rewrite Hf'. repeat constructor. by exists false.
      * right. right. split; [exact Hf'|]. by eapply HandlerFailed.
    + right. left. split; [exact Hf'|]. split; [done|]. by apply handler_ok.
  - right. right. split; [exact Hf'|]. destruct err as [x|]; [|done]. eapply RequeueLimit; [done| |exact Hq|].
    + destruct (eHandler (dcEnv c)) as [h|]; simpl in He; [by subst h|]. injection He as <-. done.
    + by exists m, key.
Qed.

(** A dispatch sends frames that leave the message with the broker, or one that
    settles it for a reason. *)
Lemma dispatch_reason c :
  dispatches c ->
  Forall (fun f => ∃ m, f = FNack m true) (disp_frames c) ∨ processed_by c ∨ rejected_by c.
Proof.
  intros (Hb & H1 & H2).
  pose proof (dispatch_frames (dcConfig c) (dcEnv c) (dcRaw c) (dcCounter c) (dcSampler c) Hb H1 H2) as Hv.
  pose proof (returned_reason c (safeCallHandler (eHandler (dcEnv c)))) as Hret.
  unfold handler_decided, rejected_by, disp_frames, disp_events in *.
  destruct (dispatch _ _ _ _ _ _) as [[[evs d] cs'] s'] eqn:E; cbn [fst snd] in *.
  assert (disp_events c = evs) as Hevs by (unfold disp_events; by rewrite E).
  destruct Hv as [(Hw & Hni & Hf)|(Hok & Hnl & Hi & Hf)].
  - right. right. split; [done|]. rewrite <- Hevs in Hni. destruct Hw as [Hw|Hw]; [|by apply DeathLimit].
    apply Undecodable; [|done]. intros E'. by rewrite E' in Hw.
  - destruct (handler_won (dcConfig c) (dcEnv c)) eqn:Ew.
    + destruct (counterB_start _ _ _ _) as [cs key]. apply Hret; [|done|done]. done.
    + unfold handler_won in Ew. apply orb_false_iff in Ew as [Ez Er]. apply bool_decide_eq_false in Ez.
      destruct (eRace (dcEnv c)) as [| |cause] eqn:Ec; [done|rewrite Hf; by left|].
      destruct (err_is (hctx_err cause) ContextDeadlineExceeded) eqn:Ed; [|rewrite Hf; by left].
      case_bool_decide as Hv.
      * left. rewrite Hf. repeat constructor. by exists false.
      * right. right. split; [done|]. eapply Overran; [done|exact Ec| |done]. by destruct cause.
Qed.

(** ** Properties *)

Section safety.
  Context {B : Type} `{BrokerLaws B}.

(** What a dispatch makes of a message the broker holds. *)
Lemma dispatch_settles c mid (b : B) :
  dispatches c -> mid ∈ held b ->
  mid ∈ held (settle mid (disp_frames c) b) ∨ processed_by c ∨ rejected_by c.
Proof.
  intros Hd Hheld. destruct (dispatch_reason c Hd) as [Hall|Hs]; [left|by right].
  apply (settle_kept mid (disp_frames c) b); [|done]. by apply Forall_forall.
Qed.

End safety.

(** ** A broker *)

(** The frames up to the first ack of the tag, if it comes. *)
Fixpoint before_ack (tag : Z) (fs : list demux) : option (list demux) :=
  match fs with
  | [] => None
  | f :: r => if decide (f = DConfirm tag true) then Some [] else (f ::.) <$> before_ack tag r
  end.

Definition is_return (mid : string) (f : demux) : bool :=
  match f with DReturn m _ => bool_decide (m = mid) | _ => false end.

Definition keeps (f : frame) : bool := match f with FNack _ true => true | _ => false end.

(** It takes what it acks without a return, and forgets what is acked or
    rejected. *)
#[global] Instance set_broker : Broker (gset string) := {|
  held b := b;
  accept mid tag fs b :=
    match before_ack tag fs with
    | Some pre => if forallb (fun f => negb (is_return mid f)) pre then {[ mid ]} ∪ b else b
    | None => b
    end;
  settle mid fs b := if forallb keeps fs then b else b ∖ {[ mid ]};
  channel_down b := b
|}.

Lemma before_ack_spec tag fs pre post :
  fs = pre ++ DConfirm tag true :: post -> ∃ pre', before_ack tag fs = Some pre' ∧ pre' `prefix_of` pre.
Proof.
  intros ->. induction pre as [|f pre IH]; simpl.
  { rewrite decide_True by done. by exists []. }
  destruct (decide (f = DConfirm tag true)); [exists []; split; [done|apply prefix_nil]|].
  destruct IH as (pre' & -> & Hp). exists (f :: pre'). split; [done|by apply prefix_cons].
Qed.

#[global] Instance set_broker_laws : BrokerLaws (gset string).
Proof.
  split; simpl.
  - intros mid tag fs b (pre & post & E & Hr).
    destruct (before_ack_spec _ _ _ _ E) as (pre' & -> & [k Hk]).
    rewrite (proj2 (forallb_forall _ pre')); [set_solver|].
    intros f Hf%list_elem_of_In. destruct f as [m code| |]; try done. simpl. apply negb_true_iff, bool_decide_eq_false.
    intros ->. apply (Hr code). rewrite Hk. set_solver.
  - intros mid tag fs b. repeat case_match; set_solver.
  - intros mid fs b. case_match; set_solver.
  - intros mid fs b Hall. rewrite (proj2 (forallb_forall keeps fs)); [done|].
    intros f Hf%list_elem_of_In. by destruct (Hall f Hf) as [m ->].
  - done.
Qed.

(** A publish that is nacked, retried and confirmed, then a dispatch whose
    handler asks for a requeue and one whose handler succeeds. *)
Definition run_pub : pub_call :=
  mkPubCall 0 (Some 5) sample_encoder sample_encode_env false (fun h => h) sample_msg tries0
    (default (mkOut None [] 0 None) publish0).

Definition sent_id : string := "id-1".

Definition run_disp (h : goerror) : disp_call :=
  mkDispCall sample_config (mkEnv DOk (HReturn h) [] [] false RHandler false None)
    (mkRaw 1 sent_id "" None false 3) ∅ sampler0.

Lemma run_pub_publishes : publishes run_pub.
Proof.
  split_and!; [|by intros id [= <-]|by vm_compute].
  intros t Ht. simpl in Ht. repeat apply elem_of_cons in Ht as [->|Ht]; try apply idle0. by apply not_elem_of_nil in Ht.
Qed.

