(* ===== verification/Examples.v ===== *)
(** * Examples: the stores the examples consume with

    Models the data structures of two examples: [seenCache], the bounded dedupe
    window of [src/examples/idempotent_consume/main.go], and [orderTracker], the
    ordered sink of [src/examples/ordered_consume/main.go].  Both do all their
    work under a mutex, so a run is a sequence of calls. *)

From S2P Require Import Prelude Errors.

Module SeenCache.

(** ** Data *)

Record seenEntry : Type := mkEntry { id : string; expires : Z }.

(** The elements of the linked list are addresses; [ll] lists them front to
    back, [index] finds the one of a message id. *)
Record seenCache : Type := mkCache {
  capacity : Z;
  ttl : Z;
  elems : gmap nat seenEntry;
  ll : list nat;
  index : gmap string nat
}.

Definition newSeenCache (capacity ttl : Z) : seenCache := mkCache capacity ttl ∅ [] ∅.

Definition moveToFront (a : nat) (l : list nat) : list nat := a :: filter (fun b => b ≠ a) l.

(** ** markSeen *)

(** [oldest] is removed from the list, and its id from the index. *)
Definition evict (c : seenCache) : seenCache :=
  if decide (capacity c < Z.of_nat (length (ll c))) then
    match last (ll c) with
    | Some oldest =>
        mkCache (capacity c) (ttl c) (delete oldest (elems c)) (take (length (ll c) - 1) (ll c))
          (match elems c !! oldest with Some ent => delete (id ent) (index c) | None => index c end)
    | None => c
    end
  else c.

Definition markSeen (now : Z) (i : string) (c : seenCache) : bool * seenCache :=
  match index c !! i with
  | Some el =>
      match elems c !! el with
      | Some ent =>
          if decide (now < expires ent)
          then (false, mkCache (capacity c) (ttl c) (elems c) (moveToFront el (ll c)) (index c))
          else (true, mkCache (capacity c) (ttl c) (<[ el := mkEntry (id ent) (now + ttl c) ]> (elems c))
                        (moveToFront el (ll c)) (index c))
      | None => (true, c)        (* not reached: the index holds live elements *)
      end
  | None =>
      let el := fresh (dom (elems c)) in
      (true, evict (mkCache (capacity c) (ttl c) (<[ el := mkEntry i (now + ttl c) ]> (elems c))
                      (el :: ll c) (<[ i := el ]> (index c))))
  end.

(** ** The window as a list *)

(** What the cache means: the entries, most recently seen first. *)
Definition entries (c : seenCache) : list seenEntry := omap (fun a => elems c !! a) (ll c).

Definition others (i : string) (l : list seenEntry) : list seenEntry := filter (fun e => id e ≠ i) l.

Definition find_id (i : string) (l : list seenEntry) : option seenEntry :=
  snd <$> list_find (fun e => id e = i) l.

Definition mark (cap t : Z) (now : Z) (i : string) (l : list seenEntry) : bool * list seenEntry :=
  match find_id i l with
  | Some ent =>
      if decide (now < expires ent) then (false, ent :: others i l)
      else (true, mkEntry i (now + t) :: others i l)
  | None =>
      let l' := mkEntry i (now + t) :: l in
      (true, if decide (cap < Z.of_nat (length l')) then take (length l) l' else l')
  end.

(** ** Invariant *)

Record wf (c : seenCache) : Prop := {
  wf_nodup : NoDup (ll c);
  wf_live : ∀ a, a ∈ ll c <-> is_Some (elems c !! a);
  wf_index : ∀ i a, index c !! i = Some a <-> ∃ e, elems c !! a = Some e ∧ id e = i
}.

Lemma wf_new cap t : wf (newSeenCache cap t).
Proof.
  split; simpl; [constructor| |].
  - intros a. rewrite lookup_empty. split; [set_solver|by intros []].
  - intros i a. rewrite !lookup_empty. split; [done|by intros (? & ? & _)].
Qed.

(** ** Refinement *)

Section list_facts.
  Context (m : gmap nat seenEntry) (i : string) (el : nat).
  Implicit Types l : list nat.

Lemma omap_others l :
  (∀ a e, a ∈ l -> m !! a = Some e -> id e = i <-> a = el) ->
  omap (fun a => m !! a) (filter (fun b => b ≠ el) l) = others i (omap (fun a => m !! a) l).
Proof.
  intros Hl. unfold others. induction l as [|a l IH]; [done|].
  assert (∀ b e, b ∈ l -> m !! b = Some e -> id e = i <-> b = el) as Hl' by (intros; apply Hl; set_solver).
  specialize (IH Hl'). rewrite omap_cons. destruct (m !! a) as [e|] eqn:Ha.
  - assert (id e = i <-> a = el) as Hae by (apply Hl; [left|done]).
    destruct (decide (a = el)) as [E|E].
    + rewrite filter_cons_False by tauto. rewrite filter_cons_False by tauto. exact IH.
    + rewrite !filter_cons_True by tauto. rewrite omap_cons, Ha. by f_equal.
  - destruct (decide (a = el)) as [E|E].
    + rewrite filter_cons_False by tauto. exact IH.
    + rewrite filter_cons_True by tauto. rewrite omap_cons, Ha. exact IH.
Qed.

Lemma omap_insert_absent l e : el ∉ l -> omap (fun a => <[ el := e ]> m !! a) l = omap (fun a => m !! a) l.
Proof.
  intros Hl. induction l as [|a l IH]; [done|].
  rewrite !omap_cons, lookup_insert_ne by set_solver. by rewrite IH by set_solver.
Qed.

Lemma omap_delete_absent l : el ∉ l -> omap (fun a => delete el m !! a) l = omap (fun a => m !! a) l.
Proof.
  intros Hl. induction l as [|a l IH]; [done|].
  rewrite !omap_cons, lookup_delete_ne by set_solver. by rewrite IH by set_solver.
Qed.

Lemma omap_live_length l : (∀ a, a ∈ l -> is_Some (m !! a)) -> length (omap (fun a => m !! a) l) = length l.
Proof.
  intros Hl. induction l as [|a l IH]; [done|]. rewrite omap_cons.
  destruct (Hl a) as [e ->]; [left|]. simpl. rewrite IH; [done|]. set_solver.
Qed.
End list_facts.

Lemma find_id_Some i l e : find_id i l = Some e -> e ∈ l ∧ id e = i.
Proof.
  unfold find_id. destruct (list_find _ l) as [[k x]|] eqn:E; [|done]. simpl. intros [= ->].
  apply list_find_Some in E as (Hk & Hi & _). split; [by eapply list_elem_of_lookup_2|done].
Qed.

Lemma find_id_None i l : find_id i l = None <-> ∀ e, e ∈ l -> id e ≠ i.
Proof.
  unfold find_id. rewrite fmap_None, list_find_None, Forall_forall. done.
Qed.

Lemma elem_of_entries c e : e ∈ entries c <-> ∃ a, a ∈ ll c ∧ elems c !! a = Some e.
Proof. unfold entries. rewrite list_elem_of_omap. naive_solver. Qed.

Lemma entries_length c : wf c -> length (entries c) = length (ll c).
Proof. intros [_ Hl _]. apply omap_live_length. intros a. apply Hl. Qed.

Lemma entries_ids c a b e e' :
  wf c -> elems c !! a = Some e -> elems c !! b = Some e' -> id e = id e' -> a = b.
Proof.
  intros Hw Ha Hb E. assert (index c !! id e = Some a) as H1 by (apply (wf_index c Hw); eauto).
  assert (index c !! id e = Some b) as H2 by (apply (wf_index c Hw); eauto). congruence.
Qed.

(** The index finds the entry of an id. *)
Lemma find_entry c i :
  wf c -> find_id i (entries c) = index c !! i ≫= (fun a => elems c !! a).
Proof.
  intros Hw. destruct (index c !! i) as [a|] eqn:Ei; simpl.
  - apply (wf_index c Hw) in Ei as (e & Ha & Hi). rewrite Ha.
    destruct (find_id i (entries c)) as [x|] eqn:Ef.
    + apply find_id_Some in Ef as [(b & _ & Hb)%elem_of_entries Hx]. f_equal.
      assert (b = a) as -> by (eapply entries_ids; [done|exact Hb|exact Ha|congruence]). congruence.
    + rewrite find_id_None in Ef. destruct (Ef e); [|done]. apply elem_of_entries. exists a. split; [|done].
      apply (wf_live c Hw). eauto.
  - apply find_id_None. intros e (a & Hal & Ha)%elem_of_entries Hi.
    assert (index c !! i = Some a); [|congruence]. apply (wf_index c Hw). eauto.
Qed.

Lemma entries_front c a e i :
  wf c -> elems c !! a = Some e -> id e = i ->
  omap (fun x => elems c !! x) (filter (fun b => b ≠ a) (ll c)) = others i (entries c).
Proof.
  intros Hw Ha Hi. apply omap_others. intros b e' _ Hb. split; [|intros ->; congruence].
  intros E. eapply entries_ids; [done|exact Hb|exact Ha|congruence].
Qed.

Lemma wf_touch c a e now' :
  wf c -> elems c !! a = Some e ->
  wf (mkCache (capacity c) (ttl c) (<[ a := mkEntry (id e) now' ]> (elems c)) (moveToFront a (ll c)) (index c)).
Proof.
  intros Hw Ha. pose proof (wf_live c Hw) as Hl. split; simpl.
  - unfold moveToFront. apply NoDup_cons. split; [rewrite list_elem_of_filter; tauto|].
    apply NoDup_filter, (wf_nodup c Hw).
  - intros b. unfold moveToFront. rewrite elem_of_cons, list_elem_of_filter, Hl, lookup_insert_is_Some. naive_solver.
  - intros j b. rewrite (wf_index c Hw). destruct (decide (b = a)) as [->|Hne].
    + rewrite lookup_insert_eq, Ha. naive_solver.
    + by rewrite lookup_insert_ne.
Qed.

Lemma wf_move c a e :
  wf c -> elems c !! a = Some e ->
  wf (mkCache (capacity c) (ttl c) (elems c) (moveToFront a (ll c)) (index c)).
Proof.
  intros Hw Ha. pose proof (wf_touch c a e (expires e) Hw Ha) as H.
  rewrite insert_id in H; [done|]. by destruct e.
Qed.

Lemma wf_push c i now' :
  wf c -> index c !! i = None ->
  let el := fresh (dom (elems c)) in
  wf (mkCache (capacity c) (ttl c) (<[ el := mkEntry i now' ]> (elems c)) (el :: ll c) (<[ i := el ]> (index c))).
Proof.
  intros Hw Hi el. assert (elems c !! el = None) as Hel by apply not_elem_of_dom, is_fresh.
  assert (el ∉ ll c) as Hnl by (rewrite (wf_live c Hw), Hel; by intros []). split; simpl.
  - apply NoDup_cons. split; [done|apply (wf_nodup c Hw)].
  - intros b. rewrite elem_of_cons, (wf_live c Hw), lookup_insert_is_Some'. naive_solver.
  - intros j b. destruct (decide (j = i)) as [->|Hj].
    + rewrite lookup_insert_eq. destruct (decide (b = el)) as [->|Hb].
      * rewrite lookup_insert_eq. naive_solver.
      * rewrite lookup_insert_ne by done. split; [naive_solver|]. intros (e & He & E).
        assert (index c !! i = Some b) by (apply (wf_index c Hw); eauto). congruence.
    + rewrite lookup_insert_ne by done. rewrite (wf_index c Hw). destruct (decide (b = el)) as [->|Hb].
      * rewrite lookup_insert_eq, Hel. naive_solver.
      * by rewrite lookup_insert_ne.
Qed.

Lemma evict_spec c :
  wf c -> wf (evict c) ∧ capacity (evict c) = capacity c ∧ ttl (evict c) = ttl c
  ∧ entries (evict c) = if decide (capacity c < Z.of_nat (length (entries c)))
                        then take (length (entries c) - 1) (entries c) else entries c.
Proof.
  intros Hw. rewrite (entries_length c Hw). unfold evict. case_decide; [|done].
  destruct (last (ll c)) as [old|] eqn:El.
  2:{ apply last_None in El. split_and!; [done..|]. unfold entries. by rewrite El. }
  apply last_Some in El as [l El]. pose proof (wf_nodup c Hw) as Hn. rewrite El in Hn.
  apply NoDup_app in Hn as (Hn & Hnl & _). assert (old ∉ l) as Hol by set_solver.
  destruct (proj1 (wf_live c Hw old)) as [e He]; [rewrite El; set_solver|]. rewrite He.
  rewrite El, length_app. replace (length l + length [old] - 1)%nat with (length l) by (simpl; lia).
  rewrite take_app_length. split_and!; [|done|done|].
  - split; simpl; [done| |].
    + intros a. rewrite lookup_delete_is_Some, <- (wf_live c Hw), El. set_solver.
    + intros i a. destruct (decide (i = id e)) as [->|Hi].
      * rewrite lookup_delete_eq. split; [done|]. intros (e' & Ha & E). apply lookup_delete_Some in Ha as [Hne Ha].
        destruct Hne. eapply entries_ids; [exact Hw|exact He|exact Ha|congruence].
      * rewrite lookup_delete_ne by done. rewrite (wf_index c Hw). split; intros (e' & Ha & E); exists e'; (split; [|done]).
        -- apply lookup_delete_Some. split; [congruence|done].
        -- by apply lookup_delete_Some in Ha as [_ Ha].
  - unfold entries. simpl. rewrite omap_delete_absent by done. rewrite El, omap_app.
    assert (length (omap (fun a => elems c !! a) l) = length l) as <-.
    { apply omap_live_length. intros a Ha. apply (wf_live c Hw). rewrite El. set_solver. }
    by rewrite take_app_length.
Qed.

(** The cache with its index and linked list is the window: same answers, same
    entries in the same order of recency, and the invariant is kept. *)
Lemma markSeen_refines now i c :
  wf c -> let '(b, c') := markSeen now i c in
  wf c' ∧ capacity c' = capacity c ∧ ttl c' = ttl c
  ∧ mark (capacity c) (ttl c) now i (entries c) = (b, entries c').
Proof.
  intros Hw. unfold mark. rewrite (find_entry c i Hw). unfold markSeen.
  destruct (index c !! i) as [el|] eqn:Ei; simpl.
  - apply (wf_index c Hw) in Ei as (ent & He & Hi). rewrite He. simpl.
    case_decide.
    + split_and!; [by eapply wf_move|done|done|]. f_equal. unfold entries at 2. cbn [ll elems].
      unfold moveToFront. rewrite omap_cons, He. f_equal. symmetry. by eapply entries_front.
    + split_and!; [by apply wf_touch|done|done|]. f_equal. unfold entries at 2. cbn [ll elems].
      unfold moveToFront. rewrite omap_cons, lookup_insert_eq, Hi. f_equal.
      rewrite omap_insert_absent by (rewrite list_elem_of_filter; tauto). symmetry. by eapply entries_front.
  - pose proof (wf_push c i (now + ttl c) Hw Ei) as Hp. simpl in Hp.
    set (el := fresh (dom (elems c))) in *.
    destruct (evict_spec _ Hp) as (H1 & H2 & H3 & H4). split_and!; [done|done|done|]. f_equal. rewrite H4. simpl.
    assert (elems c !! el = None) as Hel by apply not_elem_of_dom, is_fresh.
    assert (entries (mkCache (capacity c) (ttl c) (<[ el := mkEntry i (now + ttl c) ]> (elems c)) (el :: ll c)
      (<[ i := el ]> (index c))) = mkEntry i (now + ttl c) :: entries c) as ->.
    { unfold entries. cbn [ll elems]. rewrite omap_cons, lookup_insert_eq. f_equal. apply omap_insert_absent.
      rewrite (wf_live c Hw), Hel. by intros []. }
    simpl. by rewrite Nat.sub_0_r.
Qed.

(** ** The window *)

Lemma elem_of_others i l e : e ∈ others i l <-> id e ≠ i ∧ e ∈ l.
Proof. unfold others. by rewrite list_elem_of_filter. Qed.

Lemma others_ids i l : NoDup (id <$> l) -> NoDup (id <$> others i l).
Proof.
  intros H. unfold others. induction l as [|e l IH]; [done|].
  apply NoDup_cons in H as [He H]. rewrite filter_cons. case_decide; [|by apply IH].
  rewrite fmap_cons. apply NoDup_cons. split; [|by apply IH].
  intros (x & Ex & Hx%elem_of_others)%list_elem_of_fmap. apply He. rewrite Ex.
  apply list_elem_of_fmap_2. tauto.
Qed.

(** Ids stay distinct. *)
Lemma mark_ids cap t now i l : NoDup (id <$> l) -> NoDup (id <$> (mark cap t now i l).2).
Proof.
  intros H. unfold mark.
  assert (i ∉ id <$> others i l) as Hi.
  { intros (x & Ex & Hx%elem_of_others)%list_elem_of_fmap. naive_solver. }
  destruct (find_id i l) as [e|] eqn:Ef.
  - apply find_id_Some in Ef as [_ Ei]. case_decide; simpl; apply NoDup_cons; rewrite ?Ei;
      by split; [|apply others_ids].
  - rewrite find_id_None in Ef. assert (NoDup (id <$> mkEntry i (now + t) :: l)) as Hn.
    { apply NoDup_cons. split; [|done]. intros (x & Ex & Hx)%list_elem_of_fmap. by destruct (Ef x Hx). }
    cbv zeta. cbn [snd]. case_decide; [|done]. rewrite fmap_take. by eapply sublist_NoDup; [|apply sublist_take].
Qed.

(** The id [i] is in the list, not due before [E], and everything more recent
    has an id of [S]. *)
Definition recent (i : string) (E : Z) (S : gset string) (l : list seenEntry) : Prop :=
  ∃ l1 e l2, l = l1 ++ e :: l2 ∧ id e = i ∧ E <= expires e ∧ ∀ x, x ∈ l1 -> id x ∈ S.

Lemma recent_length (i : string) (S : gset string) l1 :
  NoDup (id <$> l1) -> (∀ x, x ∈ l1 -> id x ∈ S) -> (length l1 <= size S)%nat.
Proof.
  intros Hn Hs. rewrite <- (length_fmap id l1), <- (size_list_to_set (C := gset string)) by done.
  apply subseteq_size. intros x (y & -> & Hy)%elem_of_list_to_set%list_elem_of_fmap. by apply Hs.
Qed.

Lemma find_id_mid i l1 e l2 :
  NoDup (id <$> l1 ++ e :: l2) -> id e = i -> find_id i (l1 ++ e :: l2) = Some e.
Proof.
  intros Hn Hi. destruct (find_id i (l1 ++ e :: l2)) as [x|] eqn:Ef.
  - apply find_id_Some in Ef as [Hx Ex]. f_equal.
    apply list_elem_of_lookup in Hx as [k Hk]. assert ((l1 ++ e :: l2) !! length l1 = Some e) as He by by apply list_lookup_middle.
    assert (k = length l1) as ->; [|congruence]. eapply NoDup_lookup; [exact Hn|..]; rewrite list_lookup_fmap;
      [rewrite Hk|rewrite He]; simpl; by rewrite ?Ex, ?Hi.
  - rewrite find_id_None in Ef. by destruct (Ef e); [set_solver|].
Qed.

Lemma others_app i l1 l2 : others i (l1 ++ l2) = others i l1 ++ others i l2.
Proof. apply filter_app. Qed.

Lemma others_cons_ne i e l : id e ≠ i -> others i (e :: l) = e :: others i l.
Proof. intros. unfold others. by rewrite filter_cons_True. Qed.

(** A call on the id itself answers false and makes it the most recent. *)
Lemma recent_hit cap t now i E S l :
  NoDup (id <$> l) -> recent i E S l -> now < E ->
  (mark cap t now i l).1 = false ∧ recent i E S (mark cap t now i l).2.
Proof.
  intros Hn (l1 & e & l2 & -> & Hi & He & Hs) Hnow. unfold mark. rewrite find_id_mid by done.
  rewrite decide_True by lia. split; [done|].
  exists [], e, (others i (l1 ++ e :: l2)). split_and!; [done|done|done|]. intros x Hx. by apply not_elem_of_nil in Hx.
Qed.

(** A call on another id keeps it, unless the window is full of others. *)
Lemma recent_other cap t now i j E S l :
  NoDup (id <$> l) -> recent i E S l -> j ≠ i -> i ∉ S -> Z.of_nat (size ({[ j ]} ∪ S)) < cap ->
  recent i E ({[ j ]} ∪ S) (mark cap t now j l).2.
Proof.
  intros Hn (l1 & e & l2 & -> & Hi & He & Hs) Hj HiS Hcap. unfold mark.
  destruct (find_id j (l1 ++ e :: l2)) as [x|] eqn:Ef.
  - apply find_id_Some in Ef as [_ Ex].
    assert (∀ y, id y = j -> recent i E ({[ j ]} ∪ S) (y :: others j (l1 ++ e :: l2))) as Hr.
    { intros y Hy. rewrite others_app, others_cons_ne by congruence.
      exists (y :: others j l1), e, (others j l2). split_and!; [done|done|done|].
      intros z [->|[_ Hz]%elem_of_others]%elem_of_cons; set_solver. }
    case_decide; simpl; by apply Hr.
  - rewrite find_id_None in Ef. set (new := mkEntry j (now + t)). cbv zeta. cbn [snd].
    assert (∀ y, y ∈ new :: l1 -> id y ∈ {[ j ]} ∪ S) as Hall.
    { intros z [->|Hz]%elem_of_cons; [set_solver|]. specialize (Hs z Hz). set_solver. }
    case_decide as Hc; [|exists (new :: l1), e, l2; by split_and!].
    destruct l2 as [|y l2 _] using rev_ind.
    + exfalso. assert (length (new :: l1) <= size ({[ j ]} ∪ S))%nat as Hlen.
      { apply (recent_length i); [|done]. rewrite fmap_cons. apply NoDup_cons. split.
        - intros (z & Ez & Hz)%list_elem_of_fmap. destruct (Ef z); [set_solver|done].
        - rewrite fmap_app in Hn. by apply NoDup_app in Hn as [Hn _]. }
      simpl in Hlen. simpl in Hc. rewrite length_app in Hc. simpl in Hc. lia.
    + exists (new :: l1), e, l2. split_and!; [|done|done|done].
      replace (new :: l1 ++ e :: l2 ++ [y]) with ((new :: l1 ++ e :: l2) ++ [y]) by (simpl; by rewrite <- app_assoc).
      rewrite take_app_le by (simpl; rewrite !length_app; simpl; rewrite length_app; simpl; lia).
      rewrite take_ge; [done|]. simpl. rewrite !length_app. simpl. rewrite length_app. simpl. lia.
Qed.

(** ** Runs *)

(** Calls of [markSeen] with the clock each of them reads. *)
Definition run (cs : list (Z * string)) (c : seenCache) : seenCache :=
  foldl (fun c x => (markSeen x.1 x.2 c).2) c cs.

Lemma entries_ids_NoDup c : wf c -> NoDup (id <$> entries c).
Proof.
  intros Hw. unfold entries. pose proof (wf_nodup c Hw) as Hn.
  induction (ll c) as [|a l IH]; [constructor|]. apply NoDup_cons in Hn as [Ha Hn]. rewrite omap_cons.
  destruct (elems c !! a) as [e|] eqn:He; [|by apply IH]. rewrite fmap_cons. apply NoDup_cons.
  split; [|by apply IH]. intros (x & Ex & (b & Hb & Hx)%list_elem_of_omap)%list_elem_of_fmap.
  assert (a = b) as -> by (eapply entries_ids; [done|exact He|exact Hx|done]). done.
Qed.

Record kept (cap t : Z) (c : seenCache) : Prop := {
  kept_wf : wf c;
  kept_capacity : capacity c = cap;
  kept_ttl : ttl c = t;
  kept_bounded : Z.of_nat (length (entries c)) <= cap
}.

Lemma mark_bounded cap t now i l :
  0 <= cap -> Z.of_nat (length l) <= cap -> Z.of_nat (length (mark cap t now i l).2) <= cap.
Proof.
  intros Hc Hl. unfold mark. destruct (find_id i l) as [e|] eqn:Ef.
  - apply find_id_Some in Ef as [He Ei]. apply list_elem_of_split in He as (l1 & l2 & ->).
    assert (length (others i (l1 ++ e :: l2)) < length (l1 ++ e :: l2))%nat.
    { rewrite others_app. unfold others at 2. rewrite filter_cons_False by tauto. rewrite !length_app.
      pose proof (length_filter (fun e => id e ≠ i) l1). pose proof (length_filter (fun e => id e ≠ i) l2).
      unfold others. simpl. lia. }
    case_decide; simpl; lia.
  - cbv zeta. cbn [snd]. case_decide; [rewrite length_take; simpl in *; lia|lia].
Qed.

Lemma kept_step cap t now i c : 0 <= cap -> kept cap t c -> kept cap t (markSeen now i c).2.
Proof.
  intros Hc [Hw Hcap Ht Hb]. pose proof (markSeen_refines now i c Hw) as H.
  destruct (markSeen now i c) as [b c']. destruct H as (H1 & H2 & H3 & H4). simpl. split; try congruence.
  pose proof (mark_bounded cap t now i (entries c) Hc Hb) as Hm. rewrite <- Hcap, <- Ht, H4 in Hm. simpl in Hm. lia.
Qed.

Lemma kept_run cap t cs c : 0 <= cap -> kept cap t c -> kept cap t (run cs c).
Proof.
  intros Hc. revert c. induction cs as [|x cs IH]; intros c H; [done|]. simpl. apply IH, kept_step; done.
Qed.

Lemma kept_new cap t : 0 <= cap -> kept cap t (newSeenCache cap t).
Proof. intros Hc. split; [apply wf_new|done|done|]. simpl. lia. Qed.

Lemma markSeen_mark cap t now i c :
  kept cap t c -> mark cap t now i (entries c) = ((markSeen now i c).1, entries (markSeen now i c).2).
Proof.
  intros [Hw <- <- _]. pose proof (markSeen_refines now i c Hw) as H.
  destruct (markSeen now i c) as [b c']. tauto.
Qed.

(** A first sight is the most recent entry. *)
Lemma recent_first cap t now i c :
  0 < cap -> kept cap t c -> (markSeen now i c).1 = true ->
  recent i (now + t) ∅ (entries (markSeen now i c).2).
Proof.
  intros Hc Hk Hb. pose proof (markSeen_mark cap t now i c Hk) as Hm. rewrite Hb in Hm. unfold mark in Hm.
  destruct (find_id i (entries c)) as [e|]; [case_decide; [done|]|]; injection Hm as Hm; rewrite <- Hm.
  - eexists [], _, _. split_and!; [done|done|done|set_solver].
  - case_decide as Hd; [|eexists [], _, _; split_and!; [done|done|done|set_solver]].
    destruct (entries c) as [|x l] eqn:Ee; [simpl in Hd; lia|]. cbn [length take].
    eexists [], _, _. split_and!; [done|done|done|set_solver].
Qed.

(** The ids, other than [i], that calls name. *)
Definition rivals (i : string) (cs : list (Z * string)) : gset string := list_to_set cs.*2 ∖ {[ i ]}.

Lemma recent_run cap t i E S cs c :
  0 <= cap -> kept cap t c -> recent i E S (entries c) -> i ∉ S ->
  Forall (fun x => x.1 < E) cs -> Z.of_nat (size (rivals i cs ∪ S)) < cap ->
  recent i E (rivals i cs ∪ S) (entries (run cs c)).
Proof.
  intros Hc. revert S c. induction cs as [|[now j] cs IH]; intros S c Hk Hr Hi HF Hs.
  { by replace (rivals i [] ∪ S) with S by (unfold rivals; set_solver). }
  apply Forall_cons in HF as [Hnow HF]. simpl in Hnow.
  pose proof (markSeen_mark cap t now j c Hk) as Hm.
  pose proof (entries_ids_NoDup c (kept_wf _ _ _ Hk)) as Hn. cbn [run foldl fst snd].
  destruct (decide (j = i)) as [->|Hj].
  - assert (rivals i ((now, i) :: cs) = rivals i cs) as Er by (unfold rivals; set_solver).
    rewrite Er in *. apply IH; [by apply kept_step| |done|done|done].
    replace (entries (markSeen now i c).2) with (mark cap t now i (entries c)).2 by by rewrite Hm.
    by apply recent_hit.
  - assert (rivals i ((now, j) :: cs) ∪ S = rivals i cs ∪ ({[ j ]} ∪ S)) as Er by (unfold rivals; set_solver).
    rewrite Er in *. apply IH; [by apply kept_step| |set_solver|done|done].
    replace (entries (markSeen now j c).2) with (mark cap t now j (entries c)).2 by by rewrite Hm.
    apply recent_other; [done|done|done|done|]. eapply Z.le_lt_trans; [|exact Hs].
    apply inj_le, subseteq_size. set_solver.
Qed.

(** The ids in the cache are ids that were named. *)
Lemma mark_named cap t now i l e : e ∈ (mark cap t now i l).2 -> id e = i ∨ e ∈ l.
Proof.
  unfold mark. destruct (find_id i l) as [x|] eqn:Ef.
  - apply find_id_Some in Ef as [Hx Ei]. case_decide; simpl; rewrite elem_of_cons, elem_of_others; naive_solver.
  - cbn [snd]. intros He. case_decide.
    + apply elem_of_take in He as (k & He & _). apply list_elem_of_lookup_2 in He.
      apply elem_of_cons in He as [->|He]; auto.
    + apply elem_of_cons in He as [->|He]; auto.
Qed.

Lemma run_named cap t cs c e :
  0 <= cap -> kept cap t c -> e ∈ entries (run cs c) -> id e ∈ cs.*2 ∨ e ∈ entries c.
Proof.
  intros Hc. revert c. induction cs as [|[now i] cs IH]; intros c Hk He; [by right|].
  cbn [run foldl] in He. destruct (IH _ (kept_step _ _ _ _ _ Hc Hk) He) as [H|H]; [left; by right|].
  cbn [fst snd] in H. pose proof (markSeen_mark cap t now i c Hk) as Hm.
  replace (entries (markSeen now i c).2) with (mark cap t now i (entries c)).2 in H by by rewrite Hm.
  destruct (mark_named _ _ _ _ _ _ H) as [->|H']; [left; by left|by right].
Qed.

(** An id that was never named is new. *)
Lemma first_sight cap t cs now i :
  0 <= cap -> i ∉ cs.*2 -> (markSeen now i (run cs (newSeenCache cap t))).1 = true.
Proof.
  intros Hc Hi. assert (kept cap t (run cs (newSeenCache cap t))) as Hk by by apply kept_run, kept_new.
  pose proof (markSeen_mark cap t now i _ Hk) as Hm.
  assert (find_id i (entries (run cs (newSeenCache cap t))) = None) as Hf.
  { apply find_id_None. intros e He Ee. apply (run_named cap t) in He as [He|He]; [congruence| |done|by apply kept_new].
    by apply elem_of_nil in He. }
  unfold mark in Hm. rewrite Hf in Hm. by injection Hm as <- _.
Qed.
(** ** Properties *)

(** The dedupe window of the example: in any run on a cache of positive
    capacity, once [markSeen] has answered true for an id (its first sight, or
    its first after it expired), every later call for that id answers false, as
    long as its time to live has not passed and fewer than [capacity] other ids
    were named in between; and the cache never holds more than [capacity]
    entries. *)
Lemma dedupe_window cap t cs0 t1 i cs t2 :
  0 < cap -> let c := run cs0 (newSeenCache cap t) in
  (markSeen t1 i c).1 = true -> Forall (fun x => x.1 < t1 + t) cs -> t2 < t1 + t ->
  Z.of_nat (size (rivals i cs)) < cap ->
  let c' := run cs (markSeen t1 i c).2 in
  (markSeen t2 i c').1 = false ∧ Z.of_nat (length (ll c')) <= cap.
Proof.
  intros Hcap c Hfirst HF Ht2 Hs c'.
  assert (0 <= cap) as Hc0 by lia.
  assert (kept cap t c) as Hk by (by apply kept_run, kept_new).
  assert (kept cap t (markSeen t1 i c).2) as Hk1 by (by apply kept_step).
  assert (kept cap t c') as Hk' by (by apply kept_run).
  split; [|rewrite <- entries_length by apply Hk'; apply Hk'].
  assert (recent i (t1 + t) (rivals i cs) (entries c')) as Hr.
  { rewrite <- (union_empty_r_L (rivals i cs)). apply (recent_run cap t); [done|exact Hk1| |set_solver|done|].
    - by apply (recent_first cap).
    - by rewrite union_empty_r_L. }
  destruct (recent_hit cap t t2 i (t1 + t) (rivals i cs) (entries c')) as [Hb _];
    [apply entries_ids_NoDup, Hk'|done|done|]. by rewrite (markSeen_mark cap t) in Hb by done.
Qed.

(** A duplicate that comes after another id, then a third id, in a window of
    two. *)
Lemma dedupe_window_witness :
  (markSeen 5 "a" (run [(3, "b"%string)] (markSeen 1 "a" (run [(0, "z"%string)] (newSeenCache 2 10))).2)).1 = false
  ∧ Z.of_nat (length (ll (run [(3, "b"%string)] (markSeen 1 "a" (run [(0, "z"%string)] (newSeenCache 2 10))).2))) <= 2.
Proof.
  apply (dedupe_window 2 10 [(0, "z"%string)] 1 "a" [(3, "b"%string)] 5); [lia|reflexivity| |lia|].
  - constructor; [simpl; lia|constructor].
  - by vm_compute.
Defined.

(** The bounds are tight: the id is forgotten when the window is full of others,
    and when its time is up. *)
Example window_tight :
  (markSeen 5 "a" (run [(3, "b"); (4, "c")]%string (markSeen 1 "a" (newSeenCache 2 10)).2)).1 = true
  ∧ (markSeen 11 "a" (markSeen 1 "a" (newSeenCache 2 10)).2).1 = true.
Proof. by vm_compute. Qed.
End SeenCache.

Module OrderTracker.

(** ** orderTracker *)

Inductive acceptResult : Type := acceptNew | acceptDuplicate | acceptOutOfOrder.

Record orderTracker : Type := mkTracker {
  seen : gset Z;
  nextWant : Z;
  order : list Z
}.

Definition newTracker : orderTracker := mkTracker ∅ 0 [].

Definition accept (seq : Z) (t : orderTracker) : acceptResult * Z * orderTracker :=
  if decide (seq ∈ seen t) then (acceptDuplicate, nextWant t, t)
  else if decide (seq ≠ nextWant t) then (acceptOutOfOrder, nextWant t, t)
  else
    let t' := mkTracker ({[ seq ]} ∪ seen t) (nextWant t + 1) (order t ++ [seq]) in
    (acceptNew, nextWant t', t').

Definition want (t : orderTracker) : Z := nextWant t.

Definition complete (n : Z) (t : orderTracker) : bool := bool_decide (n <= nextWant t).

(** The loop of [verifyContiguous]. *)
Fixpoint contiguous_from (i : Z) (l : list Z) : bool :=
  match l with
  | [] => true
  | seq :: r => if decide (seq ≠ i) then false else contiguous_from (i + 1) r
  end.

(** [true] is a nil error. *)
Definition verifyContiguous (n : Z) (t : orderTracker) : bool :=
  if decide (Z.of_nat (length (order t)) ≠ n) then false else contiguous_from 0 (order t).

(** A run: the verdicts of the deliveries, and the tracker. *)
Fixpoint deliver (seqs : list Z) (t : orderTracker) : list acceptResult * orderTracker :=
  match seqs with
  | [] => ([], t)
  | s :: r =>
      let '(v, _, t1) := accept s t in
      let '(vs, t2) := deliver r t1 in (v :: vs, t2)
  end.

(** ** Invariant *)

Record wf (t : orderTracker) : Prop := {
  wf_pos : 0 <= nextWant t;
  wf_order : order t = seqZ 0 (nextWant t);
  wf_seen : ∀ s, s ∈ seen t <-> 0 <= s < nextWant t
}.

Lemma tracker_wf_new : wf newTracker.
Proof. split; simpl; [done|done|]. intros s. split; [set_solver|lia]. Qed.

Lemma accept_wf s t : wf t -> wf (accept s t).2.
Proof.
  intros [Hp Ho Hs]. unfold accept. repeat case_decide; [done|done|]. simpl. split; simpl; [lia| |].
  - rewrite Ho. assert (s = nextWant t) as -> by (destruct (decide (s = nextWant t)); tauto).
    rewrite seqZ_app by lia. simpl. f_equal.
  - intros x. rewrite elem_of_union, elem_of_singleton, Hs.
    assert (s = nextWant t) as -> by (destruct (decide (s = nextWant t)); tauto). lia.
Qed.

(** What the sink answers: a number below the next is a duplicate, the next one
    is new, anything else is out of order and changes nothing. *)
Lemma accept_spec s t :
  wf t -> accept s t =
    if decide (0 <= s < nextWant t) then (acceptDuplicate, nextWant t, t)
    else if decide (s = nextWant t) then
      (acceptNew, nextWant t + 1, mkTracker ({[ s ]} ∪ seen t) (nextWant t + 1) (order t ++ [s]))
    else (acceptOutOfOrder, nextWant t, t).
Proof.
  intros [Hp Ho Hs]. unfold accept. destruct (decide (s ∈ seen t)) as [Hin|Hin]; rewrite Hs in Hin.
  - by rewrite decide_True by done.
  - rewrite (decide_False (P := 0 <= s < nextWant t)) by done.
    destruct (decide (s = nextWant t)); [by rewrite decide_False by tauto|by rewrite decide_True by done].
Qed.

Lemma deliver_wf seqs t : wf t -> wf (deliver seqs t).2.
Proof.
  revert t. induction seqs as [|s seqs IH]; intros t H; [done|]. simpl.
  pose proof (accept_wf s t H) as Ha. destruct (accept s t) as [[v w] t1]. simpl in Ha.
  specialize (IH t1 Ha). by destruct (deliver seqs t1).
Qed.

(** A stream with redeliveries: each number was delivered before, or is the
    next one; [k] is the next. *)
Fixpoint handoff (k : Z) (seqs : list Z) : Prop :=
  match seqs with
  | [] => True
  | s :: r => 0 <= s <= k ∧ handoff (if decide (s = k) then k + 1 else k) r
  end.

(** How far a stream goes. *)
Fixpoint reach (k : Z) (seqs : list Z) : Z :=
  match seqs with
  | [] => k
  | s :: r => reach (if decide (s = k) then k + 1 else k) r
  end.

Lemma deliver_handoff seqs t :
  wf t -> handoff (nextWant t) seqs ->
  acceptOutOfOrder ∉ (deliver seqs t).1 ∧ nextWant (deliver seqs t).2 = reach (nextWant t) seqs.
Proof.
  revert t. induction seqs as [|s seqs IH]; intros t H Hh; [by split; [set_solver|]|].
  cbn [deliver reach handoff] in *. destruct Hh as [Hs Hh].
  pose proof (accept_wf s t H) as Ha. rewrite (accept_spec s t H) in *.
  destruct (decide (s = nextWant t)) as [E|E].
  - rewrite (decide_False (P := 0 <= s < nextWant t)) in * by lia. cbn [snd] in Ha. destruct (IH _ Ha Hh) as [H1 H2].
    destruct (deliver seqs _). simpl in *. split; [rewrite not_elem_of_cons; by split|done].
  - rewrite (decide_True (P := 0 <= s < nextWant t)) in * by lia. cbn [snd] in Ha. destruct (IH _ Ha Hh) as [H1 H2].
    destruct (deliver seqs t). simpl in *. split; [rewrite not_elem_of_cons; by split|done].
Qed.

Lemma contiguous_seqZ (m : nat) k : contiguous_from k (seqZ k (Z.of_nat m)) = true.
Proof.
  revert k. induction m as [|m IH]; intros k; [done|]. rewrite seqZ_cons by lia.
  cbn [contiguous_from]. rewrite decide_False by tauto.
  replace (Z.succ k) with (k + 1) by lia. replace (Z.pred (Z.of_nat (S m))) with (Z.of_nat m) by lia. apply IH.
Qed.

(** ** Properties *)

(** The ordered sink of the example: whatever is delivered to it, the numbers it
    has accepted are 0, 1, 2, ... up to the next it wants, so [verifyContiguous]
    accepts exactly when [nextWant] numbers are asked for; and a stream that
    only repeats what was already delivered, as a handoff between two consumers
    does, is never reported out of order and is accepted to its end. *)
Lemma order_tracker_contiguous seqs n :
  let t := (deliver seqs newTracker).2 in
  order t = seqZ 0 (nextWant t)
  ∧ (verifyContiguous n t = true <-> n = nextWant t)
  ∧ (complete n t = true <-> n <= nextWant t)
  ∧ (handoff 0 seqs -> acceptOutOfOrder ∉ (deliver seqs newTracker).1 ∧ nextWant t = reach 0 seqs).
Proof.
  intros t. pose proof (deliver_wf seqs newTracker tracker_wf_new) as Hw. fold t in Hw. destruct Hw as [Hp Ho Hs].
  split_and!; [done| |by unfold complete; rewrite bool_decide_eq_true|exact (deliver_handoff seqs newTracker tracker_wf_new)].
  unfold verifyContiguous. rewrite Ho, length_seqZ, Z2Nat.id by done. case_decide as Hd.
  - split; [done|]. intros ->. by destruct Hd.
  - rewrite <- (Z2Nat.id (nextWant t)), contiguous_seqZ, Z2Nat.id by done. split; [|done]. intros _. destruct (decide (nextWant t = n)); [done|tauto].
Qed.

(** Two consumers with a redelivery at the handoff; a gap is noticed. *)
Example handoff_run :
  deliver [0; 1; 1; 2] newTracker
  = ([acceptNew; acceptNew; acceptDuplicate; acceptNew], (deliver [0; 1; 2] newTracker).2)
  ∧ (deliver [0; 2] newTracker).1 = [acceptNew; acceptOutOfOrder].
Proof. by vm_compute. Qed.
End OrderTracker.
