(* ===== verification/Effects.v ===== *)
(** * Effects: programs that call their environment

    The drivers of the repository (the example programs under [src/examples],
    the broker fixture of [src/internal/amqptest]) are sequences of calls whose
    answers decide how they go on.  Such a program is a [prog] over an
    [Interface] of calls; [runs] are its traces, [exec] runs it against an
    environment.  A [Monitor] is an automaton that reads a trace, and [wp] the
    weakest precondition of a program for the state its monitor ends in: the
    rules below prove what holds of every run, whatever the answers are. *)

From S2P Require Import Prelude Errors.

(** ** Programs *)

(** The calls, and the type of the answer to each. *)
Class Interface (op : Type) : Type := answer : op -> Type.

Section programs.
Context {op : Type} `{Interface op}.

(** [Block] is a program that has not returned: a loop that still waits when the
    iterations considered run out. *)
Inductive prog (A : Type) : Type :=
| Ret (a : A)
| Do (o : op) (k : answer o -> prog A)
| Block.
#[global] Arguments Ret {A} a.
#[global] Arguments Do {A} o k.
#[global] Arguments Block {A}.

Fixpoint pbind {A B} (p : prog A) (f : A -> prog B) : prog B :=
  match p with
  | Ret a => f a
  | Do o k => Do o (fun x => pbind (k x) f)
  | Block => Block
  end.

Definition call (o : op) : prog (answer o) := Do o Ret.

(** [defer]: [cleanup] runs when the rest of the function has returned. *)
Definition defer {A} (cleanup : prog unit) (rest : prog A) : prog A :=
  pbind rest (fun r => pbind cleanup (fun _ => Ret r)).

(** [if err != nil { return ... }]: what is returned is made of the error. *)
Definition check {A} (err : goerror) (ret : error -> A) (rest : prog A) : prog A :=
  match err with Some e => Ret (ret e) | None => rest end.

(** A loop whose body returns early with an error. *)
Fixpoint for_each {X} (xs : list X) (body : X -> prog goerror) : prog goerror :=
  match xs with
  | [] => Ret None
  | x :: r => pbind (body x) (fun err => match err with Some e => Ret (Some e) | None => for_each r body end)
  end.

(** ** Runs *)

Record event : Type := mkEvent { evOp : op; evAnswer : answer evOp }.

Fixpoint runs {A} (p : prog A) (tr : list event) (a : A) : Prop :=
  match p with
  | Ret b => tr = [] ∧ a = b
  | Do o k => ∃ x tr', tr = mkEvent o x :: tr' ∧ runs (k x) tr' a
  | Block => False
  end.

(** The run in which the [n]-th call is answered by [f n]. *)
Fixpoint exec {A} (f : nat -> ∀ o : op, answer o) (n : nat) (p : prog A) : option (list event * A) :=
  match p with
  | Ret a => Some ([], a)
  | Do o k =>
      match exec f (S n) (k (f n o)) with
      | Some (tr, a) => Some (mkEvent o (f n o) :: tr, a)
      | None => None
      end
  | Block => None
  end.

Lemma exec_runs {A} f n (p : prog A) tr a : exec f n p = Some (tr, a) -> runs p tr a.
Proof.
  revert n tr. induction p as [b|o k IH|]; intros n tr; simpl; [by intros [= <- <-]| |done].
  destruct (exec f (S n) (k (f n o))) as [[tr' a']|] eqn:E; [|done]. intros [= <- <-].
  exists (f n o), tr'. split; [done|]. by eapply IH.
Qed.

(** ** Monitors *)

(** An automaton over traces; [None] when the trace is refused. *)
Class Monitor (S : Type) : Type := observe_event : S -> event -> option S.

Context {S : Type} `{Monitor S}.

Fixpoint monitor (s : S) (tr : list event) : option S :=
  match tr with
  | [] => Some s
  | e :: r => match observe_event s e with Some s' => monitor s' r | None => None end
  end.

Fixpoint wp {A} (p : prog A) (Q : A -> S -> Prop) (s : S) : Prop :=
  match p with
  | Ret a => Q a s
  | Do o k => ∀ x, match observe_event s (mkEvent o x) with Some s' => wp (k x) Q s' | None => False end
  | Block => True
  end.

(** The rules are sound: every run is accepted, and ends as promised. *)
Lemma wp_runs {A} (p : prog A) Q s tr a :
  wp p Q s -> runs p tr a -> ∃ s', monitor s tr = Some s' ∧ Q a s'.
Proof.
  revert s tr. induction p as [b|o k IH|]; intros s tr; simpl; [| |done].
  - intros HQ [-> ->]. by exists s.
  - intros Hk (x & tr' & -> & Hr). specialize (Hk x). simpl.
    destruct (observe_event s (mkEvent o x)) as [s1|]; [|done]. by eapply IH.
Qed.

Lemma wp_mono {A} (p : prog A) (Q R : A -> S -> Prop) s : (∀ a s', Q a s' -> R a s') -> wp p Q s -> wp p R s.
Proof.
  intros HQR. revert s. induction p as [b|o k IH|]; intros s; simpl; [apply HQR| |done].
  intros Hk x. specialize (Hk x). destruct (observe_event s (mkEvent o x)); [|done]. by apply IH.
Qed.

Lemma wp_bind {A B} (p : prog A) (f : A -> prog B) Q s :
  wp p (fun a => wp (f a) Q) s -> wp (pbind p f) Q s.
Proof.
  revert s. induction p as [b|o k IH|]; intros s; simpl; [done| |done].
  intros Hk x. specialize (Hk x). destruct (observe_event s (mkEvent o x)); [|done]. by apply IH.
Qed.

Lemma wp_call (o : op) Q s :
  (∀ x, match observe_event s (mkEvent o x) with Some s' => Q x s' | None => False end) -> wp (call o) Q s.
Proof. done. Qed.

Lemma wp_defer {A} cleanup (rest : prog A) Q s :
  wp rest (fun r => wp cleanup (fun _ => Q r)) s -> wp (defer cleanup rest) Q s.
Proof. intros Hr. apply wp_bind. eapply wp_mono; [|exact Hr]. intros a s' Hc. by apply wp_bind. Qed.

(** A loop keeps [s] while its body succeeds, and leaves with the first error. *)
Lemma wp_for_each {X} (xs : list X) body Q s :
  (∀ x, x ∈ xs -> wp (body x) (fun err s' => match err with Some _ => Q err s' | None => s' = s end) s) ->
  Q None s -> wp (for_each xs body) Q s.
Proof.
  intros Hb HQ. induction xs as [|x r IH]; [done|]. simpl. apply wp_bind.
  eapply wp_mono; [|apply Hb; by left]. intros [e|] s'; [done|]. intros ->. apply IH. intros y Hy. apply Hb. by right.
Qed.
End programs.

#[global] Arguments prog op {_} A.
#[global] Arguments event op {_}.
#[global] Arguments Monitor op {_} S.

Declare Scope prog_scope.
Delimit Scope prog_scope with prog.
Notation "'let!' x := p 'in' q" := (pbind p (fun x => q))
  (at level 200, x name, p at level 100, q at level 200) : prog_scope.
Notation "'run!' p ; q" := (pbind p (fun _ => q))
  (at level 200, p at level 100, q at level 200) : prog_scope.
Notation "'defer!' c ; q" := (defer c q)
  (at level 200, c at level 100, q at level 200) : prog_scope.
Notation "'try!' p 'else' r ; q" := (pbind p (fun err => check err r q))
  (at level 200, p at level 100, r at level 100, q at level 200) : prog_scope.
