(* ===== verification/Fixture.v ===== *)
(** * Fixture: the broker a test starts in a container

    Models [src/internal/amqptest]: the options of [NewRabbitMQ] (options.go), the
    files of its TLS listener (certs.go), the gates of the tests (plugins.go)
    and the start and the termination of the container (rabbitmq.go), as a
    program over the calls it makes ([Effects]).  The container runtime and the
    file system are the environment.  A test ends as the testing package ends
    it: by returning or by [FailNow], and then the cleanups registered with
    [t.Cleanup] run, last first. *)

From Stdlib Require Import Ascii.
From stdpp Require Import strings sorting.
From S2P Require Import Prelude Errors Limiters Retry Covercheck ClusterKit Effects.

#[local] Open Scope Z_scope.

(** ** Options *)

Record config : Type := mkConfig {
  version : text;
  adminUser : text;
  adminPass : text;
  extraPlugins : list text;
  extraConfig : gmap text text;
  tls : bool
}.

Definition defaultConfig : config :=
  mkConfig (of_string "3.13") (of_string "guest") (of_string "guest")
    [of_string "rabbitmq_auth_mechanism_ssl"] ∅ false.

Inductive Option : Type :=
| WithRabbitMQVersion (version : text)
| WithEnabledPlugins (plugins : list text)
| WithExtraConfig (kv : gmap text text)
| WithTLS.

(** [o(&cfg)]; [maps.Copy] overwrites. *)
Definition apply_option (c : config) (o : Option) : config :=
  match o with
  | WithRabbitMQVersion v =>
      mkConfig v (adminUser c) (adminPass c) (extraPlugins c) (extraConfig c) (tls c)
  | WithEnabledPlugins ps =>
      mkConfig (version c) (adminUser c) (adminPass c) ps (extraConfig c) (tls c)
  | WithExtraConfig kv =>
      mkConfig (version c) (adminUser c) (adminPass c) (extraPlugins c) (kv ∪ extraConfig c) (tls c)
  | WithTLS =>
      mkConfig (version c) (adminUser c) (adminPass c) (extraPlugins c) (extraConfig c) true
  end.

Definition configure (opts : list Option) : config := foldl apply_option defaultConfig opts.

(** ** The gates *)

Inductive gate : Type := Proceed | Skip.

Definition RequireDelayedExchange (envImage envFile : text) : gate :=
  if delayedConfigured envImage envFile then Proceed else Skip.

Definition RequireSSLAuth (envImage : text) : gate := if decide (envImage = []) then Skip else Proceed.

(** ** The calls *)

Inductive customizer : Type :=
| WithAdminUsername (user : text)
| WithAdminPassword (pass : text)
| WithSSL (caPath certPath keyPath : text)       (* no peer verification *)
| WithHostFile (hostPath containerPath : text) (fileMode : Z)
| WithContent (content containerPath : text) (fileMode : Z)
| WithWaitForLog (deadline : Z) (regexp : text) (startupTimeout : Z).

(** The embedded fixtures. *)
Inductive pem : Type := caCertPEM | serverCertPEM | serverKeyPEM.

#[global] Instance pem_eq_dec : EqDecision pem.
Proof. solve_decision. Defined.

(** A container is known by its number. *)
Inductive op : Type :=
| TempDir
| WriteFile (path : text) (data : pem) (perm : Z)
| RunContainer (image : text) (customizers : list customizer)
| Exec (c : nat) (cmd : list text)
| AmqpURL (c : nat)
| AmqpsURL (c : nat)
| Terminate (c : nat)
| Logf.

#[export] Instance fixture_interface : Interface op := fun o =>
  match o with
  | TempDir => text
  | WriteFile _ _ _ => goerror
  | RunContainer _ _ => (option nat * goerror)%type
  | Exec _ _ => (Z * goerror)%type
  | AmqpURL _ | AmqpsURL _ => (text * goerror)%type
  | Terminate _ => goerror
  | Logf => unit
  end.

#[local] Open Scope prog_scope.

(** ** The files of the TLS listener *)

(** [filepath.Join(dir, name)], for a clean directory and a base name. *)
Definition Join (dir name : text) : text := dir ++ of_string "/" ++ name.

(** [filepath.Base]. *)
Definition Base (path : text) : text :=
  if decide (path = []) then of_string "."
  else match TrimRightSlash path with
       | [] => of_string "/"
       | p => List.last (split_on "/" p []) []
       end.

Definition tls_paths (dir : text) : text * text * text :=
  (Join dir (of_string "ca.pem"), Join dir (of_string "server.pem"), Join dir (of_string "server.key")).

Definition tls_files (dir : text) : list (text * pem) :=
  let '(caPath, certPath, keyPath) := tls_paths dir in
  [(caPath, caCertPEM); (certPath, serverCertPEM); (keyPath, serverKeyPEM)].

(** The files are written in the order the range over the map has. *)
Definition writeServerTLSFiles (order : list (text * pem) -> list (text * pem)) (dir : text)
  : prog op (result error (text * text * text)) :=
  let! err := for_each (order (tls_files dir)) (fun f => call (WriteFile f.1 f.2 384)) in
  Ret (match err with Some e => Err e | None => Ok (tls_paths dir) end).

(** ** The broker *)

Record RabbitMQ : Type := mkRabbitMQ { container : nat; amqpURI : text; amqpsURI : text }.

(** How a function of a test ends: it returns, [require] calls [FailNow], or a
    nil container is dereferenced. *)
Inductive ending (A : Type) : Type := Returned (a : A) | FailedNow (e : goerror) | Panicked.
#[global] Arguments Returned {A} a.
#[global] Arguments FailedNow {A} e.
#[global] Arguments Panicked {A}.

Definition brokerStartupTimeout : Z := 180 * second.

(** The cleanup with the [sync.Once]: [once] tells whether it was used. *)
Definition terminate (c : nat) (once : bool) : prog op bool :=
  if once then Ret true
  else
    let! err := call (Terminate c) in
    match err : goerror with
    | Some _ => run! call Logf; Ret true
    | None => Ret true
    end.

Definition enablePlugins (c : nat) (plugins : list text) : prog op (ending unit) :=
  let! answered := call (Exec c ([of_string "rabbitmq-plugins"; of_string "enable"] ++ plugins)) in
  let '(code, err) := answered : Z * goerror in
  Ret (match err with
       | Some e => FailedNow (Some e)
       | None => if decide (code = 0) then Returned tt else FailedNow None
       end).

(** The customizers before the files of the TLS listener, and after. *)
Definition admin_customizers (cfg : config) : list customizer :=
  [WithAdminUsername (adminUser cfg); WithAdminPassword (adminPass cfg)].

Definition file_customizers (cfg : config) (res : resolution) : list customizer :=
  match mode res with
  | modeMountedPlugin =>
      [WithHostFile (delayedPluginFile res) (of_string "/opt/rabbitmq/plugins/" ++ Base (delayedPluginFile res)) 420]
  | _ => []
  end ++
  (if decide (extraConfig cfg = ∅) then []
   else [WithContent (renderConf (extraConfig cfg)) (of_string "/etc/rabbitmq/conf.d/20-warren-amqptest.conf") 420]) ++
  [WithWaitForLog brokerStartupTimeout (of_string ".*Server startup complete.*") brokerStartupTimeout].

Definition plugins_to_enable (cfg : config) (res : resolution) : list text :=
  match mode res with
  | modePrebakedImage => []
  | modeMountedPlugin => extraPlugins cfg ++ [of_string "rabbitmq_delayed_message_exchange"]
  | modeNoDelayed => extraPlugins cfg
  end.

Section fixture.
Context (order : list (text * pem) -> list (text * pem)) (envImage envFile : text).

(** What follows the registration of the cleanup. *)
Definition provision (cfg : config) (res : resolution) (c : nat) : prog op (ending RabbitMQ) :=
  let! enabled :=
    (if decide (plugins_to_enable cfg res = []) then Ret (Returned tt)
     else enablePlugins c (plugins_to_enable cfg res)) in
  match enabled : ending unit with
  | FailedNow e => Ret (FailedNow e)
  | Panicked => Ret Panicked
  | Returned _ =>
      let! plain := call (AmqpURL c) in
      let '(uri, err) := plain : text * goerror in
      match err with
      | Some e => Ret (FailedNow (Some e))
      | None =>
          if tls cfg then
            let! secure := call (AmqpsURL c) in
            let '(uris, err) := secure : text * goerror in
            Ret (match err with Some e => FailedNow (Some e) | None => Returned (mkRabbitMQ c uri uris) end)
          else Ret (Returned (mkRabbitMQ c uri []))
      end
  end.

(** From [rabbitmq.Run] on: the cleanups registered, each by the container it
    terminates, and the ending. *)
Definition start (cfg : config) (res : resolution) (ssl : list customizer) : prog op (list nat * ending RabbitMQ) :=
  let! started := call (RunContainer (image res) (admin_customizers cfg ++ ssl ++ file_customizers cfg res)) in
  let '(c, err) := started : option nat * goerror in
  let cleanups := match c with Some c => [c] | None => [] end in
  match err, c with
  | Some e, _ => Ret (cleanups, FailedNow (Some e))
  | None, None => Ret (cleanups, Panicked)
  | None, Some c => let! r := provision cfg res c in Ret (cleanups, r)
  end.

Definition NewRabbitMQ (opts : list Option) : prog op (list nat * ending RabbitMQ) :=
  let cfg := configure opts in
  let res := resolve (version cfg) envImage envFile in
  let! ssl :=
    (if tls cfg then
       let! dir := call TempDir in
       let! paths := writeServerTLSFiles order dir in
       Ret (match paths with
            | Ok (caPath, certPath, keyPath) => Ok [WithSSL caPath certPath keyPath]
            | Err e => Err e
            end)
     else Ret (Ok [])) in
  match ssl : result error (list customizer) with
  | Err e => Ret ([], FailedNow (Some e))
  | Ok ssl => start cfg res ssl
  end.

(** [r.Cleanup(t)], called by the test as often as it likes. *)
Fixpoint Cleanup (times : nat) (c : nat) (once : bool) : prog op bool :=
  match times with
  | O => Ret once
  | S times => let! once := terminate c once in Cleanup times c once
  end.

(** The cleanups, the last registered first; all are of one [RabbitMQ]. *)
Fixpoint run_cleanups (cs : list nat) (once : bool) : prog op unit :=
  match cs with
  | [] => Ret tt
  | c :: r => let! once := terminate c once in run_cleanups r once
  end.

(** A test with a broker: it may call [Cleanup] itself, [explicit] times, and the
    cleanups run when it is over, however [NewRabbitMQ] ended. *)
Definition test (opts : list Option) (explicit : nat) : prog op (ending RabbitMQ) :=
  let! started := NewRabbitMQ opts in
  let '(cleanups, r) := started : list nat * ending RabbitMQ in
  let! once := match r with Returned b => Cleanup explicit (container b) false | _ => Ret false end in
  run! run_cleanups (rev cleanups) once;
  Ret r.
End fixture.

(** ** What a run may do *)

(** The container that runs, and the files written. *)
Record watch : Type := mkWatch { live : option nat; files : list (text * pem) }.

Definition at_start : watch := mkWatch None [].

(** A customizer's host files exist. *)
Definition provided (fs : list (text * pem)) (cu : customizer) : bool :=
  match cu with
  | WithSSL ca cert key =>
      bool_decide ((ca, caCertPEM) ∈ fs ∧ (cert, serverCertPEM) ∈ fs ∧ (key, serverKeyPEM) ∈ fs)
  | _ => true
  end.

(** One container at a time, used and terminated only while it runs, and started
    with files that are there. *)
#[export] Instance fixture_monitor : Monitor op watch := fun w e =>
  match e with
  | mkEvent (WriteFile p d _) err => Some (match err : goerror with Some _ => w | None => mkWatch (live w) ((p, d) :: files w) end)
  | mkEvent (RunContainer _ cs) (c, _) =>
      if decide (live w = None ∧ forallb (provided (files w)) cs = true) then Some (mkWatch c (files w)) else None
  | mkEvent (Exec c _) _ | mkEvent (AmqpURL c) _ | mkEvent (AmqpsURL c) _ =>
      if decide (live w = Some c) then Some w else None
  | mkEvent (Terminate c) _ => if decide (live w = Some c) then Some (mkWatch None (files w)) else None
  | _ => Some w
  end.

(** ** Properties *)

(** An option that is given last wins; configuration entries add up. *)
Lemma configure_snoc opts o : configure (opts ++ [o]) = apply_option (configure opts) o.
Proof. unfold configure. by rewrite foldl_app. Qed.

(** The gates follow the choice of the image: a test that needs the plugin runs
    exactly when the broker it will start is expected to have it. *)
Lemma gates_spec version envImage envFile :
  (RequireDelayedExchange envImage envFile = Proceed <->
     delayedAvailable (resolve version envImage envFile) = true)
  ∧ (RequireSSLAuth envImage = Proceed <-> mode (resolve version envImage envFile) = modePrebakedImage).
Proof.
  rewrite resolve_delayed. unfold RequireDelayedExchange, RequireSSLAuth, resolve. split.
  - by destruct (delayedConfigured _ _).
  - repeat case_decide; naive_solver.
Qed.

(** A call: its answer, by the pattern, and the state after it. *)
Tactic Notation "wp_op" simple_intropattern(pat) :=
  apply wp_bind; lazymatch goal with |- wp (call ?o) ?Q ?w => refine (wp_call o Q w _) end;
  let x := fresh in intros x; cbn in x; destruct x as pat; cbv beta iota delta [observe_event fixture_monitor];
  try (rewrite decide_True by done).

Section runs.
Context (order : list (text * pem) -> list (text * pem)) (envImage envFile : text).
Hypothesis order_perm : ∀ l, order l ≡ₚ l.

(** Writing files: all of them are there when no error is returned. *)
Lemma wp_write_all fs Q w :
  (∀ e w', live w' = live w -> Q (Some e) w') ->
  (∀ w', live w' = live w -> (∀ f, f ∈ fs -> f ∈ files w') -> (∀ f, f ∈ files w -> f ∈ files w') -> Q None w') ->
  wp (for_each fs (fun f => call (WriteFile f.1 f.2 384))) Q w.
Proof.
  revert w Q. induction fs as [|f fs IH]; intros w Q He Hn; [apply Hn; set_solver|].
  cbn [for_each]. wp_op [e|]; [by apply He|].
  apply IH; [by intros e w' ?; apply He|]. intros w' Hl Hf Hk. cbn [files live] in *. apply Hn; [done| |set_solver].
  intros g [->|Hg]%elem_of_cons; [|by apply Hf]. apply Hk. destruct f. by left.
Qed.

Lemma wp_writeServerTLSFiles dir Q w :
  (∀ e w', live w' = live w -> Q (Err e) w') ->
  (∀ w', live w' = live w -> (∀ f, f ∈ tls_files dir -> f ∈ files w') -> Q (Ok (tls_paths dir)) w') ->
  wp (writeServerTLSFiles order dir) Q w.
Proof.
  intros He Hn. apply wp_bind, wp_write_all; [done|]. intros w' Hl Hf _. apply Hn; [done|].
  intros f Hin. apply Hf. by rewrite order_perm.
Qed.

(** [once] tells whether the container is gone. *)
Definition tracks (c : nat) (once : bool) (w : watch) : Prop := live w = if once then None else Some c.

Lemma wp_terminate c once Q w : tracks c once w -> (∀ w', tracks c true w' -> Q true w') -> wp (terminate c once) Q w.
Proof.
  unfold tracks. intros Hw HQ. destruct once; [by apply HQ|]. wp_op [e|]; [wp_op []|]; by apply HQ.
Qed.

Lemma wp_Cleanup n c once Q w : tracks c once w -> (∀ o w', tracks c o w' -> Q o w') -> wp (Cleanup n c once) Q w.
Proof.
  revert once w. induction n as [|n IH]; intros once w Hw HQ; [by apply HQ|]. apply wp_bind, wp_terminate; [done|]. auto.
Qed.

Definition of_container (c : nat) (r : ending RabbitMQ) : Prop :=
  match r with Returned b => container b = c | _ => True end.

Lemma wp_provision cfg res c Q w :
  live w = Some c -> (∀ r, of_container c r -> Q r w) -> wp (provision cfg res c) Q w.
Proof.
  intros Hw HQ. apply wp_bind.
  assert (∀ R, (∀ e : ending unit, R e w) ->
    wp (if decide (plugins_to_enable cfg res = []) then Ret (Returned tt) else enablePlugins c (plugins_to_enable cfg res)) R w)
    as Hp.
  { intros R HR. case_decide; [apply HR|]. wp_op [code err]. apply HR. }
  apply Hp. intros [[]|e|]; [|by apply HQ..]. wp_op [uri [e|]]; [by apply HQ|].
  destruct (tls cfg); [|by apply HQ]. wp_op [uris [e|]]; by apply HQ.
Qed.

(** What [NewRabbitMQ] leaves: a cleanup for the container, exactly if there is one. *)
Definition registered (cr : list nat * ending RabbitMQ) (w : watch) : Prop :=
  cr.1 = option_list (live w) ∧ ∀ b, cr.2 = Returned b -> live w = Some (container b).

Lemma wp_start cfg res ssl Q w :
  live w = None -> forallb (provided (files w)) ssl = true -> (∀ cr w', registered cr w' -> Q cr w') ->
  wp (start cfg res ssl) Q w.
Proof.
  intros Hw Hssl HQ. apply wp_bind, wp_call. intros x. cbn in x. destruct x as [c err]. cbn [observe_event fixture_monitor].
  rewrite decide_True; [|split; [done|]; rewrite !forallb_app, Hssl; unfold file_customizers; by destruct (mode res); case_decide].
  destruct err as [e|], c as [c|]; try by apply HQ. apply wp_bind, wp_provision; [done|].
  intros r Hr. apply HQ. split; [done|]. intros b E. cbn in E. subst r. cbn in Hr |- *. by subst c.
Qed.

Lemma wp_NewRabbitMQ opts Q w :
  live w = None -> (∀ cr w', registered cr w' -> Q cr w') -> wp (NewRabbitMQ order envImage envFile opts) Q w.
Proof.
  intros Hw HQ. apply wp_bind. destruct (tls _); [|by apply wp_start].
  apply wp_bind, wp_call. intros dir. apply wp_bind, wp_writeServerTLSFiles.
  - intros e w' Hl. apply HQ. split; [|done]. cbn [fst]. rewrite Hl. cbn. by rewrite Hw.
  - intros w' Hl Hf. apply wp_start; [by rewrite Hl| |done]. cbn [forallb provided tls_paths].
    rewrite andb_true_r, bool_decide_eq_true. split_and!; apply Hf; set_solver.
Qed.

Lemma wp_test opts n Q w :
  live w = None -> (∀ r w', live w' = None -> Q r w') -> wp (test order envImage envFile opts n) Q w.
Proof.
  intros Hw HQ. apply wp_bind, wp_NewRabbitMQ; [done|]. intros [cl r] w' [Ecl Hr]. cbn [fst snd] in *. subst cl.
  assert (∀ o w'', match live w' with Some c => tracks c o w'' | None => live w'' = None end ->
    wp (pbind (run_cleanups (rev (option_list (live w'))) o) (fun _ => Ret r)) Q w'') as Hend.
  { intros o w'' Ht. apply wp_bind. destruct (live w') as [c|]; [|by apply HQ].
    apply wp_bind, wp_terminate; [done|]. intros w3 H3. by apply HQ. }
  apply wp_bind. destruct r as [b|e|].
  - rewrite (Hr b eq_refl) in Hend |- *. apply wp_Cleanup; [by apply Hr|]. apply Hend.
  - apply Hend. by destruct (live w') eqn:E.
  - apply Hend. by destruct (live w') eqn:E.
Qed.
End runs.

(** How often a container was started, and terminated. *)
Definition one_if (b : bool) : nat := if b then 1 else 0.

Definition started (c : nat) (e : event op) : nat :=
  match e with mkEvent (RunContainer _ _) a => one_if (bool_decide (a.1 = Some c)) | _ => 0 end.
Definition terminated (c : nat) (e : event op) : nat :=
  match e with mkEvent (Terminate c') _ => one_if (bool_decide (c' = c)) | _ => 0 end.

Definition starts (c : nat) (tr : list (event op)) : nat := sum_list (started c <$> tr).
Definition terminations (c : nat) (tr : list (event op)) : nat := sum_list (terminated c <$> tr).

Definition alive (c : nat) (w : watch) : nat := one_if (bool_decide (live w = Some c)).

Lemma not_alive c w : live w = None -> alive c w = 0%nat.
Proof. unfold alive. by intros ->. Qed.

Lemma observe_counts c w e w' :
  observe_event w e = Some w' -> (started c e + alive c w = terminated c e + alive c w')%nat.
Proof.
  destruct e as [o x]. unfold observe_event, fixture_monitor, alive, started, terminated.
  destruct o as [|p d m|im cs|c' cmd|c'|c'|c'|]; cbn in x; try destruct x as [x err]; try (case_decide as Hl; [|done]);
    intros [= <-]; cbn [live fst]; try done.
  - by destruct x.
  - destruct Hl as [-> _]. rewrite (bool_decide_eq_false_2 (None = Some c)) by done. cbn. lia.
  - rewrite Hl, (bool_decide_eq_false_2 (None = Some c)) by done. cbn. repeat case_bool_decide; naive_solver.
Qed.

Lemma monitor_counts c w tr w' :
  monitor w tr = Some w' -> (starts c tr + alive c w = terminations c tr + alive c w')%nat.
Proof.
  revert w. induction tr as [|e tr IH]; intros w; cbn [monitor]; [by intros [= ->]|].
  destruct (observe_event w e) as [w1|] eqn:E; [|done]. intros Hm%IH. apply (observe_counts c) in E.
  unfold starts, terminations in *. cbn in *. lia.
Qed.

(** No broker is leaked and none is terminated twice.  In every run of a test that
    ends (however the file system and the container runtime answer, a failed
    start that left a running container included, and however often the test
    calls [Cleanup] itself) a container is terminated exactly as often as it was
    started, is used only while it runs, and is started with TLS only after the
    three files it mounts were written. *)
Theorem fixture_terminates order envImage envFile opts explicit tr r :
  (∀ l, order l ≡ₚ l) -> runs (test order envImage envFile opts explicit) tr r ->
  (∀ c, terminations c tr = starts c tr) ∧ ∃ w, monitor at_start tr = Some w ∧ live w = None.
Proof.
  intros Ho Hr.
  destruct (wp_runs _ (fun _ w => live w = None) at_start tr r
    (wp_test order envImage envFile Ho opts explicit _ at_start eq_refl (fun _ _ E => E)) Hr) as (w & Hm & Hl).
  split; [|by exists w]. intros c. apply (monitor_counts c) in Hm.
  rewrite !not_alive in Hm by done. lia.
Qed.

(** An environment in which all goes well but, perhaps, the start, which then times
    out and leaves a running container. *)
Definition environment (err : goerror) (n : nat) (o : op) : answer o :=
  match o return answer o with
  | TempDir => of_string "/tmp/x"
  | RunContainer _ _ => (Some 7%nat, err)
  | Exec _ _ => (0, None)
  | AmqpURL _ | AmqpsURL _ => ([], None)
  | WriteFile _ _ _ | Terminate _ => None
  | Logf => tt
  end.

Lemma fixture_terminates_witness :
  ∃ tr, runs (test id [] [] [WithTLS] 2) tr (FailedNow (Some (OtherError 1)))
    ∧ starts 7 tr = 1%nat ∧ terminations 7 tr = 1%nat.
Proof.
  destruct (exec (environment (Some (OtherError 1))) 0 (test id [] [] [WithTLS] 2)) as [[tr r]|] eqn:E; [|exfalso; vm_compute in E; discriminate E].
  pose proof (exec_runs _ _ _ _ _ E) as Hr. vm_compute in E. injection E as <- <-. eexists. split; [exact Hr|].
  split; [reflexivity|]. rewrite (proj1 (fixture_terminates id [] [] [WithTLS] 2 _ _ (fun l => Permutation_refl l) Hr)).
  reflexivity.
Defined.

(** A broker that starts without trouble, with the delayed plugin mounted. *)
Example fixture_starts :
  (fun x => (length x.1, x.2)) <$>
    exec (environment None) 0
      (test id [] (of_string "/tmp/delayed.ez") [WithTLS; WithExtraConfig {[ of_string "k" := of_string "v" ]}] 1)
  = Some (9%nat, Returned (mkRabbitMQ 7 [] [])).
Proof. vm_compute. reflexivity. Qed.
